(* ===== verification/_CoqProject ===== *)
-Q . S2P
Prelude.v
DList.v
Kernel.v
Port.v
Scheduler.v
SchedInv.v
SchedSpec.v
Task.v
WaitList.v
Ring.v
KernelInv.v
TaskSpec.v
KernelStep.v
ContextSwitch.v
Mutex.v
Semaphore.v
Queue.v
Timer.v
TimerSpec.v
Frame.v
System.v
Abstract.v
Refinement.v
Simulation.v
Delivery.v
Waiting.v
AbstractFrame.v
TimerMachine.v
TimerDuty.v
TimerWake.v
Inheritance.v
Board.v
PowerSupply.v
Report.v
Main.v
Startup.v
Interrupts.v
Application.v
AppSafe.v
AppLive.v
Lab.v
KernelProps.v
RefinementProps.v
TaskProps.v
ObjectProps.v
QueueTimerProps.v
TimerProps.v
AppProps.v
ProgramProps.v
Scenarios.v
