(* ===== verification/Prelude.v ===== *)
(** * nimbleRTOS: a verification development

    nimbleRTOS is a preemptive, priority-based real-time kernel for Cortex-M4
    ([src/kernel/], [src/port/]) with a power-supply controller as its
    application ([src/app/power_supply/]).  This library models the C code,
    the context switch and the application in Rocq and proves what makes them
    correct.  This file is its root: the documentation, then the notation, the
    state-and-undefinedness monad, its weakest preconditions and the lemmas on
    machine integers and lists that every other file uses.

    ** The program

    A kernel object (TCB, mutex, semaphore, queue, timer) holds intrusive list
    nodes.  The scheduler keeps a ready list for each of the 32 priorities, a
    bitmap of the non-empty ones and a delayed list; each object has a wait
    list, sorted by priority.  A kernel call runs in a critical section
    (BASEPRI) and may ask for a switch, which PendSV performs later; SysTick
    wakes the delayed tasks; device interrupts give semaphores and send to
    queues.  The application: an ADC interrupt feeds samples to the control
    task and signals faults to the protection task; a UART interrupt feeds the
    command line; the status is shared under a mutex.

    ** How the code is modelled

    - A computation is [M S A = S → option (A * S)]; [None] is undefined
      behaviour (a null or wild pointer, a missing object, an access outside
      an array, [__builtin_clz(0)], [x % 0]).  "Defined" therefore means that
      the code does none of these.
    - [uint32_t] is [Z] with [u32] (mod 2^32) after each operation, [(int32_t)]
      is [i32]; [float] is IEEE binary32 ([SpecFloat]).
    - Pointers to nodes are the names [nid]: [NLink t] is [&tcb->link] of task
      [t], [NEvent t] its [event_link], [NReady p] the head of a ready list,
      and so on; [NIMBLE_CONTAINER_OF] is the partial inverse.  The node store
      [nodes] maps names to next and prev pointers; a head the code has not
      initialised is absent, so following it is undefined.
    - Pointers to objects are natural numbers; the null pointer is [None] (or
      address 0 for code and stacks, which are addresses).  RAM words (task
      stacks) are a map from addresses.
    - A call that blocks is cut at its context switch: [nimble_mutex_lock]
      returns [None], and [nimble_mutex_lock_resume] is the code after it.
      [_crit] is a call up to the end of its critical section, with the switch
      request that may follow as a boolean result.

    ** Files

    - [DList]: [nimble_list.h], with the representation predicate [repr].
    - [Kernel]: the types and structures of the headers, the state [kstate],
      access to it.  [Port]: [exception_handlers.c], [task_stack_init.c].
    - [Scheduler], [Task], [WaitList] (the sorted insertion that mutex.c,
      semaphore.c and queue.c each copy), [Mutex], [Semaphore], [Ring] (the
      byte buffer of a queue), [Queue], [Timer]: the files of
      [src/kernel/src/] of the same names, function by function.
    - [ContextSwitch]: [context_switch.S] on r4-r11 and psp.
    - [SchedInv], [SchedSpec], [KernelInv], [TaskSpec], [KernelStep],
      [TimerSpec]: the invariant ([kernel_inv s L]: the pointers of [s] hold
      the lists [L], and lists, bitmap, task states and objects agree), and
      what each operation does to [s] and [L].  [Frame]: which parts of the
      state each operation never writes ([Respects], [Keeps]).
    - [System]: the running system as a state machine: kernel calls of the
      running task, switch requests, PendSV, resumption of blocked calls,
      ticks, device interrupts ([step], [reachable], [sys_inv]).  The class
      [KernelCall] of [KernelInv] is the interface between it and the objects.
    - [TimerMachine]: the machine with tasks that use timers, and the timer task
      as a program of it, section by section; its invariant.  [TimerDuty]: what
      each of its events does to the timers, and why none fires early.
      [TimerWake]: the sleep of the timer task covers the first deadline.
    - [Inheritance]: the owner of a mutex while others wait for it, and why the
      stale ready bits that raising it leaves are never followed.
    - [Abstract]: the kernel as a pointer-free specification (queues of tasks
      and of items, no bitmap, ring or interrupt mask).  [Refinement]: each
      call and each resumed call is the abstract one; [Simulation]: each
      event and each run.  [Delivery]: what a run puts into and takes out of
      a queue, and [Waiting]: how a wait without a timeout ends, both by way
      of the abstract machine; [AbstractFrame]: what each abstract call leaves
      alone.
    - [Board], [PowerSupply], [Main], [Interrupts]: [system_stm32f4xx.c], the
      application's data and local code, [main.c], [isr_bridge.c].
      [Startup]: the loops of [startup_stm32f407xx.S] that run before [main].
      [Report]: the text of the status reply and of the log lines.
      [Application]: the task loops as programs of the machine, with the
      shared status accessed word by word; [AppSafe]: their data; [AppLive]: which
      task holds the mutex, who waits, and that there is always a next step.
    - [Lab]: a concrete memory map, on which the model is executed; the
      witnesses and the scenarios run on it.
    - [KernelProps], [RefinementProps], [TaskProps], [ObjectProps],
      [QueueTimerProps], [TimerProps], [AppProps], [ProgramProps]: the
      properties, with their witnesses.
      [Scenarios]: runs in which the code does not do what it means to.

    ** Modes

    [nimble_mutex_lock] raises the owner's priority and nothing else: an owner
    that is READY stays on the list of its old priority, one that waits keeps
    its place.  The machine has a mode (class [Mode] of [SchedInv]) that says
    which contended locks its runs contain: in [strict] ones a lock raises no
    owner that is READY or waits for an object, and the lists are exact; in
    [inherit] ones it may raise READY owners; in [free] ones also waiting
    owners.  The invariant has
    a form for each (the fields [exact] and [ordered]): without exactness a
    task is on a list that was its own when it was put there ([home]), and the
    bits of the bitmap that the class [Stale] names may be stale.  The theorems
    on reachable states hold in every mode unless they say otherwise; the
    application is proved in [inherit], which its own locks need.

    ** What is proved

    - From reset through [main], no run of the machine meets undefined
      behaviour, but for a switch that follows a stale bit; under the discipline
      that the application keeps ([inheritance_safe]) there is none; the ready
      lists and the bitmap, the place of every task and the objects are
      consistent in every reachable state; a mutex has one owner until it
      unlocks; PendSV runs a task of the highest non-empty ready list.
    - The machine refines the abstract kernel: from reset, every run of the
      code is a run of the specification, with the same replies; along every
      run each queue delivers each accepted item once and in order, and a call
      that waits forever never times out.
    - The application on the kernel, from reset, under every interleaving: the
      shared status is accessed under its mutex only, so its functions are
      atomic; no task meets undefined behaviour, and the running one always
      has a next step; a fault latches.
    - Timers on the kernel, from reset, under every interleaving of the tasks
      that use them: no undefined behaviour; the list is that of the active
      timers, in order; no timer of a period below 2^31 fires early, none drifts
      while it is less than a period late; the timer task does not oversleep.
    - Each call, on every branch, errors included; the tick, exact delays, the
      round trip of the context switch, the frame of a new task; FIFO order of
      queues and of waiters of one priority; termination and effect of the
      timer task's inner loop.
    - Parts of the application: the reset code, thresholds in floating point,
      latency of the fault path, the soft start, the command line and the exact
      text of its reports, the board.
    - Defects: priority inheritance of a READY owner does not take effect and
      leaves a stale bit in the bitmap; a lost wake-up in queues; a fault that
      is overwritten; a periodic timer of period 0; delays beyond 2^31; ticks
      that the timer task sleeps twice.

    ** Limits and choices

    - Loops take fuel: list scans [list_fuel], the number of nodes plus one,
      which [list_shorter] shows is enough.  The timer task's inner loop takes a
      number of rounds and says if it came to its [break] within them: it does
      if there are more than the due firings, without ticks and with positive
      periods ([timer_pass_terminates]), and never does with a period of 0
      ([zero_period_hangs]).
    - The events of the machine are atomic: a critical section, an interrupt
      handler, PendSV.  For SysTick and PendSV that is what their priority
      gives, the lowest, equal, and masked by BASEPRI ([board_priorities]).  A
      device interrupt is atomic, and finds the others so, only at that lowest
      priority too: PendSV runs [nimble_scheduler_select_next] without raising
      BASEPRI and the [_from_isr] calls enter no critical section, so one that
      is more urgent, also below the BASEPRI line, can preempt them half-way.
      The application leaves its interrupts at priority 0; both are findings.
    - [main] is run without an exception in between; SysTick is on from
      [nimble_stm32f4_system_init], before it ([main_program]), so that a tick
      can fall in: [Scenarios.tick_before_init], [tick_during_main].
    - The C library's [%.0f] is a parameter ([Printf] of [Report]), with that of
      the C standard and that of the linked newlib-nano as its instances.
    - Calls of the machine respect [call_ok]: the objects exist, the idle task
      neither calls nor is suspended, and a contended lock raises only the
      owners that the mode admits ([boost_safe]).
    - The machine with timers ([tsys]) has one event for each critical section
      of a timer call and of the timer task; what is left of a call is kept by
      task ([cont]), the place in [timer_task_fn] in [service].  A callback is
      whatever kernel and timer events its task performs before it returns.
      [timer_wake_sem] is static in timer.c: no other event uses it ([foreign]).
      The order of the list and the theorem on sleep are for runs whose expiry
      times stay within 2^30 ticks of the present ([timely]), where the signed
      comparison is an order; [late] is a history variable.  The application
      itself starts no timer.
    - Not modelled: the vector table, which is data, and [Default_Handler], a
      loop; the linker script, whose addresses are the parameters [Image],
      [AppImage] and [Layout]; [ps_uart_puts] and [ps_disable_output_hw], which
      are stubs; the idle loop; the C library beyond what the reports use of
      [snprintf]; the processor's own stacking of r0-r3, r12, lr, pc, xpsr. *)
From stdpp Require Export base gmap list strings fin_maps.
From Stdlib Require Export ZArith Lia Bool.
From stdpp Require Import options.
Open Scope Z_scope.

(** ** Machine integers *)

(** [uint32_t] arithmetic: every result is reduced modulo 2^32. *)
Definition u32 (z : Z) : Z := z mod 2 ^ 32.

(** The conversion [(int32_t)x] of a 32-bit pattern (two's complement, as
    the target's compiler defines it). *)
Definition i32 (z : Z) : Z :=
  let w := z mod 2 ^ 32 in if w <? 2 ^ 31 then w else w - 2 ^ 32.

(** [uint8_t] conversion. *)
Definition u8 (z : Z) : Z := z mod 2 ^ 8.

(** [uint16_t] conversion. *)
Definition u16 (z : Z) : Z := z mod 2 ^ 16.

Lemma u32_range z : 0 ≤ u32 z < 2 ^ 32.
Proof. apply Z.mod_pos_bound. lia. Qed.

Lemma u32_small z : 0 ≤ z < 2 ^ 32 → u32 z = z.
Proof. apply Z.mod_small. Qed.

Lemma u32_add_l a b : u32 (u32 a + b) = u32 (a + b).
Proof. unfold u32. by rewrite Zplus_mod_idemp_l. Qed.

Lemma u32_sub_l a b : u32 (u32 a - b) = u32 (a - b).
Proof. unfold u32. by rewrite Zminus_mod_idemp_l. Qed.

Lemma u32_sub_r a b : u32 (a - u32 b) = u32 (a - b).
Proof. unfold u32. by rewrite Zminus_mod_idemp_r. Qed.

Lemma i32_u32 a : i32 (u32 a) = i32 a.
Proof. unfold i32, u32. by rewrite Zmod_mod. Qed.

Lemma i32_small a : - 2 ^ 31 ≤ a < 2 ^ 31 → i32 a = a.
Proof.
  intros Ha. unfold i32. destruct (decide (0 ≤ a)).
  - rewrite Z.mod_small by lia. destruct (Z.ltb_spec a (2 ^ 31)); lia.
  - rewrite <- (Z_mod_plus_full a 1), Z.mod_small by lia.
    destruct (Z.ltb_spec (a + 1 * 2 ^ 32) (2 ^ 31)); lia.
Qed.

Lemma i32_range a : - 2 ^ 31 ≤ i32 a < 2 ^ 31.
Proof.
  unfold i32. pose proof (Z.mod_pos_bound a (2 ^ 32)).
  destruct (Z.ltb_spec (a mod 2 ^ 32) (2 ^ 31)); lia.
Qed.

(** ** One bit of a 32-bit mask *)

Lemma shiftl_1_bit p i : 0 ≤ p → 0 ≤ i → Z.testbit (Z.shiftl 1 p) i = (i =? p).
Proof.
  intros Hp Hi. rewrite Z.shiftl_spec by done. destruct (Z.eqb_spec i p) as [->|Hne].
  - by rewrite Z.sub_diag.
  - destruct (decide (i < p)); [by rewrite Z.testbit_neg_r by lia|].
    rewrite Z.bits_above_log2; simpl; lia.
Qed.

Lemma testbit_set_bit b p i :
  0 ≤ p → 0 ≤ i →
  Z.testbit (Z.lor b (Z.shiftl 1 p)) i = (i =? p) || Z.testbit b i.
Proof. intros. rewrite Z.lor_spec, shiftl_1_bit by done. apply orb_comm. Qed.

Lemma testbit_clear_bit b p i :
  0 ≤ p → 0 ≤ i < 32 →
  Z.testbit (Z.land b (u32 (Z.lnot (Z.shiftl 1 p)))) i = negb (i =? p) && Z.testbit b i.
Proof.
  intros. unfold u32. rewrite Z.land_spec, Z.mod_pow2_bits_low, Z.lnot_spec, shiftl_1_bit by lia.
  apply andb_comm.
Qed.

(** A number below 2^32 has no bit from 32 up, and conversely. *)
Lemma bits_below_32 b : 0 ≤ b → (∀ i, 32 ≤ i → Z.testbit b i = false) → b < 2 ^ 32.
Proof.
  intros Hb Hi. destruct (decide (b = 0)) as [->|]; [lia|].
  apply Z.log2_lt_pow2; [lia|]. destruct (decide (Z.log2 b < 32)); [done|].
  specialize (Hi (Z.log2 b)). rewrite Z.bit_log2 in Hi by lia.
  by specialize (Hi ltac:(lia)).
Qed.

Lemma bits_above_32 b i : 0 ≤ b < 2 ^ 32 → 32 ≤ i → Z.testbit b i = false.
Proof.
  intros Hb Hi. destruct (decide (b = 0)) as [->|]; [apply Z.bits_0|].
  apply Z.bits_above_log2; [lia|].
  assert (Z.log2 b < 32); [|lia]. by apply Z.log2_lt_pow2; lia.
Qed.

Lemma set_bit_range b p :
  0 ≤ b < 2 ^ 32 → 0 ≤ p < 32 → 0 ≤ Z.lor b (Z.shiftl 1 p) < 2 ^ 32.
Proof.
  intros Hb Hp. assert (0 ≤ Z.shiftl 1 p) by (apply Z.shiftl_nonneg; lia).
  assert (0 ≤ Z.lor b (Z.shiftl 1 p)) by (apply Z.lor_nonneg; lia).
  split; [done|]. apply bits_below_32; [done|]. intros i Hi.
  rewrite testbit_set_bit, bits_above_32 by lia. rewrite orb_false_r. lia.
Qed.

Lemma clear_bit_range b p :
  0 ≤ b < 2 ^ 32 → 0 ≤ Z.land b (u32 (Z.lnot (Z.shiftl 1 p))) < 2 ^ 32.
Proof.
  intros Hb. pose proof (u32_range (Z.lnot (Z.shiftl 1 p))) as Hu.
  assert (0 ≤ Z.land b (u32 (Z.lnot (Z.shiftl 1 p)))) by (apply Z.land_nonneg; lia).
  split; [done|]. apply bits_below_32; [done|]. intros i Hi.
  by rewrite Z.land_spec, (bits_above_32 b) by lia.
Qed.

Create HintDb word.
Create Rewrite HintDb word.
#[export] Hint Rewrite u32_add_l u32_sub_l u32_sub_r i32_u32 : word.
#[export] Hint Resolve u32_range i32_range set_bit_range clear_bit_range : word.

(** ** A state monad with undefined behaviour

    [M S A] is a computation over the state [S].  [None] is a C run that
    dereferences a bad pointer, indexes an array out of bounds or runs a
    loop past the fuel of the model; there is no way to catch it, so a
    theorem that a computation is [Some] excludes all of these. *)
Definition M (S A : Type) : Type := S → option (A * S).

#[export] Instance M_ret S : MRet (M S) := λ A a s, Some (a, s).
#[export] Instance M_bind S : MBind (M S) := λ A B f m s,
  match m s with Some (a, s') => f a s' | None => None end.

Definition ub {S A} : M S A := λ _, None.
Definition gets {S A} (f : S → A) : M S A := λ s, Some (f s, s).
Definition modify {S} (f : S → S) : M S unit := λ s, Some (tt, f s).
(** Reads through a partial projection: the read is undefined where the
    projection is. *)
Definition oget {S A} (f : S → option A) : M S A := λ s,
  match f s with Some a => Some (a, s) | None => None end.
(** Runs a computation on a component of the state. *)
Definition zoom {S T A} (get : S → T) (set : T → S → S) (m : M T A) : M S A :=
  λ s, match m (get s) with Some (a, t) => Some (a, set t s) | None => None end.
Definition when {S} (b : bool) (m : M S unit) : M S unit :=
  if b then m else mret tt.

(** ** Total correctness

    [wp m Q s]: run from [s], the computation [m] is defined and its result
    and final state satisfy [Q]. *)
Definition wp {S A} (m : M S A) (Q : A → S → Prop) (s : S) : Prop :=
  match m s with Some (a, s') => Q a s' | None => False end.

Section wp.
Context {S A B : Type}.
Implicit Types (s : S) (m : M S A).

Lemma wp_run m Q s : wp m Q s ↔ ∃ a s', m s = Some (a, s') ∧ Q a s'.
Proof. unfold wp. destruct (m s) as [[a s']|].
  - split; [eauto|by intros (?&?&[= -> ->]&?)].
  - split; [done|by intros (?&?&?&?)].
Qed.

Lemma wp_mono m (P Q : A → S → Prop) s :
  wp m P s → (∀ a s', P a s' → Q a s') → wp m Q s.
Proof. unfold wp. destruct (m s) as [[a s']|]; auto. Qed.

Lemma wp_ret (a : A) Q s : Q a s → wp (mret a) Q s.
Proof. done. Qed.

Lemma wp_bind m (f : A → M S B) Q s :
  wp m (λ a s', wp (f a) Q s') s → wp (m ≫= f) Q s.
Proof. unfold wp, mbind, M_bind. by destruct (m s) as [[a s']|]. Qed.

Lemma wp_assoc {C} (m : M S A) (f : A → M S B) (g : B → M S C) Q s :
  wp ((m ≫= f) ≫= g) Q s → wp (m ≫= λ a, f a ≫= g) Q s.
Proof. unfold wp, mbind, M_bind. by destruct (m s) as [[a s']|]. Qed.

Lemma wp_gets (f : S → A) Q s : Q (f s) s → wp (gets f) Q s.
Proof. done. Qed.

Lemma wp_oget (f : S → option A) a Q s : f s = Some a → Q a s → wp (oget f) Q s.
Proof. unfold wp, oget. by intros ->. Qed.

Lemma wp_modify (f : S → S) (Q : unit → S → Prop) s :
  Q tt (f s) → wp (modify f) Q s.
Proof. done. Qed.

Lemma wp_eq m Q s a s' : m s = Some (a, s') → Q a s' → wp m Q s.
Proof. unfold wp. by intros ->. Qed.
End wp.

Lemma wp_zoom {S T A} (get : S → T) set (m : M T A) (Q : A → S → Prop) s :
  wp m (λ a t, Q a (set t s)) (get s) → wp (zoom get set m) Q s.
Proof. unfold wp, zoom. by destruct (m (get s)) as [[a t]|]. Qed.

(** ** Tactics of the development *)

(** One step of symbolic execution of a monadic program in a [wp] goal. *)
Ltac wp_step :=
  lazymatch goal with
  | |- wp (_ ≫= _) _ _ => apply wp_bind
  | |- wp (mret _) _ _ => apply wp_ret
  | |- wp (gets _) _ _ => apply wp_gets
  | |- wp (modify _) _ _ => apply wp_modify
  | |- wp (oget _) _ _ => eapply wp_oget; [by simplify_map_eq/=; eauto|]
  end; cbn beta.
Ltac wp_steps := repeat wp_step.

(** Uses a specification lemma for the first call of the program. *)
Tactic Notation "wp_apply" uconstr(H) := eapply wp_mono; [eapply H|]; cbn beta.

(** ** Lists and options *)

(** The list without every occurrence of [x]: what unlinking [x] leaves. *)
Definition without `{EqDecision A} (x : A) (l : list A) : list A :=
  filter (λ y, y ≠ x) l.

Section without.
Context `{EqDecision A}.
Implicit Types (x y : A) (l : list A).

Lemma elem_of_without x y l : y ∈ without x l ↔ y ≠ x ∧ y ∈ l.
Proof. unfold without. by rewrite list_elem_of_filter. Qed.

Lemma without_id x l : x ∉ l → without x l = l.
Proof.
  unfold without. induction l as [|y l IH]; intros Hx; [done|].
  apply not_elem_of_cons in Hx as [? ?].
  rewrite filter_cons_True; [by rewrite IH|congruence].
Qed.

Lemma without_app x l1 l2 : without x (l1 ++ l2) = without x l1 ++ without x l2.
Proof. apply filter_app. Qed.

Lemma without_cons_eq x l : without x (x :: l) = without x l.
Proof. unfold without. rewrite filter_cons_False; naive_solver. Qed.

Lemma NoDup_without x l : NoDup l → NoDup (without x l).
Proof. apply NoDup_filter. Qed.

Lemma without_split x l1 l2 :
  NoDup (l1 ++ x :: l2) → without x (l1 ++ x :: l2) = l1 ++ l2.
Proof.
  rewrite NoDup_app, NoDup_cons. intros (_ & Hd & Hx & _).
  rewrite without_app, without_cons_eq, !without_id; set_solver.
Qed.
End without.
#[export] Hint Resolve NoDup_without : core.

Lemma list_filter_id {A} (P : A → Prop) `{∀ x, Decision (P x)} (l : list A) :
  (∀ x, x ∈ l → P x) → filter P l = l.
Proof.
  induction l as [|x l IH]; intros HP; [done|].
  rewrite filter_cons_True by (apply HP; left). f_equal. apply IH.
  intros y Hy. apply HP. by right.
Qed.

Lemma list_filter_none {A} (P : A → Prop) `{∀ x, Decision (P x)} (l : list A) :
  (∀ x, x ∈ l → ¬ P x) → filter P l = [].
Proof.
  induction l as [|x l IH]; intros HP; [done|].
  rewrite filter_cons_False by (apply HP; left). apply IH.
  intros y Hy. apply HP. by right.
Qed.
