(* ===== verification/DList.v ===== *)
(** * Intrusive circular doubly-linked lists ([kernel/include/nimble_list.h])

    The list operations, written pointer by pointer over a store of nodes,
    and the representation predicate [repr] that relates a store to the
    finite map from list heads to the sequences of nodes they hold.  Every
    operation is shown to act on the sequences as its comment promises; the
    kernel files use only these specifications. *)
From S2P Require Import Prelude.
From stdpp Require Import options.

(** The structure [nimble_list_node_t]. *)
Record node (nid : Type) := Node { node_next : nid; node_prev : nid }.
Arguments Node {nid}.
Arguments node_next {nid}.
Arguments node_prev {nid}.

Section dlist.
  Context {nid : Type} `{Countable nid}.

  (** The store: which node each address holds.  Addresses are symbolic. *)
  Abbreviation mem := (gmap nid (node nid)).
  Implicit Types (m : mem) (n h a z p q x : nid) (xs : list nid).

(** ** Operations *)

(** [n->next] and [n->prev]: undefined on an address that holds no node. *)
Definition get_next (n : nid) : M mem nid := oget (λ m : mem, node_next <$> m !! n).
Definition get_prev (n : nid) : M mem nid := oget (λ m : mem, node_prev <$> m !! n).

(** [n->next = v] and [n->prev = v]. *)
Definition set_next (n v : nid) : M mem unit := λ m,
  match m !! n with
  | Some d => Some (tt, <[n := Node v (node_prev d)]> m)
  | None => None
  end.
Definition set_prev (n v : nid) : M mem unit := λ m,
  match m !! n with
  | Some d => Some (tt, <[n := Node (node_next d) v]> m)
  | None => None
  end.

Definition nimble_list_init (list : nid) : M mem unit :=
  modify (insert list (Node list list)).

Definition nimble_list_is_empty (list : nid) : M mem bool :=
  nx ← get_next list; mret (bool_decide (nx = list)).

Definition nimble_list_insert_tail (head node : nid) : M mem unit :=
  hp ← get_prev head;
  set_prev node hp;;
  set_next node head;;
  hp ← get_prev head;
  set_next hp node;;
  set_prev head node.

Definition nimble_list_insert_head (head node : nid) : M mem unit :=
  hn ← get_next head;
  set_next node hn;;
  set_prev node head;;
  hn ← get_next head;
  set_prev hn node;;
  set_next head node.

Definition nimble_list_remove (node : nid) : M mem unit :=
  np ← get_prev node; nn ← get_next node;
  set_next np nn;;
  nn ← get_next node; np ← get_prev node;
  set_prev nn np;;
  set_next node node;;
  set_prev node node.

(** The four assignments that end each sorted insertion of the kernel
    ([new->next = node; new->prev = node->prev; node->prev->next = new;
    node->prev = new]). *)
Definition link_before (node new : nid) : M mem unit :=
  set_next new node;;
  np ← get_prev node;
  set_prev new np;;
  np ← get_prev node;
  set_next np new;;
  set_prev node new.

(** The nodes reached from [a] along [next] before [stop]. *)
Fixpoint walk (fuel : nat) (m : mem) (stop a : nid) : option (list nid) :=
  match fuel with
  | O => None
  | S fuel =>
      if decide (a = stop) then Some []
      else match m !! a with
           | Some d => cons a <$> walk fuel m stop (node_next d)
           | None => None
           end
  end.

(** The members of the list [h], in order. *)
Definition contents (m : mem) (h : nid) : option (list nid) :=
  match m !! h with
  | Some d => walk (S (size m)) m h (node_next d)
  | None => None
  end.

(** ** Representation *)

Definition nxt (m : mem) (a : nid) : option nid := node_next <$> m !! a.
Definition prv (m : mem) (a : nid) : option nid := node_prev <$> m !! a.

Definition link (m : mem) (a b : nid) : Prop := nxt m a = Some b ∧ prv m b = Some a.

(** From [a], through the nodes [xs], to [z]. *)
Fixpoint chain (m : mem) (a : nid) (xs : list nid) (z : nid) : Prop :=
  match xs with
  | [] => link m a z
  | x :: xs => link m a x ∧ chain m x xs z
  end.

(** [n] is on no list. *)
Definition unlinked (n : nid) (L : gmap nid (list nid)) : Prop :=
  ∀ h xs, L !! h = Some xs → n ∉ xs.

(** The store [m] holds, for every head [h] of [L], the circular list of the
    nodes [L !! h]; the lists share no node, no head is a member, and every
    other node of the store points to itself. *)
Record repr (m : mem) (L : gmap nid (list nid)) : Prop := {
  repr_ring h xs : L !! h = Some xs → chain m h xs h;
  repr_nodup h xs : L !! h = Some xs → NoDup xs;
  repr_item h xs n : L !! h = Some xs → n ∈ xs → L !! n = None;
  repr_disj h1 h2 xs1 xs2 n :
    L !! h1 = Some xs1 → L !! h2 = Some xs2 → n ∈ xs1 → n ∈ xs2 → h1 = h2;
  repr_single n :
    is_Some (m !! n) → L !! n = None → unlinked n L → link m n n;
}.

(** What unlinking [n] does to every list: nothing but drop [n]. *)
Definition detach (n : nid) (L : gmap nid (list nid)) : gmap nid (list nid) :=
  without n <$> L.

(** The effect on the two pointer fields of inserting [n] between the
    neighbours [p] and [q], and of removing it. *)
Definition inserted (m m' : mem) (p n q : nid) : Prop :=
  (∀ a, nxt m' a = if decide (a = p) then Some n
                   else if decide (a = n) then Some q else nxt m a) ∧
  (∀ a, prv m' a = if decide (a = q) then Some n
                   else if decide (a = n) then Some p else prv m a) ∧
  dom m' = dom m.
Definition removed (m m' : mem) (p n q : nid) : Prop :=
  (∀ a, nxt m' a = if decide (a = n) then Some n
                   else if decide (a = p) then Some q else nxt m a) ∧
  (∀ a, prv m' a = if decide (a = n) then Some n
                   else if decide (a = q) then Some p else prv m a) ∧
  dom m' = dom m.

(** ** Reads and writes *)

Lemma nxt_is_Some m a b : nxt m a = Some b → is_Some (m !! a).
Proof. unfold nxt. destruct (m !! a); naive_solver. Qed.
Lemma prv_is_Some m a b : prv m a = Some b → is_Some (m !! a).
Proof. unfold prv. destruct (m !! a); naive_solver. Qed.

Lemma wp_get_next m n b Q : nxt m n = Some b → Q b m → wp (get_next n) Q m.
Proof. apply (wp_oget (λ m, nxt m n)). Qed.
Lemma wp_get_prev m n b Q : prv m n = Some b → Q b m → wp (get_prev n) Q m.
Proof. apply (wp_oget (λ m, prv m n)). Qed.

Lemma wp_set_next m n v (Q : unit → mem → Prop) :
  is_Some (m !! n) →
  (∀ m', (∀ a, nxt m' a = if decide (a = n) then Some v else nxt m a) →
         (∀ a, prv m' a = prv m a) → dom m' = dom m → Q tt m') →
  wp (set_next n v) Q m.
Proof.
  intros [d Hd] HQ. unfold wp, set_next. rewrite Hd. apply HQ.
  - intros a. unfold nxt. destruct (decide (a = n)) as [->|]; by simplify_map_eq.
  - intros a. unfold prv. destruct (decide (a = n)) as [->|]; by simplify_map_eq.
  - apply dom_insert_lookup_L. by rewrite Hd.
Qed.

Lemma wp_set_prev m n v (Q : unit → mem → Prop) :
  is_Some (m !! n) →
  (∀ m', (∀ a, prv m' a = if decide (a = n) then Some v else prv m a) →
         (∀ a, nxt m' a = nxt m a) → dom m' = dom m → Q tt m') →
  wp (set_prev n v) Q m.
Proof.
  intros [d Hd] HQ. unfold wp, set_prev. rewrite Hd. apply HQ.
  - intros a. unfold prv. destruct (decide (a = n)) as [->|]; by simplify_map_eq.
  - intros a. unfold nxt. destruct (decide (a = n)) as [->|]; by simplify_map_eq.
  - apply dom_insert_lookup_L. by rewrite Hd.
Qed.

Lemma nxt_dom m m' a : dom m' = dom m → is_Some (m !! a) → is_Some (m' !! a).
Proof. rewrite <- !elem_of_dom. by intros ->. Qed.

(** Symbolic execution of the pointer programs: each read or write is
    discharged by the field equations collected so far. *)
Ltac ptr_solve :=
  repeat match goal with
    | H : ∀ a, nxt ?m a = _ |- context [nxt ?m _] => rewrite H
    | H : ∀ a, prv ?m a = _ |- context [prv ?m _] => rewrite H
    | |- context [decide ?P] => destruct (decide P)
    end; subst; first [done|congruence|tauto].
Ltac ptr_mapped :=
  first [eassumption
        |eapply nxt_is_Some; ptr_solve; fail|eapply prv_is_Some; ptr_solve; fail
        |eapply nxt_dom; [eassumption|]; ptr_mapped].
Ltac ptr_step :=
  lazymatch goal with
  | |- wp (_ ≫= _) _ _ => apply wp_bind
  | |- wp (get_next _) _ _ => eapply wp_get_next; [ptr_solve|]
  | |- wp (get_prev _) _ _ => eapply wp_get_prev; [ptr_solve|]
  | |- wp (set_next _ _) _ _ => apply wp_set_next; [ptr_mapped|intros ????]
  | |- wp (set_prev _ _) _ _ => apply wp_set_prev; [ptr_mapped|intros ????]
  end; cbn beta.
Ltac ptr_run := repeat ptr_step; repeat split; [intros ?; ptr_solve..|congruence].

Lemma insert_tail_inserted m n p q :
  is_Some (m !! n) → link m p q → n ≠ p → n ≠ q →
  wp (nimble_list_insert_tail q n) (λ _ m', inserted m m' p n q) m.
Proof.
  intros Hn [Hpq Hqp] ??. unfold nimble_list_insert_tail.
  ptr_run.
Qed.

Lemma link_before_inserted m n p q :
  is_Some (m !! n) → link m p q → n ≠ p → n ≠ q →
  wp (link_before q n) (λ _ m', inserted m m' p n q) m.
Proof.
  intros Hn [Hpq Hqp] ??. unfold link_before.
  ptr_run.
Qed.

Lemma insert_head_inserted m n p q :
  is_Some (m !! n) → link m p q → n ≠ p → n ≠ q →
  wp (nimble_list_insert_head p n) (λ _ m', inserted m m' p n q) m.
Proof.
  intros Hn [Hpq Hqp] ??. unfold nimble_list_insert_head.
  ptr_run.
Qed.

Lemma remove_removed m n p q :
  link m p n → link m n q →
  wp (nimble_list_remove n) (λ _ m', removed m m' p n q) m.
Proof.
  intros [??] [??]. unfold nimble_list_remove.
  ptr_run.
Qed.

(** ** Chains *)

Lemma chain_frame m m' a xs z :
  chain m a xs z →
  (∀ x, x ∈ a :: xs → nxt m' x = nxt m x) →
  (∀ x, x ∈ xs ++ [z] → prv m' x = prv m x) →
  chain m' a xs z.
Proof.
  revert a. induction xs as [|x xs IH]; intros a Hc Hn Hp; simpl in *.
  - destruct Hc. split; [rewrite Hn|rewrite Hp]; set_solver.
  - destruct Hc as [[??] ?]. split.
    + split; [rewrite Hn|rewrite Hp]; set_solver.
    + apply IH; set_solver.
Qed.

(** The last node of the chain [a, xs], and the first of [xs, z]. *)
Definition pred_of (a : nid) (xs : list nid) : nid := default a (last xs).
Definition succ_of (xs : list nid) (z : nid) : nid := default z (head xs).

Lemma pred_of_cons a x xs : pred_of a (x :: xs) = pred_of x xs.
Proof. unfold pred_of. rewrite last_cons. by destruct (last xs). Qed.
Lemma elem_of_pred_of a xs : pred_of a xs ∈ a :: xs.
Proof.
  revert a. induction xs as [|x xs IH]; intros a; [set_solver|].
  rewrite pred_of_cons. set_solver.
Qed.
Lemma elem_of_succ_of xs z : succ_of xs z ∈ xs ++ [z].
Proof. destruct xs; set_solver. Qed.

Lemma chain_link m a xs ys z :
  chain m a (xs ++ ys) z → link m (pred_of a xs) (succ_of ys z).
Proof.
  revert a. induction xs as [|x xs IH]; intros a Hc; simpl in *.
  - destruct ys; apply Hc.
  - rewrite pred_of_cons. apply IH, Hc.
Qed.

Lemma chain_link_mid m a xs x ys z :
  chain m a (xs ++ x :: ys) z → link m x (succ_of ys z).
Proof.
  intros Hc. assert (chain m a ((xs ++ [x]) ++ ys) z) as Hc' by by rewrite <- app_assoc.
  apply chain_link in Hc'. unfold pred_of in Hc'. by rewrite last_snoc in Hc'.
Qed.

Lemma chain_insert m m' a xs ys z n :
  chain m a (xs ++ ys) z →
  NoDup (a :: xs ++ ys) → NoDup (xs ++ ys ++ [z]) →
  n ∉ a :: xs ++ ys ++ [z] →
  inserted m m' (pred_of a xs) n (succ_of ys z) →
  chain m' a (xs ++ n :: ys) z.
Proof.
  revert a. induction xs as [|x xs IH]; intros a Hc Hnd1 Hnd2 Hn (Hnx&Hpv&Hd).
  - change (pred_of a []) with a in *. simpl. repeat split.
    + rewrite Hnx. by rewrite decide_True.
    + rewrite Hpv. rewrite decide_False, decide_True; [done..|].
      pose proof (elem_of_succ_of ys z). set_solver.
    + destruct ys as [|y ys]; simpl in *.
      * split; [rewrite Hnx|rewrite Hpv]; repeat case_decide; set_solver.
      * destruct Hc as [? Hc]. split.
        { split; [rewrite Hnx|rewrite Hpv]; repeat case_decide; set_solver. }
        apply NoDup_cons in Hnd1 as [? Hnd1], Hnd2 as [? Hnd2].
        eapply chain_frame; [done|..]; intros w Hw;
          [rewrite Hnx|rewrite Hpv]; repeat case_decide; set_solver.
  - rewrite pred_of_cons in *. simpl in *. destruct Hc as [[??] Hc].
    apply NoDup_cons in Hnd1 as [? Hnd1], Hnd2 as [? Hnd2].
    pose proof (elem_of_pred_of x xs). pose proof (elem_of_succ_of ys z).
    split.
    + split; [rewrite Hnx|rewrite Hpv]; repeat case_decide; set_solver.
    + apply IH; [done..|set_solver|done].
Qed.

Lemma chain_remove m m' a xs ys z n :
  chain m a (xs ++ n :: ys) z →
  NoDup (a :: xs ++ n :: ys) → NoDup (xs ++ n :: ys ++ [z]) →
  removed m m' (pred_of a xs) n (succ_of ys z) →
  chain m' a (xs ++ ys) z.
Proof.
  revert a. induction xs as [|x xs IH]; intros a Hc Hnd1 Hnd2 (Hnx&Hpv&Hd).
  - change (pred_of a []) with a in *. simpl in *. destruct Hc as [_ Hc].
    apply NoDup_cons in Hnd1 as [? Hnd1], Hnd2 as [? Hnd2].
    destruct ys as [|y ys]; simpl in *.
    + split; [rewrite Hnx|rewrite Hpv]; repeat case_decide; set_solver.
    + destruct Hc as [? Hc]. split.
      { split; [rewrite Hnx|rewrite Hpv]; repeat case_decide; set_solver. }
      apply NoDup_cons in Hnd1 as [? Hnd1], Hnd2 as [? Hnd2].
      eapply chain_frame; [done|..]; intros w Hw;
        [rewrite Hnx|rewrite Hpv]; repeat case_decide; set_solver.
  - rewrite pred_of_cons in *. simpl in *. destruct Hc as [[??] Hc].
    apply NoDup_cons in Hnd1 as [? Hnd1], Hnd2 as [? Hnd2].
    pose proof (elem_of_pred_of x xs). pose proof (elem_of_succ_of ys z).
    apply NoDup_app in Hnd2 as (?&Hdis&?).
    split.
    + split; [rewrite Hnx|rewrite Hpv]; repeat case_decide; set_solver.
    + apply IH; [done..|by apply NoDup_app|done].
Qed.

(** ** The operations on represented lists *)

(** [x] lies on the ring of the head [h]. *)
Definition on_ring (L : gmap nid (list nid)) (h x : nid) : Prop :=
  ∃ xs, L !! h = Some xs ∧ x ∈ h :: xs.

Lemma on_ring_unique m L h1 h2 x :
  repr m L → on_ring L h1 x → on_ring L h2 x → h1 = h2.
Proof.
  intros HR (xs1&H1&E1) (xs2&H2&E2).
  apply elem_of_cons in E1 as [->|E1], E2 as [->|E2].
  - done.
  - pose proof (repr_item _ _ HR _ _ _ H2 E2). congruence.
  - pose proof (repr_item _ _ HR _ _ _ H1 E1). congruence.
  - eapply repr_disj; eauto.
Qed.

Lemma repr_nodup_ring m L h xs : repr m L → L !! h = Some xs → NoDup (h :: xs).
Proof.
  intros HR Hh. apply NoDup_cons. split; [|by eapply repr_nodup].
  intros Hin. pose proof (repr_item _ _ HR _ _ _ Hh Hin). congruence.
Qed.

Lemma repr_nodup_ring_end m L h xs :
  repr m L → L !! h = Some xs → NoDup (xs ++ [h]).
Proof.
  intros HR Hh. rewrite <- Permutation_cons_append. by eapply repr_nodup_ring.
Qed.

(** The rings other than [h]'s are untouched by a change around [h]. *)
Lemma repr_other_ring m m' L h' xs' (P : nid → Prop) :
  repr m L → L !! h' = Some xs' →
  (∀ x, ¬ P x → nxt m' x = nxt m x ∧ prv m' x = prv m x) →
  (∀ x, P x → ¬ on_ring L h' x) → chain m' h' xs' h'.
Proof.
  intros HR Hh' Heq HP. eapply chain_frame; [by eapply repr_ring| |];
    intros x Hx; (edestruct Heq as [??]; [|eassumption]);
    intros HPx; apply (HP x HPx); exists xs'; set_solver.
Qed.

Lemma pred_of_ring (L : gmap nid (list nid)) h xs ys :
  L !! h = Some (xs ++ ys) → on_ring L h (pred_of h xs).
Proof.
  intros Hh. exists (xs ++ ys). split; [done|].
  pose proof (elem_of_pred_of h xs) as Hp.
  apply elem_of_cons in Hp as [->|Hp]; [left|].
  apply elem_of_cons. right. apply elem_of_app. by left.
Qed.

Lemma succ_of_ring (L : gmap nid (list nid)) h xs ys :
  L !! h = Some (xs ++ ys) → on_ring L h (succ_of ys h).
Proof.
  intros Hh. exists (xs ++ ys). split; [done|]. destruct ys as [|y ys]; [left|].
  apply elem_of_cons. right. apply elem_of_app. right. left.
Qed.

Lemma inserted_frame m m' L h xs ys n x :
  L !! h = Some (xs ++ ys) →
  inserted m m' (pred_of h xs) n (succ_of ys h) →
  ¬ (on_ring L h x ∨ x = n) → nxt m' x = nxt m x ∧ prv m' x = prv m x.
Proof.
  intros Hh (Hnx&Hpv&_) Hx. rewrite Hnx, Hpv.
  pose proof (pred_of_ring L h xs ys Hh). pose proof (succ_of_ring L h xs ys Hh).
  repeat case_decide; subst; tauto.
Qed.

Lemma removed_frame m m' L h xs ys n x :
  L !! h = Some (xs ++ n :: ys) →
  removed m m' (pred_of h xs) n (succ_of ys h) →
  ¬ on_ring L h x → nxt m' x = nxt m x ∧ prv m' x = prv m x.
Proof.
  intros Hh (Hnx&Hpv&_) Hx. rewrite Hnx, Hpv.
  pose proof (pred_of_ring L h xs (n :: ys) Hh).
  assert (L !! h = Some ((xs ++ [n]) ++ ys)) as Hh' by by rewrite <- app_assoc.
  pose proof (succ_of_ring L h _ ys Hh').
  assert (on_ring L h n) by (exists (xs ++ n :: ys); split; [done|set_solver]).
  repeat case_decide; subst; tauto.
Qed.

(** Members of an insertion: the new node or an old member. *)
Lemma elem_of_insert_mid (n x : nid) xs ys :
  x ∈ xs ++ n :: ys ↔ x = n ∨ x ∈ xs ++ ys.
Proof. rewrite !elem_of_app, elem_of_cons. tauto. Qed.

Lemma repr_insert_rings m m' L h xs ys n h' xs' :
  repr m L → L !! h = Some (xs ++ ys) →
  L !! n = None → unlinked n L →
  inserted m m' (pred_of h xs) n (succ_of ys h) →
  <[h := xs ++ n :: ys]> L !! h' = Some xs' → chain m' h' xs' h'.
Proof.
  intros HR Hh Hn Hu Hins [[<- <-]|[? Hh']]%lookup_insert_Some.
  - pose proof (Hu _ _ Hh) as Hnh.
    assert (n ≠ h) by congruence.
    eapply chain_insert; [by eapply repr_ring|..|done].
    + by eapply repr_nodup_ring.
    + rewrite app_assoc. by eapply repr_nodup_ring_end.
    + rewrite elem_of_cons, app_assoc, elem_of_app, elem_of_cons. intros [?|[?|[?|?%elem_of_nil]]]; tauto.
  - eapply (repr_other_ring _ _ _ h' _ (λ x, on_ring L h x ∨ x = n)); [done..| |].
    + intros x Hx. by eapply inserted_frame.
    + intros x [Hx| ->] Hx'; [by eapply on_ring_unique in Hx'; eauto|].
      destruct Hx' as (xs2&Hxs2&Hin). apply elem_of_cons in Hin as [->|Hin]; [congruence|].
      by eapply Hu.
Qed.

Lemma repr_insert m m' L h xs ys n :
  repr m L → L !! h = Some (xs ++ ys) →
  L !! n = None → unlinked n L →
  inserted m m' (pred_of h xs) n (succ_of ys h) →
  repr m' (<[h := xs ++ n :: ys]> L).
Proof.
  intros HR Hh Hn Hu Hins. pose proof (Hu _ _ Hh) as Hnh.
  split.
  - intros h' xs'. by eapply repr_insert_rings.
  - intros h' xs' [[<- <-]|[? Hh']]%lookup_insert_Some; [|by eapply repr_nodup].
    pose proof (repr_nodup _ _ HR _ _ Hh) as Hnd. rewrite <- Permutation_middle.
    by apply NoDup_cons.
  - intros h' xs' x [[<- <-]|[? Hh']]%lookup_insert_Some Hx;
      [apply elem_of_insert_mid in Hx as [->|Hx]; [rewrite lookup_insert_ne; congruence|]|].
    + pose proof (repr_item _ _ HR _ _ _ Hh Hx). rewrite lookup_insert_ne; congruence.
    + pose proof (repr_item _ _ HR _ _ _ Hh' Hx). rewrite lookup_insert_ne; congruence.
  - intros h1 h2 xs1 xs2 x [[<- <-]|[? H1]]%lookup_insert_Some
      [[<- <-]|[? H2]]%lookup_insert_Some; [done|..];
      rewrite ?elem_of_insert_mid; intros E1 E2;
      try (destruct E1 as [->|E1]; [by destruct (Hu _ _ H2)|]);
      try (destruct E2 as [->|E2]; [by destruct (Hu _ _ H1)|]);
      by eapply repr_disj.
  - intros x Hx HxL Hux.
    assert (x ≠ h) by (intros ->; by rewrite lookup_insert_eq in HxL).
    rewrite lookup_insert_ne in HxL by done.
    assert (x ∉ xs ++ n :: ys) as Hxh by (eapply Hux; by rewrite lookup_insert_eq).
    rewrite elem_of_insert_mid in Hxh.
    destruct (inserted_frame _ _ _ _ _ _ _ x Hh Hins) as [Enx Epv].
    { intros [(xs'&Hxs'&Hin)|?]; [|tauto]. rewrite Hh in Hxs'. injection Hxs' as <-.
      apply elem_of_cons in Hin. tauto. }
    unfold link. rewrite Enx, Epv. eapply repr_single; [done| |done|].
    + eapply nxt_dom, Hx. by destruct Hins as (_&_&->).
    + intros h' xs' Hh'. destruct (decide (h = h')) as [<-|].
      * rewrite Hh in Hh'. injection Hh' as <-. tauto.
      * eapply Hux. by rewrite lookup_insert_ne.
Qed.

Lemma lookup_detach n L h xs :
  L !! h = Some xs → detach n L !! h = Some (without n xs).
Proof. unfold detach. rewrite lookup_fmap. by intros ->. Qed.

Lemma lookup_detach_Some n L h xs :
  detach n L !! h = Some xs ↔ ∃ xs0, L !! h = Some xs0 ∧ xs = without n xs0.
Proof. unfold detach. rewrite lookup_fmap, fmap_Some. done. Qed.

Lemma lookup_detach_None n L h : detach n L !! h = None ↔ L !! h = None.
Proof. unfold detach. by rewrite lookup_fmap, fmap_None. Qed.

Lemma detach_unlinked n L : unlinked n L → detach n L = L.
Proof.
  intros Hu. apply map_eq. intros h. unfold detach. rewrite lookup_fmap.
  destruct (L !! h) as [xs|] eqn:Hh; [|done]. simpl. f_equal.
  apply without_id. by eapply Hu.
Qed.

Lemma unlinked_detach n L : unlinked n (detach n L).
Proof.
  intros h xs (xs0&?&->)%lookup_detach_Some. rewrite elem_of_without. tauto.
Qed.

Lemma unlinked_detach_other n n' L : unlinked n L → unlinked n (detach n' L).
Proof.
  intros Hu h xs (xs0&?&->)%lookup_detach_Some. rewrite elem_of_without.
  intros [_ Hin]. by eapply Hu.
Qed.

Lemma unlinked_insert n h xs L : unlinked n L → n ∉ xs → unlinked n (<[h := xs]> L).
Proof. intros Hu Hn h' xs' [[<- <-]|[? Hh']]%lookup_insert_Some; [done|by eapply Hu]. Qed.

#[global] Instance unlinked_dec n L : Decision (unlinked n L).
Proof. change (Decision (map_Forall (λ _ xs, n ∉ xs) L)). apply _. Defined.

Lemma linked_or_unlinked n L :
  unlinked n L ∨ ∃ h xs ys, L !! h = Some (xs ++ n :: ys).
Proof.
  destruct (decide (unlinked n L)) as [|Hn]; [by left|right].
  apply map_not_Forall in Hn as (h&xs&Hh&Hx); [|apply _].
  destruct (decide (n ∈ xs)) as [Hin|]; [|tauto].
  apply list_elem_of_split in Hin as (l1&l2&->). eauto.
Qed.

(** Writing back the pointers a self-linked node already has. *)
Lemma removed_self m m' n :
  link m n n → removed m m' n n n → ∀ a, nxt m' a = nxt m a ∧ prv m' a = prv m a.
Proof.
  intros [? ?] (Hnx&Hpv&_) a. rewrite Hnx, Hpv.
  repeat case_decide; subst; split; congruence.
Qed.

Lemma repr_ptrs m m' L :
  repr m L → (∀ a, nxt m' a = nxt m a ∧ prv m' a = prv m a) → dom m' = dom m →
  repr m' L.
Proof.
  intros HR Heq Hd. split; try apply HR.
  - intros h xs Hh. eapply chain_frame; [by eapply repr_ring|..]; intros; apply Heq.
  - intros n Hn HnL Hu. destruct (Heq n) as [E1 E2]. unfold link. rewrite E1, E2.
    apply HR; [|done..]. by eapply nxt_dom.
Qed.

Lemma repr_remove_linked m m' L h xs ys n :
  repr m L → L !! h = Some (xs ++ n :: ys) →
  removed m m' (pred_of h xs) n (succ_of ys h) →
  repr m' (detach n L).
Proof.
  intros HR Hh Hrem.
  assert (n ∈ xs ++ n :: ys) as Hin by (apply elem_of_insert_mid; by left).
  assert (L !! n = None) as HnL by by eapply repr_item.
  assert (on_ring L h n) as Hring by (exists (xs ++ n :: ys); split; [done|by right]).
  split.
  - intros h' xs' (xs0&Hh'&->)%lookup_detach_Some. destruct (decide (h = h')) as [<-|Hne].
    + rewrite Hh in Hh'. injection Hh' as <-.
      rewrite without_split by by eapply repr_nodup.
      eapply chain_remove; [by eapply repr_ring|by eapply repr_nodup_ring| |done].
      change (NoDup (xs ++ (n :: ys) ++ [h])). rewrite app_assoc.
      by eapply repr_nodup_ring_end.
    + rewrite without_id by (intros ?; apply Hne; by eapply repr_disj).
      eapply (repr_other_ring _ _ _ _ _ (on_ring L h)); [done..| |].
      * intros x Hx. by eapply removed_frame.
      * intros x Hx Hx'. by eapply Hne, on_ring_unique.
  - intros h' xs' (xs0&Hh'&->)%lookup_detach_Some. by eapply NoDup_without, repr_nodup.
  - intros h' xs' x (xs0&Hh'&->)%lookup_detach_Some [? Hx]%elem_of_without.
    apply lookup_detach_None. by eapply repr_item.
  - intros h1 h2 xs1 xs2 x (?&H1&->)%lookup_detach_Some (?&H2&->)%lookup_detach_Some
      [_ E1]%elem_of_without [_ E2]%elem_of_without. by eapply repr_disj.
  - intros x Hx HxL%lookup_detach_None Hux.
    destruct (decide (x = n)) as [->|Hxn].
    { destruct Hrem as (Hnx&Hpv&_). split; [rewrite Hnx|rewrite Hpv]; by case_decide. }
    assert (unlinked x L) as HuL.
    { intros h' xs' Hh' Hx'. eapply Hux; [by apply lookup_detach|].
      by apply elem_of_without. }
    destruct (removed_frame _ _ _ _ _ _ _ x Hh Hrem) as [E1 E2].
    { intros (xs'&Hxs'&Hx'). apply elem_of_cons in Hx' as [->|Hx']; [congruence|].
      by eapply HuL. }
    unfold link. rewrite E1, E2. apply HR; [|done..].
    eapply nxt_dom, Hx. by destruct Hrem as (_&_&->).
Qed.

(** [nimble_list_remove]: whatever list the node is on, it is unlinked from
    it and points to itself; on a node that is on no list it does nothing. *)
Lemma nimble_list_remove_spec m L n :
  repr m L → is_Some (m !! n) → L !! n = None →
  wp (nimble_list_remove n) (λ _ m', repr m' (detach n L) ∧ dom m' = dom m) m.
Proof.
  intros HR Hn HnL. destruct (linked_or_unlinked n L) as [Hu|(h&xs&ys&Hh)].
  - pose proof (repr_single _ _ HR n Hn HnL Hu) as Hl.
    wp_apply remove_removed; [done..|]. intros _ m' Hrem. split; [|apply Hrem].
    rewrite detach_unlinked by done. eapply repr_ptrs; [done| |apply Hrem].
    by eapply removed_self.
  - pose proof (repr_ring _ _ HR _ _ Hh) as Hc.
    wp_apply remove_removed.
    + apply (chain_link _ h xs (n :: ys) h), Hc.
    + by eapply chain_link_mid.
    + intros _ m' Hrem. split; [|apply Hrem]. by eapply repr_remove_linked.
Qed.

(** What a program needs to know about a node it is about to insert. *)
Record insertable (m : mem) (L : gmap nid (list nid)) (n : nid) : Prop := {
  insertable_mapped : is_Some (m !! n);
  insertable_item : L !! n = None;
  insertable_unlinked : unlinked n L;
}.

Lemma insertable_not_neighbour m L h xs ys n :
  repr m L → L !! h = Some (xs ++ ys) → insertable m L n →
  n ≠ pred_of h xs ∧ n ≠ succ_of ys h.
Proof.
  intros HR Hh [? HnL Hu].
  assert (¬ on_ring L h n).
  { intros (xs'&Hxs'&Hin). apply elem_of_cons in Hin as [->|Hin]; [congruence|].
    by eapply Hu. }
  pose proof (pred_of_ring L h xs ys Hh). pose proof (succ_of_ring L h xs ys Hh).
  split; intros ->; tauto.
Qed.

(** The sorted insertions: [new] goes in front of the node the scan stopped
    at, which is the first of [ys] or the list head itself. *)
Lemma link_before_spec m L h xs ys n :
  repr m L → L !! h = Some (xs ++ ys) → insertable m L n →
  wp (link_before (succ_of ys h) n)
    (λ _ m', repr m' (<[h := xs ++ n :: ys]> L) ∧ dom m' = dom m) m.
Proof.
  intros HR Hh Hi. destruct (insertable_not_neighbour _ _ _ _ _ _ HR Hh Hi).
  wp_apply link_before_inserted;
    [apply Hi|by eapply chain_link, repr_ring|done..|].
  intros _ m' Hins. split; [|apply Hins]. eapply repr_insert; [done..|apply Hi|apply Hi|done].
Qed.

Lemma nimble_list_insert_tail_spec m L h xs n :
  repr m L → L !! h = Some xs → insertable m L n →
  wp (nimble_list_insert_tail h n)
    (λ _ m', repr m' (<[h := xs ++ [n]]> L) ∧ dom m' = dom m) m.
Proof.
  intros HR Hh Hi. assert (L !! h = Some (xs ++ [])) as Hh' by by rewrite app_nil_r.
  destruct (insertable_not_neighbour _ _ _ _ _ _ HR Hh' Hi) as [? Hq].
  wp_apply (insert_tail_inserted m n (pred_of h xs) h);
    [apply Hi|by eapply (chain_link _ _ _ []), repr_ring|done..|].
  intros _ m' Hins. split; [|apply Hins]. eapply repr_insert; [done..|apply Hi|apply Hi|done].
Qed.

Lemma nimble_list_insert_head_spec m L h xs n :
  repr m L → L !! h = Some xs → insertable m L n →
  wp (nimble_list_insert_head h n)
    (λ _ m', repr m' (<[h := n :: xs]> L) ∧ dom m' = dom m) m.
Proof.
  intros HR Hh Hi.
  destruct (insertable_not_neighbour _ _ _ [] _ _ HR Hh Hi) as [? Hq].
  wp_apply (insert_head_inserted m n h (succ_of xs h));
    [apply Hi|by eapply (chain_link _ _ []), repr_ring|done..|].
  intros _ m' Hins. split; [|apply Hins].
  eapply (repr_insert _ _ _ _ []); [done..|apply Hi|apply Hi|done].
Qed.

Lemma nxt_head m L h xs : repr m L → L !! h = Some xs → nxt m h = Some (succ_of xs h).
Proof. intros HR Hh. by apply (chain_link m h [] xs h), repr_ring with L. Qed.

Lemma nxt_member m L h xs x ys :
  repr m L → L !! h = Some (xs ++ x :: ys) → nxt m x = Some (succ_of ys h).
Proof.
  intros HR Hh. apply (repr_ring _ _ HR) in Hh as Hc.
  by eapply chain_link_mid.
Qed.

Lemma nimble_list_is_empty_spec m L h xs :
  repr m L → L !! h = Some xs →
  nimble_list_is_empty h m = Some (bool_decide (xs = []), m).
Proof.
  intros HR Hh. replace (bool_decide (xs = [])) with (bool_decide (succ_of xs h = h)).
  - unfold nimble_list_is_empty, get_next, oget, mbind, M_bind, mret, M_ret.
    pose proof (nxt_head _ _ _ _ HR Hh) as E. unfold nxt in E. by rewrite E.
  - apply bool_decide_ext. destruct xs as [|x xs]; [done|].
    split; [|done]. unfold succ_of; simpl. intros ->. eapply repr_nodup_ring in Hh; [|done].
    apply NoDup_cons in Hh as [[] _]. left.
Qed.

(** Initialising a list head that is new or empty, and a detached node. *)
Lemma repr_init_head m L h :
  repr m L → default [] (L !! h) = [] → unlinked h L →
  repr (<[h := Node h h]> m) (<[h := []]> L).
Proof.
  intros HR HL Hu.
  split.
  - intros h' xs [[<- <-]|[? Hh']]%lookup_insert_Some.
    + unfold chain, link, nxt, prv. by simplify_map_eq.
    + eapply chain_frame; [by eapply repr_ring|..]; intros x Hx;
        unfold nxt, prv; (rewrite lookup_insert_ne; [done|]); intros <-;
        [apply elem_of_cons in Hx as [->|Hx]|
         apply elem_of_app in Hx as [Hx|Hx%list_elem_of_singleton]];
        try done; by eapply Hu.
  - intros h' xs [[<- <-]|[? Hh']]%lookup_insert_Some; [constructor|by eapply repr_nodup].
  - intros h' xs n [[<- <-]|[? Hh']]%lookup_insert_Some Hn; [by apply elem_of_nil in Hn|].
    rewrite lookup_insert_ne; [by eapply repr_item|]. intros ->. by eapply Hu.
  - intros h1 h2 xs1 xs2 n [[<- <-]|[? H1]]%lookup_insert_Some
      [[<- <-]|[? H2]]%lookup_insert_Some; intros E1 E2;
      try (by apply elem_of_nil in E1); try (by apply elem_of_nil in E2).
    by eapply repr_disj.
  - intros n Hn HnL Hun. assert (n ≠ h) by (intros ->; by simplify_map_eq).
    unfold link, nxt, prv. rewrite lookup_insert_ne in Hn by done.
    rewrite lookup_insert_ne in HnL by done.
    rewrite !lookup_insert_ne by done.
    apply (repr_single _ _ HR n Hn HnL). intros h' xs Hh'.
    destruct (decide (h' = h)) as [->|].
    + rewrite Hh' in HL. simpl in HL. subst. intros Hx. by apply elem_of_nil in Hx.
    + apply (Hun h'). by rewrite lookup_insert_ne.
Qed.

Lemma repr_init_item m L n :
  repr m L → L !! n = None → unlinked n L →
  repr (<[n := Node n n]> m) L.
Proof.
  intros HR HL Hu.
  split; try apply HR.
  - intros h xs Hh.
    eapply chain_frame; [by eapply repr_ring|..]; intros x Hx;
        unfold nxt, prv; (rewrite lookup_insert_ne; [done|]); intros <-;
        [apply elem_of_cons in Hx as [->|Hx]|
         apply elem_of_app in Hx as [Hx|Hx%list_elem_of_singleton]];
        try congruence; by eapply Hu.
  - intros n' Hn' HnL Hun. unfold link, nxt, prv. destruct (decide (n' = n)) as [->|].
    + by simplify_map_eq.
    + rewrite lookup_insert_ne in Hn' by done. rewrite !lookup_insert_ne by done.
      by apply (repr_single _ _ HR n').
Qed.

Lemma repr_empty : repr ∅ ∅.
Proof. split; intros *; rewrite ?lookup_empty; done. Qed.

(** ** Reading a list back *)

Lemma walk_spec m h a xs k :
  chain m a xs h → h ∉ xs →
  walk (S (length xs) + k) m h (succ_of xs h) = Some xs.
Proof.
  revert a. induction xs as [|x xs IH]; intros a Hc Hh.
  - simpl. by rewrite decide_True.
  - change (succ_of (x :: xs) h) with x. cbn.
    apply not_elem_of_cons in Hh as [? ?]. rewrite decide_False by done.
    destruct Hc as [_ Hc]. assert (nxt m x = Some (succ_of xs h)) as E by by apply (chain_link m x [] xs h).
    unfold nxt in E. apply fmap_Some in E as (d&->&<-).
    specialize (IH _ Hc). simpl in IH. by rewrite IH.
Qed.

(** A represented list reads back as the sequence it represents. *)
Lemma contents_spec m L h xs :
  repr m L → L !! h = Some xs → contents m h = Some xs.
Proof.
  intros HR Hh. unfold contents.
  pose proof (nxt_head _ _ _ _ HR Hh) as E. unfold nxt in E.
  apply fmap_Some in E as (d&->&<-).
  assert (length xs ≤ size m)%nat as Hlen.
  { rewrite <- size_dom, <- (size_list_to_set (C := gset nid) xs)
      by by eapply repr_nodup.
    apply subseteq_size. intros x Hx%elem_of_list_to_set.
    apply elem_of_dom. apply list_elem_of_split in Hx as (l1&l2&->).
    eapply nxt_is_Some, nxt_member; done. }
  replace (S (size m)) with (S (length xs) + (size m - length xs))%nat by lia.
  eapply walk_spec; [by eapply repr_ring|].
  eapply NoDup_cons_1_1, repr_nodup_ring; done.
Qed.

(** A node that points to itself is on no list. *)
Lemma self_linked_unlinked m L n :
  repr m L → L !! n = None → nxt m n = Some n → unlinked n L.
Proof.
  intros HR HL Hn. destruct (linked_or_unlinked n L) as [|(h&xs&ys&Hh)]; [done|].
  pose proof (nxt_member _ _ _ _ _ _ HR Hh) as E. rewrite E in Hn. injection Hn as Hs.
  destruct ys as [|y ys]; unfold succ_of in Hs; simpl in Hs; subst; [congruence|].
  pose proof (repr_nodup _ _ HR _ _ Hh) as Hnd. apply NoDup_app in Hnd as (_&_&Hnd).
  apply NoDup_cons in Hnd as [[] _]. left.
Qed.
End dlist.
