(* ===== verification/Kernel.v ===== *)
(** * The kernel's data ([nimble_types.h], [nimble_config.h] and the structures
    of the other headers) and the state every operation works on *)
From S2P Require Import Prelude DList.
From stdpp Require Import options.

(** ** Constants ([nimble_types.h], [nimble_config.h]) *)

Definition NIMBLE_OK : Z := 0.
Definition NIMBLE_ERR_INVALID_ARG : Z := -1.
Definition NIMBLE_ERR_NO_MEMORY : Z := -2.
Definition NIMBLE_ERR_TIMEOUT : Z := -3.
Definition NIMBLE_ERR_NOT_OWNER : Z := -4.
Definition NIMBLE_ERR_FULL : Z := -5.
Definition NIMBLE_ERR_EMPTY : Z := -6.

Definition NIMBLE_WAIT_FOREVER : Z := 0xFFFFFFFF.
Definition NIMBLE_NO_WAIT : Z := 0.

Definition NIMBLE_MAX_PRIORITIES : Z := 32.
Definition NIMBLE_TICK_RATE_HZ : Z := 1000.
Definition NIMBLE_MIN_STACK_WORDS : Z := 64.
Definition NIMBLE_MAX_TASK_NAME_LEN : Z := 16.

Inductive nimble_task_state_t :=
  | NIMBLE_TASK_READY
  | NIMBLE_TASK_RUNNING
  | NIMBLE_TASK_BLOCKED
  | NIMBLE_TASK_SUSPENDED
  | NIMBLE_TASK_DELETED.
#[export] Instance task_state_eq_dec : EqDecision nimble_task_state_t.
Proof. solve_decision. Defined.

(** ** Addresses

    A task is named by the number of its TCB, a kernel object by the number
    of its structure.  The list nodes of the kernel live inside those
    structures; [nid] is the symbolic address of each of them. *)
Abbreviation tid := nat (only parsing).

Inductive nid :=
  | NReady (prio : Z)      (** [&ready_lists[prio]] *)
  | NDelayed               (** [&delayed_list] *)
  | NLink (t : tid)        (** [&tcb->link] *)
  | NEvent (t : tid)       (** [&tcb->event_link] *)
  | NMutex (m : nat)       (** [&mutex->waiters] *)
  | NSem (s : nat)         (** [&sem->waiters] *)
  | NQRecv (q : nat)       (** [&queue->receivers_waiting] *)
  | NQSend (q : nat)       (** [&queue->senders_waiting] *)
  | NTimers                (** [&active_timers] *)
  | NTimer (x : nat).      (** [&timer->link] *)
#[export] Instance nid_eq_dec : EqDecision nid.
Proof. solve_decision. Defined.

Definition nid_code (n : nid) : nat * (Z * nat) :=
  match n with
  | NReady p => (0, (p, 0))
  | NDelayed => (1, (0%Z, 0))
  | NLink t => (2, (0%Z, t))
  | NEvent t => (3, (0%Z, t))
  | NMutex m => (4, (0%Z, m))
  | NSem s => (5, (0%Z, s))
  | NQRecv q => (6, (0%Z, q))
  | NQSend q => (7, (0%Z, q))
  | NTimers => (8, (0%Z, 0))
  | NTimer x => (9, (0%Z, x))
  end%nat.
Definition nid_decode (c : nat * (Z * nat)) : nid :=
  match c with
  | (0, (p, _)) => NReady p
  | (1, _) => NDelayed
  | (2, (_, t)) => NLink t
  | (3, (_, t)) => NEvent t
  | (4, (_, m)) => NMutex m
  | (5, (_, s)) => NSem s
  | (6, (_, q)) => NQRecv q
  | (7, (_, q)) => NQSend q
  | (8, _) => NTimers
  | (_, (_, x)) => NTimer x
  end%nat.
#[export] Instance nid_countable : Countable nid.
Proof. by apply (inj_countable' nid_code nid_decode); intros []. Defined.

(** The store of list nodes, and the lists it represents. *)
Abbreviation mem := (gmap nid (node nid)) (only parsing).
Abbreviation lists := (gmap nid (list nid)) (only parsing).

(** ** Structures *)

(** [nimble_tcb_t] ([nimble_task.h]); its two link nodes are [NLink t] and
    [NEvent t] of the store.  Pointers to memory and code are addresses. *)
Record nimble_tcb := TCB {
  sp : Z;
  priority : Z;
  base_priority : Z;
  state : nimble_task_state_t;
  stack_base : Z;
  stack_words : Z;
  wake_tick : Z;
  last_wait_result : Z;
  blocked_on_mutex : option nat;
  name : list Z;
}.

(** [nimble_mutex_t]; the waiters are the list [NMutex m]. *)
Record nimble_mutex := Mutex { owner : option tid; lock_count : Z }.

(** [nimble_semaphore_t]; the waiters are the list [NSem s]. *)
Record nimble_semaphore := Semaphore { count : Z; max_count : Z }.

(** [nimble_queue_t]; [q_buffer] is the storage [buffer] points to, byte by
    byte, and the two wait lists are [NQRecv q] and [NQSend q]. *)
Record nimble_queue := Queue {
  q_buffer : list Z;
  item_size : Z;
  capacity : Z;
  q_count : Z;
  q_head : Z;
  q_tail : Z;
}.

(** [nimble_timer_t]; its link node is [NTimer x]. *)
Record nimble_timer := Timer {
  period_ticks : Z;
  expiry_tick : Z;
  is_periodic : bool;
  is_active : bool;
  callback : Z;
  cb_arg : Z;
  timer_name : list Z;
}.

(** The state: the kernel's file-scope variables, the kernel objects, the
    memory words of the stacks, and the two pieces of the processor the
    kernel drives, [BASEPRI] and the pending bit of PendSV. *)
Record kstate := KState {
  nodes : gmap nid (node nid);
  tcbs : gmap nat nimble_tcb;
  ready_bitmap : Z;
  g_tick_count : Z;
  nimble_current_tcb : option tid;
  nimble_next_tcb : option tid;
  mutexes : gmap nat nimble_mutex;
  semaphores : gmap nat nimble_semaphore;
  queues : gmap nat nimble_queue;
  timers : gmap nat nimble_timer;
  ram : gmap Z Z;
  basepri : Z;
  pendsv : bool;
}.

(** What the linker decides: addresses of the kernel's functions and of the
    idle task's static stack. *)
Class Image := {
  task_exit_trap : Z;
  idle_task_fn : Z;
  timer_task_fn : Z;
  idle_stack : Z;
}.

(** ** Field updates *)

Section setters.
  Implicit Types (c : nimble_tcb) (s : kstate).

Definition set_state v c := TCB (sp c) (priority c) (base_priority c) v (stack_base c)
  (stack_words c) (wake_tick c) (last_wait_result c) (blocked_on_mutex c) (name c).
Definition set_priority v c := TCB (sp c) v (base_priority c) (state c) (stack_base c)
  (stack_words c) (wake_tick c) (last_wait_result c) (blocked_on_mutex c) (name c).
Definition set_wake_tick v c := TCB (sp c) (priority c) (base_priority c) (state c)
  (stack_base c) (stack_words c) v (last_wait_result c) (blocked_on_mutex c) (name c).
Definition set_last_wait_result v c := TCB (sp c) (priority c) (base_priority c) (state c)
  (stack_base c) (stack_words c) (wake_tick c) v (blocked_on_mutex c) (name c).
Definition set_sp v c := TCB v (priority c) (base_priority c) (state c)
  (stack_base c) (stack_words c) (wake_tick c) (last_wait_result c) (blocked_on_mutex c) (name c).

Definition set_nodes v s := KState v (tcbs s) (ready_bitmap s) (g_tick_count s)
  (nimble_current_tcb s) (nimble_next_tcb s) (mutexes s) (semaphores s) (queues s)
  (timers s) (ram s) (basepri s) (pendsv s).
Definition set_tcbs v s := KState (nodes s) v (ready_bitmap s) (g_tick_count s)
  (nimble_current_tcb s) (nimble_next_tcb s) (mutexes s) (semaphores s) (queues s)
  (timers s) (ram s) (basepri s) (pendsv s).
Definition set_ready_bitmap v s := KState (nodes s) (tcbs s) v (g_tick_count s)
  (nimble_current_tcb s) (nimble_next_tcb s) (mutexes s) (semaphores s) (queues s)
  (timers s) (ram s) (basepri s) (pendsv s).
Definition set_tick_count v s := KState (nodes s) (tcbs s) (ready_bitmap s) v
  (nimble_current_tcb s) (nimble_next_tcb s) (mutexes s) (semaphores s) (queues s)
  (timers s) (ram s) (basepri s) (pendsv s).
Definition set_current_tcb v s := KState (nodes s) (tcbs s) (ready_bitmap s) (g_tick_count s)
  v (nimble_next_tcb s) (mutexes s) (semaphores s) (queues s)
  (timers s) (ram s) (basepri s) (pendsv s).
Definition set_next_tcb v s := KState (nodes s) (tcbs s) (ready_bitmap s) (g_tick_count s)
  (nimble_current_tcb s) v (mutexes s) (semaphores s) (queues s)
  (timers s) (ram s) (basepri s) (pendsv s).
Definition set_mutexes v s := KState (nodes s) (tcbs s) (ready_bitmap s) (g_tick_count s)
  (nimble_current_tcb s) (nimble_next_tcb s) v (semaphores s) (queues s)
  (timers s) (ram s) (basepri s) (pendsv s).
Definition set_semaphores v s := KState (nodes s) (tcbs s) (ready_bitmap s) (g_tick_count s)
  (nimble_current_tcb s) (nimble_next_tcb s) (mutexes s) v (queues s)
  (timers s) (ram s) (basepri s) (pendsv s).
Definition set_queues v s := KState (nodes s) (tcbs s) (ready_bitmap s) (g_tick_count s)
  (nimble_current_tcb s) (nimble_next_tcb s) (mutexes s) (semaphores s) v
  (timers s) (ram s) (basepri s) (pendsv s).
Definition set_timers v s := KState (nodes s) (tcbs s) (ready_bitmap s) (g_tick_count s)
  (nimble_current_tcb s) (nimble_next_tcb s) (mutexes s) (semaphores s) (queues s)
  v (ram s) (basepri s) (pendsv s).
Definition set_ram v s := KState (nodes s) (tcbs s) (ready_bitmap s) (g_tick_count s)
  (nimble_current_tcb s) (nimble_next_tcb s) (mutexes s) (semaphores s) (queues s)
  (timers s) v (basepri s) (pendsv s).
Definition set_basepri v s := KState (nodes s) (tcbs s) (ready_bitmap s) (g_tick_count s)
  (nimble_current_tcb s) (nimble_next_tcb s) (mutexes s) (semaphores s) (queues s)
  (timers s) (ram s) v (pendsv s).
Definition set_pendsv v s := KState (nodes s) (tcbs s) (ready_bitmap s) (g_tick_count s)
  (nimble_current_tcb s) (nimble_next_tcb s) (mutexes s) (semaphores s) (queues s)
  (timers s) (ram s) (basepri s) v.
End setters.

(** ** The kernel monad and its accesses to the state *)

Abbreviation K := (M kstate).

(** A list operation, run on the store of nodes. *)
Definition on_nodes {A} (m : M (gmap nid (node nid)) A) : K A := zoom nodes set_nodes m.

(** [tcb->...], and the assignment to a field of [*tcb]. *)
Definition get_tcb (t : tid) : K nimble_tcb := oget (λ s, tcbs s !! t).
Definition upd_tcb (t : tid) (f : nimble_tcb → nimble_tcb) : K unit :=
  c ← get_tcb t; modify (λ s, set_tcbs (<[t := f c]> (tcbs s)) s).

Definition get_mutex (m : nat) : K nimble_mutex := oget (λ s, mutexes s !! m).
Definition put_mutex (m : nat) (v : nimble_mutex) : K unit :=
  modify (λ s, set_mutexes (<[m := v]> (mutexes s)) s).
Definition get_semaphore (x : nat) : K nimble_semaphore := oget (λ s, semaphores s !! x).
Definition put_semaphore (x : nat) (v : nimble_semaphore) : K unit :=
  modify (λ s, set_semaphores (<[x := v]> (semaphores s)) s).
Definition get_queue (q : nat) : K nimble_queue := oget (λ s, queues s !! q).
Definition put_queue (q : nat) (v : nimble_queue) : K unit :=
  modify (λ s, set_queues (<[q := v]> (queues s)) s).
Definition get_timer (x : nat) : K nimble_timer := oget (λ s, timers s !! x).
Definition put_timer (x : nat) (v : nimble_timer) : K unit :=
  modify (λ s, set_timers (<[x := v]> (timers s)) s).

(** [NIMBLE_CONTAINER_OF(node, nimble_tcb_t, link)] and its two variants: the
    structure a node lives in.  On a list head, which lives in no such
    structure, the C expression is a wild pointer. *)
Definition tcb_of_link (n : nid) : K tid :=
  match n with NLink t => mret t | _ => ub end.
Definition tcb_of_event_link (n : nid) : K tid :=
  match n with NEvent t => mret t | _ => ub end.
Definition timer_of_link (n : nid) : K nat :=
  match n with NTimer x => mret x | _ => ub end.

(** The fuel of a loop over a list: no list has more nodes than the store. *)
Definition list_fuel : K nat := gets (λ s, S (size (nodes s))).

(** One word of memory; an access outside the mapped words is undefined. *)
Definition load_word (a : Z) : K Z := oget (λ s, ram s !! a).
Definition store_word (a v : Z) : K unit :=
  load_word a ;; modify (λ s, set_ram (<[a := v]> (ram s)) s).

(** The loop that measures a C string, stopping at [max]:
    [while (name[len] != '\0' && len < max) len++].  Reading past the array
    that holds the string is undefined. *)
Fixpoint measure_name (fuel : nat) (str : list Z) (len max : nat) : option nat :=
  match fuel with
  | O => None
  | S fuel =>
      b ← str !! len;
      if negb (b =? 0) && (len <? max)%nat
      then measure_name fuel str (S len) max else Some len
  end.

(** [memcpy(dst, str, len); dst[len] = '\0'] on a zeroed array of [size] bytes. *)
Definition copy_name (size : nat) (str : list Z) (len : nat) : list Z :=
  take len str ++ replicate (size - len) 0.

(** The name field filled from the argument [str], [None] for a null pointer:
    at most 15 characters, zero-terminated, the same code in
    [nimble_task_create] and [nimble_timer_init]. *)
Definition stored_name (str : option (list Z)) : option (list Z) :=
  match str with
  | Some str => len ← measure_name 16 str 0 15; Some (copy_name 16 str len)
  | None => Some (copy_name 16 [] 0)
  end.
