(* ===== verification/Port.v ===== *)
(** * The port layer ([port/arch/cortex-m4/]): critical sections, the PendSV
    request and the first stack frame of a task *)
From S2P Require Import Prelude DList Kernel.
From stdpp Require Import options.

(** [5U << 4] *)
Definition NIMBLE_KERNEL_SYSCALL_BASEPRI : Z := Z.shiftl 5 4.

(** Sets PENDSVSET; the switch itself runs later, in [PendSV_Handler]. *)
Definition nimble_port_request_context_switch : K unit := modify (set_pendsv true).

Definition nimble_port_enter_critical : K Z :=
  old ← gets basepri;
  modify (set_basepri NIMBLE_KERNEL_SYSCALL_BASEPRI) ;;
  mret old.

Definition nimble_port_exit_critical (saved_state : Z) : K unit :=
  modify (set_basepri saved_state).

(** [*(--sp) = v] *)
Definition push_word (sp v : Z) : K Z :=
  let sp := u32 (sp - 4) in store_word sp v ;; mret sp.

Fixpoint push_words (sp : Z) (vs : list Z) : K Z :=
  match vs with
  | [] => mret sp
  | v :: vs => sp ← push_word sp v; push_words sp vs
  end.

Section image.
  Context `{Image}.

(** The words the function stores, in program order. *)
Definition initial_frame (fn arg : Z) : list Z :=
  [0x01000000; fn; task_exit_trap; 0x12121212; 0x03030303; 0x02020202; 0x01010101; arg;
   0x11111111; 0x10101010; 0x09090909; 0x08080808; 0x07070707; 0x06060606;
   0x05050505; 0x04040404].

Definition nimble_port_init_task_stack (stack_top fn arg : Z) : K Z :=
  push_words stack_top (initial_frame fn arg).
End image.
