(* ===== verification/Scheduler.v ===== *)
(** * The scheduler ([kernel/src/scheduler.c]) *)
From S2P Require Import Prelude DList Kernel Port.
From stdpp Require Import options.

(** The idle task's TCB is static; it is task 0. *)
Definition idle_tcb : tid := 0%nat.
Definition IDLE_STACK_WORDS : Z := 128.

(** [__builtin_clz]: the number of zero bits above the most significant set
    bit, bit 31 down; undefined on 0. *)
Fixpoint clz_from (i : nat) (x : Z) : Z :=
  if Z.testbit x (Z.of_nat i) then 0
  else match i with O => 1 | S i => 1 + clz_from i x end.
Definition builtin_clz (x : Z) : option Z :=
  if x =? 0 then None else Some (clz_from 31 x).

Definition highest_set_bit (bitmap : Z) : option Z :=
  c ← builtin_clz bitmap; mret (u8 (31 - c)).

Definition nimble_scheduler_get_tick_count : K Z := gets g_tick_count.

Definition nimble_scheduler_add_ready (t : tid) : K unit :=
  upd_tcb t (set_state NIMBLE_TASK_READY) ;;
  c ← get_tcb t;
  on_nodes (nimble_list_insert_tail (NReady (priority c)) (NLink t)) ;;
  modify (λ s, set_ready_bitmap (Z.lor (ready_bitmap s) (Z.shiftl 1 (priority c))) s).

Definition nimble_scheduler_remove (t : tid) : K unit :=
  c ← get_tcb t;
  let prio := priority c in
  on_nodes (nimble_list_remove (NLink t)) ;;
  e ← on_nodes (nimble_list_is_empty (NReady prio));
  when e (modify (λ s, set_ready_bitmap
    (Z.land (ready_bitmap s) (u32 (Z.lnot (Z.shiftl 1 prio)))) s)).

Definition nimble_scheduler_block_current_delay (t : tid) (wake : Z) : K unit :=
  nimble_scheduler_remove t ;;
  upd_tcb t (set_wake_tick wake) ;;
  upd_tcb t (set_state NIMBLE_TASK_BLOCKED) ;;
  on_nodes (nimble_list_insert_tail NDelayed (NLink t)).

Definition nimble_scheduler_prepare_block (t : tid) (timeout_ticks : Z) : K unit :=
  nimble_scheduler_remove t ;;
  upd_tcb t (set_state NIMBLE_TASK_BLOCKED) ;;
  when (negb (timeout_ticks =? NIMBLE_WAIT_FOREVER))
    (now ← nimble_scheduler_get_tick_count;
     upd_tcb t (set_wake_tick (u32 (now + timeout_ticks))) ;;
     on_nodes (nimble_list_insert_tail NDelayed (NLink t))).

Definition nimble_scheduler_wake_waiter (wait_list : nid) : K (option tid) :=
  e ← on_nodes (nimble_list_is_empty wait_list);
  if (e : bool) then mret None else
  node ← on_nodes (get_next wait_list);
  t ← tcb_of_event_link node;
  on_nodes (nimble_list_remove (NEvent t)) ;;
  on_nodes (nimble_list_remove (NLink t)) ;;
  upd_tcb t (set_last_wait_result NIMBLE_OK) ;;
  nimble_scheduler_add_ready t ;;
  mret (Some t).

Definition nimble_scheduler_select_next : K tid :=
  cur ← gets nimble_current_tcb;
  match cur with
  | Some t =>
      c ← get_tcb t;
      when (bool_decide (state c = NIMBLE_TASK_RUNNING)) (nimble_scheduler_add_ready t)
  | None => mret tt
  end ;;
  prio ← oget (λ s, highest_set_bit (ready_bitmap s));
  node ← on_nodes (get_next (NReady prio));
  next ← tcb_of_link node;
  nimble_scheduler_remove next ;;
  upd_tcb next (set_state NIMBLE_TASK_RUNNING) ;;
  modify (set_next_tcb (Some next)) ;;
  mret next.

(** The loop of [nimble_scheduler_tick]: [node] is the loop variable. *)
Fixpoint tick_loop (fuel : nat) (node : nid) : K unit :=
  match fuel with
  | O => ub
  | S fuel =>
      if decide (node = NDelayed) then mret tt else
      next_node ← on_nodes (get_next node);
      t ← tcb_of_link node;
      c ← get_tcb t;
      now ← gets g_tick_count;
      when (0 <=? i32 (now - wake_tick c))
        (on_nodes (nimble_list_remove (NLink t)) ;;
         on_nodes (nimble_list_remove (NEvent t)) ;;
         upd_tcb t (set_last_wait_result NIMBLE_ERR_TIMEOUT) ;;
         nimble_scheduler_add_ready t) ;;
      tick_loop fuel next_node
  end.

Definition nimble_scheduler_tick : K unit :=
  modify (λ s, set_tick_count (u32 (g_tick_count s + 1)) s) ;;
  node ← on_nodes (get_next NDelayed);
  fuel ← list_fuel;
  tick_loop fuel node ;;
  nimble_port_request_context_switch.

(** Up to the call of [nimble_port_start_first_task], which starts the
    chosen task and does not return. *)
Definition nimble_scheduler_start : K unit :=
  t ← nimble_scheduler_select_next;
  modify (set_next_tcb (Some t)) ;;
  n ← gets nimble_next_tcb;
  modify (set_current_tcb n).

(** [SysTick_Handler] ([exception_handlers.c]). *)
Definition SysTick_Handler : K unit :=
  crit ← nimble_port_enter_critical;
  nimble_scheduler_tick ;;
  nimble_port_exit_critical crit.

(** The part of [PendSV_Handler] ([context_switch.S]) that is about tasks:
    ask the scheduler, then [nimble_current_tcb = nimble_next_tcb].  Taking
    the exception clears its pending bit. *)
Definition PendSV_Handler : K unit :=
  modify (set_pendsv false) ;;
  nimble_scheduler_select_next ;;
  n ← gets nimble_next_tcb;
  modify (set_current_tcb n).
