(* ===== verification/SchedInv.v ===== *)
(** * The scheduler invariant

    [sched_inv hole s L]: the node store of [s] holds the lists [L], the
    bitmap agrees with the ready lists, and every task but [hole] is on
    exactly the lists its state calls for.  An operation that moves a task
    opens the invariant at that task, relinks it, and closes it again.

    Priority inheritance raises the priority of a task without relinking it.
    A READY task may therefore sit on the list of a lower priority, and once
    it is taken off, the bit of that list stays set.  A class [Mode] says
    which runs are considered: with [exact], those in which no lock raises a
    READY owner, so that lists and bitmap are exact; with [ordered], those in
    which no lock raises a waiting owner, so that wait lists stay sorted.  The
    invariant holds in every mode; [Stale] bounds the bits that may be set for
    an empty list. *)
From S2P Require Import Prelude DList Kernel.
From stdpp Require Import options.

(** [n] is a member of the list [h]. *)
Definition on (L : gmap nid (list nid)) (h n : nid) : Prop :=
  ∃ xs, L !! h = Some xs ∧ n ∈ xs.

(** The wait lists of the synchronisation objects. *)
Definition is_wait (h : nid) : bool :=
  match h with NMutex _ | NSem _ | NQRecv _ | NQSend _ => true | _ => false end.

(** Which nodes may be on which list. *)
Definition typed (s : kstate) (h n : nid) : Prop :=
  match h, n with
  | NReady _, NLink t | NDelayed, NLink t => is_Some (tcbs s !! t)
  | NTimers, NTimer x => is_Some (timers s !! x)
  | _, NEvent t => is_wait h = true ∧ is_Some (tcbs s !! t)
  | _, _ => False
  end.

Definition is_head (h : nid) : Prop :=
  match h with NLink _ | NEvent _ | NTimer _ => False | _ => True end.

(** [exact]: the ready lists and the bitmap are exactly those of the READY
    tasks' priorities.  [ordered]: the wait lists are in priority order. *)
Class Mode := { exact : bool; ordered : bool }.

(** The priorities whose bit may be set while their list is empty. *)
Class Stale := stale : Z → Prop.

(** No lock raises an owner that is READY or waits for an object; any may. *)
Definition strict : Mode := {| exact := true; ordered := true |}.
Definition free : Mode := {| exact := false; ordered := false |}.
(** Inheritance may raise a READY owner, but none that waits itself. *)
Definition inherit : Mode := {| exact := false; ordered := true |}.

(** Removing a task settles the bit of its own priority; *)
Definition less_stale (prio : Z) (X : Stale) : Stale := λ q, X q ∧ q ≠ prio.
(** ... once a task of priority [prio] has left the list of [p]. *)
Definition left_stale (p prio : Z) (X : Stale) : Stale := λ q, (X q ∨ q = p) ∧ q ≠ prio.

Section mode.
Context {M : Mode} {X : Stale}.

(** The ready list a task may be on: that of its priority, or of one it had
    before it was raised. *)
Definition home (c : nimble_tcb) (p : Z) : Prop :=
  base_priority c ≤ p ≤ priority c ∧ (exact = true → p = priority c).

(** What the state of a task says about the lists it is on. *)
Record task_inv (cur : option tid) (L : lists) (t : tid) (c : nimble_tcb) : Prop := {
  ti_ready p : on L (NReady p) (NLink t) → state c = NIMBLE_TASK_READY ∧ home c p;
  ti_listed : state c = NIMBLE_TASK_READY → ∃ p, on L (NReady p) (NLink t);
  ti_raised : base_priority c ≤ priority c;
  ti_delayed : on L NDelayed (NLink t) → state c = NIMBLE_TASK_BLOCKED;
  ti_wait h : is_wait h = true → on L h (NEvent t) → state c = NIMBLE_TASK_BLOCKED;
  ti_running : state c = NIMBLE_TASK_RUNNING → cur = Some t;
  ti_blocked : state c = NIMBLE_TASK_BLOCKED →
    on L NDelayed (NLink t) ∨ ∃ h, is_wait h = true ∧ on L h (NEvent t);
  ti_alive : state c ≠ NIMBLE_TASK_DELETED;
}.

Record sched_inv (hole : option tid) (s : kstate) (L : lists) : Prop := {
  si_repr : repr (nodes s) L;
  si_typed h n : on L h n → typed s h n;
  si_heads h : is_Some (L !! h) → is_head h;
  si_ready p : is_Some (L !! NReady p) ↔ 0 ≤ p < 32;
  si_delayed : is_Some (L !! NDelayed);
  si_nodes t : is_Some (tcbs s !! t) →
    is_Some (nodes s !! NLink t) ∧ is_Some (nodes s !! NEvent t);
  si_prio t c : tcbs s !! t = Some c → 0 ≤ priority c < 32;
  si_bitmap_range : 0 ≤ ready_bitmap s < 2 ^ 32;
  si_bitmap p n : 0 ≤ p < 32 → on L (NReady p) n → Z.testbit (ready_bitmap s) p = true;
  si_stale p : 0 ≤ p < 32 → Z.testbit (ready_bitmap s) p = true →
    (∃ n, on L (NReady p) n) ∨ exact = false ∧ stale p;
  si_task t c : tcbs s !! t = Some c → Some t ≠ hole →
    task_inv (nimble_current_tcb s) L t c;
}.

(** ** Membership *)

Implicit Types (L : gmap nid (list nid)) (m : gmap nid (node nid)) (n h x : nid) (t : nat)
  (s : kstate) (c : nimble_tcb).

Lemma on_detach L n h x : on (detach n L) h x ↔ x ≠ n ∧ on L h x.
Proof.
  unfold on. split.
  - intros (xs&(xs0&?&->)%lookup_detach_Some&[??]%elem_of_without). eauto.
  - intros (?&xs&?&?). exists (without n xs). split; [by apply lookup_detach|].
    by apply elem_of_without.
Qed.

Lemma on_insert L h xs ys n h' x :
  L !! h = Some (xs ++ ys) →
  on (<[h := xs ++ n :: ys]> L) h' x ↔ (h' = h ∧ x = n) ∨ on L h' x.
Proof.
  intros Hh. unfold on. destruct (decide (h' = h)) as [->|].
  - rewrite lookup_insert_eq, Hh. split.
    + intros (?&[= <-]&Hx). apply elem_of_insert_mid in Hx as [->|Hx]; eauto.
    + intros [[_ ->]|(?&[= <-]&Hx)]; eexists; (split; [done|]);
        apply elem_of_insert_mid; auto.
  - rewrite lookup_insert_ne by done. naive_solver.
Qed.

Lemma on_insert_tail L h xs n h' x :
  L !! h = Some xs →
  on (<[h := xs ++ [n]]> L) h' x ↔ (h' = h ∧ x = n) ∨ on L h' x.
Proof. intros Hh. apply (on_insert L h xs []). by rewrite app_nil_r. Qed.

Lemma unlinked_on n L : unlinked n L ↔ ∀ h, ¬ on L h n.
Proof.
  unfold unlinked, on. split; [intros Hu h (xs&?&?); by eapply Hu|].
  intros Hn h xs ??. apply (Hn h); eauto.
Qed.

Lemma on_unique m L h1 h2 n : repr m L → on L h1 n → on L h2 n → h1 = h2.
Proof. intros HR (?&?&?) (?&?&?). by eapply repr_disj. Qed.

Lemma is_Some_detach n L h : is_Some (detach n L !! h) ↔ is_Some (L !! h).
Proof. unfold detach. rewrite lookup_fmap. apply fmap_is_Some. Qed.

Lemma is_Some_insert_same {A} (L : gmap nid A) h (x xs : A) h' :
  L !! h = Some xs → is_Some (<[h := x]> L !! h') ↔ is_Some (L !! h').
Proof.
  intros Hh. destruct (decide (h = h')) as [<-|].
  - rewrite lookup_insert_eq, Hh. split; eauto.
  - by rewrite lookup_insert_ne.
Qed.

(** The invariant of a task only looks at the task's own nodes. *)
Lemma task_inv_ext cur L L' t c :
  (∀ h, on L' h (NLink t) ↔ on L h (NLink t)) →
  (∀ h, on L' h (NEvent t) ↔ on L h (NEvent t)) →
  task_inv cur L t c → task_inv cur L' t c.
Proof.
  intros H1 H2 [Hr Hli Hra Hd Hw Hrun Hb Ha].
  split; [..|intros E; destruct (Hb E) as [?|(h&?&?)]|done]; try setoid_rewrite H1;
    try setoid_rewrite H2; eauto.
Qed.

(** ** Opening and closing the invariant *)

Section hole.
  Context (t : tid).

Lemma sched_inv_open s L : sched_inv None s L → sched_inv (Some t) s L.
Proof. intros []. split; eauto. Qed.

Lemma sched_inv_close s L c :
  sched_inv (Some t) s L → tcbs s !! t = Some c →
  task_inv (nimble_current_tcb s) L t c → sched_inv None s L.
Proof.
  intros [] Ht Hi. split; eauto. intros t' c' Ht' _.
  destruct (decide (t' = t)) as [->|]; [by simplify_eq|]. apply si_task0; congruence.
Qed.

Lemma link_insertable s L :
  sched_inv (Some t) s L → is_Some (tcbs s !! t) → unlinked (NLink t) L →
  insertable (nodes s) L (NLink t).
Proof.
  intros HI Ht Hu. split; [by eapply si_nodes| |done].
  destruct (L !! NLink t) eqn:E; [|done]. by destruct (si_heads _ _ _ HI (NLink t)).
Qed.

Lemma event_insertable s L :
  sched_inv (Some t) s L → is_Some (tcbs s !! t) → unlinked (NEvent t) L →
  insertable (nodes s) L (NEvent t).
Proof.
  intros HI Ht Hu. split; [by eapply si_nodes| |done].
  destruct (L !! NEvent t) eqn:E; [|done]. by destruct (si_heads _ _ _ HI (NEvent t)).
Qed.

(** Changing the hole's TCB. *)
Lemma hole_upd_tcb s L c c' :
  sched_inv (Some t) s L → tcbs s !! t = Some c → 0 ≤ priority c' < 32 →
  sched_inv (Some t) (set_tcbs (<[t := c']> (tcbs s)) s) L.
Proof.
  intros [] Ht Hp.
  assert (∀ u, is_Some (<[t := c']> (tcbs s) !! u) ↔ is_Some (tcbs s !! u)) as Hdom.
  { intros u. destruct (decide (u = t)) as [->|];
      [rewrite lookup_insert_eq, Ht; split; eauto|by rewrite lookup_insert_ne]. }
  split; simpl; eauto.
  - intros h n Hon. specialize (si_typed0 h n Hon). unfold typed in *; simpl.
    destruct h, n; rewrite ?Hdom; done.
  - intros u. rewrite Hdom. apply si_nodes0.
  - intros u cu [[<- <-]|[? Hu]]%lookup_insert_Some; eauto.
  - intros u cu [[<- <-]|[? Hu]]%lookup_insert_Some ?; [done|eauto].
Qed.

(** Any change of the node store that leaves the other tasks' membership,
    the ready lists' emptiness and the bitmap in agreement. *)
Lemma hole_relink s L m' L' b' :
  sched_inv (Some t) s L → repr m' L' → dom m' = dom (nodes s) →
  (∀ h, is_Some (L' !! h) ↔ is_Some (L !! h)) →
  (∀ h n, on L' h n → on L h n ∨ typed s h n) →
  (∀ u h, u ≠ t → (on L' h (NLink u) ↔ on L h (NLink u)) ∧
                  (on L' h (NEvent u) ↔ on L h (NEvent u))) →
  0 ≤ b' < 2 ^ 32 →
  (∀ p n, 0 ≤ p < 32 → on L' (NReady p) n → Z.testbit b' p = true) →
  (∀ p, 0 ≤ p < 32 → Z.testbit b' p = true →
     (∃ n, on L' (NReady p) n) ∨ exact = false ∧ stale p) →
  sched_inv (Some t) (set_ready_bitmap b' (set_nodes m' s)) L'.
Proof.
  intros [] HR Hd Hdom Hty Hoth Hb Hbit Hstale.
  assert (∀ n, is_Some (nodes s !! n) → is_Some (m' !! n)) as Hm.
  { intros n. by apply nxt_dom. }
  split; simpl; eauto.
  - intros h n [?|?]%Hty; [by apply si_typed0|done].
  - intros h. rewrite Hdom. apply si_heads0.
  - intros p. rewrite Hdom. apply si_ready0.
  - rewrite Hdom. apply si_delayed0.
  - intros u [??]%si_nodes0. eauto.
  - intros u c Hu Hne. eapply task_inv_ext; [..|by eapply si_task0];
      intros h; eapply Hoth; congruence.
Qed.

Lemma set_ready_bitmap_id s m' :
  set_ready_bitmap (ready_bitmap s) (set_nodes m' s) = set_nodes m' s.
Proof. by destruct s. Qed.

Lemma hole_relink' s L m' L' :
  sched_inv (Some t) s L → repr m' L' → dom m' = dom (nodes s) →
  (∀ h, is_Some (L' !! h) ↔ is_Some (L !! h)) →
  (∀ h n, on L' h n → on L h n ∨ typed s h n) →
  (∀ u h, u ≠ t → (on L' h (NLink u) ↔ on L h (NLink u)) ∧
                  (on L' h (NEvent u) ↔ on L h (NEvent u))) →
  (∀ p n, on L' (NReady p) n ↔ on L (NReady p) n) →
  sched_inv (Some t) (set_nodes m' s) L'.
Proof.
  intros HI HR Hd Hdom Hty Hoth Hrd. rewrite <- set_ready_bitmap_id.
  eapply hole_relink; eauto; [by eapply si_bitmap_range|..].
  - intros p n Hp. rewrite Hrd. by eapply si_bitmap.
  - intros p Hp. setoid_rewrite Hrd. by eapply si_stale.
Qed.
End hole.

End mode.

(** Only the bits of empty lists matter. *)
Lemma sched_inv_restale {M : Mode} (X Y : Z → Prop) hole s L :
  sched_inv (X := X) hole s L →
  (∀ p, 0 ≤ p < 32 → Z.testbit (ready_bitmap s) p = true →
     (∃ n, on L (NReady p) n) ∨ exact = false ∧ Y p) →
  sched_inv (X := Y) hole s L.
Proof. intros [] HY. by split. Qed.

Lemma sched_inv_weaken {M : Mode} (X Y : Z → Prop) hole s L :
  (∀ p, X p → Y p) → sched_inv (X := X) hole s L → sched_inv (X := Y) hole s L.
Proof.
  intros HY HI. apply (sched_inv_restale X); [done|]. intros p Hp Hb.
  destruct (si_stale _ _ _ HI p Hp Hb) as [?|[? ?]]; [by left|right]. split; [done|by apply HY].
Qed.
