(* ===== verification/SchedSpec.v ===== *)
(** * What the scheduler's operations do to the lists and the invariant *)
From S2P Require Import Prelude DList Kernel Port Scheduler SchedInv.
From stdpp Require Import options.

Implicit Types (L : gmap nid (list nid)) (m : gmap nid (node nid)) (n h x : nid) (t u : nat)
  (s : kstate) (c : nimble_tcb).

Lemma wp_on_nodes {A} (p : M (gmap nid (node nid)) A) Q s :
  wp p (λ a m, Q a (set_nodes m s)) (nodes s) → wp (on_nodes p) Q s.
Proof. apply wp_zoom. Qed.

Lemma wp_get_tcb t c Q s : tcbs s !! t = Some c → Q c s → wp (get_tcb t) Q s.
Proof. apply (wp_oget (λ s, tcbs s !! t)). Qed.

Lemma wp_upd_tcb t f c (Q : unit → kstate → Prop) s :
  tcbs s !! t = Some c → Q tt (set_tcbs (<[t := f c]> (tcbs s)) s) →
  wp (upd_tcb t f) Q s.
Proof. intros Ht HQ. apply wp_bind. by eapply wp_get_tcb. Qed.

Lemma wp_is_empty h L xs (Q : bool → kstate → Prop) s :
  repr (nodes s) L → L !! h = Some xs → Q (bool_decide (xs = [])) s →
  wp (on_nodes (nimble_list_is_empty h)) Q s.
Proof.
  intros HR Hh HQ. apply wp_on_nodes. eapply wp_eq; [by eapply nimble_list_is_empty_spec|].
  by destruct s.
Qed.

Lemma wp_get_next_head h L xs (Q : nid → kstate → Prop) s :
  repr (nodes s) L → L !! h = Some xs → Q (succ_of xs h) s →
  wp (on_nodes (get_next h)) Q s.
Proof.
  intros HR Hh HQ. apply wp_on_nodes. eapply wp_get_next; [by eapply nxt_head|].
  by destruct s.
Qed.

Lemma wp_get_next_member h L xs n ys (Q : nid → kstate → Prop) s :
  repr (nodes s) L → L !! h = Some (xs ++ n :: ys) → Q (succ_of ys h) s →
  wp (on_nodes (get_next n)) Q s.
Proof.
  intros HR Hh HQ. apply wp_on_nodes. eapply wp_get_next; [by eapply nxt_member|].
  by destruct s.
Qed.

(** The node-store steps of the hole, as symbolic-execution steps. *)
Ltac hole_step lem :=
  wp_step; wp_apply lem; [..|intros ? ?; intros [[? ->] ?]]; simpl.

Section mode.
Context {M : Mode} {X : Stale}.

(** ** One list step of a task whose invariant is open *)

Section hole.
  Context (t : nat).

Lemma hole_remove_event s L :
  sched_inv (Some t) s L → is_Some (tcbs s !! t) →
  wp (on_nodes (nimble_list_remove (NEvent t)))
    (λ _ s', (∃ m', s' = set_nodes m' s) ∧
             sched_inv (Some t) s' (detach (NEvent t) L)) s.
Proof.
  intros HI Ht. apply wp_on_nodes. wp_apply nimble_list_remove_spec; [by eapply si_repr|..].
  - by eapply si_nodes.
  - destruct (L !! NEvent t) eqn:E; [|done]. by destruct (si_heads _ _ _ HI (NEvent t)).
  - intros _ m' [HR Hd]. split; [eauto|]. eapply hole_relink'; eauto.
    + intros h. apply is_Some_detach.
    + intros h n [_ ?]%on_detach. by left.
    + intros u h Hu. rewrite !on_detach. split; split; intros; destruct_and?; try done;
        split; congruence.
    + intros p n. rewrite on_detach. split; [tauto|]. intros Hon. split; [|done].
      intros ->. by destruct (si_typed _ _ _ HI _ _ Hon).
Qed.

Lemma hole_remove_link s L :
  sched_inv (Some t) s L → is_Some (tcbs s !! t) →
  (∀ p, ¬ on L (NReady p) (NLink t)) →
  wp (on_nodes (nimble_list_remove (NLink t)))
    (λ _ s', (∃ m', s' = set_nodes m' s) ∧
             sched_inv (Some t) s' (detach (NLink t) L)) s.
Proof.
  intros HI Ht Hnr. apply wp_on_nodes. wp_apply nimble_list_remove_spec; [by eapply si_repr|..].
  - by eapply si_nodes.
  - destruct (L !! NLink t) eqn:E; [|done]. by destruct (si_heads _ _ _ HI (NLink t)).
  - intros _ m' [HR Hd]. split; [eauto|]. eapply hole_relink'; eauto.
    + intros h. apply is_Some_detach.
    + intros h n [_ ?]%on_detach. by left.
    + intros u h Hu. rewrite !on_detach. split; split; intros; destruct_and?; try done;
        split; congruence.
    + intros p n. rewrite on_detach. split; [tauto|]. intros Hon. split; [|done].
      intros ->. by eapply Hnr.
Qed.

Lemma hole_insert_delayed s L xs :
  sched_inv (Some t) s L → is_Some (tcbs s !! t) → unlinked (NLink t) L →
  L !! NDelayed = Some xs →
  wp (on_nodes (nimble_list_insert_tail NDelayed (NLink t)))
    (λ _ s', (∃ m', s' = set_nodes m' s) ∧
             sched_inv (Some t) s' (<[NDelayed := xs ++ [NLink t]]> L)) s.
Proof.
  intros HI Ht Hu Hd. apply wp_on_nodes.
  wp_apply nimble_list_insert_tail_spec; [by eapply si_repr|done|by eapply link_insertable|].
  intros _ m' [HR Hdom]. split; [eauto|]. eapply hole_relink'; eauto.
  - intros h. by apply is_Some_insert_same with xs.
  - intros h n [[-> ->]|?]%on_insert_tail; [by right|by left|done].
  - intros u h Hne. rewrite !on_insert_tail by done. split; naive_solver.
  - intros p n. rewrite on_insert_tail by done. naive_solver.
Qed.

Lemma hole_insert_wait s L h xs ys :
  sched_inv (Some t) s L → is_Some (tcbs s !! t) → unlinked (NEvent t) L →
  is_wait h = true → L !! h = Some (xs ++ ys) →
  wp (on_nodes (link_before (succ_of ys h) (NEvent t)))
    (λ _ s', (∃ m', s' = set_nodes m' s) ∧
             sched_inv (Some t) s' (<[h := xs ++ NEvent t :: ys]> L)) s.
Proof.
  intros HI Ht Hu Hw Hh. apply wp_on_nodes.
  wp_apply link_before_spec; [by eapply si_repr|done|by eapply event_insertable|].
  intros _ m' [HR Hdom]. split; [eauto|]. eapply hole_relink'; eauto.
  - intros h'. by eapply is_Some_insert_same.
  - intros h' n [[-> ->]|?]%on_insert; [right|by left|done]. by destruct h.
  - intros u h' Hne. rewrite !on_insert by done. split; naive_solver.
  - intros p n. rewrite on_insert by done. split; [|tauto].
    intros [[<- _]|?]; done.
Qed.

(** [nimble_scheduler_add_ready] on a task that is on no ready or delayed
    list: READY, at the tail of its priority's list. *)
Lemma hole_add_ready s L c xs :
  sched_inv (Some t) s L → tcbs s !! t = Some c → unlinked (NLink t) L →
  L !! NReady (priority c) = Some xs →
  wp (nimble_scheduler_add_ready t)
    (λ _ s', (∃ m', s' = set_ready_bitmap (Z.lor (ready_bitmap s) (Z.shiftl 1 (priority c)))
                (set_nodes m' (set_tcbs
                   (<[t := set_state NIMBLE_TASK_READY c]> (tcbs s)) s))) ∧
             sched_inv (Some t) s' (<[NReady (priority c) := xs ++ [NLink t]]> L)) s.
Proof.
  intros HI Ht Hu Hh. pose proof (si_prio _ _ _ HI _ _ Ht) as Hp.
  unfold nimble_scheduler_add_ready. wp_step. eapply wp_upd_tcb; [done|].
  assert (sched_inv (Some t) (set_tcbs (<[t:=set_state NIMBLE_TASK_READY c]> (tcbs s)) s) L)
    as HI1 by by eapply hole_upd_tcb.
  wp_step. eapply wp_get_tcb; [apply lookup_insert_eq|]. simpl.
  wp_step. apply wp_on_nodes.
  wp_apply nimble_list_insert_tail_spec;
    [by eapply si_repr|done|by eapply link_insertable; simpl; rewrite ?lookup_insert_eq|].
  intros _ m' [HR Hdom]. apply wp_modify. split; [eauto|]. simpl.
  eapply hole_relink in HI1; [exact HI1|done..| | | | | |].
  - intros h. by apply is_Some_insert_same with xs.
  - intros h n [[-> ->]|?]%on_insert_tail; [right|by left|done].
    simpl. rewrite lookup_insert_eq. eauto.
  - intros u h Hne. rewrite !on_insert_tail by done. split; naive_solver.
  - apply set_bit_range; [by eapply si_bitmap_range|done].
  - intros p n Hpr. rewrite on_insert_tail by done. simpl. rewrite testbit_set_bit by lia.
    intros [[[= ->] _]|Hon]; [by rewrite Z.eqb_refl|].
    by rewrite (si_bitmap _ _ _ HI p n), orb_true_r.
  - intros p Hpr. simpl. rewrite testbit_set_bit by lia.
    setoid_rewrite on_insert_tail; [|done]. rewrite orb_true_iff, Z.eqb_eq.
    intros [->|[[n ?]|?]%(si_stale _ _ _ HI)]; eauto.
Qed.

(** [nimble_scheduler_remove]: off whatever list [link] is on, with the
    bitmap following the ready list of the task's priority.  A list of
    another priority that it leaves may keep its bit. *)
Lemma hole_scheduler_remove s L c (Y : Z → Prop) :
  sched_inv (Some t) s L → tcbs s !! t = Some c →
  (∀ p, on L (NReady p) (NLink t) → p ≠ priority c → exact = false ∧ Y p) →
  (∀ p, stale p → p ≠ priority c → Y p) →
  wp (nimble_scheduler_remove t)
    (λ _ s', (∃ m' b', s' = set_ready_bitmap b' (set_nodes m' s)) ∧
             sched_inv (X := Y) (Some t) s' (detach (NLink t) L)) s.
Proof.
  intros HI Ht Hhome HY. pose proof (si_prio _ _ _ HI _ _ Ht) as Hp.
  unfold nimble_scheduler_remove. wp_step. eapply wp_get_tcb; [done|].
  wp_step. apply wp_on_nodes. wp_apply nimble_list_remove_spec;
    [by eapply si_repr|by eapply si_nodes|..].
  { destruct (L !! NLink t) eqn:E; [|done]. by destruct (si_heads _ _ _ HI (NLink t)). }
  intros _ m' [HR Hdom].
  destruct (proj2 (si_ready _ _ _ HI (priority c)) Hp) as [xs Hxs].
  wp_step. eapply wp_is_empty; [done|by apply lookup_detach|].
  set (L' := detach (NLink t) L).
  assert (∀ b', 0 ≤ b' < 2 ^ 32 →
    (∀ p n, 0 ≤ p < 32 → on L' (NReady p) n → Z.testbit b' p = true) →
    (∀ p, 0 ≤ p < 32 → Z.testbit b' p = true → (∃ n, on L' (NReady p) n) ∨ exact = false ∧ Y p) →
    sched_inv (X := Y) (Some t) (set_ready_bitmap b' (set_nodes m' s)) L') as Hgo.
  { intros b' Hb Hbit Hst.
    pose proof (sched_inv_weaken X (λ q, X q ∨ Y q) _ _ _ (λ p H, or_introl H) HI) as HI'.
    eapply hole_relink in HI'; [|exact HR|exact Hdom|..|exact Hb|exact Hbit|].
    - eapply sched_inv_restale; [exact HI'|exact Hst].
    - intros h. apply is_Some_detach.
    - intros h n [_ ?]%on_detach. by left.
    - intros u h Hu. unfold L'. rewrite !on_detach. split; split; intros; destruct_and?; try done;
        split; congruence.
    - intros p Hpr Hbp. destruct (Hst p Hpr Hbp) as [?|[? ?]]; [by left|right]. split; [done|by right]. }
  assert (∀ p, 0 ≤ p < 32 → p ≠ priority c → Z.testbit (ready_bitmap s) p = true →
    (∃ n, on L' (NReady p) n) ∨ exact = false ∧ Y p) as Hother.
  { intros p Hpr Hne Hbit. destruct (si_stale _ _ _ HI p Hpr Hbit) as [[n Hn]|[? ?]].
    - destruct (decide (n = NLink t)) as [->|]; [by right; apply Hhome|].
      left. exists n. by apply on_detach.
    - right. split; [done|by apply HY]. }
  assert (without (NLink t) xs ≠ [] ↔ ∃ n, on L' (NReady (priority c)) n) as Hown.
  { unfold on, L'. rewrite (lookup_detach _ _ _ _ Hxs). split.
    - destruct (without (NLink t) xs) as [|n ?]; [done|]. intros _. exists n. eexists.
      split; [done|left].
    - intros (n&?&[= <-]&Hn) E. rewrite E in Hn. by apply elem_of_nil in Hn. }
  assert (∀ p n, 0 ≤ p < 32 → on L' (NReady p) n → Z.testbit (ready_bitmap s) p = true) as Hin.
  { intros p n Hpr [_ Hn]%on_detach. by apply (si_bitmap _ _ _ HI p n). }
  case_bool_decide as He; unfold when.
  - apply wp_modify. split; [eauto|]. apply Hgo; simpl; [apply clear_bit_range, HI|..].
    + intros p n Hpr Hn. rewrite testbit_clear_bit, (Hin p n) by (done || lia).
      destruct (Z.eqb_spec p (priority c)) as [->|]; [|done]. exfalso. apply Hown in He; eauto.
    + intros p Hpr. rewrite testbit_clear_bit by lia.
      destruct (Z.eqb_spec p (priority c)) as [->|]; [done|]. by apply Hother.
  - apply wp_ret. split; [exists m', (ready_bitmap s); by rewrite set_ready_bitmap_id|].
    rewrite <- set_ready_bitmap_id. apply Hgo; [by eapply si_bitmap_range|done|].
    intros p Hpr Hbit. destruct (decide (p = priority c)) as [->|]; [|by apply Hother].
    left. by apply Hown.
Qed.
End hole.

(** ** The lists after the moves the scheduler makes *)

Definition get_list L h : list nid := default [] (L !! h).

(** [t] at the tail of the ready list of priority [p], or of the delayed list. *)
Definition L_ready (t : nat) (p : Z) L : gmap nid (list nid) :=
  <[NReady p := get_list L (NReady p) ++ [NLink t]]> L.
Definition L_delayed (t : nat) L : gmap nid (list nid) :=
  <[NDelayed := get_list L NDelayed ++ [NLink t]]> L.
(** [t] off every list. *)
Definition L_detach (t : nat) L : gmap nid (list nid) :=
  detach (NEvent t) (detach (NLink t) L).

Lemma get_list_Some L h : is_Some (L !! h) → L !! h = Some (get_list L h).
Proof. unfold get_list. by intros [xs ->]. Qed.

Lemma get_list_eq L h xs : L !! h = Some xs → get_list L h = xs.
Proof. unfold get_list. by intros ->. Qed.

Lemma on_L_ready t p L h x :
  is_Some (L !! NReady p) →
  on (L_ready t p L) h x ↔ (h = NReady p ∧ x = NLink t) ∨ on L h x.
Proof. intros Hp. apply on_insert_tail. by apply get_list_Some. Qed.

Lemma on_L_delayed t L h x :
  is_Some (L !! NDelayed) →
  on (L_delayed t L) h x ↔ (h = NDelayed ∧ x = NLink t) ∨ on L h x.
Proof. intros Hp. apply on_insert_tail. by apply get_list_Some. Qed.

Lemma on_L_detach t L h x :
  on (L_detach t L) h x ↔ x ≠ NLink t ∧ x ≠ NEvent t ∧ on L h x.
Proof. unfold L_detach. rewrite !on_detach. tauto. Qed.

Lemma detach_comm n1 n2 L : detach n1 (detach n2 L) = detach n2 (detach n1 L).
Proof.
  unfold detach. rewrite <- !map_fmap_compose. apply map_fmap_ext. intros h xs _. simpl.
  unfold without. rewrite !list_filter_filter. apply list_filter_iff. tauto.
Qed.

Lemma unlinked_L_detach t L :
  unlinked (NLink t) (L_detach t L) ∧ unlinked (NEvent t) (L_detach t L).
Proof. split; apply unlinked_on; intros h; rewrite on_L_detach; tauto. Qed.

Lemma lookup_L_detach t L h xs :
  L !! h = Some xs → L_detach t L !! h = Some (without (NEvent t) (without (NLink t) xs)).
Proof. intros Hh. by apply lookup_detach, lookup_detach. Qed.

(** A READY task with no other membership satisfies the task invariant, and
    so do a delayed task and a running one. *)
Lemma task_inv_ready cur L t c :
  state c = NIMBLE_TASK_READY → base_priority c ≤ priority c →
  is_Some (L !! NReady (priority c)) →
  unlinked (NLink t) L → unlinked (NEvent t) L →
  task_inv cur (L_ready t (priority c) L) t c.
Proof.
  rewrite !unlinked_on. intros Hs Hb Hp Hl He.
  split; try congruence.
  - intros p. rewrite on_L_ready by done. intros [[[= ->] _]|Hon]; [|by destruct (Hl _ Hon)].
    split; [done|]. split; [lia|done].
  - intros _. exists (priority c). apply on_L_ready; auto.
  - rewrite on_L_ready by done. naive_solver.
  - intros h Hh. rewrite on_L_ready by done. naive_solver.
Qed.

Lemma task_inv_running L t c :
  state c = NIMBLE_TASK_RUNNING → base_priority c ≤ priority c →
  unlinked (NLink t) L → unlinked (NEvent t) L → task_inv (Some t) L t c.
Proof. rewrite !unlinked_on. intros Hs Hb Hl He. split; naive_solver congruence. Qed.

Lemma task_inv_suspended cur L t c :
  state c = NIMBLE_TASK_SUSPENDED → base_priority c ≤ priority c →
  unlinked (NLink t) L → unlinked (NEvent t) L → task_inv cur L t c.
Proof. rewrite !unlinked_on. intros Hs Hb Hl He. split; naive_solver congruence. Qed.

(** Conversely, a task that is neither READY nor BLOCKED is on no list, and a
    task that is not BLOCKED is on no wait list. *)
Lemma event_unlinked s L t c :
  sched_inv None s L → tcbs s !! t = Some c → state c ≠ NIMBLE_TASK_BLOCKED →
  unlinked (NEvent t) L.
Proof.
  intros HI Ht Hs. apply unlinked_on. intros h Hon.
  pose proof (si_task _ _ _ HI _ _ Ht ltac:(done)) as Hti.
  pose proof (si_typed _ _ _ HI _ _ Hon) as Hty.
  assert (is_wait h = true) as Hw by (destruct h; simpl in Hty; tauto).
  by apply Hs, (ti_wait _ _ _ _ Hti h Hw).
Qed.

Lemma link_unlinked s L t c :
  sched_inv None s L → tcbs s !! t = Some c →
  state c ≠ NIMBLE_TASK_BLOCKED → state c ≠ NIMBLE_TASK_READY →
  unlinked (NLink t) L.
Proof.
  intros HI Ht Hb Hr. apply unlinked_on. intros h Hon.
  pose proof (si_task _ _ _ HI _ _ Ht ltac:(done)) as Hti.
  pose proof (si_typed _ _ _ HI _ _ Hon) as Hty.
  destruct h; simpl in Hty; try tauto.
  - apply (ti_ready _ _ _ _ Hti) in Hon. tauto.
  - apply (ti_delayed _ _ _ _ Hti) in Hon. tauto.
Qed.

Lemma ready_home s L t c p :
  sched_inv None s L → tcbs s !! t = Some c → on L (NReady p) (NLink t) → home c p.
Proof. intros HI Ht Hon. by apply (si_task _ _ _ HI _ _ Ht) in Hon as [_ ?]. Qed.

Lemma raised s L t c : sched_inv None s L → tcbs s !! t = Some c → base_priority c ≤ priority c.
Proof. intros HI Ht. exact (ti_raised _ _ _ _ (si_task _ _ _ HI _ _ Ht ltac:(done))). Qed.

(** ** The operations *)

Definition set_woken (r : Z) c : nimble_tcb :=
  set_state NIMBLE_TASK_READY (set_last_wait_result r c).

(** [nimble_scheduler_add_ready] closes the invariant of a task that is off
    every list. *)
Lemma close_add_ready s L t c :
  sched_inv (Some t) s L → tcbs s !! t = Some c → base_priority c ≤ priority c →
  unlinked (NLink t) L → unlinked (NEvent t) L →
  wp (nimble_scheduler_add_ready t)
    (λ _ s', (∃ m', s' = set_ready_bitmap (Z.lor (ready_bitmap s) (Z.shiftl 1 (priority c)))
                (set_nodes m' (set_tcbs
                   (<[t := set_state NIMBLE_TASK_READY c]> (tcbs s)) s))) ∧
             sched_inv None s' (L_ready t (priority c) L)) s.
Proof.
  intros HI Ht Hb Hl He.
  assert (is_Some (L !! NReady (priority c))) as Hp
    by (apply (si_ready _ _ _ HI); by eapply si_prio).
  wp_apply hole_add_ready; [done..|by apply get_list_Some|].
  intros _ s' [[m' ->] HI']. split; [eauto|].
  eapply sched_inv_close; [done|apply lookup_insert_eq|].
  by apply (task_inv_ready _ _ _ (set_state NIMBLE_TASK_READY c)).
Qed.

(** [nimble_scheduler_wake_waiter] on an empty list. *)
Lemma wake_waiter_empty hole s L h :
  sched_inv hole s L → L !! h = Some [] →
  nimble_scheduler_wake_waiter h s = Some (None, s).
Proof.
  intros HI Hh. unfold nimble_scheduler_wake_waiter, on_nodes, zoom, mbind, M_bind.
  rewrite (nimble_list_is_empty_spec _ _ _ _ (si_repr _ _ _ HI) Hh). simpl. by destruct s.
Qed.

(** ... and on a list with a waiter: the head is woken, with [NIMBLE_OK] as
    the result of its wait. *)
Lemma wake_waiter_head s L h n ws :
  sched_inv None s L → is_wait h = true → L !! h = Some (n :: ws) →
  ∃ t c, n = NEvent t ∧ tcbs s !! t = Some c ∧ state c = NIMBLE_TASK_BLOCKED ∧
  wp (nimble_scheduler_wake_waiter h)
    (λ r s', r = Some t ∧
       (∃ m', s' = set_ready_bitmap (Z.lor (ready_bitmap s) (Z.shiftl 1 (priority c)))
          (set_nodes m' (set_tcbs (<[t := set_woken NIMBLE_OK c]> (tcbs s)) s))) ∧
       sched_inv None s' (L_ready t (priority c) (L_detach t L))) s.
Proof.
  intros HI Hw Hh. assert (on L h n) as Hon by (exists (n :: ws); split; [done|left]).
  pose proof (si_typed _ _ _ HI _ _ Hon) as Hty.
  assert (∃ t, n = NEvent t ∧ is_Some (tcbs s !! t)) as (t&->&c&Ht).
  { destruct h; try discriminate Hw; destruct n; simpl in Hty; naive_solver. }
  pose proof (ti_wait _ _ _ _ (si_task _ _ _ HI _ _ Ht ltac:(done)) h Hw Hon) as Hs.
  exists t, c. do 3 (split; [done|]).
  apply (sched_inv_open t) in HI as HI1.
  unfold nimble_scheduler_wake_waiter.
  wp_step. eapply wp_is_empty; [by eapply si_repr|done|]. simpl.
  wp_step. eapply wp_get_next_head; [by eapply si_repr|done|]. simpl.
  wp_step. apply wp_ret.
  hole_step (hole_remove_event t); [done|eauto|].
  hole_step (hole_remove_link t); [done|eauto| |].
  { intros p [_ Hp]%on_detach. apply (si_task _ _ _ HI _ _ Ht) in Hp as [? _]; congruence. }
  rewrite detach_comm in *. destruct (unlinked_L_detach t L).
  wp_step. eapply wp_upd_tcb; [done|].
  wp_step. eapply wp_mono.
  - eapply close_add_ready; [|apply lookup_insert_eq|by apply (raised s L t c HI)|done..].
    eapply hole_upd_tcb; [done..|]. by apply (si_prio _ _ _ HI t c).
  - intros _ s' [[m' ->] HI']. apply wp_ret. split; [done|]. simpl in *.
    split; [|done]. exists m'. by rewrite insert_insert_eq.
Qed.

(** ** Blocking *)

(** Removing a task that is on no ready or delayed list only settles the
    bit of its priority. *)
Lemma hole_remove_unlinked s L t c :
  sched_inv (Some t) s L → tcbs s !! t = Some c → unlinked (NLink t) L →
  wp (nimble_scheduler_remove t)
    (λ _ s', (∃ m' b', s' = set_ready_bitmap b' (set_nodes m' s)) ∧
             sched_inv (X := less_stale (priority c) X) (Some t) s' L) s.
Proof.
  intros HI Ht Hu. wp_apply (hole_scheduler_remove t _ _ _ (less_stale (priority c) X)); [done..| | |].
  - intros p Hon. rewrite unlinked_on in Hu. by destruct (Hu (NReady p)).
  - by intros p ? ?.
  - intros _ s' [? HI']. by rewrite detach_unlinked in HI'.
Qed.

Definition blocked_tcb (now timeout : Z) c : nimble_tcb :=
  if timeout =? NIMBLE_WAIT_FOREVER then set_state NIMBLE_TASK_BLOCKED c
  else set_wake_tick (u32 (now + timeout)) (set_state NIMBLE_TASK_BLOCKED c).
Definition L_blocked (t : nat) (timeout : Z) L : gmap nid (list nid) :=
  if timeout =? NIMBLE_WAIT_FOREVER then L else L_delayed t L.

Lemma task_inv_blocked cur L t c :
  state c = NIMBLE_TASK_BLOCKED → base_priority c ≤ priority c →
  (∀ p, ¬ on L (NReady p) (NLink t)) → on L NDelayed (NLink t) ∨ (∃ h, is_wait h = true ∧ on L h (NEvent t)) →
  task_inv cur L t c.
Proof. intros Hs Hb Hr Hon. split; try congruence. naive_solver congruence. Qed.

End mode.

Section operations.
Context {M : Mode} {X : Stale}.

(** [nimble_scheduler_prepare_block], after the caller has queued the task on
    a wait list. *)
Lemma prepare_block_spec s L t c timeout h :
  sched_inv (Some t) s L → tcbs s !! t = Some c → base_priority c ≤ priority c →
  unlinked (NLink t) L → is_wait h = true → on L h (NEvent t) →
  wp (nimble_scheduler_prepare_block t timeout)
    (λ _ s', (∃ m' b', s' = set_ready_bitmap b' (set_nodes m' (set_tcbs
                (<[t := blocked_tcb (g_tick_count s) timeout c]> (tcbs s)) s))) ∧
             sched_inv (X := less_stale (priority c) X) None s' (L_blocked t timeout L)) s.
Proof.
  intros HI Ht Hb Hu Hw Hon. pose proof (si_prio _ _ _ HI _ _ Ht) as Hp.
  assert (∀ p, ¬ on L (NReady p) (NLink t)) as Hnr
    by (rewrite unlinked_on in Hu; intros p; apply Hu).
  unfold nimble_scheduler_prepare_block, blocked_tcb, L_blocked.
  wp_step. wp_apply hole_remove_unlinked; [done..|].
  intros _ s1 [(m1&b1&->) HI1]. wp_step. eapply wp_upd_tcb; [done|]. simpl.
  eapply hole_upd_tcb with (c' := set_state NIMBLE_TASK_BLOCKED c) in HI1; [|done..].
  destruct (Z.eqb_spec timeout NIMBLE_WAIT_FOREVER) as [->|Hne]; simpl.
  - apply wp_ret. split; [eauto|].
    eapply sched_inv_close; [done|apply lookup_insert_eq|].
    apply task_inv_blocked; eauto.
  - wp_step. apply wp_gets. wp_step. eapply wp_upd_tcb; [apply lookup_insert_eq|].
    eapply hole_upd_tcb with (c' := set_wake_tick (u32 (g_tick_count s + timeout))
      (set_state NIMBLE_TASK_BLOCKED c)) in HI1; [|apply lookup_insert_eq|done].
    simpl in *. rewrite insert_insert_eq in *.
    wp_apply (hole_insert_delayed (X := less_stale (priority c) X)); [done|simpl; rewrite lookup_insert_eq; eauto|done|
      apply get_list_Some, HI1|].
    intros _ s2 [[m2 ->] HI2]. simpl in *. split; [eauto|].
    eapply sched_inv_close; [done|apply lookup_insert_eq|].
    apply task_inv_blocked; [done|done| |].
    + intros p. rewrite on_L_delayed by apply HI1. intros [[? _]|?]; [done|by eapply Hnr].
    + left. apply on_L_delayed; [apply HI1|auto].
Qed.

(** [nimble_scheduler_block_current_delay] on the running task. *)
Lemma block_current_delay_spec s L t c wake :
  sched_inv None s L → tcbs s !! t = Some c → state c = NIMBLE_TASK_RUNNING →
  wp (nimble_scheduler_block_current_delay t wake)
    (λ _ s', (∃ m' b', s' = set_ready_bitmap b' (set_nodes m' (set_tcbs
                (<[t := set_state NIMBLE_TASK_BLOCKED (set_wake_tick wake c)]> (tcbs s)) s))) ∧
             sched_inv (X := less_stale (priority c) X) None s' (L_delayed t L)) s.
Proof.
  intros HI Ht Hs. pose proof (si_prio _ _ _ HI _ _ Ht) as Hp.
  assert (unlinked (NLink t) L) as Hu by (eapply link_unlinked; [done..|congruence|congruence]).
  assert (∀ p, ¬ on L (NReady p) (NLink t)) as Hnr
    by (rewrite unlinked_on in Hu; intros p; apply Hu).
  unfold nimble_scheduler_block_current_delay.
  wp_step. wp_apply hole_remove_unlinked; [by apply sched_inv_open|done..|].
  intros _ s1 [(m1&b1&->) HI1]. wp_step. eapply wp_upd_tcb; [done|]. simpl.
  wp_step. eapply wp_upd_tcb; [apply lookup_insert_eq|].
  eapply hole_upd_tcb with (c' := set_state NIMBLE_TASK_BLOCKED (set_wake_tick wake c))
    in HI1; [|done..].
  simpl in *. rewrite insert_insert_eq.
  wp_apply (hole_insert_delayed (X := less_stale (priority c) X)); [done|simpl; rewrite lookup_insert_eq; eauto|done|
    apply get_list_Some, HI1|].
  intros _ s2 [[m2 ->] HI2]. simpl in *. split; [eauto|].
  eapply sched_inv_close; [done|apply lookup_insert_eq|].
  apply task_inv_blocked; [done|by apply (raised s L t c HI)| |].
  - intros p. rewrite on_L_delayed by apply HI1. intros [[? _]|?]; [done|by eapply Hnr].
  - left. apply on_L_delayed; [apply HI1|auto].
Qed.

(** ** Choosing the next task *)

Lemma clz_from_spec i b :
  0 < b → (∀ j, Z.of_nat i < j → Z.testbit b j = false) →
  clz_from i b = Z.of_nat i - Z.log2 b.
Proof.
  intros Hb. induction i as [|i IH]; intros Hj; unfold clz_from; fold clz_from.
  - assert (Z.log2 b = 0) as El.
    { pose proof (Z.log2_nonneg b). destruct (decide (Z.log2 b = 0)); [done|].
      pose proof (Z.bit_log2 b Hb). rewrite Hj in H0 by lia. done. }
    pose proof (Z.bit_log2 b Hb) as Hbit. rewrite El in Hbit.
    change (Z.of_nat 0) with 0. by rewrite Hbit, El.
  - destruct (Z.testbit b (Z.of_nat (S i))) eqn:E.
    + rewrite <- (Z.log2_unique' b (Z.of_nat (S i)) (b - 2 ^ Z.of_nat (S i))); [lia|lia| |lia].
      assert (Z.log2 b = Z.of_nat (S i)) as El.
      { assert (¬ Z.of_nat (S i) < Z.log2 b).
        { intros Hlt. pose proof (Z.bit_log2 b Hb) as Hbit. by rewrite Hj in Hbit. }
        assert (¬ Z.log2 b < Z.of_nat (S i)); [|lia].
        intros Hlt. by rewrite Z.bits_above_log2 in E by lia. }
      pose proof (Z.log2_spec b Hb) as Hl. rewrite El in Hl.
      rewrite Z.pow_succ_r in Hl by lia. lia.
    + rewrite IH; [lia|]. intros j Hlt.
      destruct (decide (j = Z.of_nat (S i))) as [->|]; [done|]. apply Hj. lia.
Qed.

(** The bit trick of [highest_set_bit] is the binary logarithm. *)
Lemma highest_set_bit_log2 b :
  0 < b < 2 ^ 32 → highest_set_bit b = Some (Z.log2 b).
Proof.
  intros Hb. unfold highest_set_bit, builtin_clz.
  rewrite (proj2 (Z.eqb_neq b 0)) by lia.
  cbv beta iota delta [mbind option_bind mret option_ret].
  rewrite (clz_from_spec 31) by (try lia; intros; apply bits_above_32; lia).
  unfold u8. f_equal.
  assert (0 ≤ Z.log2 b < 32) by (split; [apply Z.log2_nonneg|apply Z.log2_lt_pow2; lia]).
  rewrite Z.mod_small; lia.
Qed.

(** Bits that are set along with a list. *)
Definition grown (b b' : Z) L : Prop :=
  ∀ p, 0 ≤ p → (Z.testbit b p = true → Z.testbit b' p = true) ∧
               (Z.testbit b' p = true → Z.testbit b p = true ∨ ∃ n, on L (NReady p) n).

(** The running task, if it is still runnable, goes to the tail of its own
    priority's ready list. *)
Definition requeue_lists s L : gmap nid (list nid) :=
  match nimble_current_tcb s with
  | Some t =>
      match tcbs s !! t with
      | Some c => if decide (state c = NIMBLE_TASK_RUNNING)
                  then L_ready t (priority c) L else L
      | None => L
      end
  | None => L
  end.
Definition requeue_tcbs s : gmap nat nimble_tcb :=
  match nimble_current_tcb s with
  | Some t =>
      match tcbs s !! t with
      | Some c => if decide (state c = NIMBLE_TASK_RUNNING)
                  then <[t := set_state NIMBLE_TASK_READY c]> (tcbs s) else tcbs s
      | None => tcbs s
      end
  | None => tcbs s
  end.

Definition requeue_code : K unit :=
  cur ← gets nimble_current_tcb;
  match cur with
  | Some t =>
      c ← get_tcb t;
      when (bool_decide (state c = NIMBLE_TASK_RUNNING)) (nimble_scheduler_add_ready t)
  | None => mret tt
  end.

Lemma requeue_spec s L :
  sched_inv None s L → (∀ t, nimble_current_tcb s = Some t → is_Some (tcbs s !! t)) →
  wp requeue_code
    (λ _ s', (∃ m' b', s' = set_ready_bitmap b' (set_nodes m' (set_tcbs (requeue_tcbs s) s)) ∧
                       grown (ready_bitmap s) b' (requeue_lists s L)) ∧
             sched_inv None s' (requeue_lists s L)) s.
Proof.
  intros HI Hcur. unfold requeue_code, requeue_lists, requeue_tcbs.
  assert (∀ T L', T = tcbs s → ∃ m' b',
    s = set_ready_bitmap b' (set_nodes m' (set_tcbs T s)) ∧ grown (ready_bitmap s) b' L') as Hid.
  { intros T L' ->. exists (nodes s), (ready_bitmap s). split; [by destruct s|by split; auto]. }
  wp_step. apply wp_gets. destruct (nimble_current_tcb s) as [t|] eqn:Et;
    [|apply wp_ret; eauto].
  destruct (Hcur t eq_refl) as [c Ht]. rewrite Ht.
  wp_step. eapply wp_get_tcb; [done|]. unfold when.
  case_bool_decide as Hs; [rewrite !decide_True by done|rewrite !decide_False by done].
  - pose proof (si_prio _ _ _ HI _ _ Ht) as Hp.
    wp_apply close_add_ready; [by apply sched_inv_open|done|by eapply raised|..].
    + eapply link_unlinked; [done..|congruence|congruence].
    + eapply event_unlinked; [done..|congruence].
    + intros _ s' [[m' ->] HI']. split; [|done]. eexists _, _. split; [done|].
      intros p Hp0. rewrite testbit_set_bit, orb_true_iff by lia. split; [by right|].
      intros [->%Z.eqb_eq|?]; [right|by left]. exists (NLink t). apply on_L_ready; [|by left].
      by apply (si_ready _ _ _ HI).
  - apply wp_ret; eauto.
Qed.

Lemma requeue_lookup s t c :
  requeue_tcbs s !! t = Some c →
  tcbs s !! t = Some c ∨
  ∃ c0, nimble_current_tcb s = Some t ∧ tcbs s !! t = Some c0 ∧
    state c0 = NIMBLE_TASK_RUNNING ∧ c = set_state NIMBLE_TASK_READY c0.
Proof.
  unfold requeue_tcbs. intros Ht. destruct (nimble_current_tcb s) as [u|]; [|by left].
  destruct (tcbs s !! u) as [cu|] eqn:Eu; [|by left]. case_decide; [|by left].
  apply lookup_insert_Some in Ht as [[<- <-]|[_ ?]]; [right; eauto|by left].
Qed.

Lemma on_requeue s L h n :
  sched_inv None s L → (∀ t, n ≠ NLink t) →
  on (requeue_lists s L) h n ↔ on L h n.
Proof.
  intros HI Hn. unfold requeue_lists. destruct (nimble_current_tcb s) as [u|]; [|done].
  destruct (tcbs s !! u) as [cu|] eqn:Eu; [|done]. case_decide; [|done].
  rewrite on_L_ready; [naive_solver|]. apply (si_ready _ _ _ HI). by eapply si_prio.
Qed.

(** After the requeue no task is RUNNING, and every READY task is listed. *)
Lemma requeue_no_running s L t c :
  sched_inv None s L → requeue_tcbs s !! t = Some c → state c ≠ NIMBLE_TASK_RUNNING.
Proof.
  intros HI Ht Hs. unfold requeue_tcbs in Ht.
  assert (tcbs s !! t = Some c → nimble_current_tcb s = Some t) as Hrun.
  { intros Ht'. by apply (ti_running _ _ _ _ (si_task _ _ _ HI _ _ Ht' ltac:(done))). }
  destruct (nimble_current_tcb s) as [u|] eqn:Eu; [|by specialize (Hrun Ht)].
  destruct (tcbs s !! u) as [cu|] eqn:Ecu; [|specialize (Hrun Ht); congruence].
  case_decide.
  - apply lookup_insert_Some in Ht as [[_ <-]|[? Ht]]; [done|].
    specialize (Hrun Ht). congruence.
  - specialize (Hrun Ht). congruence.
Qed.

(** Some task is runnable (the idle task always is). *)
Definition runnable s : Prop :=
  ∃ t c, tcbs s !! t = Some c ∧
    (state c = NIMBLE_TASK_READY ∨ state c = NIMBLE_TASK_RUNNING).

Lemma on_requeue_mono s L h n : sched_inv None s L → on L h n → on (requeue_lists s L) h n.
Proof.
  intros HI Hon. unfold requeue_lists. destruct (nimble_current_tcb s) as [u|]; [|done].
  destruct (tcbs s !! u) as [cu|] eqn:Eu; [|done]. case_decide; [|done].
  apply on_L_ready; [|by right]. apply (si_ready _ _ _ HI). by eapply si_prio.
Qed.

Lemma runnable_ready s L :
  sched_inv None s L → runnable s →
  ∃ p, 0 ≤ p < 32 ∧ ∃ n, on (requeue_lists s L) (NReady p) n.
Proof.
  intros HI (t&c&Ht&Hs). pose proof (si_prio _ _ _ HI _ _ Ht) as Hp.
  pose proof (si_task _ _ _ HI _ _ Ht ltac:(done)) as Hti. destruct Hs as [Hs|Hs].
  - destruct (ti_listed _ _ _ _ Hti Hs) as [p Hon]. exists p. split.
    + apply (si_ready _ _ _ HI). destruct Hon as (xs&?&_). eauto.
    + exists (NLink t). by apply on_requeue_mono.
  - exists (priority c). split; [done|]. exists (NLink t). unfold requeue_lists.
    rewrite (ti_running _ _ _ _ Hti Hs), Ht, decide_True by done.
    apply on_L_ready; [by apply (si_ready _ _ _ HI)|auto].
Qed.

(** The head of the highest non-empty ready list. *)
Definition top_ready L (p : Z) (t : nat) : Prop :=
  (∃ xs, L !! NReady p = Some (NLink t :: xs)) ∧
  ∀ p' n, p < p' < 32 → ¬ on L (NReady p') n.

(** No bit above the highest non-empty ready list is set; or one is. *)
Definition live_bits (b : Z) L : Prop :=
  ∀ p, 0 ≤ p < 32 → Z.testbit b p = true → ∃ p' n, p ≤ p' < 32 ∧ on L (NReady p') n.
Definition stale_top (b : Z) L : Prop :=
  ∃ p, 0 ≤ p < 32 ∧ Z.testbit b p = true ∧ ∀ p' n, p ≤ p' < 32 → ¬ on L (NReady p') n.

Lemma bitmap_top hole s L :
  sched_inv hole s L → (∃ p, 0 ≤ p < 32 ∧ ∃ n, on L (NReady p) n) →
  ∃ p, 0 ≤ p < 32 ∧ highest_set_bit (ready_bitmap s) = Some p ∧
    (live_bits (ready_bitmap s) L ∧ (∃ t c, top_ready L p t ∧ tcbs s !! t = Some c) ∨
     stale_top (ready_bitmap s) L ∧ L !! NReady p = Some []).
Proof.
  intros HI (p0&Hp0&n0&Hn0). pose proof (si_bitmap_range _ _ _ HI) as Hb.
  set (b := ready_bitmap s) in *.
  assert (b ≠ 0) as Hb0.
  { intros E. apply (si_bitmap _ _ _ HI) in Hn0; [|done]. fold b in Hn0.
    by rewrite E, Z.bits_0 in Hn0. }
  assert (0 ≤ Z.log2 b < 32) as Hl
    by (split; [apply Z.log2_nonneg|apply Z.log2_lt_pow2; lia]).
  assert (∀ p' n, Z.log2 b < p' < 32 → ¬ on L (NReady p') n) as Habove.
  { intros p' n' Hp' Hon. assert (Z.testbit b p' = true) as Hbit
      by (apply (si_bitmap _ _ _ HI p' n'); [lia|done]).
    rewrite Z.bits_above_log2 in Hbit by lia. done. }
  pose proof (Z.bit_log2 b ltac:(lia)) as Hbit.
  exists (Z.log2 b). split; [done|]. split; [apply highest_set_bit_log2; lia|].
  destruct (proj2 (si_ready _ _ _ HI (Z.log2 b)) Hl) as [[|x xs] Hxs]; [right|left].
  - split; [|done]. exists (Z.log2 b). split; [done|]. split; [done|].
    intros p' n Hp' Hon. destruct (decide (p' = Z.log2 b)) as [->|]; [|eapply Habove, Hon; lia].
    destruct Hon as (ys&Hys&Hn). rewrite Hxs in Hys. injection Hys as <-. by apply elem_of_nil in Hn.
  - assert (on L (NReady (Z.log2 b)) x) as Hx by (eexists; split; [done|left]).
    split.
    + intros p Hp Hpb. exists (Z.log2 b), x. split; [|done]. split; [|lia].
      destruct (decide (p ≤ Z.log2 b)); [done|]. by rewrite Z.bits_above_log2 in Hpb by lia.
    + pose proof (si_typed _ _ _ HI _ _ Hx) as Hty.
      destruct x as [| |t| | | | | | |]; simpl in Hty; try tauto; [|naive_solver].
      destruct Hty as [c Ht]. exists t, c. split; [split; [eauto|done]|done].
Qed.

Lemma top_ready_state hole s L p t c :
  sched_inv hole s L → hole = None → top_ready L p t → tcbs s !! t = Some c →
  state c = NIMBLE_TASK_READY ∧ home c p.
Proof.
  intros HI -> [(xs&Hxs) _] Ht.
  assert (on L (NReady p) (NLink t)) as Hon by (eexists; split; [done|left]).
  by apply (si_task _ _ _ HI _ _ Ht ltac:(done)) in Hon.
Qed.

Lemma grown_live b b' L : grown b b' L → live_bits b' L → live_bits b L.
Proof. intros Hg Hl p Hp Hb. apply Hl; [done|]. apply Hg; [lia|done]. Qed.

Lemma grown_stale b b' L : grown b b' L → stale_top b' L → stale_top b L.
Proof.
  intros Hg (p&Hp&Hb&Hn). exists p. split; [done|]. split; [|done].
  destruct (proj2 (Hg p ltac:(lia)) Hb) as [?|[n Hon]]; [done|]. destruct (Hn p n); [lia|done].
Qed.

(** Whether the code will find a task, from the state before the requeue. *)
Definition live s L : Prop := live_bits (ready_bitmap s) (requeue_lists s L).
Definition stuck s L : Prop := stale_top (ready_bitmap s) (requeue_lists s L).

Lemma no_stale_live s L :
  exact = true ∨ (∀ p, ¬ stale p) → sched_inv None s L → live s L.
Proof.
  intros Hx HI p Hp Hb. destruct (si_stale _ _ _ HI p Hp Hb) as [[n Hn]|[? Hst]].
  - exists p, n. split; [lia|by apply on_requeue_mono].
  - destruct Hx as [?|Hno]; [congruence|by destruct (Hno p)].
Qed.

Lemma live_not_stuck s L : live s L → ¬ stuck s L.
Proof. intros Hl (p&Hp&Hb&Hn). destruct (Hl p Hp Hb) as (p'&n&?&Hon). by destruct (Hn p' n). Qed.

(** The same of the nodes alone: all lists from some set bit upwards are
    empty, and the task that the switch puts back belongs below them. *)
Definition switch_stuck s : Prop :=
  ∃ p, 0 ≤ p < 32 ∧ Z.testbit (ready_bitmap s) p = true ∧
    (∀ p', p ≤ p' < 32 → nxt (nodes s) (NReady p') = Some (NReady p')) ∧
    ∀ t c, nimble_current_tcb s = Some t → tcbs s !! t = Some c →
      state c = NIMBLE_TASK_RUNNING → priority c < p.

Lemma on_requeue_lists s L h n :
  sched_inv None s L →
  on (requeue_lists s L) h n ↔ on L h n ∨
    ∃ t c, nimble_current_tcb s = Some t ∧ tcbs s !! t = Some c ∧
      state c = NIMBLE_TASK_RUNNING ∧ h = NReady (priority c) ∧ n = NLink t.
Proof.
  intros HI. unfold requeue_lists. destruct (nimble_current_tcb s) as [u|]; [|naive_solver].
  destruct (tcbs s !! u) as [cu|] eqn:Eu; [|naive_solver]. case_decide; [|naive_solver].
  rewrite on_L_ready; [naive_solver|]. apply (si_ready _ _ _ HI). by eapply si_prio.
Qed.

Lemma ready_empty s L p :
  sched_inv None s L → 0 ≤ p < 32 →
  nxt (nodes s) (NReady p) = Some (NReady p) ↔ ∀ n, ¬ on L (NReady p) n.
Proof.
  intros HI Hp. destruct (proj2 (si_ready _ _ _ HI p) Hp) as [xs Hxs].
  rewrite (nxt_head _ _ _ _ (si_repr _ _ _ HI) Hxs). unfold on. setoid_rewrite Hxs.
  pose proof (repr_nodup_ring _ _ _ _ (si_repr _ _ _ HI) Hxs) as Hnd. destruct xs as [|x xs].
  - split; [|done]. intros _ n (?&[= <-]&Hn). by apply elem_of_nil in Hn.
  - split; [|intros Hn; destruct (Hn x); eexists; split; [done|left]].
    unfold succ_of; simpl. intros [= ->]. apply NoDup_cons in Hnd as [[] _]. left.
Qed.

Lemma stuck_switch s L : sched_inv None s L → stuck s L → switch_stuck s.
Proof.
  intros HI (p&Hp&Hb&Hn). exists p. do 2 (split; [done|]). split.
  - intros p' Hp'. rewrite ready_empty by (done || lia). intros n Hon.
    apply (Hn p' n); [lia|by apply on_requeue_mono].
  - intros t c Hc Ht Hs. destruct (decide (p ≤ priority c)); [exfalso|lia].
    pose proof (si_prio _ _ _ HI t c Ht). apply (Hn (priority c) (NLink t)); [lia|].
    rewrite on_requeue_lists by done. right. by exists t, c.
Qed.

Lemma live_not_switch_stuck s L : sched_inv None s L → live s L → ¬ switch_stuck s.
Proof.
  intros HI Hl (p&Hp&Hb&Hn&Hc). destruct (Hl p Hp Hb) as (p'&n&Hp'&Hon).
  apply on_requeue_lists in Hon as [Hon|(t&c&Ht&Hct&Hs&[= ->]&->)]; [|..|done].
  - specialize (Hn p' Hp'). rewrite ready_empty in Hn by (done || lia). by apply (Hn n).
  - specialize (Hc t c Ht Hct Hs). lia.
Qed.

(** The head of the highest non-empty ready list leaves its list, RUNNING. *)
Definition selected s L (t : nat) s' : Prop :=
  ∃ p c m' b',
    0 ≤ p < 32 ∧ top_ready (requeue_lists s L) p t ∧ requeue_tcbs s !! t = Some c ∧
    state c = NIMBLE_TASK_READY ∧ home c p ∧
    s' = set_next_tcb (Some t) (set_ready_bitmap b' (set_nodes m' (set_tcbs
           (<[t := set_state NIMBLE_TASK_RUNNING c]> (requeue_tcbs s)) s))) ∧
    sched_inv (X := left_stale p (priority c) X) (Some t) s' (detach (NLink t) (requeue_lists s L)).

End operations.

Section select.
Context {M : Mode} {X : Stale}.

Definition select_code : K tid :=
  prio ← oget (λ s, highest_set_bit (ready_bitmap s));
  node ← on_nodes (get_next (NReady prio));
  next ← tcb_of_link node;
  nimble_scheduler_remove next ;;
  upd_tcb next (set_state NIMBLE_TASK_RUNNING) ;;
  modify (set_next_tcb (Some next)) ;;
  mret next.

Lemma wp_fail_bind {A B} (m : K A) (k : A → K B) s : m s = None → (m ≫= k) s = None.
Proof. unfold mbind, M_bind. by intros ->. Qed.

(** [nimble_scheduler_select_next]: a task is selected, unless the highest bit
    is stale; then the code takes the head of an empty list for a task. *)
Lemma select_next_cases s L :
  sched_inv None s L → (∀ t, nimble_current_tcb s = Some t → is_Some (tcbs s !! t)) →
  runnable s →
  live s L ∧ wp nimble_scheduler_select_next (selected s L) s ∨
  stuck s L ∧ nimble_scheduler_select_next s = None.
Proof.
  intros HI Hcur Hrun. pose proof (runnable_ready _ _ HI Hrun) as Hready.
  pose proof (requeue_spec _ _ HI Hcur) as Hrq.
  apply wp_run in Hrq as ([]&s1&Erun&(m1&b1&Es1&Hgrown)&HI1).
  set (L1 := requeue_lists s L) in *.
  change nimble_scheduler_select_next with (requeue_code ;; select_code).
  destruct (bitmap_top _ _ _ HI1 Hready) as (p&Hp&Hbit&[[Hlive (t&c&Htop&Ht)]|[Hst Hempty]]);
    rewrite Es1 in *; [left|right].
  - split; [by eapply grown_live|].
    destruct (top_ready_state _ _ _ _ _ _ HI1 eq_refl Htop Ht) as [Hs Hpc].
    pose proof Htop as [(xs&Hxs) _]. simpl in Ht, Hbit.
    wp_step. eapply wp_eq; [exact Erun|]. unfold select_code.
    wp_step. apply (wp_oget _ p); [done|].
    wp_step. eapply wp_get_next_head; [by eapply si_repr|done|]. simpl.
    wp_step. apply wp_ret.
    wp_step. wp_apply (hole_scheduler_remove t _ _ _ (left_stale p (priority c) X));
      [by apply sched_inv_open|done|..].
    { intros q Hon Hne. assert (q = p) as ->.
      { enough (NReady q = NReady p) by congruence. eapply on_unique; [apply HI1|done|].
        eexists. split; [done|left]. }
      split; [|split; [by right|done]]. destruct Hpc as [_ Hx]. destruct exact; [|done].
      by specialize (Hx eq_refl). }
    { intros q Hq Hne. split; [by left|done]. }
    intros _ s2 [(m2&b2&->) HI2]. wp_step. eapply wp_upd_tcb; [done|].
    wp_step. apply wp_modify. apply wp_ret. simpl in *.
    exists p, c, m2, b2. do 6 (split; [done|]).
    eapply hole_upd_tcb with (c' := set_state NIMBLE_TASK_RUNNING c) in HI2;
      [|done|by apply (si_prio _ _ _ HI1 t c Ht)].
    destruct HI2. split; try done.
  - split; [by eapply grown_stale|]. unfold mbind at 1, M_bind. rewrite Erun.
    unfold select_code, mbind, M_bind, oget. simpl in Hbit |- *. rewrite Hbit.
    unfold on_nodes, zoom. simpl.
    pose proof (nxt_head _ _ _ _ (si_repr _ _ _ HI1) Hempty) as Hn. simpl in Hn.
    unfold get_next, oget. unfold nxt in Hn. by rewrite Hn.
Qed.

(** Making the selected task current closes the invariant. *)
Lemma switch_close s L t c :
  sched_inv (Some t) s L → tcbs s !! t = Some c → state c = NIMBLE_TASK_RUNNING →
  base_priority c ≤ priority c → unlinked (NLink t) L → unlinked (NEvent t) L →
  (∀ u cu, tcbs s !! u = Some cu → u ≠ t → state cu ≠ NIMBLE_TASK_RUNNING) →
  sched_inv None (set_current_tcb (Some t) s) L.
Proof.
  intros HI Ht Hs Hb Hl He Hothers. apply (sched_inv_close t _ _ c); [|done|].
  - destruct HI. split; try done. simpl. intros u cu Hu Hne.
    destruct (si_task u cu Hu Hne) as [? ? ? ? ? _ ? ?]. split; try done.
    intros Hr. destruct (Hothers u cu Hu); [congruence|done].
  - by apply task_inv_running.
Qed.

(** Where a switch leads: [t], at the head of the list of [p]. *)
Definition switched_from s L (t : nat) (p : Z) c s' L' : Prop :=
  ∃ m' b',
    0 ≤ p < 32 ∧ top_ready (requeue_lists s L) p t ∧ requeue_tcbs s !! t = Some c ∧
    state c = NIMBLE_TASK_READY ∧ home c p ∧
    s' = set_current_tcb (Some t) (set_next_tcb (Some t) (set_pendsv (pendsv s')
           (set_ready_bitmap b' (set_nodes m' (set_tcbs
              (<[t := set_state NIMBLE_TASK_RUNNING c]> (requeue_tcbs s)) s))))) ∧
    L' = detach (NLink t) (requeue_lists s L).
Definition switched s L (t : nat) s' L' : Prop := ∃ p c, switched_from s L t p c s' L'.

Lemma requeue_event_unlinked s L t c :
  sched_inv None s L → requeue_tcbs s !! t = Some c → state c = NIMBLE_TASK_READY →
  unlinked (NEvent t) (requeue_lists s L).
Proof.
  intros HI Ht Hs. assert (∃ c0, tcbs s !! t = Some c0 ∧ state c0 ≠ NIMBLE_TASK_BLOCKED)
    as (c0&Ht0&Hs0).
  { apply requeue_lookup in Ht as [?|(c0&_&?&?&_)]; eexists; (split; [done|congruence]). }
  pose proof (event_unlinked _ _ _ _ HI Ht0 Hs0) as He. rewrite unlinked_on in *.
  intros h. by rewrite on_requeue.
Qed.

End select.

Section switch.
Context {M : Mode} {X : Stale}.

(** Making the selected task current completes the switch. *)
Lemma selected_switch s L t s1 :
  sched_inv None s L → selected s L t s1 →
  ∃ p c, let L' := detach (NLink t) (requeue_lists s L) in let s' := set_current_tcb (Some t) s1 in
    nimble_next_tcb s1 = Some t ∧ switched_from s L t p c s' L' ∧
    sched_inv (X := left_stale p (priority c) X) None s' L'.
Proof.
  intros HI (p&c&m'&b'&Hp&Htop&Ht&Hs&Hpc&->&HI'). exists p, c. cbv zeta.
  split; [done|]. split; [by exists m', b'|].
  eapply switch_close in HI'; [exact HI'|apply lookup_insert_eq|done|..].
  - destruct Hpc as [? _]. simpl. lia.
  - apply unlinked_detach.
  - apply unlinked_detach_other. by eapply requeue_event_unlinked.
  - simpl. intros u cu [[<- <-]|[? Hu]]%lookup_insert_Some ?; [done|].
    by eapply requeue_no_running.
Qed.

(** [PendSV_Handler] switches to a task of the highest ready list, and the
    invariant holds again. *)
Lemma pendsv_cases s L :
  sched_inv None s L → (∀ t, nimble_current_tcb s = Some t → is_Some (tcbs s !! t)) →
  runnable s →
  live s L ∧ wp PendSV_Handler
    (λ _ s', ∃ t p c, let L' := detach (NLink t) (requeue_lists s L) in
       switched_from s L t p c s' L' ∧ pendsv s' = false ∧
       sched_inv (X := left_stale p (priority c) X) None s' L') s ∨
  stuck s L ∧ PendSV_Handler s = None.
Proof.
  intros HI Hcur Hrun.
  assert (sched_inv None (set_pendsv false s) L) as HI0 by (destruct HI; split; done).
  destruct (select_next_cases _ _ HI0 Hcur Hrun) as [[Hl Hwp]|[Hst Hno]]; [left|right].
  2: { split; [done|]. unfold PendSV_Handler, mbind, M_bind, modify. by rewrite Hno. }
  split; [done|]. unfold PendSV_Handler.
  wp_step. apply wp_modify. wp_step. eapply wp_mono; [exact Hwp|]. intros t s1 Hsel.
  destruct (selected_switch _ _ _ _ HI0 Hsel) as (p&c&En&Hsw&HI').
  wp_step. apply wp_gets. apply wp_modify. rewrite En. exists t, p, c.
  destruct Hsw as (m'&b'&?&?&?&?&?&Es'&?). split; [exists m', b'; do 5 (split; [done|])|].
  - split; [exact Es'|done].
  - split; [|done]. by destruct Hsel as (?&?&?&?&_&_&_&_&_&->&_).
Qed.

(** ** The tick *)

Lemma get_list_L_ready t p L h :
  get_list (L_ready t p L) h =
  if decide (h = NReady p) then get_list L h ++ [NLink t] else get_list L h.
Proof.
  unfold L_ready, get_list. case_decide as Hh.
  - subst. by rewrite lookup_insert_eq.
  - by rewrite lookup_insert_ne.
Qed.

Lemma get_list_L_detach t L h :
  get_list (L_detach t L) h = without (NEvent t) (without (NLink t) (get_list L h)).
Proof.
  unfold L_detach, detach, get_list. rewrite !lookup_fmap. by destruct (L !! h).
Qed.

Lemma is_Some_L_ready t p L h :
  is_Some (L !! NReady p) → is_Some (L_ready t p L !! h) ↔ is_Some (L !! h).
Proof. intros Hp%get_list_Some. by eapply is_Some_insert_same. Qed.

Lemma is_Some_L_detach t L h : is_Some (L_detach t L !! h) ↔ is_Some (L !! h).
Proof. unfold L_detach. by rewrite !is_Some_detach. Qed.

Lemma elem_of_get_list L h n : n ∈ get_list L h → on L h n.
Proof.
  unfold get_list, on. destruct (L !! h) as [xs|]; [eauto|]. by intros ?%elem_of_nil.
Qed.

Lemma not_elem_get_list L h n : ¬ on L h n → n ∉ get_list L h.
Proof. intros Hn Hin. by apply Hn, elem_of_get_list. Qed.

(** The tick comparison of the code: [(int32_t)(g_tick_count - wake_tick) >= 0]. *)
Definition expired (now : Z) c : bool := 0 <=? i32 (now - wake_tick c).

(** The delayed task of this node is due at the state's tick. *)
Definition due s n : bool :=
  match n with
  | NLink t => match tcbs s !! t with
               | Some c => expired (g_tick_count s) c
               | None => false
               end
  | _ => false
  end.
(** The wait-list node of one of the due tasks of [ys]. *)
Definition timed_out s (ys : list nid) n : bool :=
  match n with NEvent u => bool_decide (NLink u ∈ ys) && due s (NLink u) | _ => false end.
Definition prio_of s n : Z :=
  match n with
  | NLink t | NEvent t => match tcbs s !! t with Some c => priority c | None => 0 end
  | _ => 0
  end.

(** What the loop does from the delayed nodes [ys] on. *)
Record ticked s L (kept ys : list nid) s' L' : Prop := {
  tk_frame : ∃ m' b' T', s' = set_ready_bitmap b' (set_nodes m' (set_tcbs T' s));
  tk_tcbs u : tcbs s' !! u =
    (λ c, if bool_decide (NLink u ∈ ys) && due s (NLink u)
          then set_woken NIMBLE_ERR_TIMEOUT c else c) <$> tcbs s !! u;
  tk_heads h : is_Some (L' !! h) ↔ is_Some (L !! h);
  tk_delayed : get_list L' NDelayed = kept ++ filter (λ n, due s n = false) ys;
  tk_ready p : 0 ≤ p < 32 → get_list L' (NReady p) =
    get_list L (NReady p) ++ filter (λ n, due s n = true ∧ prio_of s n = p) ys;
  tk_others h : h ≠ NDelayed → (∀ p, h ≠ NReady p) →
    get_list L' h = filter (λ n, timed_out s ys n = false) (get_list L h);
  tk_inv : sched_inv None s' L';
}.

Lemma ticked_nil s L kept :
  sched_inv None s L → L !! NDelayed = Some kept → ticked s L kept [] s L.
Proof.
  intros HI Hd. split; try done.
  - exists (nodes s), (ready_bitmap s), (tcbs s). by destruct s.
  - intros u. rewrite bool_decide_eq_false_2 by apply not_elem_of_nil. simpl.
    by destruct (tcbs s !! u).
  - rewrite app_nil_r. by apply get_list_eq.
  - intros p _. by rewrite app_nil_r.
  - intros h _ _. symmetry. apply list_filter_id. intros n _.
    by destruct n.
Qed.

(** Waking the due task [t] changes neither which tasks are due nor the
    priorities. *)
Lemma due_woken s t c n b m' r :
  tcbs s !! t = Some c →
  due (set_ready_bitmap b (set_nodes m' (set_tcbs (<[t := set_woken r c]> (tcbs s)) s))) n
  = due s n.
Proof.
  intros Ht. unfold due; simpl. destruct n as [| |u| | | | | | |]; try done.
  destruct (decide (u = t)) as [->|]; by simplify_map_eq.
Qed.

Lemma prio_of_woken s t c n b m' r :
  tcbs s !! t = Some c →
  prio_of (set_ready_bitmap b (set_nodes m' (set_tcbs (<[t := set_woken r c]> (tcbs s)) s))) n
  = prio_of s n.
Proof.
  intros Ht. unfold prio_of; simpl. destruct n as [| |u|u| | | | | |]; try done;
    (destruct (decide (u = t)) as [->|]; by simplify_map_eq).
Qed.

(** The body of the loop on a due task. *)
Lemma tick_wake_spec s L t c :
  sched_inv None s L → tcbs s !! t = Some c → on L NDelayed (NLink t) →
  wp (on_nodes (nimble_list_remove (NLink t)) ;;
      on_nodes (nimble_list_remove (NEvent t)) ;;
      upd_tcb t (set_last_wait_result NIMBLE_ERR_TIMEOUT) ;;
      nimble_scheduler_add_ready t)
    (λ _ s', (∃ m' b', s' = set_ready_bitmap b' (set_nodes m'
                 (set_tcbs (<[t := set_woken NIMBLE_ERR_TIMEOUT c]> (tcbs s)) s))) ∧
             sched_inv None s' (L_ready t (priority c) (L_detach t L))) s.
Proof.
  intros HI Ht Hon. pose proof (si_task _ _ _ HI _ _ Ht ltac:(done)) as Hti.
  apply (ti_delayed _ _ _ _ Hti) in Hon as Hs.
  apply (sched_inv_open t) in HI as HI1.
  hole_step (hole_remove_link t); [done|eauto| |].
  { intros p Hp. apply (ti_ready _ _ _ _ Hti) in Hp as [? _]; congruence. }
  hole_step (hole_remove_event t); [done|eauto|].
  destruct (unlinked_L_detach t L).
  wp_step. eapply wp_upd_tcb; [done|]. eapply wp_mono.
  - eapply close_add_ready; [|apply lookup_insert_eq|by apply (raised s L t c HI)|done..].
    eapply hole_upd_tcb; [done..|]. by apply (si_prio _ _ _ HI t c).
  - intros _ s' [[m' ->] HI']. simpl in *. split; [|done].
    exists m'. eexists. by rewrite insert_insert_eq.
Qed.

(** Putting one round of the loop in front of the rest. *)
Lemma ticked_skip s L kept n ys s' L' :
  due s n = false → (∃ t, n = NLink t) →
  ticked s L (kept ++ [n]) ys s' L' → ticked s L kept (n :: ys) s' L'.
Proof.
  intros Hn [t ->] [Hf Ht Hh Hd Hr Ho HI]. split; try done.
  - intros u. rewrite Ht. destruct (tcbs s !! u) as [c|] eqn:Hu; [|done].
    assert (bool_decide (NLink u ∈ NLink t :: ys) && due s (NLink u)
            = bool_decide (NLink u ∈ ys) && due s (NLink u)) as ->; [|done].
    destruct (due s (NLink u)) eqn:E; [|by rewrite !andb_false_r].
    rewrite !andb_true_r. apply bool_decide_ext. rewrite elem_of_cons.
    split; [intros [[= ->]|?]; congruence|auto].
  - rewrite Hd, filter_cons_True by done. by rewrite <- app_assoc.
  - intros p Hp. rewrite Hr by done. rewrite filter_cons_False; [done|].
    intros [? _]. congruence.
  - intros h H1 H2. rewrite Ho by done. apply list_filter_iff. intros m.
    destruct m as [| | |u| | | | | |]; try done. unfold timed_out.
    destruct (due s (NLink u)) eqn:E; [|by rewrite !andb_false_r].
    rewrite !andb_true_r, !bool_decide_eq_false, elem_of_cons.
    split; [intros ? [[= ->]|?]; congruence|auto].
Qed.

(** Detaching a BLOCKED task leaves the ready lists alone. *)
Lemma ready_L_detach s L t c p :
  sched_inv None s L → tcbs s !! t = Some c → state c = NIMBLE_TASK_BLOCKED →
  get_list (L_detach t L) (NReady p) = get_list L (NReady p).
Proof.
  intros HI Ht Hs. rewrite get_list_L_detach, (without_id (NLink t)), without_id; [done|..];
    apply not_elem_get_list; intros Hon.
  - by apply (si_typed _ _ _ HI) in Hon as [? _].
  - apply (si_task _ _ _ HI _ _ Ht ltac:(done)) in Hon as [? _]. congruence.
Qed.

Lemma ticked_wake s L kept t c ys s1 s' L' :
  sched_inv None s L → L !! NDelayed = Some (kept ++ NLink t :: ys) →
  tcbs s !! t = Some c → due s (NLink t) = true →
  (∃ m' b', s1 = set_ready_bitmap b' (set_nodes m'
                 (set_tcbs (<[t := set_woken NIMBLE_ERR_TIMEOUT c]> (tcbs s)) s))) →
  ticked s1 (L_ready t (priority c) (L_detach t L)) kept ys s' L' →
  ticked s L kept (NLink t :: ys) s' L'.
Proof.
  intros HI Hd Ht Hdue (m1&b1&->) [Hf' Ht' Hh' Hd' Hr' Ho' HI'].
  assert (on L NDelayed (NLink t)) as Hon
    by (eexists; split; [done|apply elem_of_insert_mid; by left]).
  apply (ti_delayed _ _ _ _ (si_task _ _ _ HI _ _ Ht ltac:(done))) in Hon as Hs.
  assert (NLink t ∉ ys) as Hnys.
  { pose proof (repr_nodup _ _ (si_repr _ _ _ HI) _ _ Hd) as Hnd.
    apply NoDup_app in Hnd as (_&_&Hnd). by apply NoDup_cons in Hnd as [? _]. }
  assert (is_Some (L_detach t L !! NReady (priority c))) as Hpr.
  { apply is_Some_L_detach, (si_ready _ _ _ HI). by apply (si_prio _ _ _ HI t). }
  split; [..|done].
  - destruct Hf' as (m'&b'&T'&->). by exists m', b', T'.
  - intros u. rewrite Ht', due_woken by done.
    cbn [tcbs set_ready_bitmap set_nodes set_tcbs].
    destruct (decide (u = t)) as [->|Hne].
    + rewrite lookup_insert_eq, Ht, Hdue. cbn [fmap option_fmap option_map].
      rewrite bool_decide_eq_false_2, bool_decide_eq_true_2; [done|left|done].
    + rewrite lookup_insert_ne by done. destruct (tcbs s !! u) as [cu|]; [|done].
      assert (bool_decide (NLink u ∈ NLink t :: ys) = bool_decide (NLink u ∈ ys)) as ->; [|done].
      apply bool_decide_ext. rewrite elem_of_cons. naive_solver.
  - intros h. rewrite Hh', is_Some_L_ready by done. apply is_Some_L_detach.
  - rewrite Hd', filter_cons_False by congruence. f_equal.
    apply list_filter_iff. intros n. by rewrite due_woken.
  - intros p Hp. rewrite Hr' by done.
    rewrite get_list_L_ready, (ready_L_detach _ _ _ _ _ HI Ht Hs).
    assert (prio_of s (NLink t) = priority c) as Hpt by (unfold prio_of; by rewrite Ht).
    trans (get_list L (NReady p) ++ (if decide (priority c = p) then [NLink t] else []) ++
           filter (λ n, due s n = true ∧ prio_of s n = p) ys).
    + rewrite app_assoc. f_equal.
      * destruct (decide (priority c = p)) as [<-|Hne]; [by rewrite decide_True|].
        rewrite decide_False by congruence. by rewrite app_nil_r.
      * apply list_filter_iff. intros n. by rewrite due_woken, prio_of_woken.
    + f_equal. case_decide as Hdec.
      * rewrite (filter_cons_True _ (NLink t)); [done|]. split; congruence.
      * rewrite (filter_cons_False _ (NLink t)); [done|]. intros [_ E]. congruence.
  - intros h H1 H2. rewrite Ho' by done.
    rewrite get_list_L_ready, decide_False, get_list_L_detach by apply H2.
    rewrite (without_id (NLink t)).
    + unfold without. rewrite list_filter_filter. apply list_filter_iff. intros n.
      unfold timed_out. destruct n as [| | |u| | | | | |]; try (by split; [intros [? _]|]).
      rewrite due_woken by done. destruct (due s (NLink u)) eqn:E.
      * rewrite !andb_true_r, !bool_decide_eq_false, elem_of_cons.
        split; [intros [? ?] [[= ->]|?]; tauto|].
        intros Hn. split; [tauto|]. intros [= ->]. apply Hn. by left.
      * rewrite !andb_false_r. split; [tauto|]. intros _. split; [done|]. congruence.
    + apply not_elem_get_list. intros Hon'.
      pose proof (si_typed _ _ _ HI _ _ Hon') as Hty.
      destruct h; simpl in Hty; try tauto. by eapply H2.
Qed.

Lemma tick_loop_spec fuel s L kept ys :
  sched_inv None s L → L !! NDelayed = Some (kept ++ ys) → (length ys < fuel)%nat →
  wp (tick_loop fuel (succ_of ys NDelayed)) (λ _ s', ∃ L', ticked s L kept ys s' L') s.
Proof.
  revert s L kept ys. induction fuel as [|fuel IH]; intros s L kept ys HI Hd Hf; [lia|].
  destruct ys as [|n ys]; unfold tick_loop; fold tick_loop.
  - rewrite decide_True by done. apply wp_ret. rewrite app_nil_r in Hd.
    exists L. by apply ticked_nil.
  - assert (on L NDelayed n) as Hon
      by (eexists; split; [done|apply elem_of_insert_mid; by left]).
    pose proof (si_typed _ _ _ HI _ _ Hon) as Hty.
    destruct n as [| |t|t| | | | | |]; simpl in Hty; try tauto; [|naive_solver].
    destruct Hty as [c Ht]. change (succ_of (NLink t :: ys) NDelayed) with (NLink t).
    rewrite decide_False by done.
    wp_step. eapply wp_get_next_member; [by eapply si_repr|done|].
    wp_step. apply wp_ret. wp_step. eapply wp_get_tcb; [done|].
    wp_step. apply wp_gets. wp_step.
    assert (due s (NLink t) = expired (g_tick_count s) c) as Hdue
      by (unfold due; by rewrite Ht).
    unfold expired in Hdue. destruct (0 <=? i32 (g_tick_count s - wake_tick c)); unfold when.
    + wp_apply tick_wake_spec; [done..|]. intros _ s1 [Hs1 HI1].
      wp_apply IH; [done| |simpl in Hf; lia|].
      * rewrite (get_list_Some _ NDelayed) by apply HI1. f_equal.
        rewrite get_list_L_ready, decide_False, get_list_L_detach, (get_list_eq _ _ _ Hd) by done.
        rewrite without_split by apply (repr_nodup _ _ (si_repr _ _ _ HI) _ _ Hd).
        apply without_id. intros Hin. assert (on L NDelayed (NEvent t)) as Hon'.
        { eexists; split; [done|]. apply elem_of_insert_mid. by right. }
        by destruct (si_typed _ _ _ HI _ _ Hon').
      * intros _ s2 [L2 Htk]. exists L2. by eapply ticked_wake.
    + apply wp_ret. wp_apply (IH _ _ (kept ++ [NLink t]) ys);
        [done|by rewrite <- app_assoc|simpl in Hf; lia|].
      intros _ s2 [L2 Htk]. exists L2. eapply ticked_skip; eauto.
Qed.

(** A list is shorter than the store, which is what the fuel of every list
    loop counts. *)
Lemma list_shorter hole s L h xs :
  sched_inv hole s L → L !! h = Some xs → (length xs < S (size (nodes s)))%nat.
Proof.
  intros HI Hh. pose proof (si_repr _ _ _ HI) as HR.
  assert (length xs ≤ size (nodes s))%nat; [|lia].
  rewrite <- size_dom, <- (size_list_to_set (C := gset nid) xs) by by eapply repr_nodup.
  apply subseteq_size. intros x Hx%elem_of_list_to_set.
  apply elem_of_dom. apply list_elem_of_split in Hx as (l1&l2&->).
  eapply nxt_is_Some, nxt_member; done.
Qed.

(** [nimble_scheduler_tick]: every due task is woken with
    [NIMBLE_ERR_TIMEOUT], in the order of the delayed list, and no other. *)
Lemma tick_spec s L :
  sched_inv None s L →
  wp nimble_scheduler_tick
    (λ _ s', ∃ s1 L', s' = set_pendsv true s1 ∧
       ticked (set_tick_count (u32 (g_tick_count s + 1)) s) L [] (get_list L NDelayed) s1 L' ∧
       sched_inv None s' L') s.
Proof.
  intros HI. unfold nimble_scheduler_tick.
  set (s0 := set_tick_count (u32 (g_tick_count s + 1)) s).
  assert (sched_inv None s0 L) as HI0 by (destruct HI; split; done).
  assert (L !! NDelayed = Some (get_list L NDelayed)) as Hd by apply get_list_Some, HI.
  wp_step. apply wp_modify. wp_step. eapply wp_get_next_head; [apply HI0|done|].
  wp_step. apply wp_gets. wp_step.
  wp_apply (tick_loop_spec _ _ _ []); [done|done|by eapply list_shorter|].
  intros _ s1 [L' Htk]. apply wp_modify. exists s1, L'. do 2 (split; [done|]).
  destruct (tk_inv _ _ _ _ _ _ Htk). split; done.
Qed.
End switch.
