(* ===== verification/Task.v ===== *)
(** * Tasks ([kernel/src/task.c]) *)
From S2P Require Import Prelude DList Kernel Port Scheduler.
From stdpp Require Import options.

Definition NIMBLE_STACK_CANARY : Z := 0xA5A5A5A5.

(** [memset(tcb, 0, sizeof( *tcb))] *)
Definition zero_tcb : nimble_tcb :=
  TCB 0 0 0 NIMBLE_TASK_READY 0 0 0 NIMBLE_OK None (replicate 16 0).

(** [for (i ...; i < stack_words; i++) stack_base[i] = NIMBLE_STACK_CANARY],
    [n] iterations from index [i]. *)
Fixpoint fill_canary (n : nat) (base i : Z) : K unit :=
  match n with
  | O => mret tt
  | S n => store_word (base + 4 * i) NIMBLE_STACK_CANARY ;; fill_canary n base (i + 1)
  end.

Section image.
  Context `{Image}.

(** [tcb] and [str] are [None] for a null pointer; null code and stack
    addresses are 0. *)
Definition nimble_task_create (tcb : option tid) (str : option (list Z))
    (fn arg base words prio : Z) : K Z :=
  match tcb with
  | None => mret NIMBLE_ERR_INVALID_ARG
  | Some t =>
      if (fn =? 0) || (base =? 0) then mret NIMBLE_ERR_INVALID_ARG else
      if words <? NIMBLE_MIN_STACK_WORDS then mret NIMBLE_ERR_INVALID_ARG else
      if NIMBLE_MAX_PRIORITIES <=? prio then mret NIMBLE_ERR_INVALID_ARG else
      modify (λ s, set_tcbs (<[t := zero_tcb]> (tcbs s)) s) ;;
      on_nodes (nimble_list_init (NLink t)) ;;
      on_nodes (nimble_list_init (NEvent t)) ;;
      fill_canary (Z.to_nat words) base 0 ;;
      new_sp ← nimble_port_init_task_stack (base + 4 * words) fn arg;
      nm ← oget (λ _, stored_name str);
      upd_tcb t (λ c, TCB new_sp prio prio (state c) base words (wake_tick c)
                        (last_wait_result c) None nm) ;;
      crit ← nimble_port_enter_critical;
      nimble_scheduler_add_ready t ;;
      nimble_port_exit_critical crit ;;
      mret NIMBLE_OK
  end.

(** [nimble_scheduler_init] ([scheduler.c]): the list heads, the counters and
    the idle task. *)
Fixpoint init_ready_lists (n : nat) (i : Z) : K unit :=
  match n with
  | O => mret tt
  | S n => on_nodes (nimble_list_init (NReady i)) ;; init_ready_lists n (i + 1)
  end.

Definition nimble_scheduler_init : K unit :=
  init_ready_lists (Z.to_nat NIMBLE_MAX_PRIORITIES) 0 ;;
  on_nodes (nimble_list_init NDelayed) ;;
  modify (set_ready_bitmap 0) ;;
  modify (set_tick_count 0) ;;
  modify (set_current_tcb None) ;;
  modify (set_next_tcb None) ;;
  nimble_task_create (Some idle_tcb) (Some [105; 100; 108; 101; 0]) idle_task_fn 0
    idle_stack IDLE_STACK_WORDS 0 ;;
  mret tt.
End image.

Definition nimble_task_yield : K unit := nimble_port_request_context_switch.

(** The part of [nimble_task_delay] before the switch request; the result
    tells whether the request follows. *)
Definition nimble_task_delay_crit (ticks : Z) : K bool :=
  if ticks =? 0 then mret false else
  crit ← nimble_port_enter_critical;
  self ← oget nimble_current_tcb;
  now ← nimble_scheduler_get_tick_count;
  nimble_scheduler_block_current_delay self (u32 (now + ticks)) ;;
  nimble_port_exit_critical crit ;;
  mret true.

Definition nimble_task_delay (ticks : Z) : K unit :=
  r ← nimble_task_delay_crit ticks; when r nimble_port_request_context_switch.

Definition nimble_task_suspend_crit (t : tid) : K bool :=
  crit ← nimble_port_enter_critical;
  c ← get_tcb t;
  if bool_decide (state c = NIMBLE_TASK_READY) || bool_decide (state c = NIMBLE_TASK_RUNNING)
  then
    cur ← gets nimble_current_tcb;
    let suspending_self := bool_decide (cur = Some t) in
    when (bool_decide (state c = NIMBLE_TASK_READY)) (nimble_scheduler_remove t) ;;
    upd_tcb t (set_state NIMBLE_TASK_SUSPENDED) ;;
    nimble_port_exit_critical crit ;;
    mret suspending_self
  else
    nimble_port_exit_critical crit ;;
    mret false.

Definition nimble_task_suspend (t : tid) : K unit :=
  r ← nimble_task_suspend_crit t; when r nimble_port_request_context_switch.

Definition nimble_task_resume (t : tid) : K unit :=
  crit ← nimble_port_enter_critical;
  c ← get_tcb t;
  when (bool_decide (state c = NIMBLE_TASK_SUSPENDED)) (nimble_scheduler_add_ready t) ;;
  nimble_port_exit_critical crit.

Definition nimble_task_self : K (option tid) := gets nimble_current_tcb.

(** The scan of [nimble_task_get_stack_high_water_mark]. *)
Fixpoint canary_scan (fuel : nat) (base words i : Z) : K Z :=
  match fuel with
  | O => ub
  | S fuel =>
      if i <? words then
        w ← load_word (base + 4 * i);
        if w =? NIMBLE_STACK_CANARY then canary_scan fuel base words (i + 1) else mret i
      else mret i
  end.

Definition nimble_task_get_stack_high_water_mark (t : tid) : K Z :=
  c ← get_tcb t;
  canary_scan (S (Z.to_nat (stack_words c))) (stack_base c) (stack_words c) 0.
