(* ===== verification/WaitList.v ===== *)
(** * Priority-ordered wait lists

    [insert_waiter_priority_sorted] appears, word for word, in [mutex.c],
    [semaphore.c] and [queue.c]; this file holds the one model of the three
    copies. *)
From S2P Require Import Prelude DList Kernel Port Scheduler SchedInv SchedSpec.
From stdpp Require Import sorting options.
Open Scope Z_scope.

(** The [while] loop: the first waiter of a lower priority than [prio], or
    the list head. *)
Fixpoint scan_waiters (fuel : nat) (waiters : nid) (prio : Z) (node : nid) : K nid :=
  match fuel with
  | O => ub
  | S fuel =>
      if decide (node = waiters) then mret node else
      other ← tcb_of_event_link node;
      c ← get_tcb other;
      if priority c <? prio then mret node else
      node ← on_nodes (get_next node);
      scan_waiters fuel waiters prio node
  end.

Definition insert_waiter_priority_sorted (waiters : nid) (t : tid) : K unit :=
  node ← on_nodes (get_next waiters);
  c ← get_tcb t;
  fuel ← list_fuel;
  node ← scan_waiters fuel waiters (priority c) node;
  on_nodes (link_before node (NEvent t)).

(** ** Specification *)

Implicit Types (L : gmap nid (list nid)) (n h x : nid) (t u : nat)
  (s : kstate) (c : nimble_tcb) (ws ys : list nid).

(** Insertion in front of the first waiter of a lower priority than [p]. *)
Fixpoint insert_by (s : kstate) (p : Z) (n : nid) (ws : list nid) : list nid :=
  match ws with
  | [] => [n]
  | w :: ws => if prio_of s w <? p then n :: w :: ws else w :: insert_by s p n ws
  end.

(** Highest priority first. *)
Definition wait_sorted (s : kstate) (ws : list nid) : Prop :=
  StronglySorted (λ a b, prio_of s b ≤ prio_of s a) ws.

Lemma insert_by_perm s p n ws : insert_by s p n ws ≡ₚ n :: ws.
Proof.
  induction ws as [|w ws IH]; simpl; [done|].
  destruct (_ <? _); [done|]. rewrite IH. apply Permutation_swap.
Qed.

Lemma insert_by_split s p ws :
  ∃ ws1 ws2, ws = ws1 ++ ws2 ∧ ∀ n, insert_by s p n ws = ws1 ++ n :: ws2.
Proof.
  induction ws as [|w ws (ws1&ws2&->&IH)]; [by exists [], []|]. simpl.
  destruct (_ <? _); [by exists [], (w :: ws1 ++ ws2)|].
  exists (w :: ws1), ws2. split; [done|]. intros n. by rewrite IH.
Qed.

(** On a sorted list the new waiter goes behind every waiter of its own or a
    higher priority and before the others: first come, first served within a
    priority. *)
Lemma insert_by_fifo s p n ws :
  wait_sorted s ws →
  insert_by s p n ws =
  filter (λ w, p ≤ prio_of s w) ws ++ n :: filter (λ w, prio_of s w < p) ws.
Proof.
  intros Hs. induction Hs as [|w ws Hs IH Hall]; [done|]. simpl.
  destruct (Z.ltb_spec (prio_of s w) p) as [Hlt|Hge].
  - rewrite Forall_forall in Hall.
    assert (∀ x, x ∈ w :: ws → prio_of s x < p) as Hlow.
    { intros x [->|Hx]%elem_of_cons; [done|]. specialize (Hall x Hx). lia. }
    rewrite (list_filter_id (λ w, prio_of s w < p)) by done.
    replace (filter (λ w, p ≤ prio_of s w) (w :: ws)) with (@nil nid); [done|].
    symmetry. apply list_filter_none. intros x Hx. specialize (Hlow x Hx). lia.
  - rewrite filter_cons_True, filter_cons_False, IH by lia. done.
Qed.

Lemma insert_by_sorted s p n ws :
  prio_of s n = p → wait_sorted s ws → wait_sorted s (insert_by s p n ws).
Proof.
  intros Hn Hs. induction Hs as [|w ws Hs IH Hall]; simpl.
  - repeat constructor.
  - destruct (Z.ltb_spec (prio_of s w) p) as [Hlt|Hge].
    + repeat constructor; try done; [lia|].
      eapply Forall_impl; [done|]. simpl. lia.
    + constructor; [done|]. rewrite insert_by_perm. constructor; [lia|done].
Qed.

Section mode.
Context {M : Mode} {X : Stale}.

Lemma scan_waiters_spec hole fuel s L h p xs ys :
  sched_inv hole s L → is_wait h = true → L !! h = Some (xs ++ ys) →
  (length ys < fuel)%nat →
  wp (scan_waiters fuel h p (succ_of ys h))
    (λ node s', s' = s ∧ ∃ ys1 ys2, ys = ys1 ++ ys2 ∧ node = succ_of ys2 h ∧
       ∀ n, insert_by s p n ys = ys1 ++ n :: ys2) s.
Proof.
  intros HI Hw. revert xs ys. induction fuel as [|fuel IH]; intros xs ys Hh Hf; [lia|].
  unfold scan_waiters; fold scan_waiters. destruct ys as [|y ys].
  - rewrite decide_True by done. apply wp_ret. split; [done|]. by exists [], [].
  - assert (on L h y) as Hon by (eexists; split; [done|apply elem_of_insert_mid; by left]).
    pose proof (si_typed _ _ _ HI _ _ Hon) as Hty.
    assert (∃ u, y = NEvent u ∧ is_Some (tcbs s !! u)) as (u&->&c&Hu).
    { destruct h; try discriminate Hw; destruct y; simpl in Hty; naive_solver. }
    change (succ_of (NEvent u :: ys) h) with (NEvent u).
    rewrite decide_False by by destruct h.
    wp_step. apply wp_ret. wp_step. eapply wp_get_tcb; [done|]. simpl. rewrite Hu.
    destruct (Z.ltb_spec (priority c) p) as [Hlt|Hge].
    + apply wp_ret. split; [done|]. by exists [], (NEvent u :: ys).
    + wp_step. eapply wp_get_next_member; [by eapply si_repr|done|].
      wp_apply (IH (xs ++ [NEvent u]) ys); [by rewrite <- app_assoc|simpl in Hf; lia|].
      intros node s' [-> (ys1&ys2&->&->&Hins)]. split; [done|].
      exists (NEvent u :: ys1), ys2. do 2 (split; [done|]). intros n. by rewrite Hins.
Qed.

(** The sorted insertion of a task that is on no wait list. *)
Lemma insert_waiter_spec s L t c h ws :
  sched_inv (Some t) s L → tcbs s !! t = Some c → unlinked (NEvent t) L →
  is_wait h = true → L !! h = Some ws →
  wp (insert_waiter_priority_sorted h t)
    (λ _ s', (∃ m', s' = set_nodes m' s) ∧
       sched_inv (Some t) s' (<[h := insert_by s (priority c) (NEvent t) ws]> L)) s.
Proof.
  intros HI Ht Hu Hw Hh. unfold insert_waiter_priority_sorted.
  wp_step. eapply wp_get_next_head; [by eapply si_repr|done|].
  wp_step. eapply wp_get_tcb; [done|]. wp_step. apply wp_gets. wp_step.
  wp_apply (scan_waiters_spec _ _ _ _ _ _ []); [done|done|done|by eapply list_shorter|].
  intros node s' [-> (ys1&ys2&->&->&Hins)]. rewrite Hins.
  by apply (hole_insert_wait t).
Qed.

End mode.

Lemma insert_by_ext s s' p n ws :
  (∀ w, w ∈ ws → prio_of s' w = prio_of s w) → insert_by s' p n ws = insert_by s p n ws.
Proof.
  induction ws as [|w ws IH]; intros Heq; [done|]. simpl.
  rewrite Heq by left. rewrite IH; [done|]. intros w' ?. apply Heq. by right.
Qed.
