(* ===== verification/Ring.v ===== *)
(** * The ring buffer of a queue ([copy_in] and [copy_out] of [kernel/src/queue.c])

    The two byte copies on the structure itself, and their refinement: a
    well-formed ring is a first-in first-out sequence of items. *)
From S2P Require Import Prelude DList Kernel.
From stdpp Require Import options.
Set Default Proof Using "Type*".

(** [memcpy] into and out of a buffer, at a byte offset; outside the buffer,
    or past the end of the source, it is undefined. *)
Definition write_bytes (buf : list Z) (off : Z) (bs : list Z) : option (list Z) :=
  if bool_decide (0 ≤ off ∧ off + Z.of_nat (length bs) ≤ Z.of_nat (length buf))
  then let o := Z.to_nat off in Some (take o buf ++ bs ++ drop (o + length bs) buf)
  else None.
Definition read_bytes (buf : list Z) (off n : Z) : option (list Z) :=
  if bool_decide (0 ≤ off ∧ 0 ≤ n ∧ off + n ≤ Z.of_nat (length buf))
  then Some (take (Z.to_nat n) (drop (Z.to_nat off) buf)) else None.

(** [x % capacity] *)
Definition c_mod (x capacity : Z) : option Z :=
  if capacity =? 0 then None else Some (x mod capacity).

Definition copy_in (qu : nimble_queue) (item : list Z) : option nimble_queue :=
  bs ← read_bytes item 0 (item_size qu);
  buf ← write_bytes (q_buffer qu) (u32 (q_tail qu * item_size qu)) bs;
  tl ← c_mod (u32 (q_tail qu + 1)) (capacity qu);
  Some (Queue buf (item_size qu) (capacity qu) (u32 (q_count qu + 1)) (q_head qu) tl).

Definition copy_out (qu : nimble_queue) : option (list Z * nimble_queue) :=
  bs ← read_bytes (q_buffer qu) (u32 (q_head qu * item_size qu)) (item_size qu);
  hd ← c_mod (u32 (q_head qu + 1)) (capacity qu);
  Some (bs, Queue (q_buffer qu) (item_size qu) (capacity qu) (u32 (q_count qu - 1)) hd
              (q_tail qu)).

(** ** Abstraction *)

Implicit Types (qu : nimble_queue) (buf bs item : list Z).

(** The bytes of slot [i]. *)
Definition slot qu (i : Z) : list Z :=
  take (Z.to_nat (item_size qu)) (drop (Z.to_nat (i * item_size qu)) (q_buffer qu)).

(** The items in the queue, oldest first. *)
Definition items qu : list (list Z) :=
  (λ k : nat, slot qu ((q_head qu + Z.of_nat k) mod capacity qu)) <$>
    seq 0 (Z.to_nat (q_count qu)).

(** A queue whose buffer is as large as [nimble_queue_init] asks for and
    whose indices agree with its count. *)
Record queue_wf qu : Prop := {
  wf_item_size : 0 ≤ item_size qu;
  wf_capacity : 0 ≤ capacity qu < 2 ^ 32;
  wf_bytes : item_size qu * capacity qu < 2 ^ 32;
  wf_buffer : item_size qu * capacity qu ≤ Z.of_nat (length (q_buffer qu));
  wf_count : 0 ≤ q_count qu ≤ capacity qu;
  wf_head : 0 < capacity qu → 0 ≤ q_head qu < capacity qu;
  wf_tail : 0 < capacity qu → q_tail qu = (q_head qu + q_count qu) mod capacity qu;
}.

Lemma mod_add_inj c h a b :
  0 ≤ a < c → 0 ≤ b < c → (h + a) mod c = (h + b) mod c → a = b.
Proof.
  intros Ha Hb E. assert ((a - b) mod c = 0) as Hd.
  { replace (a - b) with ((h + a) - (h + b)) by lia.
    rewrite Zminus_mod, E, Z.sub_diag. apply Z.mod_0_l. lia. }
  apply Z.mod_divide in Hd as [k Hk]; [|lia].
  destruct (decide (k = 0)) as [->|]; [lia|].
  assert (1 ≤ k ∨ k ≤ -1) as [?|?] by lia; nia.
Qed.

Lemma write_bytes_lookup buf (off : Z) bs buf' (i : nat) :
  write_bytes buf off bs = Some buf' →
  buf' !! i = if decide (Z.to_nat off ≤ i < Z.to_nat off + length bs)%nat
              then bs !! (i - Z.to_nat off)%nat else buf !! i.
Proof.
  unfold write_bytes. intros Hw. case_bool_decide as Hr; [|done]. injection Hw as <-.
  set (o := Z.to_nat off). assert (o + length bs ≤ length buf)%nat by lia.
  case_decide.
  - rewrite lookup_app_r, length_take by (rewrite length_take; lia).
    rewrite lookup_app_l by lia. f_equal. lia.
  - destruct (decide (i < o)%nat).
    + rewrite lookup_app_l, lookup_take by (rewrite ?length_take; lia).
      by rewrite decide_True by lia.
    + rewrite lookup_app_r, length_take by (rewrite length_take; lia).
      rewrite lookup_app_r by lia. rewrite lookup_drop. f_equal. lia.
Qed.

Lemma write_bytes_length buf off bs buf' :
  write_bytes buf off bs = Some buf' → length buf' = length buf.
Proof.
  unfold write_bytes. intros Hw. case_bool_decide; [|done]. injection Hw as <-.
  rewrite !length_app, length_take, length_drop. lia.
Qed.

Lemma slot_lookup qu i (j : nat) :
  slot qu i !! j = if decide (j < Z.to_nat (item_size qu))%nat
                   then q_buffer qu !! (Z.to_nat (i * item_size qu) + j)%nat else None.
Proof. unfold slot. rewrite lookup_take, lookup_drop. done. Qed.

(** ** Refinement *)

Lemma slot_bytes qu i :
  queue_wf qu → 0 ≤ i < capacity qu →
  0 ≤ i * item_size qu ∧
  i * item_size qu + item_size qu ≤ Z.of_nat (length (q_buffer qu)) ∧
  i * item_size qu < 2 ^ 32.
Proof. intros [] ?. split_and!; nia. Qed.

Lemma read_bytes_length buf off n bs :
  read_bytes buf off n = Some bs → Z.of_nat (length bs) = n.
Proof.
  unfold read_bytes. intros Hr. case_bool_decide; [|done]. injection Hr as <-.
  rewrite length_take, length_drop. lia.
Qed.

Section copy_in.
  Context (qu : nimble_queue) (item : list Z).
  Hypothesis (Hwf : queue_wf qu).
  Hypothesis (Hroom : q_count qu < capacity qu).
  Hypothesis (Hitem : item_size qu ≤ Z.of_nat (length item)).

Lemma tail_range : 0 ≤ q_tail qu < capacity qu.
Proof.
  rewrite wf_tail; [apply Z.mod_pos_bound|done|]; destruct Hwf; lia.
Qed.

(** The copy writes the item into the tail slot and moves the tail. *)
Lemma copy_in_eq :
  ∃ buf', write_bytes (q_buffer qu) (q_tail qu * item_size qu)
            (take (Z.to_nat (item_size qu)) item) = Some buf' ∧
    copy_in qu item = Some (Queue buf' (item_size qu) (capacity qu) (q_count qu + 1)
                              (q_head qu) ((q_tail qu + 1) mod capacity qu)).
Proof.
  pose proof tail_range as Ht. destruct (slot_bytes qu (q_tail qu) Hwf Ht) as (?&?&?).
  pose proof (wf_item_size _ Hwf). pose proof (wf_capacity _ Hwf). pose proof (wf_count _ Hwf).
  unfold write_bytes. eexists. rewrite bool_decide_eq_true_2 by (rewrite length_take; lia).
  split; [done|]. unfold copy_in, read_bytes.
  rewrite bool_decide_eq_true_2 by lia. cbn [mbind option_bind].
  change (Z.to_nat 0) with 0%nat. rewrite drop_0, (u32_small (_ * _)) by lia. unfold write_bytes.
  rewrite bool_decide_eq_true_2 by (rewrite length_take; lia). cbn [mbind option_bind].
  unfold c_mod. rewrite (proj2 (Z.eqb_neq _ 0)) by lia. cbn [mbind option_bind].
  by rewrite !u32_small by lia.
Qed.

(** [copy_in] appends the item's bytes to the sequence. *)
Lemma copy_in_refines :
  ∃ qu', copy_in qu item = Some qu' ∧ queue_wf qu' ∧
    items qu' = items qu ++ [take (Z.to_nat (item_size qu)) item] ∧
    capacity qu' = capacity qu ∧ item_size qu' = item_size qu ∧
    q_count qu' = q_count qu + 1.
Proof.
  destruct copy_in_eq as (buf'&Hw&Heq). eexists. split; [exact Heq|].
  pose proof tail_range as Ht. destruct (slot_bytes qu (q_tail qu) Hwf Ht) as (?&?&?).
  pose proof (wf_item_size _ Hwf). pose proof (wf_capacity _ Hwf). pose proof (wf_count _ Hwf).
  pose proof (wf_head _ Hwf ltac:(lia)) as Hh.
  split; [|split; [|done]].
  - destruct Hwf. split; simpl; try done; try lia.
    + by rewrite (write_bytes_length _ _ _ _ Hw).
    + intros Hc. rewrite wf_tail0 by done. rewrite Zplus_mod_idemp_l. f_equal. lia.
  - unfold items. cbn [q_count q_head capacity].
    replace (Z.to_nat (q_count qu + 1)) with (Z.to_nat (q_count qu) + 1)%nat by lia.
    rewrite seq_app, fmap_app. simpl. f_equal.
    + apply list_fmap_ext. intros k k' [-> Hk]%lookup_seq. apply list_eq. intros j.
      rewrite !slot_lookup. cbn [item_size q_buffer]. case_decide as Hj; [|done].
      rewrite (write_bytes_lookup _ _ _ _ _ Hw), decide_False; [done|].
      rewrite length_take. set (i := (q_head qu + Z.of_nat (0 + k)) mod capacity qu).
      assert (0 ≤ i < capacity qu) as Hi by (apply Z.mod_pos_bound; lia).
      assert (i ≠ q_tail qu) as Hne.
      { intros E. unfold i in E. rewrite (wf_tail _ Hwf) in E by lia.
        apply mod_add_inj in E; lia. }
      assert (i + 1 ≤ q_tail qu ∨ q_tail qu + 1 ≤ i) as [?|?] by lia; nia.
    + f_equal. apply list_eq. intros j. rewrite slot_lookup. cbn [item_size q_buffer].
      replace ((q_head qu + Z.of_nat (Z.to_nat (q_count qu))) mod capacity qu)
        with (q_tail qu) by (rewrite (wf_tail _ Hwf) by lia; f_equal; lia).
      case_decide as Hj.
      * rewrite (write_bytes_lookup _ _ _ _ _ Hw), decide_True by (rewrite length_take; lia).
        f_equal. lia.
      * symmetry. apply lookup_ge_None. rewrite length_take. lia.
Qed.
End copy_in.

(** [copy_out] removes the oldest item and returns its bytes. *)
Lemma copy_out_refines qu :
  queue_wf qu → 0 < q_count qu →
  ∃ out qu', copy_out qu = Some (out, qu') ∧ queue_wf qu' ∧
    items qu = out :: items qu' ∧ Z.of_nat (length out) = item_size qu ∧
    capacity qu' = capacity qu ∧ item_size qu' = item_size qu ∧
    q_count qu' = q_count qu - 1.
Proof.
  intros Hwf Hc. pose proof (wf_count _ Hwf) as Hcnt.
  pose proof (wf_item_size _ Hwf). pose proof (wf_capacity _ Hwf).
  pose proof (wf_head _ Hwf ltac:(lia)) as Hh.
  destruct (slot_bytes qu (q_head qu) Hwf Hh) as (?&?&?).
  unfold copy_out, read_bytes. rewrite !(u32_small (q_head qu * _)) by lia.
  rewrite bool_decide_eq_true_2 by lia. cbn [mbind option_bind].
  unfold c_mod. rewrite (proj2 (Z.eqb_neq _ 0)), !u32_small by lia. cbn [mbind option_bind].
  do 2 eexists. split; [done|]. split; [|split; [|split; [|done]]].
  - destruct Hwf. split; simpl; try done; try lia.
    + intros _. apply Z.mod_pos_bound. lia.
    + intros ?. rewrite wf_tail0 by done. rewrite Zplus_mod_idemp_l. f_equal. lia.
  - unfold items. cbn [q_count q_head capacity].
    replace (Z.to_nat (q_count qu)) with (S (Z.to_nat (q_count qu - 1))) by lia.
    cbn [seq fmap list_fmap]. f_equal.
    + unfold slot. f_equal. f_equal. f_equal. f_equal. rewrite Z.mod_small; lia.
    + rewrite <- fmap_S_seq, <- list_fmap_compose. apply list_fmap_ext. intros k k' _. simpl.
      unfold slot; simpl. rewrite Zplus_mod_idemp_l. do 5 f_equal. lia.
  - rewrite length_take, length_drop. lia.
Qed.
