(* ===== verification/KernelInv.v ===== *)
(** * The invariant of the whole kernel

    The scheduler invariant, what each kind of kernel object guarantees about
    its wait lists, and the interface [KernelCall] through which the system
    model uses the calls of every object. *)
From S2P Require Import Prelude DList Kernel Port Scheduler SchedInv SchedSpec WaitList Ring.
From stdpp Require Import sorting options.
Open Scope Z_scope.

Implicit Types (L : gmap nid (list nid)) (n h : nid) (t u : nat) (s : kstate)
  (c : nimble_tcb) (ws : list nid).

(** An unlocked mutex has no waiters; the owner of a locked one exists and
    does not wait for it. *)
Record mutex_ok s L (m : nat) (mu : nimble_mutex) : Prop := {
  mo_list : is_Some (L !! NMutex m);
  mo_count : 0 ≤ lock_count mu < 2 ^ 32;
  mo_free : owner mu = None → get_list L (NMutex m) = [];
  mo_owner o : owner mu = Some o →
    is_Some (tcbs s !! o) ∧ NEvent o ∉ get_list L (NMutex m);
}.

(** A semaphore with waiters has no units left. *)
Record sem_ok L (x : nat) (sem : nimble_semaphore) : Prop := {
  so_list : is_Some (L !! NSem x);
  so_max : 0 ≤ max_count sem < 2 ^ 32;
  so_count : 0 ≤ count sem ≤ max_count sem;
  so_waiters : get_list L (NSem x) ≠ [] → count sem = 0;
}.

Record queue_ok L (q : nat) (qu : nimble_queue) : Prop := {
  qo_recv : is_Some (L !! NQRecv q);
  qo_send : is_Some (L !! NQSend q);
  qo_wf : queue_wf qu;
}.

Record objects_ok s L : Prop := {
  oo_mutex m mu : mutexes s !! m = Some mu → mutex_ok s L m mu;
  oo_sem x sem : semaphores s !! x = Some sem → sem_ok L x sem;
  oo_queue q qu : queues s !! q = Some qu → queue_ok L q qu;
}.

Section invariant.
Context {M : Mode} {X : Stale}.

(** Everything but the objects, which are out of step inside a call. *)
Record kernel_core s L : Prop := {
  ki_sched : sched_inv None s L;
  ki_cur t : nimble_current_tcb s = Some t → is_Some (tcbs s !! t);
  ki_idle : ∃ c, tcbs s !! idle_tcb = Some c ∧
    (state c = NIMBLE_TASK_READY ∨ state c = NIMBLE_TASK_RUNNING);
  ki_base t c : tcbs s !! t = Some c → 0 ≤ base_priority c < 32;
  ki_sorted h : ordered = true → is_wait h = true → wait_sorted s (get_list L h);
}.
Record kernel_inv s L : Prop := {
  ki_core : kernel_core s L;
  ki_objects : objects_ok s L;
}.

Lemma kernel_runnable s L : kernel_core s L → runnable s.
Proof. intros HI. destruct (ki_idle _ _ HI) as (c&?&?). by exists idle_tcb, c. Qed.
End invariant.

(** ** Lists that only lose waiters *)

(** [L'] and [s'] have the same heads and tasks, and every wait list keeps a
    sublist of its waiters, in order. *)
Record shrunk s L s' L' : Prop := {
  sh_heads h : is_Some (L !! h) → is_Some (L' !! h);
  sh_tcbs t : is_Some (tcbs s !! t) → is_Some (tcbs s' !! t);
  sh_wait h : is_wait h = true → sublist (get_list L' h) (get_list L h);
  sh_prio h n : is_wait h = true → n ∈ get_list L' h → prio_of s' n = prio_of s n;
}.

Lemma sublist_nil_r' {A} (l : list A) : sublist l [] → l = [].
Proof. intros H. by apply sublist_nil_r in H. Qed.

Lemma shrunk_elem s L s' L' h n :
  shrunk s L s' L' → is_wait h = true → n ∈ get_list L' h → n ∈ get_list L h.
Proof. intros Hs Hw. apply sublist_subseteq, (sh_wait _ _ _ _ Hs h Hw). Qed.

Lemma shrunk_mutex s L s' L' m mu :
  shrunk s L s' L' → mutex_ok s L m mu → mutex_ok s' L' m mu.
Proof.
  intros Hs [Hl Hc Hf Ho]. split.
  - by eapply sh_heads.
  - done.
  - intros E. apply sublist_nil_r'. rewrite <- (Hf E). by apply (sh_wait _ _ _ _ Hs).
  - intros o E. destruct (Ho o E) as [? Hn]. split; [by eapply sh_tcbs|].
    intros Hin. by eapply Hn, shrunk_elem.
Qed.

Lemma shrunk_sem s L s' L' x sem :
  shrunk s L s' L' → sem_ok L x sem → sem_ok L' x sem.
Proof.
  intros Hs [Hl Hm Hc Hw]. split; [by eapply sh_heads|done|done|].
  intros Hne. apply Hw. intros E. apply Hne. apply sublist_nil_r'. rewrite <- E.
  by apply (sh_wait _ _ _ _ Hs).
Qed.

Lemma shrunk_queue s L s' L' q qu :
  shrunk s L s' L' → queue_ok L q qu → queue_ok L' q qu.
Proof. intros Hs [? ? ?]. split; [by eapply sh_heads|by eapply sh_heads|done]. Qed.

Lemma shrunk_objects s L s' L' :
  shrunk s L s' L' → mutexes s' = mutexes s → semaphores s' = semaphores s →
  queues s' = queues s → objects_ok s L → objects_ok s' L'.
Proof.
  intros Hs Em Es Eq [HM HS HQ]. split; rewrite ?Em, ?Es, ?Eq; intros.
  - by eapply shrunk_mutex, HM.
  - by eapply shrunk_sem, HS.
  - by eapply shrunk_queue, HQ.
Qed.

Lemma StronglySorted_sublist {A} (R : relation A) (l k : list A) :
  sublist l k → StronglySorted R k → StronglySorted R l.
Proof.
  induction 1 as [|x l k Hlk IH|x l k Hlk IH]; intros Hs; [done|..];
    apply StronglySorted_inv in Hs as [Hs Hx]; [|auto].
  constructor; [auto|]. rewrite Forall_forall in *. intros y Hy. apply Hx.
  by eapply sublist_subseteq.
Qed.

Lemma wait_sorted_ext s s' ws :
  (∀ n, n ∈ ws → prio_of s' n = prio_of s n) → wait_sorted s ws → wait_sorted s' ws.
Proof.
  unfold wait_sorted. induction ws as [|w ws IH]; intros Heq Hs; [constructor|].
  apply StronglySorted_inv in Hs as [Hs Hw]. constructor.
  - apply IH; [|done]. intros n Hn. apply Heq. by right.
  - rewrite Forall_forall in *. intros n Hn. rewrite !Heq by set_solver. by apply Hw.
Qed.

Lemma shrunk_sorted s L s' L' h :
  shrunk s L s' L' → is_wait h = true → wait_sorted s (get_list L h) →
  wait_sorted s' (get_list L' h).
Proof.
  intros Hs Hw Hsort. eapply wait_sorted_ext; [intros n Hn; by eapply sh_prio|].
  eapply StronglySorted_sublist; [by apply (sh_wait _ _ _ _ Hs)|done].
Qed.

Lemma shrunk_refl s L : shrunk s L s L.
Proof. by split. Qed.

Lemma shrunk_trans s1 L1 s2 L2 s3 L3 :
  shrunk s1 L1 s2 L2 → shrunk s2 L2 s3 L3 → shrunk s1 L1 s3 L3.
Proof.
  intros H12 H23. split.
  - intros h ?. by eapply sh_heads, sh_heads.
  - intros t ?. by eapply sh_tcbs, sh_tcbs.
  - intros h Hw. etrans; [by apply (sh_wait _ _ _ _ H23)|by apply (sh_wait _ _ _ _ H12)].
  - intros h n Hw Hn. rewrite (sh_prio _ _ _ _ H23 h) by done.
    eapply sh_prio; [done..|]. by eapply shrunk_elem.
Qed.

(** The usual case: no priority changes. *)
Lemma shrunk_intro s L s' L' :
  (∀ u, priority <$> tcbs s' !! u = priority <$> tcbs s !! u) →
  (∀ h, is_Some (L !! h) → is_Some (L' !! h)) →
  (∀ h, is_wait h = true → sublist (get_list L' h) (get_list L h)) →
  shrunk s L s' L'.
Proof.
  intros Hp Hh Hw. split; [done| |done|].
  - intros t. specialize (Hp t). destruct (tcbs s' !! t), (tcbs s !! t); simpl in Hp;
      try done; intros [??]; done.
  - intros h n _ _. unfold prio_of. destruct n as [| |t|t| | | | | |]; try done;
      specialize (Hp t); destruct (tcbs s' !! t), (tcbs s !! t); simpl in Hp; congruence.
Qed.

Lemma upd_same_prio (T : gmap nat nimble_tcb) t c c' u :
  T !! t = Some c → priority c' = priority c →
  priority <$> <[t := c']> T !! u = priority <$> T !! u.
Proof.
  intros Ht Hp. destruct (decide (u = t)) as [->|].
  - rewrite lookup_insert_eq, Ht. simpl. by rewrite Hp.
  - by rewrite lookup_insert_ne.
Qed.

Lemma sublist_without n ws : sublist (without n ws) ws.
Proof. apply sublist_filter. Qed.

(** What the moves of the scheduler do to a wait list. *)
Lemma wait_L_ready t p L h :
  is_wait h = true → get_list (L_ready t p L) h = get_list L h.
Proof. intros Hw. rewrite get_list_L_ready, decide_False; [done|]. by destruct h. Qed.

Lemma wait_L_delayed t L h :
  is_wait h = true → get_list (L_delayed t L) h = get_list L h.
Proof.
  intros Hw. unfold get_list, L_delayed. rewrite lookup_insert_ne; [done|]. by destruct h.
Qed.

Lemma wait_detach n L h : get_list (detach n L) h = without n (get_list L h).
Proof. unfold get_list, detach. rewrite lookup_fmap. by destruct (L !! h). Qed.

Lemma wait_requeue s L h :
  is_wait h = true → get_list (requeue_lists s L) h = get_list L h.
Proof.
  intros Hw. unfold requeue_lists. destruct (nimble_current_tcb s) as [t|]; [|done].
  destruct (tcbs s !! t); [|done]. case_decide; [|done]. by apply wait_L_ready.
Qed.

Lemma requeue_prio s u : priority <$> requeue_tcbs s !! u = priority <$> tcbs s !! u.
Proof.
  unfold requeue_tcbs. destruct (nimble_current_tcb s) as [t|]; [|done].
  destruct (tcbs s !! t) eqn:Et; [|done]. case_decide; [|done]. by eapply upd_same_prio.
Qed.

Lemma requeue_heads {M : Mode} {X : Stale} hole s L h :
  sched_inv hole s L → is_Some (requeue_lists s L !! h) ↔ is_Some (L !! h).
Proof.
  intros HI. unfold requeue_lists. destruct (nimble_current_tcb s) as [t|]; [|done].
  destruct (tcbs s !! t) eqn:Et; [|done]. case_decide; [|done].
  apply is_Some_L_ready, (si_ready _ _ _ HI). by eapply si_prio.
Qed.

(** ** What a call leaves alone *)

Record framed s s' : Prop := {
  fr_cur : nimble_current_tcb s' = nimble_current_tcb s;
  fr_pendsv : pendsv s' = pendsv s;
  fr_basepri : basepri s' = basepri s;
  fr_tick : g_tick_count s' = g_tick_count s;
  fr_timers : timers s' = timers s;
  fr_tcbs t : is_Some (tcbs s' !! t) ↔ is_Some (tcbs s !! t);
  fr_mutexes m : is_Some (mutexes s' !! m) ↔ is_Some (mutexes s !! m);
  fr_sems x : is_Some (semaphores s' !! x) ↔ is_Some (semaphores s !! x);
  fr_queues q : item_size <$> queues s' !! q = item_size <$> queues s !! q;
}.
#[export] Instance framed_refl : Reflexive framed.
Proof. by split. Qed.
#[export] Instance framed_trans : Transitive framed.
Proof. intros s1 s2 s3 [] []. split; try congruence; naive_solver. Qed.

Lemma is_Some_upd {A} (T : gmap nat A) t (v : A) u :
  is_Some (T !! t) → is_Some (<[t := v]> T !! u) ↔ is_Some (T !! u).
Proof.
  intros [w Hw]. destruct (decide (u = t)) as [->|].
  - rewrite lookup_insert_eq, Hw. split; eauto.
  - by rewrite lookup_insert_ne.
Qed.

(** The running task: current, RUNNING and not the idle task. *)
Record caller s t c : Prop := {
  ca_cur : nimble_current_tcb s = Some t;
  ca_tcb : tcbs s !! t = Some c;
  ca_state : state c = NIMBLE_TASK_RUNNING;
  ca_not_idle : t ≠ idle_tcb;
}.

(** ** Effects of the scheduler's operations on the invariant *)

Section effects.
Context {M : Mode} {X : Stale}.

Lemma core_basepri s L b : kernel_core s L → kernel_core (set_basepri b s) L.
Proof. intros [HI ? ? ? ?]. split; try done. destruct HI. split; done. Qed.
Lemma objects_basepri s L b : objects_ok s L → objects_ok (set_basepri b s) L.
Proof.
  intros [HM HS HQ]. split; [|done..]. intros m mu Hm. by destruct (HM m mu Hm).
Qed.

(** The idle task keeps running when some other task's TCB is replaced. *)
Lemma idle_upd (T : gmap nat nimble_tcb) t c' :
  t ≠ idle_tcb ∨ state c' = NIMBLE_TASK_READY ∨ state c' = NIMBLE_TASK_RUNNING →
  (∃ c, T !! idle_tcb = Some c ∧
     (state c = NIMBLE_TASK_READY ∨ state c = NIMBLE_TASK_RUNNING)) →
  ∃ c, <[t := c']> T !! idle_tcb = Some c ∧
    (state c = NIMBLE_TASK_READY ∨ state c = NIMBLE_TASK_RUNNING).
Proof.
  intros Ht (c&Hc&Hs). destruct (decide (t = idle_tcb)) as [->|].
  - exists c'. rewrite lookup_insert_eq. destruct Ht as [?|?]; [done|eauto].
  - exists c. by rewrite lookup_insert_ne.
Qed.

(** The shape of every scheduler effect: one TCB replaced, lists relinked. *)
Lemma core_intro s L s' L' t c c' (Y : Z → Prop) :
  kernel_core s L → tcbs s !! t = Some c → sched_inv (X := Y) None s' L' →
  tcbs s' = <[t := c']> (tcbs s) → nimble_current_tcb s' = nimble_current_tcb s →
  priority c' = priority c → base_priority c' = base_priority c →
  t ≠ idle_tcb ∨ state c' = NIMBLE_TASK_READY ∨ state c' = NIMBLE_TASK_RUNNING →
  (∀ h, ordered = true → is_wait h = true → wait_sorted s' (get_list L' h)) →
  kernel_core (X := Y) s' L'.
Proof.
  intros [HI Hcur Hidle Hbase _] Ht HI' ET Ec Hp Hb Hid Hsort.
  split; [done| | | |done].
  - intros u. rewrite Ec, ET, is_Some_upd by eauto. apply Hcur.
  - rewrite ET. by apply idle_upd.
  - intros u cu. rewrite ET. intros [[<- <-]|[? ?]]%lookup_insert_Some; [|by eapply Hbase].
    rewrite Hb. by eapply Hbase.
Qed.

(** [nimble_scheduler_wake_waiter], as the objects see it. *)
Definition woken_from s L h (r : option tid) s' L' : Prop :=
  match r with
  | None => get_list L h = [] ∧ s' = s ∧ L' = L
  | Some w => ∃ ws c, get_list L h = NEvent w :: ws ∧ get_list L' h = ws ∧
      tcbs s !! w = Some c ∧ state c = NIMBLE_TASK_BLOCKED ∧
      tcbs s' = <[w := set_woken NIMBLE_OK c]> (tcbs s) ∧
      (∀ h', is_wait h' = true → h' ≠ h → get_list L' h' = get_list L h') ∧
      L' = L_ready w (priority c) (L_detach w L)
  end.

Definition same_objects s s' : Prop :=
  mutexes s' = mutexes s ∧ semaphores s' = semaphores s ∧ queues s' = queues s.

Lemma core_wake s L h :
  kernel_core s L → is_wait h = true → is_Some (L !! h) →
  wp (nimble_scheduler_wake_waiter h)
    (λ r s', ∃ L', kernel_core s' L' ∧ shrunk s L s' L' ∧ same_objects s s' ∧
       framed s s' ∧ woken_from s L h r s' L') s.
Proof.
  intros HC Hw [ws Hh]. pose proof (ki_sched _ _ HC) as HI.
  destruct ws as [|n ws].
  { eapply wp_eq; [by eapply wake_waiter_empty|]. exists L. split; [done|].
    split; [apply shrunk_refl|]. do 2 (split; [done|]). split; [|done].
    by apply get_list_eq. }
  destruct (wake_waiter_head _ _ _ _ _ HI Hw Hh) as (t&c&->&Ht&Hs&Hwp).
  eapply wp_mono; [exact Hwp|]. cbn beta. intros r s' (->&[m' ->]&HI').
  assert (is_Some (L_detach t L !! NReady (priority c))) as Hpr.
  { apply is_Some_L_detach, (si_ready _ _ _ HI). by apply (si_prio _ _ _ HI t). }
  eexists. assert (shrunk s L (set_ready_bitmap (Z.lor (ready_bitmap s) (1 ≪ priority c))
    (set_nodes m' (set_tcbs (<[t:=set_woken NIMBLE_OK c]> (tcbs s)) s)))
    (L_ready t (priority c) (L_detach t L))) as Hsh.
  { apply shrunk_intro.
    - intros u. simpl. by eapply upd_same_prio.
    - intros h' ?. rewrite is_Some_L_ready by done. by apply is_Some_L_detach.
    - intros h' Hw'. rewrite wait_L_ready, get_list_L_detach by done.
      etrans; apply sublist_without. }
  split; [|split; [exact Hsh|split; [done|split]]].
  - eapply core_intro; try done; [by right; left|]. intros h' Hord Hw'.
    eapply shrunk_sorted; [done..|]. by eapply ki_sorted.
  - split; try done. intros u. simpl. apply is_Some_upd. eauto.
  - exists ws, c. split; [by apply get_list_eq|]. split; [|do 3 (split; [done|])].
    2: { split; [|done]. intros h' Hw' Hne. rewrite wait_L_ready, get_list_L_detach by done.
      rewrite (without_id (NLink t)), (without_id (NEvent t)); [done|..];
        apply not_elem_get_list; intros Hon.
      - apply Hne. eapply on_unique; [apply HI|done|]. exists (NEvent t :: ws). split; [done|left].
      - apply (si_typed _ _ _ HI) in Hon. by destruct h'. }
    rewrite wait_L_ready, get_list_L_detach, (get_list_eq _ _ _ Hh) by done.
    pose proof (repr_nodup _ _ (si_repr _ _ _ HI) _ _ Hh) as Hnd.
    rewrite (without_id (NLink t)).
    + apply (without_split _ []). done.
    + intros Hin. assert (on L h (NLink t)) as Hon by by exists (NEvent t :: ws).
      apply (si_typed _ _ _ HI) in Hon. by destruct h.
Qed.

(** A blocking call: the running task queues itself on [h] and blocks. *)
Definition blocked_on s L h t c timeout s' L' : Prop :=
  get_list L' h = insert_by s (priority c) (NEvent t) (get_list L h) ∧
  (∀ h', is_wait h' = true → h' ≠ h → get_list L' h' = get_list L h') ∧
  (∀ h', is_Some (L' !! h') ↔ is_Some (L !! h')) ∧
  tcbs s' = <[t := blocked_tcb (g_tick_count s) timeout c]> (tcbs s) ∧
  L' = L_blocked t timeout (<[h := insert_by s (priority c) (NEvent t) (get_list L h)]> L).

Lemma blocked_tcb_fields now timeout c :
  priority (blocked_tcb now timeout c) = priority c ∧
  base_priority (blocked_tcb now timeout c) = base_priority c.
Proof. unfold blocked_tcb. by destruct (_ =? _). Qed.

Lemma get_list_L_blocked t timeout L h :
  is_wait h = true → get_list (L_blocked t timeout L) h = get_list L h.
Proof. intros Hw. unfold L_blocked. destruct (_ =? _); [done|by apply wait_L_delayed]. Qed.

Lemma core_block {A} s L h t c timeout (k : K A) Q :
  kernel_core s L → caller s t c → is_wait h = true → is_Some (L !! h) →
  (∀ s' L', kernel_core (X := less_stale (priority c) X) s' L' → same_objects s s' → framed s s' →
            blocked_on s L h t c timeout s' L' → wp k Q s') →
  wp (insert_waiter_priority_sorted h t ;; nimble_scheduler_prepare_block t timeout ;; k) Q s.
Proof.
  intros HC [Hcur Ht Hs Hid] Hw Hh Hk. pose proof (ki_sched _ _ HC) as HI.
  apply get_list_Some in Hh. set (ws := get_list L h) in *.
  assert (unlinked (NLink t) L) as Hul by (eapply link_unlinked; [done..|congruence|congruence]).
  assert (unlinked (NEvent t) L) as Hue by (eapply event_unlinked; [done..|congruence]).
  destruct (insert_by_split s (priority c) ws) as (ws1&ws2&Hws&Hins).
  wp_step. wp_apply insert_waiter_spec; [by apply sched_inv_open|done..|].
  intros _ s1 [[m1 ->] HI1]. rewrite Hins in HI1.
  set (L1 := <[h := ws1 ++ NEvent t :: ws2]> L) in *.
  assert (L !! h = Some (ws1 ++ ws2)) as Hh' by by rewrite <- Hws.
  wp_step. wp_apply prepare_block_spec; [exact HI1|done|by eapply raised| |exact Hw| |].
  { apply unlinked_on. intros h'. unfold L1. rewrite on_insert by done.
    rewrite unlinked_on in Hul. intros [[_ ?]|?]; [done|by eapply Hul]. }
  { unfold L1. rewrite on_insert by done. by left. }
  intros _ s2 [(m2&b2&->) HI2]. simpl in *.
  destruct (blocked_tcb_fields (g_tick_count s) timeout c) as [Ep Eb].
  assert (blocked_on s L h t c timeout
    (set_ready_bitmap b2 (set_nodes m2 (set_tcbs (<[t:=blocked_tcb (g_tick_count s) timeout c]>
       (tcbs s)) (set_nodes m1 s)))) (L_blocked t timeout L1)) as Hbl.
  { split; [|split; [|split; [|split; [done|by rewrite Hins]]]].
    - rewrite get_list_L_blocked by done. unfold L1. fold ws. rewrite Hins.
      apply get_list_eq, lookup_insert_eq.
    - intros h' Hw' Hne. rewrite get_list_L_blocked by done. unfold L1, get_list.
      by rewrite lookup_insert_ne.
    - intros h'. unfold L_blocked. destruct (_ =? _); [by eapply is_Some_insert_same|].
      unfold L_delayed. trans (is_Some (L1 !! h')); [|by eapply is_Some_insert_same].
      eapply is_Some_insert_same, get_list_Some, HI1. }
  eapply Hk; [|done| |exact Hbl].
  - eapply core_intro; try done; [by left|]. intros h' Hord Hw'.
    assert (∀ n, prio_of (set_ready_bitmap b2 (set_nodes m2 (set_tcbs
        (<[t:=blocked_tcb (g_tick_count s) timeout c]> (tcbs s)) (set_nodes m1 s)))) n
      = prio_of s n) as Hprio.
    { intros n. unfold prio_of; simpl. destruct n as [| |u|u| | | | | |]; try done;
        destruct (decide (u = t)) as [->|]; by simplify_map_eq. }
    apply (wait_sorted_ext s); [auto|].
    destruct (decide (h' = h)) as [->|Hne].
    + rewrite (proj1 Hbl). apply insert_by_sorted; [unfold prio_of; by rewrite Ht|].
      by eapply ki_sorted.
    + rewrite (proj1 (proj2 Hbl)) by done. by eapply ki_sorted.
  - split; try done. intros u. simpl. apply is_Some_upd. eauto.
Qed.

(** Unlinking the event node of the running task changes nothing. *)
Lemma core_remove_event s L t c :
  kernel_core s L → caller s t c →
  wp (on_nodes (nimble_list_remove (NEvent t)))
    (λ _ s', (∃ m', s' = set_nodes m' s) ∧ kernel_core s' L) s.
Proof.
  intros HC [Hcur Ht Hs Hid]. pose proof (ki_sched _ _ HC) as HI.
  assert (unlinked (NEvent t) L) as Hue by (eapply event_unlinked; [done..|congruence]).
  wp_apply (hole_remove_event t); [by apply sched_inv_open|eauto|].
  intros _ s' [[m' ->] HI']. split; [eauto|]. rewrite detach_unlinked in HI' by done.
  assert (sched_inv None (set_nodes m' s) L) as HI1.
  { eapply sched_inv_close; [done|done|]. by apply (si_task _ _ _ HI). }
  destruct HC as [_ ? ? ? ?]. by split.
Qed.

(** Replacing the priority of a task: of the running task, or a raise.  A raised
    task stays where it is, so in an exact mode it must not be READY, and in
    an ordered one it must not wait. *)
Lemma core_set_priority s L t c p :
  kernel_core s L → tcbs s !! t = Some c → base_priority c ≤ p < 32 →
  state c ≠ NIMBLE_TASK_READY ∨ exact = false ∧ priority c ≤ p →
  (ordered = true → unlinked (NEvent t) L) →
  kernel_core (set_tcbs (<[t := set_priority p c]> (tcbs s)) s) L.
Proof.
  intros [HI Hcur Hidle Hbase Hsort] Ht Hp Hs Hu.
  split; simpl.
  - apply (sched_inv_close t _ _ (set_priority p c)); [|apply lookup_insert_eq|].
    + eapply hole_upd_tcb; [by apply sched_inv_open|done|]. specialize (Hbase t c Ht). simpl. lia.
    + destruct (si_task _ _ _ HI _ _ Ht ltac:(done)) as [Hr ? ? ? ? ? ? ?].
      split; simpl; try done; [|lia]. intros p' Hon. destruct (Hr p' Hon) as [? [Hh Hx]].
      split; [done|]. destruct Hs as [?|[Hex Hle]]; [done|]. split; simpl; [lia|congruence].
  - intros u Hu'. apply is_Some_upd; eauto.
  - apply idle_upd; [|done]. destruct (decide (t = idle_tcb)) as [->|]; [|by left].
    right. destruct Hidle as (ci&Hci&Hsi). simplify_eq. done.
  - intros u cu [[<- <-]|[? ?]]%lookup_insert_Some; [|by eapply Hbase].
    by apply (Hbase t c).
  - intros h Hord Hw. eapply wait_sorted_ext; [|by apply Hsort]. intros n Hn.
    unfold prio_of; simpl. specialize (Hu Hord). apply elem_of_get_list in Hn as Hon.
    assert (n ≠ NEvent t) as Hne by (intros ->; by eapply (proj1 (unlinked_on _ _) Hu h)).
    assert (n ≠ NLink t) as Hne' by (intros ->; apply (si_typed _ _ _ HI) in Hon; by destruct h).
    destruct n as [| |u|u| | | | | |]; try done; rewrite lookup_insert_ne; congruence.
Qed.

Lemma set_basepri_id b s : set_basepri (basepri s) (set_basepri b s) = s.
Proof. by destruct s. Qed.

Lemma wp_enter (Q : Z → kstate → Prop) s :
  Q (basepri s) (set_basepri NIMBLE_KERNEL_SYSCALL_BASEPRI s) →
  wp nimble_port_enter_critical Q s.
Proof. done. Qed.

Lemma wp_exit b (Q : unit → kstate → Prop) s :
  Q tt (set_basepri b s) → wp (nimble_port_exit_critical b) Q s.
Proof. done. Qed.

Lemma kernel_inv_basepri s L b : kernel_inv s L → kernel_inv (set_basepri b s) L.
Proof. intros [? ?]. split; [by apply core_basepri|by apply objects_basepri]. Qed.

Lemma framed_basepri s s' b : framed (set_basepri b s) s' → framed s (set_basepri (basepri s) s').
Proof. intros []. by split. Qed.

Lemma shrunk_mono_basepri s L s' L' b b' :
  shrunk (set_basepri b s) L s' L' → shrunk s L (set_basepri b' s') L'.
Proof. intros []. by split. Qed.

Lemma caller_basepri s t c b : caller s t c → caller (set_basepri b s) t c.
Proof. intros []. by split. Qed.

(** A task that a wake-up moves was BLOCKED, so it is not the caller. *)
Lemma caller_other s s' t c u cu :
  caller s t c → framed s s' → tcbs s' = <[u := cu]> (tcbs s) → u ≠ t → caller s' t c.
Proof.
  intros [Hcur Ht Hs Hid] Hf ET Hne. split; [by rewrite (fr_cur _ _ Hf)| |done..].
  rewrite ET. by rewrite lookup_insert_ne.
Qed.

(** A running task is not touched, and stays current. *)
Definition runners_kept s s' : Prop :=
  nimble_current_tcb s' = nimble_current_tcb s ∧
  ∀ t c, tcbs s !! t = Some c → state c = NIMBLE_TASK_RUNNING → tcbs s' !! t = Some c.
#[export] Instance runners_kept_refl : Reflexive runners_kept.
Proof. by split. Qed.
#[export] Instance runners_kept_trans : Transitive runners_kept.
Proof. intros s1 s2 s3 [E1 H1] [E2 H2]. split; [congruence|eauto]. Qed.

Lemma caller_kept s s' t c : runners_kept s s' → caller s t c → caller s' t c.
Proof. intros [Ec Hr] [Hcur Ht Hs Hid]. split; [congruence|auto|done|done]. Qed.

Lemma woken_runners s L h r s' L' :
  framed s s' → woken_from s L h r s' L' → runners_kept s s'.
Proof.
  intros Hf Hw. split; [apply Hf|]. intros t c Ht Hr.
  destruct r as [w|]; [|by destruct Hw as (_&->&_)].
  destruct Hw as (ws&cw&_&_&Hw&Hs&ET&_). rewrite ET, lookup_insert_ne; [done|].
  intros ->. congruence.
Qed.

(** ** The objects' structures *)

(** The invariant looks only at the scheduler's part of the state. *)
Lemma sched_ext hole s s' L :
  nodes s' = nodes s → tcbs s' = tcbs s → ready_bitmap s' = ready_bitmap s →
  nimble_current_tcb s' = nimble_current_tcb s → timers s' = timers s →
  sched_inv hole s L → sched_inv hole s' L.
Proof.
  intros En Et Eb Ec Ex [? Hty]. split; rewrite ?En, ?Et, ?Eb, ?Ec; try done.
  intros h n Hon. specialize (Hty h n Hon). unfold typed in *. by rewrite Et, Ex.
Qed.

Lemma core_ext s s' L :
  nodes s' = nodes s → tcbs s' = tcbs s → ready_bitmap s' = ready_bitmap s →
  nimble_current_tcb s' = nimble_current_tcb s → timers s' = timers s →
  kernel_core s L → kernel_core s' L.
Proof.
  intros En Et Eb Ec Ex [HI Hcur Hidle Hbase Hsort].
  split; [by eapply sched_ext| | | |]; rewrite ?Et, ?Ec; try done.
  intros h Hord Hw. eapply wait_sorted_ext; [|by apply Hsort]. intros n _.
  unfold prio_of. by rewrite Et.
Qed.

Lemma core_put_mutex s L v : kernel_core s L → kernel_core (set_mutexes v s) L.
Proof. by apply core_ext. Qed.
Lemma core_put_semaphore s L v : kernel_core s L → kernel_core (set_semaphores v s) L.
Proof. by apply core_ext. Qed.
Lemma core_put_queue s L v : kernel_core s L → kernel_core (set_queues v s) L.
Proof. by apply core_ext. Qed.

Lemma put_mutex_objects s L m v :
  objects_ok s L → mutex_ok s L m v →
  objects_ok (set_mutexes (<[m := v]> (mutexes s)) s) L.
Proof.
  intros [HM HS HQ] Hv. split; [|done..]. intros m' mu'. simpl. intros [[<- <-]|[? Hm]]%lookup_insert_Some.
  - by destruct Hv.
  - by destruct (HM m' mu' Hm).
Qed.

Lemma put_semaphore_objects s L x v :
  objects_ok s L → sem_ok L x v →
  objects_ok (set_semaphores (<[x := v]> (semaphores s)) s) L.
Proof.
  intros [HM HS HQ] Hv. split; simpl; [|intros x' sem [[<- <-]|[? Hx]]%lookup_insert_Some; eauto|done].
  intros m mu Hm. by destruct (HM m mu Hm).
Qed.

Lemma put_queue_objects s L q v :
  objects_ok s L → queue_ok L q v →
  objects_ok (set_queues (<[q := v]> (queues s)) s) L.
Proof.
  intros [HM HS HQ] Hv. split; simpl; [|done|intros q' qu [[<- <-]|[? Hx]]%lookup_insert_Some; eauto].
  intros m mu Hm. by destruct (HM m mu Hm).
Qed.

(** A wake-up, on the whole invariant. *)
Definition wake_outcome s L h (woken : bool) s' L' : Prop :=
  match get_list L h with
  | [] => woken = false ∧ L' = L ∧ tcbs s' = tcbs s
  | NEvent w :: ws => woken = true ∧ get_list L' h = ws ∧
      (∀ h', is_wait h' = true → h' ≠ h → get_list L' h' = get_list L h') ∧
      ∃ cw, tcbs s !! w = Some cw ∧ state cw = NIMBLE_TASK_BLOCKED ∧
        tcbs s' = <[w := set_woken NIMBLE_OK cw]> (tcbs s) ∧
        L' = L_ready w (priority cw) (L_detach w L)
  | _ => False
  end.

Lemma inv_wake s L h :
  kernel_inv s L → is_wait h = true → is_Some (L !! h) →
  wp (nimble_scheduler_wake_waiter h)
    (λ r s', ∃ L', kernel_inv s' L' ∧ framed s s' ∧ same_objects s s' ∧
       runners_kept s s' ∧
       wake_outcome s L h (bool_decide (is_Some r)) s' L') s.
Proof.
  intros [HC HO] Hw Hh. wp_apply core_wake; [done..|].
  intros r s' (L'&HC'&Hsh&Hobj&Hfr&Hwk). exists L'. pose proof Hobj as (Em&Es&Eq).
  split; [split; [done|by eapply shrunk_objects]|]. do 2 (split; [done|]).
  split; [by eapply woken_runners|]. unfold wake_outcome. destruct r as [w|].
  - destruct Hwk as (ws&cw&->&El'&Hcw&Hsw&ET&Hoth&EL). do 3 (split; [done|]). by exists cw.
  - by destruct Hwk as (->&->&->).
Qed.

(** The bits that may be stale after a call of the running task: one that
    blocks settles the bit of its priority. *)
Definition settled {A} c (r : option A) (Y : Z → Prop) : Stale :=
  match r with Some _ => Y | None => less_stale (priority c) Y end.

(** The object on whose list [t] may queue itself: a mutex somebody else
    owns, a semaphore without units. *)
Definition may_wait s h t : Prop :=
  match h with
  | NMutex m => ∀ mu, mutexes s !! m = Some mu → owner mu ≠ None ∧ owner mu ≠ Some t
  | NSem x => ∀ sem, semaphores s !! x = Some sem → count sem = 0
  | _ => True
  end.

Lemma blocked_objects s L h t c timeout s' L' :
  objects_ok s L → tcbs s !! t = Some c →
  same_objects s s' → blocked_on s L h t c timeout s' L' → may_wait s h t →
  objects_ok s' L'.
Proof.
  intros [HM HS HQ] Ht (Em&Es&Eq) (Hl&Hother&Hheads&ET&_) Hmay.
  split; rewrite ?Em, ?Es, ?Eq.
  - intros m mu Hm. destruct (HM m mu Hm) as [Hl1 Hc1 Hf1 Ho1].
    assert (∀ o, is_Some (tcbs s !! o) → is_Some (tcbs s' !! o)) as Htcb.
    { intros o. rewrite ET, is_Some_upd; eauto. }
    destruct (decide (NMutex m = h)) as [<-|Hne].
    + destruct (Hmay mu Hm). split; [by rewrite Hheads|done|done|].
      intros o Eo. destruct (Ho1 o Eo) as [? Hno]. split; [auto|]. rewrite Hl, insert_by_perm.
      rewrite not_elem_of_cons. split; [congruence|done].
    + split; [by rewrite Hheads|done|..]; rewrite Hother by done; [done|].
      intros o Eo. destruct (Ho1 o Eo). auto.
  - intros x sem Hx. destruct (HS x sem Hx).
    split; [by rewrite Hheads|done|done|]. destruct (decide (NSem x = h)) as [<-|Hne].
    + intros _. by apply (Hmay sem).
    + by rewrite Hother.
  - intros q qu Hq. destruct (HQ q qu Hq). by split; rewrite ?Hheads.
Qed.

End effects.

Lemma inv_weaken {M : Mode} (X Y : Z → Prop) s L :
  (∀ p, X p → Y p) → kernel_inv (X := X) s L → kernel_inv (X := Y) s L.
Proof. intros HY [[HI ? ? ? ?] HO]. split; [split; [by eapply sched_inv_weaken, HI|done..]|done]. Qed.

(** The invariant holds, for some lists and some stale bits. *)
Definition kernel_ok {M : Mode} s : Prop := ∃ (X : Z → Prop) L, kernel_inv (X := X) s L.

Lemma kernel_ok_intro {M : Mode} (X : Z → Prop) s L : kernel_inv (X := X) s L → kernel_ok s.
Proof. intros HI. by exists X, L. Qed.
#[export] Hint Resolve kernel_ok_intro : core.

(** ** The interface of a kernel call

    Run by the running task, where [pre] holds, the critical section of the
    call is defined, keeps the kernel invariant and leaves the caller running
    unless its result says otherwise. *)
Class KernelCall {M : Mode} {A} (op : K A) (pre : nat → kstate → Prop) (still : A → bool) : Prop :=
  kernel_call (X : Stale) s L t c :
    kernel_inv s L → caller s t c → pre t s →
    wp op (λ a s', kernel_ok s' ∧ framed s s' ∧
                   (still a = true → ∃ c', caller s' t c')) s.
