(* ===== verification/TaskSpec.v ===== *)
(** * Tasks: specification of the operations of [Task.v]

    Creation lays out the stack, the control block and the ready list; delay,
    suspend and resume move one task; the high-water mark counts the untouched
    words of the stack. *)
From S2P Require Import Prelude DList Kernel Port Scheduler SchedInv SchedSpec Task WaitList.
From S2P Require Import KernelInv.
From stdpp Require Import options.

Implicit Types (L : gmap nid (list nid)) (t u : nat) (s : kstate) (c : nimble_tcb).

(** ** Stack memory *)

(** The [n] words from address [base] on are mapped. *)
Definition mapped (r : gmap Z Z) (base n : Z) : Prop :=
  ∀ j, 0 ≤ j < n → is_Some (r !! (base + 4 * j)).

Lemma wp_store_word a v (Q : unit → kstate → Prop) s :
  is_Some (ram s !! a) → Q tt (set_ram (<[a := v]> (ram s)) s) → wp (store_word a v) Q s.
Proof. intros [w Hw] HQ. apply wp_bind. by eapply (wp_oget (λ s, ram s !! a)). Qed.

Lemma fill_canary_spec n base i s :
  (∀ j, i ≤ j < i + Z.of_nat n → is_Some (ram s !! (base + 4 * j))) →
  wp (fill_canary n base i)
    (λ _ s', ∃ r, s' = set_ram r s ∧
       (∀ j, i ≤ j < i + Z.of_nat n → r !! (base + 4 * j) = Some NIMBLE_STACK_CANARY) ∧
       (∀ a, (∀ j, i ≤ j < i + Z.of_nat n → a ≠ base + 4 * j) → r !! a = ram s !! a)) s.
Proof.
  revert i s. induction n as [|n IH]; intros i s Hm; unfold fill_canary; fold fill_canary.
  - apply wp_ret. exists (ram s). split; [by destruct s|]. split; [lia|done].
  - wp_step. apply wp_store_word; [apply Hm; lia|].
    wp_apply (IH (i + 1)).
    { intros j Hj. simpl. apply lookup_insert_is_Some'. right. apply Hm. lia. }
    intros _ s' (r&->&Hin&Hout). exists r. split; [done|]. split.
    + intros j Hj. destruct (decide (j = i)) as [->|]; [|apply Hin; lia].
      rewrite Hout by lia. apply lookup_insert_eq.
    + intros a Ha. rewrite Hout by (intros; apply Ha; lia).
      apply lookup_insert_ne. intros E. apply (Ha i); lia.
Qed.

(** Pushing [vs] below [top]: word [k] of [vs] ends up [k + 1] words down. *)
Lemma push_words_spec vs top s :
  4 * Z.of_nat (length vs) ≤ top ≤ 2 ^ 32 →
  (∀ k, (k < length vs)%nat → is_Some (ram s !! (top - 4 * (Z.of_nat k + 1)))) →
  wp (push_words top vs)
    (λ sp s', sp = top - 4 * Z.of_nat (length vs) ∧ ∃ r, s' = set_ram r s ∧
       (∀ k v, vs !! k = Some v → r !! (top - 4 * (Z.of_nat k + 1)) = Some v) ∧
       (∀ a, (∀ k, (k < length vs)%nat → a ≠ top - 4 * (Z.of_nat k + 1)) →
             r !! a = ram s !! a)) s.
Proof.
  revert top s. induction vs as [|v vs IH]; intros top s Ht Hm; simpl in *.
  - apply wp_ret. split; [lia|]. exists (ram s). split; [by destruct s|done].
  - wp_step. unfold push_word. rewrite u32_small by lia.
    wp_step. apply wp_store_word.
    { replace (top - 4) with (top - 4 * (Z.of_nat 0 + 1)) by lia. apply Hm. lia. }
    apply wp_ret. wp_apply IH; [lia|..].
    { intros k Hk. simpl. apply lookup_insert_is_Some'. right.
      replace (top - 4 - 4 * (Z.of_nat k + 1)) with (top - 4 * (Z.of_nat (S k) + 1)) by lia.
      apply Hm. lia. }
    intros sp s' (->&r&->&Hin&Hout). split; [lia|]. exists r. split; [done|]. split.
    + intros [|k] v' Hv; simpl in Hv.
      * injection Hv as <-. rewrite Hout by lia.
        replace (top - 4 * (Z.of_nat 0 + 1)) with (top - 4) by lia. apply lookup_insert_eq.
      * replace (top - 4 * (Z.of_nat (S k) + 1)) with (top - 4 - 4 * (Z.of_nat k + 1)) by lia.
        by apply Hin.
    + intros a Ha. rewrite Hout.
      * apply lookup_insert_ne. intros E. apply (Ha 0%nat); lia.
      * intros k Hk E. apply (Ha (S k)); lia.
Qed.

Lemma canary_scan_spec fuel base words i s :
  (∀ j, i ≤ j < words → is_Some (ram s !! (base + 4 * j))) →
  (Z.to_nat (words - i) < fuel)%nat → i ≤ words →
  wp (canary_scan fuel base words i)
    (λ h s', s' = s ∧ i ≤ h ≤ words ∧
       (∀ j, i ≤ j < h → ram s !! (base + 4 * j) = Some NIMBLE_STACK_CANARY) ∧
       (h < words → ram s !! (base + 4 * h) ≠ Some NIMBLE_STACK_CANARY)) s.
Proof.
  revert i. induction fuel as [|fuel IH]; intros i Hm Hf Hi; [lia|].
  unfold canary_scan; fold canary_scan. destruct (Z.ltb_spec i words) as [Hlt|Hge].
  - wp_step. destruct (Hm i) as [w Hw]; [lia|]. unfold load_word. apply (wp_oget _ w); [done|].
    destruct (Z.eqb_spec w NIMBLE_STACK_CANARY) as [->|Hne].
    + wp_apply IH; [intros; apply Hm; lia|lia|lia|].
      intros h s' (->&Hh&Hin&Hout). split; [done|]. split; [lia|]. split; [|done].
      intros j Hj. destruct (decide (j = i)) as [->|]; [done|]. apply Hin. lia.
    + apply wp_ret. split; [done|]. split; [lia|]. split; [lia|]. congruence.
  - apply wp_ret. split; [done|]. split; [lia|]. split; [lia|]. lia.
Qed.

(** ** Names *)

Lemma measure_name_spec fuel str len max n :
  measure_name fuel str len max = Some n → (len ≤ max)%nat →
  (len ≤ n ≤ max ∧ n < length str)%nat ∧
  (∀ i, (len ≤ i < n)%nat → str !! i ≠ Some 0) ∧ (n = max ∨ str !! n = Some 0).
Proof.
  revert len. induction fuel as [|fuel IH]; intros len Hm Hl; [done|]. simpl in Hm.
  destruct (str !! len) as [b|] eqn:Eb; [|done]. simpl in Hm.
  pose proof (lookup_lt_Some _ _ _ Eb).
  destruct (Z.eqb_spec b 0) as [->|Hne]; simpl in Hm.
  - injection Hm as <-. split; [lia|]. split; [lia|by right].
  - destruct (Nat.ltb_spec len max) as [Hlt|Hge].
    + apply IH in Hm as (?&Hz&?); [|lia]. split; [lia|]. split; [|done].
      intros i Hi. destruct (decide (i = len)) as [->|]; [congruence|]. apply Hz. lia.
    + injection Hm as <-. split; [lia|]. split; [lia|left; lia].
Qed.

(** The stored name: 16 bytes, the measured prefix, zeros. *)
Lemma copy_name_spec str len :
  (len ≤ 15)%nat → (len ≤ length str)%nat →
  length (copy_name 16 str len) = 16%nat ∧ copy_name 16 str len !! 15%nat = Some 0 ∧
  take len (copy_name 16 str len) = take len str.
Proof.
  intros Hl Hs. unfold copy_name.
  split; [rewrite length_app, length_take, length_replicate; lia|]. split.
  - rewrite lookup_app_r by (rewrite length_take; lia).
    apply lookup_replicate_2. rewrite length_take. lia.
  - rewrite take_app_le by (rewrite length_take; lia). by rewrite take_take, Nat.min_id.
Qed.

Section mode.
Context {M : Mode} {X : Stale}.

(** ** Creation *)

(** A control block that the kernel does not know yet, with its two
    initialised nodes, is on no list. *)
Lemma sched_inv_add_task s L t c :
  sched_inv None s L → tcbs s !! t = None → 0 ≤ priority c < 32 →
  sched_inv (Some t)
    (set_nodes (<[NEvent t := Node (NEvent t) (NEvent t)]>
                (<[NLink t := Node (NLink t) (NLink t)]> (nodes s)))
       (set_tcbs (<[t := c]> (tcbs s)) s)) L ∧
  unlinked (NLink t) L ∧ unlinked (NEvent t) L.
Proof.
  intros HI Ht Hp.
  assert (unlinked (NLink t) L) as Hul.
  { apply unlinked_on. intros h Hon. apply (si_typed _ _ _ HI) in Hon.
    destruct h; simpl in Hon; try tauto; rewrite Ht in Hon; by destruct Hon. }
  assert (unlinked (NEvent t) L) as Hue.
  { apply unlinked_on. intros h Hon. apply (si_typed _ _ _ HI) in Hon.
    destruct h; simpl in Hon; rewrite ?Ht in Hon; try tauto;
      try destruct Hon as [_ [? ?]]; naive_solver. }
  assert (∀ n, is_Some (L !! n) → n ≠ NLink t ∧ n ≠ NEvent t) as Hheads.
  { intros n Hn. apply (si_heads _ _ _ HI) in Hn. by split; intros ->. }
  assert (L !! NLink t = None ∧ L !! NEvent t = None) as [HLl HLe].
  { split; [destruct (L !! NLink t) eqn:E|destruct (L !! NEvent t) eqn:E]; try done;
      by destruct (Hheads _ (mk_is_Some _ _ E)). }
  split; [|done]. destruct HI as [HR Hty Hhd Hrd Hdl Hnd Hpr Hbr Hbm Hst Htk]. split; simpl; eauto.
  - apply repr_init_item; [|done..]. by apply repr_init_item.
  - intros h n Hon. specialize (Hty h n Hon). unfold typed in *; simpl.
    destruct h, n; rewrite ?lookup_insert_is_Some'; tauto.
  - intros u Hu. rewrite !lookup_insert_is_Some'.
    apply lookup_insert_is_Some' in Hu as [->|Hu]; [auto|].
    destruct (Hnd u Hu). auto.
  - intros u cu [[<- <-]|[? Hu]]%lookup_insert_Some; eauto.
  - intros u cu [[<- <-]|[? Hu]]%lookup_insert_Some ?; [done|eauto].
Qed.

Section image.
  Context `{Image}.

(** The control block of a new task. *)
Definition created_tcb (base words prio : Z) (nm : list Z) : nimble_tcb :=
  TCB (base + 4 * words - 64) prio prio NIMBLE_TASK_READY base words 0 NIMBLE_OK None nm.

(** The arguments with which creation succeeds. *)
Record create_args s t (str : option (list Z)) (fn base words prio : Z) (nm : list Z) : Prop := {
  ca_fresh : tcbs s !! t = None;
  ca_fn : fn ≠ 0;
  ca_base : 0 < base;
  ca_words : NIMBLE_MIN_STACK_WORDS ≤ words;
  ca_top : base + 4 * words ≤ 2 ^ 32;
  ca_mapped : mapped (ram s) base words;
  ca_prio : 0 ≤ prio < NIMBLE_MAX_PRIORITIES;
  ca_name : stored_name str = Some nm;
}.

(** The stack of a new task: the canary below the 16 words of the first frame. *)
Definition fresh_stack (r : gmap Z Z) (fn arg base words : Z) : Prop :=
  (∀ j, 0 ≤ j < words - 16 → r !! (base + 4 * j) = Some NIMBLE_STACK_CANARY) ∧
  (∀ k v, initial_frame fn arg !! k = Some v →
     r !! (base + 4 * (words - 1 - Z.of_nat k)) = Some v).

(** The two loops that lay the stack out, with what follows them. *)
Lemma wp_init_stack {A} s fn arg base words (k : Z → K A) Q :
  0 < base → 64 ≤ words → base + 4 * words ≤ 2 ^ 32 → mapped (ram s) base words →
  (∀ r, fresh_stack r fn arg base words →
        (∀ a, (∀ j, 0 ≤ j < words → a ≠ base + 4 * j) → r !! a = ram s !! a) →
        wp (k (base + 4 * words - 64)) Q (set_ram r s)) →
  wp (fill_canary (Z.to_nat words) base 0 ;;
      sp ← nimble_port_init_task_stack (base + 4 * words) fn arg; k sp) Q s.
Proof.
  intros Hb Hw Htop Hm Hk.
  wp_step. wp_apply fill_canary_spec; [intros j Hj; apply Hm; lia|].
  intros _ s1 (r1&->&Hin1&Hout1).
  assert (length (initial_frame fn arg) = 16%nat) as Hlen by done.
  wp_step. wp_apply push_words_spec; [rewrite Hlen; lia|..].
  { intros i Hi. rewrite Hlen in Hi. simpl.
    replace (base + 4 * words - 4 * (Z.of_nat i + 1)) with (base + 4 * (words - 1 - Z.of_nat i))
      by lia. rewrite Hin1 by lia. eauto. }
  intros sp s2 (->&r2&->&Hin2&Hout2). rewrite Hlen in *. simpl in Hout2.
  replace (base + 4 * words - 4 * Z.of_nat 16) with (base + 4 * words - 64) by lia.
  apply (Hk r2).
  - split; [intros j Hj; rewrite Hout2 by lia; apply Hin1; lia|].
    intros i v Hi. rewrite <- (Hin2 i v Hi). f_equal. lia.
  - intros a Ha. rewrite Hout2, Hout1; [done|intros j Hj; apply Ha; lia|].
    intros i Hi E. apply (Ha (words - 1 - Z.of_nat i)); lia.
Qed.

(** What creation does, before the ready list. *)
Lemma create_spec s L t str fn arg base words prio nm :
  sched_inv None s L → create_args s t str fn base words prio nm →
  wp (nimble_task_create (Some t) str fn arg base words prio)
    (λ r s', r = NIMBLE_OK ∧ ∃ m' b' r',
       s' = set_ready_bitmap b' (set_nodes m' (set_ram r' (set_tcbs
              (<[t := created_tcb base words prio nm]> (tcbs s)) s))) ∧
       fresh_stack r' fn arg base words ∧
       (∀ a, (∀ j, 0 ≤ j < words → a ≠ base + 4 * j) → r' !! a = ram s !! a) ∧
       sched_inv None s' (L_ready t prio L)) s.
Proof.
  intros HI [Hfresh Hfn Hb Hw Htop Hm Hp Hnm].
  unfold NIMBLE_MAX_PRIORITIES, NIMBLE_MIN_STACK_WORDS in *.
  destruct (sched_inv_add_task s L t (created_tcb base words prio nm)) as (HI1&Hul&Hue);
    [done..|].
  unfold nimble_task_create, NIMBLE_MAX_PRIORITIES, NIMBLE_MIN_STACK_WORDS.
  rewrite (proj2 (Z.eqb_neq fn 0)), (proj2 (Z.eqb_neq base 0)) by lia. simpl.
  rewrite (proj2 (Z.ltb_ge words 64)), (proj2 (Z.leb_gt 32 prio)) by lia.
  wp_step. apply wp_modify. wp_step. apply wp_on_nodes, wp_modify.
  wp_step. apply wp_on_nodes, wp_modify.
  apply wp_init_stack; [done..|]. intros r Hstack Hframe.
  wp_step. apply (wp_oget _ nm); [done|].
  wp_step. eapply wp_upd_tcb; [apply lookup_insert_eq|].
  wp_step. apply wp_enter. wp_step. simpl. rewrite insert_insert_eq.
  fold (created_tcb base words prio nm).
  wp_apply (close_add_ready _ L t (created_tcb base words prio nm));
    [by eapply sched_ext, HI1|apply lookup_insert_eq|done..|].
  intros _ s' [[m' ->] HI']. wp_step. apply wp_exit. apply wp_ret. split; [done|].
  eexists m', _, r. split; [simpl; by rewrite insert_insert_eq|].
  do 2 (split; [done|]). by eapply sched_ext, HI'.
Qed.
(** The invalid arguments, each rejected before anything is written. *)
Definition bad_args (ot : option tid) (fn base words prio : Z) : bool :=
  bool_decide (ot = None) || (fn =? 0) || (base =? 0) ||
  (words <? NIMBLE_MIN_STACK_WORDS) || (NIMBLE_MAX_PRIORITIES <=? prio).

Lemma create_rejects s ot str fn arg base words prio :
  bad_args ot fn base words prio = true →
  nimble_task_create ot str fn arg base words prio s = Some (NIMBLE_ERR_INVALID_ARG, s).
Proof.
  unfold bad_args, nimble_task_create. destruct ot as [t|]; [|done].
  rewrite bool_decide_eq_false_2 by done. cbn [orb].
  destruct ((fn =? 0) || (base =? 0)); [done|].
  destruct (words <? NIMBLE_MIN_STACK_WORDS); [done|].
  destruct (NIMBLE_MAX_PRIORITIES <=? prio); done.
Qed.

(** The whole invariant after a creation. *)
Lemma create_inv s L t str fn arg base words prio nm :
  kernel_inv s L → create_args s t str fn base words prio nm →
  wp (nimble_task_create (Some t) str fn arg base words prio)
    (λ r s', r = NIMBLE_OK ∧ kernel_inv s' (L_ready t prio L) ∧
       tcbs s' = <[t := created_tcb base words prio nm]> (tcbs s) ∧
       fresh_stack (ram s') fn arg base words ∧
       (∀ a, (∀ j, 0 ≤ j < words → a ≠ base + 4 * j) → ram s' !! a = ram s !! a) ∧
       nimble_current_tcb s' = nimble_current_tcb s ∧ pendsv s' = pendsv s ∧
       same_objects s s' ∧ timers s' = timers s) s.
Proof.
  intros [HC HO] Hargs. pose proof Hargs as [Ht _ _ _ _ _ Hp _].
  pose proof (ki_sched _ _ HC) as HI. destruct HC as [_ Hcur Hidle Hbase Hsort].
  wp_apply create_spec; [done..|].
  intros r s' (->&m'&b'&r'&->&Hst&Hfr&HI'). split; [done|].
  assert (is_Some (L !! NReady prio)) as Hr by by apply (si_ready _ _ _ HI).
  assert (∀ h, is_wait h = true → get_list (L_ready t prio L) h = get_list L h) as Hw
    by (intros; by apply wait_L_ready).
  split; [split; [split|split]|done]; simpl.
  - done.
  - intros u Hu. apply lookup_insert_is_Some'. right. by apply Hcur.
  - apply idle_upd; [by right; left|done].
  - intros u c [[<- <-]|[? Hu]]%lookup_insert_Some; [done|by eapply Hbase].
  - intros h Hord Hh. rewrite Hw by done. eapply wait_sorted_ext; [|by apply Hsort].
    intros n Hn. assert (on L h n) as Hon.
    { exists (get_list L h). split; [|done]. apply get_list_Some.
      unfold get_list in Hn. destruct (L !! h); [eauto|by apply elem_of_nil in Hn]. }
    apply (si_typed _ _ _ HI) in Hon. unfold prio_of; simpl.
    destruct n as [| |u|u| | | | | |]; try done; (rewrite lookup_insert_ne; [done|]);
      intros <-; destruct h; simpl in Hon; rewrite ?Ht in Hon;
      try tauto; try destruct Hon as [_ [? ?]]; naive_solver.
  - intros m mu Hm. destruct (oo_mutex _ _ HO m mu Hm) as [? ? Hf Ho].
    split; [by apply is_Some_L_ready|done|by rewrite Hw|]. intros o Eo. rewrite Hw by done.
    destruct (Ho o Eo). split; [|done]. apply lookup_insert_is_Some'. by right.
  - intros x sem Hx. destruct (oo_sem _ _ HO x sem Hx).
    split; [by apply is_Some_L_ready|done|done|by rewrite Hw].
  - intros q qu Hq. destruct (oo_queue _ _ HO q qu Hq).
    by split; [apply is_Some_L_ready|apply is_Some_L_ready|].
Qed.

(** The stack of a task that has not run yet is untouched but for its frame. *)
Lemma high_water_mark_fresh s t c fn arg :
  tcbs s !! t = Some c → 64 ≤ stack_words c → mapped (ram s) (stack_base c) (stack_words c) →
  fresh_stack (ram s) fn arg (stack_base c) (stack_words c) →
  wp (nimble_task_get_stack_high_water_mark t) (λ h s', h = stack_words c - 16 ∧ s' = s) s.
Proof.
  intros Ht Hw Hm [Hcan Hframe]. unfold nimble_task_get_stack_high_water_mark.
  wp_step. eapply wp_get_tcb; [done|]. wp_apply canary_scan_spec; [intros; apply Hm; lia|lia|lia|].
  intros h s' (->&Hh&Hin&Hout). split; [|done].
  specialize (Hframe 15%nat 0x04040404 eq_refl).
  replace (stack_words c - 1 - Z.of_nat 15) with (stack_words c - 16) in Hframe by lia.
  destruct (decide (h < stack_words c - 16)).
  - destruct Hout; [lia|]. apply Hcan. lia.
  - destruct (decide (h = stack_words c - 16)); [done|].
    rewrite Hin in Hframe by lia. done.
Qed.
End image.

(** ** Delay, suspend, resume *)

(** Leaving the scheduler's effect on one task [t] that keeps its priorities. *)
Lemma inv_moved s L s' L' t c c' (Y : Z → Prop) :
  kernel_inv s L → tcbs s !! t = Some c → sched_inv (X := Y) None s' L' →
  tcbs s' = <[t := c']> (tcbs s) → nimble_current_tcb s' = nimble_current_tcb s →
  priority c' = priority c → base_priority c' = base_priority c →
  t ≠ idle_tcb ∨ state c' = NIMBLE_TASK_READY ∨ state c' = NIMBLE_TASK_RUNNING →
  same_objects s s' → (∀ h, is_Some (L !! h) → is_Some (L' !! h)) →
  (∀ h, is_wait h = true → get_list L' h = get_list L h) →
  kernel_inv (X := Y) s' L'.
Proof.
  intros [HC HO] Ht HI' ET Ec Hp Hb Hid (Em&Es&Eq) Hh Hw.
  assert (shrunk s L s' L') as Hsh.
  { apply shrunk_intro; [|done|intros h ?; by rewrite Hw].
    intros u. rewrite ET. by eapply upd_same_prio. }
  split; [|by eapply shrunk_objects].
  eapply core_intro; try done. intros h Hord Hh'. eapply shrunk_sorted; [done..|]. by eapply ki_sorted.
Qed.

Lemma framed_moved s s' t c c' :
  tcbs s !! t = Some c → tcbs s' = <[t := c']> (tcbs s) →
  nimble_current_tcb s' = nimble_current_tcb s → pendsv s' = pendsv s →
  basepri s' = basepri s → g_tick_count s' = g_tick_count s → timers s' = timers s →
  same_objects s s' → framed s s'.
Proof.
  intros Ht ET ? ? ? ? ? (Em&Es&Eq). split; rewrite ?Em, ?Es, ?Eq; try done.
  intros u. rewrite ET. apply is_Some_upd. eauto.
Qed.

(** [nimble_task_delay] of at least one tick. *)
Definition delayed_tcb (now ticks : Z) c : nimble_tcb :=
  set_state NIMBLE_TASK_BLOCKED (set_wake_tick (u32 (now + ticks)) c).

Lemma delay_spec s L t c ticks :
  kernel_inv s L → caller s t c →
  wp (nimble_task_delay_crit ticks)
    (λ r s', framed s s' ∧
       if ticks =? 0 then r = false ∧ s' = s
       else r = true ∧ kernel_inv (X := less_stale (priority c) X) s' (L_delayed t L) ∧
            tcbs s' = <[t := delayed_tcb (g_tick_count s) ticks c]> (tcbs s)) s.
Proof.
  intros HI [Hcur Ht Hs Hid]. unfold nimble_task_delay_crit.
  destruct (ticks =? 0); [by apply wp_ret|].
  wp_step. apply wp_enter. wp_step. apply (wp_oget _ t); [done|]. wp_step. apply wp_gets.
  pose proof (ki_sched _ _ (ki_core _ _ HI)) as HS.
  wp_step. wp_apply block_current_delay_spec; [by eapply sched_ext, HS|done..|].
  intros _ s' [(m'&b'&->) HI']. wp_step. apply wp_exit. apply wp_ret. simpl in *.
  split; [by eapply framed_moved|]. split; [done|]. split; [|done].
  eapply inv_moved; try done; [|by left|..].
  - by eapply sched_ext, HI'.
  - intros h Hh. eapply is_Some_insert_same; [|done]. apply get_list_Some, HS.
  - intros h Hh. by apply wait_L_delayed.
Qed.

(** The lists after a suspension: a READY task leaves its ready list. *)
Definition suspended_lists L t c : gmap nid (list nid) :=
  if decide (state c = NIMBLE_TASK_READY) then detach (NLink t) L else L.

Lemma suspend_spec s L t c :
  kernel_inv s L → tcbs s !! t = Some c → t ≠ idle_tcb →
  wp (nimble_task_suspend_crit t)
    (λ r s', framed s s' ∧
       if decide (state c = NIMBLE_TASK_READY ∨ state c = NIMBLE_TASK_RUNNING) then
         r = bool_decide (nimble_current_tcb s = Some t) ∧
         (∃ Y : Z → Prop, kernel_inv (X := Y) s' (suspended_lists L t c)) ∧
         tcbs s' = <[t := set_state NIMBLE_TASK_SUSPENDED c]> (tcbs s)
       else r = false ∧ s' = s) s.
Proof.
  intros HI Ht Hid. pose proof (ki_sched _ _ (ki_core _ _ HI)) as HS.
  pose proof (si_prio _ _ _ HS _ _ Ht) as Hp.
  unfold nimble_task_suspend_crit. wp_step. apply wp_enter. wp_step. eapply wp_get_tcb; [done|].
  destruct (decide (state c = NIMBLE_TASK_READY ∨ state c = NIMBLE_TASK_RUNNING)) as [Hs|Hs].
  2: { rewrite !bool_decide_eq_false_2 by tauto. simpl.
       wp_step. apply wp_exit. apply wp_ret. by rewrite set_basepri_id. }
  assert (bool_decide (state c = NIMBLE_TASK_READY) ||
          bool_decide (state c = NIMBLE_TASK_RUNNING) = true) as ->.
  { destruct Hs as [-> | ->]; done. }
  wp_step. apply wp_gets. cbv zeta. wp_step.
  set (s0 := set_basepri NIMBLE_KERNEL_SYSCALL_BASEPRI s).
  assert (sched_inv None s0 L) as HS0 by by eapply sched_ext, HS.
  assert (unlinked (NEvent t) L) as Hue.
  { eapply event_unlinked; [done..|]. destruct Hs as [-> | ->]; done. }
  (* off the ready list *)
  assert (wp (when (bool_decide (state c = NIMBLE_TASK_READY)) (nimble_scheduler_remove t))
    (λ _ s', (∃ m' b', s' = set_ready_bitmap b' (set_nodes m' s0)) ∧
             (∃ Y : Z → Prop, sched_inv (X := Y) (Some t) s' (suspended_lists L t c)) ∧
             unlinked (NLink t) (suspended_lists L t c) ∧
             unlinked (NEvent t) (suspended_lists L t c)) s0) as Hrm.
  { unfold suspended_lists, when. case_decide as Hr.
    - rewrite bool_decide_eq_true_2 by done.
      wp_apply (hole_scheduler_remove t _ _ _ (λ _, True)); [by apply sched_inv_open|done| |done|].
      { intros p Hon Hne. split; [|done]. destruct (ready_home _ _ _ _ _ HS Ht Hon) as [_ Hx].
        destruct exact; [|done]. by destruct Hne, Hx. }
      intros _ s' [? ?]. split; [done|]. split; [by eexists|]. split; [apply unlinked_detach|].
      by apply unlinked_detach_other.
    - rewrite bool_decide_eq_false_2 by done. apply wp_ret.
      split; [exists (nodes s), (ready_bitmap s); by destruct s|].
      split; [exists X; by apply sched_inv_open|]. split; [|done].
      eapply link_unlinked; [done..| |done]. destruct Hs as [->| ->]; done. }
  eapply wp_mono; [exact Hrm|]. cbn beta. intros _ s1 ((m1&b1&->)&[Y HI1]&Hul1&Hue1).
  wp_step. eapply wp_upd_tcb; [done|]. wp_step. apply wp_exit. apply wp_ret. simpl.
  split; [by eapply framed_moved|]. split; [done|]. split; [|done]. exists Y.
  eapply inv_moved; try done; [|by left|..].
  - eapply hole_upd_tcb with (c' := set_state NIMBLE_TASK_SUSPENDED c) in HI1; [|done..].
    eapply sched_inv_close in HI1;
      [|apply lookup_insert_eq|apply task_inv_suspended; [done|by apply (raised s L t c HS)|done..]].
    by eapply (sched_ext (X := Y)), HI1.
  - intros h Hh. unfold suspended_lists. destruct (decide (state c = NIMBLE_TASK_READY)); [by apply is_Some_detach|done].
  - intros h Hh. unfold suspended_lists. destruct (decide (state c = NIMBLE_TASK_READY)); [|done]. rewrite wait_detach.
    apply without_id, not_elem_get_list. intros Hon. apply (si_typed _ _ _ HS) in Hon.
    by destruct h.
Qed.

(** [nimble_task_resume]: a SUSPENDED task goes to the tail of its ready
    list; any other task is left alone.  No switch is requested. *)
Lemma resume_spec s L t c :
  kernel_inv s L → tcbs s !! t = Some c →
  wp (nimble_task_resume t)
    (λ _ s', framed s s' ∧
       if decide (state c = NIMBLE_TASK_SUSPENDED) then
         kernel_inv s' (L_ready t (priority c) L) ∧
         tcbs s' = <[t := set_state NIMBLE_TASK_READY c]> (tcbs s)
       else s' = s) s.
Proof.
  intros HI Ht. pose proof (ki_sched _ _ (ki_core _ _ HI)) as HS.
  unfold nimble_task_resume. wp_step. apply wp_enter. wp_step. eapply wp_get_tcb; [done|].
  wp_step. unfold when. case_decide as Hs.
  - rewrite bool_decide_eq_true_2 by done.
    set (s0 := set_basepri NIMBLE_KERNEL_SYSCALL_BASEPRI s).
    assert (sched_inv None s0 L) as HS0 by by eapply sched_ext, HS.
    wp_apply (close_add_ready s0 L t c); [by apply sched_inv_open|done|by apply (raised s L t c HS)|..].
    { by eapply link_unlinked; [done..|rewrite Hs|rewrite Hs]. }
    { by eapply event_unlinked; [done..|rewrite Hs]. }
    intros _ s' [[m' ->] HI']. apply wp_exit. simpl.
    split; [by eapply framed_moved|]. split; [|done].
    assert (is_Some (L !! NReady (priority c))) as Hr
      by (apply (si_ready _ _ _ HS); by apply (si_prio _ _ _ HS t)).
    eapply inv_moved; try done; [|by right; left|..].
    + by eapply sched_ext, HI'.
    + intros h. by apply is_Some_L_ready.
    + intros h Hh. by apply wait_L_ready.
  - rewrite bool_decide_eq_false_2 by done. apply wp_ret. apply wp_exit.
    by rewrite set_basepri_id.
Qed.

End mode.

(** The calls as the rest of the system sees them. *)
Section calls.
Context {M : Mode}.

#[export] Instance delay_call ticks :
  KernelCall (nimble_task_delay_crit ticks) (λ _ _, True) negb.
Proof.
  intros X s L t c HI Hc _. wp_apply delay_spec; [done..|]. intros r s' [Hf Hout].
  destruct (ticks =? 0).
  - destruct Hout as [-> ->]. eauto.
  - destruct Hout as (->&?&_). split; [eauto|]. by split.
Qed.

#[export] Instance suspend_call u :
  KernelCall (nimble_task_suspend_crit u)
    (λ _ s, is_Some (tcbs s !! u) ∧ u ≠ idle_tcb) negb.
Proof.
  intros X s L t c HI Hc [[cu Hu] Hid]. wp_apply suspend_spec; [done..|].
  intros r s' [Hf Hout]. case_decide.
  - destruct Hout as (->&[Y ?]&ET). split; [eauto|]. split; [done|].
    intros Hne%negb_true_iff%bool_decide_eq_false. exists c.
    eapply caller_other; [done..|]. intros ->. by destruct Hc.
  - destruct Hout as [-> ->]. eauto.
Qed.

#[export] Instance resume_call u :
  KernelCall (nimble_task_resume u) (λ _ s, is_Some (tcbs s !! u)) (λ _, true).
Proof.
  intros X s L t c HI Hc [cu Hu]. wp_apply resume_spec; [done..|].
  intros r s' [Hf Hout]. case_decide as Hs.
  - destruct Hout as [? ET]. split; [eauto|]. split; [done|]. intros _. exists c.
    eapply caller_other; [done..|]. intros ->. destruct Hc. congruence.
  - subst. eauto.
Qed.
End calls.
