(* ===== verification/KernelStep.v ===== *)
(** * The interrupt handlers and the boot sequence, on the whole invariant *)
From S2P Require Import Prelude DList Kernel Port Scheduler SchedInv SchedSpec Task WaitList Ring.
From S2P Require Import KernelInv TaskSpec.
From stdpp Require Import options.

Implicit Types (L : gmap nid (list nid)) (t u : nat) (s : kstate) (c : nimble_tcb).

Section mode.
Context {M : Mode} {X : Stale}.

(** ** The tick interrupt *)

Lemma ticked_shrunk s L s' L' :
  ticked s L [] (get_list L NDelayed) s' L' → shrunk s L s' L'.
Proof.
  intros [_ Ht Hh _ _ Ho _]. apply shrunk_intro.
  - intros u. rewrite Ht. destruct (tcbs s !! u) as [c|]; [|done]. simpl. by case_match.
  - intros h. apply Hh.
  - intros h Hw. rewrite Ho by (by destruct h). apply sublist_filter.
Qed.

(** The lists after a tick: the due tasks move, in order, from the delayed
    list to the ready lists of their priorities, and off their wait lists. *)
Definition ticked_lists s L L' : Prop :=
  get_list L' NDelayed = filter (λ n, due s n = false) (get_list L NDelayed) ∧
  (∀ p, 0 ≤ p < 32 → get_list L' (NReady p) = get_list L (NReady p) ++
     filter (λ n, due s n = true ∧ prio_of s n = p) (get_list L NDelayed)) ∧
  (∀ h, h ≠ NDelayed → (∀ p, h ≠ NReady p) →
     get_list L' h = filter (λ n, timed_out s (get_list L NDelayed) n = false) (get_list L h)).

(** A tick that wakes nobody twice: what [SysTick_Handler] does. *)
Lemma systick_spec s L :
  kernel_inv s L →
  wp SysTick_Handler
    (λ _ s', ∃ L', kernel_inv s' L' ∧ pendsv s' = true ∧
       g_tick_count s' = u32 (g_tick_count s + 1) ∧
       nimble_current_tcb s' = nimble_current_tcb s ∧ basepri s' = basepri s ∧
       same_objects s s' ∧ timers s' = timers s ∧
       (∀ u, tcbs s' !! u =
         (λ c, if bool_decide (NLink u ∈ get_list L NDelayed) &&
                  expired (u32 (g_tick_count s + 1)) c
               then set_woken NIMBLE_ERR_TIMEOUT c else c) <$> tcbs s !! u) ∧
       ticked_lists (set_tick_count (u32 (g_tick_count s + 1)) s) L L') s.
Proof.
  intros [HC HO]. pose proof HC as [HI Hcur Hidle Hbase Hsort].
  unfold SysTick_Handler. wp_step. apply wp_enter. wp_step.
  set (s0 := set_basepri NIMBLE_KERNEL_SYSCALL_BASEPRI s).
  wp_apply tick_spec; [by eapply sched_ext, HI|].
  intros _ s1 (s2&L'&->&Htk&HI'). apply wp_exit. exists L'.
  set (s3 := set_tick_count _ s0) in Htk.
  pose proof (ticked_shrunk _ _ _ _ Htk) as Hsh.
  pose proof Htk as [(m'&b'&T'&Es2) Ht Hh Hd Hrdy Hoth _].
  assert (∀ u, T' !! u = (λ c, if bool_decide (NLink u ∈ get_list L NDelayed) &&
       expired (u32 (g_tick_count s + 1)) c
       then set_woken NIMBLE_ERR_TIMEOUT c else c) <$> tcbs s !! u) as HT.
  { intros u. specialize (Ht u). rewrite Es2 in Ht. simpl in Ht. rewrite Ht. unfold due; simpl.
    destruct (tcbs s !! u) as [cu|]; done. }
  assert (∀ u, is_Some (T' !! u) ↔ is_Some (tcbs s !! u)) as Hdom.
  { intros u. rewrite HT. apply fmap_is_Some. }
  rewrite Es2. split; [split; [split|]|]; simpl.
  - eapply sched_ext, HI'; by rewrite ?Es2.
  - intros u Hu. apply Hdom. by apply Hcur.
  - destruct Hidle as (ci&Hci&Hsi). rewrite HT, Hci. simpl.
    eexists. split; [done|]. case_match; [by left|done].
  - intros u cu. rewrite HT. destruct (tcbs s !! u) as [c0|] eqn:E; [|done].
    simpl. intros [= <-]. specialize (Hbase _ _ E). by case_match.
  - intros h Hord Hw. eapply wait_sorted_ext, (shrunk_sorted s3 L s2 L' h);
      [|done|done|by apply Hsort]. intros n _. unfold prio_of. by rewrite Es2.
  - apply (shrunk_objects s L); [|done..]. destruct Hsh as [H1 H2 H3 H4].
    split; [done|intros u; simpl; by rewrite Hdom|done|].
    intros h n Hw Hn. change (prio_of s n) with (prio_of s3 n).
    rewrite <- (H4 h n Hw Hn). unfold prio_of. by rewrite Es2.
  - do 7 (split; [done|]). split; [exact Hd|]. by split.
Qed.

(** ** The switch *)

Lemma wait_switch s L t h :
  sched_inv None s L → is_wait h = true →
  get_list (detach (NLink t) (requeue_lists s L)) h = get_list L h.
Proof.
  intros HI Hw. rewrite wait_detach, wait_requeue by done.
  apply without_id, not_elem_get_list. intros Hon. apply (si_typed _ _ _ HI) in Hon.
  by destruct h.
Qed.

(** Whatever the switch leads to keeps the invariant. *)
Lemma switched_inv s L t s' (Y : Z → Prop) :
  kernel_inv s L → switched s L t s' (detach (NLink t) (requeue_lists s L)) →
  sched_inv (X := Y) None s' (detach (NLink t) (requeue_lists s L)) →
  kernel_inv (X := Y) s' (detach (NLink t) (requeue_lists s L)).
Proof.
  intros [HC HO] (p&c&m'&b'&Hp&Htop&Ht&Hs&Hpc&Es&_) HI'.
  pose proof HC as [HI Hcur Hidle Hbase Hsort].
  assert (tcbs s' = <[t := set_state NIMBLE_TASK_RUNNING c]> (requeue_tcbs s)) as ET
    by by rewrite Es.
  assert (∀ u cu, requeue_tcbs s !! u = Some cu → ∃ c0, tcbs s !! u = Some c0 ∧
    base_priority cu = base_priority c0 ∧ (state c0 = state cu ∨ state cu = NIMBLE_TASK_READY))
    as Hrq.
  { intros u cu [?|(c0&_&?&_&->)]%requeue_lookup; eauto. }
  assert (∀ u, priority <$> tcbs s' !! u = priority <$> tcbs s !! u) as Hprio.
  { intros u. rewrite ET, <- requeue_prio. by eapply upd_same_prio. }
  assert (shrunk s L s' (detach (NLink t) (requeue_lists s L))) as Hsh.
  { apply shrunk_intro; [done|..].
    - intros h Hh. apply is_Some_detach. by eapply requeue_heads.
    - intros h Hw. by rewrite wait_switch. }
  assert (nimble_current_tcb s' = Some t ∧ mutexes s' = mutexes s ∧
    semaphores s' = semaphores s ∧ queues s' = queues s) as (Ec&Em&Esm&Eq) by by rewrite Es.
  split; [split|by eapply shrunk_objects]; [done|..].
  - intros u. rewrite Ec. intros [= <-]. rewrite ET, lookup_insert_eq. eauto.
  - rewrite ET. destruct (decide (t = idle_tcb)) as [->|Hne].
    + eexists. rewrite lookup_insert_eq. split; [done|by right].
    + destruct Hidle as (ci&Hci&Hsi). rewrite lookup_insert_ne by done.
      unfold requeue_tcbs. destruct (nimble_current_tcb s) as [u|]; [|by exists ci].
      destruct (tcbs s !! u) as [cu|] eqn:Eu; [|by exists ci].
      case_decide; [|by exists ci]. destruct (decide (u = idle_tcb)) as [->|].
      * eexists. rewrite lookup_insert_eq. split; [done|by left].
      * exists ci. by rewrite lookup_insert_ne.
  - intros u cu. rewrite ET. intros [[<- <-]|[? Hu]]%lookup_insert_Some.
    + destruct (Hrq t c Ht) as (c0&Hc0&Hb&_). simpl. rewrite Hb. by eapply Hbase.
    + destruct (Hrq u cu Hu) as (c0&Hc0&->&_). by eapply Hbase.
  - intros h Hord Hw. eapply shrunk_sorted; [done..|]. by apply Hsort.
Qed.

(** The task that the switch chooses: READY, first of the highest list, and
    now RUNNING. *)
Lemma pendsv_inv s L :
  kernel_inv s L →
  live s L ∧ wp PendSV_Handler
    (λ _ s', ∃ t p c, let L' := detach (NLink t) (requeue_lists s L) in
       kernel_inv (X := left_stale p (priority c) X) s' L' ∧
       switched_from s L t p c s' L' ∧ pendsv s' = false) s ∨
  stuck s L ∧ PendSV_Handler s = None.
Proof.
  intros HI. pose proof (ki_core _ _ HI) as HC.
  destruct (pendsv_cases s L) as [[Hl Hwp]|?]; [apply HC|apply HC|by eapply kernel_runnable|left|by right].
  split; [done|]. eapply wp_mono; [exact Hwp|]. cbn beta.
  intros _ s' (t&p&c&Hsw&Hp&HI'). exists t, p, c. split; [|done].
  apply switched_inv; [done|by exists p, c|done].
Qed.

(** What a switch keeps. *)
Lemma switched_keeps s L t s' L' :
  switched s L t s' L' →
  nimble_current_tcb s' = Some t ∧ same_objects s s' ∧ timers s' = timers s ∧
  basepri s' = basepri s ∧ g_tick_count s' = g_tick_count s ∧
  ∃ c, tcbs s' !! t = Some c ∧ state c = NIMBLE_TASK_RUNNING.
Proof.
  intros (p&c&m'&b'&_&_&Ht&Hs&_&->&_). do 5 (split; [done|]).
  eexists. split; [apply lookup_insert_eq|done].
Qed.

(** Every READY task sits on a list of at most the chosen task's priority. *)
Lemma switched_highest s L t s' L' u cu c' :
  kernel_inv s L → switched s L t s' L' → tcbs s' !! t = Some c' →
  tcbs s' !! u = Some cu → state cu = NIMBLE_TASK_READY →
  ∃ q, home cu q ∧ q ≤ priority c' ∧ on L' (NReady q) (NLink u).
Proof.
  intros [HC _] (p&c&m'&b'&Hp&[_ Htop]&Ht&Hs&Hpc&->&->). simpl.
  rewrite lookup_insert_eq. intros [= <-]. simpl.
  intros [[<- <-]|[Hne Hu]]%lookup_insert_Some Hsu; [done|].
  pose proof (ki_sched _ _ HC) as HI. pose proof (si_prio _ _ _ HI) as Hprio.
  assert (∃ q, home cu q ∧ 0 ≤ q < 32 ∧ on (requeue_lists s L) (NReady q) (NLink u)) as (q&Hq&Hq32&Hon).
  { apply requeue_lookup in Hu as [Hu|(c1&Ecur&Hc1&Hr&->)].
    - pose proof (si_task _ _ _ HI u cu Hu ltac:(done)) as Hti.
      destruct (ti_listed _ _ _ _ Hti Hsu) as [q Hon]. exists q.
      split; [by apply (ti_ready _ _ _ _ Hti) in Hon as [_ ?]|].
      split; [|by apply on_requeue_mono]. apply (si_ready _ _ _ HI). destruct Hon as (?&?&_). eauto.
    - exists (priority c1). split; [|split; [by eapply Hprio|]].
      + split; simpl; [|done]. split; [by eapply raised|done].
      + unfold requeue_lists. rewrite Ecur, Hc1, decide_True by done.
        apply on_L_ready; [|by left]. apply (si_ready _ _ _ HI). by eapply Hprio. }
  exists q. split; [done|]. destruct Hpc as [Hpc _]. split; [|rewrite on_detach; split; [congruence|done]].
  destruct (decide (p < q)) as [Hlt|]; [|simpl; lia].
  by destruct (Htop q (NLink u)); [lia|].
Qed.

(** ** Initialising kernel objects *)

(** The list heads outside the scheduler. *)
Definition is_object (h : nid) : bool :=
  match h with NMutex _ | NSem _ | NQRecv _ | NQSend _ | NTimers => true | _ => false end.

(** A list head that is new, or whose list is empty. *)
Lemma sched_inv_add_head s L h :
  sched_inv None s L → get_list L h = [] → is_object h = true →
  sched_inv None (set_nodes (<[h := Node h h]> (nodes s)) s) (<[h := []]> L).
Proof.
  intros HI HL Hw. pose proof HI as [HR Hty Hhd Hrd Hdl Hnd Hpr Hbr Hbm Hst Htk].
  assert (unlinked h L) as Hu.
  { apply unlinked_on. intros h' Hon. apply Hty in Hon. by destruct h, h'. }
  assert (∀ h' n, on (<[h := []]> L) h' n ↔ on L h' n) as Hon.
  { intros h' n. unfold on. destruct (decide (h' = h)) as [->|].
    - rewrite lookup_insert_eq. unfold get_list in HL.
      split; [intros (?&[= <-]&Hn)|intros (xs&E&Hn); rewrite E in HL; simpl in HL; subst];
        by apply elem_of_nil in Hn.
    - by rewrite lookup_insert_ne. }
  split; simpl; try done.
  - by apply repr_init_head.
  - intros h' n. rewrite Hon. apply Hty.
  - intros h' [->|?]%lookup_insert_is_Some'; [by destruct h'|auto].
  - intros p. rewrite lookup_insert_ne; [done|]. by destruct h.
  - rewrite lookup_insert_ne; [done|]. by destruct h.
  - intros u [??]%Hnd. rewrite !lookup_insert_is_Some'. auto.
  - intros p n Hp. rewrite Hon. by apply Hbm.
  - intros p Hp. setoid_rewrite Hon. by apply Hst.
  - intros u c Hc Hne. eapply task_inv_ext; [intros; apply Hon|intros; apply Hon|by apply Htk].
Qed.

Lemma get_list_add_head L h h' :
  get_list L h = [] → get_list (<[h := []]> L) h' = get_list L h'.
Proof.
  intros HL. destruct (decide (h' = h)) as [->|].
  - rewrite HL. apply get_list_eq, lookup_insert_eq.
  - unfold get_list. by rewrite lookup_insert_ne.
Qed.

Lemma inv_add_head s L h :
  kernel_inv s L → get_list L h = [] → is_object h = true →
  kernel_inv (set_nodes (<[h := Node h h]> (nodes s)) s) (<[h := []]> L).
Proof.
  intros [HC HO] HL Hw. pose proof HC as [HI Hcur Hidle Hbase Hsort].
  pose proof (sched_inv_add_head s L h HI HL Hw) as HI'.
  assert (shrunk s L (set_nodes (<[h := Node h h]> (nodes s)) s) (<[h := []]> L)) as Hsh.
  { apply shrunk_intro; [done|..].
    - intros h' ?. apply lookup_insert_is_Some'. by right.
    - intros h' _. by rewrite get_list_add_head. }
  split; [split; try done|by eapply shrunk_objects].
  intros h' Hord Hw'. eapply shrunk_sorted; [done..|]. by apply Hsort.
Qed.

(** What initialising an object leaves alone. *)
Definition init_frame s s' : Prop :=
  tcbs s' = tcbs s ∧ timers s' = timers s ∧ ram s' = ram s ∧
  nimble_current_tcb s' = nimble_current_tcb s ∧ pendsv s' = pendsv s ∧
  g_tick_count s' = g_tick_count s.

(** ** Booting *)

(** The kernel's static data before [nimble_scheduler_init]. *)
Record boot s : Prop := {
  boot_nodes : nodes s = ∅;
  boot_tcbs : tcbs s = ∅;
  boot_mutexes : mutexes s = ∅;
  boot_semaphores : semaphores s = ∅;
  boot_queues : queues s = ∅;
  boot_timers : timers s = ∅;
}.

(** Heads of empty lists only. *)
Definition empty_heads (m : gmap nid (node nid)) (hs : gset nid) : Prop :=
  repr m (gset_to_gmap [] hs) ∧ dom m = hs.

Lemma empty_heads_init m hs h :
  empty_heads m hs → h ∉ hs → empty_heads (<[h := Node h h]> m) ({[h]} ∪ hs).
Proof.
  intros [HR Hd] Hh. split; [|by rewrite dom_insert_L, Hd].
  rewrite gset_to_gmap_union_singleton. apply repr_init_head; [done|..].
  - by rewrite (proj2 (lookup_gset_to_gmap_None _ _ _)).
  - intros h' xs [? <-]%lookup_gset_to_gmap_Some. apply not_elem_of_nil.
Qed.

Lemma init_ready_lists_spec n i s hs :
  empty_heads (nodes s) hs → (∀ p, i ≤ p → NReady p ∉ hs) →
  wp (init_ready_lists n i)
    (λ _ s', ∃ m' hs', s' = set_nodes m' s ∧ empty_heads m' hs' ∧
       ∀ h, h ∈ hs' ↔ h ∈ hs ∨ ∃ p, h = NReady p ∧ i ≤ p < i + Z.of_nat n) s.
Proof.
  revert i s hs. induction n as [|n IH]; intros i s hs HX Hi;
    unfold init_ready_lists; fold init_ready_lists.
  - apply wp_ret. exists (nodes s), hs. split; [by destruct s|]. split; [done|].
    intros h. split; [auto|]. intros [?|(p&_&?)]; [done|lia].
  - wp_step. apply wp_on_nodes, wp_modify. wp_apply (IH (i + 1)).
    + apply empty_heads_init; [exact HX|]. apply Hi. lia.
    + intros p Hp. rewrite elem_of_union, elem_of_singleton.
      intros [[= ->]|Hin]; [lia|]. apply (Hi p); [lia|done].
    + intros _ s' (m'&hs'&->&HX'&Hin). exists m', hs'. split; [done|]. split; [done|].
      intros h. rewrite Hin, elem_of_union, elem_of_singleton. split.
      * intros [[->|?]|(p&->&?)]; [right|by left|right]; [exists i|exists p]; (split; [done|lia]).
      * intros [?|(p&->&?)]; [auto|]. destruct (decide (p = i)) as [->|]; [auto|].
        right. exists p. split; [done|lia].
Qed.

Lemma sched_inv_boot s hs :
  empty_heads (nodes s) hs → tcbs s = ∅ → ready_bitmap s = 0 →
  (∀ h, h ∈ hs ↔ h = NDelayed ∨ ∃ p, h = NReady p ∧ 0 ≤ p < 32) →
  sched_inv None s (gset_to_gmap [] hs).
Proof.
  intros [HR Hd] HT Hb HX.
  assert (∀ h n, ¬ on (gset_to_gmap [] hs) h n) as Hno.
  { intros h n (xs&[_ <-]%lookup_gset_to_gmap_Some&Hn). by apply elem_of_nil in Hn. }
  assert (∀ h, is_Some (gset_to_gmap (@nil nid) hs !! h) ↔ h ∈ hs) as Hdom.
  { intros h. rewrite <- elem_of_dom. by rewrite dom_gset_to_gmap. }
  split; try done.
  - intros h n Hon. by apply Hno in Hon.
  - intros h. rewrite Hdom, HX. by intros [->|(p&->&_)].
  - intros p. rewrite Hdom, HX. split; [intros [?|(p'&[= ->]&?)]; done|eauto].
  - apply Hdom, HX. by left.
  - intros t. rewrite HT. by intros [??].
  - intros t c. by rewrite HT.
  - rewrite Hb. lia.
  - intros p n _ Hn. by apply Hno in Hn.
  - intros p _. by rewrite Hb, Z.bits_0.
  - intros t c. by rewrite HT.
Qed.

(** Mapped memory stays mapped. *)
Definition mapped_still s s' : Prop := ∀ a, is_Some (ram s !! a) → is_Some (ram s' !! a).

Section image.
  Context `{Image}.

(** A stack that has been laid out is mapped from end to end. *)
Lemma fresh_stack_mapped s s' fn arg base words :
  64 ≤ words → fresh_stack (ram s') fn arg base words →
  (∀ a, (∀ j, 0 ≤ j < words → a ≠ base + 4 * j) → ram s' !! a = ram s !! a) → mapped_still s s'.
Proof.
  intros Hw [Hcan Hframe] Hout a Ha.
  destruct (decide (0 ≤ (a - base) / 4 < words ∧ (a - base) mod 4 = 0)) as [[Hj Hm]|Hn].
  - pose proof (Z.div_mod (a - base) 4 ltac:(lia)) as Hd.
    assert (a = base + 4 * ((a - base) / 4)) as -> by lia.
    set (j := (a - base) / 4) in *. destruct (decide (j < words - 16)).
    + rewrite Hcan by lia. eauto.
    + assert (∃ v, initial_frame fn arg !! Z.to_nat (words - 1 - j) = Some v) as [v Hv].
      { apply lookup_lt_is_Some. change (length (initial_frame fn arg)) with 16%nat. lia. }
      specialize (Hframe _ _ Hv). rewrite Z2Nat.id in Hframe by lia.
      replace (words - 1 - (words - 1 - j)) with j in Hframe by lia. eauto.
  - rewrite Hout; [done|]. intros j Hj ->. apply Hn.
    replace (base + 4 * j - base) with (j * 4) by lia.
    rewrite Z.div_mul, Z_mod_mult by lia. lia.
Qed.

(** After [nimble_scheduler_init]: the idle task, READY at priority 0, and
    nothing else. *)
Lemma scheduler_init_spec s :
  boot s → 0 < idle_stack → idle_stack + 4 * IDLE_STACK_WORDS ≤ 2 ^ 32 → idle_task_fn ≠ 0 →
  mapped (ram s) idle_stack IDLE_STACK_WORDS →
  wp nimble_scheduler_init
    (λ _ s', ∃ L c, kernel_inv s' L ∧ tcbs s' = {[ idle_tcb := c ]} ∧
       state c = NIMBLE_TASK_READY ∧ priority c = 0 ∧ base_priority c = 0 ∧
       nimble_current_tcb s' = None ∧ g_tick_count s' = 0 ∧ pendsv s' = pendsv s ∧
       timers s' = ∅ ∧ mapped_still s s' ∧ same_objects s s' ∧
       (∀ h, is_object h = true → L !! h = None)) s.
Proof.
  intros [HN HT HM HS HQ HX] Hst Htop Hfn Hm. unfold nimble_scheduler_init.
  wp_step. wp_apply (init_ready_lists_spec _ 0 s ∅).
  { rewrite HN. split; [rewrite gset_to_gmap_empty; apply repr_empty|apply dom_empty_L]. }
  { intros p _. apply not_elem_of_empty. }
  intros _ s1 (m1&X1&->&HX1&Hin1). wp_step. apply wp_on_nodes, wp_modify.
  do 4 (wp_step; apply wp_modify). wp_step.
  match goal with |- wp _ _ ?s0 => set (s2 := s0) end.
  assert (NDelayed ∉ X1) as HnX.
  { rewrite Hin1. intros [?%not_elem_of_empty|(p&?&_)]; done. }
  assert (∀ h, h ∈ {[NDelayed]} ∪ X1 ↔ h = NDelayed ∨ ∃ p, h = NReady p ∧ 0 ≤ p < 32) as HinX.
  { intros h. rewrite elem_of_union, elem_of_singleton, Hin1.
    change (0 + Z.of_nat (Z.to_nat NIMBLE_MAX_PRIORITIES)) with 32.
    rewrite elem_of_empty. tauto. }
  set (L2 := gset_to_gmap (@nil nid) ({[NDelayed]} ∪ X1)).
  assert (sched_inv None s2 L2) as HI by (apply sched_inv_boot; [by apply empty_heads_init|done..]).
  destruct (stored_name (Some [105; 100; 108; 101; 0])) as [nm|] eqn:Enm; [|done].
  wp_apply (create_spec s2 L2); [done|split; try done; simpl; by rewrite HT|].
  intros r s3 (_&m3&b3&r3&->&Hst3&Hfr3&HI3). apply wp_ret.
  assert (∀ h, is_object h = true → L2 !! h = None) as HL2.
  { intros h Hw. apply lookup_gset_to_gmap_None. rewrite HinX. intros [->|(p&->&_)]; done. }
  assert (∀ h, is_object h = true → L_ready idle_tcb 0 L2 !! h = None) as HL3.
  { intros h Hw. unfold L_ready. rewrite lookup_insert_ne by by destruct h. by apply HL2. }
  exists (L_ready idle_tcb 0 L2), (created_tcb idle_stack IDLE_STACK_WORDS 0 nm).
  split; [split|split; [simpl; by rewrite HT, insert_empty|do 7 (split; [done|]); split; [|split; [|done]]]].
  - split; [done|done|..].
    + eexists. split; [apply lookup_insert_eq|by left].
    + simpl. rewrite HT. intros t c [[<- <-]|[_ ?]]%lookup_insert_Some; [done|].
      by rewrite lookup_empty in *.
    + intros h _ Hw. unfold get_list. rewrite HL3 by by destruct h. constructor.
  - split; simpl; rewrite ?HM, ?HS, ?HQ; done.
  - eapply (fresh_stack_mapped s); [|exact Hst3|exact Hfr3]. unfold IDLE_STACK_WORDS. lia.
  - done.
Qed.
End image.

(** [nimble_scheduler_start] runs a task of the highest priority. *)
Lemma start_spec s L :
  kernel_inv s L → live s L →
  wp nimble_scheduler_start
    (λ _ s', ∃ t p c, let L' := detach (NLink t) (requeue_lists s L) in
       kernel_inv (X := left_stale p (priority c) X) s' L' ∧
       switched_from s L t p c s' L' ∧ pendsv s' = pendsv s) s.
Proof.
  intros HI Hl. pose proof (ki_core _ _ HI) as HC. unfold nimble_scheduler_start. wp_step.
  destruct (select_next_cases s L) as [[_ Hwp]|[Hst _]];
    [apply HC|apply HC|by eapply kernel_runnable| |by apply live_not_stuck in Hst].
  eapply wp_mono; [exact Hwp|]. intros t s1 Hsel.
  destruct (selected_switch _ _ _ _ (ki_sched _ _ HC) Hsel) as (p&c&En&Hsw&HI').
  wp_step. apply wp_modify. wp_step. apply wp_gets. apply wp_modify. exists t, p, c. cbv zeta.
  replace (set_current_tcb _ _) with (set_current_tcb (Some t) s1)
    by (destruct s1; simpl in *; by rewrite En).
  split; [apply switched_inv; [done|by exists p, c|done]|]. split; [done|].
  by destruct Hsel as (?&?&?&?&_&_&_&_&_&->&_).
Qed.
End mode.

(** ** The length of a delay *)

Fixpoint ticks (n : nat) : K unit :=
  match n with O => mret tt | S n => SysTick_Handler ;; ticks n end.

Section ticks.
Context {M : Mode} {X : Stale}.

(** A delayed task that does not expire in any of the next [n] ticks is left
    alone by them. *)
Lemma ticks_waiting n s L t c :
  kernel_inv s L → 0 ≤ g_tick_count s < 2 ^ 32 → tcbs s !! t = Some c →
  NLink t ∈ get_list L NDelayed →
  (∀ k, 1 ≤ k ≤ Z.of_nat n → expired (u32 (g_tick_count s + k)) c = false) →
  wp (ticks n)
    (λ _ s', ∃ L', kernel_inv s' L' ∧ tcbs s' !! t = Some c ∧
       NLink t ∈ get_list L' NDelayed ∧
       g_tick_count s' = u32 (g_tick_count s + Z.of_nat n)) s.
Proof.
  revert s L. induction n as [|n IH]; intros s L HI Hr Ht Hon Hexp;
    unfold ticks; fold ticks.
  - apply wp_ret. exists L. do 3 (split; [done|]). rewrite u32_small; lia.
  - wp_step. wp_apply systick_spec; [done|].
    intros _ s1 (L1&HI1&_&Eg&_&_&_&_&ET&Ed&_).
    specialize (Hexp 1 ltac:(lia)) as Hexp1.
    wp_apply (IH s1 L1); [done|rewrite Eg; apply u32_range| | | |].
    + rewrite ET, Ht. simpl. by rewrite Hexp1, andb_false_r.
    + rewrite Ed, list_elem_of_filter. split; [|done]. unfold due; simpl. by rewrite Ht.
    + intros k Hk. rewrite Eg, u32_add_l.
      replace (g_tick_count s + 1 + k) with (g_tick_count s + (k + 1)) by lia. apply Hexp. lia.
    + intros _ s' (L'&?&?&?&E). exists L'. do 3 (split; [done|]).
      rewrite E, Eg, u32_add_l. f_equal. lia.
Qed.

(** One tick on a delayed task that expires in it. *)
Lemma tick_expires s L t c :
  kernel_inv s L → tcbs s !! t = Some c → NLink t ∈ get_list L NDelayed →
  expired (u32 (g_tick_count s + 1)) c = true →
  wp SysTick_Handler (λ _ s', ∃ L', kernel_inv s' L' ∧
    tcbs s' !! t = Some (set_woken NIMBLE_ERR_TIMEOUT c)) s.
Proof.
  intros HI Ht Hon Hexp. wp_apply systick_spec; [done|].
  intros _ s1 (L1&HI1&_&_&_&_&_&_&ET&_). exists L1. split; [done|].
  rewrite ET, Ht. simpl. by rewrite Hexp, bool_decide_eq_true_2.
Qed.

End ticks.

(** A wake-up time [n] ticks ahead is reached [n] ticks later and not before,
    up to half the range of the counter. *)
Lemma expired_after now n k c :
  0 < n ≤ 2 ^ 31 → 0 < k ≤ n → wake_tick c = u32 (now + n) →
  expired (u32 (now + k)) c = bool_decide (k = n).
Proof.
  intros Hn Hk Ew. unfold expired. rewrite Ew.
  assert (i32 (u32 (now + k) - u32 (now + n)) = k - n) as ->.
  { rewrite <- i32_u32, u32_sub_l, u32_sub_r, i32_u32.
    replace (now + k - (now + n)) with (k - n) by lia. apply i32_small. lia. }
  case_bool_decide; [apply Z.leb_le|apply Z.leb_gt]; lia.
Qed.

(** Beyond that range the first tick already counts as past it. *)
Lemma expired_early now n c :
  2 ^ 31 + 1 < n < 2 ^ 32 → wake_tick c = u32 (now + n) → expired (u32 (now + 1)) c = true.
Proof.
  intros Hn Ew. unfold expired. rewrite Ew. apply Z.leb_le.
  rewrite <- i32_u32, u32_sub_l, u32_sub_r, i32_u32.
  replace (now + 1 - (now + n)) with (1 - n) by lia.
  rewrite <- i32_u32. unfold u32. rewrite <- (Z_mod_plus_full _ 1), Z.mod_small by lia.
  rewrite i32_small; lia.
Qed.

Lemma on_L_delayed_tail t L : NLink t ∈ get_list (L_delayed t L) NDelayed.
Proof.
  unfold L_delayed. rewrite (get_list_eq _ _ _ (lookup_insert_eq _ _ _)).
  apply elem_of_app. right. by apply list_elem_of_singleton.
Qed.

(** [nimble_task_delay n]: blocked for [n] ticks, READY at the [n]-th. *)
Lemma delay_length {M : Mode} {X : Stale} s L t c (n : nat) :
  kernel_inv s L → caller s t c → 0 ≤ g_tick_count s < 2 ^ 32 → 0 < Z.of_nat n ≤ 2 ^ 31 →
  let b := delayed_tcb (g_tick_count s) (Z.of_nat n) c in
  wp (nimble_task_delay_crit (Z.of_nat n)) (λ _ s1,
    (∀ k, (k < n)%nat → wp (ticks k) (λ _ s2, tcbs s2 !! t = Some b) s1) ∧
    wp (ticks n) (λ _ s2, tcbs s2 !! t = Some (set_woken NIMBLE_ERR_TIMEOUT b)) s1) s.
Proof.
  intros HI Hc Hr Hn b. wp_apply delay_spec; [done..|].
  intros r s1 [Hf Hout]. rewrite (proj2 (Z.eqb_neq _ _)) in Hout by lia.
  destruct Hout as (->&HI1&ET).
  assert (tcbs s1 !! t = Some b) as Ht by (rewrite ET; apply lookup_insert_eq).
  pose proof (fr_tick _ _ Hf) as Eg. pose proof (on_L_delayed_tail t L) as Hon.
  assert (∀ k, (k < n)%nat → wp (ticks k) (λ _ s2, ∃ L2,
    kernel_inv (X := less_stale (priority c) X) s2 L2 ∧ tcbs s2 !! t = Some b ∧ NLink t ∈ get_list L2 NDelayed ∧
    g_tick_count s2 = u32 (g_tick_count s + Z.of_nat k)) s1) as Hwait.
  { intros k Hk. rewrite <- Eg. eapply ticks_waiting; [done|by rewrite Eg|done..|].
    intros j Hj. rewrite Eg, (expired_after _ (Z.of_nat n)); [|lia|lia|done].
    apply bool_decide_eq_false. lia. }
  split.
  - intros k Hk. eapply wp_mono; [by apply Hwait|]. by intros _ s2 (L2&_&?&_).
  - destruct n as [|n]; [lia|].
    assert (∀ j s2, ticks (S j) s2 = (ticks j ;; SysTick_Handler) s2) as Hsnoc.
    { induction j as [|j IH]; intros s2.
      - unfold ticks, mbind, M_bind, mret, M_ret. by destruct (SysTick_Handler s2) as [[[] ?]|].
      - change (ticks (S (S j))) with (SysTick_Handler ;; ticks (S j)).
        change (ticks (S j)) with (SysTick_Handler ;; ticks j) at 2.
        unfold mbind, M_bind in *. destruct (SysTick_Handler s2) as [[[] s3]|]; [|done]. apply IH. }
    unfold wp. rewrite Hsnoc. fold (wp (ticks n ;; SysTick_Handler)
      (λ _ s2, tcbs s2 !! t = Some (set_woken NIMBLE_ERR_TIMEOUT b)) s1).
    wp_step. eapply wp_mono; [apply Hwait; lia|]. intros _ s2 (L2&HI2&Ht2&Hon2&Eg2).
    wp_apply (tick_expires (X := less_stale (priority c) X) s2 L2 t b); [done..| |by intros _ s3 (L3&_&?)].
    rewrite Eg2, u32_add_l.
    replace (g_tick_count s + Z.of_nat n + 1) with (g_tick_count s + Z.of_nat (S n)) by lia.
    rewrite (expired_after _ (Z.of_nat (S n))); [by apply bool_decide_eq_true|lia|lia|done].
Qed.
