(* ===== verification/ContextSwitch.v ===== *)
(** * The register-level context switch ([port/arch/cortex-m4/context_switch.S])

    The registers that the handlers save and restore in software, r4 to r11
    and the process stack pointer.  The other eight are stacked and unstacked
    by the processor, at the address in [psp]. *)
From S2P Require Import Prelude DList Kernel Port Scheduler SchedInv SchedSpec Task WaitList Ring.
From S2P Require Import KernelInv TaskSpec KernelStep.
From stdpp Require Import options.

(** r4 to r11, lowest first, and the process stack pointer. *)
Record cpu := Cpu { psp : Z; r4_11 : list Z }.

(** [stmdb a!, {rs}]: the registers below [a], the lowest-numbered one at the
    lowest address; the result is the new base. *)
Fixpoint store_words (a : Z) (rs : list Z) : K unit :=
  match rs with
  | [] => mret tt
  | r :: rs => store_word a r ;; store_words (a + 4) rs
  end.
Definition stmdb (a : Z) (rs : list Z) : K Z :=
  let a := u32 (a - 4 * Z.of_nat (length rs)) in store_words a rs ;; mret a.

(** [ldmia a!, {rs}] for [n] registers. *)
Fixpoint load_words (n : nat) (a : Z) : K (list Z) :=
  match n with
  | O => mret []
  | S n => r ← load_word a; rs ← load_words n (a + 4); mret (r :: rs)
  end.
Definition ldmia (a : Z) (n : nat) : K (list Z * Z) :=
  rs ← load_words n a; mret (rs, u32 (a + 4 * Z.of_nat n)).

(** The first half of [PendSV_Handler], on the outgoing task, if there is one. *)
Definition save_context (r : cpu) : K unit :=
  cur ← gets nimble_current_tcb;
  match cur with
  | Some t => a ← stmdb (psp r) (r4_11 r); upd_tcb t (set_sp a)
  | None => mret tt
  end.

(** The second half: the incoming task's registers. *)
Definition restore_context (t : tid) : K cpu :=
  c ← get_tcb t; r ← ldmia (sp c) 8; mret (Cpu r.2 r.1).

Definition PendSV_Handler (r : cpu) : K cpu :=
  modify (set_pendsv false) ;;
  save_context r ;;
  nimble_scheduler_select_next ;;
  n ← gets nimble_next_tcb;
  modify (set_current_tcb n) ;;
  next ← oget (λ _, n);
  restore_context next.

(** [SVC_Handler]: the first task's registers, with all interrupts open. *)
Definition SVC_Handler : K cpu :=
  t ← oget nimble_current_tcb;
  r ← restore_context t;
  modify (set_basepri 0) ;;
  mret r.

(** ** Saving and restoring *)

Implicit Types (L : gmap nid (list nid)) (t : nat) (s : kstate) (c : nimble_tcb) (r : cpu).

Lemma store_words_spec rs a s :
  (∀ k, (k < length rs)%nat → is_Some (ram s !! (a + 4 * Z.of_nat k))) →
  wp (store_words a rs)
    (λ _ s', ∃ m, s' = set_ram m s ∧
       (∀ k v, rs !! k = Some v → m !! (a + 4 * Z.of_nat k) = Some v) ∧
       (∀ b, (∀ k, (k < length rs)%nat → b ≠ a + 4 * Z.of_nat k) → m !! b = ram s !! b)) s.
Proof.
  revert a s. induction rs as [|r rs IH]; intros a s Hm; simpl in *.
  - apply wp_ret. exists (ram s). split; [by destruct s|done].
  - wp_step. apply wp_store_word.
    { replace a with (a + 4 * Z.of_nat 0) by lia. apply Hm. lia. }
    wp_apply (IH (a + 4)).
    { intros k Hk. simpl. apply lookup_insert_is_Some'. right.
      replace (a + 4 + 4 * Z.of_nat k) with (a + 4 * Z.of_nat (S k)) by lia. apply Hm. lia. }
    intros _ s' (m&->&Hin&Hout). exists m. split; [done|]. split.
    + intros [|k] v Hv; simpl in Hv.
      * injection Hv as <-. rewrite Hout by (intros; lia).
        replace (a + 4 * Z.of_nat 0) with a by lia. apply lookup_insert_eq.
      * replace (a + 4 * Z.of_nat (S k)) with (a + 4 + 4 * Z.of_nat k) by lia. by apply Hin.
    + intros b Hb. rewrite Hout.
      * apply lookup_insert_ne. intros E. apply (Hb 0%nat); lia.
      * intros k Hk E. apply (Hb (S k)); lia.
Qed.

Lemma load_words_spec rs a s :
  (∀ k v, rs !! k = Some v → ram s !! (a + 4 * Z.of_nat k) = Some v) →
  load_words (length rs) a s = Some (rs, s).
Proof.
  revert a. induction rs as [|r rs IH]; intros a Hm; simpl; [done|].
  unfold mbind, M_bind, load_word, oget.
  assert (ram s !! a = Some r) as ->.
  { replace a with (a + 4 * Z.of_nat 0) by lia. by apply Hm. }
  rewrite IH; [done|]. intros k v Hk.
  replace (a + 4 + 4 * Z.of_nat k) with (a + 4 * Z.of_nat (S k)) by lia. by apply Hm.
Qed.

(** The outgoing task can be saved: eight words below its stack pointer. *)
Record saveable s r : Prop := {
  sv_regs : length (r4_11 r) = 8%nat;
  sv_room : 32 ≤ psp r < 2 ^ 32;
  sv_mapped k : 1 ≤ k ≤ 8 → is_Some (ram s !! (psp r - 4 * k));
}.

(** The context [r] of task [t] is in memory. *)
Definition saved s t r : Prop :=
  ∃ c, tcbs s !! t = Some c ∧ sp c = psp r - 32 ∧ length (r4_11 r) = 8%nat ∧
    32 ≤ psp r < 2 ^ 32 ∧
    ∀ k v, r4_11 r !! k = Some v → ram s !! (psp r - 32 + 4 * Z.of_nat k) = Some v.

Lemma save_context_spec s t c r :
  nimble_current_tcb s = Some t → tcbs s !! t = Some c → saveable s r →
  wp (save_context r)
    (λ _ s', saved s' t r ∧ ∃ m,
       s' = set_tcbs (<[t := set_sp (psp r - 32) c]> (tcbs s)) (set_ram m s) ∧
       ∀ b, ¬ (psp r - 32 ≤ b < psp r) → m !! b = ram s !! b) s.
Proof.
  intros Hcur Ht [Hlen Hroom Hmap]. unfold save_context.
  wp_step. apply wp_gets. rewrite Hcur. wp_step. unfold stmdb. cbv zeta. rewrite Hlen.
  rewrite u32_small by lia. replace (psp r - 4 * Z.of_nat 8) with (psp r - 32) by lia.
  wp_step. wp_apply store_words_spec.
  { intros k Hk. rewrite Hlen in Hk.
    replace (psp r - 32 + 4 * Z.of_nat k) with (psp r - 4 * (8 - Z.of_nat k)) by lia.
    apply Hmap. lia. }
  intros _ s' (m&->&Hin&Hout). apply wp_ret. eapply wp_upd_tcb; [done|]. split.
  - eexists. simpl. rewrite lookup_insert_eq. split; [done|]. split; [done|].
    do 2 (split; [done|]). exact Hin.
  - exists m. split; [done|]. intros b Hb. apply Hout. intros k Hk. rewrite Hlen in Hk. lia.
Qed.

(** What was saved is restored, wherever it is read back. *)
Lemma restore_saved s t r : saved s t r → restore_context t s = Some (r, s).
Proof.
  intros (c&Ht&Hsp&Hlen&Hroom&Hin).
  unfold restore_context, ldmia, get_tcb, oget, mbind, M_bind. rewrite Ht, Hsp.
  rewrite <- Hlen, load_words_spec by done. simpl. rewrite Hlen.
  rewrite u32_small by lia. unfold mret, M_ret. simpl. do 2 f_equal.
  destruct r as [p rs]; simpl in *. f_equal. lia.
Qed.

(** Storing the stack pointer is invisible to the scheduler. *)
Lemma inv_set_sp {M : Mode} {X : Stale} s L t c v m :
  kernel_inv s L → tcbs s !! t = Some c →
  kernel_inv (set_tcbs (<[t := set_sp v c]> (tcbs s)) (set_ram m s)) L.
Proof.
  intros HI Ht. pose proof (ki_sched _ _ (ki_core _ _ HI)) as HS.
  eapply (inv_moved s L _ _ t c); try done.
  - apply (sched_inv_close t _ _ (set_sp v c)); [|apply lookup_insert_eq|].
    + eapply (hole_upd_tcb t (set_ram m s)); [|done|by apply (si_prio _ _ _ HS t c)].
      apply sched_inv_open. by eapply sched_ext, HS.
    + destruct (si_task _ _ _ HS _ _ Ht ltac:(done)). by split.
  - destruct (decide (t = idle_tcb)) as [->|]; [right|by left].
    destruct (ki_idle _ _ (ki_core _ _ HI)) as (ci&Hci&Hsi). by simplify_eq.
Qed.

(** The whole handler: the outgoing context is in memory, the task is chosen
    as the scheduler chooses it, and the processor has the incoming context. *)
Lemma pendsv_full_spec {M : Mode} {X : Stale} s L t c r :
  kernel_inv s L → live s L → nimble_current_tcb s = Some t → tcbs s !! t = Some c → saveable s r →
  (∀ u, u ≠ t → is_Some (tcbs s !! u) → ∃ ru, saved s u ru ∧
     (psp ru ≤ psp r - 32 ∨ psp r ≤ psp ru - 32)) →
  wp (PendSV_Handler r)
    (λ r' s', ∃ u, kernel_ok s' ∧ nimble_current_tcb s' = Some u ∧
       pendsv s' = false ∧ saved s' t r ∧ saved s' u r' ∧
       (∀ w rw, w ≠ t → saved s w rw →
          (psp rw ≤ psp r - 32 ∨ psp r ≤ psp rw - 32) → saved s' w rw)) s.
Proof.
  intros HI Hl Hcur Ht Hsv Hall. unfold PendSV_Handler.
  wp_step. apply wp_modify. wp_step.
  wp_apply (save_context_spec (set_pendsv false s) t c); [done|done|by destruct Hsv|].
  intros _ s1 (Hsaved&m&->&Hout). simpl in Hout.
  assert (kernel_inv (set_tcbs (<[t := set_sp (psp r - 32) c]> (tcbs s))
    (set_ram m (set_pendsv false s))) L) as HI1.
  { apply (inv_set_sp (set_pendsv false s)); [|done]. destruct HI as [HC [HM HS HQ]].
    split; [by eapply core_ext, HC|]. split; [|done..]. intros m' mu Hm. by destruct (HM m' mu Hm). }
  match goal with |- wp _ _ ?s0 => set (s1 := s0) in * end.
  assert (∀ w rw, w ≠ t → saved s w rw →
    (psp rw ≤ psp r - 32 ∨ psp r ≤ psp rw - 32) → saved s1 w rw) as Hother.
  { intros w rw Hw (cw&Hcw&Hspw&Hlw&Hrw&Hin) Hdis. exists cw.
    split; [simpl; by rewrite lookup_insert_ne|]. do 3 (split; [done|]).
    intros k v Hk. simpl. rewrite Hout; [by apply Hin|].
    apply lookup_lt_Some in Hk. rewrite Hlw in Hk. lia. }
  pose proof (ki_core _ _ HI1) as HC1.
  assert (live s1 L) as Hl1.
  { revert Hl. unfold live, requeue_lists; simpl. rewrite Hcur, Ht, lookup_insert_eq. done. }
  destruct (select_next_cases s1 L) as [[_ Hwp]|[Hst _]];
    [apply HC1|apply HC1|by eapply kernel_runnable| |by apply live_not_stuck in Hst].
  wp_step. eapply wp_mono; [exact Hwp|]. intros u s2 Hsel.
  destruct (selected_switch _ _ _ _ (ki_sched _ _ HC1) Hsel) as (p&cu&En&Hsw&HI2).
  destruct Hsel as (?&?&m2&b2&_&_&Hu&Hsu&_&Es2&_).
  wp_step. apply wp_gets. wp_step. apply wp_modify. wp_step. rewrite En. apply (wp_oget _ u); [done|].
  assert (switched s1 L u (set_current_tcb (Some u) s2) (detach (NLink u) (requeue_lists s1 L))) as Hsw'
    by by exists p, cu.
  rewrite Es2 in *. clear Es2.
  match goal with |- wp _ _ ?s0 => set (s3 := s0) in * end.
  assert (∀ w rw, saved s1 w rw → saved s3 w rw) as Hkeep.
  { intros w rw (cw&Hcw&Hspw&Hrest).
    assert (∃ c0, requeue_tcbs s1 !! w = Some c0 ∧ sp c0 = sp cw) as (c0&Hc0&E0).
    { unfold requeue_tcbs. destruct (nimble_current_tcb s1) as [v|]; [|by exists cw].
      destruct (tcbs s1 !! v) as [cv|] eqn:Ev; [|by exists cw]. case_decide; [|by exists cw].
      destruct (decide (w = v)) as [->|].
      - eexists. rewrite lookup_insert_eq. split; [done|]. simpl. congruence.
      - exists cw. by rewrite lookup_insert_ne. }
    destruct (decide (w = u)) as [->|].
    - eexists. split; [apply lookup_insert_eq|].
      split; [simpl; congruence|done].
    - exists c0. split; [simpl; by rewrite lookup_insert_ne|]. split; [congruence|done]. }
  assert (∃ ru, saved s3 u ru) as [ru Hru].
  { destruct (decide (u = t)) as [->|Hne]; [eauto|].
    destruct (Hall u Hne) as (ru&Hsu'&Hdis).
    { apply requeue_lookup in Hu as [Hu|(c0&_&Hu&_)]; simpl in Hu;
        rewrite lookup_insert_ne in Hu; eauto. }
    exists ru. by apply Hkeep, Hother. }
  eapply wp_eq; [by apply restore_saved|]. exists u.
  split; [|split; [done|split; [done|split; [by apply Hkeep|split; [done|]]]]].
  - eapply kernel_ok_intro, switched_inv; [exact HI1|exact Hsw'|exact HI2].
  - intros w rw Hw Hsw0 Hdis. by apply Hkeep, Hother.
Qed.

Section image.
  Context `{Image}.

(** The registers a task starts with, and the frame the processor unstacks. *)
Definition first_regs : list Z :=
  [0x04040404; 0x05050505; 0x06060606; 0x07070707;
   0x08080808; 0x09090909; 0x10101010; 0x11111111].

Lemma created_saved s t base words prio nm fn arg :
  tcbs s !! t = Some (created_tcb base words prio nm) →
  fresh_stack (ram s) fn arg base words →
  0 < base → 64 ≤ words → base + 4 * words ≤ 2 ^ 32 →
  let top := base + 4 * words in
  saved s t (Cpu (top - 32) first_regs) ∧
  ram s !! (top - 32) = Some arg ∧ ram s !! (top - 12) = Some task_exit_trap ∧
  ram s !! (top - 8) = Some fn ∧ ram s !! (top - 4) = Some 0x01000000.
Proof.
  intros Ht [_ Hframe] Hb Hw Htop top.
  assert (∀ (k : nat) v a, initial_frame fn arg !! k = Some v → a = top - 4 * (Z.of_nat k + 1) →
    ram s !! a = Some v) as Hk.
  { intros k v a Hv ->. rewrite <- (Hframe k v Hv). f_equal. unfold top. lia. }
  split; [|split; [|split; [|split]]].
  - exists (created_tcb base words prio nm). split; [done|]. split; [unfold top; simpl; lia|].
    split; [done|]. split; [unfold top; simpl; lia|]. intros k v Hv.
    apply (Hk (15 - k)%nat).
    + do 8 (destruct k as [|k]; [done|]). done.
    + apply lookup_lt_Some in Hv. simpl in Hv. simpl. unfold top. lia.
  - by apply (Hk 7%nat); [|unfold top; lia].
  - by apply (Hk 2%nat); [|unfold top; lia].
  - by apply (Hk 1%nat); [|unfold top; lia].
  - by apply (Hk 0%nat); [|unfold top; lia].
Qed.
End image.
