(* ===== verification/Mutex.v ===== *)
(** * Priority-inheritance mutexes ([kernel/src/mutex.c]) *)
From S2P Require Import Prelude DList Kernel Port Scheduler SchedInv SchedSpec WaitList Ring.
From S2P Require Import KernelInv KernelStep.
From stdpp Require Import options.

Definition nimble_mutex_init (m : nat) : K unit :=
  put_mutex m (Mutex None 0) ;; on_nodes (nimble_list_init (NMutex m)).

Definition insert_waiter_priority_sorted (waiters : nid) (t : tid) : K unit :=
  WaitList.insert_waiter_priority_sorted waiters t.

(** [nimble_mutex_lock] up to the context switch: [Some r] when it returns
    [r], [None] when the caller is blocked, requests a switch and continues
    with [nimble_mutex_lock_resume] once it runs again. *)
Definition nimble_mutex_lock (m : nat) (timeout_ticks : Z) : K (option Z) :=
  crit ← nimble_port_enter_critical;
  cur ← gets nimble_current_tcb;
  mu ← get_mutex m;
  match owner mu with
  | None =>
      put_mutex m (Mutex cur 1) ;;
      nimble_port_exit_critical crit ;;
      mret (Some NIMBLE_OK)
  | Some o =>
      if bool_decide (Some o = cur) then
        put_mutex m (Mutex (Some o) (u32 (lock_count mu + 1))) ;;
        nimble_port_exit_critical crit ;;
        mret (Some NIMBLE_OK)
      else if timeout_ticks =? NIMBLE_NO_WAIT then
        nimble_port_exit_critical crit ;;
        mret (Some NIMBLE_ERR_TIMEOUT)
      else
        self ← oget (λ _, cur);
        sc ← get_tcb self;
        oc ← get_tcb o;
        when (priority oc <? priority sc) (upd_tcb o (set_priority (priority sc))) ;;
        insert_waiter_priority_sorted (NMutex m) self ;;
        nimble_scheduler_prepare_block self timeout_ticks ;;
        nimble_port_exit_critical crit ;;
        mret None
  end.

(** The rest of [nimble_mutex_lock], run by the woken caller. *)
Definition nimble_mutex_lock_resume (m : nat) (self : tid) : K Z :=
  crit ← nimble_port_enter_critical;
  mu ← get_mutex m;
  result ← (if bool_decide (owner mu = Some self) then mret NIMBLE_OK
            else on_nodes (nimble_list_remove (NEvent self)) ;; mret NIMBLE_ERR_TIMEOUT);
  nimble_port_exit_critical crit ;;
  mret result.

(** [nimble_mutex_unlock] up to the switch request: the status, and whether
    the request follows. *)
Definition nimble_mutex_unlock_crit (m : nat) : K (Z * bool) :=
  crit ← nimble_port_enter_critical;
  cur ← gets nimble_current_tcb;
  mu ← get_mutex m;
  if negb (bool_decide (owner mu = cur)) then
    nimble_port_exit_critical crit ;;
    mret (NIMBLE_ERR_NOT_OWNER, false)
  else
    let n := u32 (lock_count mu - 1) in
    put_mutex m (Mutex (owner mu) n) ;;
    if 0 <? n then
      nimble_port_exit_critical crit ;;
      mret (NIMBLE_OK, false)
    else
      o ← oget (λ _, owner mu);
      upd_tcb o (λ c, set_priority (base_priority c) c) ;;
      put_mutex m (Mutex None n) ;;
      woken ← nimble_scheduler_wake_waiter (NMutex m);
      match woken with
      | Some w => put_mutex m (Mutex (Some w) 1)
      | None => mret tt
      end ;;
      nimble_port_exit_critical crit ;;
      mret (NIMBLE_OK, bool_decide (is_Some woken)).

Definition nimble_mutex_unlock (m : nat) : K Z :=
  '(r, switch) ← nimble_mutex_unlock_crit m;
  when switch nimble_port_request_context_switch ;;
  mret r.

(** ** Specification *)

Implicit Types (L : gmap nid (list nid)) (t o : nat) (s : kstate) (c : nimble_tcb)
  (mu : nimble_mutex).

Lemma wp_get_mutex m mu (Q : nimble_mutex → kstate → Prop) s :
  mutexes s !! m = Some mu → Q mu s → wp (get_mutex m) Q s.
Proof. apply (wp_oget (λ s, mutexes s !! m)). Qed.

Lemma framed_put_mutex s m v mu :
  mutexes s !! m = Some mu → framed s (set_mutexes (<[m := v]> (mutexes s)) s).
Proof. intros Hm. split; try done. intros m'. apply is_Some_upd. eauto. Qed.

Section mode.
Context {M : Mode} {X : Stale}.

(** When a contended lock raises the owner's priority, the owner keeps its
    place: a READY owner on the ready list of its old priority, a waiting one
    among the waiters of its old priority.  In the modes that exclude this the
    owner is not READY, and on no wait list. *)
Definition boost_safe (m t : nat) s : Prop :=
  ∀ mu o c co, mutexes s !! m = Some mu → owner mu = Some o →
    tcbs s !! t = Some c → tcbs s !! o = Some co → priority co < priority c →
    (exact = true → state co ≠ NIMBLE_TASK_READY) ∧
    (ordered = true → nxt (nodes s) (NEvent o) = Some (NEvent o)).

(** The outcomes of [nimble_mutex_lock]. *)
Definition lock_outcome s L t c (m : nat) mu (timeout : Z) (r : option Z) s' L' : Prop :=
  match owner mu with
  | None => r = Some NIMBLE_OK ∧
      mutexes s' = <[m := Mutex (Some t) 1]> (mutexes s) ∧ tcbs s' = tcbs s ∧ L' = L
  | Some o =>
      if decide (o = t) then
        r = Some NIMBLE_OK ∧
        mutexes s' = <[m := Mutex (Some t) (u32 (lock_count mu + 1))]> (mutexes s) ∧
        tcbs s' = tcbs s ∧ L' = L
      else if timeout =? NIMBLE_NO_WAIT then
        r = Some NIMBLE_ERR_TIMEOUT ∧ s' = s ∧ L' = L
      else
        ∃ co, tcbs s !! o = Some co ∧ r = None ∧ mutexes s' = mutexes s ∧
          tcbs s' = <[t := blocked_tcb (g_tick_count s) timeout c]>
            (if priority co <? priority c
             then <[o := set_priority (priority c) co]> (tcbs s) else tcbs s) ∧
          L' = L_blocked t timeout (<[NMutex m :=
                 insert_by s (priority c) (NEvent t) (get_list L (NMutex m))]> L)
  end.

(** The boost keeps the core invariant. *)
Lemma boost_core s L m mu o t c co :
  kernel_core s L → caller s t c → mutexes s !! m = Some mu → owner mu = Some o →
  o ≠ t → tcbs s !! o = Some co → boost_safe m t s →
  wp (when (priority co <? priority c) (upd_tcb o (set_priority (priority c))))
    (λ _ s', s' = (if priority co <? priority c
                   then set_tcbs (<[o := set_priority (priority c) co]> (tcbs s)) s else s) ∧
             kernel_core s' L) s.
Proof.
  intros HC [Hcur Ht Hs Hid] Hm Ho Hne Hco Hsafe. unfold when.
  destruct (Z.ltb_spec (priority co) (priority c)) as [Hlt|Hge]; [|by apply wp_ret].
  eapply wp_upd_tcb; [done|]. split; [done|].
  destruct (Hsafe mu o c co) as [Hnr Hself]; [done..|].
  pose proof (ki_sched _ _ HC) as HI. pose proof (raised _ _ _ _ HI Hco).
  pose proof (si_prio _ _ _ HI t c Ht). eapply core_set_priority; [done..|lia| |].
  - destruct exact; [by left; apply Hnr|right]. split; [done|lia].
  - intros Hord. eapply self_linked_unlinked; [apply HI| |by apply Hself].
    destruct (L !! NEvent o) eqn:E; [|done]. by destruct (si_heads _ _ _ HI (NEvent o)).
Qed.

Lemma mutex_lock_free s L t c m mu timeout :
  kernel_inv s L → caller s t c → mutexes s !! m = Some mu → owner mu = None →
  wp (nimble_mutex_lock m timeout)
    (λ r s', kernel_inv s' L ∧ framed s s' ∧ caller s' t c ∧ is_Some r ∧
             lock_outcome s L t c m mu timeout r s' L) s.
Proof.
  intros [HC HO] [Hcur Ht Hs Hid] Hm Ho. unfold nimble_mutex_lock, lock_outcome. rewrite Ho.
  wp_step. apply wp_enter. wp_step. apply wp_gets. wp_step. eapply wp_get_mutex; [done|].
  rewrite Ho. wp_step. apply wp_modify. wp_step. apply wp_exit. apply wp_ret. simpl.
  rewrite Hcur. pose proof (oo_mutex _ _ HO m mu Hm) as [Hl Hc Hf _].
  split; [|split; [|split; [done|split; [by eexists|done]]]].
  - split; [by apply core_basepri, core_put_mutex, core_basepri|].
    apply objects_basepri, (put_mutex_objects (set_basepri NIMBLE_KERNEL_SYSCALL_BASEPRI s)); [by apply objects_basepri|]. split; simpl.
    + done.
    + lia.
    + done.
    + intros o' [= <-]. split; [eauto|]. rewrite Hf by done. apply not_elem_of_nil.
  - apply (framed_basepri s _ NIMBLE_KERNEL_SYSCALL_BASEPRI).
    by eapply (framed_put_mutex (set_basepri NIMBLE_KERNEL_SYSCALL_BASEPRI s)).
Qed.

Lemma mutex_lock_recursive s L t c m mu timeout :
  kernel_inv s L → caller s t c → mutexes s !! m = Some mu → owner mu = Some t →
  wp (nimble_mutex_lock m timeout)
    (λ r s', kernel_inv s' L ∧ framed s s' ∧ caller s' t c ∧ is_Some r ∧
             lock_outcome s L t c m mu timeout r s' L) s.
Proof.
  intros [HC HO] [Hcur Ht Hs Hid] Hm Ho. unfold nimble_mutex_lock, lock_outcome. rewrite Ho.
  wp_step. apply wp_enter. wp_step. apply wp_gets. wp_step. eapply wp_get_mutex; [done|].
  rewrite Ho. simpl. rewrite Hcur, bool_decide_eq_true_2 by done.
  wp_step. apply wp_modify. wp_step. apply wp_exit. apply wp_ret. rewrite decide_True by done. simpl.
  pose proof (oo_mutex _ _ HO m mu Hm) as [Hl Hc Hf Hw].
  split; [|split; [|split; [done|split; [by eexists|done]]]].
  - split; [by apply core_basepri, core_put_mutex, core_basepri|].
    apply objects_basepri, (put_mutex_objects (set_basepri NIMBLE_KERNEL_SYSCALL_BASEPRI s)); [by apply objects_basepri|]. split; simpl.
    + done.
    + apply u32_range.
    + done.
    + intros o' [= <-]. by apply Hw.
  - apply (framed_basepri s _ NIMBLE_KERNEL_SYSCALL_BASEPRI).
    by eapply (framed_put_mutex (set_basepri NIMBLE_KERNEL_SYSCALL_BASEPRI s)).
Qed.

Lemma mutex_lock_no_wait s t c m mu o :
  caller s t c → mutexes s !! m = Some mu → owner mu = Some o → o ≠ t →
  wp (nimble_mutex_lock m NIMBLE_NO_WAIT)
    (λ r s', r = Some NIMBLE_ERR_TIMEOUT ∧ s' = s) s.
Proof.
  intros [Hcur _ _ _] Hm Ho Hne. unfold nimble_mutex_lock.
  wp_step. apply wp_enter. wp_step. apply wp_gets. wp_step. eapply wp_get_mutex; [done|].
  rewrite Ho. simpl. rewrite Hcur, bool_decide_eq_false_2 by congruence.
  wp_step. apply wp_exit. apply wp_ret. by rewrite set_basepri_id.
Qed.

(** What a wait list of [m] looks like from the state after the boost. *)
Lemma boost_prio_of s L m mu o co p w :
  kernel_core s L → mutex_ok s L m mu → owner mu = Some o → tcbs s !! o = Some co →
  w ∈ get_list L (NMutex m) →
  prio_of (set_tcbs (<[o := set_priority p co]> (tcbs s)) s) w = prio_of s w.
Proof.
  intros HC [Hl _ _ Ho] Eo Hco Hw. destruct (Ho o Eo) as [_ Hno].
  assert (on L (NMutex m) w) as Hon by (eexists; split; [by apply get_list_Some|done]).
  pose proof (si_typed _ _ _ (ki_sched _ _ HC) _ _ Hon) as Hty.
  unfold prio_of; simpl. destruct w as [| | |u| | | | | |]; simpl in Hty; try tauto.
  rewrite lookup_insert_ne; [done|]. by intros ->.
Qed.

Lemma mutex_ok_upd s L m mu o c' :
  is_Some (tcbs s !! o) → mutex_ok s L m mu →
  mutex_ok (set_tcbs (<[o := c']> (tcbs s)) s) L m mu.
Proof.
  intros Hco [? ? ? Ho]. split; try done. intros o' Eo. destruct (Ho o' Eo). split; [|done].
  simpl. by apply is_Some_upd.
Qed.

(** The state after the boost, seen from the mutex. *)
Lemma boosted_frame s L m mu o co p :
  kernel_core s L → objects_ok s L → mutexes s !! m = Some mu → owner mu = Some o →
  tcbs s !! o = Some co →
  let s1 := if priority co <? p
            then set_tcbs (<[o := set_priority p co]> (tcbs s)) s else s in
  objects_ok s1 L ∧ mutexes s1 = mutexes s ∧ framed s s1 ∧
  tcbs s1 = (if priority co <? p then <[o := set_priority p co]> (tcbs s) else tcbs s) ∧
  g_tick_count s1 = g_tick_count s ∧
  ∀ w, w ∈ get_list L (NMutex m) → prio_of s1 w = prio_of s w.
Proof.
  intros HC HO Hm Ho Hco s1. unfold s1. destruct (Z.ltb_spec (priority co) p) as [Hlt|Hge].
  - split; [|split; [done|split; [|split; [|split; [done|]]]]].
    + destruct HO as [HM HS HQ]. split; [|done..]. intros m' mu' Hm'.
      eapply mutex_ok_upd; [by eauto|by apply HM].
    + split; try done. intros u. apply is_Some_upd. eauto.
    + done.
    + intros w Hw. eapply boost_prio_of; try done. by apply (oo_mutex _ _ HO).
  - do 2 (split; [done|]). split; [done|]. split; done.
Qed.

Lemma mutex_lock_blocks s L t c m mu o timeout :
  kernel_inv s L → caller s t c → mutexes s !! m = Some mu → owner mu = Some o → o ≠ t →
  timeout ≠ NIMBLE_NO_WAIT → boost_safe m t s →
  wp (nimble_mutex_lock m timeout)
    (λ r s', ∃ L', kernel_inv (X := settled c r X) s' L' ∧ framed s s' ∧
             lock_outcome s L t c m mu timeout r s' L') s.
Proof.
  intros [HC HO] Hcaller Hm Ho Hne Hto Hsafe. pose proof Hcaller as [Hcur Ht Hs Hid].
  pose proof (oo_mutex _ _ HO m mu Hm) as Hok. pose proof Hok as [Hl Hc Hf Hw].
  destruct (Hw o Ho) as [[co Hco] Hno].
  unfold nimble_mutex_lock, lock_outcome. rewrite Ho.
  assert ((timeout =? NIMBLE_NO_WAIT) = false) as Ewait by by apply Z.eqb_neq.
  wp_step. apply wp_enter. wp_step. apply wp_gets. wp_step. eapply wp_get_mutex; [done|].
  rewrite Ho. simpl. rewrite Hcur, bool_decide_eq_false_2 by congruence. rewrite Ewait.
  wp_step. apply (wp_oget _ t); [done|]. wp_step. eapply wp_get_tcb; [done|].
  wp_step. eapply wp_get_tcb; [done|]. wp_step.
  set (s0 := set_basepri NIMBLE_KERNEL_SYSCALL_BASEPRI s).
  wp_apply (boost_core s0 L m mu o t c co);
    [by apply core_basepri|by apply caller_basepri|done..|].
  intros _ s1 [-> HC1]. set (s1 := if priority co <? priority c then _ else s0) in *.
  assert (caller s1 t c) as Hcaller1.
  { apply (caller_basepri _ _ _ NIMBLE_KERNEL_SYSCALL_BASEPRI) in Hcaller. unfold s1.
    destruct (_ <? _); [|done]. destruct Hcaller. split; try done. simpl.
    by rewrite lookup_insert_ne. }
  eapply core_block; [done..|].
  intros s2 L2 HC2 Hobj Hfr Hbl. wp_step. apply wp_exit. apply wp_ret.
  destruct (boosted_frame s0 L m mu o co (priority c))
    as (HO1&Em1&Hfr1&Hp1&Etick&Hprio);
    [by apply core_basepri|by apply objects_basepri|done..|]. fold s1 in HO1, Em1, Hfr1, Hp1, Etick, Hprio.
  assert (objects_ok s2 L2) as HO2.
  { eapply (blocked_objects s1 L); [done|apply Hcaller1|done..|].
    simpl. rewrite Em1. intros mu' Hmu'. simplify_eq/=. rewrite Ho. split; congruence. }
  exists L2. split; [split; [by apply core_basepri|by apply objects_basepri]|].
  split; [apply (framed_basepri s _ NIMBLE_KERNEL_SYSCALL_BASEPRI); by etrans|]. rewrite decide_False by done. exists co. do 2 (split; [done|]).
  destruct Hobj as (Em&_&_), Hbl as (Hlist&_&_&ET&->). simpl.
  split; [by rewrite Em, Em1|]. split; [by rewrite ET, Etick, Hp1|].
  erewrite insert_by_ext; [done|]. intros w Hw'. by apply Hprio.
Qed.

(** The woken caller: it succeeded exactly if the mutex was handed to it. *)
Lemma mutex_lock_resume_spec s L t c m mu :
  kernel_inv s L → caller s t c → mutexes s !! m = Some mu →
  wp (nimble_mutex_lock_resume m t)
    (λ r s', kernel_inv s' L ∧ framed s s' ∧ caller s' t c ∧ same_objects s s' ∧
       tcbs s' = tcbs s ∧
       r = if decide (owner mu = Some t) then NIMBLE_OK else NIMBLE_ERR_TIMEOUT) s.
Proof.
  intros HI Hcaller Hm. pose proof HI as [HC HO]. unfold nimble_mutex_lock_resume.
  wp_step. apply wp_enter. wp_step. eapply wp_get_mutex; [done|]. wp_step.
  case_decide as Ho.
  - rewrite bool_decide_eq_true_2 by done. apply wp_ret. wp_step. apply wp_exit. apply wp_ret.
    rewrite set_basepri_id. split; [done|]. split; [done|]. by split.
  - rewrite bool_decide_eq_false_2 by done. wp_step.
    wp_apply core_remove_event; [by apply core_basepri|by apply caller_basepri|].
    intros _ s' [[m' ->] HC']. apply wp_ret. wp_step. apply wp_exit. apply wp_ret.
    split; [|split; [done|split; [|done]]].
    + split; [by apply core_basepri|]. apply objects_basepri.
      destruct HO as [HM HS HQ]. split; [|done..]. intros m0 mu0 Hm0. by destruct (HM m0 mu0 Hm0).
    + destruct Hcaller. by split.
Qed.

Definition unlock_outcome s L t c (m : nat) mu (r : Z * bool) s' L' : Prop :=
  let n := u32 (lock_count mu - 1) in
  if decide (owner mu ≠ Some t) then r = (NIMBLE_ERR_NOT_OWNER, false) ∧ s' = s ∧ L' = L
  else if 0 <? n then
    r = (NIMBLE_OK, false) ∧ mutexes s' = <[m := Mutex (Some t) n]> (mutexes s) ∧
    tcbs s' = tcbs s ∧ L' = L
  else
    let T := <[t := set_priority (base_priority c) c]> (tcbs s) in
    match get_list L (NMutex m) with
    | [] => r = (NIMBLE_OK, false) ∧ mutexes s' = <[m := Mutex None n]> (mutexes s) ∧
        tcbs s' = T ∧ L' = L
    | NEvent w :: ws => r = (NIMBLE_OK, true) ∧
        mutexes s' = <[m := Mutex (Some w) 1]> (mutexes s) ∧ get_list L' (NMutex m) = ws ∧
        ∃ cw, tcbs s !! w = Some cw ∧ state cw = NIMBLE_TASK_BLOCKED ∧
          tcbs s' = <[w := set_woken NIMBLE_OK cw]> T ∧
          L' = L_ready w (priority cw) (L_detach w L)
    | _ => False
    end.

Lemma mutex_unlock_not_owner s L t c m mu :
  caller s t c → mutexes s !! m = Some mu → owner mu ≠ Some t →
  wp (nimble_mutex_unlock_crit m) (λ r s', r = (NIMBLE_ERR_NOT_OWNER, false) ∧ s' = s) s.
Proof.
  intros [Hcur _ _ _] Hm Ho. unfold nimble_mutex_unlock_crit.
  wp_step. apply wp_enter. wp_step. apply wp_gets. wp_step. eapply wp_get_mutex; [done|].
  simpl. rewrite Hcur, bool_decide_eq_false_2 by done. simpl.
  wp_step. apply wp_exit. apply wp_ret. by rewrite set_basepri_id.
Qed.

Lemma mutex_unlock_recursive s L t c m mu :
  kernel_inv s L → caller s t c → mutexes s !! m = Some mu → owner mu = Some t →
  0 < u32 (lock_count mu - 1) →
  wp (nimble_mutex_unlock_crit m)
    (λ r s', kernel_inv s' L ∧ framed s s' ∧ caller s' t c ∧
             unlock_outcome s L t c m mu r s' L) s.
Proof.
  intros [HC HO] [Hcur Ht Hs Hid] Hm Ho Hn. unfold nimble_mutex_unlock_crit, unlock_outcome.
  apply Z.ltb_lt in Hn. rewrite Hn.
  wp_step. apply wp_enter. wp_step. apply wp_gets. wp_step. eapply wp_get_mutex; [done|].
  simpl. rewrite Hcur, bool_decide_eq_true_2, Hn by done. simpl.
  wp_step. apply wp_modify. wp_step. apply wp_exit. apply wp_ret.
  rewrite decide_False, Ho by naive_solver.
  pose proof (oo_mutex _ _ HO m mu Hm) as [Hl Hc Hf Hw].
  split; [|split; [|split; done]].
  - split; [by apply core_basepri, core_put_mutex, core_basepri|].
    apply objects_basepri, (put_mutex_objects (set_basepri NIMBLE_KERNEL_SYSCALL_BASEPRI s));
      [by apply objects_basepri|]. split; simpl.
    + done.
    + apply u32_range.
    + done.
    + intros o' [= <-]. by apply Hw.
  - apply (framed_basepri s _ NIMBLE_KERNEL_SYSCALL_BASEPRI).
    by eapply (framed_put_mutex (set_basepri NIMBLE_KERNEL_SYSCALL_BASEPRI s)).
Qed.

(** Giving the mutex to [new], once its list has lost its head. *)
Lemma objects_handed s L m mu new n s1 s2 L2 :
  objects_ok s L → mutexes s !! m = Some mu →
  mutexes s1 = <[m := Mutex None n]> (mutexes s) → semaphores s1 = semaphores s →
  queues s1 = queues s → (∀ u, is_Some (tcbs s !! u) → is_Some (tcbs s1 !! u)) →
  shrunk s1 L s2 L2 → same_objects s1 s2 →
  mutex_ok s2 L2 m new →
  objects_ok (set_mutexes (<[m := new]> (mutexes s2)) s2) L2.
Proof.
  intros [HM HS HQ] Hm Em1 Es1 Eq1 Hdom Hsh (Em&Es&Eq) Hnew.
  split; simpl; rewrite ?Em, ?Es, ?Eq, ?Em1, ?Es1, ?Eq1.
  - intros m' mu'. rewrite insert_insert_eq.
    intros [[<- <-]|[Hne Hm']]%lookup_insert_Some; [by destruct Hnew|].
    assert (mutex_ok s1 L m' mu') as Hok.
    { destruct (HM m' mu' Hm') as [? ? ? Ho]. split; try done.
      intros o Eo. destruct (Ho o Eo). auto. }
    eapply shrunk_mutex in Hok; [|done]. by destruct Hok.
  - intros x sem Hx. by eapply shrunk_sem, HS.
  - intros q qu Hq. by eapply shrunk_queue, HQ.
Qed.

(** The woken head of a wait list is on it no longer. *)
Lemma woken_not_waiting s L h w s' L' :
  kernel_core s L → is_Some (L !! h) → woken_from s L h (Some w) s' L' →
  NEvent w ∉ get_list L' h.
Proof.
  intros HC Hh (ws&cw&Hl&->&_) Hin. apply get_list_Some in Hh.
  pose proof (repr_nodup _ _ (si_repr _ _ _ (ki_sched _ _ HC)) _ _ Hh) as Hnd.
  rewrite Hl in Hnd. by apply NoDup_cons in Hnd as [? _].
Qed.

Lemma mutex_unlock_release s L t c m mu :
  kernel_inv s L → caller s t c → mutexes s !! m = Some mu → owner mu = Some t →
  u32 (lock_count mu - 1) = 0 →
  wp (nimble_mutex_unlock_crit m)
    (λ r s', ∃ L' c', kernel_inv s' L' ∧ framed s s' ∧ caller s' t c' ∧
             unlock_outcome s L t c m mu r s' L') s.
Proof.
  intros [HC HO] Hcaller Hm Ho Hn. pose proof Hcaller as [Hcur Ht Hs Hid].
  pose proof (oo_mutex _ _ HO m mu Hm) as [Hl Hc Hf Hw]. pose proof (ki_sched _ _ HC) as HI.
  unfold nimble_mutex_unlock_crit, unlock_outcome. rewrite Hn.
  wp_step. apply wp_enter. wp_step. apply wp_gets. wp_step. eapply wp_get_mutex; [done|].
  simpl. rewrite Hcur, bool_decide_eq_true_2, Hn by done. simpl.
  wp_step. apply wp_modify. wp_step. apply (wp_oget _ t); [done|].
  wp_step. eapply wp_upd_tcb; [done|]. wp_step. apply wp_modify. wp_step. simpl.
  rewrite insert_insert_eq.
  assert (¬ owner mu ≠ Some t) as Hdec by naive_solver.
  set (c1 := set_priority (base_priority c) c).
  set (s0 := set_basepri NIMBLE_KERNEL_SYSCALL_BASEPRI s).
  set (s1 := set_mutexes (<[m := Mutex None 0]> (mutexes s)) (set_tcbs (<[t := c1]> (tcbs s)) s0)).
  assert (kernel_core s1 L) as HC1.
  { apply core_put_mutex, (core_set_priority s0); [by apply core_basepri|done| |by left; rewrite Hs|].
    - pose proof (ki_base _ _ HC t c Ht). simpl. lia.
    - intros _. eapply event_unlinked; [done..|congruence]. }
  assert (framed s0 s1) as Hfr1.
  { split; try done; intros u; apply is_Some_upd; eauto. }
  assert (caller s1 t c1) as Hcaller1.
  { split; try done. apply lookup_insert_eq. }
  assert (∀ u, is_Some (tcbs s !! u) → is_Some (tcbs s1 !! u)) as Hdom.
  { intros u. apply (fr_tcbs _ _ Hfr1). }
  wp_apply core_wake; [exact HC1|done|done|].
  intros r s2 (L2&HC2&Hsh&Hobj&Hfr&Hwk).
  pose proof (caller_kept _ _ _ _ (woken_runners _ _ _ _ _ _ Hfr Hwk) Hcaller1) as Hcaller2.
  pose proof (objects_handed s L m mu) as Hhand.
  destruct r as [w|].
  - wp_step. apply wp_modify. wp_step. apply wp_exit. apply wp_ret.
    exists L2, c1. pose proof (woken_not_waiting _ _ _ _ _ _ HC1 Hl Hwk) as Hnw.
    destruct Hwk as (ws&cw&El&El2&Hcw&Hsw&ET2&_&EL2).
    rewrite decide_False, El by done.
    split; [split|split; [|split]].
    + by apply core_basepri, core_put_mutex.
    + apply objects_basepri. eapply (Hhand _ 0 s1); try done.
      split; simpl; [by eapply sh_heads|lia|done|]. intros ? [= <-].
      split; [by rewrite ET2, lookup_insert_eq|done].
    + apply (framed_basepri s _ NIMBLE_KERNEL_SYSCALL_BASEPRI). fold s0. trans s1; [done|].
      trans s2; [done|]. eapply framed_put_mutex. destruct Hobj as (->&_&_).
      apply lookup_insert_eq.
    + destruct Hcaller2. by split.
    + destruct Hobj as (Em&_&_). split; [done|]. simpl. rewrite Em. simpl.
      rewrite insert_insert_eq. do 2 (split; [done|]). exists cw. split; [|done].
      destruct (decide (w = t)) as [->|]; [|by simpl in Hcw; rewrite lookup_insert_ne in Hcw].
      exfalso. simpl in Hcw. rewrite lookup_insert_eq in Hcw. injection Hcw as <-.
      simpl in Hsw. congruence.
  - wp_step. apply wp_ret. wp_step. apply wp_exit. apply wp_ret.
    exists L, c1. destruct Hwk as (El&->&->). rewrite decide_False, El by done.
    split; [split|split; [|split]].
    + by apply core_basepri.
    + apply objects_basepri.
      assert (objects_ok (set_mutexes (<[m:=Mutex None 0]> (mutexes s1)) s1) L) as HO1.
      { eapply (Hhand _ 0 s1); [done..|apply shrunk_refl|done|by split]. }
      unfold s1 in HO1 |- *. simpl in HO1. by rewrite insert_insert_eq in HO1.
    + by apply (framed_basepri s _ NIMBLE_KERNEL_SYSCALL_BASEPRI).
    + by apply caller_basepri.
    + done.
Qed.

(** [nimble_mutex_lock] on every branch. *)
Lemma mutex_lock_spec s L t c m mu timeout :
  kernel_inv s L → caller s t c → mutexes s !! m = Some mu → boost_safe m t s →
  wp (nimble_mutex_lock m timeout)
    (λ r s', ∃ L', kernel_inv (X := settled c r X) s' L' ∧ framed s s' ∧
             (is_Some r → caller s' t c) ∧ lock_outcome s L t c m mu timeout r s' L') s.
Proof.
  intros HI Hcaller Hm Hsafe. destruct (owner mu) as [o|] eqn:Ho;
    [destruct (decide (o = t)) as [->|Hne]; [|destruct (decide (timeout = NIMBLE_NO_WAIT)) as [->|Hto]]|].
  - wp_apply mutex_lock_recursive; [done..|]. intros r s' (?&?&?&[r' ->]&?). by exists L.
  - wp_apply mutex_lock_no_wait; [done..|]. intros r s' [-> ->]. exists L.
    do 3 (split; [done|]). unfold lock_outcome. by rewrite Ho, decide_False.
  - wp_apply mutex_lock_blocks; [done..|]. intros r s' (L'&?&?&Hout). exists L'.
    do 2 (split; [done|]). split; [|done]. intros Hr. unfold lock_outcome in Hout.
    rewrite Ho, decide_False, (proj2 (Z.eqb_neq _ _) Hto) in Hout by done.
    destruct Hout as (?&_&->&_). by destruct Hr.
  - wp_apply mutex_lock_free; [done..|]. intros r s' (?&?&?&[r' ->]&?). by exists L.
Qed.

(** The critical section of [nimble_mutex_unlock] on every branch. *)
Lemma mutex_unlock_spec s L t c m mu :
  kernel_inv s L → caller s t c → mutexes s !! m = Some mu →
  wp (nimble_mutex_unlock_crit m)
    (λ r s', ∃ L' c', kernel_inv s' L' ∧ framed s s' ∧ caller s' t c' ∧
             unlock_outcome s L t c m mu r s' L') s.
Proof.
  intros HI Hcaller Hm. destruct (decide (owner mu = Some t)) as [Ho|Ho].
  - destruct (decide (u32 (lock_count mu - 1) = 0)) as [Hn|Hn]; [by apply mutex_unlock_release|].
    pose proof (u32_range (lock_count mu - 1)).
    wp_apply mutex_unlock_recursive; [done..|lia|]. intros r s' (?&?&?&?). eauto 7.
  - wp_apply mutex_unlock_not_owner; [done..|]. intros r s' [-> ->]. exists L, c.
    do 3 (split; [done|]). unfold unlock_outcome. by rewrite decide_True.
Qed.

End mode.

#[export] Instance lock_call {M : Mode} m timeout :
  KernelCall (nimble_mutex_lock m timeout)
    (λ t s, is_Some (mutexes s !! m) ∧ boost_safe m t s) (λ r, bool_decide (is_Some r)).
Proof.
  intros X s L t c HI Hc [[mu Hm] Hb]. wp_apply mutex_lock_spec; [done..|].
  intros r s' (L'&?&?&Hr&_). split; [eauto|]. split; [done|].
  intros ?%bool_decide_eq_true. eauto.
Qed.

#[export] Instance lock_resume_call {M : Mode} m t :
  KernelCall (nimble_mutex_lock_resume m t)
    (λ u s, u = t ∧ is_Some (mutexes s !! m)) (λ _, true).
Proof.
  intros X s L u c HI Hc [-> [mu Hm]]. wp_apply mutex_lock_resume_spec; [done..|].
  intros r s' (?&?&?&_). split; [eauto|]. split; [done|]. eauto.
Qed.

#[export] Instance unlock_call {M : Mode} m :
  KernelCall (nimble_mutex_unlock_crit m) (λ _ s, is_Some (mutexes s !! m)) (λ _, true).
Proof.
  intros X s L t c HI Hc [mu Hm]. wp_apply mutex_unlock_spec; [done..|].
  intros r s' (L'&c'&?&?&?&_). split; [eauto|]. split; [done|]. eauto.
Qed.

Lemma mutex_init_spec {M : Mode} {X : Stale} s L m :
  kernel_inv s L → get_list L (NMutex m) = [] →
  wp (nimble_mutex_init m)
    (λ _ s', kernel_inv s' (<[NMutex m := []]> L) ∧ init_frame s s' ∧
             mutexes s' = <[m := Mutex None 0]> (mutexes s) ∧
             semaphores s' = semaphores s ∧ queues s' = queues s) s.
Proof.
  intros HI HL. unfold nimble_mutex_init. wp_step. apply wp_modify. apply wp_on_nodes, wp_modify.
  destruct (inv_add_head s L (NMutex m)) as [HC HO]; [done..|].
  split; [split|done].
  - by apply (core_put_mutex (set_nodes _ s)).
  - apply (put_mutex_objects (set_nodes _ s)); [done|]. split; simpl.
    + rewrite lookup_insert_eq. eauto.
    + lia.
    + intros _. apply get_list_eq, lookup_insert_eq.
    + done.
Qed.
