(* ===== verification/Semaphore.v ===== *)
(** * Counting semaphores ([kernel/src/semaphore.c]) *)
From S2P Require Import Prelude DList Kernel Port Scheduler SchedInv SchedSpec WaitList Ring.
From S2P Require Import KernelInv KernelStep.
From stdpp Require Import options.

Definition nimble_semaphore_init (x : nat) (initial_count max_count : Z) : K unit :=
  put_semaphore x (Semaphore initial_count max_count) ;;
  on_nodes (nimble_list_init (NSem x)).

Definition insert_waiter_priority_sorted (waiters : nid) (t : tid) : K unit :=
  WaitList.insert_waiter_priority_sorted waiters t.

(** Up to the context switch, as for [nimble_mutex_lock]. *)
Definition nimble_semaphore_take (x : nat) (timeout_ticks : Z) : K (option Z) :=
  crit ← nimble_port_enter_critical;
  sem ← get_semaphore x;
  if 0 <? count sem then
    put_semaphore x (Semaphore (u32 (count sem - 1)) (max_count sem)) ;;
    nimble_port_exit_critical crit ;;
    mret (Some NIMBLE_OK)
  else if timeout_ticks =? NIMBLE_NO_WAIT then
    nimble_port_exit_critical crit ;;
    mret (Some NIMBLE_ERR_TIMEOUT)
  else
    self ← oget nimble_current_tcb;
    insert_waiter_priority_sorted (NSem x) self ;;
    nimble_scheduler_prepare_block self timeout_ticks ;;
    nimble_port_exit_critical crit ;;
    mret None.

Definition nimble_semaphore_take_resume (self : tid) : K Z :=
  crit ← nimble_port_enter_critical;
  on_nodes (nimble_list_remove (NEvent self)) ;;
  c ← get_tcb self;
  nimble_port_exit_critical crit ;;
  mret (last_wait_result c).

Definition nimble_semaphore_give_crit (x : nat) : K (Z * bool) :=
  crit ← nimble_port_enter_critical;
  woken ← nimble_scheduler_wake_waiter (NSem x);
  match woken with
  | Some _ =>
      nimble_port_exit_critical crit ;;
      mret (NIMBLE_OK, true)
  | None =>
      sem ← get_semaphore x;
      when (count sem <? max_count sem)
        (put_semaphore x (Semaphore (u32 (count sem + 1)) (max_count sem))) ;;
      nimble_port_exit_critical crit ;;
      mret (NIMBLE_OK, false)
  end.

Definition nimble_semaphore_give (x : nat) : K Z :=
  '(r, switch) ← nimble_semaphore_give_crit x;
  when switch nimble_port_request_context_switch ;;
  mret r.

(** The status and the final value of [*needs_yield]. *)
Definition nimble_semaphore_give_from_isr (x : nat) : K (Z * bool) :=
  woken ← nimble_scheduler_wake_waiter (NSem x);
  match woken with
  | Some _ => mret (NIMBLE_OK, true)
  | None =>
      sem ← get_semaphore x;
      when (count sem <? max_count sem)
        (put_semaphore x (Semaphore (u32 (count sem + 1)) (max_count sem))) ;;
      mret (NIMBLE_OK, false)
  end.

(** ** Specification *)

Implicit Types (L : gmap nid (list nid)) (t x : nat) (s : kstate) (c : nimble_tcb)
  (sem : nimble_semaphore).

Section mode.
Context {M : Mode} {X : Stale}.

Lemma wp_get_semaphore x sem (Q : nimble_semaphore → kstate → Prop) s :
  semaphores s !! x = Some sem → Q sem s → wp (get_semaphore x) Q s.
Proof. apply (wp_oget (λ s, semaphores s !! x)). Qed.

Lemma framed_put_semaphore s x v sem :
  semaphores s !! x = Some sem →
  framed s (set_semaphores (<[x := v]> (semaphores s)) s).
Proof. intros Hx. split; try done. intros x'. apply is_Some_upd. eauto. Qed.

(** The outcomes of [nimble_semaphore_take]. *)
Definition take_outcome s L t c x sem (timeout : Z) (r : option Z) s' L' : Prop :=
  if 0 <? count sem then
    r = Some NIMBLE_OK ∧ L' = L ∧ tcbs s' = tcbs s ∧
    semaphores s' = <[x := Semaphore (count sem - 1) (max_count sem)]> (semaphores s)
  else if timeout =? NIMBLE_NO_WAIT then
    r = Some NIMBLE_ERR_TIMEOUT ∧ s' = s ∧ L' = L
  else
    r = None ∧ semaphores s' = semaphores s ∧
    tcbs s' = <[t := blocked_tcb (g_tick_count s) timeout c]> (tcbs s) ∧
    L' = L_blocked t timeout
      (<[NSem x := insert_by s (priority c) (NEvent t) (get_list L (NSem x))]> L).

Lemma take_spec s L t c x sem timeout :
  kernel_inv s L → caller s t c → semaphores s !! x = Some sem →
  wp (nimble_semaphore_take x timeout)
    (λ r s', ∃ L', kernel_inv (X := settled c r X) s' L' ∧ framed s s' ∧
             (is_Some r → caller s' t c) ∧
             take_outcome s L t c x sem timeout r s' L') s.
Proof.
  intros [HC HO] Hcaller Hx. pose proof (oo_sem _ _ HO x sem Hx) as [Hl Hm Hc Hw].
  set (s0 := set_basepri NIMBLE_KERNEL_SYSCALL_BASEPRI s).
  assert (kernel_core s0 L) as HC0 by by apply core_basepri.
  assert (objects_ok s0 L) as HO0 by by apply objects_basepri.
  assert (caller s0 t c) as Hcaller0 by by apply caller_basepri.
  unfold nimble_semaphore_take, take_outcome.
  wp_step. apply wp_enter. wp_step. eapply wp_get_semaphore; [done|].
  destruct (Z.ltb_spec 0 (count sem)) as [Hpos|Hzero].
  - wp_step. apply wp_modify. wp_step. apply wp_exit. apply wp_ret. exists L.
    rewrite u32_small by lia.
    split; [split|split; [|split; [|done]]].
    + by apply core_basepri, core_put_semaphore.
    + apply objects_basepri, (put_semaphore_objects s0); [done|].
      split; simpl; [done|done|lia|]. intros Hne. specialize (Hw Hne). lia.
    + apply (framed_basepri s _ NIMBLE_KERNEL_SYSCALL_BASEPRI).
      by eapply (framed_put_semaphore s0).
    + intros _. destruct Hcaller. by split.
  - destruct (timeout =? NIMBLE_NO_WAIT).
    + wp_step. apply wp_exit. apply wp_ret. rewrite set_basepri_id. by exists L.
    + wp_step. apply (wp_oget _ t); [apply Hcaller|]. eapply (core_block s0); [done..|].
      intros s2 L2 HC2 Hobj Hfr Hbl. wp_step. apply wp_exit. apply wp_ret. exists L2.
      split; [split|split; [|split; [by intros []|]]].
      * by apply core_basepri.
      * apply objects_basepri. eapply (blocked_objects s0); [done|apply Hcaller|done..|].
        simpl. intros sem' Hx'. simplify_eq/=. lia.
      * by apply (framed_basepri s _ NIMBLE_KERNEL_SYSCALL_BASEPRI).
      * destruct Hbl as (_&_&_&ET&->), Hobj as (_&Es&_). do 3 (split; [done|]).
        by erewrite insert_by_ext.
Qed.

(** A resumed taker reports what woke it, and is on no wait list. *)
Lemma take_resume_spec s L t c :
  kernel_inv s L → caller s t c →
  wp (nimble_semaphore_take_resume t)
    (λ r s', kernel_inv s' L ∧ framed s s' ∧ caller s' t c ∧ same_objects s s' ∧
             tcbs s' = tcbs s ∧ r = last_wait_result c) s.
Proof.
  intros [HC HO] Hcaller. unfold nimble_semaphore_take_resume.
  wp_step. apply wp_enter. wp_step.
  wp_apply core_remove_event; [by apply core_basepri|by apply caller_basepri|].
  intros _ s' [[m' ->] HC']. wp_step. eapply wp_get_tcb; [apply Hcaller|].
  wp_step. apply wp_exit. apply wp_ret. split; [|split; [done|split; [|done]]].
  - split; [by apply core_basepri|]. apply objects_basepri.
    destruct HO as [HM HS HQ]. split; [|done..]. intros m mu Hm. by destruct (HM m mu Hm).
  - destruct Hcaller. by split.
Qed.

(** The outcomes of a give: the unit goes to the head waiter, or is counted
    up to the maximum. *)
Definition give_outcome s L x sem (r : Z * bool) s' L' : Prop :=
  match get_list L (NSem x) with
  | [] => r = (NIMBLE_OK, false) ∧ L' = L ∧ tcbs s' = tcbs s ∧
      semaphores s' =
        <[x := Semaphore (Z.min (count sem + 1) (max_count sem)) (max_count sem)]> (semaphores s)
  | NEvent w :: ws => r = (NIMBLE_OK, true) ∧ semaphores s' = semaphores s ∧
      get_list L' (NSem x) = ws ∧
      ∃ cw, tcbs s !! w = Some cw ∧ state cw = NIMBLE_TASK_BLOCKED ∧
        tcbs s' = <[w := set_woken NIMBLE_OK cw]> (tcbs s) ∧
        L' = L_ready w (priority cw) (L_detach w L)
  | _ => False
  end.

Lemma give_from_isr_spec s L x sem :
  kernel_inv s L → semaphores s !! x = Some sem →
  wp (nimble_semaphore_give_from_isr x)
    (λ r s', ∃ L', kernel_inv s' L' ∧ framed s s' ∧
       runners_kept s s' ∧ give_outcome s L x sem r s' L') s.
Proof.
  intros [HC HO] Hx. pose proof (oo_sem _ _ HO x sem Hx) as [Hl Hm Hc Hw].
  unfold nimble_semaphore_give_from_isr, give_outcome.
  wp_step. wp_apply core_wake; [done..|]. intros r s1 (L1&HC1&Hsh&(Em&Es&Eq)&Hfr&Hwk).
  assert (runners_kept s s1) as Hkept by by eapply woken_runners.
  assert (objects_ok s1 L1) as HO1 by by eapply shrunk_objects.
  destruct r as [w|].
  - apply wp_ret. exists L1. destruct Hwk as (ws&cw&El&El1&Hcw&Hsw&ET&_&EL). rewrite El.
    split; [done|]. do 2 (split; [done|]). do 3 (split; [done|]). by exists cw.
  - destruct Hwk as (El&->&->). rewrite El. wp_step. eapply wp_get_semaphore; [done|].
    wp_step. destruct (Z.ltb_spec (count sem) (max_count sem)) as [Hlt|Hge]; unfold when.
    + apply wp_modify, wp_ret. exists L. rewrite u32_small, Z.min_l by lia.
      split; [split|split; [|split; [|done]]].
      * by apply core_put_semaphore.
      * apply put_semaphore_objects; [done|]. split; simpl; [done..|lia|]. by rewrite El.
      * by eapply framed_put_semaphore.
      * done.
    + do 2 apply wp_ret. exists L. split; [done|]. do 2 (split; [done|]).
      rewrite Z.min_r by lia. split; [done|]. do 2 (split; [done|]).
      rewrite insert_id; [done|]. rewrite Hx. f_equal. destruct sem; simpl in *. f_equal. lia.
Qed.

(** [nimble_semaphore_give] is the same section inside a critical section. *)
Lemma give_crit_spec s L t c x sem :
  kernel_inv s L → caller s t c → semaphores s !! x = Some sem →
  wp (nimble_semaphore_give_crit x)
    (λ r s', ∃ L', kernel_inv s' L' ∧ framed s s' ∧ caller s' t c ∧
                   give_outcome s L x sem r s' L') s.
Proof.
  intros HI Hcaller Hx.
  set (s0 := set_basepri NIMBLE_KERNEL_SYSCALL_BASEPRI s).
  assert (wp (nimble_semaphore_give_from_isr x)
    (λ r s1, ∃ L', kernel_inv (set_basepri (basepri s) s1) L' ∧
       framed s (set_basepri (basepri s) s1) ∧
       caller (set_basepri (basepri s) s1) t c ∧
       give_outcome s L x sem r (set_basepri (basepri s) s1) L') s0) as Hisr.
  { wp_apply give_from_isr_spec; [by apply kernel_inv_basepri|done|].
    intros r s1 (L'&?&?&Hcl&Hout). exists L'. split; [by apply kernel_inv_basepri|].
    split; [by apply (framed_basepri s _ NIMBLE_KERNEL_SYSCALL_BASEPRI)|]. split; [|done].
    by apply caller_basepri, (caller_kept _ _ _ _ Hcl), caller_basepri. }
  unfold nimble_semaphore_give_crit. wp_step. apply wp_enter. wp_step. fold s0.
  unfold nimble_semaphore_give_from_isr, wp, mbind, M_bind in Hisr |- *.
  destruct (nimble_scheduler_wake_waiter (NSem x) s0) as [[[w|] s1]|]; [done| |done].
  destruct (get_semaphore x s1) as [[sem' s2]|]; [|done].
  destruct (when _ _ s2) as [[[] s3]|]; done.
Qed.

End mode.

#[export] Instance take_call {M : Mode} x timeout :
  KernelCall (nimble_semaphore_take x timeout)
    (λ _ s, is_Some (semaphores s !! x)) (λ r, bool_decide (is_Some r)).
Proof.
  intros X s L t c HI Hc [sem Hx]. wp_apply take_spec; [done..|].
  intros r s' (L'&?&?&Hr&_). split; [eauto|]. split; [done|].
  intros ?%bool_decide_eq_true. eauto.
Qed.

#[export] Instance take_resume_call {M : Mode} t :
  KernelCall (nimble_semaphore_take_resume t) (λ u _, u = t) (λ _, true).
Proof.
  intros X s L u c HI Hc ->. wp_apply take_resume_spec; [done..|].
  intros r s' (?&?&?&_). split; [eauto|]. split; [done|]. eauto.
Qed.

#[export] Instance give_call {M : Mode} x :
  KernelCall (nimble_semaphore_give_crit x) (λ _ s, is_Some (semaphores s !! x)) (λ _, true).
Proof.
  intros X s L t c HI Hc [sem Hx]. wp_apply give_crit_spec; [done..|].
  intros r s' (L'&?&?&?&_). split; [eauto|]. split; [done|]. eauto.
Qed.

Lemma semaphore_init_spec {M : Mode} {X : Stale} s L x initial max :
  kernel_inv s L → get_list L (NSem x) = [] → 0 ≤ initial ≤ max → max < 2 ^ 32 →
  wp (nimble_semaphore_init x initial max)
    (λ _ s', kernel_inv s' (<[NSem x := []]> L) ∧ init_frame s s' ∧
             semaphores s' = <[x := Semaphore initial max]> (semaphores s) ∧
             mutexes s' = mutexes s ∧ queues s' = queues s) s.
Proof.
  intros HI HL Hi Hm. unfold nimble_semaphore_init.
  wp_step. apply wp_modify. apply wp_on_nodes, wp_modify.
  destruct (inv_add_head s L (NSem x)) as [HC HO]; [done..|].
  split; [split|done].
  - by apply (core_put_semaphore (set_nodes _ s)).
  - apply (put_semaphore_objects (set_nodes _ s)); [done|]. split; simpl.
    + rewrite lookup_insert_eq. eauto.
    + lia.
    + lia.
    + rewrite (get_list_eq _ _ _ (lookup_insert_eq _ _ _)). done.
Qed.
