(* ===== verification/Queue.v ===== *)
(** * Blocking queues ([kernel/src/queue.c]) *)
From S2P Require Import Prelude DList Kernel Port Scheduler SchedInv SchedSpec WaitList Ring.
From S2P Require Import KernelInv KernelStep.
From stdpp Require Import options.

Definition insert_waiter_priority_sorted (waiters : nid) (t : tid) : K unit :=
  WaitList.insert_waiter_priority_sorted waiters t.

Definition nimble_queue_init (q : nat) (buffer : list Z) (size cap : Z) : K unit :=
  put_queue q (Queue buffer size cap 0 0 0) ;;
  on_nodes (nimble_list_init (NQRecv q)) ;;
  on_nodes (nimble_list_init (NQSend q)).

(** The two copies, on the queue [q] of the state. *)
Definition queue_copy_in (q : nat) (item : list Z) : K unit :=
  qu ← get_queue q;
  qu' ← oget (λ _, copy_in qu item);
  put_queue q qu'.
Definition queue_copy_out (q : nat) : K (list Z) :=
  qu ← get_queue q;
  r ← oget (λ _, copy_out qu);
  put_queue q (snd r) ;; mret (fst r).

(** The calls return the status and whether a switch request follows;
    [None] is a blocked caller, which requests a switch and goes on with the
    [_resume] half.  A receive also returns what it stored in [*out_item]. *)
Definition nimble_queue_send (q : nat) (item : list Z) (timeout_ticks : Z) :
    K (option (Z * bool)) :=
  crit ← nimble_port_enter_critical;
  qu ← get_queue q;
  if q_count qu <? capacity qu then
    queue_copy_in q item ;;
    woken ← nimble_scheduler_wake_waiter (NQRecv q);
    nimble_port_exit_critical crit ;;
    mret (Some (NIMBLE_OK, bool_decide (is_Some woken)))
  else if timeout_ticks =? NIMBLE_NO_WAIT then
    nimble_port_exit_critical crit ;;
    mret (Some (NIMBLE_ERR_FULL, false))
  else
    self ← oget nimble_current_tcb;
    insert_waiter_priority_sorted (NQSend q) self ;;
    nimble_scheduler_prepare_block self timeout_ticks ;;
    nimble_port_exit_critical crit ;;
    mret None.

Definition nimble_queue_send_resume (q : nat) (item : list Z) (self : tid) : K Z :=
  crit ← nimble_port_enter_critical;
  on_nodes (nimble_list_remove (NEvent self)) ;;
  c ← get_tcb self;
  qu ← get_queue q;
  result ← (if last_wait_result c =? NIMBLE_ERR_TIMEOUT then mret NIMBLE_ERR_TIMEOUT
            else if q_count qu <? capacity qu then queue_copy_in q item ;; mret NIMBLE_OK
            else mret NIMBLE_ERR_FULL);
  nimble_port_exit_critical crit ;;
  mret result.

Definition nimble_queue_receive (q : nat) (timeout_ticks : Z) :
    K (option (Z * option (list Z) * bool)) :=
  crit ← nimble_port_enter_critical;
  qu ← get_queue q;
  if 0 <? q_count qu then
    out ← queue_copy_out q;
    woken ← nimble_scheduler_wake_waiter (NQSend q);
    nimble_port_exit_critical crit ;;
    mret (Some (NIMBLE_OK, Some out, bool_decide (is_Some woken)))
  else if timeout_ticks =? NIMBLE_NO_WAIT then
    nimble_port_exit_critical crit ;;
    mret (Some (NIMBLE_ERR_EMPTY, None, false))
  else
    self ← oget nimble_current_tcb;
    insert_waiter_priority_sorted (NQRecv q) self ;;
    nimble_scheduler_prepare_block self timeout_ticks ;;
    nimble_port_exit_critical crit ;;
    mret None.

Definition nimble_queue_receive_resume (q : nat) (self : tid) : K (Z * option (list Z)) :=
  crit ← nimble_port_enter_critical;
  on_nodes (nimble_list_remove (NEvent self)) ;;
  c ← get_tcb self;
  qu ← get_queue q;
  result ← (if last_wait_result c =? NIMBLE_ERR_TIMEOUT then mret (NIMBLE_ERR_TIMEOUT, None)
            else if 0 <? q_count qu then
              out ← queue_copy_out q; mret (NIMBLE_OK, Some out)
            else mret (NIMBLE_ERR_EMPTY, None));
  nimble_port_exit_critical crit ;;
  mret result.

(** The status and the final value of [*needs_yield]. *)
Definition nimble_queue_send_from_isr (q : nat) (item : list Z) : K (Z * bool) :=
  qu ← get_queue q;
  if capacity qu <=? q_count qu then mret (NIMBLE_ERR_FULL, false) else
  queue_copy_in q item ;;
  woken ← nimble_scheduler_wake_waiter (NQRecv q);
  mret (NIMBLE_OK, bool_decide (is_Some woken)).

(** ** Specification *)

Implicit Types (L : gmap nid (list nid)) (t q : nat) (s : kstate) (c : nimble_tcb)
  (qu : nimble_queue).

Section mode.
Context {M : Mode} {X : Stale}.

Lemma wp_get_queue q qu (Q : nimble_queue → kstate → Prop) s :
  queues s !! q = Some qu → Q qu s → wp (get_queue q) Q s.
Proof. apply (wp_oget (λ s, queues s !! q)). Qed.

(** What both copies do to the state: only the queue's structure changes. *)
Definition queue_put s q qu' s' : Prop := s' = set_queues (<[q := qu']> (queues s)) s.

Lemma put_queue_inv s L q qu qu' :
  kernel_inv s L → queues s !! q = Some qu → queue_wf qu' → item_size qu' = item_size qu →
  kernel_inv (set_queues (<[q := qu']> (queues s)) s) L ∧
  framed s (set_queues (<[q := qu']> (queues s)) s) ∧
  runners_kept s (set_queues (<[q := qu']> (queues s)) s).
Proof.
  intros [HC HO] Hq Hwf Hsz. destruct (oo_queue _ _ HO q qu Hq).
  split; [split; [by apply core_put_queue|by apply put_queue_objects]|]. split.
  - split; try done. intros q'. simpl. destruct (decide (q' = q)) as [->|].
    + rewrite lookup_insert_eq, Hq. simpl. by rewrite Hsz.
    + by rewrite lookup_insert_ne.
  - done.
Qed.

Lemma queue_copy_in_spec s L q qu item :
  kernel_inv s L → queues s !! q = Some qu → q_count qu < capacity qu →
  item_size qu ≤ Z.of_nat (length item) →
  wp (queue_copy_in q item)
    (λ _ s', ∃ qu', queue_put s q qu' s' ∧ queue_wf qu' ∧
       items qu' = items qu ++ [take (Z.to_nat (item_size qu)) item] ∧
       capacity qu' = capacity qu ∧ item_size qu' = item_size qu) s.
Proof.
  intros [HC HO] Hq Hroom Hitem. destruct (oo_queue _ _ HO q qu Hq) as [_ _ Hwf].
  destruct (copy_in_refines qu item Hwf Hroom Hitem) as (qu'&Heq&Hwf'&Hit&Hcap&Hsz&_).
  unfold queue_copy_in. wp_step. eapply wp_get_queue; [done|].
  wp_step. eapply (wp_oget _ qu'); [done|]. apply wp_modify. by exists qu'.
Qed.

Lemma queue_copy_out_spec s L q qu :
  kernel_inv s L → queues s !! q = Some qu → 0 < q_count qu →
  wp (queue_copy_out q)
    (λ out s', ∃ qu', queue_put s q qu' s' ∧ queue_wf qu' ∧
       items qu = out :: items qu' ∧
       capacity qu' = capacity qu ∧ item_size qu' = item_size qu) s.
Proof.
  intros [HC HO] Hq Hne. destruct (oo_queue _ _ HO q qu Hq) as [_ _ Hwf].
  destruct (copy_out_refines qu Hwf Hne) as (out&qu'&Heq&Hwf'&Hit&_&Hcap&Hsz&_).
  unfold queue_copy_out. wp_step. eapply wp_get_queue; [done|].
  wp_step. eapply (wp_oget _ (out, qu')); [done|]. wp_step. apply wp_modify, wp_ret. simpl.
  by exists qu'.
Qed.

(** Copy, then wake the other side: the common core of a send that finds room
    and of a receive that finds an item. *)
Lemma queue_wake_spec s L q qu qu' h :
  kernel_inv s L → queues s !! q = Some qu → queue_wf qu' → item_size qu' = item_size qu →
  h = NQRecv q ∨ h = NQSend q →
  wp (nimble_scheduler_wake_waiter h)
    (λ r s', ∃ L', kernel_inv s' L' ∧ framed s s' ∧
       queues s' = <[q := qu']> (queues s) ∧
       runners_kept s s' ∧
       wake_outcome s L h (bool_decide (is_Some r)) s' L')
    (set_queues (<[q := qu']> (queues s)) s).
Proof.
  intros HI Hq Hwf Hsz Hh. destruct (put_queue_inv _ _ _ _ _ HI Hq Hwf Hsz) as (HI1&Hfr1&Hc1).
  destruct (oo_queue _ _ (ki_objects _ _ HI) q qu Hq).
  wp_apply inv_wake; [done|by destruct Hh as [->| ->]|by destruct Hh as [->| ->]|].
  intros r s' (L'&HI'&Hfr&(_&_&Eq)&Hc&Hwk). exists L'. split; [done|].
  split; [by etrans|]. split; [done|]. split; [by etrans|done].
Qed.

(** A well-formed queue of the same size. *)
Definition reshaped qu qu' : Prop :=
  queue_wf qu' ∧ capacity qu' = capacity qu ∧ item_size qu' = item_size qu.

(** The outcomes of the three sending calls. *)
Definition sent s L q qu (item : list Z) (woken : bool) s' L' : Prop :=
  ∃ qu', queues s' = <[q := qu']> (queues s) ∧ reshaped qu qu' ∧
    items qu' = items qu ++ [take (Z.to_nat (item_size qu)) item] ∧
    wake_outcome s L (NQRecv q) woken s' L'.

Definition queued s L t c h (timeout : Z) s' L' : Prop :=
  queues s' = queues s ∧
  tcbs s' = <[t := blocked_tcb (g_tick_count s) timeout c]> (tcbs s) ∧
  L' = L_blocked t timeout (<[h := insert_by s (priority c) (NEvent t) (get_list L h)]> L).

Definition send_outcome s L t c q qu item (timeout : Z) (r : option (Z * bool)) s' L' : Prop :=
  if q_count qu <? capacity qu then
    ∃ woken, r = Some (NIMBLE_OK, woken) ∧ sent s L q qu item woken s' L'
  else if timeout =? NIMBLE_NO_WAIT then
    r = Some (NIMBLE_ERR_FULL, false) ∧ s' = s ∧ L' = L
  else r = None ∧ queued s L t c (NQSend q) timeout s' L'.

Definition received s L q qu (out : list Z) (woken : bool) s' L' : Prop :=
  ∃ qu', queues s' = <[q := qu']> (queues s) ∧ reshaped qu qu' ∧
    items qu = out :: items qu' ∧ wake_outcome s L (NQSend q) woken s' L'.

Definition receive_outcome s L t c q qu (timeout : Z)
    (r : option (Z * option (list Z) * bool)) s' L' : Prop :=
  if 0 <? q_count qu then
    ∃ out woken, r = Some (NIMBLE_OK, Some out, woken) ∧ received s L q qu out woken s' L'
  else if timeout =? NIMBLE_NO_WAIT then
    r = Some (NIMBLE_ERR_EMPTY, None, false) ∧ s' = s ∧ L' = L
  else r = None ∧ queued s L t c (NQRecv q) timeout s' L'.

(** The blocking branch that both calls end with. *)
Lemma queue_block_spec {A} s L t c q qu h timeout (r : A) :
  kernel_inv s L → caller s t c → queues s !! q = Some qu →
  h = NQRecv q ∨ h = NQSend q →
  wp (WaitList.insert_waiter_priority_sorted h t ;;
      nimble_scheduler_prepare_block t timeout ;;
      nimble_port_exit_critical (basepri s) ;; mret r)
    (λ r' s', ∃ L', kernel_inv (X := less_stale (priority c) X) s' L' ∧ framed s s' ∧ r' = r ∧
                    queued s L t c h timeout s' L')
    (set_basepri NIMBLE_KERNEL_SYSCALL_BASEPRI s).
Proof.
  intros [HC HO] Hcaller Hq Hh. destruct (oo_queue _ _ HO q qu Hq) as [Hr Hs _].
  set (s0 := set_basepri NIMBLE_KERNEL_SYSCALL_BASEPRI s).
  eapply (core_block s0 L h t c); [by apply core_basepri|by apply caller_basepri|
    by destruct Hh as [->| ->]|by destruct Hh as [->| ->]|].
  intros s2 L2 HC2 Hobj Hfr Hbl. wp_step. apply wp_exit. apply wp_ret. exists L2.
  split; [split|split; [|split; [done|]]].
  - by apply core_basepri.
  - apply objects_basepri. eapply (blocked_objects s0); [by apply objects_basepri|apply Hcaller|done..|].
    by destruct Hh as [->| ->].
  - by apply (framed_basepri s _ NIMBLE_KERNEL_SYSCALL_BASEPRI).
  - destruct Hbl as (_&_&_&ET&->), Hobj as (_&_&Eq). do 2 (split; [done|]).
    by erewrite insert_by_ext.
Qed.

(** Leaving the critical section of a call that made progress. *)
Lemma leave_crit s s' t c :
  framed (set_basepri NIMBLE_KERNEL_SYSCALL_BASEPRI s) s' → caller s' t c →
  framed s (set_basepri (basepri s) s') ∧ caller (set_basepri (basepri s) s') t c.
Proof.
  intros Hf Hc. split; [by apply (framed_basepri s _ NIMBLE_KERNEL_SYSCALL_BASEPRI)|].
  by apply caller_basepri.
Qed.

Lemma send_spec s L t c q qu item timeout :
  kernel_inv s L → caller s t c → queues s !! q = Some qu →
  item_size qu ≤ Z.of_nat (length item) →
  wp (nimble_queue_send q item timeout)
    (λ r s', ∃ L', kernel_inv (X := settled c r X) s' L' ∧ framed s s' ∧
             (is_Some r → caller s' t c) ∧
             send_outcome s L t c q qu item timeout r s' L') s.
Proof.
  intros HI Hcaller Hq Hitem. unfold nimble_queue_send, send_outcome.
  set (s0 := set_basepri NIMBLE_KERNEL_SYSCALL_BASEPRI s).
  assert (kernel_inv s0 L) as HI0 by by apply kernel_inv_basepri.
  assert (caller s0 t c) as Hcaller0 by by apply caller_basepri.
  wp_step. apply wp_enter. wp_step. eapply wp_get_queue; [done|].
  destruct (Z.ltb_spec (q_count qu) (capacity qu)) as [Hroom|Hfull].
  - wp_step. wp_apply (queue_copy_in_spec s0); [done..|].
    intros _ s1 (qu'&->&Hwf&Hit&Hcap&Hsz). wp_step.
    wp_apply (queue_wake_spec s0 L q qu qu'); [done..|by left|].
    intros r s2 (L2&HI2&Hfr&Eq&Hc&Hwk). wp_step. apply wp_exit. apply wp_ret. exists L2.
    destruct (leave_crit s s2 t c) as [? ?]; [done|by eapply caller_kept|].
    split; [by apply kernel_inv_basepri|]. split; [done|]. split; [done|].
    eexists. split; [done|]. exists qu'. done.
  - destruct (timeout =? NIMBLE_NO_WAIT).
    + wp_step. apply wp_exit. apply wp_ret. rewrite set_basepri_id. by exists L.
    + wp_step. apply (wp_oget _ t); [apply Hcaller|]. unfold insert_waiter_priority_sorted.
      wp_apply (queue_block_spec s L t c q qu); [done..|by right|].
      intros r s' (L'&?&?&->&?). exists L'. do 2 (split; [done|]). split; [by intros []|done].
Qed.

Lemma receive_spec s L t c q qu timeout :
  kernel_inv s L → caller s t c → queues s !! q = Some qu →
  wp (nimble_queue_receive q timeout)
    (λ r s', ∃ L', kernel_inv (X := settled c r X) s' L' ∧ framed s s' ∧
             (is_Some r → caller s' t c) ∧
             receive_outcome s L t c q qu timeout r s' L') s.
Proof.
  intros HI Hcaller Hq. unfold nimble_queue_receive, receive_outcome.
  set (s0 := set_basepri NIMBLE_KERNEL_SYSCALL_BASEPRI s).
  assert (kernel_inv s0 L) as HI0 by by apply kernel_inv_basepri.
  assert (caller s0 t c) as Hcaller0 by by apply caller_basepri.
  wp_step. apply wp_enter. wp_step. eapply wp_get_queue; [done|].
  destruct (Z.ltb_spec 0 (q_count qu)) as [Hne|Hempty].
  - wp_step. wp_apply (queue_copy_out_spec s0); [done..|].
    intros out s1 (qu'&->&Hwf&Hit&Hcap&Hsz). wp_step.
    wp_apply (queue_wake_spec s0 L q qu qu'); [done..|by right|].
    intros r s2 (L2&HI2&Hfr&Eq&Hc&Hwk). wp_step. apply wp_exit. apply wp_ret. exists L2.
    destruct (leave_crit s s2 t c) as [? ?]; [done|by eapply caller_kept|].
    split; [by apply kernel_inv_basepri|]. split; [done|]. split; [done|].
    eexists out, _. split; [done|]. exists qu'. done.
  - destruct (timeout =? NIMBLE_NO_WAIT).
    + wp_step. apply wp_exit. apply wp_ret. rewrite set_basepri_id. by exists L.
    + wp_step. apply (wp_oget _ t); [apply Hcaller|]. unfold insert_waiter_priority_sorted.
      wp_apply (queue_block_spec s L t c q qu); [done..|by left|].
      intros r s' (L'&?&?&->&?). exists L'. do 2 (split; [done|]). split; [by intros []|done].
Qed.

(** A send from an interrupt handler never blocks. *)
Lemma send_from_isr_spec s L q qu item :
  kernel_inv s L → queues s !! q = Some qu → item_size qu ≤ Z.of_nat (length item) →
  wp (nimble_queue_send_from_isr q item)
    (λ r s', ∃ L', kernel_inv s' L' ∧ framed s s' ∧ runners_kept s s' ∧
       if q_count qu <? capacity qu then
         ∃ woken, r = (NIMBLE_OK, woken) ∧ sent s L q qu item woken s' L'
       else r = (NIMBLE_ERR_FULL, false) ∧ s' = s ∧ L' = L) s.
Proof.
  intros HI Hq Hitem. unfold nimble_queue_send_from_isr.
  wp_step. eapply wp_get_queue; [done|]. rewrite Z.leb_antisym.
  destruct (Z.ltb_spec (q_count qu) (capacity qu)) as [Hroom|Hfull]; simpl.
  - wp_step. wp_apply queue_copy_in_spec; [done..|].
    intros _ s1 (qu'&->&Hwf&Hit&Hcap&Hsz). wp_step.
    wp_apply (queue_wake_spec s L q qu qu'); [done..|by left|].
    intros r s2 (L2&HI2&Hfr&Eq&Hc&Hwk). apply wp_ret. exists L2.
    do 3 (split; [done|]). eexists. split; [done|]. exists qu'. done.
  - apply wp_ret. by exists L.
Qed.

(** A resumed sender: its item is in the queue exactly if it reports
    success.  Nothing is woken. *)
Definition resumed_put s q qu qu' s' : Prop :=
  queues s' = <[q := qu']> (queues s) ∧ reshaped qu qu'.

(** The critical section of the resumed half of a call: the running task,
    unlinked from the wait list, works on the queue alone. *)
Lemma queue_resume_enter {A} s L t c (k : K A) Q :
  kernel_inv s L → caller s t c →
  (∀ m', kernel_inv (set_nodes m' (set_basepri NIMBLE_KERNEL_SYSCALL_BASEPRI s)) L →
         wp k Q (set_nodes m' (set_basepri NIMBLE_KERNEL_SYSCALL_BASEPRI s))) →
  wp (on_nodes (nimble_list_remove (NEvent t)) ;; k) Q
     (set_basepri NIMBLE_KERNEL_SYSCALL_BASEPRI s).
Proof.
  intros [HC HO] Hcaller Hk. wp_step.
  wp_apply core_remove_event; [by apply core_basepri|by apply caller_basepri|].
  intros _ s' [[m' ->] HC']. apply Hk. split; [done|].
  destruct HO as [HM HS HQ]. split; [|done..]. intros m mu Hm. by destruct (HM m mu Hm).
Qed.

Lemma send_resume_spec s L t c q qu item :
  kernel_inv s L → caller s t c → queues s !! q = Some qu →
  item_size qu ≤ Z.of_nat (length item) →
  wp (nimble_queue_send_resume q item t)
    (λ r s', kernel_inv s' L ∧ framed s s' ∧ caller s' t c ∧ tcbs s' = tcbs s ∧
       if last_wait_result c =? NIMBLE_ERR_TIMEOUT
       then r = NIMBLE_ERR_TIMEOUT ∧ queues s' = queues s
       else if q_count qu <? capacity qu
       then r = NIMBLE_OK ∧ ∃ qu', resumed_put s q qu qu' s' ∧
              items qu' = items qu ++ [take (Z.to_nat (item_size qu)) item]
       else r = NIMBLE_ERR_FULL ∧ queues s' = queues s) s.
Proof.
  intros HI Hcaller Hq Hitem. unfold nimble_queue_send_resume.
  wp_step. apply wp_enter. eapply queue_resume_enter; [done..|]. intros m' HI'.
  wp_step. eapply wp_get_tcb; [apply Hcaller|]. wp_step. eapply wp_get_queue; [done|]. wp_step.
  assert (caller (set_nodes m' (set_basepri NIMBLE_KERNEL_SYSCALL_BASEPRI s)) t c) as Hc'
    by (destruct Hcaller; by split).
  destruct (_ =? _); [|destruct (Z.ltb_spec (q_count qu) (capacity qu)) as [Hroom|Hfull]].
  - apply wp_ret. wp_step. apply wp_exit. apply wp_ret.
    split; [by apply kernel_inv_basepri|]. split; [done|]. split; [by apply caller_basepri|done].
  - wp_step. wp_apply queue_copy_in_spec; [done..|]. intros _ s1 (qu'&->&Hwf&Hit&Hcap&Hsz).
    apply wp_ret. wp_step. apply wp_exit. apply wp_ret.
    destruct (put_queue_inv _ _ q qu qu' HI') as (HI1&Hfr1&Hc1); [done..|].
    split; [by apply kernel_inv_basepri|].
    split; [apply (framed_basepri s _ NIMBLE_KERNEL_SYSCALL_BASEPRI); by trans
              (set_nodes m' (set_basepri NIMBLE_KERNEL_SYSCALL_BASEPRI s))|].
    split; [by eapply caller_basepri, caller_kept|]. split; [done|]. split; [done|]. by exists qu'.
  - apply wp_ret. wp_step. apply wp_exit. apply wp_ret.
    split; [by apply kernel_inv_basepri|]. split; [done|]. split; [by apply caller_basepri|done].
Qed.

Lemma receive_resume_spec s L t c q qu :
  kernel_inv s L → caller s t c → queues s !! q = Some qu →
  wp (nimble_queue_receive_resume q t)
    (λ r s', kernel_inv s' L ∧ framed s s' ∧ caller s' t c ∧ tcbs s' = tcbs s ∧
       if last_wait_result c =? NIMBLE_ERR_TIMEOUT
       then r = (NIMBLE_ERR_TIMEOUT, None) ∧ queues s' = queues s
       else if 0 <? q_count qu
       then ∃ out qu', r = (NIMBLE_OK, Some out) ∧ resumed_put s q qu qu' s' ∧
              items qu = out :: items qu'
       else r = (NIMBLE_ERR_EMPTY, None) ∧ queues s' = queues s) s.
Proof.
  intros HI Hcaller Hq. unfold nimble_queue_receive_resume.
  wp_step. apply wp_enter. eapply queue_resume_enter; [done..|]. intros m' HI'.
  wp_step. eapply wp_get_tcb; [apply Hcaller|]. wp_step. eapply wp_get_queue; [done|]. wp_step.
  assert (caller (set_nodes m' (set_basepri NIMBLE_KERNEL_SYSCALL_BASEPRI s)) t c) as Hc'
    by (destruct Hcaller; by split).
  destruct (_ =? _); [|destruct (Z.ltb_spec 0 (q_count qu)) as [Hne|Hempty]].
  - apply wp_ret. wp_step. apply wp_exit. apply wp_ret.
    split; [by apply kernel_inv_basepri|]. split; [done|]. split; [by apply caller_basepri|done].
  - wp_step. wp_apply queue_copy_out_spec; [done..|]. intros out s1 (qu'&->&Hwf&Hit&Hcap&Hsz).
    apply wp_ret. wp_step. apply wp_exit. apply wp_ret.
    destruct (put_queue_inv _ _ q qu qu' HI') as (HI1&Hfr1&Hc1); [done..|].
    split; [by apply kernel_inv_basepri|].
    split; [apply (framed_basepri s _ NIMBLE_KERNEL_SYSCALL_BASEPRI); by trans
              (set_nodes m' (set_basepri NIMBLE_KERNEL_SYSCALL_BASEPRI s))|].
    split; [by eapply caller_basepri, caller_kept|]. split; [done|]. by exists out, qu'.
  - apply wp_ret. wp_step. apply wp_exit. apply wp_ret.
    split; [by apply kernel_inv_basepri|]. split; [done|]. split; [by apply caller_basepri|done].
Qed.

End mode.

(** The calls as the rest of the system sees them. *)
#[export] Instance send_call {M : Mode} q item timeout :
  KernelCall (nimble_queue_send q item timeout)
    (λ _ s, ∃ qu, queues s !! q = Some qu ∧ item_size qu ≤ Z.of_nat (length item))
    (λ r, bool_decide (is_Some r)).
Proof.
  intros X s L t c HI Hc (qu&Hq&Hi). wp_apply send_spec; [done..|].
  intros r s' (L'&?&?&Hr&_). split; [eauto|]. split; [done|].
  intros ?%bool_decide_eq_true. eauto.
Qed.

#[export] Instance receive_call {M : Mode} q timeout :
  KernelCall (nimble_queue_receive q timeout)
    (λ _ s, is_Some (queues s !! q)) (λ r, bool_decide (is_Some r)).
Proof.
  intros X s L t c HI Hc [qu Hq]. wp_apply receive_spec; [done..|].
  intros r s' (L'&?&?&Hr&_). split; [eauto|]. split; [done|].
  intros ?%bool_decide_eq_true. eauto.
Qed.

#[export] Instance send_resume_call {M : Mode} q item t :
  KernelCall (nimble_queue_send_resume q item t)
    (λ u s, u = t ∧ ∃ qu, queues s !! q = Some qu ∧ item_size qu ≤ Z.of_nat (length item))
    (λ _, true).
Proof.
  intros X s L u c HI Hc (->&qu&Hq&Hi). wp_apply send_resume_spec; [done..|].
  intros r s' (?&?&?&_). split; [eauto|]. split; [done|]. eauto.
Qed.

#[export] Instance receive_resume_call {M : Mode} q t :
  KernelCall (nimble_queue_receive_resume q t)
    (λ u s, u = t ∧ is_Some (queues s !! q)) (λ _, true).
Proof.
  intros X s L u c HI Hc (->&qu&Hq). wp_apply receive_resume_spec; [done..|].
  intros r s' (?&?&?&_). split; [eauto|]. split; [done|]. eauto.
Qed.

(** An initialised queue is well formed and empty, if its buffer is as large
    as the two sizes say. *)
Lemma queue_init_spec {M : Mode} {X : Stale} s L q buffer size cap :
  kernel_inv s L → get_list L (NQRecv q) = [] → get_list L (NQSend q) = [] →
  0 ≤ size → 0 ≤ cap < 2 ^ 32 → size * cap < 2 ^ 32 →
  size * cap ≤ Z.of_nat (length buffer) →
  wp (nimble_queue_init q buffer size cap)
    (λ _ s', kernel_inv s' (<[NQSend q := []]> (<[NQRecv q := []]> L)) ∧ init_frame s s' ∧
       mutexes s' = mutexes s ∧ semaphores s' = semaphores s ∧
       ∃ qu, queues s' = <[q := qu]> (queues s) ∧ items qu = [] ∧ capacity qu = cap ∧
             item_size qu = size) s.
Proof.
  intros HI HR HS Hsz Hc Hm Hb. unfold nimble_queue_init.
  wp_step. apply wp_modify. wp_step. apply wp_on_nodes, wp_modify. apply wp_on_nodes, wp_modify.
  pose proof (inv_add_head s L (NQRecv q) HI HR eq_refl) as HI1.
  assert (get_list (<[NQRecv q := []]> L) (NQSend q) = []) as HS1
    by by rewrite get_list_add_head.
  destruct (inv_add_head _ _ (NQSend q) HI1 HS1 eq_refl) as [HC HO].
  split; [split|do 3 (split; [done|]); by eexists].
  - by apply (core_put_queue (set_nodes _ s)).
  - apply (put_queue_objects (set_nodes _ s)); [done|]. split; simpl.
    + rewrite lookup_insert_ne, lookup_insert_eq by done. eauto.
    + rewrite lookup_insert_eq. eauto.
    + split; simpl; try done; try lia.
Qed.
