(* ===== verification/Timer.v ===== *)
(** * Software timers ([kernel/src/timer.c]) *)
From S2P Require Import Prelude DList Kernel Port Scheduler Task Semaphore.
From stdpp Require Import options.

(** The service's static objects. *)
Definition timer_wake_sem : nat := 0%nat.
Definition timer_task_tcb : tid := 1%nat.

(** The [while] loop of the insertion: the first timer that expires after
    [expiry], or the list head. *)
Fixpoint scan_timers (fuel : nat) (expiry : Z) (node : nid) : K nid :=
  match fuel with
  | O => ub
  | S fuel =>
      if decide (node = NTimers) then mret node else
      other ← timer_of_link node;
      tm ← get_timer other;
      if i32 (expiry - expiry_tick tm) <? 0 then mret node else
      node ← on_nodes (get_next node);
      scan_timers fuel expiry node
  end.

Definition insert_sorted_by_expiry (x : nat) : K unit :=
  node ← on_nodes (get_next NTimers);
  tm ← get_timer x;
  fuel ← list_fuel;
  node ← scan_timers fuel (expiry_tick tm) node;
  on_nodes (link_before node (NTimer x)).

Definition set_expiry (v : Z) (tm : nimble_timer) : nimble_timer :=
  Timer (period_ticks tm) v (is_periodic tm) (is_active tm) (callback tm) (cb_arg tm)
    (timer_name tm).
Definition set_active (v : bool) (tm : nimble_timer) : nimble_timer :=
  Timer (period_ticks tm) (expiry_tick tm) (is_periodic tm) v (callback tm) (cb_arg tm)
    (timer_name tm).
Definition set_period (v : Z) (tm : nimble_timer) : nimble_timer :=
  Timer v (expiry_tick tm) (is_periodic tm) (is_active tm) (callback tm) (cb_arg tm)
    (timer_name tm).

(** ** The service task *)

(** How long the task sleeps: the first critical section of its loop. *)
Definition timer_wait_ticks : K Z :=
  crit ← nimble_port_enter_critical;
  e ← on_nodes (nimble_list_is_empty NTimers);
  wait ← (if (e : bool) then mret NIMBLE_WAIT_FOREVER else
          node ← on_nodes (get_next NTimers);
          x ← timer_of_link node;
          tm ← get_timer x;
          now ← nimble_scheduler_get_tick_count;
          let delta := i32 (expiry_tick tm - now) in
          mret (if 0 <? delta then u32 delta else NIMBLE_NO_WAIT));
  nimble_port_exit_critical crit ;;
  mret wait.

(** The expiry a periodic timer is rescheduled to. *)
Definition next_expiry (expiry period now : Z) : Z :=
  let next := u32 (expiry + period) in
  if i32 (next - now) <? 0 then u32 (now + period) else next.

(** One round of the inner loop: [None] is its [break]; otherwise the
    callback that the task runs next, and its argument. *)
Definition timer_expire_one : K (option (Z * Z)) :=
  crit ← nimble_port_enter_critical;
  e ← on_nodes (nimble_list_is_empty NTimers);
  if (e : bool) then nimble_port_exit_critical crit ;; mret None else
  node ← on_nodes (get_next NTimers);
  x ← timer_of_link node;
  tm ← get_timer x;
  now ← nimble_scheduler_get_tick_count;
  if 0 <? i32 (expiry_tick tm - now) then
    nimble_port_exit_critical crit ;; mret None
  else
    on_nodes (nimble_list_remove (NTimer x)) ;;
    (if is_periodic tm then
       put_timer x (set_expiry (next_expiry (expiry_tick tm) (period_ticks tm) now) tm) ;;
       insert_sorted_by_expiry x
     else put_timer x (set_active false tm)) ;;
    nimble_port_exit_critical crit ;;
    mret (Some (callback tm, cb_arg tm)).

(** The inner loop, for [fuel] rounds at most: [true] when it has come to its
    [break], [false] when it has not; [run] is the application's callback
    code. *)
Fixpoint timer_expire_loop (fuel : nat) (run : Z → Z → K unit) : K bool :=
  match fuel with
  | O => mret false
  | S fuel =>
      r ← timer_expire_one;
      match r with
      | None => mret true
      | Some (cb, arg) =>
          when (negb (cb =? 0)) (run cb arg) ;;
          timer_expire_loop fuel run
      end
  end.

(** ** The interface *)

Section image.
  Context `{Image}.

Definition nimble_timer_service_start (prio stack words : Z) : K Z :=
  on_nodes (nimble_list_init NTimers) ;;
  nimble_semaphore_init timer_wake_sem 0 1 ;;
  nimble_task_create (Some timer_task_tcb)
    (Some [116; 105; 109; 101; 114; 95; 115; 118; 99; 0]) timer_task_fn 0 stack words prio.
End image.

Definition nimble_timer_init (x : nat) (str : option (list Z)) (period : Z)
    (periodic : bool) (cb arg : Z) : K unit :=
  on_nodes (nimble_list_init (NTimer x)) ;;
  nm ← oget (λ _, stored_name str);
  put_timer x (Timer period 0 periodic false cb arg nm).

(** The critical section of [nimble_timer_start]: whether the timer became
    the head of the list. *)
Definition nimble_timer_start_crit (x : nat) : K bool :=
  crit ← nimble_port_enter_critical;
  tm ← get_timer x;
  when (is_active tm) (on_nodes (nimble_list_remove (NTimer x))) ;;
  now ← nimble_scheduler_get_tick_count;
  put_timer x (set_active true (set_expiry (u32 (now + period_ticks tm)) tm)) ;;
  insert_sorted_by_expiry x ;;
  hd ← on_nodes (get_next NTimers);
  nimble_port_exit_critical crit ;;
  mret (bool_decide (hd = NTimer x)).

Definition nimble_timer_start (x : nat) : K Z :=
  became_new_head ← nimble_timer_start_crit x;
  when became_new_head (nimble_semaphore_give timer_wake_sem ;; mret tt) ;;
  mret NIMBLE_OK.

Definition nimble_timer_stop (x : nat) : K Z :=
  crit ← nimble_port_enter_critical;
  tm ← get_timer x;
  when (is_active tm)
    (on_nodes (nimble_list_remove (NTimer x)) ;; put_timer x (set_active false tm)) ;;
  nimble_port_exit_critical crit ;;
  mret NIMBLE_OK.

(** The critical section of [nimble_timer_reset], which then starts the
    timer. *)
Definition nimble_timer_reset_crit (x : nat) (new_period_ticks : Z) : K unit :=
  crit ← nimble_port_enter_critical;
  tm ← get_timer x;
  put_timer x (set_period new_period_ticks tm) ;;
  nimble_port_exit_critical crit.

Definition nimble_timer_reset (x : nat) (new_period_ticks : Z) : K Z :=
  nimble_timer_reset_crit x new_period_ticks ;;
  nimble_timer_start x.
