(* ===== verification/TimerSpec.v ===== *)
(** * Software timers: specification

    The list of active timers in expiry order, what starting, stopping and
    firing a timer do to it, and the termination of the service's loop. *)
From S2P Require Import Prelude DList Kernel Port Scheduler SchedInv SchedSpec Task WaitList Ring.
From S2P Require Import KernelInv TaskSpec KernelStep Semaphore Timer.
From stdpp Require Import sorting options.
Open Scope Z_scope.

Implicit Types (L : gmap nid (list nid)) (n : nid) (x : nat) (s : kstate) (tm : nimble_timer)
  (xs ys : list nid).

(** ** The invariant of the timer list *)

Record timers_ok s L : Prop := {
  tm_list : is_Some (L !! NTimers);
  tm_nodes x : is_Some (timers s !! x) → is_Some (nodes s !! NTimer x);
  tm_active x tm : timers s !! x = Some tm →
    is_active tm = true ↔ NTimer x ∈ get_list L NTimers;
}.

(** What no operation on timers changes. *)
Definition inert s s' : Prop :=
  tcbs s' = tcbs s ∧ same_objects s s' ∧ nimble_current_tcb s' = nimble_current_tcb s ∧
  g_tick_count s' = g_tick_count s ∧ pendsv s' = pendsv s.

Definition expiry_of s n : Z :=
  match n with
  | NTimer x => match timers s !! x with Some tm => expiry_tick tm | None => 0 end
  | _ => 0
  end.

(** Insertion in front of the first timer that expires later. *)
Fixpoint insert_expiry s (e : Z) n xs : list nid :=
  match xs with
  | [] => [n]
  | y :: ys => if i32 (e - expiry_of s y) <? 0 then n :: y :: ys
               else y :: insert_expiry s e n ys
  end.

Lemma insert_expiry_perm s e n xs : insert_expiry s e n xs ≡ₚ n :: xs.
Proof.
  induction xs as [|y ys IH]; simpl; [done|].
  destruct (_ <? _); [done|]. rewrite IH. apply Permutation_swap.
Qed.

Lemma insert_expiry_split s e xs :
  ∃ xs1 xs2, xs = xs1 ++ xs2 ∧ ∀ n, insert_expiry s e n xs = xs1 ++ n :: xs2.
Proof.
  induction xs as [|y ys (xs1&xs2&->&IH)]; [by exists [], []|]. simpl.
  destruct (_ <? _); [by exists [], (y :: xs1 ++ xs2)|].
  exists (y :: xs1), xs2. split; [done|]. intros n. by rewrite IH.
Qed.

Lemma insert_expiry_ext s s' e n xs :
  (∀ y, y ∈ xs → expiry_of s' y = expiry_of s y) →
  insert_expiry s' e n xs = insert_expiry s e n xs.
Proof.
  induction xs as [|y ys IH]; intros Heq; [done|]. simpl.
  rewrite Heq by left. rewrite IH; [done|]. intros y' ?. apply Heq. by right.
Qed.

(** Time left until a timer expires; negative once it is overdue. *)
Definition remaining s n : Z := i32 (expiry_of s n - g_tick_count s).
(** Every listed expiry is within half the tick range of the present, on
    either side: what makes the signed comparison an order. *)
Definition window s xs : Prop := ∀ n, n ∈ xs → - 2 ^ 30 < remaining s n < 2 ^ 30.
Definition expiry_sorted s xs : Prop :=
  StronglySorted (λ a b, remaining s a ≤ remaining s b) xs.

(** The comparison of the code orders timers by the time they have left. *)
Lemma i32_sub_window e1 e2 now :
  - 2 ^ 30 < i32 (e1 - now) < 2 ^ 30 → - 2 ^ 30 < i32 (e2 - now) < 2 ^ 30 →
  i32 (e1 - e2) = i32 (e1 - now) - i32 (e2 - now).
Proof.
  assert (∀ z, ∃ k, i32 z = z + k * 2 ^ 32) as Hk.
  { intros z. unfold i32. pose proof (Z.div_mod z (2 ^ 32)) as Hd.
    destruct (_ <? _); [exists (- (z / 2 ^ 32))|exists (- (z / 2 ^ 32) - 1)]; lia. }
  intros H1 H2. destruct (Hk (e1 - now)) as [k1 E1], (Hk (e2 - now)) as [k2 E2].
  destruct (Hk (e1 - e2)) as [k3 E3]. pose proof (i32_range (e1 - e2)). lia.
Qed.

Lemma insert_expiry_sorted s n xs :
  window s (n :: xs) → expiry_sorted s xs →
  expiry_sorted s (insert_expiry s (expiry_of s n) n xs).
Proof.
  intros Hw Hs. induction Hs as [|y ys Hs IH Hall]; simpl; [repeat constructor|].
  assert (i32 (expiry_of s n - expiry_of s y) = remaining s n - remaining s y) as ->.
  { apply i32_sub_window; apply Hw; set_solver. }
  destruct (Z.ltb_spec (remaining s n - remaining s y) 0) as [Hlt|Hge].
  - repeat constructor; try done; [lia|]. eapply Forall_impl; [done|]. simpl. lia.
  - constructor; [apply IH; intros a Ha; apply Hw; set_solver|].
    rewrite insert_expiry_perm. constructor; [lia|done].
Qed.

(** ** List steps on the timer list *)

Section mode.
Context {M : Mode} {X : Stale}.

Lemma wp_get_timer x tm (Q : nimble_timer → kstate → Prop) s :
  timers s !! x = Some tm → Q tm s → wp (get_timer x) Q s.
Proof. apply (wp_oget (λ s, timers s !! x)). Qed.

Lemma timer_member s L n :
  kernel_inv s L → n ∈ get_list L NTimers →
  on L NTimers n ∧ ∃ x, n = NTimer x ∧ is_Some (timers s !! x).
Proof.
  intros HI Hn. assert (on L NTimers n) as Hon.
  { unfold get_list, on in *. destruct (L !! NTimers); [eauto|by apply elem_of_nil in Hn]. }
  split; [done|]. apply (si_typed _ _ _ (ki_sched _ _ (ki_core _ _ HI))) in Hon.
  destruct n as [| | |u| | | | | |x]; simpl in Hon; try tauto; [naive_solver|eauto].
Qed.

Lemma scan_timers_spec fuel s L e xs ys :
  kernel_inv s L → L !! NTimers = Some (xs ++ ys) → (length ys < fuel)%nat →
  wp (scan_timers fuel e (succ_of ys NTimers))
    (λ node s', s' = s ∧ ∃ ys1 ys2, ys = ys1 ++ ys2 ∧ node = succ_of ys2 NTimers ∧
       ∀ n, insert_expiry s e n ys = ys1 ++ n :: ys2) s.
Proof.
  intros HI. pose proof (ki_sched _ _ (ki_core _ _ HI)) as HS.
  revert xs ys. induction fuel as [|fuel IH]; intros xs ys Hh Hf; [lia|].
  unfold scan_timers; fold scan_timers. destruct ys as [|y ys].
  - rewrite decide_True by done. apply wp_ret. split; [done|]. by exists [], [].
  - destruct (timer_member s L y HI) as (_&x&->&tm&Htm).
    { rewrite (get_list_eq _ _ _ Hh). apply elem_of_insert_mid. by left. }
    change (succ_of (NTimer x :: ys) NTimers) with (NTimer x).
    rewrite decide_False by done.
    wp_step. apply wp_ret. wp_step. eapply wp_get_timer; [done|]. simpl. rewrite Htm.
    destruct (Z.ltb_spec (i32 (e - expiry_tick tm)) 0) as [Hlt|Hge].
    + apply wp_ret. split; [done|]. by exists [], (NTimer x :: ys).
    + wp_step. eapply wp_get_next_member; [by eapply si_repr|done|].
      wp_apply (IH (xs ++ [NTimer x]) ys); [by rewrite <- app_assoc|simpl in Hf; lia|].
      intros node s' [-> (ys1&ys2&->&->&Hins)]. split; [done|].
      exists (NTimer x :: ys1), ys2. do 2 (split; [done|]). intros n. by rewrite Hins.
Qed.

(** Relinking the timer list, and nothing else, keeps the kernel invariant. *)
Lemma timers_relink s L m' xs :
  kernel_inv s L → is_Some (L !! NTimers) → repr m' (<[NTimers := xs]> L) →
  dom m' = dom (nodes s) →
  (∀ n, n ∈ xs → ∃ x, n = NTimer x ∧ is_Some (timers s !! x)) →
  kernel_inv (set_nodes m' s) (<[NTimers := xs]> L).
Proof.
  intros [HC HO] Hlist HR Hd Hxs. pose proof HC as [HI Hcur Hidle Hbase Hsort].
  assert (∀ h, h ≠ NTimers → <[NTimers := xs]> L !! h = L !! h) as Hother
    by (intros; by apply lookup_insert_ne).
  assert (∀ h, is_Some (<[NTimers := xs]> L !! h) ↔ is_Some (L !! h)) as Hdom.
  { intros h. destruct Hlist as [xs0 ?]. by eapply is_Some_insert_same. }
  assert (∀ h n, h ≠ NTimers → on (<[NTimers := xs]> L) h n ↔ on L h n) as Hon.
  { intros h n Hne. unfold on. by rewrite Hother. }
  assert (∀ t h, (on (<[NTimers := xs]> L) h (NLink t) ↔ on L h (NLink t)) ∧
                 (on (<[NTimers := xs]> L) h (NEvent t) ↔ on L h (NEvent t))) as Htask.
  { intros t h. destruct (decide (h = NTimers)) as [->|Hne]; [|by rewrite !Hon].
    split; (split; [intros (ys&Hys&Hin); rewrite lookup_insert_eq in Hys; injection Hys as <-;
                    apply Hxs in Hin as (?&?&_); done|]);
      intros Hin; apply (si_typed _ _ _ HI) in Hin; simpl in Hin; tauto || naive_solver. }
  assert (∀ h, is_wait h = true → get_list (<[NTimers := xs]> L) h = get_list L h) as Hwait.
  { intros h Hw. unfold get_list. rewrite Hother; [done|]. by destruct h. }
  assert (sched_inv None (set_nodes m' s) (<[NTimers := xs]> L)) as HI'.
  { destruct HI as [HR0 Hty Hhd Hrd Hdl Hnd Hpr Hbr Hbm Hst Htk]. split; simpl; try done.
    - intros h n. destruct (decide (h = NTimers)) as [->|Hne]; [|rewrite Hon by done; apply Hty].
      intros (ys&Hys&Hin). rewrite lookup_insert_eq in Hys. injection Hys as <-.
      apply Hxs in Hin as (x&->&Hx). done.
    - intros h. rewrite Hdom. auto.
    - intros p. by rewrite Hdom.
    - by rewrite Hdom.
    - intros t [? ?]%Hnd. rewrite <- !elem_of_dom, Hd, !elem_of_dom. done.
    - intros p n Hp. rewrite Hon by done. by apply Hbm.
    - intros p Hp. setoid_rewrite Hon; [|done]. by apply Hst.
    - intros t c Ht Hne. eapply task_inv_ext; [intros h; apply Htask|intros h; apply Htask|auto]. }
  split; [split; try done|].
  - intros h Hord Hw. rewrite Hwait by done. by apply Hsort.
  - apply (shrunk_objects s L); [|done..]. apply shrunk_intro; [done|intros h; apply Hdom|].
    intros h Hw. by rewrite Hwait.
Qed.

(** Replacing timer structures keeps it too. *)
Lemma inv_set_timers s L T :
  (∀ x, is_Some (timers s !! x) → is_Some (T !! x)) → kernel_inv s L →
  kernel_inv (set_timers T s) L.
Proof.
  intros HT [[HI Hcur Hidle Hbase Hsort] [HM HS HQ]].
  split; [split; try done|split; [|done..]].
  - destruct HI as [HR Hty ? ? ? ? ? ? ? ? ?]. split; try done.
    intros h n Hon. specialize (Hty h n Hon). destruct h, n; simpl in *; auto.
  - intros m mu Hm. by destruct (HM m mu Hm).
Qed.

Definition L_timers L xs : gmap nid (list nid) := <[NTimers := xs]> L.

Lemma get_list_L_timers L xs h :
  get_list (L_timers L xs) h = if decide (h = NTimers) then xs else get_list L h.
Proof.
  unfold L_timers. case_decide as Hh.
  - subst. apply get_list_eq, lookup_insert_eq.
  - unfold get_list. by rewrite lookup_insert_ne.
Qed.

Lemma detach_timer s L x :
  kernel_inv s L → is_Some (L !! NTimers) →
  detach (NTimer x) L = L_timers L (without (NTimer x) (get_list L NTimers)).
Proof.
  intros HI Hl. apply map_eq. intros h. unfold detach, L_timers. rewrite lookup_fmap.
  destruct (decide (h = NTimers)) as [->|Hne].
  - rewrite lookup_insert_eq. apply get_list_Some in Hl. by rewrite Hl.
  - rewrite lookup_insert_ne by done. destruct (L !! h) as [xs|] eqn:Hh; [|done]. simpl.
    rewrite without_id; [done|]. intros Hin. assert (on L h (NTimer x)) as Hon by by exists xs.
    apply (si_typed _ _ _ (ki_sched _ _ (ki_core _ _ HI))) in Hon.
    destruct h; simpl in Hon; tauto.
Qed.

Lemma timer_unlinked s L x :
  kernel_inv s L → NTimer x ∉ get_list L NTimers → unlinked (NTimer x) L.
Proof.
  intros HI Hx. apply unlinked_on. intros h Hon.
  pose proof (si_typed _ _ _ (ki_sched _ _ (ki_core _ _ HI)) _ _ Hon) as Hty.
  destruct h; simpl in Hty; try tauto. apply Hx. destruct Hon as (xs&Hxs&Hin).
  by rewrite (get_list_eq _ _ _ Hxs).
Qed.

Lemma timer_nodes_item s L x : kernel_inv s L → L !! NTimer x = None.
Proof.
  intros HI. destruct (L !! NTimer x) eqn:E; [|done].
  by destruct (si_heads _ _ _ (ki_sched _ _ (ki_core _ _ HI)) (NTimer x)).
Qed.

Lemma timer_remove_spec s L x :
  kernel_inv s L → is_Some (L !! NTimers) → is_Some (nodes s !! NTimer x) →
  wp (on_nodes (nimble_list_remove (NTimer x)))
    (λ _ s', ∃ m', s' = set_nodes m' s ∧ dom m' = dom (nodes s) ∧
       kernel_inv s' (L_timers L (without (NTimer x) (get_list L NTimers)))) s.
Proof.
  intros HI Hl Hn. apply wp_on_nodes.
  wp_apply nimble_list_remove_spec;
    [apply HI|done|by eapply timer_nodes_item|].
  intros _ m' [HR Hd]. exists m'. do 2 (split; [done|]).
  rewrite (detach_timer s) in HR by done. apply timers_relink; try done.
  intros n [_ Hin]%elem_of_without. by apply (timer_member s L).
Qed.

Lemma insert_sorted_by_expiry_spec s L x tm :
  kernel_inv s L → is_Some (L !! NTimers) → is_Some (nodes s !! NTimer x) →
  timers s !! x = Some tm → NTimer x ∉ get_list L NTimers →
  wp (insert_sorted_by_expiry x)
    (λ _ s', ∃ m', s' = set_nodes m' s ∧ dom m' = dom (nodes s) ∧
       kernel_inv s' (L_timers L
         (insert_expiry s (expiry_tick tm) (NTimer x) (get_list L NTimers)))) s.
Proof.
  intros HI Hl Hn Htm Hx. pose proof (ki_sched _ _ (ki_core _ _ HI)) as HS.
  pose proof (get_list_Some _ _ Hl) as Hh. set (xs := get_list L NTimers) in *.
  unfold insert_sorted_by_expiry.
  wp_step. eapply wp_get_next_head; [apply HS|done|].
  wp_step. eapply wp_get_timer; [done|]. wp_step. apply wp_gets. wp_step.
  wp_apply (scan_timers_spec _ _ _ _ []); [done|done|by eapply list_shorter|].
  intros node s' [-> (ys1&ys2&Exs&->&Hins)]. rewrite Hins. apply wp_on_nodes.
  rewrite Exs in Hh. wp_apply link_before_spec; [apply HS|done|split; [done|..]|].
  - by eapply timer_nodes_item.
  - by eapply timer_unlinked.
  - intros _ m' [HR Hd]. exists m'. do 2 (split; [done|]). apply timers_relink; try done.
    intros n [->|Hin]%elem_of_insert_mid; [eauto|]. apply (timer_member s L); [done|].
    unfold xs in Exs. by rewrite Exs.
Qed.

(** ** Starting and stopping *)

(** The lists and structures after a start. *)
Definition started (now : Z) tm : nimble_timer :=
  set_active true (set_expiry (u32 (now + period_ticks tm)) tm).
Definition start_list s L x tm : list nid :=
  insert_expiry s (u32 (g_tick_count s + period_ticks tm)) (NTimer x)
    (without (NTimer x) (get_list L NTimers)).

(** The timer's own field does not matter to the scan of the others. *)
Lemma insert_expiry_upd s x v s' e n xs :
  timers s' = <[x := v]> (timers s) → NTimer x ∉ xs →
  insert_expiry s' e n xs = insert_expiry s e n xs.
Proof.
  intros ET Hx. apply insert_expiry_ext. intros y Hy. unfold expiry_of. rewrite ET.
  destruct y as [| | | | | | | | |z]; try done. rewrite lookup_insert_ne; [done|].
  intros ->. done.
Qed.

(** The active flags agree with the list again. *)
Lemma timers_ok_upd s L x tm tm' m' xs :
  timers_ok s L → timers s !! x = Some tm → dom m' = dom (nodes s) →
  (∀ y, NTimer y ∈ xs ↔ if decide (y = x) then is_active tm' = true
                        else NTimer y ∈ get_list L NTimers) →
  timers_ok (set_nodes m' (set_timers (<[x := tm']> (timers s)) s)) (L_timers L xs).
Proof.
  intros [Hl Hn Ha] Htm Hd Hxs. split; simpl.
  - unfold L_timers. rewrite lookup_insert_eq. eauto.
  - intros y. rewrite is_Some_upd by eauto. intros Hy%Hn.
    by rewrite <- elem_of_dom, Hd, elem_of_dom.
  - intros y tmy. rewrite get_list_L_timers, decide_True, Hxs by done.
    intros [[<- <-]|[Hne Hy]]%lookup_insert_Some; [by rewrite decide_True|].
    rewrite decide_False by done. by apply Ha.
Qed.

Lemma timer_start_spec s L x tm :
  kernel_inv s L → timers_ok s L → timers s !! x = Some tm →
  wp (nimble_timer_start_crit x)
    (λ r s', r = bool_decide (succ_of (start_list s L x tm) NTimers = NTimer x) ∧
       kernel_inv s' (L_timers L (start_list s L x tm)) ∧
       timers_ok s' (L_timers L (start_list s L x tm)) ∧
       timers s' = <[x := started (g_tick_count s) tm]> (timers s) ∧ inert s s') s.
Proof.
  intros HI Hok Htm. pose proof Hok as [Hl Hn Ha].
  set (xs := get_list L NTimers). set (s0 := set_basepri NIMBLE_KERNEL_SYSCALL_BASEPRI s).
  assert (kernel_inv s0 L) as HI0 by by apply kernel_inv_basepri.
  assert (wp (when (is_active tm) (on_nodes (nimble_list_remove (NTimer x))))
    (λ _ s', ∃ m', s' = set_nodes m' s0 ∧ dom m' = dom (nodes s) ∧
       kernel_inv s' (L_timers L (without (NTimer x) xs))) s0) as Hrm.
  { unfold when. destruct (is_active tm) eqn:Ea.
    - wp_apply timer_remove_spec; [done..|apply Hn; eauto|]. intros _ s' H. exact H.
    - apply wp_ret. exists (nodes s). split; [by destruct s|]. split; [done|].
      rewrite without_id.
      + unfold L_timers. rewrite insert_id by by apply get_list_Some. done.
      + unfold xs. rewrite <- (Ha x tm Htm). by rewrite Ea. }
  unfold nimble_timer_start_crit. wp_step. apply wp_enter. wp_step. eapply wp_get_timer; [done|].
  wp_step. eapply wp_mono; [exact Hrm|]. cbn beta. intros _ s1 (m1&->&Hd1&HI1).
  wp_step. apply wp_gets. wp_step. apply wp_modify. wp_step. simpl.
  fold (started (g_tick_count s) tm).
  assert (NTimer x ∉ without (NTimer x) xs) as Hnx by (rewrite elem_of_without; tauto).
  match goal with |- wp _ _ ?s2 => set (s2' := s2) end.
  assert (kernel_inv s2' (L_timers L (without (NTimer x) xs))) as HI2.
  { apply (inv_set_timers (set_nodes m1 s0)); [|done]. simpl. intros y Hy.
    apply lookup_insert_is_Some'. by right. }
  wp_apply (insert_sorted_by_expiry_spec s2' _ x (started (g_tick_count s) tm)); [exact HI2|..].
  { unfold L_timers. rewrite lookup_insert_eq. eauto. }
  { simpl. rewrite <- elem_of_dom, Hd1, elem_of_dom. apply Hn. eauto. }
  { apply lookup_insert_eq. }
  { by rewrite get_list_L_timers, decide_True. }
  intros _ s3 (m3&->&Hd3&HI3). rewrite get_list_L_timers, decide_True in HI3 by done.
  unfold L_timers in HI3. rewrite insert_insert_eq in HI3. fold (L_timers L) in HI3.
  assert (insert_expiry s2' (expiry_tick (started (g_tick_count s) tm)) (NTimer x)
            (without (NTimer x) xs) = start_list s L x tm) as E.
  { unfold start_list. by eapply insert_expiry_upd. }
  rewrite E in HI3.
  wp_step. eapply wp_get_next_head; [apply HI3|apply lookup_insert_eq|].
  wp_step. apply wp_exit. apply wp_ret. split; [done|].
  split; [by apply kernel_inv_basepri|]. split; [|done].
  assert (timers_ok (set_nodes m3 (set_timers (<[x := started (g_tick_count s) tm]> (timers s)) s))
            (L_timers L (start_list s L x tm))) as [? ? ?]; [|by split].
  apply (timers_ok_upd _ _ _ tm); [done|done|simpl in Hd3; congruence|].
  intros y. unfold start_list. rewrite insert_expiry_perm, elem_of_cons, elem_of_without.
  case_decide as Hy; [subst; split; [done|by left]|].
  split; [by intros [[= ->]|[_ ?]]|]. intros ?. right. split; [congruence|done].
Qed.

(** [nimble_timer_stop]: the timer is inactive and on no list. *)
Lemma timer_stop_spec s L x tm :
  kernel_inv s L → timers_ok s L → timers s !! x = Some tm →
  wp (nimble_timer_stop x)
    (λ r s', r = NIMBLE_OK ∧
       kernel_inv s' (L_timers L (without (NTimer x) (get_list L NTimers))) ∧
       timers_ok s' (L_timers L (without (NTimer x) (get_list L NTimers))) ∧
       timers s' = <[x := set_active false tm]> (timers s) ∧ inert s s') s.
Proof.
  intros HI Hok Htm. pose proof Hok as [Hl Hn Ha].
  set (s0 := set_basepri NIMBLE_KERNEL_SYSCALL_BASEPRI s).
  assert (kernel_inv s0 L) as HI0 by by apply kernel_inv_basepri.
  unfold nimble_timer_stop. wp_step. apply wp_enter. wp_step. eapply wp_get_timer; [done|].
  wp_step. unfold when. destruct (is_active tm) eqn:Ea.
  - wp_step. wp_apply (timer_remove_spec s0); [done..|apply Hn; eauto|].
    intros _ s1 (m1&->&Hd1&HI1). apply wp_modify. wp_step. apply wp_exit. apply wp_ret.
    split; [done|]. split; [|split; [|done]].
    + apply kernel_inv_basepri, (inv_set_timers (set_nodes m1 s0)); [|done].
      intros y Hy. apply lookup_insert_is_Some'. by right.
    + assert (timers_ok (set_nodes m1 (set_timers (<[x := set_active false tm]> (timers s)) s))
        (L_timers L (without (NTimer x) (get_list L NTimers)))) as [? ? ?]; [|by split].
      apply (timers_ok_upd _ _ _ tm); [done..|]. intros y. rewrite elem_of_without.
      case_decide as Hy; [subst; simpl; naive_solver|]. split; [tauto|]. split; [congruence|done].
  - apply wp_ret. wp_step. apply wp_exit. apply wp_ret. rewrite set_basepri_id.
    assert (NTimer x ∉ get_list L NTimers) as Hx by (rewrite <- (Ha x tm Htm); by rewrite Ea).
    rewrite without_id by done. unfold L_timers.
    rewrite insert_id by by apply get_list_Some. split; [done|]. do 2 (split; [done|]).
    split; [|done]. rewrite insert_id; [done|]. rewrite Htm. f_equal.
    destruct tm; simpl in *. by subst.
Qed.

(** The first half of [nimble_timer_reset]: the new period. *)
Lemma timer_reset_spec s L x tm p :
  kernel_inv s L → timers_ok s L → timers s !! x = Some tm →
  wp (nimble_timer_reset_crit x p)
    (λ _ s', kernel_inv s' L ∧ timers_ok s' L ∧
       timers s' = <[x := set_period p tm]> (timers s) ∧ inert s s') s.
Proof.
  intros HI [Hl Hn Ha] Htm. unfold nimble_timer_reset_crit. wp_step. apply wp_enter. wp_step.
  eapply wp_get_timer; [done|]. wp_step. apply wp_modify. apply wp_exit. simpl. split; [|split; [|done]].
  - apply kernel_inv_basepri, inv_set_timers; [|by apply kernel_inv_basepri]. intros y Hy.
    apply lookup_insert_is_Some'. by right.
  - split; simpl; [done|..].
    + intros y. rewrite is_Some_upd by eauto. apply Hn.
    + intros y tmy [[<- <-]|[_ Hy]]%lookup_insert_Some; [by apply (Ha x tm)|by apply Ha].
Qed.

(** ** The service task *)

(** The sleep before the next round: until the head expires, or forever. *)
Lemma timer_wait_spec s L :
  kernel_inv s L → timers_ok s L →
  timer_wait_ticks s =
    Some (match get_list L NTimers with
          | [] => NIMBLE_WAIT_FOREVER
          | n :: _ => Z.max 0 (remaining s n)
          end, s).
Proof.
  intros HI [Hl Hn Ha]. pose proof (ki_sched _ _ (ki_core _ _ HI)) as HS.
  assert (wp timer_wait_ticks (λ r s', r = match get_list L NTimers with
          | [] => NIMBLE_WAIT_FOREVER
          | n :: _ => Z.max 0 (remaining s n) end ∧ s' = s) s) as Hwp.
  { unfold timer_wait_ticks. wp_step. apply wp_enter. wp_step.
    eapply wp_is_empty; [apply HS|by apply get_list_Some|]. wp_step.
    destruct (get_list L NTimers) as [|n ys] eqn:El.
    - rewrite bool_decide_eq_true_2 by done. apply wp_ret. wp_step. apply wp_exit. apply wp_ret.
      by rewrite set_basepri_id.
    - rewrite bool_decide_eq_false_2 by done.
      destruct (timer_member s L n HI) as (_&x&->&tm&Htm); [rewrite El; left|].
      wp_step. eapply wp_get_next_head; [apply HS|by apply get_list_Some|]. rewrite El. simpl.
      wp_step. apply wp_ret. wp_step. eapply wp_get_timer; [done|].
      wp_step. apply wp_gets. apply wp_ret. wp_step. apply wp_exit. apply wp_ret.
      rewrite set_basepri_id. split; [|done]. unfold remaining, expiry_of. rewrite Htm. simpl.
      pose proof (i32_range (expiry_tick tm - g_tick_count s)).
      destruct (Z.ltb_spec 0 (i32 (expiry_tick tm - g_tick_count s))) as [Hlt|Hge].
      + rewrite u32_small by lia. lia.
      + unfold NIMBLE_NO_WAIT. lia. }
  apply wp_run in Hwp as (a&s'&E&->&->). done.
Qed.

Lemma i32_shift a b : - 2 ^ 31 ≤ i32 a + b < 2 ^ 31 → i32 (a + b) = i32 a + b.
Proof.
  intros Hr. assert (∃ k, i32 a = a + k * 2 ^ 32) as [k Ek].
  { unfold i32. pose proof (Z.div_mod a (2 ^ 32)) as Hd.
    destruct (_ <? _); [exists (- (a / 2 ^ 32))|exists (- (a / 2 ^ 32) - 1)]; lia. }
  rewrite <- (i32_small (i32 a + b)) by done. rewrite Ek. unfold i32.
  replace (a + k * 2 ^ 32 + b) with (a + b + k * 2 ^ 32) by lia. by rewrite Z_mod_plus_full.
Qed.

Lemma i32_eq_mod b : ∃ k, i32 b = b + k * 2 ^ 32.
Proof.
  unfold i32. pose proof (Z.div_mod b (2 ^ 32)) as Hd.
  destruct (_ <? _); [exists (- (b / 2 ^ 32))|exists (- (b / 2 ^ 32) - 1)]; lia.
Qed.

Lemma i32_add_l a b : i32 (i32 a + b) = i32 (a + b).
Proof.
  destruct (i32_eq_mod a) as [k ->]. unfold i32.
  replace (a + k * 2 ^ 32 + b) with (a + b + k * 2 ^ 32) by lia. by rewrite Z_mod_plus_full.
Qed.

Lemma u32_add_i32 a b : u32 (a + i32 b) = u32 (a + b).
Proof.
  destruct (i32_eq_mod b) as [k ->]. unfold u32.
  replace (a + (b + k * 2 ^ 32)) with (a + b + k * 2 ^ 32) by lia. by rewrite Z_mod_plus_full.
Qed.

(** The deadline of a periodic timer that fires with [left] ticks to go (none,
    or less than none): a period after the last one; or from the present, when
    that is past too. *)
Definition rearm (left period now : Z) : Z :=
  let left' := i32 (left + period) in
  u32 (now + if left' <? 0 then period else left').

Lemma next_expiry_rearm e p now : next_expiry e p now = rearm (i32 (e - now)) p now.
Proof.
  unfold next_expiry, rearm.
  rewrite i32_add_l. replace (e - now + p) with (e + p - now) by lia.
  assert (i32 (u32 (e + p) - now) = i32 (e + p - now)) as -> by by rewrite <- i32_u32, u32_sub_l, i32_u32.
  destruct (_ <? 0); [done|]. rewrite u32_add_i32. f_equal. lia.
Qed.

(** One round: a due head is taken off the list; a periodic one goes back in,
    at its next expiry. *)
Definition fired s x tm : nimble_timer :=
  if is_periodic tm
  then set_expiry (rearm (remaining s (NTimer x)) (period_ticks tm) (g_tick_count s)) tm
  else set_active false tm.
Definition fired_list s x tm ys : list nid :=
  if is_periodic tm then insert_expiry s (expiry_tick (fired s x tm)) (NTimer x) ys else ys.

Definition head_due s xs : option (nat * list nid) :=
  match xs with
  | NTimer x :: ys => if 0 <? remaining s (NTimer x) then None else Some (x, ys)
  | _ => None
  end.

Definition expired_one s L (r : option (Z * Z)) s' L' : Prop :=
  match head_due s (get_list L NTimers) with
  | None => r = None ∧ s' = s ∧ L' = L
  | Some (x, ys) => ∃ tm, timers s !! x = Some tm ∧ r = Some (callback tm, cb_arg tm) ∧
      timers s' = <[x := fired s x tm]> (timers s) ∧
      L' = L_timers L (fired_list s x tm ys) ∧ inert s s'
  end.

(** Taking the head off and, for a periodic timer, putting it back. *)
Lemma fire_spec s L x tm ys :
  kernel_inv s L → timers_ok s L → get_list L NTimers = NTimer x :: ys →
  timers s !! x = Some tm →
  wp (on_nodes (nimble_list_remove (NTimer x)) ;;
      if is_periodic tm then
        put_timer x (set_expiry (next_expiry (expiry_tick tm) (period_ticks tm)
                       (g_tick_count s)) tm) ;;
        insert_sorted_by_expiry x
      else put_timer x (set_active false tm))
    (λ _ s', ∃ m', s' = set_nodes m' (set_timers (<[x := fired s x tm]> (timers s)) s) ∧
       kernel_inv s' (L_timers L (fired_list s x tm ys)) ∧
       timers_ok s' (L_timers L (fired_list s x tm ys))) s.
Proof.
  intros HI Hok Hh Htm. pose proof Hok as [Hl Hn Ha].
  assert (remaining s (NTimer x) = i32 (expiry_tick tm - g_tick_count s)) as Er.
  { unfold remaining, expiry_of. by rewrite Htm. }
  rewrite next_expiry_rearm, <- Er.
  assert (NoDup (NTimer x :: ys)) as [Hnx Hnd]%NoDup_cons.
  { rewrite <- Hh. eapply repr_nodup; [|by apply get_list_Some].
    apply (ki_sched _ _ (ki_core _ _ HI)). }
  assert (without (NTimer x) (get_list L NTimers) = ys) as Ew.
  { rewrite Hh, without_cons_eq. by apply without_id. }
  assert (is_active tm = true) as Eact by (apply (Ha x tm Htm); rewrite Hh; left).
  wp_step. wp_apply timer_remove_spec; [done..|apply Hn; eauto|].
  intros _ s1 (m1&->&Hd1&HI1). rewrite Ew in HI1. unfold fired_list, fired.
  assert (∀ v, kernel_inv (set_timers (<[x := v]> (timers s)) (set_nodes m1 s)) (L_timers L ys))
    as HI2.
  { intros v. apply (inv_set_timers (set_nodes m1 s)); [|done]. intros y Hy.
    apply lookup_insert_is_Some'. by right. }
  destruct (is_periodic tm) eqn:Ep.
  - set (v := set_expiry _ tm). wp_step. apply wp_modify. simpl.
    wp_apply (insert_sorted_by_expiry_spec _ (L_timers L ys) x v); [apply HI2|..].
    { unfold L_timers. rewrite lookup_insert_eq. eauto. }
    { simpl. rewrite <- elem_of_dom, Hd1, elem_of_dom. apply Hn. eauto. }
    { apply lookup_insert_eq. }
    { by rewrite get_list_L_timers, decide_True. }
    intros _ s3 (m3&->&Hd3&HI3). rewrite get_list_L_timers, decide_True in HI3 by done.
    rewrite (insert_expiry_upd s x v) in HI3 by done.
    unfold L_timers in HI3. rewrite insert_insert_eq in HI3. fold (L_timers L) in HI3.
    exists m3. split; [done|]. split; [done|].
    apply (timers_ok_upd s L x tm v m3); [done|done|simpl in Hd3; congruence|].
    intros y. rewrite insert_expiry_perm, elem_of_cons.
    case_decide as Hy; [subst; split; [done|by left]|]. rewrite Hh, elem_of_cons. done.
  - apply wp_modify. exists m1. split; [done|]. split; [apply HI2|].
    apply (timers_ok_upd s L x tm _ m1); [done..|]. intros y.
    case_decide as Hy; [subst; simpl; naive_solver|]. rewrite Hh, elem_of_cons.
    split; [auto|]. by intros [[= ->]|?].
Qed.

Lemma timer_expire_one_spec s L :
  kernel_inv s L → timers_ok s L →
  wp timer_expire_one
    (λ r s', ∃ L', kernel_inv s' L' ∧ timers_ok s' L' ∧ expired_one s L r s' L') s.
Proof.
  intros HI Hok. pose proof Hok as [Hl Hn Ha].
  pose proof (ki_sched _ _ (ki_core _ _ HI)) as HS. unfold timer_expire_one, expired_one.
  set (s0 := set_basepri NIMBLE_KERNEL_SYSCALL_BASEPRI s).
  assert (kernel_inv s0 L) as HI0 by by apply kernel_inv_basepri.
  assert (timers_ok s0 L) as Hok0 by by split.
  wp_step. apply wp_enter. wp_step. eapply wp_is_empty; [apply HS|by apply get_list_Some|].
  destruct (get_list L NTimers) as [|n ys] eqn:El.
  { rewrite bool_decide_eq_true_2 by done. wp_step. apply wp_exit. apply wp_ret.
    rewrite set_basepri_id. by exists L. }
  rewrite bool_decide_eq_false_2 by done.
  destruct (timer_member s L n HI) as (_&x&->&tm&Htm); [rewrite El; left|].
  wp_step. eapply wp_get_next_head; [apply HS|by apply get_list_Some|]. rewrite El. simpl.
  wp_step. apply wp_ret. wp_step. eapply wp_get_timer; [done|]. wp_step. apply wp_gets. simpl.
  assert (remaining s (NTimer x) = i32 (expiry_tick tm - g_tick_count s)) as ->.
  { unfold remaining, expiry_of. by rewrite Htm. }
  destruct (0 <? i32 (expiry_tick tm - g_tick_count s)).
  { wp_step. apply wp_exit. apply wp_ret. rewrite set_basepri_id. by exists L. }
  pose proof (fire_spec s0 L x tm ys HI0 Hok0 El Htm) as Hfire.
  apply wp_assoc. wp_step. eapply wp_mono; [exact Hfire|]. cbn beta.
  intros _ s2 (m'&->&HI'&[H1 H2 H3]). wp_step. apply wp_exit. apply wp_ret. eexists.
  split; [by apply kernel_inv_basepri|]. split; [by split|].
  exists tm. do 3 (split; [done|]). split; [|done]. f_equal.
  unfold fired_list. destruct (is_periodic tm); [|done]. by apply insert_expiry_ext.
Qed.

(** ** Rescheduling *)

(** A late timer keeps its phase unless it missed a whole period; then it
    restarts from the present. *)
Lemma rearm_remaining r p now :
  0 ≤ p < 2 ^ 31 → - 2 ^ 31 ≤ r ≤ 0 →
  i32 (rearm r p now - now) = if r + p <? 0 then p else r + p.
Proof.
  intros Hp He. unfold rearm. rewrite (i32_small (r + p)) by lia.
  assert (∀ v, 0 ≤ v < 2 ^ 31 → i32 (u32 (now + v) - now) = v) as Hv.
  { intros v ?. rewrite <- i32_u32, u32_sub_l, i32_u32. replace (now + v - now) with v by lia.
    apply i32_small. lia. }
  destruct (Z.ltb_spec (r + p) 0); apply Hv; lia.
Qed.

(** ** Termination of the inner loop *)

(** How often a timer can still fire at the present tick. *)
Definition firings s n : nat :=
  if remaining s n <? 0 then 2%nat else if remaining s n =? 0 then 1%nat else 0%nat.
Definition total_firings s xs : nat := sum_list_with (firings s) xs.

(** Periodic timers have a positive period below 2^30 ticks. *)
Definition periods_ok s xs : Prop :=
  ∀ x tm, NTimer x ∈ xs → timers s !! x = Some tm → is_periodic tm = true →
    0 < period_ticks tm < 2 ^ 30.

Lemma remaining_ext s s' n :
  expiry_of s' n = expiry_of s n → g_tick_count s' = g_tick_count s →
  remaining s' n = remaining s n.
Proof. unfold remaining. by intros -> ->. Qed.

Lemma total_firings_perm s xs ys : xs ≡ₚ ys → total_firings s xs = total_firings s ys.
Proof. unfold total_firings. induction 1; simpl; lia. Qed.

Lemma total_firings_ext s s' xs :
  (∀ n, n ∈ xs → remaining s' n = remaining s n) → total_firings s' xs = total_firings s xs.
Proof.
  unfold total_firings. induction xs as [|n xs IH]; intros Heq; simpl; [done|].
  rewrite IH by (intros; apply Heq; by right). unfold firings. by rewrite Heq by left.
Qed.

(** What firing the head does to the measure and the side conditions. *)
Lemma fired_measure s s' x tm ys :
  timers s !! x = Some tm → NTimer x ∉ ys → remaining s (NTimer x) ≤ 0 →
  window s (NTimer x :: ys) → periods_ok s (NTimer x :: ys) →
  timers s' = <[x := fired s x tm]> (timers s) → g_tick_count s' = g_tick_count s →
  (total_firings s' (fired_list s x tm ys) < total_firings s (NTimer x :: ys))%nat ∧
  window s' (fired_list s x tm ys) ∧ periods_ok s' (fired_list s x tm ys).
Proof.
  intros Htm Hx Hdue Hw Hp ET Eg.
  assert (∀ n, n ∈ ys → remaining s' n = remaining s n) as Hother.
  { intros n Hn. apply remaining_ext; [|done]. unfold expiry_of. rewrite ET.
    destruct n as [| | | | | | | | |z]; try done. rewrite lookup_insert_ne; [done|].
    by intros ->. }
  assert (remaining s (NTimer x) = i32 (expiry_tick tm - g_tick_count s)) as Er.
  { unfold remaining, expiry_of. by rewrite Htm. }
  assert (firings s (NTimer x) > 0)%nat as Hf.
  { unfold firings. destruct (Z.ltb_spec (remaining s (NTimer x)) 0); [lia|].
    rewrite (proj2 (Z.eqb_eq _ _)) by lia. lia. }
  pose proof (Hw (NTimer x) ltac:(left)) as Hwx.
  assert (∀ z tmz, timers s' !! z = Some tmz → is_periodic tmz = true →
            ∃ tm0, timers s !! z = Some tm0 ∧ is_periodic tm0 = true ∧
                   period_ticks tmz = period_ticks tm0) as Hper.
  { intros z tmz. rewrite ET. unfold fired.
    intros [[<- <-]|[_ Hz]]%lookup_insert_Some; [|by eauto].
    destruct (is_periodic tm) eqn:Ep; [|simpl; congruence]. eauto. }
  unfold fired_list. destruct (is_periodic tm) eqn:Ep.
  - assert (remaining s' (NTimer x) =
        if remaining s (NTimer x) + period_ticks tm <? 0 then period_ticks tm
        else remaining s (NTimer x) + period_ticks tm) as En.
    { rewrite Er. unfold remaining, expiry_of. rewrite ET, lookup_insert_eq, Eg. unfold fired.
      rewrite Ep. simpl. rewrite <- Er. apply rearm_remaining; [|lia]. specialize (Hp x tm ltac:(left) Htm Ep). lia. }
    specialize (Hp x tm ltac:(left) Htm Ep) as Hpx.
    split; [|split].
    + rewrite (total_firings_perm _ _ _ (insert_expiry_perm _ _ _ _)). unfold total_firings; simpl.
      fold (total_firings s' ys). fold (total_firings s ys).
      rewrite (total_firings_ext s s' ys) by done. unfold firings. rewrite En.
      destruct (Z.ltb_spec (remaining s (NTimer x) + period_ticks tm) 0);
      destruct (Z.ltb_spec (remaining s (NTimer x)) 0);
      repeat match goal with |- context [Z.ltb ?a ?b] => destruct (Z.ltb_spec a b); try lia end;
      repeat match goal with |- context [Z.eqb ?a ?b] => destruct (Z.eqb_spec a b); try lia end.
    + intros n. rewrite insert_expiry_perm. intros [->|Hn]%elem_of_cons.
      * rewrite En. destruct (Z.ltb_spec (remaining s (NTimer x) + period_ticks tm) 0); lia.
      * rewrite Hother by done. apply Hw. by right.
    + intros z tmz. rewrite insert_expiry_perm. intros Hz Hzt Hzp.
      destruct (Hper z tmz Hzt Hzp) as (tm0&?&?&->). by eapply Hp.
  - split; [|split].
    + unfold total_firings at 2; simpl. fold (total_firings s ys).
      rewrite (total_firings_ext s s' ys) by done. lia.
    + intros n Hn. rewrite Hother by done. apply Hw. by right.
    + intros z tmz Hz Hzt Hzp. destruct (Hper z tmz Hzt Hzp) as (tm0&?&?&->).
      eapply Hp; [by right|done..].
Qed.

(** Application code run by the service: defined, and it neither starts nor
    stops timers nor lets a tick pass. *)
Definition quiet_callback (run : Z → Z → K unit) : Prop :=
  ∀ cb arg s L, kernel_inv s L → timers_ok s L →
    wp (run cb arg) (λ _ s', ∃ L', kernel_inv s' L' ∧ timers_ok s' L' ∧
      timers s' = timers s ∧ g_tick_count s' = g_tick_count s ∧
      get_list L' NTimers = get_list L NTimers) s.

Lemma timer_expire_loop_spec run fuel s L :
  quiet_callback run → kernel_inv s L → timers_ok s L →
  window s (get_list L NTimers) → periods_ok s (get_list L NTimers) →
  (total_firings s (get_list L NTimers) < fuel)%nat →
  wp (timer_expire_loop fuel run)
    (λ r s', r = true ∧ ∃ L', kernel_inv s' L' ∧ timers_ok s' L' ∧
       head_due s' (get_list L' NTimers) = None ∧ g_tick_count s' = g_tick_count s) s.
Proof.
  intros Hrun. revert s L. induction fuel as [|fuel IH]; intros s L HI Hok Hw Hp Hf; [lia|].
  unfold timer_expire_loop; fold timer_expire_loop. wp_step.
  wp_apply timer_expire_one_spec; [done..|].
  intros r s1 (L1&HI1&Hok1&Hout). unfold expired_one in Hout.
  destruct (head_due s (get_list L NTimers)) as [[x ys]|] eqn:Eh.
  2: { destruct Hout as (->&->&->). apply wp_ret. split; [done|]. by exists L. }
  destruct Hout as (tm&Htm&->&ET&->&_&_&_&Eg&_).
  assert (get_list L NTimers = NTimer x :: ys ∧ remaining s (NTimer x) ≤ 0) as [El Hdue].
  { destruct (get_list L NTimers) as [|[| | | | | | | | |z] zs]; try done. simpl in Eh.
    destruct (Z.ltb_spec 0 (remaining s (NTimer z))); [done|]. by injection Eh as -> ->. }
  assert (NTimer x ∉ ys) as Hnx.
  { assert (NoDup (NTimer x :: ys)) as [? _]%NoDup_cons; [|done]. rewrite <- El.
    eapply repr_nodup; [apply HI|apply get_list_Some, Hok]. }
  rewrite El in Hw, Hp, Hf.
  destruct (fired_measure s s1 x tm ys) as (Hlt&Hw1&Hp1); [done..|].
  assert (∀ s2 L2, kernel_inv s2 L2 → timers_ok s2 L2 → timers s2 = timers s1 →
    g_tick_count s2 = g_tick_count s1 → get_list L2 NTimers = fired_list s x tm ys →
    wp (timer_expire_loop fuel run) (λ r s', r = true ∧ ∃ L', kernel_inv s' L' ∧ timers_ok s' L' ∧
       head_due s' (get_list L' NTimers) = None ∧ g_tick_count s' = g_tick_count s) s2) as Hgo.
  { intros s2 L2 HI2 Hok2 ET2 Eg2 El2.
    assert (∀ n, remaining s2 n = remaining s1 n) as Hrem.
    { intros n. apply remaining_ext; [|done]. unfold expiry_of. by rewrite ET2. }
    wp_apply (IH s2 L2); try done; rewrite ?El2.
    - intros n Hn. rewrite Hrem. by apply Hw1.
    - intros z tmz Hz. rewrite ET2. by apply Hp1.
    - rewrite (total_firings_ext s1 s2) by done. lia.
    - intros r s' (->&L'&?&?&?&?). split; [done|]. exists L'. repeat (split; [done|]). congruence. }
  assert (get_list (L_timers L (fired_list s x tm ys)) NTimers = fired_list s x tm ys) as El1
    by by rewrite get_list_L_timers, decide_True.
  wp_step. unfold when. destruct (negb (callback tm =? 0)).
  - wp_apply Hrun; [done..|]. intros _ s2 (L2&?&?&?&?&?). apply (Hgo s2 L2); try done. congruence.
  - apply wp_ret. by eapply Hgo.
Qed.

(** A periodic timer of period 0, alone on the list and due, is due again
    after every round: the loop never gets to its [break]. *)
Lemma timer_period_zero_step s L x tm :
  kernel_inv s L → timers_ok s L → get_list L NTimers = [NTimer x] →
  timers s !! x = Some tm → is_periodic tm = true → period_ticks tm = 0 →
  - 2 ^ 30 < remaining s (NTimer x) ≤ 0 →
  wp timer_expire_one (λ r s', ∃ L' tm', r = Some (callback tm, cb_arg tm) ∧
    kernel_inv s' L' ∧ timers_ok s' L' ∧ get_list L' NTimers = [NTimer x] ∧
    timers s' !! x = Some tm' ∧ is_periodic tm' = true ∧ period_ticks tm' = 0 ∧
    callback tm' = callback tm ∧ - 2 ^ 30 < remaining s' (NTimer x) ≤ 0) s.
Proof.
  intros HI Hok El Htm Hper Hzero Hdue. wp_apply timer_expire_one_spec; [done..|].
  intros r s' (L'&HI'&Hok'&Hout). unfold expired_one in Hout. rewrite El in Hout. simpl in Hout.
  rewrite (proj2 (Z.ltb_ge 0 _)) in Hout by lia.
  destruct Hout as (tm0&Htm0&->&ET&->&_&_&_&Eg&_). rewrite Htm in Htm0. injection Htm0 as <-.
  eexists _, (fired s x tm). split; [done|]. split; [done|]. split; [done|].
  rewrite get_list_L_timers, decide_True by done. unfold fired_list, fired in *.
  rewrite Hper in *. split; [done|]. split; [by rewrite ET, lookup_insert_eq|].
  do 3 (split; [done|]). unfold remaining at 1 2, expiry_of.
  rewrite ET, lookup_insert_eq, Eg. simpl. rewrite rearm_remaining, Hzero by lia.
  destruct (_ <? _); lia.
Qed.

(** ... however many rounds it makes, all of them defined. *)
Lemma timer_period_zero_diverges run fuel s L x tm :
  quiet_callback run → kernel_inv s L → timers_ok s L → get_list L NTimers = [NTimer x] →
  timers s !! x = Some tm → is_periodic tm = true → period_ticks tm = 0 →
  - 2 ^ 30 < remaining s (NTimer x) ≤ 0 →
  wp (timer_expire_loop fuel run)
    (λ r s', r = false ∧ ∃ L', kernel_inv s' L' ∧ timers_ok s' L' ∧ get_list L' NTimers = [NTimer x] ∧
       remaining s' (NTimer x) ≤ 0) s.
Proof.
  intros Hrun. revert s L tm. induction fuel as [|fuel IH]; intros s L tm HI Hok El Htm Hper Hzero Hdue.
  { apply wp_ret. split; [done|]. exists L. by destruct Hdue. }
  unfold timer_expire_loop; fold timer_expire_loop. wp_step.
  wp_apply (timer_period_zero_step s L x tm); [done..|].
  intros r s1 (L1&tm1&->&HI1&Hok1&El1&Htm1&Hper1&Hzero1&_&Hdue1). wp_step. unfold when.
  destruct (negb (callback tm =? 0)).
  - wp_apply Hrun; [done..|]. intros _ s2 (L2&HI2&Hok2&ET2&Eg2&El2).
    apply (IH s2 L2 tm1); try done; [congruence|congruence|].
    rewrite (remaining_ext s1); [done| |done]. unfold expiry_of. by rewrite ET2.
  - apply wp_ret. by apply (IH s1 L1 tm1).
Qed.

(** ** Initialisation *)

(** A timer structure the kernel does not know yet. *)
Lemma timer_init_spec s L x str period periodic cb arg nm :
  kernel_inv s L → timers_ok s L → timers s !! x = None → stored_name str = Some nm →
  wp (nimble_timer_init x str period periodic cb arg)
    (λ _ s', kernel_inv s' L ∧ timers_ok s' L ∧
       timers s' = <[x := Timer period 0 periodic false cb arg nm]> (timers s) ∧ inert s s') s.
Proof.
  intros HI [Hl Hn Ha] Hx Hnm. unfold nimble_timer_init.
  wp_step. apply wp_on_nodes, wp_modify. wp_step. apply (wp_oget _ nm); [done|].
  apply wp_modify. simpl.
  assert (NTimer x ∉ get_list L NTimers) as Hnx.
  { intros (_&y&[= <-]&[? ?])%(timer_member s L); [congruence|done]. }
  assert (L !! NTimer x = None) as HLx by by eapply timer_nodes_item.
  pose proof (timer_unlinked s L x HI Hnx) as Hu.
  split; [|split; [|done]].
  - apply (inv_set_timers (set_nodes (<[NTimer x := Node (NTimer x) (NTimer x)]> (nodes s)) s)).
    { intros y Hy. apply lookup_insert_is_Some'. by right. }
    destruct HI as [[HI Hcur Hidle Hbase Hsort] [HM HS HQ]].
    split; [split; try done|split; [|done..]].
    + destruct HI as [HR Hty Hhd Hrd Hdl Hnd Hpr Hbr Hbm Hst Htk]. split; try done.
      * by apply repr_init_item.
      * intros t [??]%Hnd. simpl. rewrite !lookup_insert_is_Some'. auto.
    + intros m mu Hm. by destruct (HM m mu Hm).
  - split; simpl; [done|..].
    + intros y. rewrite !lookup_insert_is_Some'. intros [->|Hy]; [by left|right; auto].
    + intros y tmy [[<- <-]|[? Hy]]%lookup_insert_Some; [done|by apply Ha].
Qed.

Section image.
  Context `{Image}.

(** [nimble_timer_service_start]: an empty list of active timers, the wake
    semaphore, and the service task on its ready list. *)
Lemma service_start_spec s L prio stack words nm :
  kernel_inv s L → timers s = ∅ → get_list L NTimers = [] → get_list L (NSem timer_wake_sem) = [] →
  create_args s timer_task_tcb (Some [116; 105; 109; 101; 114; 95; 115; 118; 99; 0])
    timer_task_fn stack words prio nm →
  wp (nimble_timer_service_start prio stack words)
    (λ r s', ∃ L', r = NIMBLE_OK ∧ kernel_inv s' L' ∧ timers_ok s' L' ∧
       get_list L' NTimers = [] ∧ timers s' = ∅ ∧
       semaphores s' = <[timer_wake_sem := Semaphore 0 1]> (semaphores s) ∧
       tcbs s' = <[timer_task_tcb := created_tcb stack words prio nm]> (tcbs s) ∧
       nimble_current_tcb s' = nimble_current_tcb s ∧ pendsv s' = pendsv s ∧
       mutexes s' = mutexes s ∧ queues s' = queues s) s.
Proof.
  intros HI HT Hl Hs Hargs. unfold nimble_timer_service_start. wp_step.
  apply wp_on_nodes, wp_modify.
  pose proof (inv_add_head s L NTimers HI Hl eq_refl) as HI1.
  wp_step. wp_apply (semaphore_init_spec _ _ timer_wake_sem 0 1); [exact HI1| |lia|lia|].
  { by rewrite get_list_add_head. }
  intros _ s2 (HI2&(ET2&EX2&ER2&EC2&EP2&_)&ES2&EM2&EQ2).
  simpl in ET2, EX2, ER2, EC2, EP2, ES2, EM2, EQ2.
  wp_apply (create_inv _ _ _ _ _ _ _ _ _ nm);
    [exact HI2|destruct Hargs; split; rewrite ?ET2, ?ER2; done|].
  intros r s3 (->&HI3&ET3&_&_&EC3&EP3&(EM3&ES3&EQ3)&EX3). eexists. split; [done|]. split; [exact HI3|].
  set (L2 := <[NSem timer_wake_sem := []]> (<[NTimers := []]> L)).
  assert (L_ready timer_task_tcb prio L2 !! NTimers = Some []) as El.
  { unfold L_ready, L2. rewrite !lookup_insert_ne by done. apply lookup_insert_eq. }
  assert (timers s3 = ∅) as EX by congruence.
  split; [split; rewrite ?EX|split; [by apply get_list_eq|split; [done|repeat split; congruence]]].
  - rewrite El. eauto.
  - intros y. rewrite lookup_empty. by intros [??].
  - intros y tm. by rewrite lookup_empty.
Qed.
End image.

End mode.
