(* ===== verification/Frame.v ===== *)
(** * What an operation leaves alone

    [Respects R m]: every run of [m] relates the state before to the state
    after by [R]; [Keeps f m]: no run of [m] changes the component [f].  The
    tactic [keeps] derives both from the text of the operation, so that the
    frame of a call does not have to be part of its specification. *)
From S2P Require Import Prelude DList Kernel Port Scheduler Task WaitList Mutex Semaphore Queue.
From stdpp Require Import options.

Class Respects {S A} (R : relation S) (m : M S A) : Prop :=
  respects : ∀ s a s', m s = Some (a, s') → R s s'.

Definition same {S B} (f : S → B) : relation S := λ s s', f s' = f s.
Abbreviation Keeps f := (Respects (same f)).

#[export] Instance same_preorder {S B} (f : S → B) : PreOrder (same f).
Proof. unfold same. split; [by intros s|]. intros s1 s2 s3 H1 H2. congruence. Qed.

Section respects.
Context {S : Type} (R : relation S) `{!PreOrder R}.

#[export] Instance keeps_ret {A} (a : A) : Respects R (mret (M := M S) a).
Proof using All. by intros s b s' [= _ <-]. Qed.

#[export] Instance keeps_bind {A C} (m : M S A) (k : A → M S C) :
  Respects R m → (∀ a, Respects R (k a)) → Respects R (m ≫= k).
Proof using All.
  intros Hm Hk s c s'' E. unfold mbind, M_bind in E.
  destruct (m s) as [[a s']|] eqn:Em; [|done]. trans s'; [by eapply Hm|by eapply Hk].
Qed.

#[export] Instance keeps_gets {A} (g : S → A) : Respects R (gets g).
Proof using All. by intros s b s' [= _ <-]. Qed.

#[export] Instance keeps_oget {A} (g : S → option A) : Respects R (oget g).
Proof using All. intros s b s' E. unfold oget in E. destruct (g s); [|done]. by injection E as _ <-. Qed.

#[export] Instance keeps_ub {A} : Respects R (@ub S A).
Proof using All. by intros s b s'. Qed.

Lemma keeps_modify g : (∀ s, R s (g s)) → Respects R (modify g).
Proof using All. intros Hg s [] s' [= <-]. apply Hg. Qed.
End respects.

(** A specification together with a frame. *)
Lemma wp_respects {S A} (R : relation S) (m : M S A) (Q : A → S → Prop) s :
  Respects R m → wp m Q s → wp m (λ a s', Q a s' ∧ R s s') s.
Proof.
  unfold wp. intros Hk. destruct (m s) as [[a s']|] eqn:E; [|done]. intros HQ.
  split; [done|]. by eapply Hk.
Qed.

Lemma wp_keeps {S B A} (f : S → B) (m : M S A) (Q : A → S → Prop) s :
  Keeps f m → wp m Q s → wp m (λ a s', Q a s' ∧ f s' = f s) s.
Proof. apply (wp_respects (same f)). Qed.

(** ** The lists

    The list operations write only to nodes that there are; and the ones of
    the scheduler and of the objects never touch the timers' nodes, as long as
    no link leads from those to others. *)

Definition is_timer (n : nid) : bool := match n with NTimers | NTimer _ => true | _ => false end.
Class KernelNode (n : nid) : Prop := kernel_node : is_timer n = false.
#[export] Hint Extern 0 (KernelNode _) => (first [assumption|reflexivity]) : typeclass_instances.

Section lists.
Abbreviation mem := (gmap nid (node nid)).
Implicit Types (m : mem) (n v h : nid).

#[export] Instance set_next_keeps n v : Keeps (dom (M := mem)) (set_next n v).
Proof.
  intros m [] m' E. unfold set_next in E. destruct (m !! n) as [d|] eqn:Ed; [|done].
  injection E as <-. by apply dom_insert_lookup_L.
Qed.
#[export] Instance set_prev_keeps n v : Keeps (dom (M := mem)) (set_prev n v).
Proof.
  intros m [] m' E. unfold set_prev in E. destruct (m !! n) as [d|] eqn:Ed; [|done].
  injection E as <-. by apply dom_insert_lookup_L.
Qed.
#[export] Instance get_next_keeps (R : relation mem) `{!PreOrder R} n : Respects R (get_next n).
Proof. apply _. Qed.
#[export] Instance get_prev_keeps (R : relation mem) `{!PreOrder R} n : Respects R (get_prev n).
Proof. apply _. Qed.
#[export] Instance is_empty_keeps (R : relation mem) `{!PreOrder R} h : Respects R (nimble_list_is_empty h).
Proof. unfold nimble_list_is_empty. apply _. Qed.
#[export] Instance insert_tail_keeps h n : Keeps (dom (M := mem)) (nimble_list_insert_tail h n).
Proof. unfold nimble_list_insert_tail. apply _. Qed.
#[export] Instance insert_head_keeps h n : Keeps (dom (M := mem)) (nimble_list_insert_head h n).
Proof. unfold nimble_list_insert_head. apply _. Qed.
#[export] Instance list_remove_keeps n : Keeps (dom (M := mem)) (nimble_list_remove n).
Proof. unfold nimble_list_remove. apply _. Qed.
#[export] Instance link_before_keeps n v : Keeps (dom (M := mem)) (link_before n v).
Proof. unfold link_before. apply _. Qed.

(** No link between the timers' nodes and others. *)
Definition apart m : Prop :=
  ∀ n d, m !! n = Some d → is_timer (node_next d) = is_timer n ∧ is_timer (node_prev d) = is_timer n.

(** The timers' nodes are as they were. *)
Definition spared : relation mem := λ m m',
  apart m → apart m' ∧ ∀ n, is_timer n = true → m' !! n = m !! n.

#[export] Instance spared_preorder : PreOrder spared.
Proof.
  split; [by intros m|]. intros m1 m2 m3 H1 H2 H. destruct (H1 H) as [Ha E1].
  destruct (H2 Ha) as [? E2]. split; [done|]. intros n Hn. by rewrite E2, E1.
Qed.

Lemma spared_insert m n d :
  is_timer n = false → (apart m → is_timer (node_next d) = false ∧ is_timer (node_prev d) = false) →
  spared m (<[n := d]> m).
Proof.
  intros Hn Hd Ha. split.
  - intros n' d' [[<- <-]|[_ ?]]%lookup_insert_Some; [|by apply Ha]. destruct (Hd Ha). by rewrite Hn.
  - intros n' Hn'. apply lookup_insert_ne. congruence.
Qed.

#[export] Instance set_next_spares n v `{!KernelNode n, !KernelNode v} : Respects spared (set_next n v).
Proof.
  intros m [] m' E. unfold set_next in E. destruct (m !! n) as [d|] eqn:Ed; [|done].
  injection E as <-. apply spared_insert; [done|]. intros Ha. destruct (Ha n d Ed) as [_ ?].
  unfold KernelNode in *. split; simpl; congruence.
Qed.
#[export] Instance set_prev_spares n v `{!KernelNode n, !KernelNode v} : Respects spared (set_prev n v).
Proof.
  intros m [] m' E. unfold set_prev in E. destruct (m !! n) as [d|] eqn:Ed; [|done].
  injection E as <-. apply spared_insert; [done|]. intros Ha. destruct (Ha n d Ed) as [? _].
  unfold KernelNode in *. split; simpl; congruence.
Qed.

(** What a link of the kernel leads to is the kernel's. *)
Lemma get_next_spares {A} n (k : nid → M mem A) `{!KernelNode n} :
  (∀ v, KernelNode v → Respects spared (k v)) → Respects spared (get_next n ≫= k).
Proof.
  intros Hk m a m' E Ha. unfold mbind, M_bind, get_next, oget in E.
  destruct (m !! n) as [d|] eqn:Ed; [|done]. simpl in E. destruct (Ha n d Ed) as [Hd _].
  eapply Hk; [|done..]. unfold KernelNode in *. congruence.
Qed.
Lemma get_prev_spares {A} n (k : nid → M mem A) `{!KernelNode n} :
  (∀ v, KernelNode v → Respects spared (k v)) → Respects spared (get_prev n ≫= k).
Proof.
  intros Hk m a m' E Ha. unfold mbind, M_bind, get_prev, oget in E.
  destruct (m !! n) as [d|] eqn:Ed; [|done]. simpl in E. destruct (Ha n d Ed) as [_ Hd].
  eapply Hk; [|done..]. unfold KernelNode in *. congruence.
Qed.

Ltac spares :=
  repeat lazymatch goal with
  | |- Respects _ (get_next _ ≫= _) => apply get_next_spares; [apply _|intros ??]
  | |- Respects _ (get_prev _ ≫= _) => apply get_prev_spares; [apply _|intros ??]
  | |- Respects _ (_ ≫= _) => apply keeps_bind; [apply _| |intros ?]
  | |- Respects _ _ => apply _
  end.

#[export] Instance insert_tail_spares h n `{!KernelNode h, !KernelNode n} :
  Respects spared (nimble_list_insert_tail h n).
Proof. unfold nimble_list_insert_tail. spares. Qed.
#[export] Instance list_remove_spares n `{!KernelNode n} : Respects spared (nimble_list_remove n).
Proof. unfold nimble_list_remove. spares. Qed.
#[export] Instance link_before_spares n v `{!KernelNode n, !KernelNode v} : Respects spared (link_before n v).
Proof. unfold link_before. spares. Qed.

(** Both. *)
Definition links_kept : relation mem := λ m m', dom m' = dom m ∧ spared m m'.
#[export] Instance links_kept_intro {A} (p : M mem A) :
  Keeps dom p → Respects spared p → Respects links_kept p.
Proof. intros Hd Hs m a m' E. split; [by eapply Hd|by eapply Hs]. Qed.
End lists.

(** ** Components of the kernel state *)

(** [R] does not look at the scheduler's variables, the TCBs and the links of
    the kernel's lists; it may at which nodes there are, and at the timers. *)
Class SchedFree (R : relation kstate) : Prop := {
  sf_nodes v s : links_kept (nodes s) v → R s (set_nodes v s);
  sf_tcbs v s : R s (set_tcbs v s);
  sf_bitmap v s : R s (set_ready_bitmap v s);
  sf_current v s : R s (set_current_tcb v s);
  sf_next v s : R s (set_next_tcb v s);
  sf_basepri v s : R s (set_basepri v s);
  sf_pendsv v s : R s (set_pendsv v s);
}.
Class TickFree (R : relation kstate) : Prop := tf_tick v s : R s (set_tick_count v s).
Class MutexFree (R : relation kstate) : Prop := mf_mutexes v s : R s (set_mutexes v s).
Class SemaphoreFree (R : relation kstate) : Prop := xf_semaphores v s : R s (set_semaphores v s).
Class QueueFree (R : relation kstate) : Prop := qf_queues v s : R s (set_queues v s).

#[export] Instance mutexes_sched_free : SchedFree (same mutexes). Proof. done. Qed.
#[export] Instance semaphores_sched_free : SchedFree (same semaphores). Proof. done. Qed.
#[export] Instance queues_sched_free : SchedFree (same queues). Proof. done. Qed.
#[export] Instance timers_sched_free : SchedFree (same timers). Proof. done. Qed.
#[export] Instance g_tick_count_sched_free : SchedFree (same g_tick_count). Proof. done. Qed.
#[export] Instance mutexes_tick_free : TickFree (same mutexes). Proof. done. Qed.
#[export] Instance semaphores_tick_free : TickFree (same semaphores). Proof. done. Qed.
#[export] Instance queues_tick_free : TickFree (same queues). Proof. done. Qed.
#[export] Instance timers_tick_free : TickFree (same timers). Proof. done. Qed.
#[export] Instance semaphores_mutex_free : MutexFree (same semaphores). Proof. done. Qed.
#[export] Instance queues_mutex_free : MutexFree (same queues). Proof. done. Qed.
#[export] Instance timers_mutex_free : MutexFree (same timers). Proof. done. Qed.
#[export] Instance g_tick_count_mutex_free : MutexFree (same g_tick_count). Proof. done. Qed.
#[export] Instance mutexes_semaphore_free : SemaphoreFree (same mutexes). Proof. done. Qed.
#[export] Instance queues_semaphore_free : SemaphoreFree (same queues). Proof. done. Qed.
#[export] Instance timers_semaphore_free : SemaphoreFree (same timers). Proof. done. Qed.
#[export] Instance g_tick_count_semaphore_free : SemaphoreFree (same g_tick_count). Proof. done. Qed.
#[export] Instance mutexes_queue_free : QueueFree (same mutexes). Proof. done. Qed.
#[export] Instance semaphores_queue_free : QueueFree (same semaphores). Proof. done. Qed.
#[export] Instance timers_queue_free : QueueFree (same timers). Proof. done. Qed.
#[export] Instance g_tick_count_queue_free : QueueFree (same g_tick_count). Proof. done. Qed.

(** The nodes that are mapped. *)
Definition mapped_nodes s : gset nid := dom (nodes s).
#[export] Instance mapped_nodes_sched_free : SchedFree (same mapped_nodes).
Proof. split; try done. by intros v s [? _]. Qed.
#[export] Instance mapped_nodes_tick_free : TickFree (same mapped_nodes). Proof. done. Qed.
#[export] Instance mapped_nodes_mutex_free : MutexFree (same mapped_nodes). Proof. done. Qed.
#[export] Instance mapped_nodes_semaphore_free : SemaphoreFree (same mapped_nodes). Proof. done. Qed.
#[export] Instance mapped_nodes_queue_free : QueueFree (same mapped_nodes). Proof. done. Qed.

(** The timers and their list. *)
Definition timers_kept : relation kstate := λ s s', timers s' = timers s ∧ spared (nodes s) (nodes s').
#[export] Instance timers_kept_preorder : PreOrder timers_kept.
Proof.
  split; [by intros s|]. intros s1 s2 s3 [E1 H1] [E2 H2]. split; [congruence|by trans (nodes s2)].
Qed.
#[export] Instance timers_kept_sched_free : SchedFree timers_kept.
Proof. split; try done. by intros v s [_ ?]. Qed.
#[export] Instance timers_kept_tick_free : TickFree timers_kept. Proof. done. Qed.
#[export] Instance timers_kept_mutex_free : MutexFree timers_kept. Proof. done. Qed.
#[export] Instance timers_kept_semaphore_free : SemaphoreFree timers_kept. Proof. done. Qed.
#[export] Instance timers_kept_queue_free : QueueFree timers_kept. Proof. done. Qed.

Lemma set_nodes_id s : set_nodes (nodes s) s = s.
Proof. by destruct s. Qed.

Lemma keeps_on_nodes `{!SchedFree R} {A} (m : M (gmap nid (node nid)) A) :
  Respects links_kept m → Respects R (on_nodes m).
Proof.
  intros Hm s a s' E. unfold on_nodes, zoom in E. destruct (m (nodes s)) as [[? v]|] eqn:Em; [|done].
  injection E as _ <-. apply sf_nodes. by eapply Hm.
Qed.

(** Structural derivation: one case per construct of the monad. *)
Ltac keeps_setter :=
  intros; first [apply sf_tcbs | apply sf_bitmap | apply tf_tick | apply sf_current
    | apply sf_next | apply sf_basepri | apply sf_pendsv | apply mf_mutexes | apply xf_semaphores
    | apply qf_queues].
Ltac keeps_step :=
  lazymatch goal with
  | |- Respects _ (_ ≫= _) => apply keeps_bind; [apply _| |intros ?]
  | |- Respects _ (on_nodes _) => apply keeps_on_nodes
  | |- Respects _ (modify _) => apply keeps_modify; [apply _|keeps_setter]
  | |- Respects _ (when ?b _) => destruct b; unfold when
  | |- Respects _ (match ?x with _ => _ end) => destruct x
  | |- Respects _ _ => apply _
  end.
Ltac keeps := intros; repeat keeps_step.

(** ** The kernel's operations *)

Section kernel.
Context {R : relation kstate} `{!PreOrder R, !SchedFree R}.

#[export] Instance get_tcb_keeps t : Respects R (get_tcb t).
Proof using All. apply _. Qed.
#[export] Instance upd_tcb_keeps t g : Respects R (upd_tcb t g).
Proof using All. unfold upd_tcb. keeps. Qed.
#[export] Instance enter_critical_keeps : Respects R nimble_port_enter_critical.
Proof using All. unfold nimble_port_enter_critical. keeps. Qed.
#[export] Instance exit_critical_keeps b : Respects R (nimble_port_exit_critical b).
Proof using All. unfold nimble_port_exit_critical. keeps. Qed.
#[export] Instance tcb_of_link_keeps n : Respects R (tcb_of_link n).
Proof using All. unfold tcb_of_link. keeps. Qed.
#[export] Instance tcb_of_event_link_keeps n : Respects R (tcb_of_event_link n).
Proof using All. unfold tcb_of_event_link. keeps. Qed.
#[export] Instance add_ready_keeps t : Respects R (nimble_scheduler_add_ready t).
Proof using All. unfold nimble_scheduler_add_ready. keeps. Qed.
#[export] Instance remove_keeps t : Respects R (nimble_scheduler_remove t).
Proof using All. unfold nimble_scheduler_remove. keeps. Qed.
#[export] Instance block_current_delay_keeps t w :
  Respects R (nimble_scheduler_block_current_delay t w).
Proof using All. unfold nimble_scheduler_block_current_delay. keeps. Qed.
#[export] Instance prepare_block_keeps t w : Respects R (nimble_scheduler_prepare_block t w).
Proof using All. unfold nimble_scheduler_prepare_block, nimble_scheduler_get_tick_count. keeps. Qed.
#[export] Instance wake_waiter_keeps h `{!KernelNode h} : Respects R (nimble_scheduler_wake_waiter h).
Proof using All. unfold nimble_scheduler_wake_waiter. keeps. Qed.
#[export] Instance select_next_keeps : Respects R nimble_scheduler_select_next.
Proof using All. unfold nimble_scheduler_select_next. keeps. Qed.
#[export] Instance scan_waiters_keeps fuel h p n : Respects R (scan_waiters fuel h p n).
Proof using All. revert n. induction fuel; intros n; simpl; keeps. Qed.
(** The insertion is at a node of the wait list. *)
Lemma scan_waiters_node fuel h p n s n' s' :
  scan_waiters fuel h p n s = Some (n', s') →
  s' = s ∧ (apart (nodes s) → KernelNode h → KernelNode n → KernelNode n').
Proof using.
  revert n. induction fuel as [|fuel IH]; intros n; [done|]. cbn [scan_waiters].
  case_decide as Hn; [intros [= <- <-]; by subst|].
  unfold mbind, M_bind, tcb_of_event_link, get_tcb, oget, on_nodes, zoom.
  destruct n as [| | |u| | | | | |]; try done. cbn.
  destruct (tcbs s !! u) as [c|]; [|done]. destruct (priority c <? p); [intros [= <- <-]; auto|].
  unfold get_next, oget. destruct (nodes s !! NEvent u) as [d|] eqn:Ed; [|done]. cbn.
  rewrite set_nodes_id. intros [-> H]%IH. split; [done|]. intros Ha Hh _. apply H; [done..|].
  by destruct (Ha _ _ Ed).
Qed.

#[export] Instance insert_waiter_keeps h t `{!KernelNode h} :
  Respects R (WaitList.insert_waiter_priority_sorted h t).
Proof using All.
  intros s a s' E. unfold WaitList.insert_waiter_priority_sorted, list_fuel, mbind, M_bind, gets,
    get_tcb, get_next, oget, on_nodes, zoom in E.
  destruct (nodes s !! h) as [d|] eqn:Ed; [|done]. cbn -[scan_waiters] in E. rewrite set_nodes_id in E.
  destruct (tcbs s !! t) as [c|]; [|done].
  destruct (scan_waiters _ _ _ _ s) as [[n s1]|] eqn:Es; [|done].
  destruct (scan_waiters_node _ _ _ _ _ _ _ Es) as [-> Hn].
  destruct (link_before n (NEvent t) (nodes s)) as [[? v]|] eqn:El; [|done]. injection E as _ <-.
  apply sf_nodes. split; [by eapply link_before_keeps|]. intros Ha.
  assert (KernelNode n); [|by eapply (link_before_spares n (NEvent t))]. apply Hn; [done..|].
  destruct (Ha _ _ Ed) as [Hd _]. unfold KernelNode in *. congruence.
Qed.
#[export] Instance tick_loop_keeps fuel n : Respects R (tick_loop fuel n).
Proof using All. revert n. induction fuel; intros n; simpl; keeps. Qed.
#[export] Instance SysTick_Handler_keeps `{!TickFree R} : Respects R SysTick_Handler.
Proof using All.
  unfold SysTick_Handler, nimble_scheduler_tick, nimble_port_request_context_switch, list_fuel. keeps.
Qed.
#[export] Instance PendSV_Handler_keeps : Respects R PendSV_Handler.
Proof using All. unfold PendSV_Handler. keeps. Qed.

#[export] Instance delay_keeps w : Respects R (nimble_task_delay_crit w).
Proof using All. unfold nimble_task_delay_crit, nimble_scheduler_get_tick_count. keeps. Qed.
#[export] Instance suspend_keeps t : Respects R (nimble_task_suspend_crit t).
Proof using All. unfold nimble_task_suspend_crit. cbv zeta. keeps. Qed.
#[export] Instance resume_keeps t : Respects R (nimble_task_resume t).
Proof using All. unfold nimble_task_resume. keeps. Qed.
#[export] Instance take_resume_keeps t : Respects R (nimble_semaphore_take_resume t).
Proof using All. unfold nimble_semaphore_take_resume. keeps. Qed.
#[export] Instance lock_resume_keeps m t : Respects R (nimble_mutex_lock_resume m t).
Proof using All. unfold nimble_mutex_lock_resume, get_mutex. keeps. Qed.

#[export] Instance lock_keeps `{!MutexFree R} m w : Respects R (nimble_mutex_lock m w).
Proof using All.
  unfold nimble_mutex_lock, get_mutex, put_mutex, Mutex.insert_waiter_priority_sorted. keeps.
Qed.
#[export] Instance unlock_keeps `{!MutexFree R} m : Respects R (nimble_mutex_unlock_crit m).
Proof using All. unfold nimble_mutex_unlock_crit, get_mutex, put_mutex. cbv zeta. keeps. Qed.

#[export] Instance take_keeps `{!SemaphoreFree R} x w : Respects R (nimble_semaphore_take x w).
Proof using All.
  unfold nimble_semaphore_take, get_semaphore, put_semaphore,
    Semaphore.insert_waiter_priority_sorted. keeps.
Qed.
#[export] Instance give_keeps `{!SemaphoreFree R} x : Respects R (nimble_semaphore_give_crit x).
Proof using All. unfold nimble_semaphore_give_crit, get_semaphore, put_semaphore. keeps. Qed.
#[export] Instance give_from_isr_keeps `{!SemaphoreFree R} x : Respects R (nimble_semaphore_give_from_isr x).
Proof using All. unfold nimble_semaphore_give_from_isr, get_semaphore, put_semaphore. keeps. Qed.
#[export] Instance queue_copy_in_keeps `{!QueueFree R} q item : Respects R (queue_copy_in q item).
Proof using All. unfold queue_copy_in, get_queue, put_queue. keeps. Qed.
#[export] Instance queue_copy_out_keeps `{!QueueFree R} q : Respects R (queue_copy_out q).
Proof using All. unfold queue_copy_out, get_queue, put_queue. keeps. Qed.
#[export] Instance send_keeps `{!QueueFree R} q item w : Respects R (nimble_queue_send q item w).
Proof using All. unfold nimble_queue_send, get_queue, Queue.insert_waiter_priority_sorted. keeps. Qed.
#[export] Instance receive_keeps `{!QueueFree R} q w : Respects R (nimble_queue_receive q w).
Proof using All. unfold nimble_queue_receive, get_queue, Queue.insert_waiter_priority_sorted. keeps. Qed.
#[export] Instance send_resume_keeps `{!QueueFree R} q item t : Respects R (nimble_queue_send_resume q item t).
Proof using All. unfold nimble_queue_send_resume, get_queue. keeps. Qed.
#[export] Instance receive_resume_keeps `{!QueueFree R} q t : Respects R (nimble_queue_receive_resume q t).
Proof using All. unfold nimble_queue_receive_resume, get_queue. keeps. Qed.
#[export] Instance send_from_isr_keeps `{!QueueFree R} q item : Respects R (nimble_queue_send_from_isr q item).
Proof using All. unfold nimble_queue_send_from_isr, get_queue. keeps. Qed.
End kernel.
