(* ===== verification/System.v ===== *)
(** * The running system

    Tasks, the tick and the device interrupts as a state machine.  A kernel
    call is three events of the running task: its critical section, the switch
    request, and, for a call that blocked, the half that runs once the task is
    switched in again; interrupts come in between.  The machine is proved
    never to get stuck on undefined behaviour. *)
From S2P Require Import Prelude DList Kernel Port Scheduler SchedInv SchedSpec Task WaitList Ring.
From S2P Require Import KernelInv TaskSpec KernelStep Mutex Semaphore Queue Frame.
From stdpp Require Import options.

(** ** Calls *)

Inductive call :=
  | CLock (m : nat) (timeout : Z)
  | CUnlock (m : nat)
  | CTake (x : nat) (timeout : Z)
  | CGive (x : nat)
  | CSend (q : nat) (item : list Z) (timeout : Z)
  | CReceive (q : nat) (timeout : Z)
  | CDelay (ticks : Z)
  | CYield
  | CSuspend (t : tid)
  | CResume (t : tid).

(** What a blocked call does when its task runs again; [PDone] is a call with
    nothing left to do but to return. *)
Inductive pending :=
  | PDone
  | PLock (m : nat)
  | PTake
  | PSend (q : nat) (item : list Z)
  | PReceive (q : nat).

(** The end of the first critical section: a return value, with or without a
    switch request on the way out, or a blocked caller. *)
Inductive outcome :=
  | Returned (r : Z) (out : option (list Z)) (switch : bool)
  | Blocked (p : pending).

Definition run_call (c : call) : K outcome :=
  match c with
  | CLock m timeout =>
      r ← nimble_mutex_lock m timeout;
      mret (match r with Some r => Returned r None false | None => Blocked (PLock m) end)
  | CUnlock m =>
      r ← nimble_mutex_unlock_crit m; mret (Returned r.1 None r.2)
  | CTake x timeout =>
      r ← nimble_semaphore_take x timeout;
      mret (match r with Some r => Returned r None false | None => Blocked PTake end)
  | CGive x =>
      r ← nimble_semaphore_give_crit x; mret (Returned r.1 None r.2)
  | CSend q item timeout =>
      r ← nimble_queue_send q item timeout;
      mret (match r with Some r => Returned r.1 None r.2 | None => Blocked (PSend q item) end)
  | CReceive q timeout =>
      r ← nimble_queue_receive q timeout;
      mret (match r with Some r => Returned r.1.1 r.1.2 r.2 | None => Blocked (PReceive q) end)
  | CDelay ticks =>
      r ← nimble_task_delay_crit ticks; mret (Returned NIMBLE_OK None r)
  | CYield => mret (Returned NIMBLE_OK None true)
  | CSuspend t =>
      r ← nimble_task_suspend_crit t; mret (Returned NIMBLE_OK None r)
  | CResume t =>
      nimble_task_resume t ;; mret (Returned NIMBLE_OK None false)
  end.

Definition run_pending (p : pending) (self : tid) : K (Z * option (list Z)) :=
  match p with
  | PDone => mret (NIMBLE_OK, None)
  | PLock m => r ← nimble_mutex_lock_resume m self; mret (r, None)
  | PTake => r ← nimble_semaphore_take_resume self; mret (r, None)
  | PSend q item => r ← nimble_queue_send_resume q item self; mret (r, None)
  | PReceive q => nimble_queue_receive_resume q self
  end.

(** ** The machine *)

(** Where each task is: in its own code, about to request a switch, or in a
    call that continues when the task runs again. *)
Inductive phase := User | Requesting (p : pending) | Resuming (p : pending).

Record sys := Sys { ks : kstate; phases : gmap nat phase }.
Definition phase_of (σ : sys) (t : tid) : phase := default User (phases σ !! t).
Definition set_phase (t : tid) (p : phase) (σ : sys) : sys := Sys (ks σ) (<[t := p]> (phases σ)).

(** An object a task initialises before its loop. *)
Inductive object :=
  | OMutex (m : nat)
  | OSemaphore (x : nat) (initial_count max_count : Z)
  | OQueue (q : nat) (buffer : list Z) (size cap : Z).

Definition init_object (o : object) : K unit :=
  match o with
  | OMutex m => nimble_mutex_init m
  | OSemaphore x a b => nimble_semaphore_init x a b
  | OQueue q buffer size cap => nimble_queue_init q buffer size cap
  end.

Inductive event :=
  | ECall (c : call)
  | EInit (o : object)
  | ERequest
  | EResume
  | ETick
  | EPendSV
  | EIsrGive (x : nat)
  | EIsrSend (q : nat) (item : list Z).

(** A kernel computation of the running system. *)
Definition run {A} (m : K A) (σ : sys) : option (A * sys) :=
  '(a, s) ← m (ks σ); Some (a, Sys s (phases σ)).

(** A device interrupt: the kernel call of the handler, then the switch
    request if the call asks for one. *)
Definition isr (m : K (Z * bool)) : K unit :=
  r ← m; when r.2 nimble_port_request_context_switch.

Definition exec (e : event) (σ : sys) : option sys :=
  match e with
  | ECall c =>
      t ← nimble_current_tcb (ks σ);
      '(o, σ) ← run (run_call c) σ;
      Some (match o with
            | Returned _ _ false => σ
            | Returned _ _ true => set_phase t (Requesting PDone) σ
            | Blocked p => set_phase t (Requesting p) σ
            end)
  | EInit o => '(_, σ) ← run (init_object o) σ; Some σ
  | ERequest =>
      t ← nimble_current_tcb (ks σ);
      match phase_of σ t with
      | Requesting p =>
          '(_, σ) ← run nimble_port_request_context_switch σ;
          Some (set_phase t (Resuming p) σ)
      | _ => None
      end
  | EResume =>
      t ← nimble_current_tcb (ks σ);
      match phase_of σ t with
      | Resuming p =>
          '(_, σ) ← run (run_pending p t) σ;
          Some (set_phase t User σ)
      | _ => None
      end
  | ETick => '(_, σ) ← run SysTick_Handler σ; Some σ
  | EPendSV => '(_, σ) ← run PendSV_Handler σ; Some σ
  | EIsrGive x => '(_, σ) ← run (isr (nimble_semaphore_give_from_isr x)) σ; Some σ
  | EIsrSend q item => '(_, σ) ← run (isr (nimble_queue_send_from_isr q item)) σ; Some σ
  end.

Section mode.
Context {M : Mode}.

(** What a caller has to respect: the objects exist and the item is as large
    as the queue's items; the idle task is not suspended; and a lock raises no
    owner that the mode forbids it to raise. *)
Definition call_ok (t : tid) (c : call) (s : kstate) : Prop :=
  match c with
  | CLock m _ => is_Some (mutexes s !! m) ∧ boost_safe m t s
  | CUnlock m => is_Some (mutexes s !! m)
  | CTake x _ | CGive x => is_Some (semaphores s !! x)
  | CSend q item _ =>
      ∃ qu, queues s !! q = Some qu ∧ item_size qu ≤ Z.of_nat (length item)
  | CReceive q _ => is_Some (queues s !! q)
  | CDelay _ | CYield => True
  | CSuspend u => is_Some (tcbs s !! u) ∧ u ≠ idle_tcb
  | CResume u => is_Some (tcbs s !! u)
  end.

(** Memory that holds no object yet, and arguments that suit it. *)
Definition object_fresh (o : object) (s : kstate) : Prop :=
  match o with
  | OMutex m => mutexes s !! m = None ∧ nodes s !! NMutex m = None
  | OSemaphore x a b => semaphores s !! x = None ∧ nodes s !! NSem x = None ∧ 0 ≤ a ≤ b ∧ b < 2 ^ 32
  | OQueue q buffer size cap => queues s !! q = None ∧ nodes s !! NQRecv q = None ∧
      nodes s !! NQSend q = None ∧ 0 ≤ size ∧ 0 ≤ cap < 2 ^ 32 ∧ size * cap < 2 ^ 32 ∧
      size * cap ≤ Z.of_nat (length buffer)
  end.

(** When an event can happen: thread code runs only while no PendSV is
    pending, and the idle task calls nothing. *)
Definition enabled (e : event) (σ : sys) : Prop :=
  match e with
  | ECall c => ∃ t, nimble_current_tcb (ks σ) = Some t ∧ t ≠ idle_tcb ∧
      pendsv (ks σ) = false ∧ phase_of σ t = User ∧ call_ok t c (ks σ)
  | EInit o => ∃ t, nimble_current_tcb (ks σ) = Some t ∧ pendsv (ks σ) = false ∧
      phase_of σ t = User ∧ object_fresh o (ks σ)
  | ERequest => ∃ t p, nimble_current_tcb (ks σ) = Some t ∧
      pendsv (ks σ) = false ∧ phase_of σ t = Requesting p
  | EResume => ∃ t p, nimble_current_tcb (ks σ) = Some t ∧
      pendsv (ks σ) = false ∧ phase_of σ t = Resuming p
  | ETick => True
  | EPendSV => pendsv (ks σ) = true
  | EIsrGive x => is_Some (semaphores (ks σ) !! x)
  | EIsrSend q item =>
      ∃ qu, queues (ks σ) !! q = Some qu ∧ item_size qu ≤ Z.of_nat (length item)
  end.

Inductive step : sys → event → sys → Prop :=
  | step_exec σ e σ' : enabled e σ → exec e σ = Some σ' → step σ e σ'.

Inductive reachable (σ0 : sys) : sys → Prop :=
  | reachable_refl : reachable σ0 σ0
  | reachable_step σ e σ' : reachable σ0 σ → step σ e σ' → reachable σ0 σ'.

(** ** The invariant *)

(** The object of a blocked call exists. *)
Definition pending_ok (p : pending) (s : kstate) : Prop :=
  match p with
  | PDone | PTake => True
  | PLock m => is_Some (mutexes s !! m)
  | PSend q item => ∃ qu, queues s !! q = Some qu ∧ item_size qu ≤ Z.of_nat (length item)
  | PReceive q => is_Some (queues s !! q)
  end.

Definition phase_ok (s : kstate) (t : tid) (ph : phase) : Prop :=
  match ph with
  | User => True
  | Requesting p | Resuming p => t ≠ idle_tcb ∧ pending_ok p s
  end.

(** Code outside the kernel runs in the RUNNING task. *)
Definition thread_running (σ : sys) (t : tid) : Prop :=
  pendsv (ks σ) = false → (∀ p, phase_of σ t ≠ Requesting p) →
  ∃ c, tcbs (ks σ) !! t = Some c ∧ state c = NIMBLE_TASK_RUNNING.

Record sys_inv (σ : sys) : Prop := {
  sv_kernel : kernel_ok (ks σ);
  sv_current : ∃ t, nimble_current_tcb (ks σ) = Some t ∧ thread_running σ t;
  sv_phases t : phase_ok (ks σ) t (phase_of σ t);
}.

Implicit Types (σ : sys) (s : kstate) (t : nat) (L : gmap nid (list nid)).

(** ** Preservation *)

(** A call's interface survives a change of its result and of its bounds. *)
Lemma kernel_call_map {A B} (op : K A) (f : A → B) pre still pre' still' :
  KernelCall op pre still → (∀ t s, pre' t s → pre t s) →
  (∀ a, still' (f a) = true → still a = true) →
  KernelCall (a ← op; mret (f a)) pre' still'.
Proof.
  intros Hop Hpre Hst X s L t c HI Hc Hp. wp_step.
  eapply wp_mono; [eapply kernel_call; [done..|by apply Hpre]|].
  intros a s' (?&?&Hcl). apply wp_ret. auto.
Qed.

Lemma kernel_call_ret {A} (a : A) pre still : KernelCall (mret a) pre still.
Proof.
  intros X s L t c HI Hc _. apply wp_ret. split; [eauto|]. split; [done|eauto].
Qed.

Definition still_running (o : outcome) : bool :=
  match o with Returned _ _ switch => negb switch | Blocked _ => false end.

#[export] Instance run_call_ok c : KernelCall (run_call c) (λ t s, call_ok t c s) still_running.
Proof.
  destruct c; simpl.
  - eapply kernel_call_map; [apply lock_call|done|by intros [?|]].
  - eapply kernel_call_map; [apply unlock_call|done|done].
  - eapply kernel_call_map; [apply take_call|done|by intros [?|]].
  - eapply kernel_call_map; [apply give_call|done|done].
  - eapply kernel_call_map; [apply send_call|done|by intros [?|]].
  - eapply kernel_call_map; [apply receive_call|done|by intros [?|]].
  - eapply kernel_call_map; [apply delay_call|done|done].
  - apply kernel_call_ret.
  - eapply kernel_call_map; [apply suspend_call|done|done].
  - eapply kernel_call_map; [apply resume_call|done|done].
Qed.

(** The object a call blocks on exists. *)
Lemma run_call_blocked c s o s' p :
  run_call c s = Some (o, s') → o = Blocked p → framed s s' →
  (∃ t, call_ok t c s) → pending_ok p s'.
Proof.
  intros E -> Hf [t Hok]. destruct c; simpl in E, Hok; unfold mbind, M_bind, mret, M_ret in E.
  - destruct (nimble_mutex_lock _ _ s) as [[[r|] s1]|]; simplify_eq/=.
    destruct Hok as [Hm _]. by apply (fr_mutexes _ _ Hf).
  - destruct (nimble_mutex_unlock_crit _ s) as [[r s1]|]; simplify_eq/=.
  - destruct (nimble_semaphore_take _ _ s) as [[[r|] s1]|]; by simplify_eq/=.
  - destruct (nimble_semaphore_give_crit _ s) as [[r s1]|]; simplify_eq/=.
  - destruct (nimble_queue_send _ _ _ s) as [[[r|] s1]|]; simplify_eq/=.
    destruct Hok as (qu&Hq&Hi). pose proof (fr_queues _ _ Hf q) as Eq. rewrite Hq in Eq.
    destruct (queues s' !! q) as [qu'|]; [|done]. injection Eq as Eq. exists qu'. split; [done|lia].
  - destruct (nimble_queue_receive _ _ s) as [[[r|] s1]|]; simplify_eq/=.
    pose proof (fr_queues _ _ Hf q) as Eq. destruct Hok as [qu Hq]. rewrite Hq in Eq.
    destruct (queues s' !! q); [eauto|done].
  - destruct (nimble_task_delay_crit _ s) as [[r s1]|]; simplify_eq/=.
  - simplify_eq/=.
  - destruct (nimble_task_suspend_crit _ s) as [[r s1]|]; simplify_eq/=.
  - destruct (nimble_task_resume _ s) as [[r s1]|]; simplify_eq/=.
Qed.

Lemma pending_ok_framed p s s' : framed s s' → pending_ok p s → pending_ok p s'.
Proof.
  intros Hf. destruct p; simpl; try done.
  - by rewrite (fr_mutexes _ _ Hf).
  - intros (qu&Hq&Hi). pose proof (fr_queues _ _ Hf q) as Eq. rewrite Hq in Eq.
    destruct (queues s' !! q) as [qu'|]; [|done]. injection Eq as Eq. exists qu'. split; [done|lia].
  - intros [qu Hq]. pose proof (fr_queues _ _ Hf q) as Eq. rewrite Hq in Eq.
    destruct (queues s' !! q); [eauto|done].
Qed.

Lemma pending_ok_same p s s' : same_objects s s' → pending_ok p s → pending_ok p s'.
Proof. intros (Em&Es&Eq). destruct p; simpl; by rewrite ?Em, ?Es, ?Eq. Qed.

Lemma phase_ok_framed t ph s s' : framed s s' → phase_ok s t ph → phase_ok s' t ph.
Proof. intros Hf. destruct ph; simpl; [done|..]; intros [? ?]; (split; [done|]); by eapply pending_ok_framed. Qed.

Lemma phase_ok_same t ph s s' : same_objects s s' → phase_ok s t ph → phase_ok s' t ph.
Proof. intros Hf. destruct ph; simpl; [done|..]; intros [? ?]; (split; [done|]); by eapply pending_ok_same. Qed.

Lemma phase_of_set σ t ph u :
  phase_of (set_phase t ph σ) u = if decide (u = t) then ph else phase_of σ u.
Proof.
  unfold phase_of, set_phase; simpl. case_decide as Hu.
  - subst. by rewrite lookup_insert_eq.
  - by rewrite lookup_insert_ne.
Qed.

Lemma phase_of_sys σ s u : phase_of (Sys s (phases σ)) u = phase_of σ u.
Proof. done. Qed.

Lemma wp_exec_run {A} (m : K A) σ (Q : A → kstate → Prop) :
  wp m Q (ks σ) → ∃ a s, run m σ = Some (a, Sys s (phases σ)) ∧ m (ks σ) = Some (a, s) ∧ Q a s.
Proof.
  intros (a&s&E&HQ)%wp_run. exists a, s. unfold run. by rewrite E.
Qed.

Lemma running_caller σ t :
  sys_inv σ → nimble_current_tcb (ks σ) = Some t → pendsv (ks σ) = false →
  (∀ p, phase_of σ t ≠ Requesting p) → t ≠ idle_tcb → ∃ c, caller (ks σ) t c.
Proof.
  intros [_ (u&Hu&Hrun) _] Hcur Hp Hph Hid. assert (u = t) as -> by congruence.
  destruct (Hrun Hp Hph) as (c&?&?). exists c. by split.
Qed.

(** ** Each event *)

Lemma call_step σ c :
  sys_inv σ → enabled (ECall c) σ → ∃ σ', exec (ECall c) σ = Some σ' ∧ sys_inv σ'.
Proof.
  intros Hσ (t&Hcur&Hid&Hp&Hph&Hok). pose proof Hσ as [(X&L&HI) _ Hphases].
  destruct (running_caller σ t Hσ Hcur Hp) as [cb Hcb]; [congruence|done|].
  pose proof (kernel_call X (ks σ) L t cb HI Hcb Hok) as Hwp.
  apply wp_exec_run in Hwp as (o&s'&Erun&Em&HI'&Hf&Hstill).
  unfold exec. rewrite Hcur. cbn [mbind option_bind]. rewrite Erun. cbn [mbind option_bind].
  eexists. split; [done|].
  assert (nimble_current_tcb s' = Some t) as Hcur' by by rewrite (fr_cur _ _ Hf).
  assert (∀ p, Blocked p = o → pending_ok p s') as Hpend
    by (intros p <-; by eapply run_call_blocked; eauto).
  destruct o as [r out [|]|p].
  - split; [done|exists t; split; [done|]|].
    + intros _ Hn. destruct (Hn PDone). by rewrite phase_of_set, decide_True.
    + intros u. rewrite phase_of_set. case_decide as Hu; [by subst|].
      by eapply phase_ok_framed.
  - split; [done|exists t; split; [done|]|].
    + intros _ _. destruct (Hstill eq_refl) as [c' Hc']. exists c'. split; apply Hc'.
    + intros u. by eapply phase_ok_framed.
  - split; [done|exists t; split; [done|]|].
    + intros _ Hn. destruct (Hn p). by rewrite phase_of_set, decide_True.
    + intros u. rewrite phase_of_set. case_decide as Hu; [|by eapply phase_ok_framed].
      subst. simpl. auto.
Qed.

(** An unmapped head is the head of no list. *)
Lemma unmapped_head {X : Stale} s L h : kernel_inv s L → nodes s !! h = None → get_list L h = [].
Proof.
  intros HI Hn. unfold get_list. destruct (L !! h) as [xs|] eqn:E; [exfalso|done].
  pose proof (nxt_head _ _ _ _ (si_repr _ _ _ (ki_sched _ _ (ki_core _ _ HI))) E) as Hx.
  unfold nxt in Hx. by rewrite Hn in Hx.
Qed.

Definition objects_grow s s' : Prop :=
  mutexes s ⊆ mutexes s' ∧ semaphores s ⊆ semaphores s' ∧ queues s ⊆ queues s'.

(** The new object, initialised; the others as they were. *)
Definition object_made (o : object) s s' : Prop :=
  match o with
  | OMutex m => mutexes s' = <[m := Mutex None 0]> (mutexes s) ∧
      semaphores s' = semaphores s ∧ queues s' = queues s
  | OSemaphore x i n => semaphores s' = <[x := Semaphore i n]> (semaphores s) ∧
      mutexes s' = mutexes s ∧ queues s' = queues s
  | OQueue q _ size cap => mutexes s' = mutexes s ∧ semaphores s' = semaphores s ∧
      ∃ qu, queues s' = <[q := qu]> (queues s) ∧ items qu = [] ∧ capacity qu = cap ∧ item_size qu = size
  end.

Lemma object_made_grow o s s' : object_fresh o s → object_made o s s' → objects_grow s s'.
Proof.
  unfold objects_grow. destruct o as [m|x a b|q buffer size cap]; simpl.
  - intros [Hm _] (->&->&->). split; [by apply insert_subseteq|done].
  - intros (Hx&_) (->&->&->). split; [done|]. split; [by apply insert_subseteq|done].
  - intros (Hq&_) (->&->&qu&->&_). do 2 (split; [done|]). by apply insert_subseteq.
Qed.

Lemma init_object_spec {X : Stale} o s L :
  kernel_inv s L → object_fresh o s →
  wp (init_object o)
    (λ _ s', (∃ L', kernel_inv s' L' ∧ ∀ h, get_list L' h = get_list L h) ∧
       init_frame s s' ∧ object_made o s s') s.
Proof.
  intros HI Ho. destruct o as [m|x a b|q buffer size cap]; simpl in Ho.
  - destruct Ho as [Hm Hn]. pose proof (unmapped_head _ _ _ HI Hn) as Hl.
    wp_apply mutex_init_spec; [done..|]. intros _ s' (HI'&?&?). split; [|done].
    eexists. split; [exact HI'|]. intros h. by apply get_list_add_head.
  - destruct Ho as (Hx&Hn&?&?). pose proof (unmapped_head _ _ _ HI Hn) as Hl.
    wp_apply semaphore_init_spec; [done..|]. intros _ s' (HI'&?&?). split; [|done].
    eexists. split; [exact HI'|]. intros h. by apply get_list_add_head.
  - destruct Ho as (Hq&Hr&Hs&?&?&?&?). pose proof (unmapped_head _ _ _ HI Hr) as Hl.
    pose proof (unmapped_head _ _ _ HI Hs) as Hl'.
    wp_apply queue_init_spec; [done..|]. intros _ s' (HI'&?&?). split; [|done].
    eexists. split; [exact HI'|]. intros h. rewrite get_list_add_head; [by apply get_list_add_head|].
    by rewrite get_list_add_head.
Qed.

Lemma phase_ok_grow t ph s s' : objects_grow s s' → phase_ok s t ph → phase_ok s' t ph.
Proof.
  intros (Hm&Hs&Hq).
  assert (∀ p, pending_ok p s → pending_ok p s') as Hp.
  { intros [|m| |q item|q]; simpl; try done.
    - intros [mu ?]. exists mu. by eapply lookup_weaken.
    - intros (qu&?&?). exists qu. split; [by eapply lookup_weaken|done].
    - intros [qu ?]. exists qu. by eapply lookup_weaken. }
  destruct ph; simpl; naive_solver.
Qed.

Lemma init_step σ o :
  sys_inv σ → enabled (EInit o) σ → ∃ σ', exec (EInit o) σ = Some σ' ∧ sys_inv σ'.
Proof.
  intros [(X&L&HI) (t&Hcur&Hrun) Hphases] (u&_&_&_&Ho).
  pose proof (init_object_spec o (ks σ) L HI Ho) as Hwp.
  apply wp_exec_run in Hwp as ([]&s'&Erun&_&(L'&HI'&_)&(ET&_&_&Ec&Ep&_)&Hmade).
  pose proof (object_made_grow _ _ _ Ho Hmade) as Hg.
  unfold exec. rewrite Erun. eexists. split; [done|].
  split; [by exists X, L'|exists t; split; [simpl; congruence|]|].
  - unfold thread_running. simpl. rewrite Ep, ET. exact Hrun.
  - intros v. by eapply phase_ok_grow.
Qed.

Lemma kernel_inv_pendsv {X : Stale} s L b : kernel_inv s L → kernel_inv (set_pendsv b s) L.
Proof.
  intros [HC [HM HS HQ]]. split; [by eapply core_ext, HC|]. split; [|done..].
  intros m mu Hm. by destruct (HM m mu Hm).
Qed.

Lemma request_step σ :
  sys_inv σ → enabled ERequest σ → ∃ σ', exec ERequest σ = Some σ' ∧ sys_inv σ'.
Proof.
  intros [(X&L&HI) Hcurr Hphases] (t&p&Hcur&Hp&Hph).
  unfold exec. rewrite Hcur. cbn [mbind option_bind]. rewrite Hph. cbn.
  eexists. split; [done|]. split.
  - exists X, L. by apply kernel_inv_pendsv.
  - exists t. split; [done|]. by intros ?.
  - intros u. rewrite phase_of_set. specialize (Hphases u). case_decide as Hu; [|done].
    subst. by rewrite Hph in Hphases.
Qed.

(** The second half of every blocking call. *)
Lemma run_pending_ok p t :
  KernelCall (run_pending p t) (λ u s, u = t ∧ pending_ok p s) (λ _, true).
Proof.
  destruct p; simpl.
  - apply kernel_call_ret.
  - eapply (kernel_call_map _ _ _ (λ _, true)); [apply lock_resume_call|done|done].
  - eapply (kernel_call_map _ _ _ (λ _, true)); [apply take_resume_call|by intros ? ? [? _]|done].
  - eapply (kernel_call_map _ _ _ (λ _, true)); [apply send_resume_call|done|done].
  - apply receive_resume_call.
Qed.

Lemma resume_step σ :
  sys_inv σ → enabled EResume σ → ∃ σ', exec EResume σ = Some σ' ∧ sys_inv σ'.
Proof.
  intros Hσ (t&p&Hcur&Hp&Hph). pose proof Hσ as [(X&L&HI) _ Hphases].
  pose proof (Hphases t) as Ht. rewrite Hph in Ht. destruct Ht as [Hid Hpend].
  destruct (running_caller σ t Hσ Hcur Hp) as [cb Hcb]; [congruence|done|].
  pose proof (run_pending_ok p t X (ks σ) L t cb HI Hcb (conj eq_refl Hpend)) as Hwp.
  apply wp_exec_run in Hwp as (a&s'&Erun&Em&HI'&Hf&Hstill).
  unfold exec. rewrite Hcur. cbn [mbind option_bind]. rewrite Hph, Erun. cbn [mbind option_bind].
  eexists. split; [done|]. split; [done|exists t; split; [by rewrite <- Hcur, <- (fr_cur _ _ Hf)|]|].
  - intros _ _. destruct (Hstill eq_refl) as [c' Hc']. exists c'. split; apply Hc'.
  - intros u. rewrite phase_of_set. case_decide as Hu; [done|]. by eapply phase_ok_framed.
Qed.

Lemma tick_step σ :
  sys_inv σ → ∃ σ', exec ETick σ = Some σ' ∧ sys_inv σ'.
Proof.
  intros [(X&L&HI) (t&Hcur&_) Hphases]. pose proof (systick_spec _ _ HI) as Hwp.
  apply wp_exec_run in Hwp as ([]&s'&Erun&_&L'&HI'&Hp&_&Hc&_&Hobj&_).
  unfold exec. rewrite Erun. eexists. split; [done|]. split; [by exists X, L'|exists t; split|].
  - simpl. congruence.
  - intros Hp'. simpl in Hp'. congruence.
  - intros u. by eapply phase_ok_same.
Qed.

(** The switch: undefined exactly when every list from some set bit upwards
    is empty. *)
Lemma pendsv_step σ :
  sys_inv σ →
  (∃ σ', exec EPendSV σ = Some σ' ∧ sys_inv σ') ∧ ¬ switch_stuck (ks σ) ∨
  switch_stuck (ks σ) ∧ exec EPendSV σ = None.
Proof.
  intros [(X&L&HI) _ Hphases]. pose proof (ki_sched _ _ (ki_core _ _ HI)) as HS.
  destruct (pendsv_inv _ _ HI) as [[Hl Hwp]|[Hst Hno]]; [left|right].
  - split; [|by eapply live_not_switch_stuck].
    apply wp_exec_run in Hwp as ([]&s'&Erun&_&t&p&c0&HI'&Hsw&_).
    assert (switched (ks σ) L t s' (detach (NLink t) (requeue_lists (ks σ) L))) as Hsw'
      by by exists p, c0.
    destruct (switched_keeps _ _ _ _ _ Hsw') as (Hcur&Hobj&_&_&_&c&Hc&Hs).
    unfold exec. rewrite Erun. eexists. split; [done|]. split; [eauto|exists t; split; [done|]|].
    + intros _ _. by exists c.
    + intros u. by eapply phase_ok_same.
  - split; [by eapply stuck_switch|]. unfold exec, run. by rewrite Hno.
Qed.

(** A device interrupt, from what its kernel call does. *)
Lemma isr_step σ (m : K (Z * bool)) :
  sys_inv σ →
  (∀ (X : Z → Prop) L, kernel_inv (X := X) (ks σ) L →
    wp m (λ _ s', kernel_ok s' ∧ framed (ks σ) s' ∧ runners_kept (ks σ) s') (ks σ)) →
  ∃ s', run (isr m) σ = Some (tt, Sys s' (phases σ)) ∧ sys_inv (Sys s' (phases σ)).
Proof.
  intros [(X&L&HI) (t&Hcur&Hrun) Hphases] Hm. pose proof (Hm X L HI) as Hwp.
  assert (wp (isr m) (λ _ s', kernel_ok s' ∧ runners_kept (ks σ) s' ∧
    (∀ u ph, phase_ok (ks σ) u ph → phase_ok s' u ph) ∧
    (pendsv s' = false → pendsv (ks σ) = false)) (ks σ)) as Hisr.
  { unfold isr. wp_step. eapply wp_mono; [exact Hwp|]. intros r s' ((Y&L'&HI')&Hf&Hk).
    assert (∀ u ph, phase_ok (ks σ) u ph → phase_ok s' u ph) as Hph
      by (intros u ph; by apply phase_ok_framed).
    unfold when. destruct r.2.
    - apply wp_modify. split; [exists Y, L'; by apply kernel_inv_pendsv|done].
    - apply wp_ret. split; [eauto|]. do 2 (split; [done|]). by rewrite (fr_pendsv _ _ Hf). }
  apply wp_exec_run in Hisr as ([]&s'&->&_&HI'&[Ec Hk]&Hph&Hp). exists s'. split; [done|].
  split; [done|exists t; split; [simpl; congruence|]|].
  - intros Hp' Hn. destruct (Hrun (Hp Hp') Hn) as (c&Hc&Hs). exists c. split; [by apply Hk|done].
  - intros u. apply Hph, Hphases.
Qed.

(** ** Safety *)

(** From a state that satisfies the invariant every event that can happen is
    defined, and leads to such a state, unless it is a stuck switch. *)
Lemma progress_or_stuck σ e :
  sys_inv σ → enabled e σ →
  (∃ σ', exec e σ = Some σ' ∧ sys_inv σ') ∧ (e = EPendSV → ¬ switch_stuck (ks σ)) ∨
  e = EPendSV ∧ switch_stuck (ks σ) ∧ exec e σ = None.
Proof.
  intros Hσ He. destruct e as [c|o| | | | |x|q item];
    try (destruct (pendsv_step σ Hσ) as [[? ?]|[? ?]]; [by left|by right]); left; (split; [|done]).
  - by apply call_step.
  - by apply init_step.
  - by apply request_step.
  - by apply resume_step.
  - by apply tick_step.
  - destruct He as [sem Hx]. destruct (isr_step σ (nimble_semaphore_give_from_isr x))
      as (s'&E&?); [done| |unfold exec; rewrite E; eauto].
    intros X L HI. wp_apply give_from_isr_spec; [done..|]. intros r s' (L'&?&?&?&_). eauto.
  - destruct He as (qu&Hq&Hi). destruct (isr_step σ (nimble_queue_send_from_isr q item))
      as (s'&E&?); [done| |unfold exec; rewrite E; eauto].
    intros X L HI. wp_apply send_from_isr_spec; [done..|]. intros r s' (L'&?&?&?&_). eauto.
Qed.

(** Where lists and bitmap are exact, no switch is stuck. *)
Lemma progress σ e :
  exact = true → sys_inv σ → enabled e σ → ∃ σ', exec e σ = Some σ' ∧ sys_inv σ'.
Proof.
  intros Hx Hσ He. destruct (progress_or_stuck σ e Hσ He) as [[? _]|(_&Hst&_)]; [done|].
  destruct Hσ as [(X&L&HI) _ _]. pose proof (ki_sched _ _ (ki_core _ _ HI)) as HS.
  eapply (live_not_switch_stuck (X := X)) in Hst; [done|done|]. apply (no_stale_live (X := X)); auto.
Qed.

Lemma step_inv σ e σ' : sys_inv σ → step σ e σ' → sys_inv σ'.
Proof.
  intros Hσ Hs. inversion Hs as [σ0 e0 σ1 He E]; subst.
  destruct (progress_or_stuck σ e Hσ He) as [[(σ2&E2&?) _]|(_&_&?)]; congruence.
Qed.

Lemma reachable_inv σ0 σ : sys_inv σ0 → reachable σ0 σ → sys_inv σ.
Proof. intros H0 Hr. induction Hr as [|σ e σ' Hr IH Hs]; [done|]. by eapply step_inv. Qed.

(** ** Ownership of a mutex *)

Definition owner_at σ (m : nat) : option tid := mu ← mutexes (ks σ) !! m; owner mu.

(** The event in which [t] gives the mutex [m] up. *)
Definition releases σ (e : event) (m t : nat) : Prop :=
  e = ECall (CUnlock m) ∧ nimble_current_tcb (ks σ) = Some t.

Lemma run_respects {A} (R : relation kstate) (m : K A) σ a σ' :
  Respects R m → run m σ = Some (a, σ') → R (ks σ) (ks σ').
Proof.
  unfold run. intros Hk E. destruct (m (ks σ)) as [[a' s']|] eqn:Em; [|done].
  cbn in E. injection E as _ <-. by eapply Hk.
Qed.

Lemma run_keeps {A B} (f : kstate → B) (m : K A) σ a σ' :
  Keeps f m → run m σ = Some (a, σ') → f (ks σ') = f (ks σ).
Proof. apply (run_respects (same f)). Qed.

Lemma run_call_keeps c :
  (∀ m timeout, c ≠ CLock m timeout) → (∀ m, c ≠ CUnlock m) → Keeps mutexes (run_call c).
Proof.
  intros Hl Hu. destruct c; simpl; try (by destruct (Hl m timeout)); try (by destruct (Hu m)); keeps.
Qed.

Lemma run_pending_keeps `{!PreOrder R, !SchedFree R, !QueueFree R} p t : Respects R (run_pending p t).
Proof. destruct p; simpl; keeps. Qed.

Lemma isr_keeps `{!PreOrder R, !SchedFree R} m : Respects R m → Respects R (isr m).
Proof. intros Hm. unfold isr, nimble_port_request_context_switch. keeps. Qed.

Lemma run_call_respects `{!PreOrder R, !SchedFree R, !MutexFree R, !SemaphoreFree R, !QueueFree R} c :
  Respects R (run_call c).
Proof. destruct c; simpl; keeps. Qed.

(** What every operation of the kernel respects, every event does. *)
Lemma exec_respects R `{!PreOrder R, !SchedFree R, !MutexFree R, !SemaphoreFree R, !QueueFree R} e σ σ' :
  (∀ o, e = EInit o → Respects R (init_object o)) → (e = ETick → Respects R SysTick_Handler) →
  exec e σ = Some σ' → R (ks σ) (ks σ').
Proof.
  intros Hinit Htick E.
  assert (∀ A (p : K A) a σ1, Respects R p → run p σ = Some (a, σ1) → R (ks σ) (ks σ1)) as Hkeep
    by (intros; by eapply run_respects).
  destruct e as [c|o| | | | |x|q item]; unfold exec in E.
  - destruct (nimble_current_tcb (ks σ)) as [t|]; [|done]. cbn [mbind option_bind] in E.
    destruct (run (run_call c) σ) as [[o σ1]|] eqn:Er; [|done]. cbn [mbind option_bind] in E.
    apply Hkeep in Er; [|apply run_call_respects]. destruct o as [? ? []|]; by injection E as <-.
  - destruct (run (init_object o) σ) as [[a σ1]|] eqn:Er; [|done]. apply Hkeep in Er; [|by apply Hinit].
    by injection E as <-.
  - destruct (nimble_current_tcb (ks σ)) as [t|]; [|done]. cbn [mbind option_bind] in E.
    destruct (phase_of σ t) as [|p|]; try done.
    destruct (run nimble_port_request_context_switch σ) as [[a σ1]|] eqn:Er; [|done].
    apply Hkeep in Er; [|unfold nimble_port_request_context_switch; keeps]. by injection E as <-.
  - destruct (nimble_current_tcb (ks σ)) as [t|]; [|done]. cbn [mbind option_bind] in E.
    destruct (phase_of σ t) as [| |p]; try done.
    destruct (run (run_pending p t) σ) as [[a σ1]|] eqn:Er; [|done]. apply Hkeep in Er; [|apply run_pending_keeps].
    by injection E as <-.
  - destruct (run SysTick_Handler σ) as [[a σ1]|] eqn:Er; [|done]. apply Hkeep in Er; [|by apply Htick].
    by injection E as <-.
  - destruct (run PendSV_Handler σ) as [[a σ1]|] eqn:Er; [|done]. apply Hkeep in Er; [|apply _].
    by injection E as <-.
  - destruct (run (isr _) σ) as [[a σ1]|] eqn:Er; [|done]. apply Hkeep in Er; [|apply isr_keeps, _].
    by injection E as <-.
  - destruct (run (isr _) σ) as [[a σ1]|] eqn:Er; [|done]. apply Hkeep in Er; [|apply isr_keeps, _].
    by injection E as <-.
Qed.

(** Only the making of an object maps nodes. *)
Lemma exec_mapped e σ σ' :
  (∀ o, e ≠ EInit o) → exec e σ = Some σ' → mapped_nodes (ks σ') = mapped_nodes (ks σ).
Proof. intros Hi. apply (exec_respects (same mapped_nodes)); [|by intros _; apply _]. intros o Ho. by destruct (Hi o). Qed.

(** Only the tick advances the tick counter. *)
Lemma exec_now e σ σ' :
  e ≠ ETick → exec e σ = Some σ' → g_tick_count (ks σ') = g_tick_count (ks σ).
Proof.
  intros He. apply (exec_respects (same g_tick_count)); [|done].
  intros [m|x a b|q buffer size cap] _; simpl;
    unfold nimble_mutex_init, nimble_semaphore_init, nimble_queue_init, put_mutex, put_semaphore, put_queue.
  all: intros s [] s' E; by injection E as <-.
Qed.

(** A lock never takes a mutex from its owner. *)
Lemma lock_keeps_owner s L t c m mu m' timeout r s' L' o :
  lock_outcome s L t c m mu timeout r s' L' → mutexes s !! m = Some mu →
  (mu ← mutexes s !! m'; owner mu) = Some o → (mu ← mutexes s' !! m'; owner mu) = Some o.
Proof.
  unfold lock_outcome. intros Hout Hm Ho. destruct (owner mu) as [o'|] eqn:Eo.
  - case_decide as Heq; [|destruct (timeout =? NIMBLE_NO_WAIT)].
    + destruct Hout as (_&->&_). subst. destruct (decide (m' = m)) as [->|].
      * rewrite lookup_insert_eq. rewrite Hm in Ho. simpl in Ho. simpl. congruence.
      * by rewrite lookup_insert_ne.
    + by destruct Hout as (_&->&_).
    + by destruct Hout as (?&_&_&->&_).
  - destruct Hout as (_&->&_). destruct (decide (m' = m)) as [->|].
    + rewrite Hm in Ho. simpl in Ho. congruence.
    + by rewrite lookup_insert_ne.
Qed.

(** An unlock takes a mutex from its owner only if the owner calls it. *)
Lemma unlock_keeps_owner s L t c m mu m' r s' L' o :
  unlock_outcome s L t c m mu r s' L' → mutexes s !! m = Some mu → m' ≠ m ∨ o ≠ t →
  (mu ← mutexes s !! m'; owner mu) = Some o → (mu ← mutexes s' !! m'; owner mu) = Some o.
Proof.
  unfold unlock_outcome. intros Hout Hm Hne Ho.
  case_decide as Howner; [by destruct Hout as (_&->&_)|].
  destruct (decide (m' = m)) as [->|Hm'].
  - exfalso. rewrite Hm in Ho. simpl in Ho. destruct Hne; [done|]. congruence.
  - destruct (0 <? _); [destruct Hout as (_&->&_); by rewrite lookup_insert_ne|].
    destruct (get_list L (NMutex m)) as [|[]]; try done;
      destruct Hout as (_&->&_); by rewrite lookup_insert_ne.
Qed.

Lemma owner_stable σ e σ' m t :
  sys_inv σ → step σ e σ' → owner_at σ m = Some t → ¬ releases σ e m t →
  owner_at σ' m = Some t.
Proof.
  intros Hσ Hs Ho Hrel. inversion Hs as [σ0 e0 σ1 He E]; subst. unfold owner_at in *.
  pose proof Hσ as [(X&L&HI) _ _].
  assert (∀ A (p : K A) a σ1, run p σ = Some (a, σ1) → Keeps mutexes p →
    (mu ← mutexes (ks σ1) !! m; owner mu) = Some t) as Hkeep.
  { intros A p a σ1 Er Hk. by rewrite (run_keeps mutexes _ _ _ _ Hk Er). }
  destruct e as [c|o| | | | |x|q item]; unfold exec in E.
  - destruct He as (u&Hcur&Hid&Hp&Hph&Hok). rewrite Hcur in E. cbn [mbind option_bind] in E.
    destruct (run (run_call c) σ) as [[o σ1]|] eqn:Er; [|done]. cbn [mbind option_bind] in E.
    assert ((mu ← mutexes (ks σ1) !! m; owner mu) = Some t) as Hgoal.
    { destruct (running_caller σ u Hσ Hcur Hp) as [cb Hcb]; [congruence|done|].
      destruct c as [m' timeout|m'| | | | | | | |]; try (eapply Hkeep; [done|by apply run_call_keeps]).
      - destruct Hok as [[mu Hm'] Hsafe].
        pose proof (mutex_lock_spec _ _ _ _ _ _ timeout HI Hcb Hm' Hsafe) as Hwp.
        apply wp_run in Hwp as (r&s'&El&L'&_&_&_&Hout).
        unfold run, run_call, mbind, M_bind in Er. rewrite El in Er. simpl in Er. injection Er as _ <-.
        simpl. by eapply lock_keeps_owner.
      - destruct Hok as [mu Hm'].
        pose proof (mutex_unlock_spec _ _ _ _ _ _ HI Hcb Hm') as Hwp.
        apply wp_run in Hwp as (r&s'&El&L'&c'&_&_&_&Hout).
        unfold run, run_call, mbind, M_bind in Er. rewrite El in Er. simpl in Er. injection Er as _ <-.
        simpl. eapply unlock_keeps_owner; try done.
        destruct (decide (m = m')) as [->|]; [right|by left]. intros ->. by apply Hrel. }
    destruct o as [? ? []|]; injection E as <-; exact Hgoal.
  - destruct He as (u&_&_&_&Hfresh). destruct (run (init_object o) σ) as [[a σ1]|] eqn:Er; [|done].
    injection E as <-. pose proof (init_object_spec (X := X) o (ks σ) L HI Hfresh) as Hwp.
    apply wp_exec_run in Hwp as ([]&s'&Er'&_&_&_&Hmade).
    destruct (object_made_grow _ _ _ Hfresh Hmade) as [Hg _]. rewrite Er' in Er. injection Er as _ <-.
    destruct (mutexes (ks σ) !! m) as [mu|] eqn:Em; [|done]. simpl.
    by rewrite (lookup_weaken _ _ _ _ Em Hg).
  - destruct He as (u&p&Hcur&_&Hph). rewrite Hcur in E. cbn [mbind option_bind] in E.
    rewrite Hph in E. injection E as <-. done.
  - destruct He as (u&p&Hcur&_&Hph). rewrite Hcur in E. cbn [mbind option_bind] in E.
    rewrite Hph in E. destruct (run (run_pending p u) σ) as [[a σ1]|] eqn:Er; [|done].
    injection E as <-. simpl. eapply Hkeep; [done|apply run_pending_keeps].
  - destruct (run SysTick_Handler σ) as [[a σ1]|] eqn:Er; [|done]. injection E as <-.
    eapply Hkeep; [done|apply _].
  - destruct (run PendSV_Handler σ) as [[a σ1]|] eqn:Er; [|done]. injection E as <-.
    eapply Hkeep; [done|apply _].
  - destruct (run (isr _) σ) as [[a σ1]|] eqn:Er; [|done]. injection E as <-.
    eapply Hkeep; [done|apply isr_keeps, _].
  - destruct (run (isr _) σ) as [[a σ1]|] eqn:Er; [|done]. injection E as <-.
    eapply Hkeep; [done|apply isr_keeps, _].
Qed.

(** ** Runs *)

(** A run that records its events and the states they happen in. *)
Inductive trace : sys → list (sys * event) → sys → Prop :=
  | trace_nil σ : trace σ [] σ
  | trace_cons σ e σ1 es σ' : step σ e σ1 → trace σ1 es σ' → trace σ ((σ, e) :: es) σ'.

Lemma trace_inv σ es σ' : sys_inv σ → trace σ es σ' → sys_inv σ'.
Proof. intros Hσ Ht. induction Ht; [done|]. by eapply IHHt, step_inv. Qed.

(** As long as the owner does not unlock, it stays the owner. *)
Lemma owner_until_release σ es σ' m t :
  sys_inv σ → trace σ es σ' → owner_at σ m = Some t →
  (∀ σ1 e, (σ1, e) ∈ es → ¬ releases σ1 e m t) → owner_at σ' m = Some t.
Proof.
  intros Hσ Ht. induction Ht as [|σ e σ1 es σ' Hs Ht IH]; intros Ho Hrel; [done|].
  apply IH.
  - by eapply step_inv.
  - eapply owner_stable; [done..|]. apply Hrel. left.
  - intros σ2 e2 Hin. apply Hrel. by right.
Qed.

(** [nimble_scheduler_start] puts the machine in a state that satisfies the
    invariant. *)
Lemma started_inv {X : Stale} s L :
  kernel_inv s L → live s L → pendsv s = false →
  wp nimble_scheduler_start (λ _ s', sys_inv (Sys s' ∅)) s.
Proof.
  intros HI Hl Hp. wp_apply start_spec; [done..|].
  intros _ s' (t&p&c0&HI'&Hsw&Hp').
  destruct (switched_keeps s L t s' (detach (NLink t) (requeue_lists s L)))
    as (Hcur&_&_&_&_&c&Hc&Hs); [by exists p, c0|].
  split; [by eapply kernel_ok_intro|exists t; split; [done|]|done]. intros _ _. by exists c.
Qed.

(** The one task of the highest priority is the first to run, where no bit is
    stale; and none is afterwards. *)
Lemma started_highest s L t c :
  kernel_inv (X := λ _, False) s L → pendsv s = false → nimble_current_tcb s = None →
  tcbs s !! t = Some c → state c = NIMBLE_TASK_READY →
  (∀ u cu, tcbs s !! u = Some cu → base_priority cu = priority cu) →
  (∀ u cu, tcbs s !! u = Some cu → u ≠ t → priority cu < priority c) →
  wp nimble_scheduler_start
    (λ _ s', sys_inv (Sys s' ∅) ∧
       (∃ L', kernel_inv (X := λ _, False) s' L' ∧ get_list L' NTimers = get_list L NTimers ∧
              (is_Some (L !! NTimers) → is_Some (L' !! NTimers))) ∧
       nimble_current_tcb s' = Some t ∧ same_objects s s' ∧ timers s' = timers s ∧
       tcbs s' = <[t := set_state NIMBLE_TASK_RUNNING c]> (tcbs s)) s.
Proof.
  intros HI Hp Hcur Ht Hs Hbase Hlow. pose proof (ki_sched _ _ (ki_core _ _ HI)) as HS.
  assert (∀ u cu q, tcbs s !! u = Some cu → home cu q → q = priority cu) as Hhome.
  { intros u cu q Hu [? _]. specialize (Hbase u cu Hu). lia. }
  wp_apply (start_spec (X := λ _, False)); [done|by apply (no_stale_live (X := λ _, False)); auto|].
  intros _ s' (u&p&c0&HI'&Hfrom&Hp').
  assert (switched s L u s' (detach (NLink u) (requeue_lists s L))) as Hsw by by exists p, c0.
  destruct (switched_keeps _ _ _ _ _ Hsw) as (Hcur'&Hobj&HX&_&_&cu&Hcu&Hsu).
  assert (requeue_tcbs s = tcbs s) as Erq by (unfold requeue_tcbs; by rewrite Hcur).
  pose proof Hfrom as (m'&b'&_&_&Hc0&_&Hpc&Es'&_).
  rewrite Erq in Es', Hc0.
  assert (tcbs s' = <[u := set_state NIMBLE_TASK_RUNNING c0]> (tcbs s)) as ET by by rewrite Es'.
  split; [split; [by eapply kernel_ok_intro|exists u; split; [done|]|done]; intros _ _; by exists cu|].
  assert (u = t) as ->.
  { destruct (decide (u = t)) as [|Hne]; [done|exfalso].
    assert (cu = set_state NIMBLE_TASK_RUNNING c0) as ->.
    { rewrite ET, lookup_insert_eq in Hcu. congruence. }
    destruct (switched_highest (X := λ _, False) s L u s' _ t c _ HI Hsw Hcu) as (q&Hq&Hmax&_);
      [by rewrite ET, lookup_insert_ne|done|].
    rewrite (Hhome t c q) in Hmax by done. specialize (Hlow u c0 Hc0 Hne). simpl in Hmax. lia. }
  split; [|split; [done|split; [done|split; [done|congruence]]]].
  eexists. split.
  { eapply inv_weaken, HI'. intros q [[?|Hqp] Hq]; [done|]. rewrite (Hhome t c0 p) in Hqp by done. done. }
  assert (requeue_lists s L = L) as ->
    by (unfold requeue_lists; by rewrite Hcur). split; [|apply is_Some_detach].
  rewrite wait_detach. apply without_id. intros Hin%elem_of_get_list.
  by apply (si_typed _ _ _ HS) in Hin.
Qed.

(** ** Running the machine *)

Definition boost_safeb (m t : nat) s : bool :=
  match mutexes s !! m, tcbs s !! t with
  | Some mu, Some c =>
      match owner mu with
      | Some o =>
          match tcbs s !! o with
          | Some co => negb (priority co <? priority c) ||
              ((negb exact || negb (bool_decide (state co = NIMBLE_TASK_READY))) &&
               (negb ordered || bool_decide (nxt (nodes s) (NEvent o) = Some (NEvent o))))
          | None => true
          end
      | None => true
      end
  | _, _ => true
  end.

Definition is_someb {A} (x : option A) : bool := match x with Some _ => true | None => false end.
Definition roomb (q : nat) (item : list Z) s : bool :=
  match queues s !! q with Some qu => item_size qu <=? Z.of_nat (length item) | None => false end.

Definition call_okb (t : tid) (c : call) s : bool :=
  match c with
  | CLock m _ => is_someb (mutexes s !! m) && boost_safeb m t s
  | CUnlock m => is_someb (mutexes s !! m)
  | CTake x _ | CGive x => is_someb (semaphores s !! x)
  | CSend q item _ => roomb q item s
  | CReceive q _ => is_someb (queues s !! q)
  | CDelay _ | CYield => true
  | CSuspend u => is_someb (tcbs s !! u) && negb (u =? idle_tcb)%nat
  | CResume u => is_someb (tcbs s !! u)
  end.

Definition is_noneb {A} (x : option A) : bool := negb (is_someb x).
Definition object_freshb (o : object) s : bool :=
  match o with
  | OMutex m => is_noneb (mutexes s !! m) && is_noneb (nodes s !! NMutex m)
  | OSemaphore x a b => is_noneb (semaphores s !! x) && is_noneb (nodes s !! NSem x) &&
      (0 <=? a) && (a <=? b) && (b <? 2 ^ 32)
  | OQueue q buffer size cap => is_noneb (queues s !! q) && is_noneb (nodes s !! NQRecv q) &&
      is_noneb (nodes s !! NQSend q) && (0 <=? size) && (0 <=? cap) && (cap <? 2 ^ 32) &&
      (size * cap <? 2 ^ 32) && (size * cap <=? Z.of_nat (length buffer))
  end.

Definition enabledb (e : event) σ : bool :=
  match e, nimble_current_tcb (ks σ) with
  | ECall c, Some t => negb (t =? idle_tcb)%nat && negb (pendsv (ks σ)) &&
      match phase_of σ t with User => true | _ => false end && call_okb t c (ks σ)
  | EInit o, Some t => negb (pendsv (ks σ)) &&
      match phase_of σ t with User => true | _ => false end && object_freshb o (ks σ)
  | ERequest, Some t => negb (pendsv (ks σ)) &&
      match phase_of σ t with Requesting _ => true | _ => false end
  | EResume, Some t => negb (pendsv (ks σ)) &&
      match phase_of σ t with Resuming _ => true | _ => false end
  | ETick, _ => true
  | EPendSV, _ => pendsv (ks σ)
  | EIsrGive x, _ => is_someb (semaphores (ks σ) !! x)
  | EIsrSend q item, _ => roomb q item (ks σ)
  | _, None => false
  end.

Lemma is_someb_ok {A} (x : option A) : is_someb x = true → is_Some x.
Proof. destruct x; [eauto|done]. Qed.

Lemma roomb_ok q item s :
  roomb q item s = true →
  ∃ qu, queues s !! q = Some qu ∧ item_size qu ≤ Z.of_nat (length item).
Proof. unfold roomb. destruct (queues s !! q) as [qu|]; [|done]. intros ?%Z.leb_le. eauto. Qed.

Lemma boost_safeb_ok m t s : boost_safeb m t s = true → boost_safe m t s.
Proof.
  unfold boost_safeb, boost_safe. intros Hb mu o c co Hm Ho Ht Hco Hlt. revert Hb.
  rewrite Hm, Ht, Ho, Hco. rewrite (proj2 (Z.ltb_lt _ _)) by done. simpl.
  intros [H1%orb_true_iff H2%orb_true_iff]%andb_true_iff.
  rewrite !negb_true_iff, ?bool_decide_eq_false, ?bool_decide_eq_true in *.
  split; intros Hx; [destruct H1|destruct H2]; congruence || done.
Qed.

Lemma call_okb_ok t c s : call_okb t c s = true → call_ok t c s.
Proof.
  destruct c; simpl; try done; try (by apply is_someb_ok); try (by apply roomb_ok).
  - intros [?%is_someb_ok ?%boost_safeb_ok]%andb_true_iff. done.
  - intros [?%is_someb_ok ?%negb_true_iff%Nat.eqb_neq]%andb_true_iff. done.
Qed.

Lemma is_noneb_ok {A} (x : option A) : is_noneb x = true → x = None.
Proof. by destruct x. Qed.

Lemma object_freshb_ok o s : object_freshb o s = true → object_fresh o s.
Proof.
  destruct o; simpl; rewrite !andb_true_iff, ?Z.leb_le, ?Z.ltb_lt; intros H;
    decompose [and] H; repeat split; by try apply is_noneb_ok.
Qed.

Lemma enabledb_ok e σ : enabledb e σ = true → enabled e σ.
Proof.
  unfold enabledb, enabled. destruct e as [c|o| | | | |x|q item].
  - destruct (nimble_current_tcb (ks σ)) as [t|]; [|done].
    intros [[[?%negb_true_iff%Nat.eqb_neq ?%negb_true_iff]%andb_true_iff Hph]%andb_true_iff
      ?%call_okb_ok]%andb_true_iff. exists t. destruct (phase_of σ t); done.
  - destruct (nimble_current_tcb (ks σ)) as [t|]; [|done].
    intros [[?%negb_true_iff Hph]%andb_true_iff ?%object_freshb_ok]%andb_true_iff.
    exists t. by destruct (phase_of σ t).
  - destruct (nimble_current_tcb (ks σ)) as [t|]; [|done].
    intros [?%negb_true_iff Hph]%andb_true_iff. exists t. destruct (phase_of σ t); eauto; done.
  - destruct (nimble_current_tcb (ks σ)) as [t|]; [|done].
    intros [?%negb_true_iff Hph]%andb_true_iff. exists t. destruct (phase_of σ t); eauto; done.
  - done.
  - done.
  - apply is_someb_ok.
  - apply roomb_ok.
Qed.

(** A run whose events are all enabled; [None] if one is not. *)
Fixpoint run_events (es : list event) σ : option sys :=
  match es with
  | [] => Some σ
  | e :: es => if enabledb e σ then σ ← exec e σ; run_events es σ else None
  end.

Lemma run_events_inv es σ σ' : sys_inv σ → run_events es σ = Some σ' → sys_inv σ'.
Proof.
  revert σ. induction es as [|e es IH]; intros σ Hσ E; simpl in E; [by simplify_eq|].
  destruct (enabledb e σ) eqn:He; [|done]. destruct (exec e σ) as [σ1|] eqn:E1; [|done].
  eapply IH, E. eapply step_inv; [done|]. econstructor; [by apply enabledb_ok|done].
Qed.

End mode.
