(* ===== verification/Abstract.v ===== *)
(** * The abstract kernel

    What the kernel promises, without its data structures: task queues are
    lists of tasks, a message queue is the list of its items, and there are no
    pointers, no bitmap, no ring indices and no interrupt mask.  The functions
    are partial only where a task or an object does not exist.  [Refinement]
    and [Simulation] show that the machine of [System] implements this one. *)
From S2P Require Import Prelude DList Kernel Scheduler SchedInv SchedSpec Ring TaskSpec System.
From stdpp Require Import options.

Record aqueue := AQueue { aq_size : Z; aq_capacity : Z; aq_items : list (list Z) }.

Record akernel := AKernel {
  a_tasks : gmap nat nimble_tcb;
  a_current : option tid;
  a_now : Z;
  a_switch : bool;                  (** a switch is requested *)
  a_ready : Z → list tid;           (** the READY tasks of a priority, in turn *)
  a_sleeping : list tid;            (** with a wake-up time, oldest call first *)
  a_waiting : nid → list tid;       (** for an object, first served first *)
  a_mutexes : gmap nat nimble_mutex;
  a_semaphores : gmap nat nimble_semaphore;
  a_queues : gmap nat aqueue;
}.

Implicit Types (a : akernel) (t : nat) (c : nimble_tcb) (h : nid).

(** ** Elementary changes *)

Definition update {A B} `{EqDecision A} (k : A) (v : B) (f : A → B) : A → B :=
  λ x, if decide (x = k) then v else f x.

Definition with_tasks v a := AKernel v (a_current a) (a_now a) (a_switch a) (a_ready a) (a_sleeping a)
  (a_waiting a) (a_mutexes a) (a_semaphores a) (a_queues a).
Definition with_current v a := AKernel (a_tasks a) v (a_now a) (a_switch a) (a_ready a) (a_sleeping a)
  (a_waiting a) (a_mutexes a) (a_semaphores a) (a_queues a).
Definition with_now v a := AKernel (a_tasks a) (a_current a) v (a_switch a) (a_ready a) (a_sleeping a)
  (a_waiting a) (a_mutexes a) (a_semaphores a) (a_queues a).
Definition with_switch v a := AKernel (a_tasks a) (a_current a) (a_now a) v (a_ready a) (a_sleeping a)
  (a_waiting a) (a_mutexes a) (a_semaphores a) (a_queues a).
Definition with_ready v a := AKernel (a_tasks a) (a_current a) (a_now a) (a_switch a) v (a_sleeping a)
  (a_waiting a) (a_mutexes a) (a_semaphores a) (a_queues a).
Definition with_sleeping v a := AKernel (a_tasks a) (a_current a) (a_now a) (a_switch a) (a_ready a) v
  (a_waiting a) (a_mutexes a) (a_semaphores a) (a_queues a).
Definition with_waiting v a := AKernel (a_tasks a) (a_current a) (a_now a) (a_switch a) (a_ready a)
  (a_sleeping a) v (a_mutexes a) (a_semaphores a) (a_queues a).
Definition with_mutexes v a := AKernel (a_tasks a) (a_current a) (a_now a) (a_switch a) (a_ready a)
  (a_sleeping a) (a_waiting a) v (a_semaphores a) (a_queues a).
Definition with_semaphores v a := AKernel (a_tasks a) (a_current a) (a_now a) (a_switch a) (a_ready a)
  (a_sleeping a) (a_waiting a) (a_mutexes a) v (a_queues a).
Definition with_queues v a := AKernel (a_tasks a) (a_current a) (a_now a) (a_switch a) (a_ready a)
  (a_sleeping a) (a_waiting a) (a_mutexes a) (a_semaphores a) v.

Definition put_task t c a := with_tasks (<[t := c]> (a_tasks a)) a.
Definition a_prio a t : Z := from_option priority 0 (a_tasks a !! t).

(** [t], whose TCB is [c] but for the state, is READY, last of its priority. *)
Definition make_ready t c a : akernel :=
  put_task t (set_state NIMBLE_TASK_READY c)
    (with_ready (update (priority c) (a_ready a (priority c) ++ [t]) (a_ready a)) a).

(** The first task that waits on [h] is taken out and made READY. *)
Definition a_wake h a : option (option tid * akernel) :=
  match a_waiting a h with
  | [] => Some (None, a)
  | w :: ws =>
      c ← a_tasks a !! w;
      Some (Some w, make_ready w (set_last_wait_result NIMBLE_OK c)
        (with_sleeping (without w (a_sleeping a)) (with_waiting (update h ws (a_waiting a)) a)))
  end.

(** A place in a queue of waiters: before the first of a lower priority. *)
Fixpoint line_up a (p : Z) t (ws : list tid) : list tid :=
  match ws with
  | [] => [t]
  | w :: ws => if a_prio a w <? p then t :: w :: ws else w :: line_up a p t ws
  end.

(** [t], whose TCB is [c], waits on [h]. *)
Definition a_block h t c (timeout : Z) a : akernel :=
  put_task t (blocked_tcb (a_now a) timeout c)
    (with_sleeping (if timeout =? NIMBLE_WAIT_FOREVER then a_sleeping a else a_sleeping a ++ [t])
      (with_waiting (update h (line_up a (priority c) t (a_waiting a h)) (a_waiting a)) a)).

(** ** Objects *)

Definition a_give (x : nat) a : option ((Z * bool) * akernel) :=
  sem ← a_semaphores a !! x;
  '(w, a) ← a_wake (NSem x) a;
  Some match w with
  | Some _ => ((NIMBLE_OK, true), a)
  | None => ((NIMBLE_OK, false), with_semaphores
      (<[x := Semaphore (Z.min (count sem + 1) (max_count sem)) (max_count sem)]> (a_semaphores a)) a)
  end.

Definition aq_full (qu : aqueue) : bool := aq_capacity qu <=? Z.of_nat (length (aq_items qu)).
(** The last item of a queue that has room. *)
Definition aq_push (item : list Z) (qu : aqueue) : aqueue :=
  AQueue (aq_size qu) (aq_capacity qu) (aq_items qu ++ [take (Z.to_nat (aq_size qu)) item]).
Definition aq_rest (qu : aqueue) : aqueue := AQueue (aq_size qu) (aq_capacity qu) (tail (aq_items qu)).
Definition put_aqueue (q : nat) qu a := with_queues (<[q := qu]> (a_queues a)) a.

(** A send that finds room: the item is appended, a receiver woken. *)
Definition a_send (q : nat) (item : list Z) (qu : aqueue) a : option ((Z * bool) * akernel) :=
  '(w, a) ← a_wake (NQRecv q) (put_aqueue q (aq_push item qu) a);
  Some ((NIMBLE_OK, bool_decide (is_Some w)), a).

(** ** Calls of the running task [t] *)

Definition acall t (cl : call) a : option (outcome * akernel) :=
  c ← a_tasks a !! t;
  match cl with
  | CLock m timeout =>
      mu ← a_mutexes a !! m;
      match owner mu with
      | None => Some (Returned NIMBLE_OK None false,
                      with_mutexes (<[m := Mutex (Some t) 1]> (a_mutexes a)) a)
      | Some o =>
          if decide (o = t) then
            Some (Returned NIMBLE_OK None false, with_mutexes
              (<[m := Mutex (Some t) (u32 (lock_count mu + 1))]> (a_mutexes a)) a)
          else if timeout =? NIMBLE_NO_WAIT then Some (Returned NIMBLE_ERR_TIMEOUT None false, a)
          else
            co ← a_tasks a !! o;
            let a := if priority co <? priority c
                     then put_task o (set_priority (priority c) co) a else a in
            Some (Blocked (PLock m), a_block (NMutex m) t c timeout a)
      end
  | CUnlock m =>
      mu ← a_mutexes a !! m;
      let n := u32 (lock_count mu - 1) in
      if decide (owner mu ≠ Some t) then Some (Returned NIMBLE_ERR_NOT_OWNER None false, a)
      else if 0 <? n then
        Some (Returned NIMBLE_OK None false, with_mutexes (<[m := Mutex (Some t) n]> (a_mutexes a)) a)
      else
        '(w, a) ← a_wake (NMutex m) (put_task t (set_priority (base_priority c) c) a);
        Some (Returned NIMBLE_OK None (bool_decide (is_Some w)), with_mutexes
          (<[m := match w with Some w => Mutex (Some w) 1 | None => Mutex None n end]> (a_mutexes a)) a)
  | CTake x timeout =>
      sem ← a_semaphores a !! x;
      if 0 <? count sem then
        Some (Returned NIMBLE_OK None false,
              with_semaphores (<[x := Semaphore (count sem - 1) (max_count sem)]> (a_semaphores a)) a)
      else if timeout =? NIMBLE_NO_WAIT then Some (Returned NIMBLE_ERR_TIMEOUT None false, a)
      else Some (Blocked PTake, a_block (NSem x) t c timeout a)
  | CGive x => '(r, a) ← a_give x a; Some (Returned r.1 None r.2, a)
  | CSend q item timeout =>
      qu ← a_queues a !! q;
      if aq_full qu then
        if timeout =? NIMBLE_NO_WAIT then Some (Returned NIMBLE_ERR_FULL None false, a)
        else Some (Blocked (PSend q item), a_block (NQSend q) t c timeout a)
      else '(r, a) ← a_send q item qu a; Some (Returned r.1 None r.2, a)
  | CReceive q timeout =>
      qu ← a_queues a !! q;
      match aq_items qu with
      | [] =>
          if timeout =? NIMBLE_NO_WAIT then Some (Returned NIMBLE_ERR_EMPTY None false, a)
          else Some (Blocked (PReceive q), a_block (NQRecv q) t c timeout a)
      | out :: _ =>
          '(w, a) ← a_wake (NQSend q) (put_aqueue q (aq_rest qu) a);
          Some (Returned NIMBLE_OK (Some out) (bool_decide (is_Some w)), a)
      end
  | CDelay ticks =>
      if ticks =? 0 then Some (Returned NIMBLE_OK None false, a)
      else Some (Returned NIMBLE_OK None true,
        put_task t (delayed_tcb (a_now a) ticks c) (with_sleeping (a_sleeping a ++ [t]) a))
  | CYield => Some (Returned NIMBLE_OK None true, a)
  | CSuspend u =>
      cu ← a_tasks a !! u;
      match state cu with
      | NIMBLE_TASK_READY => Some (Returned NIMBLE_OK None (bool_decide (a_current a = Some u)),
          put_task u (set_state NIMBLE_TASK_SUSPENDED cu)
            (with_ready (λ p, without u (a_ready a p)) a))
      | NIMBLE_TASK_RUNNING => Some (Returned NIMBLE_OK None (bool_decide (a_current a = Some u)),
          put_task u (set_state NIMBLE_TASK_SUSPENDED cu) a)
      | _ => Some (Returned NIMBLE_OK None false, a)
      end
  | CResume u =>
      cu ← a_tasks a !! u;
      Some (Returned NIMBLE_OK None false,
        if decide (state cu = NIMBLE_TASK_SUSPENDED) then make_ready u cu a else a)
  end.

(** The rest of a blocked call, once its caller runs again. *)
Definition apending (p : pending) t a : option ((Z * option (list Z)) * akernel) :=
  c ← a_tasks a !! t;
  match p with
  | PDone => Some ((NIMBLE_OK, None), a)
  | PLock m =>
      mu ← a_mutexes a !! m;
      Some ((if decide (owner mu = Some t) then NIMBLE_OK else NIMBLE_ERR_TIMEOUT, None), a)
  | PTake => Some ((last_wait_result c, None), a)
  | PSend q item =>
      qu ← a_queues a !! q;
      if last_wait_result c =? NIMBLE_ERR_TIMEOUT then Some ((NIMBLE_ERR_TIMEOUT, None), a)
      else if aq_full qu then Some ((NIMBLE_ERR_FULL, None), a)
      else Some ((NIMBLE_OK, None), put_aqueue q (aq_push item qu) a)
  | PReceive q =>
      qu ← a_queues a !! q;
      if last_wait_result c =? NIMBLE_ERR_TIMEOUT then Some ((NIMBLE_ERR_TIMEOUT, None), a)
      else match aq_items qu with
           | [] => Some ((NIMBLE_ERR_EMPTY, None), a)
           | out :: _ => Some ((NIMBLE_OK, Some out), put_aqueue q (aq_rest qu) a)
           end
  end.

(** ** Interrupts *)

(** A tick: every sleeper whose time has come is READY, with the timeout
    status, in the order of the sleepers; it waits for nothing any more. *)
Definition a_due a t : bool :=
  match a_tasks a !! t with Some c => expired (a_now a) c | None => false end.
Definition a_tick a : akernel :=
  let a := with_now (u32 (a_now a + 1)) a in
  let up t := bool_decide (t ∈ a_sleeping a) && a_due a t in
  AKernel
    (map_imap (λ t c, Some (if up t then set_woken NIMBLE_ERR_TIMEOUT c else c)) (a_tasks a))
    (a_current a) (a_now a) true
    (λ p, a_ready a p ++ filter (λ t, a_due a t = true ∧ a_prio a t = p) (a_sleeping a))
    (filter (λ t, a_due a t = false) (a_sleeping a))
    (λ h, filter (λ t, up t = false) (a_waiting a h))
    (a_mutexes a) (a_semaphores a) (a_queues a).

(** The highest priority up to [n] that has a READY task. *)
Fixpoint a_top (n : nat) a : option Z :=
  match a_ready a (Z.of_nat n) with
  | _ :: _ => Some (Z.of_nat n)
  | [] => match n with O => None | S n => a_top n a end
  end.

(** A switch: the running task goes to the end of its queue, and the first
    task of the highest priority runs. *)
Definition a_requeue a : option akernel :=
  match a_current a with
  | None => Some a
  | Some t =>
      c ← a_tasks a !! t;
      Some (if decide (state c = NIMBLE_TASK_RUNNING) then make_ready t c a else a)
  end.
Definition a_pendsv a : option akernel :=
  a ← a_requeue a;
  p ← a_top 31 a;
  match a_ready a p with
  | [] => None
  | t :: ts =>
      c ← a_tasks a !! t;
      Some (with_switch false (with_current (Some t) (put_task t (set_state NIMBLE_TASK_RUNNING c)
             (with_ready (update p ts (a_ready a)) a))))
  end.

Definition a_isr_send (q : nat) (item : list Z) a : option ((Z * bool) * akernel) :=
  qu ← a_queues a !! q;
  if aq_full qu then Some ((NIMBLE_ERR_FULL, false), a) else a_send q item qu a.

(** The request for a switch at the end of a handler. *)
Definition a_yield_from (r : option ((Z * bool) * akernel)) : option akernel :=
  '(r, a) ← r; Some (if r.2 : bool then with_switch true a else a).

(** Objects that a task initialises. *)
Definition a_init (o : object) a : akernel :=
  match o with
  | OMutex m => with_mutexes (<[m := Mutex None 0]> (a_mutexes a)) a
  | OSemaphore x i n => with_semaphores (<[x := Semaphore i n]> (a_semaphores a)) a
  | OQueue q _ size cap => put_aqueue q (AQueue size cap []) a
  end.

(** ** The machine *)

Record asys := ASys { ak : akernel; a_phases : gmap nat phase }.
Definition a_phase (α : asys) t : phase := default User (a_phases α !! t).

Definition aexec (e : event) (α : asys) : option asys :=
  match e with
  | ECall cl =>
      t ← a_current (ak α);
      '(o, a) ← acall t cl (ak α);
      Some (ASys a match o with
                   | Returned _ _ false => a_phases α
                   | Returned _ _ true => <[t := Requesting PDone]> (a_phases α)
                   | Blocked p => <[t := Requesting p]> (a_phases α)
                   end)
  | EInit o => Some (ASys (a_init o (ak α)) (a_phases α))
  | ERequest =>
      t ← a_current (ak α);
      match a_phase α t with
      | Requesting p => Some (ASys (with_switch true (ak α)) (<[t := Resuming p]> (a_phases α)))
      | _ => None
      end
  | EResume =>
      t ← a_current (ak α);
      match a_phase α t with
      | Resuming p => '(_, a) ← apending p t (ak α); Some (ASys a (<[t := User]> (a_phases α)))
      | _ => None
      end
  | ETick => Some (ASys (a_tick (ak α)) (a_phases α))
  | EPendSV => a ← a_pendsv (ak α); Some (ASys a (a_phases α))
  | EIsrGive x => a ← a_yield_from (a_give x (ak α)); Some (ASys a (a_phases α))
  | EIsrSend q item => a ← a_yield_from (a_isr_send q item (ak α)); Some (ASys a (a_phases α))
  end.
