(* ===== verification/Refinement.v ===== *)
(** * The kernel machine refines the abstract kernel

    [abstracts s L a]: the abstract state [a] is the concrete state [s], whose
    pointers hold the lists [L], without the data structures.  Each call of a
    task and each resumed call of the concrete kernel is the abstract one,
    with the same result. *)
From S2P Require Import Prelude DList Kernel Port Scheduler SchedInv SchedSpec Task WaitList Ring.
From S2P Require Import KernelInv TaskSpec KernelStep Mutex Semaphore Queue Frame System Abstract.
From stdpp Require Import options.

Implicit Types (L : gmap nid (list nid)) (n h : nid) (t u w o : nat) (s : kstate) (c : nimble_tcb)
  (a : akernel) (σ : sys) (α : asys).

Definition aq (qu : nimble_queue) : aqueue := AQueue (item_size qu) (capacity qu) (items qu).

Record abstracts s L a : Prop := {
  ab_tasks : a_tasks a = tcbs s;
  ab_current : a_current a = nimble_current_tcb s;
  ab_now : a_now a = g_tick_count s;
  ab_switch : a_switch a = pendsv s;
  ab_ready p : 0 ≤ p < 32 → get_list L (NReady p) = NLink <$> a_ready a p;
  ab_sleeping : get_list L NDelayed = NLink <$> a_sleeping a;
  ab_waiting h : is_wait h = true → get_list L h = NEvent <$> a_waiting a h;
  ab_mutexes : a_mutexes a = mutexes s;
  ab_semaphores : a_semaphores a = semaphores s;
  ab_queues : a_queues a = aq <$> queues s;
}.

(** ... with at most the bits [X] of the bitmap stale. *)
Definition refines_at {M : Mode} (X : Z → Prop) s a : Prop :=
  ∃ L, kernel_inv (X := X) s L ∧ abstracts s L a.
Definition refines {M : Mode} s a : Prop := ∃ X, refines_at X s a.

(** ** Lists of nodes as lists of tasks *)

#[export] Instance NLink_inj : Inj (=) (=) NLink. Proof. by intros ?? [=]. Qed.
#[export] Instance NEvent_inj : Inj (=) (=) NEvent. Proof. by intros ?? [=]. Qed.

Lemma fmap_filter {A B} (f : A → B) (P : B → Prop) `{∀ x, Decision (P x)} (l : list A) :
  filter P (f <$> l) = f <$> filter (λ x, P (f x)) l.
Proof.
  induction l as [|x l IH]; [done|]. rewrite fmap_cons. destruct (decide (P (f x))).
  - rewrite !filter_cons_True by done. by rewrite fmap_cons, IH.
  - by rewrite !filter_cons_False, IH by done.
Qed.

Lemma filter_ext {A} (P Q : A → Prop) `{∀ x, Decision (P x), ∀ x, Decision (Q x)} (l : list A) :
  (∀ x, x ∈ l → P x ↔ Q x) → filter P l = filter Q l.
Proof.
  induction l as [|x l IH]; intros Heq; [done|].
  assert (filter P l = filter Q l) as E by (apply IH; intros y Hy; apply Heq; by right).
  specialize (Heq x ltac:(left)). destruct (decide (P x)).
  - by rewrite !filter_cons_True, E by tauto.
  - by rewrite !filter_cons_False, E by tauto.
Qed.

Lemma without_fmap {A B} `{EqDecision A, EqDecision B} (f : A → B) `{!Inj (=) (=) f} x l :
  without (f x) (f <$> l) = f <$> without x l.
Proof.
  unfold without. rewrite fmap_filter. f_equal. apply filter_ext. intros y _.
  split; [by intros H ->|by intros H ?%(inj f)].
Qed.

Lemma without_links t (l : list tid) : without (NEvent t) (NLink <$> l) = NLink <$> l.
Proof. apply without_id. by intros (?&?&_)%list_elem_of_fmap. Qed.
Lemma without_events t (l : list tid) : without (NLink t) (NEvent <$> l) = NEvent <$> l.
Proof. apply without_id. by intros (?&?&_)%list_elem_of_fmap. Qed.

(** Where the tasks of [a] are, from the invariant. *)
Lemma ab_on_ready s L a p t :
  abstracts s L a → 0 ≤ p < 32 → t ∈ a_ready a p → on L (NReady p) (NLink t).
Proof.
  intros Ha Hp Hin. apply elem_of_get_list. rewrite (ab_ready _ _ _ Ha) by done.
  by apply list_elem_of_fmap_2.
Qed.
Lemma ab_on_wait s L a h t :
  abstracts s L a → is_wait h = true → t ∈ a_waiting a h → on L h (NEvent t).
Proof.
  intros Ha Hw Hin. apply elem_of_get_list. rewrite (ab_waiting _ _ _ Ha) by done.
  by apply list_elem_of_fmap_2.
Qed.

(** Only these components matter. *)
Lemma abstracts_ext s s' L L' a :
  tcbs s' = tcbs s → nimble_current_tcb s' = nimble_current_tcb s →
  g_tick_count s' = g_tick_count s → pendsv s' = pendsv s → mutexes s' = mutexes s →
  semaphores s' = semaphores s → queues s' = queues s → (∀ h, get_list L' h = get_list L h) →
  abstracts s L a → abstracts s' L' a.
Proof.
  intros E1 E2 E3 E4 E5 E6 E7 EL [H1 H2 H3 H4 H5 H6 H7 H8 H9 H10].
  split; rewrite ?E1, ?E2, ?E3, ?E4, ?E5, ?E6, ?E7; try done; intros; rewrite EL; auto.
Qed.

Lemma abstracts_framed s s' L a :
  framed s s' → tcbs s' = tcbs s → same_objects s s' → abstracts s L a → abstracts s' L a.
Proof.
  intros Hf ET (Em&Es&Eq). by apply abstracts_ext; [done|apply Hf..| | | |].
Qed.

(** The abstract state exists. *)
Definition node_task n : option tid := match n with NLink t | NEvent t => Some t | _ => None end.
Definition abstraction s L : akernel :=
  AKernel (tcbs s) (nimble_current_tcb s) (g_tick_count s) (pendsv s)
    (λ p, omap node_task (get_list L (NReady p))) (omap node_task (get_list L NDelayed))
    (λ h, omap node_task (get_list L h)) (mutexes s) (semaphores s) (aq <$> queues s).

Lemma omap_node_task (f : tid → nid) (l : list nid) :
  (∀ t, node_task (f t) = Some t) → (∀ n, n ∈ l → ∃ t, n = f t) → l = f <$> omap node_task l.
Proof.
  intros Hf. induction l as [|n l IH]; intros Hall; [done|].
  destruct (Hall n ltac:(left)) as [t ->]. simpl. rewrite Hf. simpl. f_equal.
  apply IH. intros n Hn. apply Hall. by right.
Qed.

Lemma abstraction_ok {M : Mode} {X : Stale} s L : kernel_inv s L → refines_at X s (abstraction s L).
Proof.
  intros HI. exists L. split; [done|]. pose proof (ki_sched _ _ (ki_core _ _ HI)) as HS.
  split; try done; intros; apply omap_node_task; try done; intros n Hn%elem_of_get_list;
    apply (si_typed _ _ _ HS) in Hn.
  - destruct n; simpl in Hn; naive_solver.
  - destruct n; simpl in Hn; naive_solver.
  - destruct h; try done; destruct n; simpl in Hn; naive_solver.
Qed.

(** ** Elementary changes *)

Lemma update_eq {A B} `{EqDecision A} (k : A) (v : B) f : update k v f k = v.
Proof. unfold update. by rewrite decide_True. Qed.
Lemma update_ne {A B} `{EqDecision A} (k x : A) (v : B) f : x ≠ k → update k v f x = f x.
Proof. intros. unfold update. by rewrite decide_False. Qed.

Lemma abstracts_task s L a t c :
  abstracts s L a → abstracts (set_tcbs (<[t := c]> (tcbs s)) s) L (put_task t c a).
Proof. intros [H1 ? ? ? ? ? ? ? ? ?]. split; try done. simpl. by rewrite H1. Qed.

Lemma abstracts_mutex s L a m v :
  abstracts s L a →
  abstracts (set_mutexes (<[m := v]> (mutexes s)) s) L (with_mutexes (<[m := v]> (a_mutexes a)) a).
Proof. intros [? ? ? ? ? ? ? H8 ? ?]. split; try done. simpl. by rewrite H8. Qed.

Lemma abstracts_semaphore s L a x v :
  abstracts s L a →
  abstracts (set_semaphores (<[x := v]> (semaphores s)) s) L
    (with_semaphores (<[x := v]> (a_semaphores a)) a).
Proof. intros [? ? ? ? ? ? ? ? H9 ?]. split; try done. simpl. by rewrite H9. Qed.

Lemma abstracts_queue s L a q v :
  abstracts s L a →
  abstracts (set_queues (<[q := v]> (queues s)) s) L (put_aqueue q (aq v) a).
Proof. intros [? ? ? ? ? ? ? ? ? H10]. split; try done. simpl. by rewrite H10, fmap_insert. Qed.

Lemma abstracts_switch s L a b :
  abstracts s L a → abstracts (set_pendsv b s) L (with_switch b a).
Proof. intros []. by split. Qed.

Lemma abstracts_make_ready s L a t c :
  abstracts s L a → 0 ≤ priority c < 32 →
  abstracts (set_tcbs (<[t := set_state NIMBLE_TASK_READY c]> (tcbs s)) s)
    (L_ready t (priority c) L) (make_ready t c a).
Proof.
  intros [H1 ? ? ? H5 H6 H7 ? ? ?] Hp. split; try done; simpl.
  - by rewrite H1.
  - intros p Hp'. rewrite get_list_L_ready. case_decide as E.
    + injection E as ->. by rewrite update_eq, fmap_app, H5.
    + rewrite update_ne by congruence. by apply H5.
  - by rewrite get_list_L_ready, decide_False.
  - intros h Hw. rewrite get_list_L_ready, decide_False by by intros ->. by apply H7.
Qed.

Lemma abstracts_sleep s L a t c :
  abstracts s L a →
  abstracts (set_tcbs (<[t := c]> (tcbs s)) s) (L_delayed t L)
    (put_task t c (with_sleeping (a_sleeping a ++ [t]) a)).
Proof.
  intros [H1 ? ? ? H5 H6 H7 ? ? ?]. split; try done; simpl.
  - by rewrite H1.
  - intros p Hp. unfold L_delayed, get_list. rewrite lookup_insert_ne by done. by apply H5.
  - unfold L_delayed, get_list. rewrite lookup_insert_eq. simpl. by rewrite fmap_app, <- H6.
  - intros h Hw. unfold L_delayed, get_list. rewrite lookup_insert_ne by by intros <-. by apply H7.
Qed.

Section waiters.
Context {M : Mode} {X : Stale}.

(** A waiter, first of [h], off its lists. *)
Lemma abstracts_detach s0 s L a h w ws c :
  sched_inv None s0 L → tcbs s0 !! w = Some c → state c = NIMBLE_TASK_BLOCKED →
  abstracts s L a → is_wait h = true → a_waiting a h = w :: ws →
  abstracts s (L_detach w L)
    (with_sleeping (without w (a_sleeping a)) (with_waiting (update h ws (a_waiting a)) a)).
Proof.
  intros HI Hc Hs Ha Hw Hh. pose proof (ti_ready _ _ _ _ (si_task _ _ _ HI w c Hc ltac:(done))) as Hr.
  pose proof Ha as [H1 ? ? ? H5 H6 H7 ? ? ?].
  assert (on L h (NEvent w)) as Hon by (eapply ab_on_wait; [done..|rewrite Hh; left]).
  split; try done; simpl.
  - intros p Hp. rewrite get_list_L_detach, H5, without_fmap, without_links by (done || apply _). f_equal.
    apply without_id. intros Hin. apply (ab_on_ready s L a p) in Hin; [|done..].
    apply Hr in Hin as [? _]. congruence.
  - by rewrite get_list_L_detach, H6, without_fmap, without_links by apply _.
  - intros h' Hw'. rewrite get_list_L_detach, H7, without_events, without_fmap by (done || apply _). f_equal.
    destruct (decide (h' = h)) as [->|Hne].
    + rewrite update_eq, Hh. apply (without_split _ []).
      assert (NoDup (NEvent <$> w :: ws)) as Hnd.
      { rewrite <- Hh, <- H7 by done. destruct Hon as (xs&Hxs&_). rewrite (get_list_eq _ _ _ Hxs).
        eapply repr_nodup; [apply HI|done]. }
      by apply NoDup_fmap in Hnd; [|apply _].
    + rewrite update_ne by done. apply without_id. intros Hin.
      apply Hne. eapply on_unique; [apply HI| |done]. by eapply ab_on_wait.
Qed.

(** ** Waking and blocking *)

Lemma abstracts_wake s0 s L a h w ws c0 c :
  sched_inv None s0 L → tcbs s0 !! w = Some c0 → state c0 = NIMBLE_TASK_BLOCKED →
  abstracts s L a → is_wait h = true → get_list L h = NEvent w :: ws →
  tcbs s !! w = Some c → 0 ≤ priority c < 32 →
  ∃ a', a_wake h a = Some (Some w, a') ∧
    abstracts (set_tcbs (<[w := set_woken NIMBLE_OK c]> (tcbs s)) s)
      (L_ready w (priority c) (L_detach w L)) a'.
Proof.
  intros HI Hc0 Hs Ha Hw Hl Hc Hp. unfold a_wake.
  pose proof (ab_waiting _ _ _ Ha h Hw) as Hwait. rewrite Hl in Hwait.
  destruct (a_waiting a h) as [|w' ws'] eqn:Eh; [done|]. injection Hwait as <- Hws.
  rewrite (ab_tasks _ _ _ Ha), Hc. simpl. eexists. split; [done|].
  apply (abstracts_make_ready _ _ _ w (set_last_wait_result NIMBLE_OK c)); [|done].
  by eapply abstracts_detach.
Qed.

Lemma a_wake_nobody s L a h :
  abstracts s L a → is_wait h = true → get_list L h = [] → a_wake h a = Some (None, a).
Proof.
  intros Ha Hw Hl. unfold a_wake. rewrite (ab_waiting _ _ _ Ha h Hw) in Hl.
  by apply fmap_nil_inv in Hl as ->.
Qed.

(** What an object's call reports of a wake-up, abstractly. *)
Lemma wake_outcome_refines s0 s L a h woken s' L' :
  sched_inv None s0 L → abstracts s L a → is_wait h = true → tcbs s = tcbs s0 →
  wake_outcome s0 L h woken s' L' →
  ∃ r a', a_wake h a = Some (r, a') ∧ bool_decide (is_Some r) = woken ∧
    abstracts (set_tcbs (tcbs s') s) L' a'.
Proof.
  intros HI Ha Hw ET Hout. unfold wake_outcome in Hout.
  destruct (get_list L h) as [|[] ws] eqn:El; try done.
  - destruct Hout as (->&->&->). exists None, a. split; [by eapply a_wake_nobody|].
    split; [done|]. rewrite <- ET. by destruct s.
  - destruct Hout as (->&_&_&cw&Hcw&Hs&->&->).
    edestruct (abstracts_wake s0 s L a h) as (a'&Ew&Ha'); [done..|by rewrite ET| |].
    { by eapply si_prio. }
    exists (Some t), a'. split; [done|]. split; [done|]. by rewrite ET in Ha'.
Qed.

End waiters.

(** The place that the sorted insertion finds. *)
Lemma line_up_insert s0 s L a h p t :
  abstracts s L a → is_wait h = true →
  (∀ w, w ∈ a_waiting a h → a_prio a w = prio_of s0 (NEvent w)) →
  insert_by s0 p (NEvent t) (get_list L h) = NEvent <$> line_up a p t (a_waiting a h).
Proof.
  intros Ha Hw. rewrite (ab_waiting _ _ _ Ha h Hw). generalize (a_waiting a h) as ws.
  induction ws as [|w ws IH]; intros Hp; [done|].
  rewrite fmap_cons. cbn [insert_by line_up]. rewrite <- Hp by left.
  destruct (_ <? _); [done|]. rewrite IH; [done|]. intros v Hv. apply Hp. by right.
Qed.

Lemma line_up_perm a p t (ws : list tid) : line_up a p t ws ≡ₚ t :: ws.
Proof.
  induction ws as [|w ws IH]; simpl; [done|].
  destruct (_ <? _); [done|]. rewrite IH. apply Permutation_swap.
Qed.

Lemma a_prio_of s L a t : abstracts s L a → a_prio a t = prio_of s (NEvent t).
Proof.
  intros Ha. unfold a_prio, prio_of. rewrite (ab_tasks _ _ _ Ha). by destruct (tcbs s !! t).
Qed.

Lemma abstracts_block s0 s L a h t c timeout :
  abstracts s L a → is_wait h = true →
  (∀ w, w ∈ a_waiting a h → a_prio a w = prio_of s0 (NEvent w)) →
  abstracts (set_tcbs (<[t := blocked_tcb (g_tick_count s) timeout c]> (tcbs s)) s)
    (L_blocked t timeout (<[h := insert_by s0 (priority c) (NEvent t) (get_list L h)]> L))
    (a_block h t c timeout a).
Proof.
  intros Ha Hw Hp. rewrite (line_up_insert s0 s L a) by done. unfold a_block.
  rewrite (ab_now _ _ _ Ha).
  assert (abstracts s (<[h := NEvent <$> line_up a (priority c) t (a_waiting a h)]> L)
    (with_waiting (update h (line_up a (priority c) t (a_waiting a h)) (a_waiting a)) a)) as Ha1.
  { destruct Ha as [H1 ? ? ? H5 H6 H7 ? ? ?]. split; try done; simpl; unfold get_list in *.
    - intros p Hpr. rewrite lookup_insert_ne by by intros ->. by apply H5.
    - rewrite lookup_insert_ne by by intros ->. done.
    - intros h' Hw'. destruct (decide (h' = h)) as [->|Hne].
      + by rewrite update_eq, lookup_insert_eq.
      + rewrite update_ne, lookup_insert_ne by done. by apply H7. }
  unfold L_blocked. destruct (timeout =? NIMBLE_WAIT_FOREVER).
  - apply (abstracts_task _ _ _ t (blocked_tcb (g_tick_count s) timeout c)) in Ha1. by destruct Ha1.
  - by apply (abstracts_sleep _ _ _ t (blocked_tcb (g_tick_count s) timeout c)) in Ha1.
Qed.

(** ** Calls *)

(** [tac] specifies a call that never writes [f] and [g]. *)
Ltac wp_framed f g tac :=
  eapply wp_mono; [eapply (wp_keeps f); [apply _|]; eapply (wp_keeps g); [apply _|]; tac|]; cbn beta.

(** The bits that may be stale after a call: one that takes the running task
    off the processor settles the bit of its priority. *)
Definition settled_by (cl : call) c (o : outcome) (X : Z → Prop) : Z → Prop :=
  match cl, o with
  | CSuspend _, _ => λ _, True
  | CDelay _, Returned _ _ true | _, Blocked _ => less_stale (priority c) X
  | _, _ => X
  end.

Section calls.
Context {M : Mode} {X : Stale}.
Context (s : kstate) (L : lists) (a : akernel) (t : nat) (c : nimble_tcb).
Context (HI : kernel_inv s L) (Ha : abstracts s L a) (Hc : caller s t c).

Lemma sim_task : a_tasks a !! t = Some c.
Proof using Ha Hc. rewrite (ab_tasks _ _ _ Ha). apply Hc. Qed.

Lemma sim_mutex m : a_mutexes a !! m = mutexes s !! m.
Proof using Ha. by rewrite (ab_mutexes _ _ _ Ha). Qed.
Lemma sim_semaphore x : a_semaphores a !! x = semaphores s !! x.
Proof using Ha. by rewrite (ab_semaphores _ _ _ Ha). Qed.
Lemma sim_queue q qu : queues s !! q = Some qu → a_queues a !! q = Some (aq qu).
Proof using Ha. intros Hq. by rewrite (ab_queues _ _ _ Ha), lookup_fmap, Hq. Qed.
Lemma sim_other u : a_tasks a !! u = tcbs s !! u.
Proof using Ha. by rewrite (ab_tasks _ _ _ Ha). Qed.

Lemma sim_prio : 0 ≤ priority c < 32 ∧ 0 ≤ base_priority c < 32.
Proof using HI Hc.
  pose proof (ki_core _ _ HI) as HC. split; [apply (si_prio _ _ _ (ki_sched _ _ HC) t)|
    apply (ki_base _ _ HC t)]; apply Hc.
Qed.

(** The end of a call that changed neither tasks nor lists, of one that woke
    a task, and of one that blocked. *)
Lemma sim_same (Y : Z → Prop) s1 s' L' a' :
  framed s s' → tcbs s' = tcbs s1 → nimble_current_tcb s1 = nimble_current_tcb s →
  g_tick_count s1 = g_tick_count s → pendsv s1 = pendsv s →
  mutexes s' = mutexes s1 → semaphores s' = semaphores s1 → queues s' = queues s1 →
  kernel_inv (X := Y) s' L' → abstracts s1 L' a' → refines_at Y s' a'.
Proof.
  intros Hf ET E1 E2 E3 Em Es Eq HI' Ha'. exists L'. split; [done|].
  eapply abstracts_ext, Ha'; try done.
  - by rewrite (fr_cur _ _ Hf).
  - by rewrite (fr_tick _ _ Hf).
  - by rewrite (fr_pendsv _ _ Hf).
Qed.

Lemma sim_block (Y : Z → Prop) s' h timeout :
  is_wait h = true → framed s s' → same_objects s s' →
  tcbs s' = <[t := blocked_tcb (g_tick_count s) timeout c]> (tcbs s) →
  kernel_inv (X := Y) s'
    (L_blocked t timeout (<[h := insert_by s (priority c) (NEvent t) (get_list L h)]> L)) →
  refines_at Y s' (a_block h t c timeout a).
Proof using HI Ha.
  intros Hw Hf (Em&Es&Eq) ET HI'.
  eapply sim_same; [..|eapply (abstracts_block s s L a h t c timeout Ha Hw)]; try done.
  intros w _. by apply a_prio_of with L.
Qed.

(** The owner of a mutex, raised, keeps the queue of its waiters. *)
Lemma boost_waiters m mu v co w p :
  mutexes s !! m = Some mu → owner mu = Some v → tcbs s !! v = Some co →
  w ∈ a_waiting a (NMutex m) →
  a_prio (put_task v (set_priority p co) a) w = prio_of s (NEvent w).
Proof using HI Ha.
  intros Hm Ho Hv Hin. rewrite <- (a_prio_of s L a w Ha). unfold a_prio; simpl.
  rewrite lookup_insert_ne; [done|]. intros <-.
  destruct (mo_owner _ _ _ _ (oo_mutex _ _ (ki_objects _ _ HI) m mu Hm) v Ho) as [_ Hn].
  apply Hn. rewrite (ab_waiting _ _ _ Ha) by done. by apply list_elem_of_fmap_2.
Qed.

Lemma lock_refines m timeout :
  call_ok t (CLock m timeout) s →
  wp (run_call (CLock m timeout))
    (λ r s', ∃ a', acall t (CLock m timeout) a = Some (r, a') ∧
       refines_at (settled_by (CLock m timeout) c r X) s' a') s.
Proof using HI Ha Hc.
  intros [[mu Hm] Hsafe]. cbn [run_call]. wp_step.
  wp_framed semaphores queues ltac:(by eapply mutex_lock_spec).
  intros r s' [[(L'&HI'&Hf&_&Hout) Eq] Es]. apply wp_ret.
  unfold lock_outcome in Hout. unfold acall. rewrite sim_task. cbn [mbind option_bind].
  rewrite sim_mutex, Hm. cbn [mbind option_bind].
  destruct (owner mu) as [v|] eqn:Ho; [|].
  - case_decide as Hv; [|destruct (timeout =? NIMBLE_NO_WAIT)].
    + destruct Hout as (->&Em&ET&->). eexists. split; [done|].
      eapply sim_same; [..|by apply abstracts_mutex]; done.
    + destruct Hout as (->&->&->). eexists. split; [done|]. by exists L.
    + destruct Hout as (co&Hco&->&Em&ET&->). rewrite sim_other, Hco. cbn [mbind option_bind].
      eexists. split; [done|].
      assert (is_wait (NMutex m) = true) as Hw by done.
      destruct (priority co <? priority c).
      * eapply (sim_same _ (set_tcbs _ (set_tcbs _ s)));
          [..|eapply (abstracts_block s (set_tcbs _ s) L _ (NMutex m)); [by apply abstracts_task|done..|]]; try done.
        intros w Hin. by eapply boost_waiters.
      * eapply sim_block; done.
  - destruct Hout as (->&Em&ET&->). eexists. split; [done|].
    eapply sim_same; [..|by apply abstracts_mutex]; done.
Qed.

Lemma unlock_refines m :
  is_Some (mutexes s !! m) →
  wp (run_call (CUnlock m))
    (λ r s', ∃ a', acall t (CUnlock m) a = Some (r, a') ∧
       refines_at (settled_by (CUnlock m) c r X) s' a') s.
Proof using HI Ha Hc.
  intros [mu Hm]. cbn [run_call]. wp_step.
  wp_framed semaphores queues ltac:(by eapply mutex_unlock_spec).
  intros r s' [[(L'&c'&HI'&Hf&_&Hout) Eq] Es]. apply wp_ret.
  unfold unlock_outcome in Hout. unfold acall. rewrite sim_task. cbn [mbind option_bind].
  rewrite sim_mutex, Hm. cbn [mbind option_bind]. cbv zeta.
  case_decide; [destruct Hout as (->&->&->); eexists; split; [done|]; by exists L|].
  destruct (0 <? u32 (lock_count mu - 1)).
  { destruct Hout as (->&Em&ET&->). eexists. split; [done|].
    eapply sim_same; [..|by apply abstracts_mutex]; done. }
  pose proof (abstracts_task _ _ _ t (set_priority (base_priority c) c) Ha) as Ha1.
  destruct (get_list L (NMutex m)) as [|[] ws] eqn:El; try done.
  - destruct Hout as (->&Em&ET&->).
    erewrite a_wake_nobody; [|exact Ha1|done|done]. cbn [mbind option_bind].
    eexists. split; [done|]. eapply sim_same; [..|by apply abstracts_mutex]; done.
  - destruct Hout as (->&Em&_&cw&Hw&Hs&ET&->).
    destruct (abstracts_wake s _ L _ (NMutex m) t0 ws cw cw (ki_sched _ _ (ki_core _ _ HI)) Hw Hs Ha1)
      as (a'&Ew&Ha'); [done|done| |apply (si_prio _ _ _ (ki_sched _ _ (ki_core _ _ HI)) _ _ Hw)|].
    { simpl. rewrite lookup_insert_ne; [done|]. intros <-. destruct Hc. congruence. }
    rewrite Ew. cbn [mbind option_bind]. eexists. split; [done|].
    eapply sim_same; [..|by apply abstracts_mutex]; done.
Qed.

Lemma take_refines x timeout :
  is_Some (semaphores s !! x) →
  wp (run_call (CTake x timeout))
    (λ r s', ∃ a', acall t (CTake x timeout) a = Some (r, a') ∧
       refines_at (settled_by (CTake x timeout) c r X) s' a') s.
Proof using HI Ha Hc.
  intros [sem Hx]. cbn [run_call]. wp_step.
  wp_framed mutexes queues ltac:(by eapply take_spec).
  intros r s' [[(L'&HI'&Hf&_&Hout) Eq] Em]. apply wp_ret.
  unfold take_outcome in Hout. unfold acall. rewrite sim_task. cbn [mbind option_bind].
  rewrite sim_semaphore, Hx. cbn [mbind option_bind].
  destruct (0 <? count sem); [|destruct (timeout =? NIMBLE_NO_WAIT)].
  - destruct Hout as (->&->&ET&Es). eexists. split; [done|].
    eapply sim_same; [..|by apply abstracts_semaphore]; done.
  - destruct Hout as (->&->&->). eexists. split; [done|]. by exists L.
  - destruct Hout as (->&Es&ET&->). eexists. split; [done|]. by eapply sim_block.
Qed.

(** A give, of a task or of an interrupt handler. *)
Lemma sim_give x sem r s' L' :
  semaphores s !! x = Some sem → kernel_inv s' L' → framed s s' → mutexes s' = mutexes s →
  queues s' = queues s → give_outcome s L x sem r s' L' →
  ∃ a', a_give x a = Some (r, a') ∧ refines_at X s' a'.
Proof using HI Ha.
  intros Hx HI' Hf Em Eq Hout. unfold a_give, give_outcome in *.
  rewrite sim_semaphore, Hx. cbn [mbind option_bind].
  destruct (get_list L (NSem x)) as [|[] ws] eqn:El; try done.
  - destruct Hout as (->&->&ET&Es). erewrite a_wake_nobody by done. cbn [mbind option_bind].
    eexists. split; [done|]. eapply sim_same; [..|by apply abstracts_semaphore]; done.
  - destruct Hout as (->&Es&_&cw&Hw&Hs&ET&->).
    destruct (abstracts_wake s s L a (NSem x) t0 ws cw cw (ki_sched _ _ (ki_core _ _ HI)) Hw Hs Ha)
      as (a'&Ew&Ha'); [done..|apply (si_prio _ _ _ (ki_sched _ _ (ki_core _ _ HI)) _ _ Hw)|].
    rewrite Ew. cbn [mbind option_bind]. eexists. split; [done|]. eapply sim_same; [..|exact Ha']; done.
Qed.

Lemma give_refines x :
  is_Some (semaphores s !! x) →
  wp (run_call (CGive x))
    (λ r s', ∃ a', acall t (CGive x) a = Some (r, a') ∧
       refines_at (settled_by (CGive x) c r X) s' a') s.
Proof using HI Ha Hc.
  intros [sem Hx]. cbn [run_call]. wp_step.
  wp_framed mutexes queues ltac:(by eapply give_crit_spec).
  intros r s' [[(L'&HI'&Hf&_&Hout) Eq] Em]. apply wp_ret.
  destruct (sim_give x sem r s' L') as (a'&Eg&Ha'); [done..|].
  unfold acall. rewrite sim_task. cbn [mbind option_bind]. rewrite Eg. cbn [mbind option_bind].
  by eexists.
Qed.

(** *** Queues *)

Lemma sim_full q qu :
  queues s !! q = Some qu → aq_full (aq qu) = negb (q_count qu <? capacity qu).
Proof using HI.
  intros Hq. destruct (oo_queue _ _ (ki_objects _ _ HI) q qu Hq) as [_ _ Hwf].
  unfold aq_full, aq, items; simpl. rewrite length_fmap, length_seq.
  pose proof (wf_count _ Hwf). rewrite Z2Nat.id by lia.
  by rewrite Z.ltb_antisym, negb_involutive.
Qed.

Lemma aq_reshaped qu qu' item :
  reshaped qu qu' → items qu' = items qu ++ [take (Z.to_nat (item_size qu)) item] →
  aq qu' = aq_push item (aq qu).
Proof. intros (_&Ec&Es) Ei. unfold aq, aq_push; simpl. by rewrite Ec, Es, Ei. Qed.

Lemma aq_received qu qu' out :
  reshaped qu qu' → items qu = out :: items qu' → aq qu' = aq_rest (aq qu).
Proof. intros (_&Ec&Es) Ei. unfold aq, aq_rest; simpl. by rewrite Ec, Es, Ei. Qed.

(** A queue is changed and the other side woken. *)
Lemma sim_queue_wake q qu' h woken s' L' :
  is_wait h = true → kernel_inv s' L' → framed s s' → mutexes s' = mutexes s →
  semaphores s' = semaphores s → queues s' = <[q := qu']> (queues s) →
  wake_outcome s L h woken s' L' →
  ∃ r a', a_wake h (put_aqueue q (aq qu') a) = Some (r, a') ∧ bool_decide (is_Some r) = woken ∧
    refines_at X s' a'.
Proof using HI Ha.
  intros Hw HI' Hf Em Es Eq Hout. pose proof (abstracts_queue _ _ _ q qu' Ha) as Ha1.
  destruct (wake_outcome_refines s _ L _ h woken s' L' (ki_sched _ _ (ki_core _ _ HI)) Ha1 Hw eq_refl Hout)
    as (r&a'&Er&Eb&Ha'). exists r, a'. split; [done|]. split; [done|].
  eapply sim_same; [..|exact Ha']; done.
Qed.

Lemma sim_send q qu item woken s' L' :
  queues s !! q = Some qu → kernel_inv s' L' → framed s s' → mutexes s' = mutexes s →
  semaphores s' = semaphores s → sent s L q qu item woken s' L' →
  ∃ a', a_send q item (aq qu) a = Some ((NIMBLE_OK, woken), a') ∧ refines_at X s' a'.
Proof using HI Ha.
  intros Hq HI' Hf Em Es (qu'&Eq&Hr&Ei&Hout).
  edestruct (sim_queue_wake q qu' (NQRecv q)) as (r&a'&Ew&Eb&Ha'); [done..|].
  exists a'. split; [|done]. unfold a_send. rewrite <- (aq_reshaped _ _ _ Hr Ei), Ew. simpl. by rewrite Eb.
Qed.

Lemma sim_queued (Y : Z → Prop) q qu h timeout s' L' :
  queues s !! q = Some qu → is_wait h = true → kernel_inv (X := Y) s' L' → framed s s' →
  mutexes s' = mutexes s → semaphores s' = semaphores s → queued s L t c h timeout s' L' →
  refines_at Y s' (a_block h t c timeout a).
Proof using HI Ha. intros Hq Hw HI' Hf Em Es (Eq&ET&->). by eapply sim_block. Qed.

Lemma send_refines q item timeout :
  call_ok t (CSend q item timeout) s →
  wp (run_call (CSend q item timeout))
    (λ r s', ∃ a', acall t (CSend q item timeout) a = Some (r, a') ∧
       refines_at (settled_by (CSend q item timeout) c r X) s' a') s.
Proof using HI Ha Hc.
  intros (qu&Hq&Hi). cbn [run_call]. wp_step.
  wp_framed mutexes semaphores ltac:(by eapply send_spec).
  intros r s' [[(L'&HI'&Hf&_&Hout) Es] Em]. apply wp_ret.
  unfold send_outcome in Hout. unfold acall. rewrite sim_task. cbn [mbind option_bind].
  rewrite (sim_queue q qu Hq). cbn [mbind option_bind]. rewrite (sim_full q qu Hq).
  destruct (q_count qu <? capacity qu); [|destruct (timeout =? NIMBLE_NO_WAIT)]; cbn [negb].
  - destruct Hout as (woken&->&Hsent).
    destruct (sim_send q qu item woken s' L') as (a'&Ea&Ha'); [done..|].
    rewrite Ea. by eexists.
  - destruct Hout as (->&->&->). eexists. split; [done|]. by exists L.
  - destruct Hout as (->&Hqd). eexists. split; [done|]. by eapply sim_queued.
Qed.

Lemma sim_items q qu :
  queues s !! q = Some qu → (0 <? q_count qu) = negb (bool_decide (items qu = [])).
Proof using HI.
  intros Hq. destruct (oo_queue _ _ (ki_objects _ _ HI) q qu Hq) as [_ _ Hwf].
  pose proof (wf_count _ Hwf). unfold items. destruct (Z.ltb_spec 0 (q_count qu)).
  - rewrite bool_decide_eq_false_2; [done|]. intros E%(f_equal length).
    rewrite length_fmap, length_seq in E. simpl in E. lia.
  - rewrite bool_decide_eq_true_2; [done|]. by replace (q_count qu) with 0 by lia.
Qed.

Lemma receive_refines q timeout :
  is_Some (queues s !! q) →
  wp (run_call (CReceive q timeout))
    (λ r s', ∃ a', acall t (CReceive q timeout) a = Some (r, a') ∧
       refines_at (settled_by (CReceive q timeout) c r X) s' a') s.
Proof using HI Ha Hc.
  intros [qu Hq]. cbn [run_call]. wp_step.
  wp_framed mutexes semaphores ltac:(by eapply receive_spec).
  intros r s' [[(L'&HI'&Hf&_&Hout) Es] Em]. apply wp_ret.
  unfold receive_outcome in Hout. unfold acall. rewrite sim_task. cbn [mbind option_bind].
  rewrite (sim_queue q qu Hq), (sim_items q qu Hq) in *. cbn [mbind option_bind aq aq_items].
  destruct (items qu) as [|out its] eqn:Ei; simpl in Hout; [destruct (timeout =? NIMBLE_NO_WAIT)|].
  - destruct Hout as (->&->&->). eexists. split; [done|]. by exists L.
  - destruct Hout as (->&Hqd). eexists. split; [done|]. by eapply sim_queued.
  - destruct Hout as (out'&woken&->&qu'&Eq&Hr&Ei'&Hwk).
    edestruct (sim_queue_wake q qu' (NQSend q)) as (r&a'&Ew&Eb&Ha'); [done..|].
    rewrite <- (aq_received _ _ _ Hr Ei'), Ew. cbn [mbind option_bind]. rewrite Ei in Ei'.
    injection Ei' as -> ->. rewrite Eb. by eexists.
Qed.

(** *** Tasks *)

(** A specification of a call that touches no object. *)
Lemma wp_same_objects {A} (op : K A) (Q : A → kstate → Prop) :
  Keeps mutexes op → Keeps semaphores op → Keeps queues op → wp op Q s →
  wp op (λ r s', Q r s' ∧ same_objects s s') s.
Proof.
  intros Hm Hx Hq Hwp. eapply wp_mono; [by apply (wp_keeps mutexes), (wp_keeps semaphores),
    (wp_keeps queues)|]. by intros r s' [[[? ?] ?] ?].
Qed.

Lemma delay_refines ticks :
  wp (run_call (CDelay ticks))
    (λ r s', ∃ a', acall t (CDelay ticks) a = Some (r, a') ∧
       refines_at (settled_by (CDelay ticks) c r X) s' a') s.
Proof using HI Ha Hc.
  cbn [run_call]. wp_step. eapply wp_mono; [apply wp_same_objects; [apply _..|by eapply delay_spec]|].
  cbn beta. intros r s' [[Hf Hout] (Em&Es&Eq)]. apply wp_ret.
  unfold acall. rewrite sim_task. cbn [mbind option_bind]. destruct (ticks =? 0).
  - destruct Hout as [-> ->]. eexists. split; [done|]. by exists L.
  - destruct Hout as (->&HI'&ET). eexists. split; [done|].
    rewrite (ab_now _ _ _ Ha). eapply sim_same; [..|by eapply abstracts_sleep]; done.
Qed.

Lemma yield_refines :
  wp (run_call CYield) (λ r s', ∃ a', acall t CYield a = Some (r, a') ∧
      refines_at (settled_by CYield c r X) s' a') s.
Proof using HI Ha Hc.
  apply wp_ret. unfold acall. rewrite sim_task. eexists. split; [done|]. by exists L.
Qed.

(** A READY task off its list. *)
Lemma abstracts_unready u cu c' :
  tcbs s !! u = Some cu → state cu = NIMBLE_TASK_READY →
  abstracts (set_tcbs (<[u := c']> (tcbs s)) s) (detach (NLink u) L)
    (put_task u c' (with_ready (λ p, without u (a_ready a p)) a)).
Proof using HI Ha.
  intros Hu Hs. pose proof (ki_sched _ _ (ki_core _ _ HI)) as HS.
  pose proof (ti_delayed _ _ _ _ (si_task _ _ _ HS u cu Hu ltac:(done))) as Hd.
  assert (∀ h, get_list (detach (NLink u) L) h = without (NLink u) (get_list L h)) as Hl.
  { intros h. unfold get_list, detach. rewrite lookup_fmap. by destruct (L !! h). }
  pose proof Ha as [H1 ? ? ? H5 H6 H7 ? ? ?]. split; try done; simpl.
  - by rewrite H1.
  - intros p Hp. by rewrite Hl, H5, without_fmap by (done || apply _).
  - rewrite Hl, <- H6. apply without_id. intros Hin%elem_of_get_list%Hd. congruence.
  - intros h Hw. by rewrite Hl, H7, without_events by done.
Qed.

Lemma suspend_refines u :
  is_Some (tcbs s !! u) ∧ u ≠ idle_tcb →
  wp (run_call (CSuspend u))
    (λ r s', ∃ a', acall t (CSuspend u) a = Some (r, a') ∧
       refines_at (settled_by (CSuspend u) c r X) s' a') s.
Proof using HI Ha Hc.
  intros [[cu Hu] Hid]. cbn [run_call]. wp_step.
  eapply wp_mono; [apply wp_same_objects; [apply _..|by eapply suspend_spec]|].
  cbn beta. intros r s' [[Hf Hout] (Em&Es&Eq)]. apply wp_ret.
  unfold acall. rewrite sim_task. cbn [mbind option_bind]. rewrite sim_other, Hu.
  cbn [mbind option_bind]. rewrite (ab_current _ _ _ Ha).
  assert (∀ (Y : Z → Prop) s1 L1, kernel_inv (X := Y) s1 L1 → kernel_inv (X := λ _, True) s1 L1)
    as Hany by (intros Y s1 L1; by apply inv_weaken).
  unfold suspended_lists in Hout. cbn [settled_by]. destruct (state cu) eqn:Ecu.
  - rewrite !decide_True in Hout by auto. destruct Hout as (->&[Y HI'%Hany]&ET).
    eexists. split; [done|]. eapply sim_same; [..|by eapply abstracts_unready]; done.
  - rewrite decide_True, decide_False in Hout by auto. destruct Hout as (->&[Y HI'%Hany]&ET).
    eexists. split; [done|]. eapply sim_same; [..|by eapply abstracts_task]; done.
  - rewrite decide_False in Hout by naive_solver. destruct Hout as [-> ->].
    eexists. split; [done|]. exists L. split; [by eapply Hany|done].
  - rewrite decide_False in Hout by naive_solver. destruct Hout as [-> ->].
    eexists. split; [done|]. exists L. split; [by eapply Hany|done].
  - rewrite decide_False in Hout by naive_solver. destruct Hout as [-> ->].
    eexists. split; [done|]. exists L. split; [by eapply Hany|done].
Qed.

Lemma resume_refines u :
  is_Some (tcbs s !! u) →
  wp (run_call (CResume u))
    (λ r s', ∃ a', acall t (CResume u) a = Some (r, a') ∧
       refines_at (settled_by (CResume u) c r X) s' a') s.
Proof using HI Ha Hc.
  intros [cu Hu]. cbn [run_call]. wp_step.
  eapply wp_mono; [apply wp_same_objects; [apply _..|by eapply resume_spec]|].
  cbn beta. intros r s' [[Hf Hout] (Em&Es&Eq)]. apply wp_ret.
  unfold acall. rewrite sim_task. cbn [mbind option_bind]. rewrite sim_other, Hu.
  cbn [mbind option_bind]. eexists. split; [done|]. case_decide.
  - destruct Hout as [HI' ET]. eapply sim_same; [..|eapply abstracts_make_ready; [done|]]; try done.
    by apply (si_prio _ _ _ (ki_sched _ _ (ki_core _ _ HI)) u).
  - subst. by exists L.
Qed.

(** Every call of the running task. *)
Lemma call_refines cl :
  call_ok t cl s →
  wp (run_call cl) (λ r s', ∃ a', acall t cl a = Some (r, a') ∧
      refines_at (settled_by cl c r X) s' a') s.
Proof using HI Ha Hc.
  destruct cl; intros Hok.
  - by apply lock_refines.
  - by apply unlock_refines.
  - by apply take_refines.
  - by apply give_refines.
  - by apply send_refines.
  - by apply receive_refines.
  - by apply delay_refines.
  - by apply yield_refines.
  - by apply suspend_refines.
  - by apply resume_refines.
Qed.

(** Every resumed call. *)
Lemma pending_refines p :
  pending_ok p s →
  wp (run_pending p t) (λ r s', ∃ a', apending p t a = Some (r, a') ∧ refines_at X s' a') s.
Proof using HI Ha Hc.
  unfold apending. rewrite sim_task. cbn [mbind option_bind].
  destruct p as [|m| |q item|q]; cbn [pending_ok run_pending].
  - intros _. apply wp_ret. eexists. split; [done|]. by exists L.
  - intros [mu Hm]. wp_step. wp_apply mutex_lock_resume_spec; [done..|].
    intros r s' (HI'&Hf&_&Hobj&ET&->). apply wp_ret. rewrite sim_mutex, Hm. eexists.
    split; [done|]. exists L. split; [done|]. by eapply abstracts_framed.
  - intros _. wp_step. wp_apply take_resume_spec; [done..|].
    intros r s' (HI'&Hf&_&Hobj&ET&->). apply wp_ret. eexists. split; [done|].
    exists L. split; [done|]. by eapply abstracts_framed.
  - intros (qu&Hq&Hi). wp_step. wp_framed mutexes semaphores ltac:(by eapply send_resume_spec).
    intros r s' [[(HI'&Hf&_&ET&Hout) Es] Em]. apply wp_ret.
    rewrite (sim_queue q qu Hq). cbn [mbind option_bind]. rewrite (sim_full q qu Hq).
    destruct (_ =? _); [|destruct (q_count qu <? capacity qu)]; cbn [negb].
    + destruct Hout as [-> Eq]. eexists. split; [done|]. exists L. split; [done|].
      by eapply abstracts_framed.
    + destruct Hout as (->&qu'&[Eq Hr]&Ei). eexists. split; [done|].
      rewrite <- (aq_reshaped _ _ _ Hr Ei). eapply sim_same; [..|by apply abstracts_queue]; done.
    + destruct Hout as [-> Eq]. eexists. split; [done|]. exists L. split; [done|].
      by eapply abstracts_framed.
  - intros [qu Hq]. wp_framed mutexes semaphores ltac:(by eapply receive_resume_spec).
    intros r s' [[(HI'&Hf&_&ET&Hout) Es] Em].
    rewrite (sim_queue q qu Hq), (sim_items q qu Hq) in *. cbn [mbind option_bind aq aq_items].
    destruct (_ =? _); [|destruct (items qu) as [|out its] eqn:Ei; simpl in Hout].
    + destruct Hout as [-> Eq]. eexists. split; [done|]. exists L. split; [done|].
      by eapply abstracts_framed.
    + destruct Hout as [-> Eq]. eexists. split; [done|]. exists L. split; [done|].
      by eapply abstracts_framed.
    + destruct Hout as (out'&qu'&->&[Eq Hr]&Ei'). rewrite <- Ei in Ei'.
      rewrite <- (aq_received _ _ _ Hr Ei'). rewrite Ei in Ei'. injection Ei' as -> ->. eexists. split; [done|].
      eapply sim_same; [..|by apply abstracts_queue]; done.
Qed.
End calls.
