(* ===== verification/Simulation.v ===== *)
(** * Every event of the machine is an event of the abstract machine

    The interrupts, the start of an object and the requests for a switch,
    then the steps and the runs of the machine of [System]: they are the steps
    and the runs of [Abstract.aexec]. *)
From S2P Require Import Prelude DList Kernel Port Scheduler SchedInv SchedSpec Task WaitList Ring.
From S2P Require Import KernelInv TaskSpec KernelStep Mutex Semaphore Queue Frame System Abstract.
From S2P Require Import Refinement.
From stdpp Require Import options.

Implicit Types (L : gmap nid (list nid)) (h : nid) (t u w : nat) (s : kstate) (c : nimble_tcb)
  (a : akernel) (σ : sys) (α : asys).

(** ** The tick *)

Section mode.
Context {M : Mode}.

Section tick.
Context {X : Stale}.
Context (s : kstate) (L : lists) (a : akernel).
Context (Ha : abstracts s L a).
Let now := u32 (g_tick_count s + 1).
Let s0 := set_tick_count now s.
Let a0 := with_now now a.

Lemma tick_due u : due s0 (NLink u) = a_due a0 u.
Proof using Ha. unfold a_due, due; simpl. by rewrite (ab_tasks _ _ _ Ha). Qed.

Lemma tick_prio u : prio_of s0 (NLink u) = a_prio a0 u.
Proof using Ha. unfold a_prio, prio_of; simpl. rewrite (ab_tasks _ _ _ Ha). by destruct (tcbs s !! u). Qed.

Lemma tick_sleeper u : NLink u ∈ get_list L NDelayed ↔ u ∈ a_sleeping a.
Proof using Ha.
  rewrite (ab_sleeping _ _ _ Ha), list_elem_of_fmap. split; [by intros (?&[= ->]&?)|eauto].
Qed.

Lemma tick_refines :
  kernel_inv s L → wp SysTick_Handler (λ _ s', refines_at X s' (a_tick a)) s.
Proof using Ha.
  intros HI. wp_apply systick_spec; [done|].
  intros _ s' (L'&HI'&Hp&Eg&Ec&_&(Em&Es&Eq)&_&ET&Hd&Hr&Ho).
  fold now in Eg, ET, Hd, Hr, Ho. fold s0 in Hd, Hr, Ho.
  exists L'. split; [done|]. unfold a_tick. rewrite (ab_now _ _ _ Ha). change (with_now _ a) with a0. cbv zeta.
  split; simpl; rewrite ?Ec, ?Em, ?Es, ?Eq; try apply Ha; try done.
  - apply map_eq. intros u. rewrite map_lookup_imap, ET, (ab_tasks _ _ _ Ha).
    destruct (tcbs s !! u) as [c|] eqn:Eu; [|done]. simpl.
    rewrite (bool_decide_ext _ _ (tick_sleeper u)). unfold a_due; simpl.
    by rewrite (ab_tasks _ _ _ Ha), Eu.
  - intros p Hp'. rewrite Hr, (ab_ready _ _ _ Ha), (ab_sleeping _ _ _ Ha), fmap_filter, fmap_app by done.
    do 2 f_equal. apply filter_ext. intros u _. by rewrite tick_due, tick_prio.
  - rewrite Hd, (ab_sleeping _ _ _ Ha), fmap_filter. f_equal. apply filter_ext.
    intros u _. by rewrite tick_due.
  - intros h Hw. rewrite Ho by by (intros; intros ->).
    rewrite (ab_waiting _ _ _ Ha h Hw), fmap_filter. f_equal. apply filter_ext.
    intros u _. unfold timed_out. by rewrite (bool_decide_ext _ _ (tick_sleeper u)), tick_due.
Qed.
End tick.

(** ** The switch *)

(** The bits that may be stale after a switch: that of the list the task came
    from, but not that of its priority. *)
Definition settled_switch a (X : Z → Prop) (q : Z) : Prop :=
  ∀ a1 p t ts c, a_requeue a = Some a1 → a_top 31 a1 = Some p → a_ready a1 p = t :: ts →
    a_tasks a1 !! t = Some c → left_stale p (priority c) X q.

Section switch.
Context {X : Stale}.
Context (s : kstate) (L : lists) (a : akernel).
Context (HI : kernel_inv s L) (Ha : abstracts s L a).

Lemma requeue_refines :
  ∃ a', a_requeue a = Some a' ∧
    abstracts (set_tcbs (requeue_tcbs s) s) (requeue_lists s L) a'.
Proof using HI Ha.
  assert (abstracts (set_tcbs (tcbs s) s) L a) as Hsame by (by destruct s).
  unfold a_requeue, requeue_lists, requeue_tcbs. rewrite (ab_current _ _ _ Ha).
  destruct (nimble_current_tcb s) as [t|] eqn:Et; [|eauto].
  destruct (ki_cur _ _ (ki_core _ _ HI) t Et) as [c Ht].
  rewrite (ab_tasks _ _ _ Ha), Ht. cbn [mbind option_bind]. eexists. split; [done|].
  case_decide; [|done]. apply abstracts_make_ready; [done|].
  by apply (si_prio _ _ _ (ki_sched _ _ (ki_core _ _ HI)) t).
Qed.

(** The lists after the requeue are those of some state of the nodes. *)
Lemma requeue_repr : ∃ m, repr m (requeue_lists s L).
Proof using HI.
  pose proof (requeue_spec s L (ki_sched _ _ (ki_core _ _ HI)) (ki_cur _ _ (ki_core _ _ HI))) as Hwp.
  apply wp_run in Hwp as (?&s1&_&_&HI1). exists (nodes s1). apply HI1.
Qed.

(** The highest priority with a READY task. *)
Lemma a_top_spec s1 L1 a1 p t ts (k : nat) :
  abstracts s1 L1 a1 → a_ready a1 p = t :: ts → 0 ≤ p ≤ Z.of_nat k → (k < 32)%nat →
  (∀ p' m, p < p' < 32 → ¬ on L1 (NReady p') m) → a_top k a1 = Some p.
Proof using.
  intros Ha1 Hp. induction k as [|k IH]; intros Hpk Hk Htop; cbn [a_top].
  - assert (p = Z.of_nat 0) as -> by lia. by rewrite Hp.
  - destruct (decide (p = Z.of_nat (S k))) as [->|Hne]; [by rewrite Hp|].
    destruct (a_ready a1 (Z.of_nat (S k))) as [|u us] eqn:E; [apply IH; [lia..|done]|].
    destruct (Htop (Z.of_nat (S k)) (NLink u)); [lia|].
    eapply ab_on_ready; [done|lia|rewrite E; left].
Qed.

Lemma pendsv_refines :
  ¬ switch_stuck s →
  wp PendSV_Handler
    (λ _ s', ∃ a', a_pendsv a = Some a' ∧ refines_at (settled_switch a X) s' a') s.
Proof using HI Ha.
  intros Hstuck. pose proof (ki_sched _ _ (ki_core _ _ HI)) as HS.
  destruct (pendsv_inv _ _ HI) as [[_ Hwp]|[Hst _]]; [|by apply stuck_switch in Hst].
  eapply wp_mono; [exact Hwp|]. intros _ s' (t&p&c&HI'&Hsw&Hp'). cbv zeta in *.
  destruct Hsw as (m'&b'&Hp&[[xs Hxs] Htop]&Ht&Hs&Hpc&Es'&_).
  destruct requeue_refines as (a1&Er&Ha1). unfold a_pendsv. rewrite Er. cbn [mbind option_bind].
  pose proof (ab_ready _ _ _ Ha1 p Hp) as Hrp. rewrite (get_list_eq _ _ _ Hxs) in Hrp.
  destruct (a_ready a1 p) as [|t' ts] eqn:Ep; [done|]. injection Hrp as <- Hts.
  pose proof (a_top_spec _ _ _ p t ts 31 Ha1 Ep ltac:(lia) ltac:(lia) Htop) as Etop.
  rewrite Etop. cbn [mbind option_bind]. rewrite Ep.
  assert (a_tasks a1 !! t = Some c) as Hc by by rewrite (ab_tasks _ _ _ Ha1).
  rewrite Hc. cbn [mbind option_bind].
  eexists. split; [done|]. exists (detach (NLink t) (requeue_lists s L)). split.
  { eapply inv_weaken, HI'. intros q Hq a2 p2 t2 ts2 c2 E2 Etop2 Ep2 Hc2.
    assert (a2 = a1) as -> by congruence. assert (p2 = p) as -> by congruence.
    assert (t2 = t) as -> by congruence. assert (c2 = c) as -> by congruence. exact Hq. }
  destruct requeue_repr as [m Hm].
  assert (∀ h, NLink t ∈ get_list (requeue_lists s L) h → h = NReady p) as Honly.
  { intros h Hin%elem_of_get_list. eapply on_unique; [exact Hm|done|].
    eexists. split; [done|left]. }
  assert (NoDup (NLink t :: xs)) as Hnd by by eapply repr_nodup.
  rewrite Hts in Hnd. apply (NoDup_fmap NLink (t :: ts)) in Hnd.
  destruct Ha1 as [E1 E2 E3 E4 E5 E6 E7 E8 E9 E10].
  split; simpl; try (rewrite Es'; simpl; done).
  - by rewrite Es', E1.
  - intros p' Hp''. rewrite wait_detach, E5, without_fmap by (done || apply _). f_equal.
    destruct (decide (p' = p)) as [->|Hne].
    + rewrite update_eq, Ep. by apply (without_split _ []).
    + rewrite update_ne by done. apply without_id. intros Hin. destruct Hne.
      enough (NReady p' = NReady p) by congruence. apply Honly. rewrite E5 by done.
      by apply list_elem_of_fmap_2.
  - rewrite wait_detach, without_id; [done|]. by intros ?%Honly.
  - intros h Hw. rewrite wait_detach, without_id; [by apply E7|]. by intros ->%Honly.
Qed.
End switch.

(** ** Requests for a switch and new objects *)

Lemma refines_switch X s a b : refines_at X s a → refines_at X (set_pendsv b s) (with_switch b a).
Proof.
  intros (L&HI&Ha). exists L. split; [by apply (kernel_inv_pendsv (X := X))|by apply abstracts_switch].
Qed.

Lemma init_refines X (o : object) s a :
  refines_at X s a → object_fresh o s → wp (init_object o) (λ _ s', refines_at X s' (a_init o a)) s.
Proof.
  intros (L&HI&Ha) Ho. wp_apply (init_object_spec (X := X)); [done..|].
  intros _ s' ([L' [HI' HL]]&(ET&_&_&Ec&Ep&Eg)&Hmade). exists L'. split; [done|].
  destruct o as [m|x i n|q buffer size cap]; simpl in Hmade |- *.
  - destruct Hmade as (Em&Es&Eq). eapply abstracts_ext; [..|by apply abstracts_mutex]; done.
  - destruct Hmade as (Es&Em&Eq). eapply abstracts_ext; [..|by apply abstracts_semaphore]; done.
  - destruct Hmade as (Em&Es&qu&Eq&Ei&Ecap&Esz).
    replace (AQueue size cap []) with (aq qu) by (unfold aq; congruence).
    eapply abstracts_ext; [..|by apply abstracts_queue]; done.
Qed.

(** ** Device interrupts *)

Lemma isr_refines X (m : K (Z * bool)) r s :
  wp m (λ v s', ∃ a', r = Some (v, a') ∧ refines_at X s' a') s →
  wp (isr m) (λ _ s', ∃ a', a_yield_from r = Some a' ∧ refines_at X s' a') s.
Proof.
  intros Hm. unfold isr. wp_step. eapply wp_mono; [exact Hm|].
  intros v s' (a'&->&Ha'). unfold when, a_yield_from. cbn [mbind option_bind].
  destruct v.2.
  - apply wp_modify. eexists. split; [done|]. by apply refines_switch.
  - apply wp_ret. by exists a'.
Qed.

Lemma isr_give_refines X x s a :
  refines_at X s a → is_Some (semaphores s !! x) →
  wp (nimble_semaphore_give_from_isr x)
    (λ r s', ∃ a', a_give x a = Some (r, a') ∧ refines_at X s' a') s.
Proof.
  intros (L&HI&Ha) [sem Hx]. wp_framed mutexes queues ltac:(by eapply give_from_isr_spec).
  intros r s' [[(L'&HI'&Hf&_&Hout) Eq] Em]. by apply (sim_give (X := X) s L a HI Ha x sem r s' L').
Qed.

Lemma isr_send_refines X q item s a :
  refines_at X s a → (∃ qu, queues s !! q = Some qu ∧ item_size qu ≤ Z.of_nat (length item)) →
  wp (nimble_queue_send_from_isr q item)
    (λ r s', ∃ a', a_isr_send q item a = Some (r, a') ∧ refines_at X s' a') s.
Proof.
  intros (L&HI&Ha) (qu&Hq&Hi). wp_framed mutexes semaphores ltac:(by eapply send_from_isr_spec).
  intros r s' [[(L'&HI'&Hf&_&Hout) Es] Em]. unfold a_isr_send.
  rewrite (sim_queue s L a Ha q qu Hq). cbn [mbind option_bind]. rewrite (sim_full (X := X) s L HI q qu Hq).
  destruct (q_count qu <? capacity qu); cbn [negb].
  - destruct Hout as (woken&->&Hsent). by apply (sim_send (X := X) s L a HI Ha q qu item woken s' L').
  - destruct Hout as (->&->&->). eexists. split; [done|]. by exists L.
Qed.

(** ** Events *)

(** What the code behind an event sees of it: the end of a call's first half,
    the call that a resumed half ends with its result, a handler's result. *)
Inductive reply :=
  | RCall (o : outcome)
  | RResume (p : pending) (r : Z * option (list Z))
  | RIsr (r : Z)
  | RNone.

Definition reply_of (e : event) σ : option reply :=
  match e with
  | ECall cl => '(o, _) ← run_call cl (ks σ); Some (RCall o)
  | EResume =>
      t ← nimble_current_tcb (ks σ);
      match phase_of σ t with
      | Resuming p => '(r, _) ← run_pending p t (ks σ); Some (RResume p r)
      | _ => None
      end
  | EIsrGive x => '(r, _) ← nimble_semaphore_give_from_isr x (ks σ); Some (RIsr r.1)
  | EIsrSend q item => '(r, _) ← nimble_queue_send_from_isr q item (ks σ); Some (RIsr r.1)
  | _ => Some RNone
  end.
Definition a_reply_of (e : event) α : option reply :=
  match e with
  | ECall cl => t ← a_current (ak α); '(o, _) ← acall t cl (ak α); Some (RCall o)
  | EResume =>
      t ← a_current (ak α);
      match a_phase α t with
      | Resuming p => '(r, _) ← apending p t (ak α); Some (RResume p r)
      | _ => None
      end
  | EIsrGive x => '(r, _) ← a_give x (ak α); Some (RIsr r.1)
  | EIsrSend q item => '(r, _) ← a_isr_send q item (ak α); Some (RIsr r.1)
  | _ => Some RNone
  end.

Definition simulates_at (X : Z → Prop) σ α : Prop :=
  refines_at X (ks σ) (ak α) ∧ a_phases α = phases σ.
Definition simulates σ α : Prop := refines (ks σ) (ak α) ∧ a_phases α = phases σ.

(** The bits that may be stale after an event. *)
Definition settled_event (e : event) α (X : Z → Prop) : Z → Prop :=
  match e with
  | ECall cl => λ q, ∀ t c o a', a_current (ak α) = Some t → a_tasks (ak α) !! t = Some c →
      acall t cl (ak α) = Some (o, a') → settled_by cl c o X q
  | EPendSV => settled_switch (ak α) X
  | _ => X
  end.

(** An event that the abstract machine takes to a state for [σ'], with the
    reply of the machine's. *)
Definition simulated_at X (e : event) σ α σ' : Prop :=
  ∃ α', aexec e α = Some α' ∧ simulates_at (settled_event e α X) σ' α' ∧
        a_reply_of e α = reply_of e σ.
Definition simulated (e : event) σ α σ' : Prop :=
  ∃ α', aexec e α = Some α' ∧ simulates σ' α' ∧ a_reply_of e α = reply_of e σ.

Lemma simulates_some X σ α : simulates_at X σ α → simulates σ α.
Proof. intros [? ?]. split; [by exists X|done]. Qed.

Lemma sim_current σ α : simulates σ α → a_current (ak α) = nimble_current_tcb (ks σ).
Proof. intros [(X&L&_&Ha) _]. apply Ha. Qed.

Lemma sim_phase σ α t : simulates σ α → a_phase α t = phase_of σ t.
Proof. intros [_ E]. unfold a_phase, phase_of. by rewrite E. Qed.

Lemma step_call X σ α cl σ' :
  sys_inv σ → simulates_at X σ α → enabled (ECall cl) σ → exec (ECall cl) σ = Some σ' →
  simulated_at X (ECall cl) σ α σ'.
Proof.
  intros Hσ Hα (t&Hcur&Hid&Hp&Hph&Hok) E. pose proof Hα as [(L&HI&Ha) Eph].
  destruct (running_caller σ t Hσ Hcur Hp) as [c Hc]; [congruence|done|].
  pose proof (call_refines (X := X) (ks σ) L (ak α) t c HI Ha Hc cl Hok) as Hwp.
  apply wp_exec_run in Hwp as (o&s'&Erun&Ecall&a'&Ea&Ha').
  unfold exec in E. rewrite Hcur in E. cbn [mbind option_bind] in E. rewrite Erun in E.
  cbn [mbind option_bind] in E. injection E as <-.
  unfold simulated_at, aexec, a_reply_of, reply_of. pose proof (simulates_some _ _ _ Hα) as Hα'.
  rewrite (sim_current _ _ Hα'), Hcur.
  cbn [mbind option_bind]. rewrite Ea, Ecall. cbn [mbind option_bind].
  eexists. split; [done|]. split; [|done]. rewrite Eph.
  assert (refines_at (settled_event (ECall cl) α X) s' a') as Hr.
  { destruct Ha' as (L'&HI'&Ha'). exists L'. split; [|done]. eapply inv_weaken, HI'.
    intros q Hq t2 c2 o2 a2 Ht2 Hc2 Eo2. rewrite (sim_current _ _ Hα') in Ht2.
    assert (t2 = t) as -> by congruence. rewrite Eo2 in Ea. rewrite (ab_tasks _ _ _ Ha) in Hc2.
    destruct Hc as [_ Hct _ _]. by simplify_eq. }
  by destruct o as [? ? []|].
Qed.

Lemma step_resume X σ α σ' :
  sys_inv σ → simulates_at X σ α → enabled EResume σ → exec EResume σ = Some σ' →
  simulated_at X EResume σ α σ'.
Proof.
  intros Hσ Hα (t&p&Hcur&Hp&Hph) E. pose proof Hα as [(L&HI&Ha) Eph].
  pose proof (sv_phases _ Hσ t) as Ht. rewrite Hph in Ht. destruct Ht as [Hid Hpend].
  destruct (running_caller σ t Hσ Hcur Hp) as [c Hc]; [congruence|done|].
  pose proof (pending_refines (X := X) (ks σ) L (ak α) t c HI Ha Hc p Hpend) as Hwp.
  apply wp_exec_run in Hwp as (o&s'&Erun&Ecall&a'&Ea&Ha').
  unfold exec in E. rewrite Hcur in E. cbn [mbind option_bind] in E. rewrite Hph, Erun in E.
  cbn [mbind option_bind] in E. injection E as <-. pose proof (simulates_some _ _ _ Hα) as Hα'.
  unfold simulated_at, aexec, a_reply_of, reply_of. rewrite (sim_current _ _ Hα'), Hcur.
  cbn [mbind option_bind]. rewrite (sim_phase _ _ _ Hα'), Hph, Ea, Ecall. cbn [mbind option_bind].
  eexists. split; [done|]. split; [|done]. by rewrite Eph.
Qed.

(** An event that is one run of a kernel computation. *)
Lemma step_run {A} X Y (m : K A) σ α σ' (r : option akernel) :
  simulates_at X σ α → ('(_, σ1) ← run m σ; Some σ1) = Some σ' →
  wp m (λ _ s', ∃ a', r = Some a' ∧ refines_at Y s' a') (ks σ) →
  ∃ α', (a ← r; Some (ASys a (a_phases α))) = Some α' ∧ simulates_at Y σ' α'.
Proof.
  intros [_ Eph] E Hwp. apply wp_exec_run in Hwp as (x&s'&Erun&_&a'&->&Ha').
  rewrite Erun in E. injection E as <-. by eexists.
Qed.

Lemma step_refines_at X σ α e σ' :
  sys_inv σ → simulates_at X σ α → step σ e σ' → simulated_at X e σ α σ'.
Proof.
  intros Hσ Hα Hs. inversion Hs as [? ? ? He E]; subst. pose proof Hα as [Hr Eph].
  pose proof Hr as (L&HI&Ha). pose proof (simulates_some _ _ _ Hα) as Hα0.
  destruct e as [cl|o| | | | |x|q item].
  - by apply step_call.
  - destruct He as (_&_&_&_&Ho).
    destruct (step_run _ X _ _ _ _ (Some (a_init o (ak α))) Hα E) as (α'&Eα&Hα'); [|by exists α'].
    eapply wp_mono; [by apply init_refines|]. cbn beta. eauto.
  - destruct He as (t&p&Hcur&Hp&Hph). unfold exec in E. rewrite Hcur in E.
    cbn [mbind option_bind] in E. rewrite Hph in E. injection E as <-.
    unfold simulated_at, aexec. rewrite (sim_current _ _ Hα0), Hcur. cbn [mbind option_bind].
    rewrite (sim_phase _ _ _ Hα0), Hph. eexists. split; [done|]. split; [|done].
    split; [by apply refines_switch|]. simpl. by rewrite Eph.
  - by apply step_resume.
  - destruct (step_run _ X _ _ _ _ (Some (a_tick (ak α))) Hα E) as (α'&Eα&Hα'); [|by exists α'].
    eapply wp_mono; [by eapply (tick_refines (X := X))|]. cbn beta. eauto.
  - assert (¬ switch_stuck (ks σ)) as Hst.
    { destruct (progress_or_stuck σ EPendSV Hσ He) as [[_ Hst]|(_&_&?)]; [by apply Hst|congruence]. }
    destruct (step_run _ _ _ _ _ _ (a_pendsv (ak α)) Hα E (pendsv_refines (X := X) _ _ _ HI Ha Hst))
      as (α'&Eα&Hα'). by exists α'.
  - pose proof (isr_give_refines _ x _ _ Hr He) as Hwp.
    destruct (step_run _ X _ _ _ _ (a_yield_from (a_give x (ak α))) Hα E) as (α'&Eα&Hα');
      [by apply isr_refines|]. exists α'. do 2 (split; [done|]).
    apply wp_run in Hwp as (r&s'&Eg&a'&Ea&_). simpl. by rewrite Eg, Ea.
  - pose proof (isr_send_refines _ q item _ _ Hr He) as Hwp.
    destruct (step_run _ X _ _ _ _ (a_yield_from (a_isr_send q item (ak α))) Hα E) as (α'&Eα&Hα');
      [by apply isr_refines|]. exists α'. do 2 (split; [done|]).
    apply wp_run in Hwp as (r&s'&Eg&a'&Ea&_). simpl. by rewrite Eg, Ea.
Qed.

Lemma step_refines σ α e σ' :
  sys_inv σ → simulates σ α → step σ e σ' → simulated e σ α σ'.
Proof.
  intros Hσ [[X Hr] Eph] Hs.
  destruct (step_refines_at X σ α e σ' Hσ (conj Hr Eph) Hs) as (α'&?&?%simulates_some&?).
  by exists α'.
Qed.

(** ** Runs *)

Fixpoint arun (es : list event) α : option (list reply * asys) :=
  match es with
  | [] => Some ([], α)
  | e :: es => r ← a_reply_of e α; α ← aexec e α; '(rs, α) ← arun es α; Some (r :: rs, α)
  end.

Lemma step_reply σ e σ' : step σ e σ' → is_Some (reply_of e σ).
Proof.
  intros Hs. inversion Hs as [? ? ? He E]; subst. destruct e as [cl|o| | | | |x|q item]; simpl; eauto;
    unfold exec, run, isr, mbind, M_bind in E.
  - destruct (nimble_current_tcb (ks σ)) as [t|]; [|done]. cbn [option_bind] in E.
    destruct (run_call cl (ks σ)) as [[]|]; [|done]. simpl. eauto.
  - destruct (nimble_current_tcb (ks σ)) as [t|]; [|done]. cbn [mbind option_bind] in E |- *.
    destruct (phase_of σ t) as [| |p]; [done..|].
    destruct (run_pending p t (ks σ)) as [[]|]; [|done]. simpl. eauto.
  - destruct (nimble_semaphore_give_from_isr x (ks σ)) as [[]|]; [|done]. simpl. eauto.
  - destruct (nimble_queue_send_from_isr q item (ks σ)) as [[]|]; [|done]. simpl. eauto.
Qed.

Lemma run_refines σ α es σ' :
  sys_inv σ → simulates σ α → trace σ es σ' →
  ∃ rs α', arun es.*2 α = Some (rs, α') ∧ simulates σ' α' ∧
    (λ x, reply_of x.2 x.1) <$> es = Some <$> rs.
Proof.
  intros Hσ Hα Ht. revert α Hα. induction Ht as [σ|σ e σ1 es σ' Hs Ht IH]; intros α Hα.
  - by exists [], α.
  - destruct (step_refines σ α e σ1 Hσ Hα Hs) as (α1&E1&H1&Er).
    destruct (step_reply _ _ _ Hs) as [r Hr].
    destruct (IH ltac:(by eapply step_inv) α1 H1) as (rs&α'&Erun&Hα'&Ers).
    exists (r :: rs), α'. rewrite !fmap_cons. cbn [fst snd arun]. rewrite Er, Hr, E1. cbn [mbind option_bind].
    rewrite Erun, Ers. done.
Qed.

Lemma simulates_abstraction {X : Stale} σ L :
  kernel_inv (ks σ) L → simulates_at X σ (ASys (abstraction (ks σ) L) (phases σ)).
Proof. intros HI. split; [by apply abstraction_ok|done]. Qed.

End mode.
