(* ===== verification/Delivery.v ===== *)
(** * Delivery of messages

    Which items the events of a run put into a queue and take out of it, and
    that the abstract machine neither loses, nor repeats, nor reorders one. *)
From S2P Require Import Prelude DList Kernel SchedInv Ring System Abstract Refinement Simulation.
From stdpp Require Import options.

Implicit Types (h : nid) (t q : nat) (a : akernel) (σ : sys) (α : asys) (r : reply).

Definition accepted (q q' : nat) (v : Z) (item : list Z) : list (list Z) :=
  if bool_decide (q' = q) && (v =? NIMBLE_OK) then [item] else [].
Definition delivered (q q' : nat) (out : option (list Z)) : list (list Z) :=
  if decide (q' = q) then option_list out else [].

(** The items that the event puts into [q]: a send that finds room, a blocked
    send that finds it when it is resumed, a send of a handler. *)
Definition sent_by (q : nat) (e : event) r : list (list Z) :=
  match e, r with
  | ECall (CSend q' item _), RCall (Returned v _ _) => accepted q q' v item
  | EResume, RResume (PSend q' item) (v, _) => accepted q q' v item
  | EIsrSend q' item, RIsr v => accepted q q' v item
  | _, _ => []
  end.
(** The items that it hands to a receiver. *)
Definition received_by (q : nat) (e : event) r : list (list Z) :=
  match e, r with
  | ECall (CReceive q' _), RCall (Returned _ out _) => delivered q q' out
  | EResume, RResume (PReceive q') (_, out) => delivered q q' out
  | _, _ => []
  end.

(** [qa'] is [qa] with [ins] appended and [outs] taken off. *)
Definition passed (qa : aqueue) (ins outs : list (list Z)) (qa' : aqueue) : Prop :=
  aq_size qa' = aq_size qa ∧ aq_capacity qa' = aq_capacity qa ∧
  aq_items qa ++ (take (Z.to_nat (aq_size qa)) <$> ins) = outs ++ aq_items qa'.

Lemma passed_same qa : passed qa [] [] qa.
Proof. split; [done|]. split; [done|]. by rewrite app_nil_r. Qed.
Lemma passed_push qa item : passed qa [item] [] (aq_push item qa).
Proof. done. Qed.
Lemma passed_rest qa out its : aq_items qa = out :: its → passed qa [] [out] (aq_rest qa).
Proof. intros E. split; [done|]. split; [done|]. simpl. by rewrite app_nil_r, E. Qed.

Lemma passed_trans qa ins outs qa1 ins1 outs1 qa2 :
  passed qa ins outs qa1 → passed qa1 ins1 outs1 qa2 → passed qa (ins ++ ins1) (outs ++ outs1) qa2.
Proof.
  intros (E1&E2&E3) (F1&F2&F3). split; [congruence|]. split; [congruence|].
  rewrite fmap_app, (assoc_L (++)), E3, <- (assoc_L (++)), <- E1, F3. by rewrite (assoc_L (++)).
Qed.

(** [a'] has [q] with [ins] appended and [outs] taken off. *)
Definition moved (q : nat) a (ins outs : list (list Z)) a' : Prop :=
  ∀ qa, a_queues a !! q = Some qa → ∃ qa', a_queues a' !! q = Some qa' ∧ passed qa ins outs qa'.

Lemma moved_same q a a' : a_queues a' = a_queues a → moved q a [] [] a'.
Proof. intros E qa Hq. rewrite E. eauto using passed_same. Qed.

Lemma moved_ext q a ins outs a' a'' :
  a_queues a'' = a_queues a' → moved q a ins outs a' → moved q a ins outs a''.
Proof. intros E Hm qa Hq. rewrite E. by apply Hm. Qed.

Lemma moved_other q q' a ins outs v a' :
  q' ≠ q → ins = [] → outs = [] → a_queues a' = <[q' := v]> (a_queues a) → moved q a ins outs a'.
Proof.
  intros Hne -> -> E qa Hq. rewrite E, lookup_insert_ne by done. eauto using passed_same.
Qed.

Lemma a_wake_queues h a w a' : a_wake h a = Some (w, a') → a_queues a' = a_queues a.
Proof.
  unfold a_wake. destruct (a_waiting a h) as [|u us]; [by intros [= _ <-]|].
  destruct (a_tasks a !! u) as [c|]; [|done]. by intros [= _ <-].
Qed.

Lemma moved_send q q' item qu a v w a' :
  a_queues a !! q' = Some qu → a_send q' item qu a = Some ((v, w), a') →
  moved q a (accepted q q' v item) [] a'.
Proof.
  unfold a_send. intros Hq E. destruct (a_wake _ _) as [[u a1]|] eqn:Ew; [|done].
  injection E as <- _ <-. apply a_wake_queues in Ew.
  change (a_queues a1 = <[q' := aq_push item qu]> (a_queues a)) in Ew. unfold accepted.
  destruct (decide (q' = q)) as [->|Hne].
  - rewrite bool_decide_eq_true_2 by done. intros qa Hqa. simplify_eq. rewrite Ew.
    eexists. split; [apply lookup_insert_eq|apply passed_push].
  - rewrite bool_decide_eq_false_2 by done. by eapply moved_other.
Qed.

Lemma moved_receive q q' qu out its a v sw w a' :
  a_queues a !! q' = Some qu → aq_items qu = out :: its →
  a_queues v = <[q' := aq_rest qu]> (a_queues a) → a_wake sw v = Some (w, a') ∨ a' = v →
  moved q a [] (delivered q q' (Some out)) a'.
Proof.
  intros Hq Ei Ev Ha. assert (a_queues a' = <[q' := aq_rest qu]> (a_queues a)) as E.
  { destruct Ha as [Hw| ->]; [|done]. by rewrite (a_wake_queues _ _ _ _ Hw). }
  unfold delivered. case_decide as Heq; [subst|by eapply moved_other].
  intros qa Hqa. simplify_eq. rewrite E. eexists. split; [apply lookup_insert_eq|].
  by eapply passed_rest.
Qed.

Lemma moved_none q q' v item a a' :
  v ≠ NIMBLE_OK → a_queues a' = a_queues a → moved q a (accepted q q' v item) [] a'.
Proof.
  intros Hv E. unfold accepted. rewrite (proj2 (Z.eqb_neq _ _) Hv), andb_false_r. by apply moved_same.
Qed.

(** A call of a task. *)
Lemma acall_moved q t cl a o a' :
  acall t cl a = Some (o, a') →
  moved q a (sent_by q (ECall cl) (RCall o)) (received_by q (ECall cl) (RCall o)) a'.
Proof.
  unfold acall. intros E. destruct (a_tasks a !! t) as [c|]; [|done]. cbn [mbind option_bind] in E.
  destruct cl as [m timeout|m|x timeout|x|q' item timeout|q' timeout|ticks| |u|u]; simpl in E |- *;
    try (apply moved_same).
  - destruct (a_mutexes a !! m) as [mu|]; [|done]. simpl in E.
    destruct (owner mu) as [v|]; [|by injection E as _ <-].
    case_decide; [by injection E as _ <-|].
    destruct (timeout =? NIMBLE_NO_WAIT); [by injection E as _ <-|].
    destruct (a_tasks a !! v) as [co|]; [|done]. simpl in E. injection E as _ <-.
    by destruct (priority co <? priority c).
  - destruct (a_mutexes a !! m) as [mu|]; [|done]. simpl in E. case_decide; [by injection E as _ <-|].
    destruct (0 <? _); [by injection E as _ <-|].
    destruct (a_wake _ _) as [[w a1]|] eqn:Ew; [|done]. apply a_wake_queues in Ew.
    injection E as _ <-. exact Ew.
  - destruct (a_semaphores a !! x) as [sem|]; [|done]. simpl in E.
    destruct (0 <? count sem); [by injection E as _ <-|].
    destruct (timeout =? NIMBLE_NO_WAIT); by injection E as _ <-.
  - unfold a_give in E. destruct (a_semaphores a !! x) as [sem|]; [|done]. simpl in E.
    destruct (a_wake _ _) as [[w a1]|] eqn:Ew; [|done]. apply a_wake_queues in Ew.
    simpl in E. destruct w; injection E as _ <-; exact Ew.
  - destruct (a_queues a !! q') as [qu|] eqn:Eq; [|done]. simpl in E.
    destruct (aq_full qu).
    + destruct (timeout =? NIMBLE_NO_WAIT); injection E as <- <-; [by apply moved_none|by apply moved_same].
    + destruct (a_send q' item qu a) as [[[v w] a1]|] eqn:Es; [|done]. injection E as <- <-.
      by eapply moved_send.
  - destruct (a_queues a !! q') as [qu|] eqn:Eq; [|done]. simpl in E.
    destruct (aq_items qu) as [|out its] eqn:Ei.
    + destruct (timeout =? NIMBLE_NO_WAIT); injection E as <- <-; [|by apply moved_same].
      unfold delivered. case_decide; by apply moved_same.
    + destruct (a_wake _ _) as [[w a1]|] eqn:Ew; [|done]. injection E as <- <-.
      by eapply (moved_receive q q' qu out its a (put_aqueue q' (aq_rest qu) a) (NQSend q') w); [..|left].
  - destruct (ticks =? 0); by injection E as _ <-.
  - by injection E as _ <-.
  - destruct (a_tasks a !! u) as [cu|]; [|done]. simpl in E. destruct (state cu); by injection E as _ <-.
  - destruct (a_tasks a !! u) as [cu|]; [|done]. simpl in E. injection E as _ <-. by case_decide.
Qed.

(** The rest of a blocked call. *)
Lemma apending_moved q t p a v a' :
  apending p t a = Some (v, a') →
  moved q a (sent_by q EResume (RResume p v)) (received_by q EResume (RResume p v)) a'.
Proof.
  unfold apending. intros E. destruct (a_tasks a !! t) as [c|]; [|done]. cbn [mbind option_bind] in E.
  destruct p as [|m| |q' item|q']; simpl.
  - injection E as _ <-. by apply moved_same.
  - destruct (a_mutexes a !! m); [|done]. injection E as _ <-. by apply moved_same.
  - injection E as _ <-. by apply moved_same.
  - destruct (a_queues a !! q') as [qu|] eqn:Eq; [|done]. simpl in E.
    destruct (_ =? _); [injection E as <- <-; by apply moved_none|].
    destruct (aq_full qu); injection E as <- <-; [by apply moved_none|].
    unfold accepted. destruct (decide (q' = q)) as [->|Hne].
    + rewrite bool_decide_eq_true_2 by done. intros qa Hqa. simplify_eq.
      eexists. split; [apply lookup_insert_eq|apply passed_push].
    + rewrite bool_decide_eq_false_2 by done. by eapply moved_other.
  - destruct (a_queues a !! q') as [qu|] eqn:Eq; [|done]. simpl in E.
    destruct (_ =? _); [|destruct (aq_items qu) as [|out its] eqn:Ei];
      injection E as <- <-; [unfold delivered; case_decide; by apply moved_same..|].
    by apply (moved_receive q q' qu out its a (put_aqueue q' (aq_rest qu) a) (NQSend q') None); [..|right].
Qed.

Definition makes_queue (q : nat) (e : event) : Prop := ∃ b size cap, e = EInit (OQueue q b size cap).

(** Every event of the abstract machine. *)
Lemma aexec_moved q e α r α' :
  aexec e α = Some α' → a_reply_of e α = Some r → ¬ makes_queue q e →
  moved q (ak α) (sent_by q e r) (received_by q e r) (ak α').
Proof.
  intros E Er Hnew. destruct e as [cl|o| | | | |x|q' item]; simpl in E, Er.
  - destruct (a_current (ak α)) as [t|]; [|done]. simpl in E, Er.
    destruct (acall t cl (ak α)) as [[o a']|] eqn:Ec; [|done]. simpl in E, Er. injection E as <-.
    injection Er as <-. by eapply acall_moved.
  - injection Er as <-. injection E as <-. destruct o as [m|x i n|q' b size cap]; try by apply moved_same.
    eapply (moved_other _ q'); [|done..]. intros ->. apply Hnew. by repeat eexists.
  - injection Er as <-. destruct (a_current (ak α)) as [t|]; [|done]. simpl in E.
    destruct (a_phase α t); try done. injection E as <-. by apply moved_same.
  - destruct (a_current (ak α)) as [t|]; [|done]. simpl in E, Er.
    destruct (a_phase α t) as [| |p]; try done.
    destruct (apending p t (ak α)) as [[v a']|] eqn:Ep; [|done]. simpl in E, Er. injection E as <-.
    injection Er as <-. by eapply apending_moved.
  - injection Er as <-. injection E as <-. by apply moved_same.
  - injection Er as <-. destruct (a_pendsv (ak α)) as [a'|] eqn:Ep; [|done]. injection E as <-.
    apply moved_same. simpl. unfold a_pendsv, a_requeue in Ep.
    destruct (match a_current _ with Some _ => _ | None => _ end) as [a1|] eqn:E1; [|done].
    assert (a_queues a1 = a_queues (ak α)) as <-.
    { destruct (a_current (ak α)) as [t|]; [|by injection E1 as <-].
      destruct (a_tasks (ak α) !! t) as [c|]; [|done]. simpl in E1. injection E1 as <-. by case_decide. }
    cbn [mbind option_bind] in Ep. destruct (a_top 31 a1) as [p|]; [|done]. simpl in Ep.
    destruct (a_ready a1 p) as [|t ts]; [done|]. destruct (a_tasks a1 !! t) as [c|]; [|done].
    by injection Ep as <-.
  - destruct (a_give x (ak α)) as [[v a1]|] eqn:Eg; [|done]. simpl in E, Er. injection Er as <-.
    injection E as <-. apply moved_same. unfold a_give in Eg.
    destruct (a_semaphores (ak α) !! x) as [sem|]; [|done]. simpl in Eg.
    destruct (a_wake _ _) as [[w a2]|] eqn:Ew; [|done]. apply a_wake_queues in Ew. simpl in Eg.
    destruct w; injection Eg as <- <-; exact Ew.
  - unfold a_isr_send in E, Er. destruct (a_queues (ak α) !! q') as [qu|] eqn:Eq; [|done]. simpl in E, Er.
    destruct (aq_full qu).
    + injection Er as <-. injection E as <-. by apply moved_none.
    + destruct (a_send q' item qu (ak α)) as [[[v w] a1]|] eqn:Es; [|done]. simpl in E, Er.
      injection Er as <-. injection E as <-. eapply moved_ext; [|by eapply moved_send]. by destruct w.
Qed.

(** ** Runs *)

Definition sends (q : nat) (es : list (sys * event)) : list (list Z) :=
  es ≫= λ x, from_option (sent_by q x.2) [] (reply_of x.2 x.1).
Definition receives (q : nat) (es : list (sys * event)) : list (list Z) :=
  es ≫= λ x, from_option (received_by q x.2) [] (reply_of x.2 x.1).

Section mode.
Context {M : Mode}.

Lemma sim_queues σ α q : simulates σ α → a_queues (ak α) !! q = aq <$> queues (ks σ) !! q.
Proof. intros [(X&L&_&Ha) _]. by rewrite (ab_queues _ _ _ Ha), lookup_fmap. Qed.

Lemma step_moved q σ α e σ' qu :
  sys_inv σ → simulates σ α → step σ e σ' → queues (ks σ) !! q = Some qu →
  ∃ α' qu', simulates σ' α' ∧ queues (ks σ') !! q = Some qu' ∧
    passed (aq qu) (sends q [(σ, e)]) (receives q [(σ, e)]) (aq qu').
Proof.
  intros Hσ Hα Hs Hq. destruct (step_refines σ α e σ' Hσ Hα Hs) as (α'&E&Hα'&Er).
  destruct (step_reply _ _ _ Hs) as [r Hr]. rewrite Hr in Er.
  assert (¬ makes_queue q e) as Hnew.
  { intros (b&size&cap&->). inversion Hs as [? ? ? He _]; subst.
    destruct He as (t&_&_&_&Hn&_). congruence. }
  destruct (aexec_moved q e α r α' E Er Hnew (aq qu)) as (qa&Hqa&Hp).
  { by rewrite (sim_queues _ _ _ Hα), Hq. }
  rewrite (sim_queues _ _ _ Hα') in Hqa.
  destruct (queues (ks σ') !! q) as [qu'|]; [|done]. injection Hqa as <-.
  exists α', qu'. do 2 (split; [done|]). unfold sends, receives; simpl. rewrite Hr. simpl.
  by rewrite !app_nil_r.
Qed.

Lemma trace_moved q σ α es σ' qu :
  sys_inv σ → simulates σ α → trace σ es σ' → queues (ks σ) !! q = Some qu →
  ∃ qu', queues (ks σ') !! q = Some qu' ∧ passed (aq qu) (sends q es) (receives q es) (aq qu').
Proof.
  intros Hσ Hα Ht. revert α qu Hα. induction Ht as [σ|σ e σ1 es σ' Hs Ht IH]; intros α qu Hα Hq.
  - exists qu. split; [done|apply passed_same].
  - destruct (step_moved q σ α e σ1 qu Hσ Hα Hs Hq) as (α1&qu1&Hα1&Hq1&Hp1).
    destruct (IH ltac:(by eapply step_inv) α1 qu1 Hα1 Hq1) as (qu'&Hq'&Hp').
    exists qu'. split; [done|]. pose proof (passed_trans _ _ _ _ _ _ _ Hp1 Hp') as Hp.
    unfold sends, receives in *. simpl in *. by rewrite !app_nil_r in Hp.
Qed.

End mode.
