(* ===== verification/Waiting.v ===== *)
(** * Waits without a timeout

    A call that waits with [NIMBLE_WAIT_FOREVER] ends only when the object
    serves it.  Proved on the abstract machine: from the call on, its task
    either waits in the object's queue, and for nothing else, or has been
    served, and a task that was served a mutex owns it. *)
From S2P Require Import Prelude DList Kernel Scheduler SchedInv SchedSpec KernelInv TaskSpec.
From S2P Require Import System Abstract.
From S2P Require Import Ring Refinement Simulation Delivery.
From stdpp Require Import options.

Implicit Types (h : nid) (t u m : nat) (c : nimble_tcb) (a : akernel) (σ : sys) (α : asys).

Definition a_owner (m : nat) a : option tid := mu ← a_mutexes a !! m; owner mu.

(** What the object is to give [t]. *)
Definition granted h t a : Prop := ∀ m, h = NMutex m → a_owner m a = Some t.

Definition waits h t a : Prop := t ∈ a_waiting a h ∧ t ∉ a_sleeping a.
Definition notified t a : Prop :=
  (t ∉ a_sleeping a) ∧ ∃ c, a_tasks a !! t = Some c ∧ last_wait_result c = NIMBLE_OK.
Definition pending_wait h t a : Prop := waits h t a ∨ notified t a ∧ granted h t a.

(** A task waits for one object at most. *)
Definition one_wait t a : Prop :=
  ∀ h h', is_wait h = true → is_wait h' = true → t ∈ a_waiting a h → t ∈ a_waiting a h' → h = h'.

Lemma refines_one_wait {M : Mode} s a t : refines s a → one_wait t a.
Proof.
  intros (X&L&HI&Ha) h h' Hw Hw' Hh Hh'. eapply on_unique.
  - apply (si_repr _ _ _ (ki_sched _ _ (ki_core _ _ HI))).
  - by eapply ab_on_wait.
  - by eapply ab_on_wait.
Qed.

Section keep.
Context (t : nat) (h : nid).
Context (Hh : is_wait h = true).

(** Components that do not matter. *)
Lemma waits_ext a a' :
  a_waiting a' h = a_waiting a h → a_sleeping a' = a_sleeping a → waits h t a → waits h t a'.
Proof using. unfold waits. by intros -> ->. Qed.

Lemma notified_ext a a' :
  last_wait_result <$> a_tasks a' !! t = last_wait_result <$> a_tasks a !! t →
  a_sleeping a' = a_sleeping a → notified t a → notified t a'.
Proof using.
  intros ET ES (Hs&c&Hc&Hr). split; [by rewrite ES|]. rewrite Hc in ET.
  destruct (a_tasks a' !! t) as [c'|]; [|done]. exists c'. split; [done|]. injection ET as ET. congruence.
Qed.

Lemma pending_ext a a' :
  (a_waiting a' h = a_waiting a h) → a_sleeping a' = a_sleeping a →
  last_wait_result <$> a_tasks a' !! t = last_wait_result <$> a_tasks a !! t →
  (granted h t a → granted h t a') → pending_wait h t a → pending_wait h t a'.
Proof using.
  intros EW ES ET Hg [Hw|[Hn Ho]]; [left|right].
  - by eapply waits_ext.
  - split; [by eapply notified_ext|auto].
Qed.

(** Same wait result for [t] after a change of another task's TCB or of other
    fields. *)
Lemma result_put u c' (T : gmap nat nimble_tcb) :
  (u = t → last_wait_result <$> T !! t = Some (last_wait_result c')) →
  last_wait_result <$> <[u := c']> T !! t = last_wait_result <$> T !! t.
Proof using.
  intros Hu. destruct (decide (u = t)) as [->|Hne].
  - rewrite lookup_insert_eq. by rewrite Hu.
  - by rewrite lookup_insert_ne.
Qed.

(** Waking the first waiter of [h']. *)
Lemma wake_notified h' a w a' :
  a_wake h' a = Some (w, a') → notified t a → notified t a'.
Proof using.
  unfold a_wake. destruct (a_waiting a h') as [|u ws] eqn:Eh; [by intros [= _ <-]|].
  destruct (a_tasks a !! u) as [cu|] eqn:Eu; [|done]. intros [= _ <-] (Hs&c&Hc&Hr).
  split; simpl.
  - rewrite elem_of_without. tauto.
  - destruct (decide (u = t)) as [->|Hne]; [rewrite lookup_insert_eq|rewrite lookup_insert_ne by done]; eauto.
Qed.

Lemma wake_waits h' a w a' :
  is_wait h' = true → one_wait t a → a_wake h' a = Some (w, a') → waits h t a →
  waits h t a' ∧ w ≠ Some t ∨ h' = h ∧ w = Some t ∧ notified t a'.
Proof using Hh.
  intros Hw' Hone Ew [Hin Hs]. unfold a_wake in Ew.
  destruct (a_waiting a h') as [|u ws] eqn:Eh.
  { injection Ew as <- <-. left. by split. }
  destruct (a_tasks a !! u) as [cu|] eqn:Eu; [|done]. injection Ew as <- <-.
  destruct (decide (u = t)) as [->|Hne].
  - right. split; [apply Hone; [done..|rewrite Eh; left|done]|]. split; [done|].
    split; simpl; [by rewrite elem_of_without; naive_solver|]. rewrite lookup_insert_eq. eauto.
  - left. split; [|congruence]. split; simpl; [|rewrite elem_of_without; tauto].
    destruct (decide (h = h')) as [<-|Hne']; [|by rewrite update_ne].
    rewrite update_eq. rewrite Eh in Hin. by apply elem_of_cons in Hin as [?|?].
Qed.

Lemma a_wake_mutexes h' a w a' : a_wake h' a = Some (w, a') → a_mutexes a' = a_mutexes a.
Proof using.
  unfold a_wake. destruct (a_waiting a h') as [|u ws]; [by intros [= _ <-]|].
  destruct (a_tasks a !! u); [|done]. by intros [= _ <-].
Qed.

(** A wake-up of an object that is not a mutex. *)
Lemma wake_pending h' a w a' :
  is_wait h' = true → (∀ m, h' ≠ NMutex m) → one_wait t a → a_wake h' a = Some (w, a') →
  pending_wait h t a → pending_wait h t a'.
Proof using Hh.
  intros Hw' Hm Hone Ew. pose proof (a_wake_mutexes _ _ _ _ Ew) as Em. intros [Hw|[Hn Hg]].
  - destruct (wake_waits h' a w a' Hw' Hone Ew Hw) as [[? _]|(->&_&Hn)]; [by left|right].
    split; [done|]. intros m E. by destruct (Hm m).
  - right. split; [by eapply wake_notified|]. intros m E. unfold a_owner. rewrite Em. by apply Hg.
Qed.

(** Another task blocks. *)
Lemma block_pending h' u c timeout a :
  u ≠ t → pending_wait h t a → pending_wait h t (a_block h' u c timeout a).
Proof using.
  intros Hne Hp. assert (t ∉ a_sleeping a → t ∉ a_sleeping (a_block h' u c timeout a)) as Hs.
  { unfold a_block; simpl. destruct (timeout =? NIMBLE_WAIT_FOREVER); [done|].
    rewrite elem_of_app, list_elem_of_singleton. naive_solver. }
  destruct Hp as [[Hin ?]|[(?&c'&Hc&Hr) Hg]]; [left|right].
  - split; [|auto]. unfold a_block; simpl. destruct (decide (h = h')) as [<-|Hne'];
      [|by rewrite update_ne]. rewrite update_eq, line_up_perm. by right.
  - split; [|exact Hg]. split; [auto|]. exists c'. split; [|done]. simpl. by rewrite lookup_insert_ne.
Qed.

(** *** Calls of another task *)

Lemma lock_pending u m timeout a o a' :
  u ≠ t → acall u (CLock m timeout) a = Some (o, a') → pending_wait h t a → pending_wait h t a'.
Proof using Hh.
  intros Hne E Hp. unfold acall in E. destruct (a_tasks a !! u) as [c|] eqn:Eu; [|done].
  cbn [mbind option_bind] in E. destruct (a_mutexes a !! m) as [mu|] eqn:Em; [|done].
  cbn [mbind option_bind] in E. destruct (owner mu) as [v|] eqn:Eo.
  - case_decide as Hv; [|destruct (timeout =? NIMBLE_NO_WAIT); [by injection E as _ <-|]].
    + injection E as _ <-. eapply pending_ext, Hp; try done. intros Hg m' ->.
      specialize (Hg m' eq_refl). unfold a_owner in *; simpl.
      destruct (decide (m' = m)) as [->|]; [|by rewrite lookup_insert_ne].
      rewrite Em in Hg. simpl in Hg. congruence.
    + destruct (a_tasks a !! v) as [co|] eqn:Ev; [|done]. injection E as _ <-.
      apply block_pending; [done|]. destruct (priority co <? priority c); [|done].
      eapply pending_ext, Hp; try done. apply result_put. intros <-. by rewrite Ev.
  - injection E as _ <-. eapply pending_ext, Hp; try done. intros Hg m' ->.
    specialize (Hg m' eq_refl). unfold a_owner in *; simpl.
    destruct (decide (m' = m)) as [->|]; [|by rewrite lookup_insert_ne].
    rewrite Em in Hg. simpl in Hg. congruence.
Qed.

(** Unlocking serves the waiter it wakes. *)
Lemma unlock_pending u m a o a' :
  u ≠ t → one_wait t a → acall u (CUnlock m) a = Some (o, a') →
  pending_wait h t a → pending_wait h t a'.
Proof using Hh.
  intros Hne Hone E Hp. unfold acall in E. destruct (a_tasks a !! u) as [c|] eqn:Eu; [|done].
  cbn [mbind option_bind] in E. destruct (a_mutexes a !! m) as [mu|] eqn:Em; [|done].
  cbn [mbind option_bind] in E. cbv zeta in E. case_decide as Ho; [by injection E as _ <-|].
  assert (∀ v, granted h t a → granted h t (with_mutexes (<[m := v]> (a_mutexes a)) a)) as Hg.
  { intros v Hg m' ->. specialize (Hg m' eq_refl). unfold a_owner in *; simpl.
    destruct (decide (m' = m)) as [->|]; [|by rewrite lookup_insert_ne].
    rewrite Em in Hg. simpl in Hg. congruence. }
  destruct (0 <? _); [injection E as _ <-; eapply pending_ext, Hp; [done..|apply Hg]|].
  set (a1 := put_task u _ a) in E. destruct (a_wake (NMutex m) a1) as [[w a2]|] eqn:Ew; [|done].
  injection E as _ <-. pose proof (a_wake_mutexes _ _ _ _ Ew) as Em2.
  assert (pending_wait h t a1) as Hp1.
  { eapply pending_ext, Hp; try done. by apply result_put. }
  destruct Hp1 as [Hw|[Hn Hg1]].
  - destruct (wake_waits (NMutex m) a1 w a2 eq_refl Hone Ew Hw) as [[[? ?] _]|(<-&->&Hn)];
      [left; by split|right]. split; [exact Hn|].
    intros m' [= <-]. unfold a_owner; simpl. by rewrite lookup_insert_eq.
  - right. split; [exact (wake_notified _ _ _ _ Ew Hn)|].
    intros m' Em'. specialize (Hg (match w with Some w => Mutex (Some w) 1 | None => Mutex None
      (u32 (lock_count mu - 1)) end) Hg1 m' Em'). unfold a_owner in *; simpl in *. by rewrite Em2.
Qed.

Lemma acall_pending u cl a o a' :
  u ≠ t → one_wait t a → acall u cl a = Some (o, a') → pending_wait h t a → pending_wait h t a'.
Proof using Hh.
  intros Hne Hone E Hp.
  destruct cl as [m timeout|m|x timeout|x|q item timeout|q timeout|ticks| |v|v];
    [by eapply lock_pending|by eapply unlock_pending|..];
    unfold acall in E; destruct (a_tasks a !! u) as [c|] eqn:Eu; try done; cbn [mbind option_bind] in E.
  - destruct (a_semaphores a !! x) as [sem|]; [|done]. simpl in E.
    destruct (0 <? count sem); [injection E as _ <-; by eapply pending_ext, Hp|].
    destruct (timeout =? NIMBLE_NO_WAIT); injection E as _ <-; [done|by apply block_pending].
  - unfold a_give in E. destruct (a_semaphores a !! x) as [sem|]; [|done]. simpl in E.
    destruct (a_wake (NSem x) a) as [[w a1]|] eqn:Ew; [|done]. simpl in E.
    assert (pending_wait h t a1) as Hp1 by by eapply (wake_pending (NSem x)).
    destruct w; injection E as _ <-; [done|]. by eapply pending_ext, Hp1.
  - destruct (a_queues a !! q) as [qu|]; [|done]. simpl in E. destruct (aq_full qu).
    + destruct (timeout =? NIMBLE_NO_WAIT); injection E as _ <-; [done|by apply block_pending].
    + unfold a_send in E. destruct (a_wake _ _) as [[w a1]|] eqn:Ew; [|done]. injection E as _ <-.
      eapply (wake_pending (NQRecv q) (put_aqueue q _ a)); [done|done|exact Hone|exact Ew|]. by eapply pending_ext, Hp.
  - destruct (a_queues a !! q) as [qu|]; [|done]. simpl in E. destruct (aq_items qu) as [|out its].
    + destruct (timeout =? NIMBLE_NO_WAIT); injection E as _ <-; [done|by apply block_pending].
    + destruct (a_wake _ _) as [[w a1]|] eqn:Ew; [|done]. injection E as _ <-.
      eapply (wake_pending (NQSend q) (put_aqueue q _ a)); [done|done|exact Hone|exact Ew|]. by eapply pending_ext, Hp.
  - destruct (ticks =? 0); injection E as _ <-; [done|]. destruct Hp as [[? ?]|[[? (c0&?&?)] ?]].
    + left. split; [done|]. simpl. rewrite elem_of_app, list_elem_of_singleton. naive_solver.
    + right. split; [|done]. split; simpl; [rewrite elem_of_app, list_elem_of_singleton; naive_solver|].
      exists c0. by rewrite lookup_insert_ne.
  - by injection E as _ <-.
  - destruct (a_tasks a !! v) as [cv|] eqn:Ev; [|done]. simpl in E.
    destruct (state cv); injection E as _ <-; try done; eapply pending_ext, Hp; try done;
      apply result_put; intros <-; by rewrite Ev.
  - destruct (a_tasks a !! v) as [cv|] eqn:Ev; [|done]. simpl in E. injection E as _ <-.
    case_decide; [|done]. eapply pending_ext, Hp; try done. apply result_put. intros <-. by rewrite Ev.
Qed.

(** *** The rest of another task's call *)

Lemma apending_pending u p a r a' :
  apending p u a = Some (r, a') → pending_wait h t a → pending_wait h t a'.
Proof using Hh.
  unfold apending. intros E Hp. destruct (a_tasks a !! u) as [c|]; [|done]. cbn [mbind option_bind] in E.
  destruct p as [|m| |q item|q].
  - by injection E as _ <-.
  - destruct (a_mutexes a !! m); [|done]. by injection E as _ <-.
  - by injection E as _ <-.
  - destruct (a_queues a !! q) as [qu|]; [|done]. simpl in E.
    destruct (_ =? _); [by injection E as _ <-|].
    destruct (aq_full qu); injection E as _ <-; [done|]. by eapply pending_ext, Hp.
  - destruct (a_queues a !! q) as [qu|]; [|done]. simpl in E.
    destruct (_ =? _); [by injection E as _ <-|].
    destruct (aq_items qu); injection E as _ <-; [done|]. by eapply pending_ext, Hp.
Qed.

(** *** Interrupts *)

Lemma tick_pending a : pending_wait h t a → pending_wait h t (a_tick a).
Proof using Hh.
  assert (t ∉ a_sleeping a → t ∉ a_sleeping (a_tick a)) as Hs.
  { intros Hs. simpl. rewrite list_elem_of_filter. tauto. }
  intros [[Hin ?]|[(?&c&Hc&Hr) Hg]]; [left|right].
  - split; [|auto]. simpl. rewrite list_elem_of_filter. split; [|done].
    by rewrite bool_decide_eq_false_2.
  - split; [|exact Hg]. split; [auto|]. exists c. split; [|done]. simpl.
    rewrite map_lookup_imap, Hc. simpl. by rewrite bool_decide_eq_false_2.
Qed.

Lemma pendsv_pending a a' : a_pendsv a = Some a' → pending_wait h t a → pending_wait h t a'.
Proof using Hh.
  unfold a_pendsv. intros E Hp. destruct (a_requeue a) as [a1|] eqn:E1; [|done].
  assert (pending_wait h t a1) as Hp1.
  { unfold a_requeue in E1. destruct (a_current a) as [u|]; [|by injection E1 as <-].
    destruct (a_tasks a !! u) as [c|] eqn:Eu; [|done]. injection E1 as <-. case_decide; [|done].
    eapply pending_ext, Hp; try done. apply result_put. intros <-. by rewrite Eu. }
  cbn [mbind option_bind] in E. destruct (a_top 31 a1) as [p|]; [|done]. simpl in E.
  destruct (a_ready a1 p) as [|u ts]; [done|]. destruct (a_tasks a1 !! u) as [c|] eqn:Eu; [|done].
  injection E as <-. eapply pending_ext, Hp1; try done. apply result_put. intros <-. by rewrite Eu.
Qed.

Lemma give_pending x a r a' :
  one_wait t a → a_give x a = Some (r, a') → pending_wait h t a → pending_wait h t a'.
Proof using Hh.
  unfold a_give. intros Hone E Hp. destruct (a_semaphores a !! x) as [sem|]; [|done]. simpl in E.
  destruct (a_wake (NSem x) a) as [[w a1]|] eqn:Ew; [|done]. simpl in E.
  assert (pending_wait h t a1) as Hp1 by by eapply (wake_pending (NSem x)).
  destruct w; injection E as _ <-; [done|]. by eapply pending_ext, Hp1.
Qed.

Lemma isr_send_pending q item a r a' :
  one_wait t a → a_isr_send q item a = Some (r, a') → pending_wait h t a → pending_wait h t a'.
Proof using Hh.
  unfold a_isr_send. intros Hone E Hp. destruct (a_queues a !! q) as [qu|]; [|done]. simpl in E.
  destruct (aq_full qu); [by injection E as _ <-|].
  unfold a_send in E. destruct (a_wake _ _) as [[w a1]|] eqn:Ew; [|done]. injection E as _ <-.
  eapply (wake_pending (NQRecv q) (put_aqueue q _ a)); [done|done|exact Hone|exact Ew|]. by eapply pending_ext, Hp.
Qed.
End keep.

(** ** The machine *)

(** The object that a call waits for, without a timeout. *)
Definition waits_forever (cl : call) : option nid :=
  match cl with
  | CLock m timeout => if timeout =? NIMBLE_WAIT_FOREVER then Some (NMutex m) else None
  | CTake x timeout => if timeout =? NIMBLE_WAIT_FOREVER then Some (NSem x) else None
  | CSend q _ timeout => if timeout =? NIMBLE_WAIT_FOREVER then Some (NQSend q) else None
  | CReceive q timeout => if timeout =? NIMBLE_WAIT_FOREVER then Some (NQRecv q) else None
  | _ => None
  end.

Lemma waits_forever_wait cl h : waits_forever cl = Some h → is_wait h = true.
Proof. destruct cl; simpl; try done; case_match; try done; by intros [= <-]. Qed.

Definition in_call (p : pending) (ph : phase) : Prop := ph = Requesting p ∨ ph = Resuming p.

Section mode.
Context {M : Mode}.

Record call_waits (t : nat) (h : nid) (p : pending) σ : Prop := {
  cw_phase : in_call p (phase_of σ t);
  cw_wait : ∃ α, simulates σ α ∧ pending_wait h t (ak α);
}.

Lemma sim_one_wait σ α t : simulates σ α → one_wait t (ak α).
Proof. intros [Hr _]. by eapply refines_one_wait. Qed.

Lemma block_waits h t c a :
  t ∉ a_sleeping a → waits h t (a_block h t c NIMBLE_WAIT_FOREVER a).
Proof.
  intros Hs. split; [|done]. simpl. rewrite update_eq, line_up_perm. by left.
Qed.

(** The object that the rest of a call needs. *)
Definition waits_on (p : pending) h : Prop :=
  match p with PDone => False | PLock m => h = NMutex m | _ => True end.

(** The call itself. *)
Lemma acall_waits t cl h p a a' :
  t ∉ a_sleeping a → waits_forever cl = Some h → acall t cl a = Some (Blocked p, a') →
  waits h t a' ∧ waits_on p h.
Proof.
  intros Hs Hf E. unfold acall in E. destruct (a_tasks a !! t) as [c|]; [|done]. cbn [mbind option_bind] in E.
  destruct cl as [m timeout|m|x timeout|x|q item timeout|q timeout|ticks| |v|v]; try done;
    unfold waits_forever in Hf; destruct (Z.eqb_spec timeout NIMBLE_WAIT_FOREVER) as [->|]; try done;
    injection Hf as <-; replace (NIMBLE_WAIT_FOREVER =? NIMBLE_NO_WAIT) with false in E by done.
  - destruct (a_mutexes a !! m) as [mu|]; [|done]. simpl in E. destruct (owner mu) as [v|]; [|done].
    case_decide; [done|]. destruct (a_tasks a !! v) as [co|]; [|done]. injection E as <- <-.
    split; [|done]. apply block_waits. by destruct (priority co <? priority c).
  - destruct (a_semaphores a !! x) as [sem|]; [|done]. simpl in E.
    destruct (0 <? count sem); [done|]. injection E as <- <-. split; [by apply block_waits|done].
  - destruct (a_queues a !! q) as [qu|]; [|done]. simpl in E.
    destruct (aq_full qu); [injection E as <- <-; split; [by apply block_waits|done]|].
    by destruct (a_send q item qu a) as [[[? ?] ?]|].
  - destruct (a_queues a !! q) as [qu|]; [|done]. simpl in E.
    destruct (aq_items qu); [injection E as <- <-; split; [by apply block_waits|done]|].
    by destruct (a_wake _ _) as [[? ?]|].
Qed.

(** A running task is on no list. *)
Lemma running_free σ α t c h :
  simulates σ α → tcbs (ks σ) !! t = Some c → state c = NIMBLE_TASK_RUNNING →
  (t ∉ a_sleeping (ak α)) ∧ (is_wait h = true → t ∉ a_waiting (ak α) h).
Proof.
  intros [(X&L&HI&Ha) _] Hc Hs. pose proof (ki_sched _ _ (ki_core _ _ HI)) as HS.
  pose proof (si_task _ _ _ HS t c Hc ltac:(done)) as Ht. split.
  - intros Hin. assert (on L NDelayed (NLink t)) as Hon.
    { apply elem_of_get_list. rewrite (ab_sleeping _ _ _ Ha). by apply list_elem_of_fmap_2. }
    apply (ti_delayed _ _ _ _ Ht) in Hon. congruence.
  - intros Hw Hin. eapply ab_on_wait in Hin; [|done..]. apply (ti_wait _ _ _ _ Ht) in Hin; [congruence|done].
Qed.

Lemma call_blocks σ σ1 t cl h p :
  sys_inv σ → nimble_current_tcb (ks σ) = Some t → waits_forever cl = Some h →
  step σ (ECall cl) σ1 → phase_of σ1 t = Requesting p → p ≠ PDone →
  call_waits t h p σ1 ∧ waits_on p h.
Proof.
  intros Hσ Hcur Hf Hs Hph Hp. destruct (sv_kernel _ Hσ) as (X&L&HI).
  pose proof (simulates_some _ _ _ (simulates_abstraction (X := X) σ L HI)) as Hα. set (α := ASys _ _) in Hα.
  destruct (step_refines σ α _ σ1 Hσ Hα Hs) as (α1&E&Hα1&_).
  enough (waits h t (ak α1) ∧ waits_on p h) as [? Hon].
  { split; [|done]. split; [by left|]. exists α1. split; [done|]. by left. }
  inversion Hs as [? ? ? He _]; subst. destruct He as (u&Hcur'&Hid&Hpend&Hph0&_). assert (u = t) as -> by congruence.
  destruct (running_caller σ t Hσ Hcur Hpend) as [c Hc]; [congruence|done|].
  destruct (running_free σ α t c NDelayed Hα) as [Hfree _]; [apply Hc|apply Hc|].
  unfold aexec in E. rewrite (sim_current _ _ Hα), Hcur in E. cbn [mbind option_bind] in E.
  destruct (acall t cl (ak α)) as [[o a']|] eqn:Ea; [|done]. injection E as <-.
  destruct Hα1 as [_ Eph1]. unfold phase_of in Hph, Hph0. rewrite <- Eph1 in Hph.
  destruct o as [r out [|]|p']; simpl in Hph |- *.
  - rewrite lookup_insert_eq in Hph. simpl in Hph. congruence.
  - congruence.
  - rewrite lookup_insert_eq in Hph. injection Hph as ->. by eapply acall_waits.
Qed.

(** Which events change the phase of [t]. *)
Lemma exec_phase e σ σ' t p :
  exec e σ = Some σ' → enabled e σ → in_call p (phase_of σ t) →
  (e = EResume → nimble_current_tcb (ks σ) ≠ Some t) →
  in_call p (phase_of σ' t) ∧
  (∀ cl, e = ECall cl → nimble_current_tcb (ks σ) ≠ Some t).
Proof.
  intros E He Hin Hres. destruct e as [cl|o| | | | |x|q item]; unfold exec in E.
  - destruct He as (u&Hcur&_&_&Hph&_). assert (u ≠ t) as Hne.
    { intros ->. rewrite Hph in Hin. by destruct Hin. }
    rewrite Hcur in E. cbn [mbind option_bind] in E. unfold run in E.
    destruct (run_call cl (ks σ)) as [[o s']|]; [|done]. cbn in E. split; [|intros ? _; congruence].
    destruct o as [? ? []|]; injection E as <-; rewrite ?phase_of_set, ?decide_False by done; exact Hin.
  - unfold run in E. destruct (init_object o (ks σ)) as [[? ?]|]; [|done]. injection E as <-. done.
  - destruct He as (u&p'&Hcur&_&Hph). rewrite Hcur in E. cbn [mbind option_bind] in E.
    rewrite Hph in E. injection E as <-. split; [|done]. rewrite phase_of_set. case_decide as Hu; [|exact Hin].
    subst. right. rewrite Hph in Hin. destruct Hin; congruence.
  - destruct He as (u&p'&Hcur&_&Hph). rewrite Hcur in E. cbn [mbind option_bind] in E. rewrite Hph in E.
    unfold run in E. destruct (run_pending p' u (ks σ)) as [[? ?]|]; [|done]. injection E as <-.
    split; [|done]. rewrite phase_of_set, decide_False; [exact Hin|]. specialize (Hres eq_refl). congruence.
  - unfold run in E. destruct (SysTick_Handler (ks σ)) as [[? ?]|]; [|done]. by injection E as <-.
  - unfold run in E. destruct (PendSV_Handler (ks σ)) as [[? ?]|]; [|done]. by injection E as <-.
  - unfold run in E. destruct (isr _ (ks σ)) as [[? ?]|]; [|done]. by injection E as <-.
  - unfold run in E. destruct (isr _ (ks σ)) as [[? ?]|]; [|done]. by injection E as <-.
Qed.

(** A new object is no one's. *)
Lemma init_pending h t o s a :
  refines s a → object_fresh o s → pending_wait h t a → pending_wait h t (a_init o a).
Proof.
  intros (X&L&_&Ha) Ho. destruct o as [m|x i n|q b size cap]; try by apply pending_ext.
  apply pending_ext; try done. intros Hg m' ->. specialize (Hg m' eq_refl). unfold a_owner in *; simpl.
  destruct (decide (m' = m)) as [->|]; [|by rewrite lookup_insert_ne].
  destruct Ho as [Hm _]. rewrite (ab_mutexes _ _ _ Ha), Hm in Hg. done.
Qed.

Lemma aexec_pending h t e σ α α' :
  is_wait h = true → simulates σ α → enabled e σ → aexec e α = Some α' →
  (∀ cl, e = ECall cl → nimble_current_tcb (ks σ) ≠ Some t) →
  pending_wait h t (ak α) → pending_wait h t (ak α').
Proof.
  intros Hh Hα He E Hcall Hp. pose proof (sim_one_wait _ _ t Hα) as Hone.
  pose proof (sim_current _ _ Hα) as Hcur.
  destruct e as [cl|o| | | | |x|q item]; simpl in E.
  - destruct (a_current (ak α)) as [u|]; [|done]. simpl in E.
    destruct (acall u cl (ak α)) as [[o a']|] eqn:Ea; [|done]. injection E as <-. simpl.
    eapply (acall_pending t h Hh u); [|done..]. intros ->. by eapply Hcall.
  - injection E as <-. destruct He as (_&_&_&_&Ho). simpl. eapply init_pending; [apply Hα|done..].
  - destruct (a_current (ak α)) as [u|]; [|done]. simpl in E. by destruct (a_phase α u); [|injection E as <-|].
  - destruct (a_current (ak α)) as [u|]; [|done]. simpl in E. destruct (a_phase α u) as [| |p]; try done.
    destruct (apending p u (ak α)) as [[r a']|] eqn:Ea; [|done]. injection E as <-.
    by eapply (apending_pending t h Hh).
  - injection E as <-. by apply (tick_pending t h Hh).
  - destruct (a_pendsv (ak α)) as [a'|] eqn:Ea; [|done]. injection E as <-. by eapply (pendsv_pending t h Hh).
  - destruct (a_give x (ak α)) as [[r a']|] eqn:Ea; [|done]. injection E as <-. simpl.
    assert (pending_wait h t a') as Hp' by by eapply (give_pending t h Hh). by destruct r.2.
  - destruct (a_isr_send q item (ak α)) as [[r a']|] eqn:Ea; [|done]. injection E as <-. simpl.
    assert (pending_wait h t a') as Hp' by by eapply (isr_send_pending t h Hh). by destruct r.2.
Qed.

(** An event in which [t] does not return from its call. *)
Lemma step_waits t h p σ e σ' :
  is_wait h = true → sys_inv σ → call_waits t h p σ → step σ e σ' →
  (e = EResume → nimble_current_tcb (ks σ) ≠ Some t) → call_waits t h p σ'.
Proof.
  intros Hh Hσ [Hph (α&Hα&Hp)] Hs Hres. destruct (step_refines σ α e σ' Hσ Hα Hs) as (α'&E&Hα'&_).
  inversion Hs as [? ? ? He Ee]; subst.
  destruct (exec_phase e σ σ' t p Ee He Hph Hres) as [Hph' Hcall].
  split; [done|]. exists α'. split; [done|]. by apply (aexec_pending h t e σ α α').
Qed.

Lemma trace_waits t h p σ es σ' :
  is_wait h = true → sys_inv σ → call_waits t h p σ → trace σ es σ' →
  (∀ σ1, (σ1, EResume) ∈ es → nimble_current_tcb (ks σ1) ≠ Some t) → call_waits t h p σ'.
Proof.
  intros Hh Hσ Hw Ht. induction Ht as [|σ e σ1 es σ' Hs Ht IH]; intros Hres; [done|].
  apply IH.
  - by eapply step_inv.
  - eapply step_waits; [done..|]. intros ->. apply Hres. left.
  - intros σ2 Hin. apply Hres. by right.
Qed.

(** ** The return *)

(** What a call that has waited for ever returns: never a timeout.  A lock
    owns the mutex and a take has its unit; a send or a receive can find that
    another task was faster. *)
Definition served (p : pending) (t : nat) σ (r : Z) (out : option (list Z)) : Prop :=
  match p with
  | PDone => False
  | PLock m => r = NIMBLE_OK ∧ owner_at σ m = Some t
  | PTake => r = NIMBLE_OK
  | PSend _ _ => r = NIMBLE_OK ∨ r = NIMBLE_ERR_FULL
  | PReceive _ => r = NIMBLE_OK ∧ is_Some out ∨ r = NIMBLE_ERR_EMPTY ∧ out = None
  end.

Lemma call_returns σ t h p :
  is_wait h = true → waits_on p h → sys_inv σ → call_waits t h p σ →
  nimble_current_tcb (ks σ) = Some t → enabled EResume σ →
  ∃ r out, reply_of EResume σ = Some (RResume p (r, out)) ∧ served p t σ r out.
Proof.
  intros Hh Hon Hσ [Hph (α&Hα&Hp)] Hcur He.
  assert (∃ σ', step σ EResume σ') as [σ' Hs].
  { destruct (progress_or_stuck σ EResume Hσ He) as [[(σ'&E&_) _]|[? _]]; [|done].
    exists σ'. by apply step_exec. }
  destruct (step_refines σ α EResume σ' Hσ Hα Hs) as (_&_&_&Er). rewrite <- Er.
  destruct He as (u&p'&Hcur'&Hpend&Hph'). assert (u = t) as -> by congruence.
  assert (p' = p) as -> by (rewrite Hph' in Hph; by destruct Hph; simplify_eq).
  pose proof (sv_phases _ Hσ t) as Ht. rewrite Hph' in Ht. destruct Ht as [Hid Hobj].
  destruct (running_caller σ t Hσ Hcur Hpend) as [c [? Hc Hrun ?]]; [congruence|done|].
  assert (notified t (ak α) ∧ granted h t (ak α)) as [[_ (c'&Hc'&Hok)] Hg].
  { destruct Hp as [[Hin _]|?]; [|done]. by destruct (running_free σ α t c h Hα Hc Hrun) as [_ Hn]; apply Hn in Hin. }
  assert (owner_at σ = λ m, a_owner m (ak α)) as Eown.
  { destruct Hα as [(X&L&_&Ha) _]. unfold owner_at, a_owner. by rewrite (ab_mutexes _ _ _ Ha). }
  unfold a_reply_of. rewrite (sim_current _ _ Hα), Hcur. cbn [mbind option_bind].
  rewrite (sim_phase _ _ _ Hα), Hph'. unfold apending. rewrite Hc'. cbn [mbind option_bind].
  unfold served. rewrite Eown. destruct p as [|m| |q item|q]; simpl in Hobj, Hon; [done|..].
  - subst h. specialize (Hg m eq_refl). unfold a_owner in Hg |- *.
    destruct (a_mutexes (ak α) !! m) as [mu|]; [|done]. simpl in Hg |- *. rewrite Hg, decide_True by done.
    by repeat eexists.
  - simpl. rewrite Hok. by repeat eexists.
  - destruct Hobj as (qu&Hq&_). rewrite (sim_queues _ _ q Hα), Hq. simpl. rewrite Hok. simpl.
    destruct (aq_full _); repeat eexists; eauto.
  - destruct Hobj as [qu Hq]. rewrite (sim_queues _ _ q Hα), Hq. simpl. rewrite Hok. simpl.
    destruct (items qu); repeat eexists; eauto.
Qed.

End mode.
