(* ===== verification/AbstractFrame.v ===== *)
(** * What an event of the abstract machine leaves alone

    Tasks and objects are never lost ([extends]), and no event but a lock or
    an unlock changes a mutex or lets a task wait for one ([spares]). *)
From S2P Require Import Prelude DList Kernel System Abstract Ring TaskSpec Refinement Simulation.
From S2P Require Import SchedInv KernelInv Waiting.
From stdpp Require Import options.

Implicit Types (h : nid) (t u : nat) (c : nimble_tcb) (a : akernel) (α : asys) (e : event).

Record extends a a' : Prop := {
  ex_tasks t : is_Some (a_tasks a' !! t) ↔ is_Some (a_tasks a !! t);
  ex_semaphores x : is_Some (a_semaphores a !! x) → is_Some (a_semaphores a' !! x);
  ex_mutexes m : is_Some (a_mutexes a !! m) → is_Some (a_mutexes a' !! m);
  ex_queues q : is_Some (a_queues a' !! q) → is_Some (a_queues a !! q);
}.

#[export] Instance extends_preorder : PreOrder extends.
Proof.
  split; [by intros a|]. intros a1 a2 a3 [T1 S1 M1 Q1] [T2 S2 M2 Q2]. split; [|auto..].
  intros t. by rewrite T2.
Qed.

Lemma extends_put t c c' a a' :
  a_tasks a !! t = Some c → a_tasks a' = <[t := c']> (a_tasks a) →
  a_semaphores a' = a_semaphores a → a_mutexes a' = a_mutexes a → a_queues a' = a_queues a →
  extends a a'.
Proof.
  intros Hc ET ES EM EQ. split; rewrite ?ET, ?ES, ?EM, ?EQ; try done. intros u. rewrite lookup_insert_is_Some'.
  split; [by intros [<-|?]; eauto|by right].
Qed.

(** The other components do not matter. *)
Lemma extends_same a a' :
  a_tasks a' = a_tasks a → a_semaphores a' = a_semaphores a → a_mutexes a' = a_mutexes a →
  a_queues a' = a_queues a → extends a a'.
Proof. intros ET ES EM EQ. by split; rewrite ?ET, ?ES, ?EM, ?EQ. Qed.

Lemma extends_queue q qu v a : a_queues a !! q = Some qu → extends a (put_aqueue q v a).
Proof.
  intros Hq. split; try done. intros q'. simpl. rewrite lookup_insert_is_Some'.
  intros [<-|?]; eauto.
Qed.

Lemma extends_mutex m v a : extends a (with_mutexes (<[m := v]> (a_mutexes a)) a).
Proof. split; try done. intros m'. simpl. rewrite lookup_insert_is_Some'. by right. Qed.
Lemma extends_semaphore x v a : extends a (with_semaphores (<[x := v]> (a_semaphores a)) a).
Proof. split; try done. intros y. simpl. rewrite lookup_insert_is_Some'. by right. Qed.

Lemma wake_extends h (ow : option tid) a a' : a_wake h a = Some (ow, a') → extends a a'.
Proof.
  unfold a_wake. destruct (a_waiting a h) as [|u ws]; [by intros [= _ <-]|].
  destruct (a_tasks a !! u) as [c|] eqn:Eu; [|done]. intros [= _ <-].
  by eapply (extends_put u c).
Qed.

Lemma queue_wake_extends q qu0 qu h (ow : option tid) a a' :
  a_queues a !! q = Some qu0 → a_wake h (put_aqueue q qu a) = Some (ow, a') → extends a a'.
Proof. intros Hq E%wake_extends. trans (put_aqueue q qu a); [by eapply extends_queue|done]. Qed.

Lemma give_extends x r a a' : a_give x a = Some (r, a') → extends a a'.
Proof.
  unfold a_give. destruct (a_semaphores a !! x); [|done]. simpl.
  destruct (a_wake _ a) as [[w a1]|] eqn:Ew; [|done]. apply wake_extends in Ew. simpl.
  destruct w; intros [= _ <-]; [done|]. trans a1; [done|apply extends_semaphore].
Qed.

Lemma send_extends q item qu r a a' :
  a_queues a !! q = Some qu → a_send q item qu a = Some (r, a') → extends a a'.
Proof.
  intros Hq. unfold a_send. destruct (a_wake _ _) as [[w a1]|] eqn:Ew; [|done]. intros [= _ <-].
  by eapply queue_wake_extends.
Qed.

Lemma acall_extends t cl (o : outcome) a a' : acall t cl a = Some (o, a') → extends a a'.
Proof.
  unfold acall. destruct (a_tasks a !! t) as [c|] eqn:Ec; [|done]. cbn [mbind option_bind].
  assert (∀ h timeout, extends a (a_block h t c timeout a)) as Hb by (intros; by eapply (extends_put t c)).
  destruct cl as [m timeout|m|x timeout|x|q item timeout|q timeout|ticks| |v|v].
  - destruct (a_mutexes a !! m) as [mu|]; [|done]. cbn [mbind option_bind]. destruct (owner mu) as [v|].
    + case_decide; [intros [= _ <-]; apply extends_mutex|].
      destruct (timeout =? NIMBLE_NO_WAIT); [by intros [= _ <-]|].
      destruct (a_tasks a !! v) as [co|] eqn:Ev; [|done]. intros [= _ <-].
      destruct (priority co <? priority c); [|done].
      trans (put_task v (set_priority (priority c) co) a); [by eapply (extends_put v co)|].
      destruct (decide (v = t)) as [->|Hne]; [eapply (extends_put t _); [apply lookup_insert_eq|done..]|].
      eapply (extends_put t c); [simpl; by rewrite lookup_insert_ne|done..].
    + intros [= _ <-]. apply extends_mutex.
  - destruct (a_mutexes a !! m) as [mu|]; [|done]. cbn [mbind option_bind]. cbv zeta.
    case_decide; [by intros [= _ <-]|]. destruct (0 <? _); [intros [= _ <-]; apply extends_mutex|].
    destruct (a_wake _ _) as [[w a1]|] eqn:Ew; [|done]. intros [= _ <-]. apply wake_extends in Ew.
    trans a1; [|apply extends_mutex]. etrans; [|exact Ew]. by eapply (extends_put t c).
  - destruct (a_semaphores a !! x) as [sem|]; [|done]. simpl.
    destruct (0 <? count sem); [intros [= _ <-]; apply extends_semaphore|].
    destruct (timeout =? NIMBLE_NO_WAIT); by intros [= _ <-].
  - destruct (a_give x a) as [[r a1]|] eqn:Eg; [|done]. intros [= _ <-]. by eapply give_extends.
  - destruct (a_queues a !! q) as [qu|] eqn:Eq; [|done]. simpl. destruct (aq_full qu).
    + destruct (timeout =? NIMBLE_NO_WAIT); by intros [= _ <-].
    + destruct (a_send q item qu a) as [[r a1]|] eqn:Es; [|done]. intros [= _ <-]. by eapply send_extends.
  - destruct (a_queues a !! q) as [qu|] eqn:Eq; [|done]. simpl. destruct (aq_items qu).
    + destruct (timeout =? NIMBLE_NO_WAIT); by intros [= _ <-].
    + destruct (a_wake _ _) as [[w a1]|] eqn:Ew; [|done]. intros [= _ <-]. by eapply queue_wake_extends.
  - destruct (ticks =? 0); intros [= _ <-]; [done|]. by eapply (extends_put t c).
  - by intros [= _ <-].
  - destruct (a_tasks a !! v) as [cv|] eqn:Ev; [|done]. simpl.
    destruct (state cv); intros [= _ <-]; try done; by eapply (extends_put v cv).
  - destruct (a_tasks a !! v) as [cv|] eqn:Ev; [|done]. intros [= _ <-].
    case_decide; [|done]. by eapply (extends_put v cv).
Qed.

Lemma apending_extends p t r a a' : apending p t a = Some (r, a') → extends a a'.
Proof.
  unfold apending. destruct (a_tasks a !! t) as [c|]; [|done]. cbn [mbind option_bind].
  destruct p as [|m| |q item|q].
  - by intros [= _ <-].
  - destruct (a_mutexes a !! m); [|done]. by intros [= _ <-].
  - by intros [= _ <-].
  - destruct (a_queues a !! q) as [qu|] eqn:Eq; [|done]. simpl.
    destruct (_ =? _); [by intros [= _ <-]|].
    destruct (aq_full qu); intros [= _ <-]; [done|by eapply extends_queue].
  - destruct (a_queues a !! q) as [qu|] eqn:Eq; [|done]. simpl.
    destruct (_ =? _); [by intros [= _ <-]|].
    destruct (aq_items qu); intros [= _ <-]; [done|by eapply extends_queue].
Qed.

Lemma pendsv_extends a a' : a_pendsv a = Some a' → extends a a'.
Proof.
  unfold a_pendsv. destruct (a_requeue a) as [a1|] eqn:E1; [|done]. cbn [mbind option_bind].
  assert (extends a a1) as H1.
  { unfold a_requeue in E1. destruct (a_current a) as [u|]; [|by injection E1 as <-].
    destruct (a_tasks a !! u) as [c|] eqn:Eu; [|done]. injection E1 as <-.
    case_decide; [|done]. by eapply (extends_put u c). }
  destruct (a_top 31 a1) as [p|]; [|done]. simpl. destruct (a_ready a1 p) as [|u ts]; [done|].
  destruct (a_tasks a1 !! u) as [c|] eqn:Eu; [|done]. intros [= <-].
  etrans; [exact H1|]. by eapply (extends_put u c).
Qed.

Lemma aexec_extends e α α' :
  (∀ o, e ≠ EInit o) → aexec e α = Some α' → extends (ak α) (ak α').
Proof.
  intros Hi. destruct e as [cl|o| | | | |x|q item]; simpl.
  - destruct (a_current (ak α)) as [t|]; [|done]. simpl.
    destruct (acall t cl (ak α)) as [[o a']|] eqn:E; [|done]. intros [= <-]. by eapply acall_extends.
  - by destruct (Hi o).
  - destruct (a_current (ak α)) as [t|]; [|done]. simpl. destruct (a_phase α t); try done.
    intros [= <-]. by apply extends_same.
  - destruct (a_current (ak α)) as [t|]; [|done]. simpl. destruct (a_phase α t) as [| |p]; try done.
    destruct (apending p t (ak α)) as [[r a']|] eqn:E; [|done]. intros [= <-]. by eapply apending_extends.
  - intros [= <-]. split; simpl; try done. intros t. rewrite map_lookup_imap.
    destruct (a_tasks (ak α) !! t); [|done]. by split; eauto.
  - destruct (a_pendsv (ak α)) as [a'|] eqn:E; [|done]. intros [= <-]. by apply pendsv_extends.
  - destruct (a_give x (ak α)) as [[r a']|] eqn:E; [|done]. intros [= <-]. apply give_extends in E.
    etrans; [exact E|]. by destruct r.2; apply extends_same.
  - destruct (a_isr_send q item (ak α)) as [[r a']|] eqn:E; [|done]. intros [= <-].
    assert (extends (ak α) a') as H1.
    { unfold a_isr_send in E. destruct (a_queues (ak α) !! q) as [qu|] eqn:Eq; [|done]. simpl in E.
      destruct (aq_full qu); [by injection E as _ <-|]. by eapply send_extends. }
    etrans; [exact H1|]. by destruct r.2; apply extends_same.
Qed.

(** ** Mutexes *)

Section spares.
Context (m : nat).

Record spares a a' : Prop := {
  sp_mutexes : a_mutexes a' !! m = a_mutexes a !! m;
  sp_waiting t : t ∈ a_waiting a' (NMutex m) → t ∈ a_waiting a (NMutex m);
}.

#[export] Instance spares_preorder : PreOrder spares.
Proof. split; [by intros a|]. intros a1 a2 a3 [M1 W1] [M2 W2]. split; [congruence|auto]. Qed.

Lemma spares_same a a' :
  a_mutexes a' = a_mutexes a → a_waiting a' = a_waiting a → spares a a'.
Proof using. intros EM EW. split; by rewrite ?EM, ?EW. Qed.

(** The queue of another object changes. *)
Lemma spares_update h ws a a' :
  h ≠ NMutex m → a_mutexes a' = a_mutexes a → a_waiting a' = update h ws (a_waiting a) → spares a a'.
Proof using. intros Hne EM EW. split; [by rewrite EM|]. rewrite EW, update_ne; done. Qed.

Lemma wake_spares h (ow : option tid) a a' :
  h ≠ NMutex m → a_wake h a = Some (ow, a') → spares a a'.
Proof using.
  intros Hne. unfold a_wake. destruct (a_waiting a h) as [|u ws]; [by intros [= _ <-]|].
  destruct (a_tasks a !! u) as [c|]; [|done]. intros [= _ <-]. by apply (spares_update h ws).
Qed.

Lemma queue_wake_spares q qu h (ow : option tid) a a' :
  h ≠ NMutex m → a_wake h (put_aqueue q qu a) = Some (ow, a') → spares a a'.
Proof using. intros Hne E%wake_spares; [|done]. trans (put_aqueue q qu a); [by apply spares_same|done]. Qed.

Lemma give_spares x r a a' : a_give x a = Some (r, a') → spares a a'.
Proof using.
  unfold a_give. destruct (a_semaphores a !! x); [|done]. simpl.
  destruct (a_wake _ a) as [[w a1]|] eqn:Ew; [|done]. apply wake_spares in Ew; [|done]. simpl.
  destruct w; intros [= _ <-]; [done|]. etrans; [exact Ew|]. by apply spares_same.
Qed.

Lemma send_spares q item qu r a a' : a_send q item qu a = Some (r, a') → spares a a'.
Proof using.
  unfold a_send. destruct (a_wake _ _) as [[w a1]|] eqn:Ew; [|done]. intros [= _ <-].
  by eapply (queue_wake_spares _ _ (NQRecv q)).
Qed.

Definition locks (cl : call) : bool :=
  match cl with CLock _ _ | CUnlock _ => true | _ => false end.

Lemma acall_spares t cl (o : outcome) a a' :
  locks cl = false → acall t cl a = Some (o, a') → spares a a'.
Proof using.
  intros Hl. unfold acall. destruct (a_tasks a !! t) as [c|]; [|done]. cbn [mbind option_bind].
  assert (∀ h timeout, h ≠ NMutex m → spares a (a_block h t c timeout a)) as Hb
    by (intros; by eapply (spares_update h)).
  destruct cl as [m' timeout|m'|x timeout|x|q item timeout|q timeout|ticks| |v|v]; try done.
  - destruct (a_semaphores a !! x) as [sem|]; [|done]. simpl.
    destruct (0 <? count sem); [by intros [= _ <-]|].
    destruct (timeout =? NIMBLE_NO_WAIT); intros [= _ <-]; [done|by apply Hb].
  - destruct (a_give x a) as [[r a1]|] eqn:Eg; [|done]. intros [= _ <-]. by eapply give_spares.
  - destruct (a_queues a !! q) as [qu|]; [|done]. simpl. destruct (aq_full qu).
    + destruct (timeout =? NIMBLE_NO_WAIT); intros [= _ <-]; [done|by apply Hb].
    + destruct (a_send q item qu a) as [[r a1]|] eqn:Es; [|done]. intros [= _ <-]. by eapply send_spares.
  - destruct (a_queues a !! q) as [qu|]; [|done]. simpl. destruct (aq_items qu).
    + destruct (timeout =? NIMBLE_NO_WAIT); intros [= _ <-]; [done|by apply Hb].
    + destruct (a_wake _ _) as [[w a1]|] eqn:Ew; [|done]. intros [= _ <-]. by eapply (queue_wake_spares _ _ (NQSend q)).
  - destruct (ticks =? 0); by intros [= _ <-].
  - by intros [= _ <-].
  - destruct (a_tasks a !! v) as [cv|]; [|done]. simpl. by destruct (state cv); intros [= _ <-].
  - destruct (a_tasks a !! v) as [cv|]; [|done]. intros [= _ <-]. by case_decide.
Qed.

Lemma apending_spares p t r a a' : apending p t a = Some (r, a') → spares a a'.
Proof using.
  unfold apending. destruct (a_tasks a !! t) as [c|]; [|done]. cbn [mbind option_bind].
  destruct p as [|m'| |q item|q].
  - by intros [= _ <-].
  - destruct (a_mutexes a !! m'); [|done]. by intros [= _ <-].
  - by intros [= _ <-].
  - destruct (a_queues a !! q) as [qu|]; [|done]. simpl.
    destruct (_ =? _); [by intros [= _ <-]|]. by destruct (aq_full qu); intros [= _ <-].
  - destruct (a_queues a !! q) as [qu|]; [|done]. simpl.
    destruct (_ =? _); [by intros [= _ <-]|]. by destruct (aq_items qu); intros [= _ <-].
Qed.

Lemma pendsv_spares a a' : a_pendsv a = Some a' → spares a a'.
Proof using.
  unfold a_pendsv. destruct (a_requeue a) as [a1|] eqn:E1; [|done]. cbn [mbind option_bind].
  assert (a_mutexes a1 = a_mutexes a ∧ a_waiting a1 = a_waiting a) as [EM EW].
  { unfold a_requeue in E1. destruct (a_current a) as [u|]; [|by injection E1 as <-].
    destruct (a_tasks a !! u) as [c|]; [|done]. injection E1 as <-. by case_decide. }
  destruct (a_top 31 a1) as [p|]; [|done]. simpl. destruct (a_ready a1 p) as [|u ts]; [done|].
  destruct (a_tasks a1 !! u) as [c|]; [|done]. intros [= <-]. by apply spares_same.
Qed.

(** Every event but a lock, an unlock and the making of [m] itself. *)
Lemma aexec_spares e α α' :
  (∀ cl, e = ECall cl → locks cl = false) → e ≠ EInit (OMutex m) →
  aexec e α = Some α' → spares (ak α) (ak α').
Proof using.
  intros Hl Hi. destruct e as [cl|o| | | | |x|q item]; simpl.
  - destruct (a_current (ak α)) as [t|]; [|done]. simpl.
    destruct (acall t cl (ak α)) as [[o a']|] eqn:E; [|done]. intros [= <-]. eapply acall_spares, E. by apply Hl.
  - intros [= <-]. destruct o as [m'| |]; [|by apply spares_same..].
    split; [|done]. simpl. rewrite lookup_insert_ne; [done|]. by intros ->.
  - destruct (a_current (ak α)) as [t|]; [|done]. simpl. destruct (a_phase α t); try done.
    intros [= <-]. by apply spares_same.
  - destruct (a_current (ak α)) as [t|]; [|done]. simpl. destruct (a_phase α t) as [| |p]; try done.
    destruct (apending p t (ak α)) as [[r a']|] eqn:E; [|done]. intros [= <-]. by eapply apending_spares.
  - intros [= <-]. split; [done|]. intros t. simpl. rewrite list_elem_of_filter. by intros [_ ?].
  - destruct (a_pendsv (ak α)) as [a'|] eqn:E; [|done]. intros [= <-]. by apply pendsv_spares.
  - destruct (a_give x (ak α)) as [[r a']|] eqn:E; [|done]. intros [= <-]. apply give_spares in E.
    etrans; [exact E|]. by destruct r.2; apply spares_same.
  - destruct (a_isr_send q item (ak α)) as [[r a']|] eqn:E; [|done]. intros [= <-].
    assert (spares (ak α) a') as H1.
    { unfold a_isr_send in E. destruct (a_queues (ak α) !! q) as [qu|]; [|done]. simpl in E.
      destruct (aq_full qu); [by injection E as _ <-|]. by eapply send_spares. }
    etrans; [exact H1|]. by destruct r.2; apply spares_same.
Qed.
End spares.

(** On the machine itself. *)
Lemma exec_semaphores {M : Mode} (σ : sys) e σ' x :
  sys_inv σ → step σ e σ' → is_Some (semaphores (ks σ) !! x) → is_Some (semaphores (ks σ') !! x).
Proof.
  intros Hσ Hs Hx. pose proof Hσ as [(X&L&HI) _ _].
  destruct (step_refines σ _ e σ' Hσ (simulates_some _ _ _ (simulates_abstraction (X := X) σ L HI)) Hs)
    as (α'&E&[(Y&L'&_&Ha) _]&_).
  rewrite <- (ab_semaphores _ _ _ Ha).
  destruct e as [c|o| | | | |y|q item]; try (by eapply ex_semaphores; [eapply aexec_extends, E|]).
  simpl in E. injection E as <-. destruct o as [m|y i n|q b size cap]; simpl; try done.
  apply lookup_insert_is_Some'. by right.
Qed.
