(* ===== verification/TimerMachine.v ===== *)
(** * The timer service on the running kernel

    The kernel machine of [System] together with the software timers: tasks
    that initialise, start, stop and reset timers, call by call, and the
    service task as the program that [timer_task_fn] is.  The timers' list is
    touched by nothing else, and no interleaving is undefined. *)
From S2P Require Import Prelude DList Kernel Port Scheduler SchedInv SchedSpec Task Ring.
From S2P Require Import KernelInv TaskSpec KernelStep Mutex Semaphore Queue Timer TimerSpec Frame.
From S2P Require Import System Abstract.
From S2P Require Import Refinement Simulation Waiting AbstractFrame.
From stdpp Require Import options.

Implicit Types (L : gmap nid (list nid)) (m : gmap nid (node nid)) (n h : nid) (t u x : nat)
  (s : kstate) (σ : sys) (xs ys : list nid).

(** ** The kernel leaves the timers alone *)

Section apart.
Context {M : Mode} {X : Stale}.

Lemma on_timer s L h n : kernel_inv s L → on L h n → is_timer n = is_timer h.
Proof.
  intros HI Hon. pose proof (ki_sched _ _ (ki_core _ _ HI)) as HS.
  pose proof (si_typed _ _ _ HS _ _ Hon) as Hty. destruct Hon as (xs&Hh&_).
  pose proof (si_heads _ _ _ HS h (mk_is_Some _ _ Hh)) as Hhd.
  destruct h, n; simpl in *; try done; by destruct Hty.
Qed.

Lemma succ_timer s L h xs ys :
  kernel_inv s L → L !! h = Some (xs ++ ys) → is_timer (succ_of ys h) = is_timer h.
Proof.
  intros HI Hh. destruct ys as [|y ys]; [done|]. eapply on_timer; [done|].
  eexists. split; [done|]. apply elem_of_app. right. left.
Qed.

Lemma pred_timer s L h xs ys :
  kernel_inv s L → L !! h = Some (xs ++ ys) → is_timer (pred_of h xs) = is_timer h.
Proof.
  intros HI Hh. unfold pred_of. destruct (last xs) as [y|] eqn:El; [|done].
  eapply on_timer; [done|]. eexists. split; [done|]. apply elem_of_app. left.
  by apply last_Some_elem_of.
Qed.

(** The lists are closed under the links, and so are the timers' nodes. *)
Lemma kernel_apart s L : kernel_inv s L → apart (nodes s).
Proof.
  intros HI n d Hn. pose proof (si_repr _ _ _ (ki_sched _ _ (ki_core _ _ HI))) as HR.
  assert (∀ a b, link (nodes s) n a → link (nodes s) b n → is_timer a = is_timer n → is_timer b = is_timer n →
    is_timer (node_next d) = is_timer n ∧ is_timer (node_prev d) = is_timer n) as Hgoal.
  { unfold link, nxt, prv. rewrite Hn. intros a b [[= ->] _] [_ [= ->]]. done. }
  destruct (L !! n) as [xs|] eqn:En.
  - pose proof (repr_ring _ _ HR _ _ En) as Hc.
    eapply (Hgoal (succ_of xs n) (pred_of n xs)).
    + by apply (chain_link _ n [] xs).
    + apply (chain_link _ n xs []). by rewrite app_nil_r.
    + by eapply (succ_timer s L n []).
    + eapply (pred_timer s L n xs []); [done|]. by rewrite app_nil_r.
  - destruct (decide (map_Forall (λ _ xs, n ∉ xs) L)) as [Hno|(h&xs&Hh&Hin)%map_not_Forall]; [..|apply _].
    + destruct (repr_single _ _ HR n) as [H1 H2]; [eauto|done|exact Hno|]. by apply (Hgoal n n).
    + apply dec_stable in Hin. apply list_elem_of_split in Hin as (ys&zs&->).
      assert (is_timer n = is_timer h) as En'.
      { eapply on_timer; [done|]. eexists. split; [done|]. apply elem_of_app. right. left. }
      pose proof (repr_ring _ _ HR _ _ Hh) as Hc. apply (Hgoal (succ_of zs h) (pred_of h ys)); rewrite ?En'.
      * by apply (chain_link_mid _ h ys n zs h).
      * by apply (chain_link _ h ys (n :: zs) h).
      * eapply (succ_timer s L h (ys ++ [n])); [done|]. by rewrite <- app_assoc.
      * by eapply pred_timer.
Qed.
End apart.

(** Equal links, equal lists. *)
Lemma chain_det m m' a xs ys z :
  chain m a xs z → chain m' a ys z → (∀ n, n ∈ a :: xs → m' !! n = m !! n) → z ∉ xs → z ∉ ys → xs = ys.
Proof.
  revert a ys. induction xs as [|x xs IH]; intros a ys Hc Hc' Heq Hz Hz'.
  - destruct ys as [|y ys]; [done|exfalso]. destruct Hc as [E _], Hc' as [[E' _] _].
    unfold nxt in E, E'. rewrite Heq, E in E' by left. injection E' as <-. apply Hz'. left.
  - destruct Hc as [[E _] Hc]. destruct ys as [|y ys].
    + exfalso. destruct Hc' as [E' _]. unfold nxt in E, E'. rewrite Heq, E in E' by left.
      injection E' as ->. apply Hz. left.
    + destruct Hc' as [[E' _] Hc']. unfold nxt in E, E'. rewrite Heq, E in E' by left. injection E' as <-.
      f_equal. apply (IH x); [done|done|set_solver..].
Qed.

Lemma head_fresh {M : Mode} {X : Stale} s L h xs : kernel_inv s L → L !! h = Some xs → h ∉ xs.
Proof.
  intros HI Hh Hin. pose proof (si_repr _ _ _ (ki_sched _ _ (ki_core _ _ HI))) as HR.
  pose proof (repr_item _ _ HR _ _ _ Hh Hin). congruence.
Qed.

(** A state of the kernel with the same timers has the same timer list. *)
Lemma timers_transfer {M : Mode} (X X1 : Z → Prop) s L s' L1 :
  kernel_inv (X := X) s L → timers_ok s L → kernel_inv (X := X1) s' L1 → timers_kept s s' →
  ∃ L', kernel_inv (X := X1) s' L' ∧ timers_ok s' L' ∧ (∀ h, get_list L' h = get_list L1 h) ∧
    get_list L' NTimers = get_list L NTimers.
Proof.
  intros HI [Hl Hn Ha] HI1 [ET Hsp].
  destruct (Hsp (kernel_apart (X := X) _ _ HI)) as [_ Hsame].
  pose proof (si_repr _ _ _ (ki_sched _ _ (ki_core _ _ HI))) as HR.
  pose proof (si_repr _ _ _ (ki_sched _ _ (ki_core _ _ HI1))) as HR1.
  apply get_list_Some in Hl. pose proof (repr_ring _ _ HR _ _ Hl) as Hc.
  set (xs := get_list L NTimers) in *.
  assert (∀ n, n ∈ NTimers :: xs → is_timer n = true) as Htm.
  { intros n [->|Hin]%elem_of_cons; [done|]. eapply (on_timer (X := X) s L NTimers); [done|by exists xs]. }
  assert (∀ L', (∀ h, get_list L' h = get_list L1 h) → L' !! NTimers = Some xs → timers_ok s' L') as Hok.
  { intros L' _ HL'. split; [eauto|..]; rewrite ET.
    - intros x Hx. rewrite Hsame by done. by apply Hn.
    - intros x tm Hx. rewrite (get_list_eq _ _ _ HL'). by apply Ha. }
  destruct (L1 !! NTimers) as [ys|] eqn:E1.
  - assert (ys = xs) as ->.
    { symmetry. eapply chain_det; [exact Hc|by eapply repr_ring| |by eapply (head_fresh (X := X))|
        by eapply (head_fresh (X := X1))]. intros n Hin. by apply Hsame, Htm. }
    exists L1. split; [done|]. split; [by apply Hok|]. split; [done|]. by rewrite (get_list_eq _ _ _ E1).
  - assert (get_list L1 NTimers = []) as El1 by (unfold get_list; by rewrite E1).
    assert (is_Some (nodes s' !! NTimers)) as Hmapped.
    { rewrite Hsame by done. pose proof (nxt_head _ _ _ _ HR Hl) as Hx. unfold nxt in Hx.
      destruct (nodes s !! NTimers); [eauto|done]. }
    destruct (repr_single _ _ HR1 NTimers) as [Hx Hp]; [done|done| |].
    { apply unlinked_on. intros h Hon. apply (si_typed _ _ _ (ki_sched _ _ (ki_core _ _ HI1))) in Hon.
      by destruct h. }
    assert (nodes s' !! NTimers = Some (Node NTimers NTimers)) as En.
    { unfold nxt, prv in Hx, Hp. destruct (nodes s' !! NTimers) as [[]|]; simplify_eq/=. done. }
    assert (xs = []) as Exs.
    { symmetry. eapply (chain_det (nodes s') (nodes s) NTimers [] xs NTimers); [by split|exact Hc| |set_solver|
        by eapply (head_fresh (X := X))]. intros n ->%list_elem_of_singleton. by rewrite Hsame. }
    pose proof (inv_add_head (X := X1) s' L1 NTimers HI1 El1 eq_refl) as HI2.
    rewrite insert_id, set_nodes_id in HI2 by done.
    assert (∀ h, get_list (<[NTimers := []]> L1) h = get_list L1 h) as Hget by (intros; by apply get_list_add_head).
    exists (<[NTimers := []]> L1). split; [done|]. split; [|split; [done|by rewrite Hget, El1]].
    apply Hok; [done|]. by rewrite lookup_insert_eq, Exs.
Qed.

#[local] Instance list_init_timers h `{!KernelNode h} : Respects timers_kept (on_nodes (nimble_list_init h)).
Proof. intros s [] s' [= <-]. split; [done|]. by apply spared_insert. Qed.

#[local] Instance init_object_timers o : Respects timers_kept (init_object o).
Proof.
  destruct o; simpl; unfold nimble_mutex_init, nimble_semaphore_init, nimble_queue_init, put_mutex,
    put_semaphore, put_queue; repeat (apply keeps_bind; [apply _| |intros _]); try apply _;
    by apply keeps_modify; [apply _|].
Qed.

(** Every event of the kernel machine keeps the timers. *)
Lemma exec_timers e σ σ' : exec e σ = Some σ' → timers_kept (ks σ) (ks σ').
Proof. apply (exec_respects timers_kept); intros; apply _. Qed.

(** ** The machine *)

(** What a task has still to do of a timer call: a reset starts the timer, a
    start of the first timer to expire wakes the service. *)
Inductive cont := CNone | CStart (x : nat) | CNotify.

(** Where the service task is in [timer_task_fn]: about to compute how long to
    sleep; about to take the semaphore, for [wait] ticks at most; in that take,
    or at the top of the inner loop; in a callback. *)
Inductive service := Computing | Waiting (wait : Z) | Expiring | Calling (cb arg : Z).

(** [late] is not part of the program: it counts the ticks between the
    computation of the last sleep and the take. *)
Record tsys := TSys { core : sys; svc : service; conts : gmap nat cont; late : Z }.

Definition cont_of (a : tsys) t : cont := default CNone (conts a !! t).
Definition with_core (σ : sys) (a : tsys) : tsys := TSys σ (svc a) (conts a) (late a).
Definition with_cont t (k : cont) (a : tsys) : tsys := TSys (core a) (svc a) (<[t := k]> (conts a)) (late a).
Definition with_svc (v : service) (a : tsys) : tsys := TSys (core a) v (conts a) (late a).
Definition with_late (n : Z) (a : tsys) : tsys := TSys (core a) (svc a) (conts a) n.

Inductive tevent :=
  | TKernel (e : event)
  | TInit (x : nat) (str : option (list Z)) (period : Z) (periodic : bool) (cb arg : Z)
  | TStart (x : nat)
  | TStop (x : nat)
  | TReset (x : nat) (period : Z)
  | TContinue                       (** the rest of the running task's timer call *)
  | TService                        (** the next step of the service task *)
  | TReturn.                        (** its callback returns *)

Definition start_timer (x : nat) (a : tsys) : option tsys :=
  t ← nimble_current_tcb (ks (core a));
  '(became_new_head, σ) ← run (nimble_timer_start_crit x) (core a);
  Some (with_cont t (if became_new_head : bool then CNotify else CNone) (with_core σ a)).

(** A tick counts while the service task is between computation and take. *)
Definition tick_late (e : event) (a : tsys) : Z :=
  match e, svc a with ETick, Waiting _ => late a + 1 | _, _ => late a end.

Definition texec (e : tevent) (a : tsys) : option tsys :=
  match e with
  | TKernel e => σ ← exec e (core a); Some (with_late (tick_late e a) (with_core σ a))
  | TInit x str period periodic cb arg =>
      '(_, σ) ← run (nimble_timer_init x str period periodic cb arg) (core a); Some (with_core σ a)
  | TStart x => start_timer x a
  | TStop x => '(_, σ) ← run (nimble_timer_stop x) (core a); Some (with_core σ a)
  | TReset x period =>
      t ← nimble_current_tcb (ks (core a));
      '(_, σ) ← run (nimble_timer_reset_crit x period) (core a);
      Some (with_cont t (CStart x) (with_core σ a))
  | TContinue =>
      t ← nimble_current_tcb (ks (core a));
      match cont_of a t with
      | CNone => None
      | CStart x => start_timer x a
      | CNotify =>
          σ ← exec (ECall (CGive timer_wake_sem)) (core a);
          Some (with_cont t CNone (with_core σ a))
      end
  | TService =>
      match svc a with
      | Computing =>
          '(wait, σ) ← run timer_wait_ticks (core a);
          Some (with_late 0 (with_svc (Waiting wait) (with_core σ a)))
      | Waiting wait =>
          σ ← exec (ECall (CTake timer_wake_sem wait)) (core a);
          Some (with_svc Expiring (with_core σ a))
      | Expiring =>
          '(r, σ) ← run timer_expire_one (core a);
          Some (with_svc match r with
                         | None => Computing
                         | Some (cb, arg) => if cb =? 0 then Expiring else Calling cb arg
                         end (with_core σ a))
      | Calling _ _ => None
      end
  | TReturn => Some (with_svc Expiring a)
  end.

(** Code of a task runs: the running task's own, between two kernel calls. *)
Definition in_code (a : tsys) t : Prop :=
  nimble_current_tcb (ks (core a)) = Some t ∧ t ≠ idle_tcb ∧ pendsv (ks (core a)) = false ∧
  phase_of (core a) t = User.
(** ... and the code is the client's: the service task's only in callbacks. *)
Definition in_client (a : tsys) t : Prop :=
  in_code a t ∧ cont_of a t = CNone ∧ (t = timer_task_tcb → ∃ cb arg, svc a = Calling cb arg).

(** The semaphore is private to [timer.c]. *)
Definition foreign (e : event) : Prop :=
  match e with
  | ECall (CTake x _) | ECall (CGive x) | EIsrGive x => x ≠ timer_wake_sem
  | _ => True
  end.

Section mode.
Context {M : Mode}.
Implicit Type a : tsys.

Definition tenabled (e : tevent) a : Prop :=
  match e with
  | TKernel e => enabled e (core a) ∧ foreign e ∧
      match e with ECall _ | EInit _ => ∃ t, in_client a t | _ => True end
  | TInit x str period _ _ _ => (∃ t, in_client a t) ∧ timers (ks (core a)) !! x = None ∧
      is_Some (stored_name str) ∧ 0 ≤ period < 2 ^ 32
  | TStart x | TStop x => (∃ t, in_client a t) ∧ is_Some (timers (ks (core a)) !! x)
  | TReset x period => (∃ t, in_client a t) ∧ is_Some (timers (ks (core a)) !! x) ∧ 0 ≤ period < 2 ^ 32
  | TContinue => ∃ t, in_code a t ∧ cont_of a t ≠ CNone
  | TService => in_code a timer_task_tcb ∧ cont_of a timer_task_tcb = CNone ∧
      ∀ cb arg, svc a ≠ Calling cb arg
  | TReturn => in_client a timer_task_tcb
  end.

Inductive tstep : tsys → tevent → tsys → Prop :=
  | tstep_exec a e a' : tenabled e a → texec e a = Some a' → tstep a e a'.

(** A run, with its events and the states they happen in. *)
Inductive trun : tsys → list (tsys * tevent) → tsys → Prop :=
  | trun_nil a : trun a [] a
  | trun_cons a e a1 es a' : tstep a e a1 → trun a1 es a' → trun a ((a, e) :: es) a'.

(** ** The invariant *)

Definition timers_inv s : Prop := ∃ (X : Z → Prop) L, kernel_inv (X := X) s L ∧ timers_ok s L.

(** A timer call in progress has its timer. *)
Definition cont_ok s (k : cont) : Prop :=
  match k with CStart x => is_Some (timers s !! x) | _ => True end.

Record tinv a : Prop := {
  tv_sys : sys_inv (core a);
  tv_timers : timers_inv (ks (core a));
  tv_sem : is_Some (semaphores (ks (core a)) !! timer_wake_sem);
  tv_conts t : cont_ok (ks (core a)) (cont_of a t);
}.

Lemma cont_of_with t k a u : cont_of (with_cont t k a) u = if decide (u = t) then k else cont_of a u.
Proof.
  unfold cont_of, with_cont; simpl. case_decide as Hu; [subst; by rewrite lookup_insert_eq|].
  by rewrite lookup_insert_ne.
Qed.

Lemma tinv_cont t k a : tinv a → cont_ok (ks (core a)) k → tinv (with_cont t k a).
Proof. intros [? ? ? Hc] Hk. split; try done. intros u. rewrite cont_of_with. by case_decide. Qed.

Lemma tinv_service v a : tinv a → tinv (with_svc v a).
Proof. intros [? ? ? Hc]. by split. Qed.
Lemma tinv_late (k : Z) a : tinv a → tinv (with_late k a).
Proof. intros [? ? ? Hc]. by split. Qed.

Lemma inert_sys σ s' : sys_inv σ → timers_inv s' → inert (ks σ) s' → sys_inv (Sys s' (phases σ)).
Proof.
  intros [_ (t&Hcur&Hrun) Hph] (X&L&HI&_) (ET&Eo&Ec&Eg&Ep).
  split; [by exists X, L|exists t; split; [simpl; congruence|]|].
  - unfold thread_running. simpl. rewrite ET, Ep. exact Hrun.
  - intros u. by eapply phase_ok_same.
Qed.

(** What the operations on timers do to the kernel. *)
Lemma timer_op {A} (m : K A) a (Q : A → kstate → Prop) :
  tinv a →
  (∀ (X : Z → Prop) L, kernel_inv (X := X) (ks (core a)) L → timers_ok (ks (core a)) L →
    wp m (λ r s', timers_inv s' ∧ inert (ks (core a)) s' ∧
      (∀ y, is_Some (timers (ks (core a)) !! y) → is_Some (timers s' !! y)) ∧ Q r s') (ks (core a))) →
  ∃ r s', run m (core a) = Some (r, Sys s' (phases (core a))) ∧
    tinv (with_core (Sys s' (phases (core a))) a) ∧ Q r s'.
Proof.
  intros [Hsys (X&L&HI&Hok) Hsem Hc] Hm. pose proof (Hm X L HI Hok) as Hwp.
  apply wp_exec_run in Hwp as (r&s'&E&_&Ht&Hin&Hx&HQ). exists r, s'. split; [done|]. split; [|done].
  split; simpl; [by apply inert_sys|done|..].
  - destruct Hin as (_&(_&->&_)&_). done.
  - intros t. specialize (Hc t). unfold cont_of in *. simpl. destruct (default CNone (conts a !! t)); simpl in *; auto.
Qed.

(** The kernel's events. *)
Lemma tinv_exec a e σ' : tinv a → step (core a) e σ' → tinv (with_core σ' a).
Proof.
  intros [Hsys (X&L&HI&Hok) Hsem Hc] Hs. pose proof (step_inv _ _ _ Hsys Hs) as Hsys'.
  assert (timers_kept (ks (core a)) (ks σ')) as Ht by (inversion Hs; by eapply exec_timers).
  split; simpl; [done|..].
  - destruct Hsys' as [(Y&L1&HI1) _ _].
    destruct (timers_transfer X Y _ L _ L1 HI Hok HI1 Ht) as (L'&?&?&_). by exists Y, L'.
  - by apply (exec_semaphores (core a) e).
  - intros t. specialize (Hc t). destruct Ht as [ET _]. unfold cont_of in *; simpl.
    destruct (default CNone (conts a !! t)); simpl in *; by rewrite ?ET.
Qed.

Lemma tinv_call a c :
  tinv a → enabled (ECall c) (core a) →
  ∃ σ', exec (ECall c) (core a) = Some σ' ∧ tinv (with_core σ' a).
Proof.
  intros Ha He. destruct (progress_or_stuck _ _ (tv_sys _ Ha) He) as [[(σ'&E&_) _]|[? _]]; [|done].
  exists σ'. split; [done|]. by eapply tinv_exec, step_exec.
Qed.

(** ** Each operation *)

Lemma is_Some_kept x (v : nimble_timer) s s' y :
  timers s' = <[x := v]> (timers s) → is_Some (timers s !! y) → is_Some (timers s' !! y).
Proof. intros -> Hy. apply lookup_insert_is_Some'. by right. Qed.

Lemma tinv_start a x :
  tinv a → is_Some (timers (ks (core a)) !! x) → is_Some (nimble_current_tcb (ks (core a))) →
  ∃ a', start_timer x a = Some a' ∧ tinv a'.
Proof.
  intros Ha [tm Hx] [t Hcur].
  destruct (timer_op (nimble_timer_start_crit x) a (λ _ _, True) Ha) as (r&s'&E&Ha'&_).
  { intros X L HI Hok. wp_apply timer_start_spec; [done..|]. intros r s' (_&?&?&ET&?).
    split; [by eexists _, _|]. split; [done|]. split; [|done]. intros y. by eapply is_Some_kept. }
  unfold start_timer. rewrite Hcur. cbn [mbind option_bind]. rewrite E. cbn.
  eexists. split; [done|]. apply tinv_cont; [done|]. by destruct r.
Qed.

Lemma tinv_reset a x p :
  tinv a → is_Some (timers (ks (core a)) !! x) → is_Some (nimble_current_tcb (ks (core a))) →
  ∃ a', texec (TReset x p) a = Some a' ∧ tinv a'.
Proof.
  intros Ha [tm Hx] [t Hcur].
  destruct (timer_op (nimble_timer_reset_crit x p) a (λ _ s', is_Some (timers s' !! x)) Ha) as (r&s'&E&Ha'&Hx').
  { intros X L HI Hok. wp_apply timer_reset_spec; [done..|]. intros r s' (?&?&ET&?).
    split; [by eexists _, _|]. split; [done|]. split; [intros y; by eapply is_Some_kept|].
    rewrite ET, lookup_insert_eq. eauto. }
  cbn [texec]. rewrite Hcur. cbn [mbind option_bind]. rewrite E. eexists. split; [done|].
  by apply tinv_cont.
Qed.

Lemma tinv_client a e :
  tinv a → tenabled e a →
  match e with TInit _ _ _ _ _ _ | TStop _ => True | _ => False end →
  ∃ a', texec e a = Some a' ∧ tinv a'.
Proof.
  intros Ha He Hk. destruct e as [|x str p per cb arg| |x| | | |]; try done.
  - destruct He as (_&Hx&[nm Hnm]&_).
    destruct (timer_op (nimble_timer_init x str p per cb arg) a (λ _ _, True) Ha) as (r&s'&E&Ha'&_).
    { intros X L HI Hok. wp_apply timer_init_spec; [done..|]. intros _ s' (?&?&ET&?).
      split; [by eexists _, _|]. split; [done|]. split; [|done]. intros y. by eapply is_Some_kept. }
    cbn [texec]. rewrite E. by eexists.
  - destruct He as (_&[tm Hx]).
    destruct (timer_op (nimble_timer_stop x) a (λ _ _, True) Ha) as (r&s'&E&Ha'&_).
    { intros X L HI Hok. wp_apply timer_stop_spec; [done..|]. intros r s' (_&?&?&ET&?).
      split; [by eexists _, _|]. split; [done|]. split; [|done]. intros y. by eapply is_Some_kept. }
    cbn [texec]. rewrite E. by eexists.
Qed.

Lemma in_code_call a t c :
  in_code a t → call_ok t c (ks (core a)) → enabled (ECall c) (core a).
Proof. intros (?&?&?&?) Hok. by exists t. Qed.

(** One step of the service task. *)
Lemma tinv_svc a : tinv a → tenabled TService a → ∃ a', texec TService a = Some a' ∧ tinv a'.
Proof.
  intros Ha (Hcode&_&Hno). cbn [texec]. destruct (svc a) as [|w| |cb arg] eqn:Es; [..|by destruct (Hno cb arg)].
  - destruct (timer_op timer_wait_ticks a (λ _ _, True) Ha) as (r&s'&E&Ha'&_).
    { intros X L HI Hok. unfold wp. rewrite (timer_wait_spec (X := X) _ L HI Hok).
      split; [by exists X, L|done]. }
    rewrite E. eexists. split; [done|]. by apply tinv_late, tinv_service.
  - destruct (tinv_call a (CTake timer_wake_sem w) Ha) as (σ'&E&Ha').
    { eapply in_code_call; [done|]. apply (tv_sem _ Ha). }
    rewrite E. eexists. split; [done|]. by apply tinv_service.
  - destruct (timer_op timer_expire_one a (λ _ _, True) Ha) as (r&s'&E&Ha'&_).
    { intros X L HI Hok. wp_apply timer_expire_one_spec; [done..|]. intros r s' (L'&?&?&Hout).
      split; [by eexists _, _|]. unfold expired_one in Hout.
      destruct (head_due _ _) as [[x ys]|]; [|by destruct Hout as (_&->&_)].
      destruct Hout as (tm&_&_&ET&_&?). split; [done|]. split; [|done]. intros y. by eapply is_Some_kept. }
    rewrite E. eexists. split; [done|]. by apply tinv_service.
Qed.

(** ** No interleaving is undefined *)

Lemma timer_progress a e :
  tinv a → tenabled e a →
  (∃ a', texec e a = Some a' ∧ tinv a') ∨
  exact = false ∧ e = TKernel EPendSV ∧ switch_stuck (ks (core a)) ∧ texec e a = None.
Proof.
  intros Ha He. destruct e as [e|x str p per cb arg|x|x|x p| | |].
  - destruct He as (He&_). destruct (progress_or_stuck _ _ (tv_sys _ Ha) He) as [[(σ'&E&_) _]|(->&Hst&E)].
    + left. cbn [texec]. rewrite E. eexists. split; [done|].
      apply tinv_late. by eapply tinv_exec, step_exec.
    + destruct exact eqn:Ex.
      * destruct (progress _ _ Ex (tv_sys _ Ha) He) as (σ'&E'&_). congruence.
      * right. cbn [texec]. by rewrite E.
  - left. by apply tinv_client.
  - left. destruct He as ((t&(?&_)&_)&?). apply tinv_start; eauto.
  - left. by apply tinv_client.
  - left. destruct He as ((t&(?&_)&_)&?&_). apply tinv_reset; eauto.
  - left. destruct He as (t&Hcode&Hk). pose proof (tv_conts _ Ha t) as Hc. pose proof Hcode as (Hcur&_).
    cbn [texec]. rewrite Hcur. cbn [mbind option_bind]. destruct (cont_of a t) as [|x|]; [done|..].
    + apply tinv_start; eauto.
    + destruct (tinv_call a (CGive timer_wake_sem) Ha) as (σ'&E&Ha').
      { eapply in_code_call; [done|]. apply (tv_sem _ Ha). }
      rewrite E. eexists. split; [done|]. by apply tinv_cont.
  - left. by apply tinv_svc.
  - left. eexists. split; [done|]. by apply tinv_service.
Qed.

Lemma tstep_inv a e a' : tinv a → tstep a e a' → tinv a'.
Proof.
  intros Ha Hs. inversion Hs as [? ? ? He E]; subst.
  destruct (timer_progress a e Ha He) as [(a2&E2&?)|(_&_&_&?)]; congruence.
Qed.

Lemma trun_inv a es a' : tinv a → trun a es a' → tinv a'.
Proof. intros Ha Hr. induction Hr; [done|]. by eapply IHHr, tstep_inv. Qed.

Lemma trun_snoc a es a1 e a2 : trun a es a1 → tstep a1 e a2 → trun a (es ++ [(a1, e)]) a2.
Proof.
  intros Hr Hs. induction Hr as [a|a e' a' es a1 Hs' Hr IH]; simpl.
  - eapply trun_cons; [done|constructor].
  - eapply trun_cons; [done|by apply IH].
Qed.

(** ** Evaluation *)

Definition in_codeb (a : tsys) t : bool :=
  bool_decide (nimble_current_tcb (ks (core a)) = Some t) && negb (t =? idle_tcb)%nat &&
  negb (pendsv (ks (core a))) && match phase_of (core a) t with User => true | _ => false end.
Definition callingb (a : tsys) : bool := match svc a with Calling _ _ => true | _ => false end.
Definition cont_noneb (a : tsys) t : bool := match cont_of a t with CNone => true | _ => false end.
Definition in_clientb (a : tsys) t : bool :=
  in_codeb a t && cont_noneb a t && (negb (t =? timer_task_tcb)%nat || callingb a).
Definition by_client (a : tsys) : bool := from_option (in_clientb a) false (nimble_current_tcb (ks (core a))).
Definition foreignb (e : event) : bool :=
  match e with
  | ECall (CTake x _) | ECall (CGive x) | EIsrGive x => negb (x =? timer_wake_sem)%nat
  | _ => true
  end.
Definition tick_word (p : Z) : bool := (0 <=? p) && (p <? 2 ^ 32).

Definition tenabledb (e : tevent) (a : tsys) : bool :=
  match e with
  | TKernel e => enabledb e (core a) && foreignb e &&
      match e with ECall _ | EInit _ => by_client a | _ => true end
  | TInit x str period _ _ _ => by_client a && negb (is_someb (timers (ks (core a)) !! x)) &&
      is_someb (stored_name str) && tick_word period
  | TStart x | TStop x => by_client a && is_someb (timers (ks (core a)) !! x)
  | TReset x period => by_client a && is_someb (timers (ks (core a)) !! x) && tick_word period
  | TContinue => from_option (λ t, in_codeb a t && negb (cont_noneb a t)) false (nimble_current_tcb (ks (core a)))
  | TService => in_codeb a timer_task_tcb && cont_noneb a timer_task_tcb && negb (callingb a)
  | TReturn => in_clientb a timer_task_tcb
  end.

Lemma in_codeb_ok a t : in_codeb a t = true → in_code a t.
Proof.
  unfold in_codeb. rewrite !andb_true_iff, bool_decide_eq_true, negb_true_iff, Nat.eqb_neq, negb_true_iff.
  intros [[[? ?] ?] Hph]. split; [done|]. split; [done|]. split; [done|]. by destruct (phase_of _ _).
Qed.

Lemma in_clientb_ok a t : in_clientb a t = true → in_client a t.
Proof.
  unfold in_clientb. rewrite !andb_true_iff, orb_true_iff, negb_true_iff, Nat.eqb_neq.
  intros [[Hc Hk] Hs]. split; [by apply in_codeb_ok|]. unfold cont_noneb, callingb in *.
  split; [by destruct (cont_of a t)|]. intros ->. destruct Hs as [?|Hs]; [done|]. destruct (svc a); try done. eauto.
Qed.

Lemma by_client_ok a : by_client a = true → ∃ t, in_client a t.
Proof.
  unfold by_client. destruct (nimble_current_tcb _) as [t|]; [|done]. intros H. exists t. by apply in_clientb_ok.
Qed.

Lemma tenabledb_ok e a : tenabledb e a = true → tenabled e a.
Proof.
  assert (∀ p, tick_word p = true → 0 ≤ p < 2 ^ 32) as Hw.
  { intros p [?%Z.leb_le ?%Z.ltb_lt]%andb_true_iff. done. }
  destruct e as [e|x str p per cb arg|x|x|x p| | |]; cbn [tenabledb tenabled].
  - intros [[He%enabledb_ok Hf]%andb_true_iff Hc]%andb_true_iff. split; [done|]. split.
    + destruct e as [[]| | | | | | |]; try done; by apply Nat.eqb_neq, negb_true_iff.
    + destruct e; try done; by apply by_client_ok.
  - intros [[[Hc Hx]%andb_true_iff Hn]%andb_true_iff Hp]%andb_true_iff.
    split; [by apply by_client_ok|]. split; [|split; [by apply is_someb_ok|by apply Hw]].
    destruct (timers (ks (core a)) !! x); done.
  - intros [? ?]%andb_true_iff. split; [by apply by_client_ok|by apply is_someb_ok].
  - intros [? ?]%andb_true_iff. split; [by apply by_client_ok|by apply is_someb_ok].
  - intros [[? ?]%andb_true_iff ?]%andb_true_iff.
    split; [by apply by_client_ok|]. split; [by apply is_someb_ok|by apply Hw].
  - destruct (nimble_current_tcb _) as [t|]; [|done]. simpl. intros [? Hk]%andb_true_iff. exists t.
    split; [by apply in_codeb_ok|]. unfold cont_noneb in Hk. by destruct (cont_of a t).
  - intros [[? Hk]%andb_true_iff Hs]%andb_true_iff. split; [by apply in_codeb_ok|].
    unfold cont_noneb, callingb in *. split; [by destruct (cont_of a timer_task_tcb)|]. by destruct (svc a).
  - apply in_clientb_ok.
Qed.

(** A run by its events: the states they happen in, and the last. *)
Fixpoint tplay (es : list tevent) (a : tsys) : option (list (tsys * tevent) * tsys) :=
  match es with
  | [] => Some ([], a)
  | e :: es =>
      if tenabledb e a then
        a1 ← texec e a; '(bs, a') ← tplay es a1; Some ((a, e) :: bs, a')
      else None
  end.

Lemma tplay_run es a bs a' : tplay es a = Some (bs, a') → trun a bs a'.
Proof.
  revert a bs. induction es as [|e es IH]; intros a bs; simpl; [intros [= <- <-]; constructor|].
  destruct (tenabledb e a) eqn:He; [|done]. destruct (texec e a) as [a1|] eqn:E; [|done]. simpl.
  destruct (tplay es a1) as [[bs1 a2]|] eqn:Ep; [|done]. simpl. intros [= <- <-].
  econstructor; [econstructor; [by apply tenabledb_ok|done]|]. by apply IH.
Qed.
End mode.
