(* ===== verification/TimerDuty.v ===== *)
(** * What the timer machine does to the timers

    Each of its events by its effect on the list, the expiry times and the
    abstract kernel; and why no timer fires early, or drifts, whatever the
    interleaving. *)
From S2P Require Import Prelude DList Kernel Port Scheduler SchedInv SchedSpec Task Ring.
From S2P Require Import KernelInv TaskSpec KernelStep Semaphore Timer TimerSpec Frame System.
From S2P Require Import Abstract.
From S2P Require Import Refinement Simulation Waiting AbstractFrame TimerMachine.
From stdpp Require Import sorting options.
Open Scope Z_scope.

Implicit Types (L : gmap nid (list nid)) (n h : nid) (t u x : nat)
  (s : kstate) (σ : sys) (a : tsys) (tm : nimble_timer) (xs ys : list nid).

(** ** The timer list, read from its pointers *)

Definition tlist s : list nid := default [] (contents (nodes s) NTimers).

(** Timers may leave the list; the others keep their expiry. *)
Definition thinned s s' : Prop :=
  sublist (tlist s') (tlist s) ∧ ∀ n, n ∈ tlist s' → expiry_of s' n = expiry_of s n.
(** [x] is put, by its expiry, among those that stay. *)
Definition placed x s s' : Prop :=
  ∃ zs, tlist s' = insert_expiry s' (expiry_of s' (NTimer x)) (NTimer x) zs ∧
    sublist zs (tlist s) ∧ ∀ n, n ∈ zs → expiry_of s' n = expiry_of s n.

Section list.
Context {M : Mode} {X : Stale}.

Lemma tlist_eq s L : kernel_inv s L → timers_ok s L → tlist s = get_list L NTimers.
Proof.
  intros HI [Hl _ _]. unfold tlist. rewrite (contents_spec _ L NTimers (get_list L NTimers)); [done|..].
  - apply (ki_sched _ _ (ki_core _ _ HI)).
  - by apply get_list_Some.
Qed.

Lemma expiry_upd s s' x v n :
  timers s' = <[x := v]> (timers s) → n ≠ NTimer x → expiry_of s' n = expiry_of s n.
Proof.
  intros ET Hn. destruct n as [| | | | | | | | |y]; try done. simpl. rewrite ET, lookup_insert_ne; [done|].
  by intros ->.
Qed.

Lemma without_sublist n xs : sublist (without n xs) xs.
Proof.
  induction xs as [|y ys IH]; [done|]. unfold without in *. rewrite filter_cons.
  destruct (decide (y ≠ n)); by constructor.
Qed.

Lemma wp_elim {A} (m : K A) (Q : A → kstate → Prop) s r s' : wp m Q s → m s = Some (r, s') → Q r s'.
Proof. unfold wp. intros H E. by rewrite E in H. Qed.

Lemma start_effect s L x tm r s' :
  kernel_inv s L → timers_ok s L → timers s !! x = Some tm → nimble_timer_start_crit x s = Some (r, s') →
  inert s s' ∧ placed x s s' ∧ timers s' = <[x := started (g_tick_count s) tm]> (timers s) ∧
  r = bool_decide (succ_of (tlist s') NTimers = NTimer x).
Proof.
  intros HI Hok Hx E. destruct (wp_elim _ _ _ _ _ (timer_start_spec s L x tm HI Hok Hx) E)
    as (->&HI'&Hok'&ET&Hin).
  rewrite (tlist_eq _ _ HI' Hok'), get_list_L_timers, decide_True by done.
  split; [done|]. split; [|done]. exists (without (NTimer x) (tlist s)).
  rewrite (tlist_eq _ _ HI' Hok'), (tlist_eq _ _ HI Hok), get_list_L_timers, decide_True by done.
  assert (NTimer x ∉ without (NTimer x) (get_list L NTimers)) as Hnx by (rewrite elem_of_without; tauto).
  split; [|split; [apply without_sublist|]].
  - unfold start_list. rewrite (insert_expiry_upd s x _ s') by done. f_equal.
    simpl. by rewrite ET, lookup_insert_eq.
  - intros n Hn. eapply expiry_upd; [done|]. by intros ->.
Qed.

Lemma stop_effect s L x tm r s' :
  kernel_inv s L → timers_ok s L → timers s !! x = Some tm → nimble_timer_stop x s = Some (r, s') →
  inert s s' ∧ thinned s s' ∧ timers s' = <[x := set_active false tm]> (timers s).
Proof.
  intros HI Hok Hx E. destruct (wp_elim _ _ _ _ _ (timer_stop_spec s L x tm HI Hok Hx) E)
    as (_&HI'&Hok'&ET&Hin).
  split; [done|]. split; [|done]. unfold thinned.
  rewrite (tlist_eq _ _ HI' Hok'), (tlist_eq _ _ HI Hok), get_list_L_timers, decide_True by done.
  split; [apply without_sublist|]. intros n [Hn _]%elem_of_without. by eapply expiry_upd.
Qed.

Lemma reset_effect s L x tm p r s' :
  kernel_inv s L → timers_ok s L → timers s !! x = Some tm → nimble_timer_reset_crit x p s = Some (r, s') →
  inert s s' ∧ thinned s s' ∧ timers s' = <[x := set_period p tm]> (timers s).
Proof.
  intros HI Hok Hx E. destruct (wp_elim _ _ _ _ _ (timer_reset_spec s L x tm p HI Hok Hx) E)
    as (HI'&Hok'&ET&Hin).
  split; [done|]. split; [|done]. unfold thinned.
  rewrite (tlist_eq _ _ HI' Hok'), (tlist_eq _ _ HI Hok). split; [done|]. intros n _.
  destruct (decide (n = NTimer x)) as [->|Hn]; [|by eapply expiry_upd].
  simpl. by rewrite ET, lookup_insert_eq, Hx.
Qed.

Lemma init_effect s L x str p per cb arg nm r s' :
  kernel_inv s L → timers_ok s L → timers s !! x = None → stored_name str = Some nm →
  nimble_timer_init x str p per cb arg s = Some (r, s') →
  inert s s' ∧ thinned s s' ∧ timers s' = <[x := Timer p 0 per false cb arg nm]> (timers s).
Proof.
  intros HI Hok Hx Hnm E.
  destruct (wp_elim _ _ _ _ _ (timer_init_spec s L x str p per cb arg nm HI Hok Hx Hnm) E)
    as (HI'&Hok'&ET&Hin).
  split; [done|]. split; [|done]. unfold thinned.
  rewrite (tlist_eq _ _ HI' Hok'), (tlist_eq _ _ HI Hok). split; [done|]. intros n Hn.
  eapply expiry_upd; [done|]. intros ->. apply (timer_member s L) in Hn as (_&y&[= <-]&[??]); [congruence|done].
Qed.

(** The inner loop's round: nothing is due, or the head fires. *)
Lemma expire_effect s L r s' :
  kernel_inv s L → timers_ok s L → timer_expire_one s = Some (r, s') →
  match head_due s (tlist s) with
  | None => r = None ∧ s' = s
  | Some (x, _) => ∃ tm, timers s !! x = Some tm ∧ is_Some r ∧ inert s s' ∧ (thinned s s' ∨ placed x s s') ∧
      timers s' = <[x := fired s x tm]> (timers s)
  end.
Proof.
  intros HI Hok E. destruct (wp_elim _ _ _ _ _ (timer_expire_one_spec s L HI Hok) E) as (L'&HI'&Hok'&Hout).
  unfold expired_one in Hout. rewrite (tlist_eq _ _ HI Hok).
  destruct (head_due s (get_list L NTimers)) as [[x ys]|] eqn:Eh; [|by destruct Hout as (->&->&_)].
  destruct Hout as (tm&Hx&->&ET&->&Hin). exists tm. split; [done|]. split; [eauto|]. split; [done|]. split; [|done].
  assert (get_list L NTimers = NTimer x :: ys) as El.
  { destruct (get_list L NTimers) as [|[| | | | | | | | |z] zs]; try done. simpl in Eh.
    destruct (0 <? _); [done|]. by injection Eh as -> ->. }
  assert (NTimer x ∉ ys) as Hnx.
  { assert (NoDup (NTimer x :: ys)) as [? _]%NoDup_cons; [|done]. rewrite <- El.
    eapply repr_nodup; [apply HI|apply get_list_Some, Hok]. }
  assert (∀ n, n ∈ ys → expiry_of s' n = expiry_of s n) as Hother.
  { intros n Hn. eapply expiry_upd; [done|]. by intros ->. }
  assert (tlist s' = fired_list s x tm ys) as El'
    by by rewrite (tlist_eq _ _ HI' Hok'), get_list_L_timers, decide_True.
  assert (sublist ys (tlist s)) as Hsub by (rewrite (tlist_eq _ _ HI Hok), El; by constructor).
  unfold fired_list, fired in *. destruct (is_periodic tm); [right|left].
  - exists ys. split; [|done]. rewrite El', (insert_expiry_upd s x _ s') by done. f_equal.
    simpl. by rewrite ET, lookup_insert_eq.
  - unfold thinned. by rewrite El'.
Qed.
End list.

(** ** What an event of the machine does *)

(** [e] leaves the deadline of a timer, and at most makes it inactive; only a
    reset changes its period. *)
Definition retired (e : tevent) x tm tm' : Prop :=
  expiry_tick tm' = expiry_tick tm ∧ (is_active tm' = true → is_active tm = true) ∧
  ((∀ p, e ≠ TReset x p) → period_ticks tm' = period_ticks tm).

Section mode.
Context {M : Mode}.

(** The abstract kernel, which knows no timers, sees no difference. *)
Definition unseen s s' : Prop := ∀ α : akernel, refines s α → refines s' α.

Lemma op_unseen {A} (op : K A) s r s' :
  timers_inv s → op s = Some (r, s') →
  (∀ (X : Z → Prop) L, kernel_inv (X := X) s L → timers_ok s L →
    wp op (λ _ s', inert s s' ∧ ∃ L', kernel_inv (X := X) s' L' ∧
      ∀ h, h ≠ NTimers → get_list L' h = get_list L h) s) →
  unseen s s'.
Proof.
  intros (X0&L0&HI0&Hok0) E Hop α (X&L1&HI1&Ha).
  destruct (timers_transfer X0 X s L0 s L1 HI0 Hok0 HI1) as (L&HI&Hok&Hget&_); [done|].
  destruct (wp_elim _ _ _ _ _ (Hop X L HI Hok) E) as ((ET&(Em&Es&Eq)&Ec&Eg&Ep)&L'&HI'&HL').
  exists X, L'. split; [done|]. destruct Ha as [H1 H2 H3 H4 H5 H6 H7 H8 H9 H10].
  split; rewrite ?ET, ?Ec, ?Eg, ?Ep, ?Em, ?Es, ?Eq; try done.
  - intros p Hp. rewrite HL', Hget by done. by apply H5.
  - by rewrite HL', Hget.
  - intros h Hh. rewrite HL', Hget by (by destruct h). by apply H7.
Qed.

Lemma get_list_others L xs h : h ≠ NTimers → get_list (L_timers L xs) h = get_list L h.
Proof. intros Hh. by rewrite get_list_L_timers, decide_False. Qed.

Lemma start_unseen s x tm r s' :
  timers_inv s → timers s !! x = Some tm → nimble_timer_start_crit x s = Some (r, s') → unseen s s'.
Proof.
  intros Hs Hx E. eapply op_unseen; [done..|]. intros X L HI Hok. wp_apply timer_start_spec; [done..|].
  intros _ s1 (_&?&_&_&?). split; [done|]. eexists. split; [done|]. apply get_list_others.
Qed.
Lemma stop_unseen s x tm r s' :
  timers_inv s → timers s !! x = Some tm → nimble_timer_stop x s = Some (r, s') → unseen s s'.
Proof.
  intros Hs Hx E. eapply op_unseen; [done..|]. intros X L HI Hok. wp_apply timer_stop_spec; [done..|].
  intros _ s1 (_&?&_&_&?). split; [done|]. eexists. split; [done|]. apply get_list_others.
Qed.
Lemma reset_unseen s x tm p r s' :
  timers_inv s → timers s !! x = Some tm → nimble_timer_reset_crit x p s = Some (r, s') → unseen s s'.
Proof.
  intros Hs Hx E. eapply op_unseen; [done..|]. intros X L HI Hok. wp_apply timer_reset_spec; [done..|].
  intros _ s1 (?&_&_&?). split; [done|]. by exists L.
Qed.
Lemma init_unseen s x str p per cb arg nm r s' :
  timers_inv s → timers s !! x = None → stored_name str = Some nm →
  nimble_timer_init x str p per cb arg s = Some (r, s') → unseen s s'.
Proof.
  intros Hs Hx Hnm E. eapply op_unseen; [done..|]. intros X L HI Hok. wp_apply timer_init_spec; [done..|].
  intros _ s1 (?&_&_&?). split; [done|]. by exists L.
Qed.
Lemma expire_unseen s r s' : timers_inv s → timer_expire_one s = Some (r, s') → unseen s s'.
Proof.
  intros Hs E. eapply op_unseen; [done..|]. intros X L HI Hok. wp_apply timer_expire_one_spec; [done..|].
  intros r1 s1 (L'&HI'&_&Hout). unfold expired_one in Hout. destruct (head_due _ _) as [[x ys]|].
  - destruct Hout as (tm&_&_&_&->&?). split; [done|]. eexists. split; [done|]. apply get_list_others.
  - destruct Hout as (_&->&->). split; [done|]. by exists L.
Qed.

Definition with_state s' a : tsys := with_core (Sys s' (phases (core a))) a.

(** The sleep that the service computes. *)
Definition sleep s : Z :=
  match tlist s with [] => NIMBLE_WAIT_FOREVER | n :: _ => Z.max 0 (remaining s n) end.

Definition notified_if (b : bool) : cont := if b then CNotify else CNone.

Definition is_tick (e : tevent) : bool := match e with TKernel ETick => true | _ => false end.

(** The calls that put no timer on the list. *)
Definition quiet_event (e : tevent) : bool :=
  match e with TInit _ _ _ _ _ _ | TStop _ | TReset _ _ => true | _ => false end.

Inductive effect a : tevent → tsys → Prop :=
  | ef_kernel e σ' : step (core a) e σ' → foreign e → timers_kept (ks (core a)) (ks σ') →
      tlist (ks σ') = tlist (ks (core a)) →
      effect a (TKernel e) (with_late (tick_late e a) (with_core σ' a))
  | ef_start e t x tm s' : in_code a t → e = TStart x ∨ e = TContinue ∧ cont_of a t = CStart x →
      cont_of a t ≠ CNotify → timers (ks (core a)) !! x = Some tm →
      inert (ks (core a)) s' → unseen (ks (core a)) s' → placed x (ks (core a)) s' →
      timers s' = <[x := started (g_tick_count s') tm]> (timers (ks (core a))) →
      effect a e (with_cont t (notified_if (bool_decide (succ_of (tlist s') NTimers = NTimer x))) (with_state s' a))
  | ef_quiet e s' C : quiet_event e = true → inert (ks (core a)) s' → unseen (ks (core a)) s' → thinned (ks (core a)) s' →
      (∀ y tm, timers (ks (core a)) !! y = Some tm → ∃ tm', timers s' !! y = Some tm' ∧ retired e y tm tm') →
      (∀ t, cont_of a t = CNotify → default CNone (C !! t) = CNotify) →
      effect a e (TSys (Sys s' (phases (core a))) (svc a) C (late a))
  | ef_notify t σ' : in_code a t → cont_of a t = CNotify → step (core a) (ECall (CGive timer_wake_sem)) σ' →
      timers_kept (ks (core a)) (ks σ') → tlist (ks σ') = tlist (ks (core a)) →
      effect a TContinue (with_cont t CNone (with_core σ' a))
  | ef_compute : in_code a timer_task_tcb → svc a = Computing →
      effect a TService (with_late 0 (with_svc (Waiting (sleep (ks (core a)))) a))
  | ef_take w σ' : in_code a timer_task_tcb → svc a = Waiting w →
      step (core a) (ECall (CTake timer_wake_sem w)) σ' →
      timers_kept (ks (core a)) (ks σ') → tlist (ks σ') = tlist (ks (core a)) →
      effect a TService (with_svc Expiring (with_core σ' a))
  | ef_settled : in_code a timer_task_tcb → svc a = Expiring → head_due (ks (core a)) (tlist (ks (core a))) = None →
      effect a TService (with_svc Computing a)
  | ef_fire x ys tm s' v : in_code a timer_task_tcb → svc a = Expiring → (∀ w, v ≠ Waiting w) →
      head_due (ks (core a)) (tlist (ks (core a))) = Some (x, ys) → timers (ks (core a)) !! x = Some tm →
      inert (ks (core a)) s' → unseen (ks (core a)) s' → thinned (ks (core a)) s' ∨ placed x (ks (core a)) s' →
      timers s' = <[x := fired (ks (core a)) x tm]> (timers (ks (core a))) →
      effect a TService (with_svc v (with_state s' a))
  | ef_return : in_code a timer_task_tcb → (∃ cb arg, svc a = Calling cb arg) →
      effect a TReturn (with_svc Expiring a).

Lemma run_inv {A} (m : K A) σ r σ' :
  run m σ = Some (r, σ') → ∃ s', m (ks σ) = Some (r, s') ∧ σ' = Sys s' (phases σ).
Proof.
  unfold run. destruct (m (ks σ)) as [[r' s']|]; [|done]. simpl. intros [= -> <-]. by exists s'.
Qed.

Lemma kernel_tlist a σ' e :
  tinv a → step (core a) e σ' → timers_kept (ks (core a)) (ks σ') ∧ tlist (ks σ') = tlist (ks (core a)).
Proof.
  intros Ha Hs. assert (timers_kept (ks (core a)) (ks σ')) as Ht by (inversion Hs; by eapply exec_timers).
  split; [done|]. destruct (tv_timers _ Ha) as (X&L&HI&Hok).
  destruct (sv_kernel _ (step_inv _ _ _ (tv_sys _ Ha) Hs)) as (Y&L1&HI1).
  destruct (timers_transfer X Y _ L _ L1 HI Hok HI1 Ht) as (L'&HI'&Hok'&_&El).
  by rewrite (tlist_eq (X := Y) _ _ HI' Hok'), (tlist_eq (X := X) _ _ HI Hok).
Qed.

Lemma cont_kept a t k : (∀ u, cont_of a u = CNotify → u ≠ t) →
  ∀ u, cont_of a u = CNotify → default CNone (<[t := k]> (conts a) !! u) = CNotify.
Proof. intros Ht u Hu. rewrite lookup_insert_ne; [exact Hu|]. intros ->. by apply (Ht u). Qed.

Lemma start_timer_effect a e t x a' :
  tinv a → in_code a t → e = TStart x ∨ e = TContinue ∧ cont_of a t = CStart x →
  cont_of a t ≠ CNotify → is_Some (timers (ks (core a)) !! x) → start_timer x a = Some a' → effect a e a'.
Proof.
  intros Ha Hcode Hev Hno [tm Hx]. unfold start_timer. rewrite (proj1 Hcode). cbn [mbind option_bind].
  destruct (run _ _) as [[r σ']|] eqn:E; [|done]. intros [= <-]. apply run_inv in E as (s'&E&->).
  destruct (tv_timers _ Ha) as (X&L&HI&Hok).
  destruct (start_effect (X := X) _ _ _ _ _ _ HI Hok Hx E) as (Hin&Hpl&ET&->).
  apply (ef_start a e t x tm s'); try done; [by eapply start_unseen, E; [apply Ha|]|]. destruct Hin as (_&_&_&->&_). done.
Qed.

Lemma tstep_effect a e a' : tinv a → tstep a e a' → effect a e a'.
Proof.
  intros Ha Hs. inversion Hs as [a0 e0 a1 He E]; subst. destruct (tv_timers _ Ha) as (X&L&HI&Hok).
  destruct e as [e|x str p per cb arg|x|x|x p| | |]; cbn [texec] in E.
  - destruct He as (He&Hf&_). destruct (exec e (core a)) as [σ'|] eqn:Ee; [|done]. injection E as <-.
    assert (step (core a) e σ') as Hst by by apply step_exec. by apply ef_kernel; [..|eapply kernel_tlist|eapply kernel_tlist].
  - destruct He as (_&Hx&[nm Hnm]&_). destruct (run _ _) as [[r σ']|] eqn:Er; [|done]. injection E as <-.
    apply run_inv in Er as (s'&Er&->).
    destruct (init_effect (X := X) _ _ _ _ _ _ _ _ _ _ _ HI Hok Hx Hnm Er) as (Hin&Hth&ET).
    apply ef_quiet; try done; [by eapply init_unseen, Er; [apply Ha|..]|]. rewrite ET.
    intros y ty Hy. exists ty. rewrite lookup_insert_ne; [done|]. intros <-. by rewrite Hx in Hy.
  - destruct He as ((t&Hcode&Hk&_)&Hx). eapply start_timer_effect; eauto. congruence.
  - destruct He as (_&[tm Hx]). destruct (run _ _) as [[r σ']|] eqn:Er; [|done]. injection E as <-.
    apply run_inv in Er as (s'&Er&->).
    destruct (stop_effect (X := X) _ _ _ _ _ _ HI Hok Hx Er) as (Hin&Hth&ET).
    apply ef_quiet; try done; [by eapply stop_unseen, Er; [apply Ha|]|]. rewrite ET.
    intros y ty Hy. destruct (decide (y = x)) as [->|]; [|exists ty; by rewrite lookup_insert_ne].
    exists (set_active false tm). rewrite lookup_insert_eq. rewrite Hx in Hy. by injection Hy as <-.
  - destruct He as ((t&Hcode&Hk&_)&[tm Hx]&_). rewrite (proj1 Hcode) in E. cbn [mbind option_bind] in E.
    destruct (run _ _) as [[r σ']|] eqn:Er; [|done]. injection E as <-. apply run_inv in Er as (s'&Er&->).
    destruct (reset_effect (X := X) _ _ _ _ _ _ _ HI Hok Hx Er) as (Hin&Hth&ET).
    apply (ef_quiet a _ s' (<[t := CStart x]> (conts a))); try done;
      [by eapply reset_unseen, Er; [apply Ha|]| |apply cont_kept; congruence]. rewrite ET. intros y ty Hy.
    destruct (decide (y = x)) as [->|]; [|exists ty; by rewrite lookup_insert_ne].
    exists (set_period p tm). rewrite lookup_insert_eq. rewrite Hx in Hy. injection Hy as <-.
    do 3 (split; [done|]). intros Hp. by destruct (Hp p).
  - destruct He as (t&Hcode&Hk). pose proof (tv_conts _ Ha t) as Hc. rewrite (proj1 Hcode) in E.
    cbn [mbind option_bind] in E. destruct (cont_of a t) as [|x|] eqn:Ek; [done|..].
    + eapply start_timer_effect; eauto. congruence.
    + destruct (exec _ _) as [σ'|] eqn:Ee; [|done]. injection E as <-.
      assert (step (core a) (ECall (CGive timer_wake_sem)) σ') as Hst.
      { apply step_exec; [|done]. eapply in_code_call; [done|]. apply (tv_sem _ Ha). }
      by apply ef_notify; [..|eapply kernel_tlist|eapply kernel_tlist].
  - destruct He as (Hcode&_&Hno). destruct (svc a) as [|w| |cb arg] eqn:Ev; [..|by destruct (Hno cb arg)].
    + unfold run in E. rewrite (timer_wait_spec (X := X) _ L HI Hok) in E. injection E as <-.
      pose proof (ef_compute a Hcode Ev) as Hef. unfold sleep in Hef. rewrite (tlist_eq (X := X) _ _ HI Hok) in Hef.
      destruct a as [[] ? ? ?]. exact Hef.
    + destruct (exec _ _) as [σ'|] eqn:Ee; [|done]. injection E as <-.
      assert (step (core a) (ECall (CTake timer_wake_sem w)) σ') as Hst.
      { apply step_exec; [|done]. eapply in_code_call; [done|]. apply (tv_sem _ Ha). }
      by eapply ef_take; [..|eapply kernel_tlist|eapply kernel_tlist].
    + destruct (run _ _) as [[r σ']|] eqn:Er; [|done]. injection E as <-. apply run_inv in Er as (s'&Er&->).
      pose proof (expire_effect (X := X) _ _ _ _ HI Hok Er) as Hef.
      destruct (head_due _ _) as [[x ys]|] eqn:Eh.
      * destruct Hef as (tm&Hx&_&Hin&Hpl&ET). eapply ef_fire; try done; [|by eapply expire_unseen, Er; apply Ha].
        intros w. destruct r as [[cb arg]|]; [|done]. by destruct (cb =? 0).
      * destruct Hef as [-> ->]. pose proof (ef_settled a Hcode Ev Eh) as Hef. by destruct a as [[] ? ? ?].
  - injection E as <-. destruct He as (Hcode&_&Hcb). by apply ef_return; auto.
Qed.

(** ** Timers are on schedule *)

(** The next step of the service fires [x]. *)
Definition fires a x : bool :=
  match svc a, head_due (ks (core a)) (tlist (ks (core a))) with
  | Expiring, Some (y, _) => bool_decide (y = x)
  | _, _ => false
  end.
Definition is_firing (x : nat) (b : tsys * tevent) : bool :=
  match b.2 with TService => fires b.1 x | _ => false end.

(** The events that give [x] a new deadline, or a new period. *)
Definition restarts a (e : tevent) x : Prop :=
  match e with
  | TStart y | TReset y _ => y = x
  | TContinue => ∃ t, nimble_current_tcb (ks (core a)) = Some t ∧ cont_of a t = CStart x
  | _ => False
  end.

Definition ticks (es : list (tsys * tevent)) : Z :=
  Z.of_nat (length (filter (λ b, is_tick b.2 = true) es)).
Definition fired_in (x : nat) (es : list (tsys * tevent)) : Z :=
  Z.of_nat (length (filter (λ b, is_firing x b = true) es)).

Lemma ticks_cons a e es : ticks ((a, e) :: es) = (if is_tick e then 1 else 0) + ticks es.
Proof. unfold ticks. rewrite filter_cons. simpl. destruct (is_tick e); simpl; lia. Qed.
Lemma fired_in_cons x b es : fired_in x (b :: es) = (if is_firing x b then 1 else 0) + fired_in x es.
Proof. unfold fired_in. rewrite filter_cons. destruct (is_firing x b); simpl; lia. Qed.

Lemma effect_now a e a' :
  sys_inv (core a) → effect a e a' →
  g_tick_count (ks (core a')) =
    if is_tick e then u32 (g_tick_count (ks (core a)) + 1) else g_tick_count (ks (core a)).
Proof.
  intros Hsys Hef.
  assert (∀ e σ', step (core a) e σ' → e ≠ ETick → g_tick_count (ks σ') = g_tick_count (ks (core a))) as Hk.
  { intros e0 σ' Hs Hne. inversion Hs; subst. by eapply exec_now. }
  destruct Hef as [e σ' Hs _ _ _|e t y tm s' _ Hev _ _ (_&_&_&Eg&_) _ _ _|e s' C Hq (_&_&_&Eg&_) _ _ _ _|t σ' _ _ Hs _ _| |
    w σ' _ _ Hs _ _| |y ys tm s' v _ _ _ _ _ (_&_&_&Eg&_) _ _ _|]; simpl; try done.
  - destruct e; simpl; try by (eapply Hk; [done|]).
    inversion Hs as [? ? ? _ E]; subst. destruct Hsys as [(X&L&HI) _ _].
    pose proof (systick_spec (X := X) _ _ HI) as Hwp.
    apply wp_exec_run in Hwp as ([]&s'&Er&_&_&_&_&Eg&_). unfold exec in E. rewrite Er in E.
    injection E as <-. done.
  - by destruct Hev as [->|[-> _]].
  - by destruct e.
  - by eapply Hk.
  - by eapply Hk.
Qed.

Lemma i32_sub_u32 b c : i32 (b - u32 c) = i32 (b - c).
Proof. by rewrite <- i32_u32, u32_sub_r, i32_u32. Qed.
Lemma i32_u32_sub b c : i32 (u32 b - c) = i32 (b - c).
Proof. by rewrite <- i32_u32, u32_sub_l, i32_u32. Qed.

Lemma head_due_spec s xs x ys :
  head_due s xs = Some (x, ys) → xs = NTimer x :: ys ∧ remaining s (NTimer x) ≤ 0.
Proof.
  destruct xs as [|[| | | | | | | | |z] zs]; try done. simpl.
  destruct (Z.ltb_spec 0 (remaining s (NTimer z))); [done|]. by intros [= -> ->].
Qed.

(** A tick takes at most one from what is left; less when it wraps. *)
Lemma i32_pred b : i32 b - 1 ≤ i32 (b - 1).
Proof.
  pose proof (i32_range b). pose proof (i32_range (b - 1)).
  destruct (decide (i32 b = - 2 ^ 31)) as [E|]; [lia|].
  rewrite <- (Z.add_opp_r b), i32_shift; lia.
Qed.

(** As long as [x] is active, [k] periods and what [T] ticks have taken of
    them are before its deadline. *)
Definition ahead a x (p k T : Z) : Prop :=
  ∃ tm, timers (ks (core a)) !! x = Some tm ∧ period_ticks tm = p ∧
    (is_active tm = true → k * p ≤ remaining (ks (core a)) (NTimer x) + T).

(** What an event does to a timer that it does not restart: it fires it, or
    leaves its deadline and its period. *)
Lemma effect_timer a e a' x tm :
  effect a e a' → ¬ restarts a e x → timers (ks (core a)) !! x = Some tm →
  ∃ tm', timers (ks (core a')) !! x = Some tm' ∧
    if is_firing x (a, e) then tm' = fired (ks (core a)) x tm ∧ remaining (ks (core a)) (NTimer x) ≤ 0
    else period_ticks tm' = period_ticks tm ∧ expiry_tick tm' = expiry_tick tm ∧
      (is_active tm' = true → is_active tm = true).
Proof.
  intros Hef Hre Hx. unfold is_firing, fires.
  destruct Hef as [e σ' _ _ [ET _] _|e t y ty s' Hcode Hev _ _ _ _ _ ET|e s' C Hq _ _ _ Hret _|t σ' _ _ _ [ET _] _|
    Hcode Hsv|w σ' _ Hsv _ [ET _] _|Hcode Hsv Hh|y ys ty s' v _ Hsv _ Hh Hy _ _ _ ET|Hcode Hsv]; simpl;
    rewrite ?ET, ?Hsv, ?Hh; try by exists tm.
  - assert (y ≠ x) as Hne.
    { intros ->. destruct Hev as [->|[-> ?]]; [by destruct Hre|]. apply Hre. exists t. by split; [apply Hcode|]. }
    exists tm. rewrite lookup_insert_ne by done. split; [done|]. by destruct Hev as [->|[-> _]].
  - destruct (Hret x tm Hx) as (tm'&Hx'&Ee&Hact&Hper). exists tm'. split; [done|].
    destruct e; try done; (split; [apply Hper|done]); try done. intros q [= -> _]. by destruct Hre.
  - case_bool_decide as Hyx; [|exists tm; by rewrite lookup_insert_ne].
    subst y. rewrite Hx in Hy. injection Hy as <-. apply head_due_spec in Hh as [_ Hdue].
    exists (fired (ks (core a)) x tm). by rewrite lookup_insert_eq.
Qed.

Lemma remaining_timer s x tm :
  timers s !! x = Some tm → remaining s (NTimer x) = i32 (expiry_tick tm - g_tick_count s).
Proof. intros Hx. unfold remaining. simpl. by rewrite Hx. Qed.

Lemma effect_ahead a e a' x p k T :
  sys_inv (core a) → 0 ≤ p < 2 ^ 31 → effect a e a' → ¬ restarts a e x → ahead a x p k T →
  ahead a' x p ((if is_firing x (a, e) then 1 else 0) + k) (T + if is_tick e then 1 else 0).
Proof.
  intros Hsys Hp Hef Hre (tm&Hx&Ep&Hlt). pose proof (effect_now _ _ _ Hsys Hef) as Eg.
  destruct (effect_timer _ _ _ _ _ Hef Hre Hx) as (tm'&Hx'&Hcase). exists tm'. split; [done|].
  rewrite (remaining_timer _ _ _ Hx) in *. rewrite (remaining_timer _ _ _ Hx'), Eg.
  destruct (is_firing x (a, e)) eqn:Hf.
  - destruct Hcase as [-> Hdue]. assert (is_tick e = false) as -> by (by destruct e).
    unfold fired. destruct (is_periodic tm); [|by split]. simpl. split; [done|]. intros ?%Hlt.
    rewrite (remaining_timer _ _ _ Hx), rearm_remaining;
      [|lia|pose proof (i32_range (expiry_tick tm - g_tick_count (ks (core a)))); lia].
    destruct (_ <? 0); lia.
  - destruct Hcase as (Ep'&->&Hact). split; [congruence|]. intros ?%Hact%Hlt.
    destruct (is_tick e); [|lia]. rewrite i32_sub_u32.
    pose proof (i32_pred (expiry_tick tm - g_tick_count (ks (core a)))).
    replace (expiry_tick tm - (g_tick_count (ks (core a)) + 1)) with
      (expiry_tick tm - g_tick_count (ks (core a)) - 1) by lia. lia.
Qed.

(** As long as [x] is active, [E] is its deadline. *)
Definition scheduled a x (p E : Z) : Prop :=
  ∃ tm, timers (ks (core a)) !! x = Some tm ∧ period_ticks tm = p ∧
    (is_active tm = true → expiry_tick tm = u32 E).

(** [x] fires less than, or just, a period late. *)
Definition prompt a x : Prop :=
  ∀ tm, timers (ks (core a)) !! x = Some tm →
    0 ≤ i32 (expiry_tick tm + period_ticks tm - g_tick_count (ks (core a))).

Lemma effect_scheduled a e a' x p E :
  effect a e a' → ¬ restarts a e x → (is_firing x (a, e) = true → prompt a x) → scheduled a x p E →
  scheduled a' x p (E + (if is_firing x (a, e) then 1 else 0) * p).
Proof.
  intros Hef Hre Hpr (tm&Hx&Ep&HE). destruct (effect_timer _ _ _ _ _ Hef Hre Hx) as (tm'&Hx'&Hcase).
  exists tm'. split; [done|]. destruct (is_firing x (a, e)).
  - destruct Hcase as [-> _]. specialize (Hpr eq_refl tm Hx). unfold fired.
    destruct (is_periodic tm); [|by split]. simpl. split; [done|]. intros Hact%HE.
    rewrite (remaining_timer _ _ _ Hx), <- next_expiry_rearm. unfold next_expiry. rewrite i32_u32_sub.
    destruct (Z.ltb_spec (i32 (expiry_tick tm + period_ticks tm - g_tick_count (ks (core a)))) 0); [lia|].
    rewrite Hact, u32_add_l, Ep. f_equal. lia.
  - destruct Hcase as (Ep'&->&Hact). split; [congruence|]. intros Ha%Hact. rewrite HE by done. f_equal. lia.
Qed.

Lemma run_ahead a es a' x p k T :
  tinv a → 0 ≤ p < 2 ^ 31 → trun a es a' → (∀ b e, (b, e) ∈ es → ¬ restarts b e x) →
  ahead a x p k T → ahead a' x p (fired_in x es + k) (T + ticks es).
Proof.
  intros Ha Hp Hr. revert k T. induction Hr as [a|a e a1 es a' Hs Hr IH]; intros k T Hre Hah.
  { by replace (T + ticks []) with T by (unfold ticks; simpl; lia). }
  rewrite ticks_cons, fired_in_cons, Z.add_assoc, (Z.add_comm _ (fired_in x es)), <- Z.add_assoc. apply IH.
  - by eapply tstep_inv.
  - intros b e' Hin. apply Hre. by right.
  - apply effect_ahead; try done; [apply Ha|by apply tstep_effect|]. apply Hre. left.
Qed.

Lemma run_scheduled a es a' x p E :
  tinv a → trun a es a' → (∀ b e, (b, e) ∈ es → ¬ restarts b e x) →
  (∀ b e, (b, e) ∈ es → is_firing x (b, e) = true → prompt b x) →
  scheduled a x p E → scheduled a' x p (E + fired_in x es * p).
Proof.
  intros Ha Hr. revert E. induction Hr as [a|a e a1 es a' Hs Hr IH]; intros E Hre Hpr Hsc.
  { by replace (E + fired_in x [] * p) with E by (unfold fired_in; simpl; lia). }
  rewrite fired_in_cons, Z.mul_add_distr_r, Z.add_assoc. apply IH.
  - by eapply tstep_inv.
  - intros b e' Hin. apply Hre. by right.
  - intros b e' Hin. apply Hpr. by right.
  - apply effect_scheduled; try done; [by apply tstep_effect| |].
    + apply Hre. left.
    + apply Hpr. left.
Qed.

(** A start leaves one whole period. *)
Lemma start_started a e a' x tm :
  tinv a → tstep a e a' → timers (ks (core a)) !! x = Some tm → e = TStart x ∨ e = TContinue ∧ restarts a e x →
  timers (ks (core a')) !! x = Some (started (g_tick_count (ks (core a'))) tm).
Proof.
  intros Ha Hs Hx Hev.
  destruct (tstep_effect _ _ _ Ha Hs) as [e σ'|e t y ty s' Hcode Hev' _ Hy _ _ _ ET|e s' C Hq|t σ' Hcode Hk| | | |x' ys ty s'|];
    try (by destruct Hev as [?|[? _]]).
  - assert (y = x) as ->.
    { destruct Hev as [->|[-> (u&Hu&Hk)]], Hev' as [[= ->]|[? Hk']]; try done.
      assert (u = t) as -> by (destruct Hcode; congruence). congruence. }
    rewrite Hx in Hy. injection Hy as <-. simpl. by rewrite ET, lookup_insert_eq.
  - destruct Hev as [->|[-> _]]; done.
  - destruct Hev as [?|[_ (u&Hu&Hk')]]; [done|]. assert (u = t) as -> by (destruct Hcode; congruence). congruence.
Qed.

Lemma started_ahead a x now tm :
  timers (ks (core a)) !! x = Some (started now tm) → now = g_tick_count (ks (core a)) →
  0 ≤ period_ticks tm < 2 ^ 31 → ahead a x (period_ticks tm) 1 0 ∧ scheduled a x (period_ticks tm) (now + period_ticks tm).
Proof.
  intros Hx -> Hp. split; exists (started (g_tick_count (ks (core a))) tm); [|done].
  split; [done|]. split; [done|]. intros _. rewrite (remaining_timer _ _ _ Hx). simpl. rewrite i32_u32_sub.
  replace (g_tick_count (ks (core a)) + period_ticks tm - g_tick_count (ks (core a))) with (period_ticks tm) by lia.
  rewrite (i32_small (period_ticks tm)); lia.
Qed.

Lemma fires_due a x :
  tinv a → fires a x = true →
  ∃ tm, timers (ks (core a)) !! x = Some tm ∧ is_active tm = true ∧ remaining (ks (core a)) (NTimer x) ≤ 0.
Proof.
  intros Ha Hf. unfold fires in Hf. destruct (svc a); try done.
  destruct (head_due _ _) as [[y ys]|] eqn:Eh; [|done]. apply bool_decide_eq_true in Hf as ->.
  apply head_due_spec in Eh as [El Hdue]. destruct (tv_timers _ Ha) as (X&L&HI&Hok).
  assert (NTimer x ∈ get_list L NTimers) as Hin by (rewrite <- (tlist_eq (X := X) _ _ HI Hok), El; left).
  destruct (timer_member (X := X) _ _ _ HI Hin) as (_&z&[= <-]&tm&Hx). exists tm. split; [done|]. split; [|done].
  by eapply tm_active.
Qed.

(** The [n]-th firing takes [n] periods. *)
Lemma ahead_fires a es a' x p :
  tinv a → 0 ≤ p < 2 ^ 31 → trun a es a' → (∀ b e, (b, e) ∈ es → ¬ restarts b e x) →
  ahead a x p 1 0 → fires a' x = true → (fired_in x es + 1) * p ≤ ticks es.
Proof.
  intros Ha Hp Hr Hre Hah Hf. assert (tinv a') as Ha' by by eapply trun_inv.
  destruct (run_ahead _ _ _ _ _ _ _ Ha Hp Hr Hre Hah) as (tm&Hx&_&Hlt).
  destruct (fires_due _ _ Ha' Hf) as (tm'&Hx'&Hact&Hdue). rewrite Hx in Hx'. injection Hx' as <-.
  specialize (Hlt Hact). lia.
Qed.

(** What the invariant says of the list, read from its pointers. *)
Lemma tlist_exact a :
  tinv a →
  contents (nodes (ks (core a))) NTimers = Some (tlist (ks (core a))) ∧ NoDup (tlist (ks (core a))) ∧
  ∀ n, n ∈ tlist (ks (core a)) ↔ ∃ x tm, n = NTimer x ∧ timers (ks (core a)) !! x = Some tm ∧ is_active tm = true.
Proof.
  intros Ha. destruct (tv_timers _ Ha) as (X&L&HI&Hok). rewrite (tlist_eq (X := X) _ _ HI Hok).
  pose proof (si_repr _ _ _ (ki_sched _ _ (ki_core _ _ HI))) as HR. pose proof Hok as [Hl _ Hact].
  apply get_list_Some in Hl. split; [by eapply contents_spec|]. split; [by eapply repr_nodup|]. intros n. split.
  - intros Hin. destruct (timer_member (X := X) _ _ _ HI Hin) as (_&x&->&tm&Hx). exists x, tm.
    split; [done|]. split; [done|]. by apply (Hact x tm).
  - intros (x&tm&->&Hx&Hat). by apply (Hact x tm).
Qed.
End mode.
