(* ===== verification/TimerWake.v ===== *)
(** * The service task does not oversleep

    While the service task waits for its semaphore, the sleep it has computed
    covers every active timer, or a task is about to wake it. *)
From S2P Require Import Prelude DList Kernel Port Scheduler SchedInv SchedSpec Task Ring.
From S2P Require Import KernelInv TaskSpec KernelStep Semaphore Timer TimerSpec Frame System.
From S2P Require Import Abstract.
From S2P Require Import Refinement Simulation Waiting AbstractFrame TimerMachine TimerDuty.
From stdpp Require Import sorting options.
Open Scope Z_scope.

Implicit Types (h : nid) (t u : nat) (c : nimble_tcb) (e : event).

(** ** A task that waits for a semaphore *)

Section dozing.
Context (x t : nat).
Abbreviation h0 := (NSem x).

(** The semaphore [x] is untouched and has no new waiters; if [t] still waits
    for it, its sleep is the same. *)
Record undisturbed (a a' : akernel) : Prop := {
  ud_sem : a_semaphores a' !! x = a_semaphores a !! x;
  ud_waiting u : u ∈ a_waiting a' h0 → u ∈ a_waiting a h0;
  ud_sleep : t ∈ a_waiting a' h0 →
    (t ∈ a_sleeping a' ↔ t ∈ a_sleeping a) ∧ wake_tick <$> a_tasks a' !! t = wake_tick <$> a_tasks a !! t;
}.

#[export] Instance undisturbed_preorder : PreOrder undisturbed.
Proof.
  split; [by intros a|]. intros a1 a2 a3 [S1 W1 D1] [S2 W2 D2]. split; [congruence|auto|].
  intros Hin. destruct (D2 Hin) as [H2 E2]. destruct (D1 (W2 _ Hin)) as [H1 E1].
  split; [by rewrite H2|congruence].
Qed.

Implicit Types a : akernel.

Lemma undisturbed_same a a' :
  a_semaphores a' !! x = a_semaphores a !! x → a_waiting a' = a_waiting a → a_sleeping a' = a_sleeping a →
  wake_tick <$> a_tasks a' !! t = wake_tick <$> a_tasks a !! t → undisturbed a a'.
Proof using. intros ES EW El ET. by split; rewrite ?ES, ?EW, ?El. Qed.

Lemma wake_tick_put u c c' (T : gmap nat nimble_tcb) :
  T !! u = Some c → (u = t → wake_tick c' = wake_tick c) →
  wake_tick <$> <[u := c']> T !! t = wake_tick <$> T !! t.
Proof using.
  intros Hu Heq. destruct (decide (u = t)) as [->|]; [|by rewrite lookup_insert_ne].
  rewrite lookup_insert_eq, Hu. simpl. by rewrite Heq.
Qed.

(** One TCB changes, its wake-up time apart, and fields that do not matter. *)
Ltac one_task := apply undisturbed_same; [done..|by eapply wake_tick_put].

Lemma undisturbed_put u c c' a :
  a_tasks a !! u = Some c → wake_tick c' = wake_tick c → undisturbed a (put_task u c' a).
Proof using. intros Hu Heq. one_task. Qed.

(** Another object wakes its first waiter. *)
Lemma wake_undisturbed h a (ow : option tid) a' :
  h ≠ h0 → is_wait h = true → one_wait t a → a_wake h a = Some (ow, a') → undisturbed a a'.
Proof using.
  intros Hne Hw Hone. unfold a_wake. destruct (a_waiting a h) as [|u ws] eqn:Eh; [by intros [= _ <-]|].
  destruct (a_tasks a !! u) as [c|] eqn:Eu; [|done]. intros [= _ <-].
  split; simpl; [done|by rewrite update_ne|]. rewrite update_ne by done. intros Hin.
  assert (u ≠ t) as Hut.
  { intros ->. apply Hne, Hone; [done..| |done]. rewrite Eh. left. }
  split; [rewrite elem_of_without; naive_solver|]. by apply (wake_tick_put u c).
Qed.

(** Another task, or [t] when it does not wait, blocks on another object. *)
Lemma block_undisturbed h u c timeout a :
  h ≠ h0 → (u = t → t ∉ a_waiting a h0) → undisturbed a (a_block h u c timeout a).
Proof using.
  intros Hne Hut. split; simpl; [done|by rewrite update_ne|]. rewrite update_ne by done. intros Hin.
  assert (u ≠ t) as Hne' by (intros ->; by apply Hut). split; [|by rewrite lookup_insert_ne].
  destruct (timeout =? _); [done|]. rewrite elem_of_app, list_elem_of_singleton. naive_solver.
Qed.

Definition other_call (cl : call) : Prop :=
  match cl with CTake y _ | CGive y => y ≠ x | _ => True end.
Definition other_event e : Prop :=
  match e with ECall cl => other_call cl | EIsrGive y | EInit (OSemaphore y _ _) => y ≠ x | _ => True end.

Lemma give_undisturbed y r a a' : y ≠ x → one_wait t a → a_give y a = Some (r, a') → undisturbed a a'.
Proof using.
  intros Hy Hone. unfold a_give. destruct (a_semaphores a !! y) as [sem|]; [|done]. simpl.
  destruct (a_wake _ a) as [[w a1]|] eqn:Ew; [|done].
  apply wake_undisturbed in Ew; [|congruence|done|done]. simpl.
  destruct w; intros [= _ <-]; [done|]. etrans; [exact Ew|]. apply undisturbed_same; try done.
  simpl. by rewrite lookup_insert_ne.
Qed.

Lemma queue_wake_undisturbed q qu h (ow : option tid) a a' :
  h ≠ h0 → is_wait h = true → one_wait t a → a_wake h (put_aqueue q qu a) = Some (ow, a') → undisturbed a a'.
Proof using.
  intros Hne Hw Hone E. apply wake_undisturbed in E; [|done..].
  etrans; [|exact E]. by apply undisturbed_same.
Qed.

Lemma send_undisturbed q item qu r a a' :
  one_wait t a → a_send q item qu a = Some (r, a') → undisturbed a a'.
Proof using.
  intros Hone. unfold a_send. destruct (a_wake _ _) as [[w a1]|] eqn:Ew; [|done]. intros [= _ <-].
  by eapply (queue_wake_undisturbed _ _ (NQRecv q)).
Qed.

Lemma acall_undisturbed u cl (o : outcome) a a' :
  other_call cl → one_wait t a → (u = t → t ∉ a_waiting a h0) → acall u cl a = Some (o, a') → undisturbed a a'.
Proof using.
  intros Ho Hone Hut. unfold acall. destruct (a_tasks a !! u) as [c|] eqn:Eu; [|done]. cbn [mbind option_bind].
  assert (∀ h timeout, h ≠ h0 → undisturbed a (a_block h u c timeout a)) as Hb
    by (intros; by apply block_undisturbed).
  destruct cl as [m timeout|m|y timeout|y|q item timeout|q timeout|ticks| |v|v]; simpl in Ho.
  - destruct (a_mutexes a !! m) as [mu|]; [|done]. cbn [mbind option_bind]. destruct (owner mu) as [v|].
    + case_decide; [intros [= _ <-]; by apply undisturbed_same|].
      destruct (timeout =? NIMBLE_NO_WAIT); [by intros [= _ <-]|].
      destruct (a_tasks a !! v) as [co|] eqn:Ev; [|done]. intros [= _ <-].
      destruct (priority co <? priority c); [|by apply Hb].
      trans (put_task v (set_priority (priority c) co) a); [by eapply undisturbed_put|].
      by apply block_undisturbed.
    + intros [= _ <-]. by apply undisturbed_same.
  - destruct (a_mutexes a !! m) as [mu|]; [|done]. cbn [mbind option_bind]. cbv zeta.
    case_decide; [by intros [= _ <-]|]. destruct (0 <? _); [intros [= _ <-]; by apply undisturbed_same|].
    destruct (a_wake _ _) as [[w a1]|] eqn:Ew; [|done]. intros [= _ <-].
    apply wake_undisturbed in Ew; [|done..]. trans a1; [|by apply undisturbed_same].
    etrans; [|exact Ew]. by eapply undisturbed_put.
  - destruct (a_semaphores a !! y) as [sem|]; [|done]. simpl.
    destruct (0 <? count sem).
    { intros [= _ <-]. apply undisturbed_same; try done. simpl. by rewrite lookup_insert_ne. }
    destruct (timeout =? NIMBLE_NO_WAIT); intros [= _ <-]; [done|]. apply Hb. congruence.
  - destruct (a_give y a) as [[r a1]|] eqn:Eg; [|done]. intros [= _ <-]. by eapply give_undisturbed.
  - destruct (a_queues a !! q) as [qu|]; [|done]. simpl. destruct (aq_full qu).
    + destruct (timeout =? NIMBLE_NO_WAIT); intros [= _ <-]; [done|by apply Hb].
    + destruct (a_send q item qu a) as [[r a1]|] eqn:Es; [|done]. intros [= _ <-]. by eapply send_undisturbed.
  - destruct (a_queues a !! q) as [qu|]; [|done]. simpl. destruct (aq_items qu).
    + destruct (timeout =? NIMBLE_NO_WAIT); intros [= _ <-]; [done|by apply Hb].
    + destruct (a_wake _ _) as [[w a1]|] eqn:Ew; [|done]. intros [= _ <-].
      by eapply (queue_wake_undisturbed _ _ (NQSend q)).
  - destruct (ticks =? 0); intros [= _ <-]; [done|]. split; simpl; [done..|]. intros Hin.
    assert (u ≠ t) as Hne by (intros ->; by apply Hut).
    rewrite elem_of_app, list_elem_of_singleton, lookup_insert_ne by done. naive_solver.
  - by intros [= _ <-].
  - destruct (a_tasks a !! v) as [cv|] eqn:Ev; [|done]. simpl. destruct (state cv); intros [= _ <-]; try done;
      one_task.
  - destruct (a_tasks a !! v) as [cv|] eqn:Ev; [|done]. intros [= _ <-]. case_decide; [|done]. one_task.
Qed.

Lemma apending_undisturbed p u r a a' : apending p u a = Some (r, a') → undisturbed a a'.
Proof using.
  unfold apending. destruct (a_tasks a !! u) as [c|]; [|done]. cbn [mbind option_bind].
  destruct p as [|m'| |q item|q].
  - by intros [= _ <-].
  - destruct (a_mutexes a !! m'); [|done]. by intros [= _ <-].
  - by intros [= _ <-].
  - destruct (a_queues a !! q) as [qu|]; [|done]. simpl.
    destruct (_ =? _); [by intros [= _ <-]|].
    destruct (aq_full qu); intros [= _ <-]; [done|by apply undisturbed_same].
  - destruct (a_queues a !! q) as [qu|]; [|done]. simpl.
    destruct (_ =? _); [by intros [= _ <-]|].
    destruct (aq_items qu); intros [= _ <-]; [done|by apply undisturbed_same].
Qed.

Lemma pendsv_undisturbed a a' : a_pendsv a = Some a' → undisturbed a a'.
Proof using.
  unfold a_pendsv. destruct (a_requeue a) as [a1|] eqn:E1; [|done]. cbn [mbind option_bind].
  assert (undisturbed a a1) as H1.
  { unfold a_requeue in E1. destruct (a_current a) as [u|]; [|by injection E1 as <-].
    destruct (a_tasks a !! u) as [c|] eqn:Eu; [|done]. injection E1 as <-. case_decide; [|done].
    one_task. }
  destruct (a_top 31 a1) as [p|]; [|done]. simpl. destruct (a_ready a1 p) as [|u ts]; [done|].
  destruct (a_tasks a1 !! u) as [c|] eqn:Eu; [|done]. intros [= <-].
  etrans; [exact H1|]. one_task.
Qed.

(** A tick leaves only a task asleep that is not due. *)
Lemma tick_undisturbed a :
  undisturbed a (a_tick a) ∧
  ∀ c, t ∈ a_waiting (a_tick a) h0 → t ∈ a_sleeping a → a_tasks a !! t = Some c →
    expired (u32 (a_now a + 1)) c = false.
Proof using.
  assert (∀ c, t ∈ a_waiting (a_tick a) h0 → t ∈ a_sleeping a → a_tasks a !! t = Some c →
    expired (u32 (a_now a + 1)) c = false) as Hdue.
  { intros c [Hup _]%list_elem_of_filter Hs Hc. apply andb_false_iff in Hup as [Hup|Hup].
    - by apply bool_decide_eq_false in Hup.
    - unfold a_due in Hup. simpl in Hup. by rewrite Hc in Hup. }
  split; [|done]. split; [done|by intros u [_ ?]%list_elem_of_filter|]. intros Hin. split.
  - simpl. rewrite list_elem_of_filter. split; [tauto|]. intros Hs. split; [|done].
    unfold a_due. simpl. destruct (a_tasks a !! t) as [c|] eqn:Ec; [|done]. by apply Hdue.
  - simpl. rewrite map_lookup_imap. apply list_elem_of_filter in Hin as [Hup _].
    destruct (a_tasks a !! t) as [c|]; [|done]. simpl. simpl in Hup. by rewrite Hup.
Qed.

Lemma aexec_undisturbed e α α' :
  other_event e → one_wait t (ak α) → (∀ cl, e = ECall cl → a_current (ak α) = Some t → t ∉ a_waiting (ak α) h0) →
  aexec e α = Some α' → undisturbed (ak α) (ak α').
Proof using.
  intros Ho Hone Hrun. destruct e as [cl|o| | | | |y|q item]; simpl.
  - destruct (a_current (ak α)) as [u|] eqn:Eu; [|done]. simpl.
    destruct (acall u cl (ak α)) as [[o a']|] eqn:E; [|done]. intros [= <-]. simpl.
    eapply acall_undisturbed, E; [done..|]. intros ->. by eapply Hrun.
  - intros [= <-]. destruct o as [m'|y i n| ]; try by apply undisturbed_same.
    apply undisturbed_same; try done. simpl in *. by rewrite lookup_insert_ne.
  - destruct (a_current (ak α)) as [u|]; [|done]. simpl. destruct (a_phase α u); try done.
    intros [= <-]. by apply undisturbed_same.
  - destruct (a_current (ak α)) as [u|]; [|done]. simpl. destruct (a_phase α u) as [| |p]; try done.
    destruct (apending p u (ak α)) as [[r a']|] eqn:E; [|done]. intros [= <-]. by eapply apending_undisturbed.
  - intros [= <-]. apply tick_undisturbed.
  - destruct (a_pendsv (ak α)) as [a'|] eqn:E; [|done]. intros [= <-]. by apply pendsv_undisturbed.
  - destruct (a_give y (ak α)) as [[r a']|] eqn:E; [|done]. intros [= <-]. apply give_undisturbed in E; [|done..].
    etrans; [exact E|]. by destruct r.2; apply undisturbed_same.
  - destruct (a_isr_send q item (ak α)) as [[r a']|] eqn:E; [|done]. intros [= <-].
    assert (undisturbed (ak α) a') as H1.
    { unfold a_isr_send in E. destruct (a_queues (ak α) !! q) as [qu|]; [|done]. simpl in E.
      destruct (aq_full qu); [by injection E as _ <-|]. by eapply send_undisturbed. }
    etrans; [exact H1|]. by destruct r.2; apply undisturbed_same.
Qed.
End dozing.

(** ** Time left, and order *)

Lemma i32_opp b : - 2 ^ 31 < i32 b → i32 (- b) = - i32 b.
Proof.
  intros Hb. assert (∃ k, i32 b = b + k * 2 ^ 32) as [k Ek].
  { unfold i32. pose proof (Z.div_mod b (2 ^ 32)) as Hd.
    destruct (_ <? _); [exists (- (b / 2 ^ 32))|exists (- (b / 2 ^ 32) - 1)]; lia. }
  pose proof (i32_range b). rewrite <- (i32_small (- i32 b)) by lia. rewrite Ek. unfold i32.
  replace (- (b + k * 2 ^ 32)) with (- b + (- k) * 2 ^ 32) by lia. by rewrite Z_mod_plus_full.
Qed.

(** A tick takes one from what is left. *)
Lemma i32_tick (d now : Z) : - 2 ^ 31 < i32 (d - now) → i32 (d - u32 (now + 1)) = i32 (d - now) - 1.
Proof.
  intros He. pose proof (i32_range (d - now)). rewrite i32_sub_u32.
  replace (d - (now + 1)) with (d - now + -1) by lia. rewrite i32_shift; lia.
Qed.

(** A sleeper that is not woken has more than one tick left. *)
Lemma not_expired_left c (now : Z) :
  0 < i32 (wake_tick c - now) → expired (u32 (now + 1)) c = false → 1 < i32 (wake_tick c - now).
Proof.
  intros Hd He%Z.leb_gt. destruct (decide (i32 (wake_tick c - now) = 1)) as [E|]; [exfalso|lia].
  replace (u32 (now + 1) - wake_tick c) with (- (wake_tick c - u32 (now + 1))) in He by lia.
  rewrite i32_opp in He; rewrite i32_tick in *; lia.
Qed.

Implicit Types (s : kstate) (a : tsys) (α : asys) (n : nid) (w : Z) (xs ys : list nid) (σ : sys).

Definition timely a : Prop := window (ks (core a)) (tlist (ks (core a))).

Lemma remaining_same s s' n :
  expiry_of s' n = expiry_of s n → g_tick_count s' = g_tick_count s → remaining s' n = remaining s n.
Proof. unfold remaining. by intros -> ->. Qed.

Lemma sorted_ext s s' xs (k : Z) :
  (∀ n, n ∈ xs → remaining s' n = remaining s n - k) → expiry_sorted s xs → expiry_sorted s' xs.
Proof.
  unfold expiry_sorted. intros Heq Hs. induction Hs as [|n xs Hs IH Hall]; [constructor|]. constructor.
  - apply IH. intros m Hm. apply Heq. by right.
  - rewrite Forall_forall in *. intros m Hm. rewrite !Heq; [|by right|by left]. specialize (Hall m Hm). lia.
Qed.

Lemma sorted_sublist s xs ys : sublist ys xs → expiry_sorted s xs → expiry_sorted s ys.
Proof. intros Hsub Hs. by eapply StronglySorted_sublist. Qed.

Lemma sorted_head s n xs m : expiry_sorted s (n :: xs) → m ∈ n :: xs → remaining s n ≤ remaining s m.
Proof.
  intros [_ Hall]%StronglySorted_inv. rewrite Forall_forall in Hall.
  intros [->|Hm]%elem_of_cons; [done|]. by apply Hall.
Qed.

Lemma thinned_sorted s s' :
  thinned s s' → g_tick_count s' = g_tick_count s → expiry_sorted s (tlist s) → expiry_sorted s' (tlist s').
Proof.
  intros [Hsub Hexp] Eg Hs. apply (sorted_ext s s' _ 0); [|by eapply sorted_sublist].
  intros n Hn. rewrite (remaining_same s s') by auto. lia.
Qed.

Lemma placed_sorted x s s' :
  placed x s s' → g_tick_count s' = g_tick_count s → window s' (tlist s') → expiry_sorted s (tlist s) →
  expiry_sorted s' (tlist s').
Proof.
  intros (zs&El&Hsub&Hexp) Eg Hw Hs. rewrite El in *. apply insert_expiry_sorted.
  - intros n Hn. apply Hw. by rewrite insert_expiry_perm.
  - apply (sorted_ext s s' _ 0); [|by eapply sorted_sublist].
    intros n Hn. rewrite (remaining_same s s') by auto. lia.
Qed.

(** ** The duty *)

Section mode.
Context {M : Mode}.
Abbreviation wait_list := (NSem timer_wake_sem).

(** Whatever sleep the service has computed, or sleeps, ends before the first
    deadline; but for the ticks before it went to sleep. *)
Definition sleep_covers a (α : akernel) : Prop :=
  ∀ n, n ∈ tlist (ks (core a)) →
    (∀ w, svc a = Waiting w → 0 ≤ w < 2 ^ 31 ∧ w ≤ Z.max 0 (remaining (ks (core a)) n + late a)) ∧
    (timer_task_tcb ∈ a_waiting α wait_list →
       timer_task_tcb ∈ a_sleeping α ∧ ∃ c, a_tasks α !! timer_task_tcb = Some c ∧
         0 < i32 (wake_tick c - a_now α) ≤ remaining (ks (core a)) n + late a).

(** Or somebody is about to wake it, or has. *)
Definition covered a (α : akernel) : Prop :=
  (∃ u, cont_of a u = CNotify) ∨ a_semaphores α !! timer_wake_sem = Some (Semaphore 1 1) ∨ sleep_covers a α.

Record duty a α : Prop := {
  du_sim : simulates (core a) α;
  du_sem : ∃ k, a_semaphores (ak α) !! timer_wake_sem = Some (Semaphore k 1);
  du_only u : u ∈ a_waiting (ak α) wait_list → u = timer_task_tcb;
  du_asleep : timer_task_tcb ∈ a_waiting (ak α) wait_list →
    svc a = Expiring ∧ in_call PTake (phase_of (core a) timer_task_tcb);
  du_covered : covered a (ak α);
  du_sorted : expiry_sorted (ks (core a)) (tlist (ks (core a)));
}.

(** The semaphore's count, and its waiters. *)
Lemma duty_count a α k :
  duty a α → a_semaphores (ak α) !! timer_wake_sem = Some (Semaphore k 1) →
  0 ≤ k ≤ 1 ∧ (a_waiting (ak α) wait_list ≠ [] → k = 0) ∧ NoDup (a_waiting (ak α) wait_list).
Proof.
  intros [[(X&L&HI&Ha) _] _ _ _ _ _] Hk. rewrite (ab_semaphores _ _ _ Ha) in Hk.
  pose proof (ab_waiting _ _ _ Ha wait_list eq_refl) as Ew.
  destruct (oo_sem _ _ (ki_objects _ _ HI) _ _ Hk) as [Hl H1 H2 H3]. simpl in *.
  split; [done|]. split.
  - intros Hne. apply H3. rewrite Ew. by destruct (a_waiting (ak α) wait_list).
  - apply get_list_Some in Hl. rewrite Ew in Hl.
    pose proof (repr_nodup _ _ (si_repr _ _ _ (ki_sched _ _ (ki_core _ _ HI))) _ _ Hl) as Hnd.
    by apply NoDup_fmap in Hnd; [|apply _].
Qed.

(** A task whose code runs does not wait. *)
Lemma in_code_awake a α t h :
  tinv a → simulates (core a) α → in_code a t → is_wait h = true → t ∉ a_waiting (ak α) h.
Proof.
  intros Ha Hα (Hcur&_&Hp&Hph). destruct (sv_current _ (tv_sys _ Ha)) as (u&Hu&Hrun).
  assert (u = t) as -> by congruence. destruct Hrun as (c&Hc&Hs); [done|congruence|].
  by eapply running_free.
Qed.

(** Steps that the abstract kernel does not see. *)
Lemma duty_unseen a α a' :
  duty a α → simulates (core a') α → phases (core a') = phases (core a) →
  (timer_task_tcb ∈ a_waiting (ak α) wait_list → svc a' = svc a) → covered a' (ak α) →
  expiry_sorted (ks (core a')) (tlist (ks (core a'))) → duty a' α.
Proof.
  intros [Hsim Hsem Honly Hasl _ _] Hsim' Hph Hsv Hc Hs. split; try done.
  intros Hin. destruct (Hasl Hin). rewrite Hsv by done. split; [done|]. unfold phase_of. by rewrite Hph.
Qed.

Lemma unseen_simulates a α s' :
  simulates (core a) α → unseen (ks (core a)) s' → simulates (Sys s' (phases (core a))) α.
Proof. intros [Hr Hph] Hun. split; [by apply Hun|done]. Qed.

(** Whatever else happens, a service task that is awake and not about to sleep
    is no concern. *)
Lemma covers_awake a (α : akernel) :
  (∀ w, svc a ≠ Waiting w) → timer_task_tcb ∉ a_waiting α wait_list → sleep_covers a α.
Proof. intros Hsv Hw n _. split; [by intros w ?%Hsv|done]. Qed.

Lemma duty_quiet a α s' C :
  duty a α → inert (ks (core a)) s' → unseen (ks (core a)) s' → thinned (ks (core a)) s' →
  (∀ t, cont_of a t = CNotify → default CNone (C !! t) = CNotify) →
  duty (TSys (Sys s' (phases (core a))) (svc a) C (late a)) α.
Proof.
  intros Hd (_&_&_&Eg&_) Hun Hth HC. eapply duty_unseen; try done.
  - apply unseen_simulates; [apply Hd|done].
  - destruct (du_covered _ _ Hd) as [[u Hu]|[Hk|Hc]]; [left; exists u; by apply HC|by right; left|right; right].
    destruct Hth as [Hsub Hexp]. intros n Hn. simpl in *.
    rewrite (remaining_same (ks (core a)) s') by auto. apply Hc.
    by eapply elem_of_sublist, Hsub.
  - by eapply thinned_sorted; [..|apply Hd].
Qed.

(** A start: a new first deadline obliges the task to wake the service, and
    any other is no earlier than the first. *)
Lemma duty_start a α t x s' :
  duty a α → cont_of a t ≠ CNotify → inert (ks (core a)) s' → unseen (ks (core a)) s' →
  placed x (ks (core a)) s' → window s' (tlist s') →
  duty (with_cont t (notified_if (bool_decide (succ_of (tlist s') NTimers = NTimer x))) (with_state s' a)) α.
Proof.
  intros Hd Hno (_&_&_&Eg&_) Hun Hpl Hw.
  assert (expiry_sorted s' (tlist s')) as Hs' by (by eapply placed_sorted; [..|apply Hd]).
  eapply duty_unseen; try done.
  { apply unseen_simulates; [apply Hd|done]. }
  case_bool_decide as Hhd.
  { left. exists t. by rewrite cont_of_with, decide_True. }
  destruct (du_covered _ _ Hd) as [[u Hu]|[Hk|Hc]]; [left|by right; left|right; right].
  { exists u. rewrite cont_of_with, decide_False; [done|]. by intros ->. }
  assert (∀ n, n ∈ tlist s' → ∃ m, m ∈ tlist (ks (core a)) ∧ remaining (ks (core a)) m ≤ remaining s' n) as Hle.
  { destruct Hpl as (zs&El&Hsub&Hexp). intros n Hn.
    assert (∀ m, m ∈ zs → m ∈ tlist (ks (core a)) ∧ remaining (ks (core a)) m = remaining s' m) as Hzs.
    { intros m Hm. split; [by eapply elem_of_sublist, Hsub|]. symmetry. apply remaining_same; auto. }
    destruct (decide (n ∈ zs)) as [Hz|Hz]; [exists n; destruct (Hzs n Hz); split; [done|lia]|].
    destruct (tlist s') as [|y ys] eqn:Et; [by apply elem_of_nil in Hn|]. simpl in Hhd.
    assert (y ∈ zs) as Hy.
    { assert (y ∈ NTimer x :: zs) as [->|?]%elem_of_cons; [|done..].
      rewrite <- (insert_expiry_perm s' (expiry_of s' (NTimer x))), <- El. left. }
    destruct (Hzs y Hy) as [? Ey]. exists y. split; [done|]. rewrite Ey. by eapply sorted_head. }
  intros n Hn. simpl in Hn. destruct (Hle n Hn) as (m&Hm&Hmn). destruct (Hc m Hm) as [H1 H2]. simpl. split.
  - intros w Hsv. destruct (H1 w Hsv). split; [done|lia].
  - intros Hin. destruct (H2 Hin) as (?&c&?&?). split; [done|]. exists c. split; [done|lia].
Qed.

(** The service's own steps, but the take. *)
Lemma duty_service a α s' v :
  tinv a → duty a α → in_code a timer_task_tcb → (∀ w, v ≠ Waiting w) → unseen (ks (core a)) s' →
  expiry_sorted s' (tlist s') → duty (with_svc v (with_state s' a)) α.
Proof.
  intros Ha Hd Hcode Hv Hun Hs.
  assert (timer_task_tcb ∉ a_waiting (ak α) wait_list) as Hw by (by eapply in_code_awake; [|apply Hd|..]).
  eapply duty_unseen; try done.
  - apply unseen_simulates; [apply Hd|done].
  - right; right. by apply covers_awake.
Qed.

Lemma duty_compute a α :
  tinv a → duty a α → in_code a timer_task_tcb → 
  duty (with_late 0 (with_svc (Waiting (sleep (ks (core a)))) a)) α.
Proof.
  intros Ha Hd Hcode.
  assert (timer_task_tcb ∉ a_waiting (ak α) wait_list) as Hw by (by eapply in_code_awake; [|apply Hd|..]).
  eapply duty_unseen; try done; try apply Hd. right; right. intros n Hn. simpl in *. split; [|done].
  intros w [= <-]. unfold sleep. pose proof (du_sorted _ _ Hd) as Hs.
  destruct (tlist (ks (core a))) as [|y ys]; [by apply elem_of_nil in Hn|].
  pose proof (sorted_head _ _ _ _ Hs Hn). pose proof (i32_range (expiry_of (ks (core a)) y - g_tick_count (ks (core a)))).
  unfold remaining in *. lia.
Qed.

(** After an event of the kernel machine: what is left to show. *)
Lemma duty_refines a α e σ' :
  tinv a → duty a α → step (core a) e σ' →
  ∃ α', aexec e α = Some α' ∧ simulates σ' α'.
Proof.
  intros Ha Hd Hs. destruct (step_refines _ _ _ _ (tv_sys _ Ha) (du_sim _ _ Hd) Hs) as (α'&?&?&_). eauto.
Qed.

Lemma kernel_remaining σ σ' e n :
  step σ e σ' → e ≠ ETick → timers_kept (ks σ) (ks σ') → remaining (ks σ') n = remaining (ks σ) n.
Proof.
  intros Hs He [ET _]. inversion Hs; subst. apply remaining_same; [|by eapply exec_now].
  destruct n; simpl; by rewrite ?ET.
Qed.

Lemma kernel_sorted σ σ' e :
  step σ e σ' → e ≠ ETick → timers_kept (ks σ) (ks σ') → tlist (ks σ') = tlist (ks σ) →
  expiry_sorted (ks σ) (tlist (ks σ)) → expiry_sorted (ks σ') (tlist (ks σ')).
Proof.
  intros Hs He Ht El. rewrite El. apply (sorted_ext _ _ _ 0). intros n _.
  rewrite (kernel_remaining σ σ' e) by done. lia.
Qed.

(** The take: the service has a unit, does not wait, or sleeps as computed. *)
Lemma duty_take a α w σ' :
  tinv a → duty a α → in_code a timer_task_tcb → svc a = Waiting w →
  step (core a) (ECall (CTake timer_wake_sem w)) σ' →
  timers_kept (ks (core a)) (ks σ') → tlist (ks σ') = tlist (ks (core a)) →
  ∃ α', duty (with_svc Expiring (with_core σ' a)) α'.
Proof.
  intros Ha Hd Hcode Hsv Hs Ht El. destruct (duty_refines _ _ _ _ Ha Hd Hs) as (α'&E&Hsim). exists α'.
  pose proof (in_code_awake _ _ _ wait_list Ha (du_sim _ _ Hd) Hcode eq_refl) as Hw.
  pose proof (kernel_sorted _ _ _ Hs ltac:(done) Ht El (du_sorted _ _ Hd)) as Hsort.
  destruct (du_sem _ _ Hd) as [k Hk]. destruct (duty_count _ _ _ Hd Hk) as (Hk01&_&_).
  simpl in E. rewrite (sim_current _ _ (du_sim _ _ Hd)), (proj1 Hcode) in E. cbn [mbind option_bind] in E.
  unfold acall in E. destruct (a_tasks (ak α) !! timer_task_tcb) as [c|] eqn:Ec; [|done].
  cbn [mbind option_bind] in E. rewrite Hk in E. cbn [mbind option_bind count max_count] in E.
  assert (∀ α' : akernel, timer_task_tcb ∉ a_waiting α' wait_list →
    covered (with_svc Expiring (with_core σ' a)) α') as Hawake by (intros; right; right; by apply covers_awake).
  destruct (Z.ltb_spec 0 k) as [Hpos|Hzero]; [|destruct (Z.eqb_spec w NIMBLE_NO_WAIT) as [->|Hw0]];
    injection E as <-.
  - split; try done; [| |by apply Hawake].
    + eexists. simpl. by rewrite lookup_insert_eq.
    + apply Hd.
  - split; try done; [by eexists|apply Hd|by apply Hawake].
  - assert (a_waiting (ak α) wait_list = []) as Enil.
    { destruct (a_waiting (ak α) wait_list) as [|u us] eqn:Eu; [done|exfalso].
      assert (u = timer_task_tcb) as -> by (apply (du_only _ _ Hd); rewrite Eu; left).
      apply Hw. left. }
    split; simpl; try done.
    + by exists k.
    + intros u. rewrite update_eq, Enil. by intros ->%list_elem_of_singleton.
    + intros _. split; [done|]. left. rewrite <- (sim_phase _ _ timer_task_tcb Hsim). unfold a_phase.
      simpl. by rewrite lookup_insert_eq.
    + destruct (du_covered _ _ Hd) as [Hn|[Hk1|Hc]]; [by left|rewrite Hk in Hk1; injection Hk1; lia|right; right].
      intros n. simpl. rewrite El. intros Hn. split; [done|]. intros _.
      destruct (Hc n Hn) as [Hcw _]. destruct (Hcw w Hsv) as [Hr Hle].
      rewrite (kernel_remaining _ _ _ _ Hs) by done. unfold blocked_tcb.
      rewrite (proj2 (Z.eqb_neq w NIMBLE_WAIT_FOREVER)) by (unfold NIMBLE_WAIT_FOREVER; lia).
      split; [apply elem_of_app; right; left|]. eexists. split; [apply lookup_insert_eq|]. simpl.
      replace (i32 (u32 (a_now (ak α) + w) - a_now (ak α))) with w; [unfold NIMBLE_NO_WAIT in *; lia|].
      rewrite <- i32_u32, u32_sub_l, i32_u32. rewrite <- (i32_small w) at 1 by lia. f_equal. lia.
Qed.

(** The give: the service is woken, or finds the unit. *)
Lemma duty_notify a α t σ' :
  tinv a → duty a α → in_code a t → step (core a) (ECall (CGive timer_wake_sem)) σ' →
  timers_kept (ks (core a)) (ks σ') → tlist (ks σ') = tlist (ks (core a)) →
  ∃ α', duty (with_cont t CNone (with_core σ' a)) α'.
Proof.
  intros Ha Hd Hcode Hs Ht El. destruct (duty_refines _ _ _ _ Ha Hd Hs) as (α'&E&Hsim). exists α'.
  pose proof (kernel_sorted _ _ _ Hs ltac:(done) Ht El (du_sorted _ _ Hd)) as Hsort.
  destruct (du_sem _ _ Hd) as [k Hk]. destruct (duty_count _ _ _ Hd Hk) as (Hk01&_&Hnd).
  simpl in E. rewrite (sim_current _ _ (du_sim _ _ Hd)), (proj1 Hcode) in E. cbn [mbind option_bind] in E.
  unfold acall in E. destruct (a_tasks (ak α) !! t) as [c|] eqn:Ec; [|done].
  cbn [mbind option_bind] in E. unfold a_give, a_wake in E. rewrite Hk in E.
  cbn [mbind option_bind count max_count] in E.
  pose proof (du_only _ _ Hd) as Honly. pose proof (du_asleep _ _ Hd) as Hasl.
  destruct (a_waiting (ak α) wait_list) as [|u us] eqn:Eu; cbn [mbind option_bind] in E.
  - injection E as <-. split; simpl; try done; rewrite ?Eu; try done.
    + eexists. by rewrite lookup_insert_eq.
    + intros ?%elem_of_nil. done.
    + right; left. simpl. rewrite lookup_insert_eq. do 2 f_equal. lia.
  - assert (u = timer_task_tcb) as -> by (apply Honly; left).
    destruct us as [|v us].
    2: { exfalso. assert (v = timer_task_tcb) as -> by (apply Honly; right; left).
         apply NoDup_cons in Hnd as [Hnd _]. apply Hnd. left. }
    destruct (a_tasks (ak α) !! timer_task_tcb) as [ct|]; [|done]. cbn [mbind option_bind] in E. injection E as <-.
    split; simpl; try done; rewrite ?update_eq; try (by intros ?%elem_of_nil); try (by intros ? ?%elem_of_nil).
    + by exists k.
    + right; right. apply covers_awake; simpl; [|rewrite update_eq; apply not_elem_of_nil].
      destruct (Hasl ltac:(left)) as [-> _]. done.
Qed.

(** Any other event of the kernel. *)
Lemma foreign_other σ e : is_Some (semaphores (ks σ) !! timer_wake_sem) →
  enabled e σ → foreign e → other_event timer_wake_sem e.
Proof.
  intros Hsem He Hf. destruct e as [cl|[m|y i n|q b size cap]| | | | |y|q item]; try done.
  destruct He as (_&_&_&_&Ho). simpl. intros ->. destruct Hsem as [? Hsem]. simpl in Ho. destruct Ho as (Ho&_).
  by rewrite Hsem in Ho.
Qed.

(** A sleeping service does not resume. *)
Lemma asleep_not_resumed a α e :
  tinv a → simulates (core a) α → timer_task_tcb ∈ a_waiting (ak α) wait_list → enabled e (core a) →
  e = EResume → nimble_current_tcb (ks (core a)) ≠ Some timer_task_tcb.
Proof.
  intros Ha Hα Hin He -> Hcur. destruct He as (u&p&Hu&Hp&Hph). assert (u = timer_task_tcb) as -> by congruence.
  destruct (sv_current _ (tv_sys _ Ha)) as (u&Hu'&Hrun). assert (u = timer_task_tcb) as -> by congruence.
  destruct Hrun as (c&Hc&Hs); [done|congruence|]. by eapply (running_free _ _ _ _ wait_list) in Hs as [_ []].
Qed.

Lemma tick_or_not e : e = ETick ∨ e ≠ ETick ∧ is_tick (TKernel e) = false.
Proof. by destruct e; auto. Qed.

(** A tick brings every deadline one nearer. *)
Lemma event_remaining a σ' e n :
  tinv a → step (core a) e σ' → timers_kept (ks (core a)) (ks σ') →
  n ∈ tlist (ks (core a)) → timely a →
  remaining (ks σ') n = remaining (ks (core a)) n - if is_tick (TKernel e) then 1 else 0.
Proof.
  intros Ha Hs Ht Hn Hw. destruct (tick_or_not e) as [->|[Hne Hk]].
  - specialize (Hw n Hn). inversion Hs as [? ? ? _ E]; subst.
    destruct (tv_sys _ Ha) as [(X&L&HI) _ _]. pose proof (systick_spec (X := X) _ _ HI) as Hwp.
    apply wp_exec_run in Hwp as ([]&s'&Er&_&_&_&_&Eg&_&_&_&ET&_). unfold exec in E. rewrite Er in E.
    injection E as <-. simpl in *. unfold remaining in *. rewrite Eg.
    assert (expiry_of s' n = expiry_of (ks (core a)) n) as -> by (destruct n; simpl; by rewrite ?ET).
    apply i32_tick. lia.
  - rewrite (kernel_remaining _ _ _ _ Hs) by done. rewrite Hk. lia.
Qed.

Lemma event_sorted a α σ' e :
  tinv a → duty a α → timely a → step (core a) e σ' → timers_kept (ks (core a)) (ks σ') →
  tlist (ks σ') = tlist (ks (core a)) → expiry_sorted (ks σ') (tlist (ks σ')).
Proof.
  intros Ha Hd Hw Hs Ht El. rewrite El. eapply sorted_ext; [|apply Hd].
  intros n Hn. by eapply event_remaining.
Qed.

(** The sleep of a service that is not disturbed. *)
Lemma sleep_lasts a α α' σ' e :
  tinv a → duty a α → timely a → step (core a) e σ' → timers_kept (ks (core a)) (ks σ') →
  tlist (ks σ') = tlist (ks (core a)) → simulates σ' α' → aexec e α = Some α' →
  undisturbed timer_wake_sem timer_task_tcb (ak α) (ak α') → sleep_covers a (ak α) →
  sleep_covers (with_late (tick_late e a) (with_core σ' a)) (ak α').
Proof.
  intros Ha Hd Hw Hs Ht El Hsim E Hun Hc n. simpl. rewrite El. intros Hn.
  rewrite (event_remaining _ _ _ _ Ha Hs Ht Hn Hw). destruct (Hc n Hn) as [H1 H2]. split.
  - intros w Hsv. destruct (H1 w Hsv). split; [done|]. destruct e; simpl; rewrite ?Hsv; lia.
  - intros Hin. destruct (ud_sleep _ _ _ _ Hun Hin) as [Esl Ewt]. pose proof (ud_waiting _ _ _ _ Hun _ Hin) as Hin0.
    destruct (H2 Hin0) as (Hsl&c&Hcc&Hlt). destruct (du_asleep _ _ Hd Hin0) as [Hsv _].
    split; [by apply Esl|]. rewrite Hcc in Ewt. simpl in Ewt. apply fmap_Some in Ewt as (c'&Hc'&Ew).
    exists c'. split; [done|]. rewrite <- Ew. destruct (tick_or_not e) as [->|[Hne Hk]].
    + injection E as <-. simpl in *. rewrite Hsv.
      pose proof (proj2 (tick_undisturbed timer_wake_sem timer_task_tcb (ak α)) c Hin Hsl Hcc) as He.
      pose proof (not_expired_left _ _ (proj1 Hlt) He). rewrite i32_tick; lia.
    + destruct Hsim as [(X&L&_&Ha') _], (du_sim _ _ Hd) as [(Y&L2&_&Ha2) _]. inversion Hs; subst.
      rewrite (ab_now _ _ _ Ha'), (exec_now e (core a) σ'), <- (ab_now _ _ _ Ha2) by done.
      rewrite Hk. destruct e; try done; simpl; lia.
Qed.

Lemma duty_kernel a α e σ' :
  tinv a → duty a α → timely a → foreign e → step (core a) e σ' →
  timers_kept (ks (core a)) (ks σ') → tlist (ks σ') = tlist (ks (core a)) →
  ∃ α', duty (with_late (tick_late e a) (with_core σ' a)) α'.
Proof.
  intros Ha Hd Hw Hf Hs Ht El. destruct (duty_refines _ _ _ _ Ha Hd Hs) as (α'&E&Hsim). exists α'.
  pose proof (event_sorted _ _ _ _ Ha Hd Hw Hs Ht El) as Hsort. inversion Hs as [? ? ? He Ee]; subst.
  pose proof (du_sim _ _ Hd) as Hα.
  assert (undisturbed timer_wake_sem timer_task_tcb (ak α) (ak α')) as Hun.
  { eapply aexec_undisturbed, E; [by eapply foreign_other; [apply Ha|..]|by eapply sim_one_wait|].
    intros cl -> Hcur Hin. destruct (du_asleep _ _ Hd Hin) as [_ Hph]. destruct He as (u&Hu&_&_&Hph'&_).
    rewrite (sim_current _ _ Hα), Hu in Hcur. injection Hcur as ->. rewrite Hph' in Hph. by destruct Hph. }
  split; try done.
  - rewrite (ud_sem _ _ _ _ Hun). apply Hd.
  - intros u Hin. eapply du_only, (ud_waiting _ _ _ _ Hun); [done|exact Hin].
  - intros Hin. apply (ud_waiting _ _ _ _ Hun) in Hin. destruct (du_asleep _ _ Hd Hin) as [Hsv Hph].
    split; [done|]. eapply exec_phase; [exact Ee|done..|]. by eapply asleep_not_resumed.
  - destruct (du_covered _ _ Hd) as [Hn|[Hk|Hc]]; [by left|right; left|right; right].
    + by rewrite (ud_sem _ _ _ _ Hun).
    + by eapply sleep_lasts.
Qed.

Lemma duty_awake a α v :
  tinv a → duty a α → in_code a timer_task_tcb → (∀ w, v ≠ Waiting w) → duty (with_svc v a) α.
Proof.
  intros Ha Hd Hcode Hv. pose proof (duty_service a α (ks (core a)) v Ha Hd Hcode Hv (λ _ Hr, Hr) (du_sorted _ _ Hd)) as H.
  by destruct a as [[] ? ? ?].
Qed.

Lemma duty_step a α (e : tevent) a' :
  tinv a → duty a α → timely a → timely a' → tstep a e a' → ∃ α', duty a' α'.
Proof.
  intros Ha Hd Hw Hw' Hs. destruct (tstep_effect _ _ _ Ha Hs) as
    [e σ' Hst Hf Ht El|e t x tm s' _ _ Hno _ Hin Hun Hpl _|e s' C _ Hin Hun Hth _ HC|t σ' Hcode _ Hst Ht El|
     Hcode _|w σ' Hcode Hsv Hst Ht El|Hcode _ _|x ys tm s' v Hcode _ Hv _ _ (_&_&_&Eg&_) Hun Hpl _|Hcode _].
  - by eapply duty_kernel.
  - exists α. by apply duty_start.
  - exists α. by apply duty_quiet.
  - by eapply duty_notify.
  - exists α. by apply duty_compute.
  - by eapply duty_take.
  - exists α. by apply duty_awake.
  - exists α. apply duty_service; try done.
    destruct Hpl; [eapply thinned_sorted|eapply placed_sorted]; try done; apply Hd.
  - exists α. by apply duty_awake.
Qed.

Definition duteous a : Prop := ∃ α, duty a α.

Lemma duty_run a es a' :
  tinv a → duteous a → trun a es a' → (∀ b k, (b, k) ∈ es → timely b) → timely a' → tinv a' ∧ duteous a'.
Proof.
  intros Ha Hd Hr. induction Hr as [a|a e a1 es a' Hs Hr IH]; intros Hw Hw'; [done|].
  assert (timely a) as Hwa by (eapply Hw; left). assert (timely a1) as Hw1.
  { inversion Hr; subst; [done|]. eapply Hw. right. left. }
  apply IH; [by eapply tstep_inv| |intros; eapply Hw; by right|done].
  destruct Hd as [α Hd]. by eapply duty_step.
Qed.

(** While the service sleeps and nobody is about to wake it, no timer is
    overdue by more than its lateness. *)
Lemma duty_due a n :
  duteous a → NEvent timer_task_tcb ∈ default [] (contents (nodes (ks (core a))) wait_list) →
  (∀ t, cont_of a t ≠ CNotify) → n ∈ tlist (ks (core a)) → - late a < remaining (ks (core a)) n.
Proof.
  intros [α Hd] Hin Hno Hn. pose proof (du_sim _ _ Hd) as [(X&L&HI&Ha) _].
  destruct (du_sem _ _ Hd) as [k Hk]. destruct (duty_count _ _ _ Hd Hk) as (_&H0&_).
  assert (timer_task_tcb ∈ a_waiting (ak α) wait_list) as Hwt.
  { pose proof Hk as Hk'. rewrite (ab_semaphores _ _ _ Ha) in Hk'.
    destruct (oo_sem _ _ (ki_objects _ _ HI) _ _ Hk') as [Hl _ _ _].
    pose proof (ab_waiting _ _ _ Ha wait_list eq_refl) as Ew. apply get_list_Some in Hl. rewrite Ew in Hl.
    rewrite (contents_spec _ L wait_list _ (si_repr _ _ _ (ki_sched _ _ (ki_core _ _ HI))) Hl) in Hin. simpl in Hin.
    by apply list_elem_of_fmap in Hin as (u&[= <-]&?). }
  destruct (du_covered _ _ Hd) as [[u Hu]|[Hk1|Hc]]; [by destruct (Hno u)|..].
  - exfalso. rewrite Hk in Hk1. injection Hk1 as ->. assert (1 = 0); [|done]. apply H0. intros E.
    by rewrite E in Hwt; apply elem_of_nil in Hwt.
  - destruct (proj2 (Hc n Hn) Hwt) as (_&c&_&Hlt). lia.
Qed.
End mode.
