(* ===== verification/Inheritance.v ===== *)
(** * Priority inheritance under a discipline

    A lock that raises a READY owner leaves bits of empty lists behind, and a
    switch that finds such a bit highest is undefined.  Tasks that use one
    mutex, wait for it without a timeout and never block while they own it
    cannot bring that about: every stale bit is covered by a task that the
    switch will find at or above it.  Proved on the abstract machine, whose
    steps tell which bits become stale ([settled_event]). *)
From S2P Require Import Prelude DList Kernel Scheduler SchedInv SchedSpec WaitList KernelInv.
From S2P Require Import TaskSpec.
From S2P Require Import Mutex System Abstract.
From S2P Require Import Ring Refinement Simulation Delivery Waiting.
From stdpp Require Import sorting options.

Open Scope Z_scope.

#[local] Existing Instance inherit.

Implicit Types (h : nid) (t u w o : nat) (p q r : Z) (c : nimble_tcb) (a : akernel) (σ : sys)
  (α : asys) (e : event) (X : Z → Prop).

(** ** What the kernel's invariant says of the abstract state *)

Record a_wf a : Prop := {
  aw_ready t p c : 0 ≤ p < 32 → t ∈ a_ready a p → a_tasks a !! t = Some c →
    state c = NIMBLE_TASK_READY ∧ base_priority c ≤ p ≤ priority c;
  aw_ready_nodup p : 0 ≤ p < 32 → NoDup (a_ready a p);
  aw_ready_unique t p q : 0 ≤ p < 32 → 0 ≤ q < 32 → t ∈ a_ready a p → t ∈ a_ready a q → p = q;
  aw_running t c : a_tasks a !! t = Some c → state c = NIMBLE_TASK_RUNNING → a_current a = Some t;
  aw_wait h t : is_wait h = true → t ∈ a_waiting a h →
    ∃ c, a_tasks a !! t = Some c ∧ state c = NIMBLE_TASK_BLOCKED;
  aw_wait_one t : one_wait t a;
  aw_wait_nodup h : is_wait h = true → NoDup (a_waiting a h);
  aw_wait_sorted h w ws u : is_wait h = true → a_waiting a h = w :: ws → u ∈ ws →
    a_prio a u ≤ a_prio a w;
  aw_sleeping t c : t ∈ a_sleeping a → a_tasks a !! t = Some c → state c = NIMBLE_TASK_BLOCKED;
  aw_free m mu : a_mutexes a !! m = Some mu → owner mu = None → a_waiting a (NMutex m) = [];
  aw_owner m mu o : a_mutexes a !! m = Some mu → owner mu = Some o →
    is_Some (a_tasks a !! o) ∧ o ∉ a_waiting a (NMutex m);
  aw_prio t c : a_tasks a !! t = Some c → 0 ≤ priority c < 32;
  aw_raised t c : a_tasks a !! t = Some c → base_priority c ≤ priority c;
}.

Lemma refines_wf X s a : refines_at X s a → a_wf a.
Proof.
  intros (L&HI&Ha). pose proof (ki_core _ _ HI) as HC. pose proof (ki_sched _ _ HC) as HS.
  pose proof (ki_objects _ _ HI) as [HM _ _].
  assert (∀ t c, a_tasks a !! t = Some c → task_inv (nimble_current_tcb s) L t c) as Hti.
  { intros t c Hc. rewrite (ab_tasks _ _ _ Ha) in Hc. by apply (si_task _ _ _ HS). }
  assert (∀ h, is_Some (L !! h) → NoDup (get_list L h)) as Hnd.
  { intros h Hh. eapply repr_nodup, get_list_Some, Hh. apply HS. }
  split.
  - intros t p c Hp Hin Hc. eapply ab_on_ready in Hin; [|done..].
    by apply (ti_ready _ _ _ _ (Hti t c Hc)) in Hin as [? [? _]].
  - intros p Hp. apply (NoDup_fmap_1 NLink). rewrite <- (ab_ready _ _ _ Ha) by done.
    by apply Hnd, (si_ready _ _ _ HS).
  - intros t p q Hp Hq Hin Hin'. enough (NReady p = NReady q) by congruence.
    eapply on_unique; [apply HS|by eapply ab_on_ready..].
  - intros t c Hc Hs. rewrite (ab_current _ _ _ Ha). by apply (ti_running _ _ _ _ (Hti t c Hc)).
  - intros h t Hw Hin. eapply ab_on_wait in Hin; [|done..].
    pose proof (si_typed _ _ _ HS _ _ Hin) as Hty.
    assert (is_Some (tcbs s !! t)) as [c Hc] by (destruct h; try done; by destruct Hty).
    exists c. rewrite (ab_tasks _ _ _ Ha). split; [done|].
    apply (ti_wait _ _ _ _ (Hti t c ltac:(by rewrite (ab_tasks _ _ _ Ha))) h Hw Hin).
  - intros t. apply (refines_one_wait s). by exists X, L.
  - intros h Hw. apply (NoDup_fmap_1 NEvent). rewrite <- (ab_waiting _ _ _ Ha) by done.
    unfold get_list. destruct (L !! h) as [xs|] eqn:E; [|constructor]. by eapply repr_nodup; [apply HS|].
  - intros h w ws u Hw Eh Hu. pose proof (ki_sorted _ _ HC h eq_refl Hw) as Hs.
    rewrite (ab_waiting _ _ _ Ha h Hw), Eh in Hs. apply StronglySorted_inv in Hs as [_ Hall].
    rewrite Forall_forall in Hall. rewrite !(a_prio_of s L) by done. apply Hall.
    by apply list_elem_of_fmap_2.
  - intros t c Hin Hc. apply (ti_delayed _ _ _ _ (Hti t c Hc)). apply elem_of_get_list.
    rewrite (ab_sleeping _ _ _ Ha). by apply list_elem_of_fmap_2.
  - intros m mu Hm Ho. rewrite (ab_mutexes _ _ _ Ha) in Hm. pose proof (mo_free _ _ _ _ (HM m mu Hm) Ho) as E.
    rewrite (ab_waiting _ _ _ Ha) in E by done. by apply fmap_nil_inv in E.
  - intros m mu o Hm Ho. rewrite (ab_mutexes _ _ _ Ha) in Hm.
    destruct (mo_owner _ _ _ _ (HM m mu Hm) o Ho) as [? Hn]. rewrite (ab_tasks _ _ _ Ha).
    split; [done|]. contradict Hn. rewrite (ab_waiting _ _ _ Ha) by done. by apply list_elem_of_fmap_2.
  - intros t c Hc. rewrite (ab_tasks _ _ _ Ha) in Hc. by eapply si_prio.
  - intros t c Hc. apply (ti_raised _ _ _ _ (Hti t c Hc)).
Qed.

(** ** Covered bits *)

Section discipline.
Context (m : nat).

Definition waiters a : list tid := a_waiting a (NMutex m).

(** The priorities that the owner of [m] has a reason to have. *)
Definition reason a c r : Prop :=
  r = base_priority c ∨ ∃ w cw, w ∈ waiters a ∧ a_tasks a !! w = Some cw ∧ base_priority cw = r.

(** What the switch will find at [r] or above: the running task, of base
    priority [r], or the owner, raised from [r] or on behalf of [r]. *)
Definition covers a r : Prop :=
  (∃ t c, a_tasks a !! t = Some c ∧ state c = NIMBLE_TASK_RUNNING ∧
     priority c = r ∧ base_priority c = r) ∨
  (∃ o c, a_owner m a = Some o ∧ a_tasks a !! o = Some c ∧ reason a c r ∧
     (state c = NIMBLE_TASK_RUNNING ∧ r ≤ priority c ∨ ∃ p, r ≤ p < 32 ∧ o ∈ a_ready a p)).

Record covered X a : Prop := {
  cv_raised t c : a_tasks a !! t = Some c → priority c ≠ base_priority c → a_owner m a = Some t;
  cv_owner o : a_owner m a = Some o → ∃ c, a_tasks a !! o = Some c ∧
    (state c = NIMBLE_TASK_READY ∨ state c = NIMBLE_TASK_RUNNING) ∧ reason a c (priority c) ∧
    ∀ p, 0 ≤ p < 32 → o ∈ a_ready a p → reason a c p;
  cv_waiter w : w ∈ waiters a → w ∉ a_sleeping a;
  cv_cover r : 0 ≤ r < 32 → X r → a_ready a r = [] → covers a r;
}.

(** ** Changes that keep the cover *)

Record kept X X' a a' : Prop := {
  kp_owner : a_owner m a' = a_owner m a;
  kp_waiters w : w ∈ waiters a → w ∈ waiters a';
  kp_asleep : (∀ w, w ∈ waiters a → w ∉ a_sleeping a) → ∀ w, w ∈ waiters a' → w ∉ a_sleeping a';
  kp_prios t : (λ c, (priority c, base_priority c)) <$> a_tasks a' !! t =
               (λ c, (priority c, base_priority c)) <$> a_tasks a !! t;
  kp_owner_task o : a_owner m a = Some o → a_tasks a' !! o = a_tasks a !! o;
  kp_owner_ready o p : a_owner m a = Some o → 0 ≤ p < 32 → o ∈ a_ready a' p ↔ o ∈ a_ready a p;
  kp_running t c : a_tasks a !! t = Some c → state c = NIMBLE_TASK_RUNNING →
    a_tasks a' !! t = Some c ∨ ¬ X' (priority c);
  kp_ready p : a_ready a' p = [] → a_ready a p = [];
  kp_stale r : X' r → X r;
}.

Lemma kept_trans X1 X2 X3 a1 a2 a3 : kept X1 X2 a1 a2 → kept X2 X3 a2 a3 → kept X1 X3 a1 a3.
Proof using.
  intros H1 H2. pose proof (kp_owner _ _ _ _ H1) as Eo. split.
  - by rewrite (kp_owner _ _ _ _ H2).
  - intros w ?. by apply (kp_waiters _ _ _ _ H2), (kp_waiters _ _ _ _ H1).
  - intros ?. by apply (kp_asleep _ _ _ _ H2), (kp_asleep _ _ _ _ H1).
  - intros t. by rewrite (kp_prios _ _ _ _ H2), (kp_prios _ _ _ _ H1).
  - intros o Ho. rewrite (kp_owner_task _ _ _ _ H2) by congruence. by apply H1.
  - intros o p Ho Hp. rewrite (kp_owner_ready _ _ _ _ H2) by (done || congruence). by apply H1.
  - intros t c Hc Hs. destruct (kp_running _ _ _ _ H1 t c Hc Hs) as [Hc'|Hn].
    + by apply (kp_running _ _ _ _ H2).
    + right. contradict Hn. by apply (kp_stale _ _ _ _ H2).
  - intros p ?. by apply (kp_ready _ _ _ _ H1), (kp_ready _ _ _ _ H2).
  - intros r ?. by apply (kp_stale _ _ _ _ H1), (kp_stale _ _ _ _ H2).
Qed.

(** Components that do not matter. *)
Lemma kept_view X a a' :
  a_tasks a' = a_tasks a → a_ready a' = a_ready a → a_sleeping a' = a_sleeping a →
  waiters a' = waiters a → a_owner m a' = a_owner m a → kept X X a a'.
Proof using. intros E1 E2 E3 E4 E5. split; rewrite ?E1, ?E2, ?E3, ?E4; auto. Qed.

Lemma kept_refl X a : kept X X a a.
Proof using. by apply kept_view. Qed.

Lemma kept_prio X X' a a' t c :
  kept X X' a a' → a_tasks a !! t = Some c →
  ∃ c', a_tasks a' !! t = Some c' ∧ priority c' = priority c ∧ base_priority c' = base_priority c.
Proof using.
  intros Hk Hc. pose proof (kp_prios _ _ _ _ Hk t) as E. rewrite Hc in E.
  destruct (a_tasks a' !! t) as [c'|]; [|done]. injection E as ? ?. by exists c'.
Qed.

Lemma kept_prio' X X' a a' t c' :
  kept X X' a a' → a_tasks a' !! t = Some c' →
  ∃ c, a_tasks a !! t = Some c ∧ priority c' = priority c ∧ base_priority c' = base_priority c.
Proof using.
  intros Hk Hc. pose proof (kp_prios _ _ _ _ Hk t) as E. rewrite Hc in E.
  destruct (a_tasks a !! t) as [c|]; [|done]. injection E as ? ?. by exists c.
Qed.

Lemma kept_reason X X' a a' c r : kept X X' a a' → reason a c r → reason a' c r.
Proof using.
  intros Hk [?|(w&cw&Hw&Hc&E)]; [by left|right].
  destruct (kept_prio _ _ _ _ _ _ Hk Hc) as (c'&?&_&?). exists w, c'.
  split; [by apply (kp_waiters _ _ _ _ Hk)|]. split; [done|congruence].
Qed.

Lemma kept_covered X X' a a' : kept X X' a a' → covered X a → covered X' a'.
Proof using.
  intros Hk [Hr Ho Hw Hcov]. pose proof (kp_owner _ _ _ _ Hk) as Eo. split.
  - intros t c' Hc' Hne. destruct (kept_prio' _ _ _ _ _ _ Hk Hc') as (c&Hc&?&?).
    rewrite Eo. apply (Hr t c); [done|congruence].
  - intros o. rewrite Eo. intros Eown. destruct (Ho o Eown) as (c&Hc&Hs&Hre&Hl). exists c.
    rewrite (kp_owner_task _ _ _ _ Hk) by done. do 2 (split; [done|]).
    split; [by eapply kept_reason|]. intros p Hp. rewrite (kp_owner_ready _ _ _ _ Hk) by done.
    intros Hin. eapply kept_reason; eauto.
  - by apply (kp_asleep _ _ _ _ Hk).
  - intros r Hr32 HX He. apply (kp_stale _ _ _ _ Hk) in HX as HX0. apply (kp_ready _ _ _ _ Hk) in He.
    destruct (Hcov r Hr32 HX0 He) as [(t&c&Hc&Hs&Ep&Eb)|(o&c&Eown&Hc&Hre&Hat)].
    + left. destruct (kp_running _ _ _ _ Hk t c Hc Hs) as [?|Hn]; [by exists t, c|].
      by rewrite Ep in Hn.
    + right. exists o, c. rewrite Eo. split; [done|]. rewrite (kp_owner_task _ _ _ _ Hk) by done.
      split; [done|]. split; [by eapply kept_reason|]. destruct Hat as [?|(p&Hp&Hin)]; [by left|right].
      exists p. split; [done|]. apply (kp_owner_ready _ _ _ _ Hk); [done| |done]. lia.
Qed.

(** ** Events that keep the cover *)

Section keep.
Context (X : Z → Prop) (a : akernel).
Context (Hwf : a_wf a) (Hcov : covered X a).

(** The owner runs or is READY, so it waits for nothing. *)
Lemma owner_awake o h : a_owner m a = Some o → is_wait h = true → (o ∉ a_waiting a h) ∧ o ∉ a_sleeping a.
Proof using Hwf Hcov.
  intros Ho Hw. destruct (cv_owner _ _ Hcov o Ho) as (c&Hc&Hs&_). split.
  - intros Hin. destruct (aw_wait _ Hwf h o Hw Hin) as (c'&Hc'&?).
    assert (c' = c) as -> by congruence. destruct Hs; congruence.
  - intros Hin. pose proof (aw_sleeping _ Hwf o c Hin Hc). destruct Hs; congruence.
Qed.

Lemma running_awake t c h :
  a_tasks a !! t = Some c → state c = NIMBLE_TASK_RUNNING → is_wait h = true →
  (t ∉ a_waiting a h) ∧ t ∉ a_sleeping a.
Proof using Hwf.
  intros Hc Hs Hw. split.
  - intros Hin. destruct (aw_wait _ Hwf h t Hw Hin) as (c'&Hc'&?). congruence.
  - intros Hin. pose proof (aw_sleeping _ Hwf t c Hin Hc). congruence.
Qed.

Lemma prios_put (T : gmap nat nimble_tcb) t c c' :
  T !! t = Some c → priority c' = priority c → base_priority c' = base_priority c →
  ∀ u, (λ c, (priority c, base_priority c)) <$> <[t := c']> T !! u =
       (λ c, (priority c, base_priority c)) <$> T !! u.
Proof using.
  intros Ht Ep Eb u. destruct (decide (u = t)) as [->|]; [|by rewrite lookup_insert_ne].
  rewrite lookup_insert_eq, Ht. simpl. congruence.
Qed.

(** Waking a task that waits for another object. *)
Lemma wake_kept h (ow : option tid) a' :
  is_wait h = true → h ≠ NMutex m → a_wake h a = Some (ow, a') → kept X X a a'.
Proof using Hwf Hcov.
  intros Hw Hne E. unfold a_wake in E. destruct (a_waiting a h) as [|u ws] eqn:Eh.
  { injection E as _ <-. apply kept_refl. }
  assert (u ∈ a_waiting a h) as Hu by (rewrite Eh; left).
  destruct (aw_wait _ Hwf h u Hw Hu) as (c&Hc&Hs). rewrite Hc in E. injection E as _ <-.
  assert (∀ o, a_owner m a = Some o → o ≠ u) as Hou.
  { intros o Ho ->. by destruct (owner_awake u h Ho Hw) as [? _]. }
  split; simpl; try done.
  - intros v Hv. unfold waiters in *. simpl. by rewrite update_ne.
  - intros Hsl v Hv. unfold waiters in *. simpl in Hv. rewrite update_ne in Hv by done.
    rewrite elem_of_without. intros [_ ?]. by eapply Hsl.
  - intros t. by apply (prios_put _ _ c).
  - intros o Ho. rewrite lookup_insert_ne; [done|]. intros ->. by eapply Hou.
  - intros o p Ho Hp. unfold update. case_decide as Ep; [|done]. subst p.
    rewrite elem_of_app, list_elem_of_singleton. split; [|by left].
    intros [?| ->]; [done|]. by destruct (Hou u Ho).
  - intros t ct Ht Hst. left. rewrite lookup_insert_ne; [done|]. intros ->. congruence.
  - intros p. unfold update. case_decide; [|done]. by intros [_ ?]%app_nil.
Qed.

(** The running task, not the owner, blocks. *)
Lemma block_kept h t c timeout :
  is_wait h = true → a_tasks a !! t = Some c → state c = NIMBLE_TASK_RUNNING →
  a_owner m a ≠ Some t → (h = NMutex m → timeout = NIMBLE_WAIT_FOREVER) →
  kept X (less_stale (priority c) X) a (a_block h t c timeout a).
Proof using Hwf Hcov.
  intros Hw Hc Hs Hno Hto. destruct (blocked_tcb_fields (a_now a) timeout c) as [Ep Eb].
  assert (∀ v, v ∈ waiters (a_block h t c timeout a) → v ∈ waiters a ∨ v = t ∧ h = NMutex m) as Hin.
  { intros v. unfold waiters; simpl. unfold update. case_decide as E; [subst|by left].
    rewrite line_up_perm, elem_of_cons. tauto. }
  split; simpl; try done.
  - intros v Hv. unfold waiters in *; simpl. unfold update. case_decide as E; [|done].
    subst. rewrite line_up_perm. by right.
  - intros Hsl v [Hv|[-> E]]%Hin.
    + assert (v ≠ t) as Hne.
      { intros ->. by destruct (running_awake t c (NMutex m) Hc Hs eq_refl) as [? _]. }
      specialize (Hsl v Hv). destruct (timeout =? NIMBLE_WAIT_FOREVER); [done|].
      rewrite elem_of_app, list_elem_of_singleton. naive_solver.
    + rewrite (Hto E). simpl. by apply (running_awake t c (NMutex m)).
  - intros u. by apply (prios_put _ _ c).
  - intros o Ho. rewrite lookup_insert_ne; [done|]. congruence.
  - intros u cu Hu Hsu. destruct (decide (u = t)) as [->|]; [right|left; by rewrite lookup_insert_ne].
    assert (cu = c) as -> by congruence. by intros [_ ?].
  - by intros r [? _].
Qed.

(** The running task, not the owner, goes to sleep. *)
Lemma delay_kept t c ticks :
  a_tasks a !! t = Some c → state c = NIMBLE_TASK_RUNNING → a_owner m a ≠ Some t →
  kept X (less_stale (priority c) X) a
    (put_task t (delayed_tcb (a_now a) ticks c) (with_sleeping (a_sleeping a ++ [t]) a)).
Proof using Hwf.
  intros Hc Hs Hno. destruct (running_awake t c (NMutex m) Hc Hs eq_refl) as [Hnw _].
  split; simpl; try done.
  - intros Hsl v Hv. rewrite elem_of_app, list_elem_of_singleton. intros [?| ->]; [|done].
    by eapply Hsl.
  - intros u. by apply (prios_put _ _ c).
  - intros o Ho. rewrite lookup_insert_ne; [done|]. congruence.
  - intros u cu Hu Hsu. destruct (decide (u = t)) as [->|]; [right|left; by rewrite lookup_insert_ne].
    assert (cu = c) as -> by congruence. by intros [_ ?].
  - by intros r [? _].
Qed.

Lemma tick_kept : kept X X a (a_tick a).
Proof using Hwf Hcov.
  unfold a_tick. set (a1 := with_now _ a).
  split; simpl; try done.
  - intros v Hv. unfold waiters in *; simpl. apply list_elem_of_filter. split; [|done].
    rewrite bool_decide_eq_false_2; [done|]. by apply (cv_waiter _ _ Hcov).
  - intros Hsl v. unfold waiters; simpl. rewrite !list_elem_of_filter. intros [_ Hv] [_ ?].
    by eapply Hsl.
  - intros t. rewrite map_lookup_imap. destruct (a_tasks a !! t) as [c|]; [|done]. simpl.
    by case_match.
  - intros o Ho. destruct (owner_awake o (NMutex m) Ho eq_refl) as [_ Hsl].
    rewrite map_lookup_imap. destruct (a_tasks a !! o) as [c|]; [|done]. simpl.
    by rewrite bool_decide_eq_false_2.
  - intros o p Ho _. destruct (owner_awake o (NMutex m) Ho eq_refl) as [_ Hsl].
    rewrite elem_of_app, list_elem_of_filter. tauto.
  - intros t c Hc Hs. left. destruct (running_awake t c (NMutex m) Hc Hs eq_refl) as [_ Hsl].
    rewrite map_lookup_imap, Hc. simpl. by rewrite bool_decide_eq_false_2.
  - by intros p [? _]%app_nil.
Qed.

(** A suspended task is made READY. *)
Lemma ready_kept t c :
  a_tasks a !! t = Some c → state c = NIMBLE_TASK_SUSPENDED → kept X X a (make_ready t c a).
Proof using Hcov.
  intros Hc Hs.
  assert (∀ o, a_owner m a = Some o → o ≠ t) as Hot.
  { intros o Ho ->. destruct (cv_owner _ _ Hcov t Ho) as (c'&Hc'&Hs'&_). destruct Hs'; congruence. }
  split; simpl; try done.
  - intros u. by apply (prios_put _ _ c).
  - intros o Ho. rewrite lookup_insert_ne; [done|]. intros ->. by eapply Hot.
  - intros o p Ho Hp. unfold update. case_decide as Ep; [|done]. subst p.
    rewrite elem_of_app, list_elem_of_singleton. split; [|by left].
    intros [?| ->]; [done|]. by destruct (Hot t Ho).
  - intros u cu Hu Hsu. left. rewrite lookup_insert_ne; [done|]. intros ->. congruence.
  - intros p. unfold update. case_decide; [|done]. by intros [_ ?]%app_nil.
Qed.
End keep.

(** ** Locking and unlocking *)

Lemma owner_insert a v : a_owner m (with_mutexes (<[m := v]> (a_mutexes a)) a) = owner v.
Proof using. unfold a_owner; simpl. by rewrite lookup_insert_eq. Qed.

Lemma covered_raised X a t c : covered X a → a_tasks a !! t = Some c → a_owner m a ≠ Some t →
  base_priority c = priority c.
Proof using.
  intros Hcov Hc Hno. destruct (decide (priority c = base_priority c)) as [|Hne]; [done|].
  by destruct Hno; apply (cv_raised _ _ Hcov t c).
Qed.

(** The running task takes the free mutex. *)
Lemma covered_acquire X a t c :
  a_wf a → covered X a → a_tasks a !! t = Some c → state c = NIMBLE_TASK_RUNNING →
  a_owner m a = None → covered X (with_mutexes (<[m := Mutex (Some t) 1]> (a_mutexes a)) a).
Proof using.
  intros Hwf Hcov Hc Hs Hno. set (a' := with_mutexes _ a).
  assert (a_owner m a' = Some t) as Eo by apply owner_insert. split.
  - intros u cu Hu Hne. simpl in Hu. pose proof (cv_raised _ _ Hcov u cu Hu Hne). congruence.
  - intros o Ho. assert (o = t) as -> by congruence. exists c. split; [done|]. split; [by right|]. split.
    + left. symmetry. apply (covered_raised X a t c Hcov Hc). congruence.
    + intros p Hp Hin. simpl in Hin. destruct (aw_ready _ Hwf t p c Hp Hin Hc). congruence.
  - apply (cv_waiter _ _ Hcov).
  - intros r Hr HX He. destruct (cv_cover _ _ Hcov r Hr HX He) as [?|(o&?&?&_)]; [by left|congruence].
Qed.

(** Reasons survive a change of a task that keeps its base priority. *)
Lemma reason_put a a' o co co' :
  a_tasks a !! o = Some co → base_priority co' = base_priority co →
  a_tasks a' = <[o := co']> (a_tasks a) → waiters a' = waiters a →
  ∀ c c' r, base_priority c' = base_priority c → reason a c r → reason a' c' r.
Proof using.
  intros Hco Eb ET Ew c c' r Ec [->|(w&cw&Hw&Hc&E)]; [by left|right].
  destruct (decide (w = o)) as [->|Hne].
  - exists o, co'. rewrite Ew, ET, lookup_insert_eq. do 2 (split; [done|]). congruence.
  - exists w, cw. rewrite Ew, ET, lookup_insert_ne; done.
Qed.

(** The owner is raised on behalf of a waiter. *)
Lemma covered_boost X a o co p :
  covered X a → a_owner m a = Some o → a_tasks a !! o = Some co → reason a co p →
  priority co < p → covered X (put_task o (set_priority p co) a).
Proof using.
  intros Hcov Ho Hco Hp Hlt. set (a' := put_task o (set_priority p co) a).
  assert (∀ c c' r, base_priority c' = base_priority c → reason a c r → reason a' c' r) as Hre
    by by eapply (reason_put a a' o co (set_priority p co)).
  assert (a_tasks a' !! o = Some (set_priority p co)) as Ho' by apply lookup_insert_eq.
  split.
  - intros t c Hc Hne. unfold a' in Hc; simpl in Hc.
    apply lookup_insert_Some in Hc as [[<- _]|[_ Hc]]; [done|]. by apply (cv_raised _ _ Hcov t c).
  - intros o' Ho2. change (a_owner m a = Some o') in Ho2. assert (o' = o) as -> by congruence.
    destruct (cv_owner _ _ Hcov o Ho) as (c&Hc&Hs&_&Hl). assert (c = co) as -> by congruence.
    exists (set_priority p co). do 2 (split; [done|]). split; [by eapply Hre|].
    intros q Hq Hin. eapply Hre, Hl; done.
  - apply (cv_waiter _ _ Hcov).
  - intros r Hr HX He. destruct (cv_cover _ _ Hcov r Hr HX He) as [(t&c&Hc&Hs&Ep&Eb)|(o'&c&Ho2&Hc&Hrea&Hat)].
    + destruct (decide (t = o)) as [->|Hne].
      * right. assert (c = co) as -> by congruence. exists o, (set_priority p co).
        do 2 (split; [done|]). split; [by left|]. left. split; [done|]. simpl. lia.
      * left. exists t, c. split; [|done]. unfold a'; simpl. by rewrite lookup_insert_ne.
    + right. assert (o' = o) as -> by congruence. assert (c = co) as -> by congruence.
      exists o, (set_priority p co). do 2 (split; [done|]). split; [by eapply Hre|].
      destruct Hat as [[? ?]|?]; [left|by right]. split; [done|]. simpl. lia.
Qed.

Lemma line_up_ext a a' p t ws :
  (∀ w, w ∈ ws → a_prio a' w = a_prio a w) → line_up a' p t ws = line_up a p t ws.
Proof using.
  induction ws as [|w ws IH]; intros Heq; [done|]. simpl. rewrite Heq by left.
  rewrite IH; [done|]. intros v Hv. apply Heq. by right.
Qed.

Lemma block_put h t c timeout a o co :
  o ≠ t → o ∉ a_waiting a h →
  a_block h t c timeout (put_task o co a) = put_task o co (a_block h t c timeout a).
Proof using.
  intros Hne Hn. unfold a_block; simpl. rewrite (line_up_ext a).
  - unfold put_task; simpl. unfold with_tasks; simpl. by rewrite insert_insert_ne.
  - intros w Hw. unfold a_prio; simpl. rewrite lookup_insert_ne; [done|]. by intros ->.
Qed.

Lemma lock_covered X a t c (o : outcome) a' :
  a_wf a → covered X a → a_tasks a !! t = Some c → state c = NIMBLE_TASK_RUNNING →
  acall t (CLock m NIMBLE_WAIT_FOREVER) a = Some (o, a') →
  covered (settled_by (CLock m NIMBLE_WAIT_FOREVER) c o X) a'.
Proof using.
  intros Hwf Hcov Hc Hs E. unfold acall in E. rewrite Hc in E. cbn [mbind option_bind] in E.
  destruct (a_mutexes a !! m) as [mu|] eqn:Em; [|done]. cbn [mbind option_bind] in E.
  assert (a_owner m a = owner mu) as Eo by (unfold a_owner; by rewrite Em).
  destruct (owner mu) as [v|] eqn:Ho.
  2: { injection E as <- <-. by eapply covered_acquire. }
  case_decide as Hv.
  { injection E as <- <-. eapply kept_covered, Hcov. apply kept_view; try done.
    rewrite owner_insert, Eo. simpl. congruence. }
  change (NIMBLE_WAIT_FOREVER =? NIMBLE_NO_WAIT) with false in E. cbv iota in E.
  destruct (a_tasks a !! v) as [co|] eqn:Ev; [|done]. cbn [mbind option_bind] in E. injection E as <- <-.
  assert (kept X (less_stale (priority c) X) a (a_block (NMutex m) t c NIMBLE_WAIT_FOREVER a)) as Hk
    by (apply block_kept; try done; congruence).
  pose proof (kept_covered _ _ _ _ Hk Hcov) as Hcov'. cbn [settled_by].
  destruct (Z.ltb_spec (priority co) (priority c)) as [Hlt|]; [|done].
  destruct (aw_owner _ Hwf m mu v Em Ho) as [_ Hn]. rewrite block_put by done.
  apply covered_boost; try done.
  - by rewrite (kp_owner_task _ _ _ _ Hk).
  - right. eexists t, _. split; [unfold waiters; simpl; rewrite update_eq, line_up_perm; left|].
    split; [apply lookup_insert_eq|]. rewrite (proj2 (blocked_tcb_fields _ _ c)).
    apply (covered_raised X a t c Hcov Hc). congruence.
Qed.

(** The owner gives the mutex up; nobody waits. *)
Lemma covered_release X a t c n :
  covered X a → a_tasks a !! t = Some c → state c = NIMBLE_TASK_RUNNING → a_owner m a = Some t →
  waiters a = [] →
  covered X (with_mutexes (<[m := Mutex None n]> (a_mutexes a))
               (put_task t (set_priority (base_priority c) c) a)).
Proof using.
  intros Hcov Hc Hs Ho Hw. set (a1 := put_task _ _ a). set (a' := with_mutexes _ a1).
  assert (a_owner m a' = None) as Eo by apply (owner_insert a1).
  assert (a_tasks a' !! t = Some (set_priority (base_priority c) c)) as Ht by apply lookup_insert_eq.
  split.
  - intros u cu Hu Hp. unfold a', a1 in Hu; simpl in Hu.
    apply lookup_insert_Some in Hu as [[<- <-]|[Hne Hu]]; [done|].
    pose proof (cv_raised _ _ Hcov u cu Hu Hp). congruence.
  - congruence.
  - apply (cv_waiter _ _ Hcov).
  - intros r Hr HX He. left.
    destruct (cv_cover _ _ Hcov r Hr HX He) as [(u&cu&Hu&Hsu&Ep&Eb)|(o&co&Ho'&Hco&Hre&_)].
    + destruct (decide (u = t)) as [->|Hne].
      * assert (cu = c) as -> by congruence. eexists t, _. split; [done|]. done.
      * exists u, cu. split; [|done]. unfold a', a1; simpl. by rewrite lookup_insert_ne.
    + assert (o = t) as -> by congruence. assert (co = c) as -> by congruence.
      destruct Hre as [->|(w&cw&Hin&_)]; [|rewrite Hw in Hin; by apply elem_of_nil in Hin].
      by eexists t, _.
Qed.

(** ... and the first waiter gets it. *)
Lemma covered_handover X a t c w ws cw cw' :
  a_wf a → covered X a → a_tasks a !! t = Some c → state c = NIMBLE_TASK_RUNNING →
  a_owner m a = Some t → waiters a = w :: ws → a_tasks a !! w = Some cw →
  cw' = set_woken NIMBLE_OK cw →
  let a1 := put_task t (set_priority (base_priority c) c) a in
  covered X (with_mutexes (<[m := Mutex (Some w) 1]> (a_mutexes a1))
    (make_ready w (set_last_wait_result NIMBLE_OK cw) (with_sleeping (without w (a_sleeping a1))
       (with_waiting (update (NMutex m) ws (a_waiting a1)) a1)))).
Proof using.
  intros Hwf Hcov Hc Hs Ho Hw Hcw Ecw a1. set (a2 := make_ready _ _ _). set (a' := with_mutexes _ a2).
  assert (a_owner m a' = Some w) as Eo by apply (owner_insert a2).
  assert (w ∈ waiters a) as Hin by (rewrite Hw; left).
  destruct (aw_wait _ Hwf (NMutex m) w eq_refl Hin) as (cw0&Hcw0&Hsw).
  assert (cw0 = cw) as -> by congruence. clear Hcw0.
  assert (w ≠ t) as Hwt by congruence.
  assert (base_priority cw = priority cw) as Ebw by (eapply (covered_raised X a); [done..|congruence]).
  assert (a_tasks a' !! w = Some cw') as Hw' by (subst; apply lookup_insert_eq).
  assert (a_tasks a' !! t = Some (set_priority (base_priority c) c)) as Ht'
    by (unfold a', a2, a1; simpl; rewrite lookup_insert_ne by done; apply lookup_insert_eq).
  assert (∀ u, u ≠ w → u ≠ t → a_tasks a' !! u = a_tasks a !! u) as Hoth
    by (intros; unfold a', a2, a1; simpl; by rewrite !lookup_insert_ne).
  assert (waiters a' = ws) as Ew by (unfold waiters; simpl; apply update_eq).
  split.
  - intros u cu Hu Hp. rewrite Eo. destruct (decide (u = w)) as [->|Hne]; [done|].
    destruct (decide (u = t)) as [->|Hne']; [rewrite Ht' in Hu; by injection Hu as <-|].
    rewrite Hoth in Hu by done. pose proof (cv_raised _ _ Hcov u cu Hu Hp). congruence.
  - intros o Ho'. assert (o = w) as -> by congruence. exists cw'. split; [done|]. subst cw'.
    split; [by left|]. split; [by left|]. intros p Hp. unfold a', a2; simpl. unfold update.
    case_decide as Ep; [left; by rewrite Ep|]. intros Hr.
    destruct (aw_ready _ Hwf w p cw Hp Hr Hcw). congruence.
  - rewrite Ew. intros v Hv. unfold a', a2; simpl. rewrite elem_of_without. intros [_ ?].
    eapply (cv_waiter _ _ Hcov v); [rewrite Hw; by right|done].
  - intros r Hr HX He.
    assert (r ≠ priority cw ∧ a_ready a r = []) as [Hrp He0].
    { revert He. unfold a', a2; simpl. unfold update. case_decide as Er; [|done].
      by intros [_ ?]%app_nil. }
    destruct (cv_cover _ _ Hcov r Hr HX He0) as [(u&cu&Hu&Hsu&Ep&Eb)|(o&co&Ho'&Hco&Hre&_)].
    + left. destruct (decide (u = t)) as [->|Hne].
      * assert (cu = c) as -> by congruence. by eexists t, _.
      * exists u, cu. rewrite Hoth; [done| |done]. congruence.
    + assert (o = t) as -> by congruence. assert (co = c) as -> by congruence.
      destruct Hre as [->|(v&cv&Hv&Hcv&Ev)]; [left; by eexists t, _|]. right.
      pose proof (aw_wait_nodup _ Hwf (NMutex m) eq_refl) as Hnd. unfold waiters in Hw, Hv.
      rewrite Hw in Hnd, Hv. apply NoDup_cons in Hnd as [Hnw _].
      apply elem_of_cons in Hv as [->|Hv]; [congruence|].
      assert (v ∈ waiters a) as Hvin by (unfold waiters; rewrite Hw; by right).
      destruct (aw_wait _ Hwf (NMutex m) v eq_refl Hvin) as (cv0&Hcv0&Hsv).
      assert (v ≠ t) as Hvt by congruence.
      assert (base_priority cv = priority cv) as Ebv by (eapply (covered_raised X a); [done..|congruence]).
      pose proof (aw_wait_sorted _ Hwf (NMutex m) w ws v eq_refl Hw Hv) as Hle.
      unfold a_prio in Hle. rewrite Hcv, Hcw in Hle. simpl in Hle.
      exists w, cw'. do 2 (split; [done|]). split.
      * right. exists v, cv. rewrite Ew, Hoth by (congruence || (intros ->; done)). done.
      * right. exists (priority cw). pose proof (aw_prio _ Hwf w cw Hcw). split; [lia|].
        unfold a', a2; simpl. rewrite update_eq, elem_of_app, list_elem_of_singleton. by right.
Qed.

Lemma unlock_covered X a t c (o : outcome) a' :
  a_wf a → covered X a → a_tasks a !! t = Some c → state c = NIMBLE_TASK_RUNNING →
  acall t (CUnlock m) a = Some (o, a') → covered X a'.
Proof using.
  intros Hwf Hcov Hc Hs E. unfold acall in E. rewrite Hc in E. cbn [mbind option_bind] in E.
  destruct (a_mutexes a !! m) as [mu|] eqn:Em; [|done]. cbn [mbind option_bind] in E. cbv zeta in E.
  assert (a_owner m a = owner mu) as Eo by (unfold a_owner; by rewrite Em).
  case_decide as Ho; [by injection E as _ <-|].
  destruct (0 <? _).
  { injection E as _ <-. eapply kept_covered, Hcov. apply kept_view; try done.
    rewrite owner_insert. simpl. congruence. }
  unfold a_wake in E. change (a_waiting (put_task _ _ a) (NMutex m)) with (waiters a) in E.
  destruct (waiters a) as [|w ws] eqn:Ew.
  - injection E as _ <-. apply covered_release; congruence.
  - assert (w ∈ waiters a) as Hin by (rewrite Ew; left).
    destruct (aw_wait _ Hwf (NMutex m) w eq_refl Hin) as (cw&Hcw&Hsw).
    assert (t ≠ w) as Hne by congruence. simpl in E. rewrite lookup_insert_ne, Hcw in E by done.
    cbn [mbind option_bind] in E. injection E as _ <-.
    eapply covered_handover; try done. congruence.
Qed.

(** ** The switch *)

(** What the switch needs of the ready lists. *)
Record ready_wf a : Prop := {
  rw_home t p c : 0 ≤ p < 32 → t ∈ a_ready a p → a_tasks a !! t = Some c →
    state c = NIMBLE_TASK_READY ∧ base_priority c ≤ p ≤ priority c;
  rw_unique t p q : 0 ≤ p < 32 → 0 ≤ q < 32 → t ∈ a_ready a p → t ∈ a_ready a q → p = q;
}.

Lemma make_ready_in t c a p u :
  u ∈ a_ready (make_ready t c a) p ↔ u ∈ a_ready a p ∨ u = t ∧ p = priority c.
Proof using.
  simpl. unfold update. case_decide as E; [subst|naive_solver].
  rewrite elem_of_app, list_elem_of_singleton. naive_solver.
Qed.

Lemma make_ready_nil t c a p :
  a_ready (make_ready t c a) p = [] → p ≠ priority c ∧ a_ready a p = [].
Proof using. simpl. unfold update. case_decide; [by intros [_ ?]%app_nil|done]. Qed.

(** The running task goes back on its ready list. *)
Lemma requeue_covered X a a1 :
  a_wf a → covered X a → a_requeue a = Some a1 → covered X a1 ∧ ready_wf a1.
Proof using.
  intros Hwf Hcov E.
  assert (covered X a ∧ ready_wf a) as Hsame by (split; [done|]; split; apply Hwf).
  unfold a_requeue in E. destruct (a_current a) as [t|]; [|by injection E as <-].
  destruct (a_tasks a !! t) as [c|] eqn:Hc; [|done]. cbn [mbind option_bind] in E. injection E as <-.
  case_decide as Hs; [clear Hsame|done]. set (a1 := make_ready t c a).
  assert (a_tasks a1 !! t = Some (set_state NIMBLE_TASK_READY c)) as Ht by apply lookup_insert_eq.
  assert (∀ u, u ≠ t → a_tasks a1 !! u = a_tasks a !! u) as Hoth
    by (intros; unfold a1; simpl; by rewrite lookup_insert_ne).
  assert (∀ c c' r, base_priority c' = base_priority c → reason a c r → reason a1 c' r) as Hre
    by by eapply (reason_put a a1 t c (set_state NIMBLE_TASK_READY c)).
  assert (∀ p, 0 ≤ p < 32 → t ∉ a_ready a p) as Hn.
  { intros p Hp Hin. destruct (aw_ready _ Hwf t p c Hp Hin Hc). congruence. }
  pose proof (aw_prio _ Hwf t c Hc) as Hp.
  split; [split|split].
  - intros u cu Hu Hne. destruct (decide (u = t)) as [->|Hut].
    + rewrite Ht in Hu. injection Hu as <-. by apply (cv_raised _ _ Hcov t c).
    + rewrite Hoth in Hu by done. by apply (cv_raised _ _ Hcov u cu).
  - intros o Ho. destruct (cv_owner _ _ Hcov o Ho) as (co&Hco&Hso&Hro&Hl).
    destruct (decide (o = t)) as [->|Hne].
    + assert (co = c) as -> by congruence. eexists. split; [exact Ht|]. split; [by left|].
      split; [by eapply Hre|]. intros p Hpr [Hin|[_ ->]]%make_ready_in; [by destruct (Hn p)|].
      by eapply Hre.
    + exists co. rewrite Hoth by done. do 2 (split; [done|]). split; [by eapply Hre|].
      intros p Hpr [Hin|[? _]]%make_ready_in; [by eapply Hre, Hl|done].
  - apply (cv_waiter _ _ Hcov).
  - intros r Hr HX [Hrp He]%make_ready_nil.
    destruct (cv_cover _ _ Hcov r Hr HX He) as [(u&cu&Hu&Hsu&Ep&Eb)|(o&co&Ho&Hco&Hro&Hat)].
    + left. exists u, cu. rewrite Hoth; [done|]. intros ->. congruence.
    + right. destruct (decide (o = t)) as [->|Hne].
      * assert (co = c) as -> by congruence. eexists t, _. do 2 (split; [done|]).
        split; [by eapply Hre|]. right. destruct Hat as [[_ ?]|(p&?&?)].
        -- exists (priority c). split; [lia|]. apply make_ready_in. by right.
        -- exists p. split; [done|]. apply make_ready_in. by left.
      * exists o, co. rewrite Hoth by done. do 2 (split; [done|]). split; [by eapply Hre|].
        destruct Hat as [?|(p&?&?)]; [by left|right]. exists p. split; [done|].
        apply make_ready_in. by left.
  - intros u p cu Hpr [Hin|[-> ->]]%make_ready_in Hu.
    + rewrite Hoth in Hu by (intros ->; by destruct (Hn p)). by apply (aw_ready _ Hwf u).
    + rewrite Ht in Hu. injection Hu as <-. split; [done|]. simpl. split; [by apply (aw_raised _ Hwf t)|done].
  - intros u p q Hpr Hq [Hin|[-> ->]]%make_ready_in [Hin'|[E1 E2]]%make_ready_in.
    + by eapply (aw_ready_unique _ Hwf u).
    + subst. by destruct (Hn p).
    + by destruct (Hn q).
    + done.
Qed.

(** The first task of the list of [p] is chosen. *)
Lemma select_covered X a p u ts c b :
  covered X a → ready_wf a → 0 ≤ p < 32 → a_ready a p = u :: ts → a_tasks a !! u = Some c →
  covered (left_stale p (priority c) X)
    (with_switch b (with_current (Some u) (put_task u (set_state NIMBLE_TASK_RUNNING c)
       (with_ready (update p ts (a_ready a)) a)))).
Proof using.
  intros Hcov Hwf Hp Hl Hc. set (c' := set_state _ c). set (a' := with_switch _ _).
  assert (u ∈ a_ready a p) as Hin by (rewrite Hl; left).
  destruct (rw_home _ Hwf u p c Hp Hin Hc) as [Hs Hhome].
  assert (a_tasks a' !! u = Some c') as Hu by apply lookup_insert_eq.
  assert (∀ v, v ≠ u → a_tasks a' !! v = a_tasks a !! v) as Hoth
    by (intros; unfold a'; simpl; by rewrite lookup_insert_ne).
  assert (∀ c c' r, base_priority c' = base_priority c → reason a c r → reason a' c' r) as Hre
    by by eapply (reason_put a a' u c c').
  assert (∀ v q, v ∈ a_ready a' q → v ∈ a_ready a q) as Hsub.
  { intros v q. unfold a'; simpl. unfold update. case_decide as E; [|done]. subst. rewrite Hl. by right. }
  split.
  - intros v cv Hv Hne. destruct (decide (v = u)) as [->|Hvu].
    + rewrite Hu in Hv. injection Hv as <-. by apply (cv_raised _ _ Hcov u c).
    + rewrite Hoth in Hv by done. by apply (cv_raised _ _ Hcov v cv).
  - intros o Ho. destruct (cv_owner _ _ Hcov o Ho) as (co&Hco&Hso&Hro&Hlo).
    destruct (decide (o = u)) as [->|Hne].
    + assert (co = c) as -> by congruence. exists c'. split; [done|]. split; [by right|].
      split; [by eapply Hre|]. intros q Hq Hin'. by eapply Hre, Hlo, Hsub.
    + exists co. rewrite Hoth by done. do 2 (split; [done|]). split; [by eapply Hre|].
      intros q Hq Hin'. by eapply Hre, Hlo, Hsub.
  - apply (cv_waiter _ _ Hcov).
  - intros r Hr [HX Hrp] He. destruct (decide (r = p)) as [->|Hne].
    + right. exists u, c'.
      assert (a_owner m a = Some u) as Ho by (apply (cv_raised _ _ Hcov u c); [done|lia]).
      destruct (cv_owner _ _ Hcov u Ho) as (co&Hco&_&_&Hlo). assert (co = c) as -> by congruence.
      do 2 (split; [done|]). split; [by eapply Hre, Hlo|]. left. split; [done|]. apply Hhome.
    + destruct HX as [HX|?]; [|done].
      assert (a_ready a r = []) as He0.
      { revert He. unfold a'; simpl. unfold update. by rewrite decide_False. }
      destruct (cv_cover _ _ Hcov r Hr HX He0) as [(v&cv&Hv&Hsv&Ep&Eb)|(o&co&Ho&Hco&Hro&Hat)].
      * left. exists v, cv. rewrite Hoth; [done|]. intros ->. congruence.
      * right. destruct (decide (o = u)) as [->|Hou].
        -- assert (co = c) as -> by congruence. exists u, c'. do 2 (split; [done|]).
           split; [by eapply Hre|]. left. split; [done|]. unfold c'; simpl.
           destruct Hat as [[? _]|(q&Hq&Hinq)]; [congruence|].
           assert (q = p) as -> by (eapply (rw_unique _ Hwf u); [lia|done|done|done]). lia.
        -- exists o, co. rewrite Hoth by done. do 2 (split; [done|]). split; [by eapply Hre|].
           destruct Hat as [?|(q&Hq&Hinq)]; [by left|right]. exists q. split; [done|].
           unfold a'; simpl. unfold update. case_decide as E; [|done]. subst.
           rewrite Hl in Hinq. by apply elem_of_cons in Hinq as [?|?].
Qed.

Lemma a_top_range n a p : a_top n a = Some p → (n < 32)%nat → 0 ≤ p < 32.
Proof using.
  induction n as [|n IH]; simpl; destruct (a_ready a _) as [|? ?]; try done.
  - by intros [= <-].
  - intros Hp Hn. apply IH; [done|lia].
  - intros [= <-] ?. lia.
Qed.

Lemma pendsv_covered X a a' :
  a_wf a → covered X a → a_pendsv a = Some a' → covered (settled_switch a X) a'.
Proof using.
  intros Hwf Hcov E. unfold a_pendsv in E.
  destruct (a_requeue a) as [a1|] eqn:E1; [|done]. cbn [mbind option_bind] in E.
  destruct (requeue_covered X a a1 Hwf Hcov E1) as [Hcov1 Hrw].
  destruct (a_top 31 a1) as [p|] eqn:Ep; [|done]. cbn [mbind option_bind] in E.
  destruct (a_ready a1 p) as [|u ts] eqn:El; [done|].
  destruct (a_tasks a1 !! u) as [c|] eqn:Eu; [|done]. injection E as <-.
  pose proof (select_covered X a1 p u ts c false Hcov1 Hrw (a_top_range _ _ _ Ep ltac:(lia)) El Eu)
    as [Hr Ho Hw Hc].
  split; [done..|]. intros r Hr32 HX. apply Hc; [done|]. by apply (HX a1 p u ts c).
Qed.

(** ** The discipline *)

(** Calls of a task that uses no mutex but [m], waits for it without a
    timeout, and does not block while it owns it; nobody is suspended. *)
Definition tame_call (cl : call) (owns : bool) : Prop :=
  match cl with
  | CLock m' timeout => m' = m ∧ timeout = NIMBLE_WAIT_FOREVER
  | CUnlock m' => m' = m
  | CTake _ _ | CSend _ _ _ | CReceive _ _ | CDelay _ => owns = false
  | CGive _ | CYield | CResume _ => True
  | CSuspend _ => False
  end.

Lemma covered_mono X X' a : (∀ r, X' r → X r) → covered X a → covered X' a.
Proof using. intros HX [? ? ? Hc]. split; try done. intros r Hr Hr'. by apply Hc, HX. Qed.

Lemma settled_by_mono cl c (o : outcome) X r :
  (∀ u, cl ≠ CSuspend u) → settled_by cl c o X r → X r.
Proof using.
  intros Hns. destruct cl, o as [? ? []|]; simpl; try done; try (by intros [? _]); by destruct (Hns t).
Qed.

(** A queue changes and the other side is woken. *)
Lemma queue_wake_covered X a (q : nat) qu h (ow : option tid) a' :
  a_wf a → covered X a → is_wait h = true → h ≠ NMutex m →
  a_wake h (put_aqueue q qu a) = Some (ow, a') → covered X a'.
Proof using.
  intros Hwf Hcov Hw Hne E.
  assert (a_wf (put_aqueue q qu a)) as Hwf1 by (destruct Hwf; by split).
  assert (covered X (put_aqueue q qu a)) as Hcov1 by (eapply kept_covered, Hcov; by apply kept_view).
  eapply kept_covered, Hcov1. by eapply (wake_kept _ _ Hwf1 Hcov1 h).
Qed.

Lemma give_covered X a x (r : Z * bool) a' :
  a_wf a → covered X a → a_give x a = Some (r, a') → covered X a'.
Proof using.
  intros Hwf Hcov E. unfold a_give in E. destruct (a_semaphores a !! x) as [sem|]; [|done]. simpl in E.
  destruct (a_wake (NSem x) a) as [[w a1]|] eqn:Ew; [|done]. simpl in E.
  assert (covered X a1) as Hcov1 by (eapply kept_covered, Hcov; by eapply (wake_kept _ _ Hwf Hcov (NSem x))).
  destruct w; injection E as _ <-; [done|]. eapply kept_covered, Hcov1. by apply kept_view.
Qed.

Lemma send_covered X a (q : nat) item qu (r : Z * bool) a' :
  a_wf a → covered X a → a_send q item qu a = Some (r, a') → covered X a'.
Proof using.
  intros Hwf Hcov E. unfold a_send in E. destruct (a_wake _ _) as [[w a1]|] eqn:Ew; [|done].
  injection E as _ <-. eapply queue_wake_covered; [..|exact Ew]; done.
Qed.

Lemma call_covered X a t c cl (o : outcome) a' :
  a_wf a → covered X a → a_tasks a !! t = Some c → state c = NIMBLE_TASK_RUNNING →
  tame_call cl (bool_decide (a_owner m a = Some t)) → acall t cl a = Some (o, a') →
  covered (settled_by cl c o X) a'.
Proof using.
  intros Hwf Hcov Hc Hs Ht E.
  assert ((∀ u, cl ≠ CSuspend u) → covered X a' → covered (settled_by cl c o X) a') as Hmono.
  { intros Hns. apply covered_mono. intros r. by apply settled_by_mono. }
  assert (∀ h timeout, is_wait h = true → h ≠ NMutex m → a_owner m a ≠ Some t →
    covered (less_stale (priority c) X) (a_block h t c timeout a)) as Hblock.
  { intros h timeout Hw Hne Hno. eapply kept_covered, Hcov. by apply block_kept. }
  destruct cl as [m' timeout|m'|x timeout|x|q item timeout|q timeout|ticks| |v|v];
    cbn [tame_call] in Ht; try (apply bool_decide_eq_false in Ht).
  { destruct Ht as [-> ->]. by eapply lock_covered. }
  { subst m'. apply Hmono; [done|]. by eapply unlock_covered. }
  all: unfold acall in E; rewrite Hc in E; cbn [mbind option_bind] in E.
  - destruct (a_semaphores a !! x) as [sem|]; [|done]. simpl in E.
    destruct (0 <? count sem);
      [injection E as <- <-; eapply kept_covered, Hcov; by apply kept_view|].
    destruct (timeout =? NIMBLE_NO_WAIT); injection E as <- <-; [done|]. by apply Hblock.
  - apply Hmono; [done|]. destruct (a_give x a) as [[r a1]|] eqn:Eg; [|done]. injection E as _ <-.
    by eapply give_covered.
  - destruct (a_queues a !! q) as [qu|]; [|done]. simpl in E. destruct (aq_full qu).
    + destruct (timeout =? NIMBLE_NO_WAIT); injection E as <- <-; [done|]. by apply Hblock.
    + apply Hmono; [done|]. destruct (a_send q item qu a) as [[r a1]|] eqn:Es; [|done].
      injection E as _ <-. by eapply send_covered.
  - destruct (a_queues a !! q) as [qu|]; [|done]. simpl in E. destruct (aq_items qu).
    + destruct (timeout =? NIMBLE_NO_WAIT); injection E as <- <-; [done|]. by apply Hblock.
    + apply Hmono; [done|]. destruct (a_wake _ _) as [[w a1]|] eqn:Ew; [|done]. injection E as _ <-.
      eapply queue_wake_covered; [..|exact Ew]; done.
  - destruct (ticks =? 0); injection E as <- <-; [done|]. eapply kept_covered, Hcov. by apply delay_kept.
  - by injection E as <- <-.
  - done.
  - destruct (a_tasks a !! v) as [cv|] eqn:Ev; [|done]. simpl in E. injection E as <- <-.
    case_decide; [|done]. eapply kept_covered, Hcov. by apply ready_kept.
Qed.

Lemma pending_covered X a t (p : pending) (r : Z * option (list Z)) a' :
  covered X a → apending p t a = Some (r, a') → covered X a'.
Proof using.
  intros Hcov E. unfold apending in E. destruct (a_tasks a !! t) as [c|]; [|done]. cbn [mbind option_bind] in E.
  destruct p as [|m'| |q item|q].
  - by injection E as _ <-.
  - destruct (a_mutexes a !! m'); [|done]. by injection E as _ <-.
  - by injection E as _ <-.
  - destruct (a_queues a !! q) as [qu|]; [|done]. simpl in E.
    destruct (_ =? _); [by injection E as _ <-|].
    destruct (aq_full qu); injection E as _ <-; [done|]. eapply kept_covered, Hcov. by apply kept_view.
  - destruct (a_queues a !! q) as [qu|]; [|done]. simpl in E.
    destruct (_ =? _); [by injection E as _ <-|].
    destruct (aq_items qu); injection E as _ <-; [done|]. eapply kept_covered, Hcov. by apply kept_view.
Qed.

Lemma init_covered X a (ob : object) :
  (∀ m', ob = OMutex m' → a_mutexes a !! m' = None) → covered X a → covered X (a_init ob a).
Proof using.
  intros Hf Hcov. eapply kept_covered, Hcov.
  destruct ob as [m'|x i n|q b size cap]; apply kept_view; try done.
  unfold a_owner; simpl. destruct (decide (m' = m)) as [->|]; [|by rewrite lookup_insert_ne].
  by rewrite lookup_insert_eq, (Hf m).
Qed.

(** ** The machine *)

Definition tame σ e : Prop :=
  match e with
  | ECall cl => ∀ t, nimble_current_tcb (ks σ) = Some t →
      tame_call cl (bool_decide (owner_at σ m = Some t))
  | _ => True
  end.

Lemma sim_owner X σ α m' : simulates_at X σ α → a_owner m' (ak α) = owner_at σ m'.
Proof using. intros [(L&_&Ha) _]. unfold owner_at, a_owner. by rewrite (ab_mutexes _ _ _ Ha). Qed.

(** An event of a disciplined run, with the bits that it leaves stale. *)
Lemma covered_step X σ α e σ' :
  sys_inv σ → simulates_at X σ α → covered X (ak α) → step σ e σ' → tame σ e →
  ∃ α', aexec e α = Some α' ∧ simulates_at (settled_event e α X) σ' α' ∧
        covered (settled_event e α X) (ak α').
Proof using.
  intros Hσ Hα Hcov Hs Ht. pose proof Hα as [Hr _]. pose proof (refines_wf _ _ _ Hr) as Hwf.
  pose proof (simulates_some _ _ _ Hα) as Hα0. pose proof (sim_current _ _ Hα0) as Ecur.
  destruct (step_refines_at X σ α e σ' Hσ Hα Hs) as (α'&E&Hα'&_).
  exists α'. do 2 (split; [done|]). clear Hα'.
  inversion Hs as [? ? ? He _]; subst. destruct e as [cl|ob| | | | |x|q item]; simpl in E.
  - destruct He as (t&Hcur&Hid&Hp&Hph&_). specialize (Ht t Hcur).
    destruct (running_caller σ t Hσ Hcur Hp) as [c [_ Hc Hst _]]; [congruence|done|].
    destruct Hr as (L&_&Ha). rewrite <- (ab_tasks _ _ _ Ha) in Hc.
    rewrite Ecur, Hcur in E. cbn [mbind option_bind] in E.
    destruct (acall t cl (ak α)) as [[o a']|] eqn:Ea; [|done]. injection E as <-. cbn [ak].
    rewrite <- (sim_owner X σ α m Hα) in Ht.
    eapply covered_mono; [|by eapply call_covered]. intros r HX. by apply (HX t c o a'); [congruence|..].
  - injection E as <-. apply init_covered; [|done]. intros m' ->.
    destruct He as (_&_&_&_&Hf&_). destruct Hr as (L&_&Ha). by rewrite (ab_mutexes _ _ _ Ha).
  - destruct (a_current (ak α)) as [t|]; [|done]. simpl in E. destruct (a_phase α t); try done.
    injection E as <-. eapply kept_covered, Hcov. by apply kept_view.
  - destruct (a_current (ak α)) as [t|]; [|done]. simpl in E. destruct (a_phase α t) as [| |p]; try done.
    destruct (apending p t (ak α)) as [[r a']|] eqn:Ea; [|done]. injection E as <-.
    by eapply pending_covered.
  - injection E as <-. eapply kept_covered, Hcov. by apply tick_kept.
  - destruct (a_pendsv (ak α)) as [a'|] eqn:Ea; [|done]. injection E as <-. by apply pendsv_covered.
  - destruct (a_give x (ak α)) as [[r a']|] eqn:Eg; [|done]. injection E as <-. cbn [ak].
    assert (covered X a') as Hcov' by by eapply give_covered.
    destruct r.2; [|done]. eapply kept_covered, Hcov'. by apply kept_view.
  - destruct (a_isr_send q item (ak α)) as [[r a']|] eqn:Es; [|done]. injection E as <-. cbn [ak].
    assert (covered X a') as Hcov'.
    { unfold a_isr_send in Es. destruct (a_queues (ak α) !! q) as [qu|]; [|done]. simpl in Es.
      destruct (aq_full qu); [by injection Es as _ <-|]. by eapply send_covered. }
    destruct r.2; [|done]. eapply kept_covered, Hcov'. by apply kept_view.
Qed.

(** The machine has a cover for the bits that may be stale. *)
Definition sheltered σ : Prop := ∃ X α, simulates_at X σ α ∧ covered X (ak α).

Lemma sheltered_step σ e σ' :
  sys_inv σ → sheltered σ → step σ e σ' → tame σ e → sheltered σ'.
Proof using.
  intros Hσ (X&α&Hα&Hcov) Hs Ht.
  destruct (covered_step X σ α e σ' Hσ Hα Hcov Hs Ht) as (α'&_&?&?). by exists (settled_event e α X), α'.
Qed.

(** A sheltered switch finds a task. *)
Lemma sheltered_live σ : sheltered σ → ¬ switch_stuck (ks σ).
Proof using.
  intros (X&α&[(L&HI&Ha) _]&Hcov) (p&Hp&Hb&Hn&Hc).
  pose proof (ki_sched _ _ (ki_core _ _ HI)) as HS.
  assert (∀ q, p ≤ q < 32 → a_ready (ak α) q = []) as Hempty.
  { intros q Hq. specialize (Hn q Hq). rewrite (ready_empty (X := X) _ L) in Hn by (done || lia).
    destruct (a_ready (ak α) q) as [|t ts] eqn:E; [done|].
    destruct (Hn (NLink t)). eapply ab_on_ready; [done|lia|rewrite E; left]. }
  destruct (si_stale _ _ _ HS p Hp Hb) as [[n Hon]|[_ HX]].
  { specialize (Hn p ltac:(lia)). rewrite (ready_empty (X := X) _ L) in Hn by done. by apply (Hn n). }
  assert (∀ t c, a_tasks (ak α) !! t = Some c → state c = NIMBLE_TASK_RUNNING → priority c < p) as Hrun.
  { intros t c Hct Hst. rewrite (ab_tasks _ _ _ Ha) in Hct. eapply Hc, Hst; [|done].
    by apply (ti_running _ _ _ _ (si_task _ _ _ HS t c Hct ltac:(done))). }
  destruct (cv_cover _ _ Hcov p Hp HX (Hempty p ltac:(lia)))
    as [(t&c&Hct&Hst&Ep&_)|(o&c&_&Hct&_&[[Hst Hle]|(q&Hq&Hin)])].
  - specialize (Hrun t c Hct Hst). lia.
  - specialize (Hrun o c Hct Hst). lia.
  - rewrite (Hempty q Hq) in Hin. by apply elem_of_nil in Hin.
Qed.

(** The owner is on no wait list, so the calls on [m] are allowed. *)
Lemma sheltered_boost σ t : sheltered σ → boost_safe m t (ks σ).
Proof using.
  intros (X&α&[(L&HI&Ha) _]&Hcov) mu o c co Hm Ho Ht Hco _. split; [done|]. intros _.
  pose proof (ki_sched _ _ (ki_core _ _ HI)) as HS.
  destruct (cv_owner _ _ Hcov o) as (c'&Hc'&Hs&_).
  { unfold a_owner. by rewrite (ab_mutexes _ _ _ Ha), Hm. }
  rewrite (ab_tasks _ _ _ Ha) in Hc'. assert (c' = co) as -> by congruence.
  destruct (repr_single _ _ (si_repr _ _ _ HS) (NEvent o)) as [Hnx _]; [by eapply si_nodes| | |done].
  - destruct (L !! NEvent o) eqn:E; [|done]. by destruct (si_heads _ _ _ HS (NEvent o)).
  - eapply (event_unlinked (X := X)); [done..|]. destruct Hs; congruence.
Qed.

(** From a state without stale bits, raised tasks or an owner. *)
Lemma covered_start σ L mu :
  kernel_inv (X := λ _, False) (ks σ) L → mutexes (ks σ) !! m = Some mu → owner mu = None →
  (∀ t c, tcbs (ks σ) !! t = Some c → base_priority c = priority c) →
  ∃ α, simulates_at (λ _, False) σ α ∧ covered (λ _, False) (ak α) ∧ waiters (ak α) = [].
Proof using.
  intros HI Hm Ho Hb. pose proof (simulates_abstraction (X := λ _, False) σ L HI) as Hα.
  set (α := ASys _ _) in Hα. exists α. split; [done|].
  assert (waiters (ak α) = []) as Hw.
  { destruct Hα as [Hr _]. eapply (aw_free _ (refines_wf _ _ _ Hr)), Ho. done. }
  split; [|done]. split; try done.
  - intros t c Hc Hne. by destruct Hne; rewrite (Hb t c).
  - unfold a_owner; simpl. intros o. rewrite Hm. simpl. congruence.
  - rewrite Hw. intros w Hin. by apply elem_of_nil in Hin.
Qed.

Lemma sheltered_start σ L mu :
  kernel_inv (X := λ _, False) (ks σ) L → mutexes (ks σ) !! m = Some mu → owner mu = None →
  (∀ t c, tcbs (ks σ) !! t = Some c → base_priority c = priority c) → sheltered σ.
Proof using.
  intros HI Hm Ho Hb. destruct (covered_start σ L mu HI Hm Ho Hb) as (α&?&?&_).
  by exists (λ _, False), α.
Qed.
End discipline.
