(* ===== verification/Board.v ===== *)
(** * Board bring-up ([port/stm32f4/system_stm32f4xx.c])

    The system-control and SysTick registers as words, and the priorities that
    decide what a critical section masks. *)
From S2P Require Import Prelude DList Kernel Port.
From stdpp Require Import options.

Definition HSI_CLOCK_HZ : Z := 16000000.
Definition NVIC_PRIO_PENDSV_SYSTICK : Z := 0xF0.
Definition STK_CTRL_ENABLE : Z := Z.shiftl 1 0.
Definition STK_CTRL_TICKINT : Z := Z.shiftl 1 1.
Definition STK_CTRL_CLKSOURCE : Z := Z.shiftl 1 2.

(** The registers the code writes, and the priority bytes of the device
    interrupts, which it does not. *)
Record board := Board {
  SCB_SHPR3 : Z;
  STK_LOAD : Z;
  STK_VAL : Z;
  STK_CTRL : Z;
  NVIC_IPR : nat → Z;
}.

Definition nimble_stm32f4_nvic_priority_init (b : board) : board :=
  let shpr3 := SCB_SHPR3 b in
  let shpr3 := Z.land shpr3 (u32 (Z.lnot (Z.shiftl 0xFF 16))) in
  let shpr3 := Z.land shpr3 (u32 (Z.lnot (Z.shiftl 0xFF 24))) in
  let shpr3 := Z.lor shpr3 (Z.shiftl NVIC_PRIO_PENDSV_SYSTICK 16) in
  let shpr3 := Z.lor shpr3 (Z.shiftl NVIC_PRIO_PENDSV_SYSTICK 24) in
  Board shpr3 (STK_LOAD b) (STK_VAL b) (STK_CTRL b) (NVIC_IPR b).

Definition nimble_stm32f4_systick_init (core_clock_hz : Z) (b : board) : board :=
  let reload := u32 (core_clock_hz / NIMBLE_TICK_RATE_HZ - 1) in
  Board (SCB_SHPR3 b) reload 0
    (Z.lor (Z.lor STK_CTRL_CLKSOURCE STK_CTRL_TICKINT) STK_CTRL_ENABLE) (NVIC_IPR b).

Definition nimble_stm32f4_system_init (b : board) : board :=
  nimble_stm32f4_systick_init HSI_CLOCK_HZ (nimble_stm32f4_nvic_priority_init b).

(** The priority bytes of PendSV and SysTick, [SHPR3] bits 23:16 and 31:24. *)
Definition prio_pendsv (b : board) : Z := Z.land (Z.shiftr (SCB_SHPR3 b) 16) 0xFF.
Definition prio_systick (b : board) : Z := Z.land (Z.shiftr (SCB_SHPR3 b) 24) 0xFF.

(** An exception of priority byte [p] is masked while [BASEPRI] is [m]. *)
Definition masked (m p : Z) : bool := negb (m =? 0) && (m <=? p).

(** What SysTick makes of its registers: bit 0 of [STK_CTRL] lets it count down
    from [STK_LOAD], by processor cycles if bit 2 is set and every eighth cycle
    if not, and bit 1 lets it raise its exception each time it reaches 0: the
    cycles from one exception to the next. *)
Definition tick_cycles (b : board) : option Z :=
  if Z.testbit (STK_CTRL b) 0 && Z.testbit (STK_CTRL b) 1
  then Some ((STK_LOAD b + 1) * if Z.testbit (STK_CTRL b) 2 then 1 else 8) else None.

(** ** Facts *)

Lemma shpr3_bit b i :
  0 ≤ SCB_SHPR3 b < 2 ^ 32 → 0 ≤ i < 32 →
  Z.testbit (SCB_SHPR3 (nimble_stm32f4_system_init b)) i =
    if i <? 16 then Z.testbit (SCB_SHPR3 b) i
    else Z.testbit NVIC_PRIO_PENDSV_SYSTICK (if i <? 24 then i - 16 else i - 24).
Proof.
  intros Hb Hi. simpl.
  rewrite !Z.lor_spec, !Z.land_spec. unfold u32. rewrite !Z.mod_pow2_bits_low by lia.
  rewrite !Z.lnot_spec, !Z.shiftl_spec by lia.
  assert (∀ j, Z.testbit 255 j = (0 <=? j) && (j <? 8)) as H255.
  { intros j. destruct (Z.leb_spec 0 j); [|by rewrite Z.testbit_neg_r by lia].
    simpl. change 255 with (Z.ones 8). rewrite Z.testbit_ones by lia.
    rewrite (proj2 (Z.leb_le 0 j)) by lia. done. }
  assert (∀ j, j < 0 → Z.testbit NVIC_PRIO_PENDSV_SYSTICK j = false) as Hneg
    by (intros; by rewrite Z.testbit_neg_r).
  assert (∀ j, 8 ≤ j → Z.testbit NVIC_PRIO_PENDSV_SYSTICK j = false) as Hpos.
  { intros j Hj. apply Z.bits_above_log2; [done|]. change (Z.log2 NVIC_PRIO_PENDSV_SYSTICK) with 7. lia. }
  rewrite !H255. destruct (Z.ltb_spec i 16).
  - rewrite !Hneg by lia. rewrite !(proj2 (Z.leb_gt 0 _)) by lia.
    simpl. by rewrite !andb_true_r, !orb_false_r.
  - destruct (Z.ltb_spec i 24).
    + rewrite (Hneg (i - 24)) by lia.
      rewrite (proj2 (Z.leb_le 0 (i - 16))), (proj2 (Z.ltb_lt (i - 16) 8)) by lia. simpl.
      by rewrite andb_false_r, andb_false_l, orb_false_l, orb_false_r.
    + rewrite (Hpos (i - 16)) by lia.
      rewrite (proj2 (Z.leb_le 0 (i - 24))), (proj2 (Z.ltb_lt (i - 24) 8)) by lia. simpl.
      by rewrite andb_false_r, !orb_false_l.
Qed.

Lemma prio_bytes b :
  0 ≤ SCB_SHPR3 b < 2 ^ 32 →
  prio_pendsv (nimble_stm32f4_system_init b) = 0xF0 ∧
  prio_systick (nimble_stm32f4_system_init b) = 0xF0.
Proof.
  intros Hb. assert (∀ sh, sh = 16 ∨ sh = 24 →
    Z.land (Z.shiftr (SCB_SHPR3 (nimble_stm32f4_system_init b)) sh) 0xFF = 0xF0) as H.
  { intros sh Hsh. apply Z.bits_inj'. intros i Hi.
    rewrite Z.land_spec, Z.shiftr_spec by done. change 255 with (Z.ones 8).
    rewrite Z.testbit_ones by lia. destruct (Z.ltb_spec i 8) as [Hlt|Hge].
    - rewrite (proj2 (Z.leb_le 0 i)) by done. rewrite andb_true_r.
      rewrite shpr3_bit by lia. rewrite (proj2 (Z.ltb_ge (i + sh) 16)) by lia.
      change 0xF0 with NVIC_PRIO_PENDSV_SYSTICK. f_equal.
      destruct Hsh as [->| ->]; [rewrite (proj2 (Z.ltb_lt _ 24))|rewrite (proj2 (Z.ltb_ge _ 24))]; lia.
    - rewrite !andb_false_r. symmetry. apply Z.bits_above_log2; [done|].
      change (Z.log2 240) with 7. lia. }
  split; apply H; auto.
Qed.
