(* ===== verification/PowerSupply.v ===== *)
(** * The power-supply application ([app/power_supply/])

    The ADC conversion and the fault thresholds in binary32 arithmetic, the
    shared status, the control state machine, and the command line. *)
From S2P Require Import Prelude DList Kernel.
From Stdlib Require Import Floats.SpecFloat.
From stdpp Require Import options.

(** ** Single-precision arithmetic *)

Definition f32 : Type := spec_float.
Definition f32_of_Z (z : Z) : f32 := binary_normalize 24 128 z 0 false.
Definition f32_mul : f32 → f32 → f32 := SFmul 24 128.
Definition f32_div : f32 → f32 → f32 := SFdiv 24 128.
(** [x > y] *)
Definition f32_gt (x y : f32) : bool := SFltb y x.

(** ** Data ([power_supply_types.h]) *)

Definition PS_PRIO_LOGGER : Z := 1.
Definition PS_PRIO_COMMS : Z := 2.
Definition PS_PRIO_CONTROL : Z := 3.
Definition PS_PRIO_PROTECTION : Z := 4.
Definition PS_PRIO_TIMER_SVC : Z := 3.

Inductive ps_state_t := PS_STATE_IDLE | PS_STATE_SOFT_START | PS_STATE_RUNNING | PS_STATE_FAULT.
#[export] Instance ps_state_eq_dec : EqDecision ps_state_t.
Proof. solve_decision. Defined.

Record ps_adc_sample_t := AdcSample { voltage_raw : Z; current_raw : Z }.

Record ps_status_t := Status {
  ps_state : ps_state_t;
  ps_voltage_mv : f32;
  ps_current_ma : f32;
  fault_count : Z;
}.

Definition PS_OVERCURRENT_LIMIT_MA : f32 := f32_of_Z 3000.
Definition PS_OVERVOLTAGE_LIMIT_MV : f32 := f32_of_Z 13000.

(** ** The ADC interrupt ([isr_bridge.c]) *)

Definition ADC_TO_MILLIVOLTS (raw : Z) : f32 :=
  f32_mul (f32_of_Z raw) (f32_div (f32_of_Z 16500) (f32_of_Z 4095)).
Definition ADC_TO_MILLIAMPS (raw : Z) : f32 :=
  f32_mul (f32_of_Z raw) (f32_div (f32_of_Z 5000) (f32_of_Z 4095)).

(** The sample handed to the control task, and whether the fault semaphore is
    given, for the data-register value [dr]. *)
Definition adc_sample (dr : Z) : ps_adc_sample_t :=
  let raw := u16 (Z.land dr 0xFFF) in AdcSample raw raw.
Definition adc_fault (dr : Z) : bool :=
  let s := adc_sample dr in
  f32_gt (ADC_TO_MILLIVOLTS (voltage_raw s)) PS_OVERVOLTAGE_LIMIT_MV ||
  f32_gt (ADC_TO_MILLIAMPS (current_raw s)) PS_OVERCURRENT_LIMIT_MA.

(** ** The shared status ([power_supply.c]); each function is one critical
    section under [g_status_mutex] *)

Definition ps_shared_status : ps_status_t := Status PS_STATE_IDLE (f32_of_Z 0) (f32_of_Z 0) 0.

Definition ps_status_set_measurement (v i : f32) (g : ps_status_t) : ps_status_t :=
  Status (ps_state g) v i (fault_count g).
Definition ps_status_set_state (st : ps_state_t) (g : ps_status_t) : ps_status_t :=
  Status st (ps_voltage_mv g) (ps_current_ma g) (fault_count g).
Definition ps_status_note_fault (g : ps_status_t) : ps_status_t :=
  Status PS_STATE_FAULT (ps_voltage_mv g) (ps_current_ma g) (u32 (fault_count g + 1)).

(** ** The control task ([control_task.c]) *)

Definition SOFT_START_RAMP_STEPS : Z := 50.

Record control := Control { local_state : ps_state_t; soft_start_step : Z }.

(** The [switch]: the new local variables, and the argument of the call of
    [ps_status_set_state], if there is one. *)
Definition advance (c : control) : control * option ps_state_t :=
  match local_state c with
  | PS_STATE_IDLE => (Control PS_STATE_SOFT_START 0, Some PS_STATE_SOFT_START)
  | PS_STATE_SOFT_START =>
      let step := u32 (soft_start_step c + 1) in
      if SOFT_START_RAMP_STEPS <=? step
      then (Control PS_STATE_RUNNING step, Some PS_STATE_RUNNING)
      else (Control PS_STATE_SOFT_START step, None)
  | PS_STATE_RUNNING | PS_STATE_FAULT => (c, None)
  end.

(** The last part: [local_state] follows a FAULT in the shared status. *)
Definition resync (g : ps_status_t) (c : control) : control :=
  if decide (ps_state g = PS_STATE_FAULT) then Control PS_STATE_FAULT (soft_start_step c) else c.

Definition run_state_machine (c : control) (g : ps_status_t) : control * ps_status_t :=
  let '(c, w) := advance c in
  let g := match w with Some st => ps_status_set_state st g | None => g end in
  (resync g c, g).

(** One round of the task's loop, for one sample. *)
Definition control_round (s : ps_adc_sample_t) (c : control) (g : ps_status_t) :
    control * ps_status_t :=
  run_state_machine c
    (ps_status_set_measurement (ADC_TO_MILLIVOLTS (voltage_raw s)) (ADC_TO_MILLIAMPS (current_raw s)) g).

(** The same round, one critical section at a time; the protection task runs
    in between ([protection_task.c]). *)
Inductive control_pc :=
  | Waiting                        (** blocked on the sample queue *)
  | Deciding                       (** the measurement is stored *)
  | Writing (st : ps_state_t)      (** about to call [ps_status_set_state] *)
  | Resyncing.

Record demo := Demo { pc : control_pc; ctl : control; g_status : ps_status_t }.

Inductive demo_event := Control_step (s : ps_adc_sample_t) | Fault.

Definition demo_exec (e : demo_event) (a : demo) : demo :=
  match e with
  | Fault => Demo (pc a) (ctl a) (ps_status_note_fault (g_status a))
  | Control_step s =>
      match pc a with
      | Waiting => Demo Deciding (ctl a)
          (ps_status_set_measurement (ADC_TO_MILLIVOLTS (voltage_raw s))
             (ADC_TO_MILLIAMPS (current_raw s)) (g_status a))
      | Deciding =>
          let '(c, w) := advance (ctl a) in
          Demo (match w with Some st => Writing st | None => Resyncing end) c (g_status a)
      | Writing st => Demo Resyncing (ctl a) (ps_status_set_state st (g_status a))
      | Resyncing => Demo Waiting (resync (g_status a) (ctl a)) (g_status a)
      end
  end.

Definition demo_init : demo := Demo Waiting (Control PS_STATE_IDLE 0) ps_shared_status.

(** ** The command line ([comms_task.c]) *)

Definition CLI_LINE_BUF_LEN : nat := 64.

(** What a C string function sees of an array: up to the first zero. *)
Fixpoint c_string (l : list Z) : list Z :=
  match l with [] => [] | b :: l => if b =? 0 then [] else b :: c_string l end.

Inductive reply := StatusReport | UnknownCommand | NoReply.

(** ["status"] *)
Definition status_cmd : list Z := [115; 116; 97; 116; 117; 115].

Definition handle_command (line : list Z) : reply :=
  if decide (c_string line = status_cmd) then StatusReport
  else match line with b :: _ => if b =? 0 then NoReply else UnknownCommand | [] => NoReply end.

Record cli := Cli { line_buf : list Z; line_len : nat }.

(** One received byte; storing outside [line_buf] is undefined. *)
Definition store_char (i : nat) (b : Z) (buf : list Z) : option (list Z) :=
  if decide (i < length buf)%nat then Some (<[i := b]> buf) else None.
Definition comms_byte (b : Z) (c : cli) : option (cli * option reply) :=
  if (b =? 13) || (b =? 10) then
    buf ← store_char (line_len c) 0 (line_buf c);
    Some (Cli buf 0, Some (handle_command buf))
  else if (line_len c <? CLI_LINE_BUF_LEN - 1)%nat then
    buf ← store_char (line_len c) b (line_buf c);
    Some (Cli buf (S (line_len c)), None)
  else Some (c, None).

(** A sequence of bytes, and the replies in order. *)
Fixpoint comms_run (bs : list Z) (c : cli) : option (cli * list reply) :=
  match bs with
  | [] => Some (c, [])
  | b :: bs =>
      '(c, r) ← comms_byte b c;
      '(c, rs) ← comms_run bs c;
      Some (c, match r with Some r => r :: rs | None => rs end)
  end.

(** ** The control task on its own *)

Implicit Types (c : control) (g : ps_status_t) (a : demo).

Definition demo_run (es : list demo_event) a : demo := foldl (λ a e, demo_exec e a) a es.

(** The steps of a round that no fault interrupts are the round. *)
Definition round_steps c : nat := match (advance c).2 with Some _ => 4 | None => 3 end.

Lemma demo_round s c g :
  demo_run (replicate (round_steps c) (Control_step s)) (Demo Waiting c g) =
  Demo Waiting (control_round s c g).1 (control_round s c g).2.
Proof.
  destruct c as [[] n]; try done. unfold round_steps, control_round, run_state_machine, demo_run.
  destruct (advance (Control PS_STATE_SOFT_START n)) as [c' [st|]] eqn:E; cbn [replicate snd];
    cbn [foldl demo_exec pc ctl g_status]; rewrite E; done.
Qed.

Fixpoint rounds (ss : list ps_adc_sample_t) (c : control) (g : ps_status_t) : control * ps_status_t :=
  match ss with [] => (c, g) | s :: ss => let '(c, g) := control_round s c g in rounds ss c g end.

Lemma rounds_app ss1 ss2 c g :
  rounds (ss1 ++ ss2) c g = let '(c', g') := rounds ss1 c g in rounds ss2 c' g'.
Proof.
  revert c g. induction ss1 as [|s ss1 IH]; intros c g; [done|]. cbn [rounds app].
  destruct (control_round s c g). apply IH.
Qed.

(** Where the ramp stands after [n] samples without a fault. *)
Definition ramp (n : Z) : control :=
  if n =? 0 then Control PS_STATE_IDLE 0
  else if n <=? 50 then Control PS_STATE_SOFT_START (n - 1)
  else Control PS_STATE_RUNNING 50.

Lemma ramp_round s n g :
  0 ≤ n → ps_state g = local_state (ramp n) →
  ∃ g', control_round s (ramp n) g = (ramp (n + 1), g') ∧
    ps_state g' = local_state (ramp (n + 1)) ∧ fault_count g' = fault_count g.
Proof.
  intros Hn Hg. unfold control_round, run_state_machine, ramp in *.
  destruct (Z.eqb_spec n 0) as [->|Hn0].
  - cbn. eexists. split; [done|]. by cbn.
  - rewrite (proj2 (Z.eqb_neq (n + 1) 0)) by lia.
    destruct (Z.leb_spec n 50) as [Hle|Hgt]; cbn [local_state] in Hg.
    + unfold advance; cbn [local_state soft_start_step]. unfold SOFT_START_RAMP_STEPS.
      rewrite (u32_small (n - 1 + 1)) by lia.
      destruct (Z.leb_spec 50 (n - 1 + 1)) as [Hup|Hup].
      * assert (n = 50) as -> by lia. cbn. eexists. split; [done|]. by cbn.
      * rewrite (proj2 (Z.leb_le (n + 1) 50)) by lia. unfold resync, ps_status_set_measurement.
        cbn [ps_state]. rewrite decide_False by by rewrite Hg.
        eexists. split; [f_equal; f_equal; lia|]. by cbn.
    + rewrite (proj2 (Z.leb_gt (n + 1) 50)) by lia. cbn. unfold resync; cbn.
      rewrite decide_False by by rewrite Hg. eexists. split; [done|]. by cbn.
Qed.

Lemma ramp_rounds ss :
  ∃ g', rounds ss (Control PS_STATE_IDLE 0) ps_shared_status = (ramp (Z.of_nat (length ss)), g') ∧
    ps_state g' = local_state (ramp (Z.of_nat (length ss))) ∧ fault_count g' = 0.
Proof.
  induction ss as [|s ss (g'&E&Hs&Hf)] using rev_ind; [by eexists|].
  rewrite rounds_app, E. rewrite length_app. simpl.
  destruct (ramp_round s (Z.of_nat (length ss)) g') as (g2&E2&Hs2&Hf2); [lia|done|].
  rewrite E2. exists g2. replace (Z.of_nat (length ss + 1)) with (Z.of_nat (length ss) + 1) by lia.
  split; [done|]. split; [done|]. congruence.
Qed.

(** ** Faults *)

(** Once the control task has seen the fault, both copies of the state stay
    FAULT, whatever happens. *)
Definition faulted a : Prop :=
  local_state (ctl a) = PS_STATE_FAULT ∧ ps_state (g_status a) = PS_STATE_FAULT ∧
  (∀ st, pc a ≠ Writing st).

Lemma faulted_step e a : faulted a → faulted (demo_exec e a).
Proof.
  destruct a as [p [l n] g]. intros (Hl&Hg&Hp). cbn in Hl, Hg. subst l.
  destruct e as [s|]; [|by split]. unfold demo_exec, faulted; cbn [pc ctl g_status].
  destruct p as [| |st|]; cbn.
  - by split.
  - split; [done|]. split; [done|done].
  - by destruct (Hp st).
  - unfold resync. rewrite decide_True by done. by split.
Qed.

Lemma faulted_run es a : faulted a → faulted (demo_run es a).
Proof.
  revert a. induction es as [|e es IH]; intros a Ha; [done|]. by apply IH, faulted_step.
Qed.

(** A fault that is noted while the task waits for its sample is seen in the
    same round. *)
Lemma fault_seen s c g :
  local_state c = PS_STATE_RUNNING ∨ local_state c = PS_STATE_FAULT →
  faulted (demo_run (replicate 3 (Control_step s)) (Demo Waiting c (ps_status_note_fault g))).
Proof.
  intros [Hc|Hc]; destruct c as [l n]; cbn in Hc; subst l; unfold demo_run, faulted; cbn;
    unfold resync; cbn; by split.
Qed.

(** ** The thresholds *)

Lemma adc_fault_threshold_all :
  forallb (λ k, let raw := Z.of_nat k in
    Bool.eqb (adc_fault raw) (2458 <=? raw) &&
    Bool.eqb (f32_gt (ADC_TO_MILLIVOLTS raw) PS_OVERVOLTAGE_LIMIT_MV) (3227 <=? raw) &&
    Bool.eqb (f32_gt (ADC_TO_MILLIAMPS raw) PS_OVERCURRENT_LIMIT_MA) (2458 <=? raw))
    (seq 0 4096) = true.
Proof. vm_compute. reflexivity. Qed.

Lemma adc_thresholds raw :
  0 ≤ raw < 4096 →
  adc_fault raw = (2458 <=? raw) ∧
  f32_gt (ADC_TO_MILLIVOLTS raw) PS_OVERVOLTAGE_LIMIT_MV = (3227 <=? raw) ∧
  f32_gt (ADC_TO_MILLIAMPS raw) PS_OVERCURRENT_LIMIT_MA = (2458 <=? raw).
Proof.
  intros Hr. pose proof adc_fault_threshold_all as Hall. rewrite forallb_forall in Hall.
  specialize (Hall (Z.to_nat raw)). cbv zeta in Hall. rewrite Z2Nat.id in Hall by lia.
  rewrite !andb_true_iff, !eqb_true_iff in Hall.
  destruct Hall as [[? ?] ?]; [|done]. apply in_seq. lia.
Qed.

Lemma adc_sample_range dr : 0 ≤ voltage_raw (adc_sample dr) < 4096.
Proof.
  unfold adc_sample; simpl. change 0xFFF with (Z.ones 12). rewrite Z.land_ones by lia.
  pose proof (Z.mod_pos_bound dr (2 ^ 12) ltac:(lia)). unfold u16. rewrite Z.mod_small; lia.
Qed.

Lemma adc_fault_sample dr : adc_fault dr = adc_fault (voltage_raw (adc_sample dr)).
Proof.
  pose proof (adc_sample_range dr) as Hr. unfold adc_fault at 1. cbv zeta.
  assert (adc_sample (voltage_raw (adc_sample dr)) = adc_sample dr) as E; [|by unfold adc_fault; rewrite E].
  set (r := voltage_raw (adc_sample dr)) in *.
  assert (voltage_raw (adc_sample r) = r) as Er.
  { unfold adc_sample; simpl. change 0xFFF with (Z.ones 12). rewrite Z.land_ones by lia.
    unfold u16. rewrite !Z.mod_small; [done|lia|]. rewrite Z.mod_small; lia. }
  unfold adc_sample in *; simpl in *. by rewrite Er.
Qed.

(** ** Lines *)

Definition cli_ok (c : cli) : Prop :=
  length (line_buf c) = CLI_LINE_BUF_LEN ∧ (line_len c < CLI_LINE_BUF_LEN)%nat.

Definition is_eol (b : Z) : bool := (b =? 13) || (b =? 10).

Implicit Types (k : cli).

(** Bytes without a line end are appended, up to 63 of them. *)
Lemma comms_chars bs k :
  cli_ok k → Forall (λ b, is_eol b = false) bs →
  ∃ k', comms_run bs k = Some (k', []) ∧ cli_ok k' ∧
    take (line_len k') (line_buf k') = take 63 (take (line_len k) (line_buf k) ++ bs).
Proof.
  intros Hok Hbs. revert k Hok. induction Hbs as [|b bs Hb Hbs IH]; intros k [Hl Hn].
  { exists k. split; [done|]. split; [done|]. rewrite app_nil_r. symmetry. apply take_ge.
    rewrite length_take. unfold CLI_LINE_BUF_LEN in *. lia. }
  unfold comms_run; fold comms_run. unfold comms_byte. unfold is_eol in Hb. rewrite Hb.
  unfold store_char, CLI_LINE_BUF_LEN in *.
  destruct (Nat.ltb_spec (line_len k) (64 - 1)) as [Hlt|Hge].
  - rewrite decide_True by lia. cbn [mbind option_bind].
    destruct (IH (Cli (<[line_len k := b]> (line_buf k)) (S (line_len k)))) as (k'&->&Hok'&E).
    { split; cbn; [by rewrite length_insert|unfold CLI_LINE_BUF_LEN; lia]. }
    exists k'. split; [done|]. split; [done|]. rewrite E. cbn [line_len line_buf]. f_equal.
    rewrite (take_S_r _ _ b) by (apply list_lookup_insert_eq; lia).
    rewrite take_insert_ge by lia. by rewrite <- app_assoc.
  - cbn [mbind option_bind]. destruct (IH k) as (k'&->&Hok'&E); [by split|].
    exists k'. split; [done|]. split; [done|]. rewrite E.
    assert (length (take (line_len k) (line_buf k)) = 63%nat) as E63 by (rewrite length_take; lia).
    rewrite !take_app, E63. change (63 - 63)%nat with 0%nat. by rewrite !take_0.
Qed.

(** A line and its end: one reply, to the first 63 bytes. *)
Lemma comms_line bs k e :
  cli_ok k → line_len k = 0%nat → Forall (λ b, is_eol b = false) bs → is_eol e = true →
  ∃ k' line, comms_run (bs ++ [e]) k = Some (k', [handle_command line]) ∧
    cli_ok k' ∧ line_len k' = 0%nat ∧ ∃ junk, line = take 63 bs ++ 0 :: junk.
Proof.
  intros Hok Hz Hbs He.
  assert (∀ bs1 bs2 k0, comms_run (bs1 ++ bs2) k0 =
    '(k1, r1) ← comms_run bs1 k0; '(k2, r2) ← comms_run bs2 k1; Some (k2, r1 ++ r2)) as Happ.
  { induction bs1 as [|b bs1 IH]; intros bs2 k0.
    - cbn. by destruct (comms_run bs2 k0) as [[? ?]|].
    - cbn [comms_run app]. destruct (comms_byte b k0) as [[k1 r]|]; [|done]. cbn [mbind option_bind].
      rewrite IH. destruct (comms_run bs1 k1) as [[k2 r2]|]; [|done]. cbn [mbind option_bind].
      destruct (comms_run bs2 k2) as [[k3 r3]|]; [|done]. cbn. by destruct r. }
  destruct (comms_chars bs k Hok Hbs) as (k1&E1&[Hl Hn]&Et). rewrite Happ, E1.
  cbn [mbind option_bind comms_run]. unfold comms_byte. unfold is_eol in He. rewrite He.
  unfold store_char, CLI_LINE_BUF_LEN in *. rewrite decide_True by lia. cbn [mbind option_bind app].
  rewrite Hz, take_0 in Et. change ([] ++ bs) with bs in Et.
  eexists _, (<[line_len k1 := 0]> (line_buf k1)). split; [done|].
  split; [split; cbn; [by rewrite length_insert|unfold CLI_LINE_BUF_LEN; lia]|]. split; [done|].
  exists (drop (S (line_len k1)) (line_buf k1)).
  rewrite <- Et, insert_take_drop by lia. done.
Qed.
