(* ===== verification/Report.v ===== *)
(** * What the tasks print ([comms_task.c], [logger_task.c])

    The status line, with the conversions [%.0f] and [%lu], and the buffer that
    [snprintf] writes it to.  The conversion from raw counts is in binary32.
    What [%.0f] prints depends on the C library that is linked, and is a
    parameter ([Printf]): the number, rounded to the nearest integer, or, with
    newlib-nano without its floating-point [printf] ([-u _printf_float]),
    nothing. *)
From Stdlib Require Import Strings.String Strings.Ascii Floats.SpecFloat.
From S2P Require Import Prelude DList Kernel PowerSupply.
From stdpp Require Import options.

(** Texts are lists of character codes. *)
Definition str (s : string) : list Z := (λ c, Z.of_nat (nat_of_ascii c)) <$> list_ascii_of_string s.
Definition eol : list Z := [13; 10].

(** ** Conversions *)

(** The decimal digits of [n], most significant first. *)
Fixpoint digits (fuel : nat) (n : Z) : list Z :=
  match fuel with
  | O => []
  | S fuel => (if n <? 10 then [] else digits fuel (n / 10)) ++ [48 + n mod 10]
  end.
(** [%lu] *)
Definition dec (n : Z) : list Z := digits (S (Z.to_nat (Z.log2 n))) n.

(** [m * 2^e] to the nearest integer, ties to even. *)
Definition round_even (m : positive) (e : Z) : Z :=
  if 0 <=? e then Zpos m * 2 ^ e
  else
    let d := 2 ^ (- e) in
    let q := Zpos m / d in
    let r := Zpos m mod d in
    if 2 * r <? d then q else if d <? 2 * r then q + 1 else if Z.even q then q else q + 1.

(** [%.0f] of the C standard. *)
Definition fixed0 (x : f32) : list Z :=
  let sign (s : bool) := if s then str "-" else [] in
  match x with
  | S754_zero s => sign s ++ dec 0
  | S754_infinity s => sign s ++ str "inf"
  | S754_nan => str "nan"
  | S754_finite s m e => sign s ++ dec (round_even m e)
  end.

(** The library's [%.0f]: that of the C standard, and that of newlib-nano
    ([-specs=nano.specs] in the Makefile) without [-u _printf_float]. *)
Class Printf := { percent_f0 : f32 → list Z }.
Definition standard_printf : Printf := {| percent_f0 := fixed0 |}.
Definition nano_printf : Printf := {| percent_f0 := λ _, [] |}.

(** What [snprintf(buf, size, ...)] leaves in [buf], up to its terminator. *)
Definition snprintf (size : nat) (text : list Z) : list Z := take (size - 1) text.

(** ** The texts *)

(** [ps_state_name]; its default, "UNKNOWN", is for values that no [ps_state_t]
    variable is ever given. *)
Definition ps_state_name (st : ps_state_t) : list Z :=
  match st with
  | PS_STATE_IDLE => str "IDLE"
  | PS_STATE_SOFT_START => str "SOFT_START"
  | PS_STATE_RUNNING => str "RUNNING"
  | PS_STATE_FAULT => str "FAULT"
  end.

Definition REPORT_BUF_LEN : nat := 96.

Section printf.
Context `{Printf}.

Definition status_text (g : ps_status_t) : list Z :=
  str "state=" ++ ps_state_name (ps_state g) ++ str " v=" ++ percent_f0 (ps_voltage_mv g) ++
  str "mV i=" ++ percent_f0 (ps_current_ma g) ++ str "mA faults=" ++ dec (fault_count g) ++ eol.


(** The [status] command's answer, and the logger's line. *)
Definition status_report (g : ps_status_t) : list Z := snprintf REPORT_BUF_LEN (status_text g).
Definition logger_report (g : ps_status_t) : list Z :=
  snprintf REPORT_BUF_LEN (str "[log] " ++ status_text g).

(** What [handle_command] passes to [ps_uart_puts], if anything; [g] is what
    [ps_status_get] returns. *)
Definition command_text (line : list Z) (g : ps_status_t) : option (list Z) :=
  match handle_command line with
  | StatusReport => Some (status_report g)
  | UnknownCommand => Some (str "unknown command" ++ eol)
  | NoReply => None
  end.
End printf.

(** ** Decimal numbers *)

(** The number that a string of digits denotes. *)
Definition value (ds : list Z) : Z := foldl (λ v d, 10 * v + (d - 48)) 0 ds.

(** [ds] is [n] in decimal, without leading zeros. *)
Definition decimal (ds : list Z) (n : Z) : Prop :=
  value ds = n ∧ Forall (λ d, 48 ≤ d ≤ 57) ds ∧ (ds = [48] ∨ ∃ d ds', ds = d :: ds' ∧ d ≠ 48).

Lemma digits_value fuel n : 0 ≤ n < 2 ^ Z.of_nat fuel → value (digits fuel n) = n.
Proof.
  revert n. induction fuel as [|fuel IH]; intros n Hn; [unfold value; simpl in *; lia|].
  cbn [digits]. unfold value in *. rewrite foldl_app. cbn [foldl].
  destruct (Z.ltb_spec n 10) as [Hlt|Hge].
  - cbn [foldl]. rewrite Z.mod_small; lia.
  - rewrite IH; [pose proof (Z.div_mod n 10); lia|]. rewrite Nat2Z.inj_succ, Z.pow_succ_r in Hn by lia.
    split; [apply Z.div_pos; lia|apply Z.div_lt_upper_bound; lia].
Qed.

Lemma log2_fuel n : 0 ≤ n → n < 2 ^ Z.of_nat (S (Z.to_nat (Z.log2 n))).
Proof.
  intros Hn. pose proof (Z.log2_nonneg n). rewrite Nat2Z.inj_succ, Z2Nat.id by done.
  destruct (decide (n = 0)) as [->|]; [done|]. apply Z.log2_spec. lia.
Qed.

Lemma dec_value n : 0 ≤ n → value (dec n) = n.
Proof. intros Hn. apply digits_value. split; [done|by apply log2_fuel]. Qed.

Lemma digits_decimal fuel n :
  0 ≤ n < 2 ^ Z.of_nat (S fuel) →
  Forall (λ d, 48 ≤ d ≤ 57) (digits (S fuel) n) ∧
  (n = 0 ∧ digits (S fuel) n = [48] ∨ ∃ d ds, digits (S fuel) n = d :: ds ∧ d ≠ 48).
Proof.
  revert n. induction fuel as [|fuel IH]; intros n Hn.
  - cbn [digits]. rewrite (proj2 (Z.ltb_lt n 10)) by (simpl in *; lia). assert (n = 0 ∨ n = 1) as [->| ->] by (simpl in *; lia).
    + split; [repeat constructor; done|by left].
    + split; [repeat constructor; done|right; by eexists _, _].
  - change (digits (S (S fuel)) n) with ((if n <? 10 then [] else digits (S fuel) (n / 10)) ++ [48 + n mod 10]).
    pose proof (Z.mod_pos_bound n 10 ltac:(lia)). destruct (Z.ltb_spec n 10) as [Hlt|Hge].
    + rewrite Z.mod_small by lia. split; [repeat constructor; lia|]. destruct (decide (n = 0)) as [->|]; [by left|].
      right. exists (48 + n), []. split; [done|lia].
    + destruct (IH (n / 10)) as [Hd Hh].
      { rewrite Nat2Z.inj_succ, Z.pow_succ_r in Hn by lia.
        split; [apply Z.div_pos; lia|apply Z.div_lt_upper_bound; lia]. }
      split; [apply Forall_app; split; [done|repeat constructor; lia]|]. right.
      destruct Hh as [[Hz _]|(d&ds&->&Hne)]; [|by exists d, (ds ++ [48 + n mod 10])].
      pose proof (Z.div_mod n 10). lia.
Qed.

Lemma dec_decimal n : 0 ≤ n → decimal (dec n) n.
Proof.
  intros Hn. destruct (digits_decimal (Z.to_nat (Z.log2 n)) n) as [Hd Hh]; [split; [done|by apply log2_fuel]|].
  split; [by apply dec_value|]. split; [done|]. destruct Hh as [[_ ?]|?]; auto.
Qed.

Lemma digits_length fuel n k : 0 ≤ n < 10 ^ Z.of_nat (S k) → (length (digits fuel n) ≤ S k)%nat.
Proof.
  revert n k. induction fuel as [|fuel IH]; intros n k Hn; [simpl; lia|].
  cbn [digits]. rewrite length_app. simpl. destruct (Z.ltb_spec n 10); [simpl; lia|].
  destruct k as [|k]; [simpl in Hn; lia|].
  enough (length (digits fuel (n / 10)) ≤ S k)%nat by lia. apply IH.
  rewrite (Nat2Z.inj_succ (S k)), Z.pow_succ_r in Hn by lia.
  split; [apply Z.div_pos; lia|apply Z.div_lt_upper_bound; lia].
Qed.

Lemma dec_length n k : 0 ≤ n < 10 ^ Z.of_nat (S k) → (length (dec n) ≤ S k)%nat.
Proof. apply digits_length. Qed.

(** ** The converted samples *)

(** [n / d] to the nearest integer. *)
Definition nearest (n d : Z) : Z := (2 * n + d) / (2 * d).

Lemma fixed0_all :
  forallb (λ k, let raw := Z.of_nat k in
    bool_decide (fixed0 (ADC_TO_MILLIVOLTS raw) = dec (nearest (16500 * raw) 4095)) &&
    bool_decide (fixed0 (ADC_TO_MILLIAMPS raw) = dec (nearest (5000 * raw) 4095))) (seq 0 4096) = true.
Proof. vm_compute. reflexivity. Qed.

Lemma fixed0_sample raw :
  0 ≤ raw < 4096 →
  fixed0 (ADC_TO_MILLIVOLTS raw) = dec (nearest (16500 * raw) 4095) ∧
  fixed0 (ADC_TO_MILLIAMPS raw) = dec (nearest (5000 * raw) 4095).
Proof.
  intros Hr. pose proof fixed0_all as Hall. rewrite forallb_forall in Hall.
  specialize (Hall (Z.to_nat raw)). cbv zeta in Hall. rewrite Z2Nat.id in Hall by lia.
  rewrite andb_true_iff, !bool_decide_eq_true in Hall. apply Hall, in_seq. lia.
Qed.

Lemma nearest_range n d b : 0 < d → 0 ≤ n ≤ b * d → 0 ≤ nearest n d ≤ b.
Proof.
  intros Hd Hn. unfold nearest. split; [apply Z.div_pos; lia|].
  enough ((2 * n + d) / (2 * d) < b + 1) by lia. apply Z.div_lt_upper_bound; nia.
Qed.

Lemma state_name_length st : (length (ps_state_name st) ≤ 10)%nat.
Proof. destruct st; simpl; lia. Qed.

Lemma snprintf_fits size text : (length text < size)%nat → snprintf size text = text.
Proof. intros. apply take_ge. lia. Qed.
