(* ===== verification/Main.v ===== *)
(** * The application's [main] ([app/power_supply/main.c])

    Bringing the kernel up with the application's objects and tasks, to the
    first running task. *)
From S2P Require Import Prelude DList Kernel Port Scheduler SchedInv SchedSpec Task WaitList Ring.
From S2P Require Import KernelInv TaskSpec KernelStep Mutex Semaphore Queue Timer TimerSpec Frame.
From S2P Require Import System Board PowerSupply.
From stdpp Require Import options.

(** The application's objects ([power_supply.c]) and tasks ([main.c]); task 0
    is the kernel's idle task, task 1 and semaphore 0 belong to the timer
    service. *)
Definition g_status_mutex : nat := 0%nat.
Definition g_fault_semaphore : nat := 1%nat.
Definition g_adc_sample_queue : nat := 0%nat.
Definition protection_tcb : tid := 2%nat.
Definition control_tcb : tid := 3%nat.
Definition comms_tcb : tid := 4%nat.
Definition logger_tcb : tid := 5%nat.

Definition ADC_QUEUE_DEPTH : Z := 8.
(** [sizeof(ps_adc_sample_t)]: two [uint16_t]. *)
Definition sizeof_adc_sample : Z := 4.
Definition adc_queue_buffer : list Z := replicate 32 0.

(** [STACK_WORDS(bytes)] *)
Definition STACK_WORDS (bytes : Z) : Z := bytes / 4.

Class AppImage := {
  protection_task_fn : Z; protection_stack : Z;
  control_task_fn : Z; control_stack : Z;
  comms_task_fn : Z; comms_stack : Z;
  logger_task_fn : Z; logger_stack : Z;
  timer_svc_stack : Z;
}.

Definition ps_shared_init : K unit :=
  nimble_mutex_init g_status_mutex ;;
  nimble_semaphore_init g_fault_semaphore 0 1 ;;
  nimble_queue_init g_adc_sample_queue adc_queue_buffer sizeof_adc_sample ADC_QUEUE_DEPTH.

(** ["protection"], ["control"], ["comms"] and ["logger"] *)
Definition str_protection : list Z := [112; 114; 111; 116; 101; 99; 116; 105; 111; 110; 0].
Definition str_control : list Z := [99; 111; 110; 116; 114; 111; 108; 0].
Definition str_comms : list Z := [99; 111; 109; 109; 115; 0].
Definition str_logger : list Z := [108; 111; 103; 103; 101; 114; 0].

Section image.
  Context `{Image, AppImage}.

(** [main], from [nimble_scheduler_init] on; [nimble_stm32f4_system_init] only
    writes registers of the board ([main_program]). *)
Definition main : K unit :=
  nimble_scheduler_init ;;
  ps_shared_init ;;
  nimble_task_create (Some protection_tcb) (Some str_protection) protection_task_fn 0
    protection_stack (STACK_WORDS 512) PS_PRIO_PROTECTION ;;
  nimble_task_create (Some control_tcb) (Some str_control) control_task_fn 0
    control_stack (STACK_WORDS 1024) PS_PRIO_CONTROL ;;
  nimble_task_create (Some comms_tcb) (Some str_comms) comms_task_fn 0
    comms_stack (STACK_WORDS 1024) PS_PRIO_COMMS ;;
  nimble_task_create (Some logger_tcb) (Some str_logger) logger_task_fn 0
    logger_stack (STACK_WORDS 768) PS_PRIO_LOGGER ;;
  nimble_timer_service_start PS_PRIO_TIMER_SVC timer_svc_stack (STACK_WORDS 512) ;;
  nimble_scheduler_start.

(** With the board brought up before it, as it is in the code.  No exception is
    taken between the two here, nor within [main]: [Scenarios.tick_before_init]
    and [tick_during_main] are what a tick does. *)
Definition main_program (b : board) : K board :=
  let b := nimble_stm32f4_system_init b in
  main ;;
  mret b.

(** ** The boot *)

(** A stack of the image: [words] mapped words at a non-null address. *)
Definition stack_ok (r : gmap Z Z) (base words : Z) : Prop :=
  0 < base ∧ base + 4 * words ≤ 2 ^ 32 ∧ mapped r base words.

Record image_ok (r : gmap Z Z) : Prop := {
  im_idle : stack_ok r idle_stack IDLE_STACK_WORDS;
  im_protection : stack_ok r protection_stack (STACK_WORDS 512);
  im_control : stack_ok r control_stack (STACK_WORDS 1024);
  im_comms : stack_ok r comms_stack (STACK_WORDS 1024);
  im_logger : stack_ok r logger_stack (STACK_WORDS 768);
  im_timer : stack_ok r timer_svc_stack (STACK_WORDS 512);
  im_fns : idle_task_fn ≠ 0 ∧ protection_task_fn ≠ 0 ∧ control_task_fn ≠ 0 ∧
    comms_task_fn ≠ 0 ∧ logger_task_fn ≠ 0 ∧ timer_task_fn ≠ 0;
}.

Lemma image_mapped s s' : mapped_still s s' → image_ok (ram s) → image_ok (ram s').
Proof.
  intros Hg [H1 H2 H3 H4 H5 H6 H7].
  assert (∀ base words, stack_ok (ram s) base words → stack_ok (ram s') base words) as Hst.
  { intros base words (?&?&Hm). split; [done|]. split; [done|]. intros j Hj. by apply Hg, Hm. }
  split; auto.
Qed.

(** The tasks after [main]: their priority and state. *)
Definition boot_task (t : tid) : option (Z * nimble_task_state_t) :=
  match t with
  | 0 => Some (0%Z, NIMBLE_TASK_READY)
  | 1 => Some (PS_PRIO_TIMER_SVC, NIMBLE_TASK_READY)
  | 2 => Some (PS_PRIO_PROTECTION, NIMBLE_TASK_RUNNING)
  | 3 => Some (PS_PRIO_CONTROL, NIMBLE_TASK_READY)
  | 4 => Some (PS_PRIO_COMMS, NIMBLE_TASK_READY)
  | 5 => Some (PS_PRIO_LOGGER, NIMBLE_TASK_READY)
  | _ => None
  end%nat.

(** The state [main] leads to: the protection task runs, the other five
    tasks are READY, and the objects are as initialised. *)
Record booted s : Prop := {
  bt_current : nimble_current_tcb s = Some protection_tcb;
  bt_tasks t : (λ c, (priority c, state c)) <$> tcbs s !! t = boot_task t;
  bt_base t c : tcbs s !! t = Some c → base_priority c = priority c;
  bt_mutexes : mutexes s = {[g_status_mutex := Mutex None 0]};
  bt_semaphores : semaphores s =
    {[timer_wake_sem := Semaphore 0 1; g_fault_semaphore := Semaphore 0 1]};
  bt_queues : ∃ qu, queues s = {[g_adc_sample_queue := qu]} ∧ items qu = [] ∧
    capacity qu = ADC_QUEUE_DEPTH ∧ item_size qu = sizeof_adc_sample;
}.

(** ** The nodes that [main] leaves alone *)

Section nodes.
Context (q : nat) (Hq : q ≠ g_adc_sample_queue) (n : nid) (Hn : n = NQRecv q ∨ n = NQSend q).

Definition has_node s : bool := bool_decide (n ∈ dom (nodes s)).

#[local] Instance has_node_sched_free : SchedFree (same has_node).
Proof using. split; try done. intros v s [E _]. unfold same, has_node. simpl. by rewrite E. Qed.

Class Other (h : nid) : Prop := other : h ≠ n.
#[local] Hint Extern 0 (Other _) => (unfold Other; by destruct Hn as [E|E]; rewrite E) : typeclass_instances.

#[local] Instance load_word_keeps a : Keeps has_node (load_word a).
Proof using. unfold load_word. keeps. Qed.
#[local] Instance store_word_keeps a v : Keeps has_node (store_word a v).
Proof using. unfold store_word. keeps. apply keeps_modify; [apply _|done]. Qed.
#[local] Instance push_words_keeps sp vs : Keeps has_node (push_words sp vs).
Proof using. revert sp. induction vs; intros sp; simpl; unfold push_word; keeps. Qed.
#[local] Instance fill_canary_keeps k base i : Keeps has_node (fill_canary k base i).
Proof using. revert i. induction k; intros i; simpl; keeps. Qed.

#[local] Instance init_node_keeps h `{!Other h} : Keeps has_node (on_nodes (nimble_list_init h)).
Proof using.
  intros s [] s' [= <-]. unfold same, has_node; simpl. apply bool_decide_ext. rewrite dom_insert_L.
  clear dependent q. unfold Other in *. set_solver.
Qed.

(** [keeps], with the making of nodes. *)
Ltac keeps_nodes :=
  repeat lazymatch goal with
  | |- Respects _ (_ ≫= _) => apply keeps_bind; [apply _| |intros ?]
  | |- Respects _ (on_nodes (nimble_list_init _)) => apply init_node_keeps
  | |- Other _ => apply _
  | |- Respects _ (modify _) => by apply keeps_modify; [apply _|]
  | _ => keeps_step
  end.

#[local] Instance ready_lists_keeps k i : Keeps has_node (init_ready_lists k i).
Proof using All. revert i. induction k; intros i; simpl; keeps_nodes. Qed.
#[local] Instance task_create_keeps t str fn arg base words prio :
  Keeps has_node (nimble_task_create t str fn arg base words prio).
Proof using All. unfold nimble_task_create, nimble_port_init_task_stack. keeps_nodes. Qed.
#[local] Instance scheduler_init_keeps : Keeps has_node nimble_scheduler_init.
Proof using All. unfold nimble_scheduler_init. keeps_nodes. Qed.
#[local] Instance shared_init_keeps : Keeps has_node ps_shared_init.
Proof using All.
  unfold ps_shared_init, nimble_mutex_init, put_mutex, nimble_semaphore_init, put_semaphore,
    nimble_queue_init, put_queue. keeps_nodes; unfold Other; destruct Hn; congruence.
Qed.
#[local] Instance service_start_keeps prio stack words :
  Keeps has_node (nimble_timer_service_start prio stack words).
Proof using All.
  unfold nimble_timer_service_start, nimble_semaphore_init, put_semaphore. keeps_nodes.
Qed.

Lemma main_keeps_node : Keeps has_node main.
Proof using All. unfold main, nimble_scheduler_start. keeps_nodes. Qed.

Lemma main_unmapped s s' : main s = Some (tt, s') → nodes s !! n = None → nodes s' !! n = None.
Proof using All.
  intros E Hs. pose proof (main_keeps_node _ _ _ E) as Ek. unfold same, has_node in Ek.
  rewrite <- !not_elem_of_dom in *. rewrite (bool_decide_eq_false_2 _ Hs) in Ek.
  by apply bool_decide_eq_false in Ek.
Qed.

End nodes.

Section mode.
Context {M : Mode}.

(** One creation of the boot sequence. *)
Lemma boot_create {X : Stale} s L t str fn base words prio :
  kernel_inv s L → image_ok (ram s) → tcbs s !! t = None → nimble_current_tcb s = None →
  pendsv s = false → timers s = ∅ → fn ≠ 0 → stack_ok (ram s) base words → 64 ≤ words →
  0 ≤ prio < 32 → is_Some (stored_name (Some str)) →
  wp (nimble_task_create (Some t) (Some str) fn 0 base words prio)
    (λ _ s', ∃ L' c, kernel_inv s' L' ∧ image_ok (ram s') ∧ tcbs s' = <[t := c]> (tcbs s) ∧
       priority c = prio ∧ base_priority c = prio ∧ state c = NIMBLE_TASK_READY ∧
       nimble_current_tcb s' = None ∧
       pendsv s' = false ∧ timers s' = ∅ ∧ same_objects s s' ∧
       (∀ h, is_wait h = true ∨ h = NTimers → get_list L' h = get_list L h)) s.
Proof.
  intros HI Him Ht Hcur Hp Hx Hfn (Hb&Htop&Hm) Hw Hpr [nm Hnm].
  wp_apply (create_inv s L t (Some str) fn 0 base words prio nm); [done|by split|].
  intros r s' (->&HI'&ET&Hst&Hout&Hc&Hps&Hobj&EX). eexists _, _. split; [done|].
  split; [by eapply image_mapped, Him; eapply fresh_stack_mapped|]. split; [done|].
  do 3 (split; [done|]). split; [congruence|]. split; [congruence|]. split; [congruence|]. split; [done|].
  intros h Hh. rewrite get_list_L_ready, decide_False; [done|]. destruct Hh as [Hh| ->]; [by destruct h|done].
Qed.

(** What [ps_shared_init] makes. *)
Definition shared_objects s s' : Prop :=
  mutexes s' = <[g_status_mutex := Mutex None 0]> (mutexes s) ∧
  semaphores s' = <[g_fault_semaphore := Semaphore 0 1]> (semaphores s) ∧
  ∃ qu, queues s' = <[g_adc_sample_queue := qu]> (queues s) ∧ items qu = [] ∧
    capacity qu = ADC_QUEUE_DEPTH ∧ item_size qu = sizeof_adc_sample.

Lemma boot_shared {X : Stale} s L :
  kernel_inv s L → (∀ h, is_object h = true → L !! h = None) →
  wp ps_shared_init
    (λ _ s', ∃ L', kernel_inv s' L' ∧ init_frame s s' ∧ shared_objects s s' ∧
       (∀ h, h = NTimers ∨ h = NSem timer_wake_sem → get_list L' h = [])) s.
Proof.
  intros HI HL. assert (∀ h, is_object h = true → get_list L h = []) as Hg.
  { intros h Hh. unfold get_list. by rewrite HL. }
  unfold ps_shared_init. wp_step. wp_apply mutex_init_spec; [done|by apply Hg|].
  intros _ s1 (HI1&(?&?&?&?&?&?)&EM1&ES1&EQ1). wp_step.
  wp_apply semaphore_init_spec; [exact HI1| |lia|lia|].
  { rewrite get_list_add_head by by apply Hg. by apply Hg. }
  intros _ s2 (HI2&(?&?&?&?&?&?)&ES2&EM2&EQ2).
  assert (∀ h, is_object h = true →
    get_list (<[NSem g_fault_semaphore := []]> (<[NMutex g_status_mutex := []]> L)) h = []) as Hg2.
  { intros h Hh. rewrite !get_list_add_head; [by apply Hg|by apply Hg|].
    rewrite get_list_add_head; by apply Hg. }
  wp_apply queue_init_spec; [exact HI2|by apply Hg2|by apply Hg2|done..|].
  intros _ s3 (HI3&(?&?&?&?&?&?)&EM3&ES3&qu&EQ3&?&?&?). eexists. split; [exact HI3|].
  split; [repeat split; congruence|]. split.
  { split; [congruence|]. split; [congruence|]. exists qu. split; [congruence|done]. }
  intros h Hh.
  rewrite (get_list_add_head _ (NQSend _)), (get_list_add_head _ (NQRecv _)).
  - by destruct Hh as [->| ->]; apply Hg2.
  - by apply Hg2.
  - rewrite (get_list_add_head _ (NQRecv _)); by apply Hg2.
Qed.

Lemma same_objects_trans s1 s2 s3 : same_objects s1 s2 → same_objects s2 s3 → same_objects s1 s3.
Proof. intros (?&?&?) (?&?&?). repeat split; congruence. Qed.

Lemma main_spec s :
  boot s → pendsv s = false → image_ok (ram s) →
  wp main (λ _ s', sys_inv (Sys s' ∅) ∧ booted s' ∧
    ∃ L, kernel_inv (X := λ _, False) s' L ∧ timers_ok s' L ∧ get_list L NTimers = []) s.
Proof.
  intros Hb Hp Him. pose proof Him as [(?&?&?) _ _ _ _ _ (Hf0&Hf1&Hf2&Hf3&Hf4&Hf5)].
  unfold main. wp_step. wp_apply (scheduler_init_spec (X := λ _, False)); [done..|].
  intros _ s1 (L1&c0&HI1&ET1&Hs0&Hp0&Hb0&Hc1&_&Hps1&Hx1&Hm1&(EM1&ES1&EQ1)&HL1).
  assert (image_ok (ram s1)) as Him1 by by eapply image_mapped.
  wp_step. wp_apply boot_shared; [done..|].
  intros _ s2 (L2&HI2&(ET2&EX2&ER2&EC2&EP2&_)&(EM2&ES2&qu&EQ2&Hqu)&Hg2). rewrite <- ER2 in Him1.
  rewrite ET1 in ET2. assert (timers s2 = ∅) as Hx2 by congruence.
  assert (nimble_current_tcb s2 = None) as Hc2 by congruence.
  assert (pendsv s2 = false) as Hps2 by congruence. clear Hm1 HL1.
  wp_step. wp_apply (boot_create s2 L2); [done|done|by rewrite ET2|done..|apply Him1|done|done|done|].
  intros _ s3 (L3&c2&HI3&Him3&ET3&Hpr2&Hbs2&Hst2&Hc3&Hps3&Hx3&Ho3&Hg3). rewrite ET2 in ET3.
  wp_step. wp_apply (boot_create s3 L3); [done|done|by rewrite ET3|done..|apply Him3|done|done|done|].
  intros _ s4 (L4&c3&HI4&Him4&ET4&Hpr3&Hbs3&Hst3&Hc4&Hps4&Hx4&Ho4&Hg4). rewrite ET3 in ET4.
  wp_step. wp_apply (boot_create s4 L4); [done|done|by rewrite ET4|done..|apply Him4|done|done|done|].
  intros _ s5 (L5&c4&HI5&Him5&ET5&Hpr4&Hbs4&Hst4&Hc5&Hps5&Hx5&Ho5&Hg5). rewrite ET4 in ET5.
  wp_step. wp_apply (boot_create s5 L5); [done|done|by rewrite ET5|done..|apply Him5|done|done|done|].
  intros _ s6 (L6&c5&HI6&Him6&ET6&Hpr5&Hbs5&Hst5&Hc6&Hps6&Hx6&Ho6&Hg6). rewrite ET5 in ET6.
  assert (∀ h, h = NTimers ∨ h = NSem timer_wake_sem → get_list L6 h = []) as Hg.
  { intros h Hh. assert (is_wait h = true ∨ h = NTimers) by (by destruct Hh as [->| ->]; auto).
    rewrite Hg6, Hg5, Hg4, Hg3 by done. by apply Hg2. }
  pose proof (im_timer _ Him6) as (?&?&?).
  wp_step. wp_apply (service_start_spec s6 L6); [done|done|by apply Hg; left|by apply Hg; right|
    split; try done; by rewrite ET6|].
  intros _ s7 (L7&_&HI7&Htk7&Hl7&HX7&ES7&ET7&Hc7&Hps7&EM7&EQ7). rewrite ET6 in ET7.
  pose proof (same_objects_trans _ _ _ Ho3 (same_objects_trans _ _ _ Ho4
    (same_objects_trans _ _ _ Ho5 Ho6))) as (EM6&ES6&EQ6).
  assert (∀ u cu, tcbs s7 !! u = Some cu → base_priority cu = priority cu ∧
    (u ≠ protection_tcb → priority cu < priority c2)) as Hall.
  { intros u cu. rewrite ET7, Hpr2. intros Hu.
    repeat (apply lookup_insert_Some in Hu as [[<- <-]|[? Hu]];
      [simpl; split; [congruence|try (rewrite ?Hpr3, ?Hpr4, ?Hpr5); done]|]).
    apply lookup_singleton_Some in Hu as [<- <-]. rewrite Hp0. split; [congruence|done]. }
  wp_apply (started_highest s7 L7 protection_tcb c2); [done|congruence|congruence| |done|..].
  - by rewrite ET7.
  - intros u cu. apply Hall.
  - intros u cu ?. by apply Hall.
  - intros _ s8 (Hinv&(L8&HI8&Hl8&Hh8)&Hcur&(EM8&ES8&EQ8)&EX8&ET8).
    split; [done|]. split; [split; [done|..]|].
    + intros t. rewrite ET8, ET7. unfold idle_tcb, timer_task_tcb, protection_tcb, control_tcb,
        comms_tcb, logger_tcb. do 6 (destruct t as [|t]; [simplify_map_eq; simpl; congruence|]).
      by rewrite !lookup_insert_ne, lookup_singleton_ne.
    + intros t c. rewrite ET8. intros [[<- <-]|[_ Hc]]%lookup_insert_Some; [simpl; congruence|].
      by eapply Hall.
    + rewrite EM8, EM7, EM6, EM2, EM1, (boot_mutexes _ Hb). done.
    + rewrite ES8, ES7, ES6, ES2, ES1, (boot_semaphores _ Hb). done.
    + exists qu. rewrite EQ8, EQ7, EQ6, EQ2, EQ1, (boot_queues _ Hb). done.
    + exists L8. split; [done|]. split; [|congruence]. split; [apply Hh8, Htk7|..]; rewrite EX8, HX7.
      * intros x. rewrite lookup_empty. by intros [].
      * intros x tm. by rewrite lookup_empty.
Qed.

Lemma main_inv s s' :
  boot s → pendsv s = false → image_ok (ram s) → main s = Some (tt, s') → sys_inv (Sys s' ∅).
Proof.
  intros Hb Hp Hi E.
  destruct (proj1 (wp_run _ _ _) (main_spec s Hb Hp Hi)) as ([]&s2&E2&Hinv&_). congruence.
Qed.

Lemma main_kernel s s' :
  boot s → pendsv s = false → image_ok (ram s) → main s = Some (tt, s') →
  booted s' ∧ ∃ L, kernel_inv (X := λ _, False) s' L ∧ timers_ok s' L ∧ get_list L NTimers = [].
Proof.
  intros Hb Hp Hi E.
  destruct (proj1 (wp_run _ _ _) (main_spec s Hb Hp Hi)) as ([]&s2&E2&_&Hres). assert (s2 = s') as -> by congruence. exact Hres.
Qed.

End mode.

Lemma main_defined s :
  boot s → pendsv s = false → image_ok (ram s) → ∃ s', main s = Some (tt, s').
Proof.
  intros Hb Hp Hi. destruct (proj1 (wp_run _ _ _) (main_spec (M := strict) s Hb Hp Hi)) as ([]&s2&E2&_). eauto.
Qed.
End image.
