(* ===== verification/Startup.v ===== *)
(** * Reset ([port/stm32f4/startup/startup_stm32f407xx.S])

    What runs before [main]: the two loops of [Reset_Handler], on the
    processor's registers and a memory of words, at the addresses that the
    linker script defines. *)
From S2P Require Import Prelude DList Kernel Port Scheduler SchedInv Task KernelInv TaskSpec.
From S2P Require Import KernelStep System PowerSupply Main.
From stdpp Require Import options.

(** The linker's symbols: the image of the initialised data, its place in
    RAM, and the zeroed data. *)
Class Layout := {
  _sidata : Z; _sdata : Z; _edata : Z;
  _sbss : Z; _ebss : Z;
}.

(** [copy_data_loop]: r0 is the destination, r1 its end, r2 the source, r3
    the offset of both; [bcc] compares unsigned. *)
Fixpoint copy_data (fuel : nat) (r0 r1 r2 r3 : Z) : K unit :=
  match fuel with
  | O => ub
  | S fuel =>
      let r4 := u32 (r0 + r3) in
      if r4 <? r1 then
        r4 ← load_word (u32 (r2 + r3));
        store_word (u32 (r0 + r3)) r4 ;;
        copy_data fuel r0 r1 r2 (u32 (r3 + 4))
      else mret tt
  end.

(** [zero_bss_loop]: r2 is the next word, r4 the end, and r3 is 0. *)
Fixpoint zero_bss (fuel : nat) (r2 r4 : Z) : K unit :=
  match fuel with
  | O => ub
  | S fuel =>
      if r2 <? r4 then store_word r2 0 ;; zero_bss fuel (u32 (r2 + 4)) r4
      else mret tt
  end.

Section reset.
Context `{Image, AppImage, Layout}.

(** More iterations than the section has bytes. *)
Definition section_fuel (lo hi : Z) : nat := S (Z.to_nat (hi - lo)).

Definition reset_memory : K unit :=
  copy_data (section_fuel _sdata _edata) _sdata _edata _sidata 0 ;;
  zero_bss (section_fuel _sbss _ebss) _sbss _ebss.

Definition Reset_Handler : K unit := reset_memory ;; main.

(** ** The loops *)

(** [n] words at [base], aligned to them, are in the address space. *)
Definition section_at (r : gmap Z Z) (base n : Z) : Prop :=
  0 ≤ base ∧ 0 ≤ n ∧ base + 4 * n < 2 ^ 32 ∧ mapped r base n.

(** What the linker script guarantees: whole words, the image of the data in
    Flash, below RAM, and [.bss] after [.data]. *)
Record layout_ok (r : gmap Z Z) (ndata nbss : Z) : Prop := {
  lo_data : section_at r _sdata ndata ∧ _edata = _sdata + 4 * ndata;
  lo_image : section_at r _sidata ndata ∧ _sidata + 4 * ndata ≤ _sdata;
  lo_bss : section_at r _sbss nbss ∧ _ebss = _sbss + 4 * nbss;
  lo_order : _edata ≤ _sbss;
}.

Implicit Types (s : kstate) (g : gmap Z Z).

(** The words from [i] to [n] at [base] hold [f]; the others are as they were. *)
Definition filled (f : Z → option Z) g g' (base i n : Z) : Prop :=
  (∀ j, i ≤ j < n → g' !! (base + 4 * j) = f j) ∧
  (∀ a, (∀ j, i ≤ j < n → a ≠ base + 4 * j) → g' !! a = g !! a).

Lemma filled_none f g base n : filled f g g base n n.
Proof using. split; [lia|done]. Qed.

Lemma filled_cons f g g' base i n v :
  0 ≤ i < n → f i = Some v → filled f (<[base + 4 * i := v]> g) g' base (i + 1) n → filled f g g' base i n.
Proof using.
  intros Hi Hf [Hin Hout]. split.
  - intros j Hj. destruct (decide (j = i)) as [->|]; [|apply Hin; lia].
    rewrite Hout by lia. by rewrite lookup_insert_eq.
  - intros a Ha. rewrite Hout by (intros j Hj; apply Ha; lia).
    apply lookup_insert_ne. intros <-. by apply (Ha i); [lia|].
Qed.

Lemma section_insert g base n a v : section_at g base n → section_at (<[a := v]> g) base n.
Proof using.
  intros (?&?&?&Hm). do 3 (split; [done|]). intros j Hj. apply lookup_insert_is_Some'. right. by apply Hm.
Qed.

Lemma copy_data_spec fuel s r0 r2 n i :
  section_at (ram s) r0 n → section_at (ram s) r2 n → r2 + 4 * n ≤ r0 →
  0 ≤ i ≤ n → (Z.to_nat (n - i) < fuel)%nat →
  wp (copy_data fuel r0 (r0 + 4 * n) r2 (4 * i))
    (λ _ s', s' = set_ram (ram s') s ∧
             filled (λ j, ram s !! (r2 + 4 * j)) (ram s) (ram s') r0 i n) s.
Proof using.
  revert s i. induction fuel as [|fuel IH]; intros s i Hd Hs Hle Hi Hf; [lia|].
  pose proof Hd as (?&?&?&Hm0). pose proof Hs as (?&_&?&Hm2). cbn [copy_data]. cbv zeta.
  rewrite !u32_small by lia. destruct (Z.ltb_spec (r0 + 4 * i) (r0 + 4 * n)).
  - destruct (Hm2 i ltac:(lia)) as [v Hv]. wp_step. apply (wp_oget _ v); [done|].
    wp_step. apply wp_store_word; [apply Hm0; lia|]. replace (4 * i + 4) with (4 * (i + 1)) by lia.
    eapply wp_mono; [apply IH; [by apply section_insert..|done|lia|lia]|]. cbn beta.
    intros _ s' [Es Hfill]. split; [rewrite Es; by destruct s|].
    eapply filled_cons; [lia|exact Hv|]. destruct Hfill as [Hin Hout]. split; [|done].
    intros j Hj. rewrite Hin by done. simpl. apply lookup_insert_ne. lia.
  - assert (i = n) as -> by lia. apply wp_ret. split; [by destruct s|apply filled_none].
Qed.

Lemma zero_bss_spec fuel s base n i :
  section_at (ram s) base n → 0 ≤ i ≤ n → (Z.to_nat (n - i) < fuel)%nat →
  wp (zero_bss fuel (base + 4 * i) (base + 4 * n))
    (λ _ s', s' = set_ram (ram s') s ∧ filled (λ _, Some 0) (ram s) (ram s') base i n) s.
Proof using.
  revert s i. induction fuel as [|fuel IH]; intros s i Hd Hi Hf; [lia|].
  pose proof Hd as (?&?&?&Hm0). cbn [zero_bss].
  destruct (Z.ltb_spec (base + 4 * i) (base + 4 * n)).
  - wp_step. apply wp_store_word; [apply Hm0; lia|].
    replace (base + 4 * i + 4) with (base + 4 * (i + 1)) by lia. rewrite u32_small by lia.
    eapply wp_mono; [apply IH; [by apply section_insert|lia|lia]|]. cbn beta.
    intros _ s' [Es Hfill]. split; [rewrite Es; by destruct s|].
    by apply (filled_cons _ _ _ _ _ _ 0); [lia|..].
  - assert (i = n) as -> by lia. apply wp_ret. split; [by destruct s|apply filled_none].
Qed.

(** ** The memory at [main] *)

(** The data is what its image says, [.bss] is zero, the rest is kept. *)
Record reset_done g g' (ndata nbss : Z) : Prop := {
  rd_data j : 0 ≤ j < ndata → g' !! (_sdata + 4 * j) = g !! (_sidata + 4 * j);
  rd_bss j : 0 ≤ j < nbss → g' !! (_sbss + 4 * j) = Some 0;
  rd_rest a : (∀ j, 0 ≤ j < ndata → a ≠ _sdata + 4 * j) → (∀ j, 0 ≤ j < nbss → a ≠ _sbss + 4 * j) →
    g' !! a = g !! a;
}.

Lemma reset_done_mapped g g' ndata nbss a :
  layout_ok g ndata nbss → reset_done g g' ndata nbss → is_Some (g !! a) → is_Some (g' !! a).
Proof using.
  intros [_ [(_&_&_&Hm) _] _ _] [Hd Hb Hr] Ha.
  destruct (decide ((a - _sdata) mod 4 = 0 ∧ 0 ≤ (a - _sdata) / 4 < ndata)) as [[Hmod Hj]|Hn].
  { replace a with (_sdata + 4 * ((a - _sdata) / 4)) by (pose proof (Z.div_mod (a - _sdata) 4); lia).
    rewrite Hd by done. by apply Hm. }
  destruct (decide ((a - _sbss) mod 4 = 0 ∧ 0 ≤ (a - _sbss) / 4 < nbss)) as [[Hmod Hj]|Hn'].
  { replace a with (_sbss + 4 * ((a - _sbss) / 4)) by (pose proof (Z.div_mod (a - _sbss) 4); lia).
    rewrite Hb by done. eauto. }
  rewrite Hr; [done|..]; intros j Hj ->.
  - apply Hn. replace (_sdata + 4 * j - _sdata) with (j * 4) by lia. rewrite Z.mod_mul, Z.div_mul; lia.
  - apply Hn'. replace (_sbss + 4 * j - _sbss) with (j * 4) by lia. rewrite Z.mod_mul, Z.div_mul; lia.
Qed.

Lemma reset_memory_spec s ndata nbss :
  layout_ok (ram s) ndata nbss →
  wp reset_memory (λ _ s', s' = set_ram (ram s') s ∧ reset_done (ram s) (ram s') ndata nbss) s.
Proof using.
  intros [[Hd Ed] [Hi Hlow] [Hb Eb] Ho]. pose proof Hd as (?&?&?&_). pose proof Hb as (?&?&?&_).
  unfold reset_memory, section_fuel. rewrite Ed, Eb in *. wp_step.
  eapply wp_mono; [apply (copy_data_spec _ s _sdata _sidata ndata 0); [done..|lia|lia]|]. cbn beta.
  intros _ s1 [E1 [Hin1 Hout1]].
  assert (section_at (ram s1) _sbss nbss) as Hb1.
  { destruct Hb as (?&?&?&Hm). do 3 (split; [done|]). intros j Hj.
    rewrite Hout1 by lia. by apply Hm. }
  pose proof (zero_bss_spec (S (Z.to_nat (_sbss + 4 * nbss - _sbss))) s1 _sbss nbss 0 Hb1
    ltac:(lia) ltac:(lia)) as Hz. rewrite Z.mul_0_r, Z.add_0_r in Hz.
  eapply wp_mono; [exact Hz|]. cbn beta.
  intros _ s2 [E2 [Hin2 Hout2]]. split; [rewrite E2, E1; by destruct s|]. split.
  - intros j Hj. rewrite Hout2 by lia. by apply Hin1.
  - intros j Hj. by apply Hin2.
  - intros a Hna Hnb. by rewrite Hout2, Hout1.
Qed.
End reset.
