(* ===== verification/Interrupts.v ===== *)
(** * The application's interrupt handlers ([isr_bridge.c], [uart_bridge.c])

    The ADC and the UART handler, on the kernel's state, and the path from an
    over-threshold sample to the protection task. *)
From S2P Require Import Prelude DList Kernel Port Scheduler SchedInv SchedSpec Task WaitList Ring.
From S2P Require Import KernelInv TaskSpec KernelStep Mutex Semaphore Queue Frame System.
From S2P Require Import PowerSupply Main.
From stdpp Require Import options.

Definition g_uart_rx_queue : nat := 1%nat.
Definition UART_RX_QUEUE_DEPTH : Z := 64.

(** [uart_bridge.c], called by the comms task before its loop. *)
Definition uart_bridge_init : K unit :=
  nimble_queue_init g_uart_rx_queue (replicate 64 0) 1 UART_RX_QUEUE_DEPTH.

(** A [uint16_t] and a sample as the bytes of their objects, little-endian. *)
Definition u16_bytes (v : Z) : list Z := [u8 v; u8 (Z.shiftr v 8)].
Definition sample_bytes (s : ps_adc_sample_t) : list Z :=
  u16_bytes (voltage_raw s) ++ u16_bytes (current_raw s).
Definition sample_of_bytes (bs : list Z) : option ps_adc_sample_t :=
  match bs with
  | [v0; v1; c0; c1] => Some (AdcSample (v0 + Z.shiftl v1 8) (c0 + Z.shiftl c1 8))
  | _ => None
  end.

(** [dr] is the value of [ADC1_DR]; the pair is the last status and the
    value of [needs_yield]. *)
Definition ADC_IRQHandler (dr : Z) : K unit :=
  isr (r ← nimble_queue_send_from_isr g_adc_sample_queue (sample_bytes (adc_sample dr));
       if adc_fault dr
       then r' ← nimble_semaphore_give_from_isr g_fault_semaphore; mret (r'.1, r.2 || r'.2)
       else mret r).

Definition USART1_SR_RXNE : Z := Z.shiftl 1 5.

(** [g_uart_rx_queue] before [uart_bridge_init]: the zeroed object of [.bss].
    [nimble_queue_send_from_isr] sees a full queue and looks no further. *)
Definition zeroed_queue : nimble_queue := Queue [] 0 0 0 0 0.
Definition uart_rx_send (item : list Z) : K (Z * bool) :=
  qu ← gets (λ s, queues s !! g_uart_rx_queue);
  match qu with
  | Some _ => nimble_queue_send_from_isr g_uart_rx_queue item
  | None =>
      if capacity zeroed_queue <=? q_count zeroed_queue then mret (NIMBLE_ERR_FULL, false) else ub
  end.

(** [sr] and [dr] are the values of [USART1_SR] and [USART1_DR]. *)
Definition USART1_IRQHandler (sr dr : Z) : K unit :=
  if Z.land sr USART1_SR_RXNE =? 0 then mret tt
  else isr (uart_rx_send [u8 (Z.land dr 0xFF)]).

(** ** Samples as bytes *)

Lemma u16_bytes_value v : 0 ≤ v < 2 ^ 16 → u8 v + Z.shiftl (u8 (Z.shiftr v 8)) 8 = v.
Proof.
  intros Hv. unfold u8. rewrite Z.shiftr_div_pow2, Z.shiftl_mul_pow2 by lia.
  rewrite (Z.mod_small (v / 2 ^ 8)).
  - pose proof (Z.div_mod v (2 ^ 8)). lia.
  - split; [apply Z.div_pos; lia|apply Z.div_lt_upper_bound; lia].
Qed.

Lemma sample_of_sample_bytes s :
  0 ≤ voltage_raw s < 2 ^ 16 → 0 ≤ current_raw s < 2 ^ 16 → sample_of_bytes (sample_bytes s) = Some s.
Proof.
  intros Hv Hc. destruct s as [v c]. cbn in *. by rewrite !u16_bytes_value.
Qed.

(** ** The handlers keep the machine's invariant *)

Implicit Types (L : gmap nid (list nid)) (s : kstate) (σ : sys) (p : nat).

Definition adc_ready s : Prop :=
  (∃ qu, queues s !! g_adc_sample_queue = Some qu ∧ item_size qu = sizeof_adc_sample) ∧
  is_Some (semaphores s !! g_fault_semaphore).

Section mode.
Context {M : Mode}.

Lemma adc_irq_step σ dr :
  sys_inv σ → adc_ready (ks σ) →
  ∃ s', run (ADC_IRQHandler dr) σ = Some (tt, Sys s' (phases σ)) ∧ sys_inv (Sys s' (phases σ)).
Proof.
  intros Hσ [(qu&Hq&Hi) [sem Hx]]. apply isr_step; [done|]. intros X L HI. wp_step.
  wp_apply send_from_isr_spec; [done|done|by rewrite Hi|].
  intros r s1 (L1&HI1&Hf1&Hk1&_). destruct (adc_fault dr); [|apply wp_ret; eauto].
  assert (is_Some (semaphores s1 !! g_fault_semaphore)) as [sem1 Hx1].
  { apply (fr_sems _ _ Hf1). eauto. }
  wp_step. wp_apply give_from_isr_spec; [done..|]. intros r' s2 (L2&HI2&Hf2&Hk2&_).
  apply wp_ret. split; [eauto|]. split; by etrans.
Qed.

Lemma usart_irq_step σ sr dr :
  sys_inv σ → (∀ qu, queues (ks σ) !! g_uart_rx_queue = Some qu → item_size qu = 1) →
  ∃ s', run (USART1_IRQHandler sr dr) σ = Some (tt, Sys s' (phases σ)) ∧
    sys_inv (Sys s' (phases σ)).
Proof.
  intros Hσ Hi. unfold USART1_IRQHandler. destruct (_ =? 0).
  - exists (ks σ). by destruct σ.
  - apply isr_step; [done|]. intros X L HI. unfold uart_rx_send. wp_step. apply wp_gets.
    destruct (queues (ks σ) !! g_uart_rx_queue) as [qu|] eqn:Hq;
      [|apply wp_ret; split; [by exists X, L|by split]].
    wp_apply send_from_isr_spec; [done|done|by rewrite (Hi qu)|].
    intros r s1 (L1&HI1&Hf1&Hk1&_). eauto.
Qed.

(** ** From a fault sample to the protection task *)

(** Sending leaves a waiter of another list where it is. *)
Lemma send_other_waiter {X : Stale} s L q qu item p x ws cp r s' L' :
  kernel_inv s L → get_list L (NSem x) = NEvent p :: ws → tcbs s !! p = Some cp →
  (if q_count qu <? capacity qu
   then ∃ woken, r = (NIMBLE_OK, woken) ∧ sent s L q qu item woken s' L'
   else r = (NIMBLE_ERR_FULL, false) ∧ s' = s ∧ L' = L) →
  get_list L' (NSem x) = NEvent p :: ws ∧ tcbs s' !! p = Some cp ∧
  (∀ u, priority <$> tcbs s' !! u = priority <$> tcbs s !! u).
Proof.
  intros HI Hx Hp Hout. destruct (q_count qu <? capacity qu); [|by destruct Hout as (_&->&->)].
  destruct Hout as (woken&_&qu'&_&_&_&Hwk). unfold wake_outcome in Hwk.
  destruct (get_list L (NQRecv q)) as [|[] ws'] eqn:Eq; try done.
  { by destruct Hwk as (_&->&->). }
  destruct Hwk as (_&_&Hoth&cw&Hw&_&->&_). split; [by rewrite Hoth|]. split.
  - rewrite lookup_insert_ne; [done|]. intros ->.
    pose proof (on_unique _ L (NQRecv q) (NSem x) (NEvent p)
      (si_repr _ _ _ (ki_sched _ _ (ki_core _ _ HI)))) as Hu.
    discriminate Hu; apply elem_of_get_list; [rewrite Eq|rewrite Hx]; left.
  - intros u. by eapply upd_same_prio.
Qed.

Lemma adc_fault_wakes {X : Stale} s L dr qu p ws cp :
  kernel_inv s L → queues s !! g_adc_sample_queue = Some qu → item_size qu = sizeof_adc_sample →
  is_Some (semaphores s !! g_fault_semaphore) →
  get_list L (NSem g_fault_semaphore) = NEvent p :: ws → tcbs s !! p = Some cp →
  adc_fault dr = true →
  wp (ADC_IRQHandler dr)
    (λ _ s', ∃ L', kernel_inv s' L' ∧ pendsv s' = true ∧
       tcbs s' !! p = Some (set_woken NIMBLE_OK cp) ∧
       (∀ u, priority <$> tcbs s' !! u = priority <$> tcbs s !! u)) s.
Proof.
  intros HI Hq Hi Hx Hl Hp Hf. unfold ADC_IRQHandler, isr. wp_step. wp_step.
  wp_apply send_from_isr_spec; [done|done|by rewrite Hi|].
  intros r s1 (L1&HI1&Hf1&Hk1&Hout).
  destruct (send_other_waiter _ _ _ _ _ _ _ _ _ _ _ _ HI Hl Hp Hout) as (Hl1&Hp1&Hpr1).
  rewrite Hf. apply (fr_sems _ _ Hf1) in Hx as [sem Hx].
  wp_step. wp_apply give_from_isr_spec; [done..|]. intros r' s2 (L2&HI2&Hf2&Hk2&Hout2).
  unfold give_outcome in Hout2. rewrite Hl1 in Hout2. destruct Hout2 as (->&_&_&cw&Hw&_&ET&_).
  apply wp_ret. cbn [fst snd]. rewrite orb_true_r. unfold when. apply wp_modify. exists L2.
  split; [by apply kernel_inv_pendsv|]. split; [done|]. simpl. rewrite ET. simplify_eq. split.
  - apply lookup_insert_eq.
  - intros u. rewrite <- Hpr1. by eapply upd_same_prio.
Qed.

(** The task that waits for the fault semaphore runs as soon as the handler
    returns, if its priority is above all the others', where lists and bitmap
    are exact. *)
Lemma adc_fault_switches {X : Stale} s L dr qu p ws cp :
  exact = true → kernel_inv s L → queues s !! g_adc_sample_queue = Some qu → item_size qu = sizeof_adc_sample →
  is_Some (semaphores s !! g_fault_semaphore) →
  get_list L (NSem g_fault_semaphore) = NEvent p :: ws → tcbs s !! p = Some cp →
  adc_fault dr = true →
  (∀ u cu, tcbs s !! u = Some cu → u ≠ p → priority cu < priority cp) →
  wp (ADC_IRQHandler dr ;; PendSV_Handler) (λ _ s', nimble_current_tcb s' = Some p) s.
Proof.
  intros Hex HI Hq Hi Hx Hl Hp Hf Hlow. wp_step.
  wp_apply adc_fault_wakes; [done..|]. intros _ s1 (L1&HI1&_&Hp1&Hpr).
  pose proof (ki_sched _ _ (ki_core _ _ HI1)) as HS1.
  destruct (pendsv_inv _ _ HI1) as [[_ Hwp]|[Hst _]];
    [|by apply live_not_stuck in Hst; [|apply (no_stale_live (X := X)); auto]].
  eapply wp_mono; [exact Hwp|]. intros _ s2 (t&pr&c0&HI2&Hfrom&_). cbv zeta in *.
  assert (switched s1 L1 t s2 (detach (NLink t) (requeue_lists s1 L1))) as Hsw by by exists pr, c0.
  rewrite (proj1 (switched_keeps _ _ _ _ _ Hsw)). f_equal.
  destruct (decide (t = p)) as [|Hne]; [done|exfalso].
  destruct Hfrom as (m'&b'&_&_&Hc0&_&_&Es2&_).
  assert (tcbs s2 = <[t := set_state NIMBLE_TASK_RUNNING c0]> (requeue_tcbs s1)) as ET by by rewrite Es2.
  assert (∀ u, priority <$> requeue_tcbs s1 !! u = priority <$> tcbs s !! u) as Hpr'.
  { intros u. by rewrite requeue_prio. }
  assert (∃ cp', requeue_tcbs s1 !! p = Some cp' ∧ state cp' = NIMBLE_TASK_READY ∧
    priority cp' = priority cp) as (cp'&Hp'&Hsp&Epp).
  { unfold requeue_tcbs. destruct (nimble_current_tcb s1) as [v|]; [|by eexists].
    destruct (tcbs s1 !! v) as [cv|] eqn:Ev; [|by eexists]. case_decide; [|by eexists].
    destruct (decide (v = p)) as [->|].
    - rewrite lookup_insert_eq. eexists. split; [done|]. by simplify_eq.
    - rewrite lookup_insert_ne by done. by eexists. }
  destruct (switched_highest s1 L1 t s2 _ p cp' (set_state NIMBLE_TASK_RUNNING c0) HI1 Hsw)
    as (pp&[_ Hpp]&Hmax&_); [by rewrite ET, lookup_insert_eq|by rewrite ET, lookup_insert_ne|done|].
  rewrite (Hpp Hex) in Hmax. simpl in Hmax.
  specialize (Hpr' t). rewrite Hc0 in Hpr'. destruct (tcbs s !! t) as [ct|] eqn:Et; [|done].
  injection Hpr' as Hpr'. specialize (Hlow t ct Et Hne). lia.
Qed.

End mode.
