(* ===== verification/Application.v ===== *)
(** * The application's tasks on the kernel

    The loops of [protection_task.c], [control_task.c], [comms_task.c] and
    [logger_task.c] (and of the timer task, which has no timers here) as
    programs of the machine: the running task does its next kernel call or
    touches the shared status one word at a time; ticks, PendSV and the device
    handlers come at any point.  The files of the kernel and [power_supply.c]
    are not changed by this: every kernel event is one of [System]. *)
From S2P Require Import Prelude DList Kernel Scheduler SchedInv KernelInv System Abstract.
From S2P Require Import Refinement Simulation Delivery Waiting Timer PowerSupply Main Interrupts.
From stdpp Require Import options.

#[local] Existing Instance inherit.

(** ** The shared status ([power_supply.c]) *)

(** The functions that access [g_status] under [g_status_mutex]. *)
Inductive section :=
  | SGet                            (** [ps_status_get] *)
  | SMeasure (v i : f32)            (** [ps_status_set_measurement] *)
  | SSetState (st : ps_state_t)     (** [ps_status_set_state] *)
  | SNoteFault.                     (** [ps_status_note_fault] *)

(** The words of a [ps_status_t] are copied or written one by one.  The pair
    is the shared status and a local of the accessing task: the copy that
    [ps_status_get] fills, and the register of [fault_count++]. *)
Definition word := ps_status_t * ps_status_t → ps_status_t * ps_status_t.

Definition with_state st g := Status st (ps_voltage_mv g) (ps_current_ma g) (fault_count g).
Definition with_voltage v g := Status (ps_state g) v (ps_current_ma g) (fault_count g).
Definition with_current_ma i g := Status (ps_state g) (ps_voltage_mv g) i (fault_count g).
Definition with_faults n g := Status (ps_state g) (ps_voltage_mv g) (ps_current_ma g) n.

Definition section_words (s : section) : list word :=
  match s with
  | SGet =>
      [λ '(g, r), (g, with_state (ps_state g) r);
       λ '(g, r), (g, with_voltage (ps_voltage_mv g) r);
       λ '(g, r), (g, with_current_ma (ps_current_ma g) r);
       λ '(g, r), (g, with_faults (fault_count g) r)]
  | SMeasure v i =>
      [λ '(g, r), (with_voltage v g, r); λ '(g, r), (with_current_ma i g, r)]
  | SSetState st => [λ '(g, r), (with_state st g, r)]
  | SNoteFault =>
      [λ '(g, r), (with_state PS_STATE_FAULT g, r);
       λ '(g, r), (g, with_faults (fault_count g) r);
       λ '(g, r), (with_faults (u32 (fault_count r + 1)) g, r)]
  end.

Definition do_words (ws : list word) (gr : ps_status_t * ps_status_t) : ps_status_t * ps_status_t :=
  foldl (λ x w, w x) gr ws.

(** What the function does as a whole. *)
Definition section_effect (s : section) (g : ps_status_t) : ps_status_t :=
  match s with
  | SGet => g
  | SMeasure v i => ps_status_set_measurement v i g
  | SSetState st => ps_status_set_state st g
  | SNoteFault => ps_status_note_fault g
  end.

(** ** The programs *)

Definition LOGGER_PERIOD_TICKS : Z := NIMBLE_TICK_RATE_HZ.

(** Where a task is in its loop, with its local variables: at the next
    operation it is about to do. *)
Inductive local :=
  | ProtTake | ProtNote
  | CtlReceive (c : control)
  | CtlMeasure (s : ps_adc_sample_t) (c : control)
  | CtlWrite (st : ps_state_t) (c : control)
  | CtlResync (c : control)
  | CliInit (k : cli) | CliReceive (k : cli) | CliReport (k : cli)
  | LogGet | LogDelay
  | TimerTake.

(** The four loops ([protection_task_fn], [control_task_fn], [comms_task_fn],
    [logger_task_fn]): the kernel call at the top or the end of the loop, and
    what follows its return. *)
Definition protection_take : call := CTake g_fault_semaphore NIMBLE_WAIT_FOREVER.
Definition protection_taken (r : Z) : local := if r =? NIMBLE_OK then ProtNote else ProtTake.

Definition control_receive : call := CReceive g_adc_sample_queue NIMBLE_WAIT_FOREVER.
Definition control_received (r : Z) (out : option (list Z)) (c : control) : option local :=
  if r =? NIMBLE_OK then bs ← out; s ← sample_of_bytes bs; Some (CtlMeasure s c)
  else Some (CtlReceive c).
(** [run_state_machine], up to the call of [ps_status_set_state] or of
    [ps_status_get]. *)
Definition control_measured (c : control) : local :=
  let '(c, w) := advance c in
  match w with Some st => CtlWrite st c | None => CtlResync c end.

Definition comms_receive : call := CReceive g_uart_rx_queue NIMBLE_WAIT_FOREVER.
Definition comms_received (r : Z) (out : option (list Z)) (k : cli) : option local :=
  if r =? NIMBLE_OK then
    bs ← out; b ← head bs;
    '(k, rep) ← comms_byte b k;
    Some (match rep with Some StatusReport => CliReport k | _ => CliReceive k end)
  else Some (CliReceive k).

Definition logger_delay : call := CDelay LOGGER_PERIOD_TICKS.

Arguments protection_taken _ /.
Arguments control_received _ _ _ /.
Arguments control_measured _ /.
Arguments comms_received _ _ _ /.

Inductive op := OpCall (c : call) | OpInit (o : object) | OpStatus (s : section).

Definition next (l : local) : op :=
  match l with
  | ProtTake => OpCall protection_take
  | ProtNote => OpStatus SNoteFault
  | CtlReceive _ => OpCall control_receive
  | CtlMeasure s _ =>
      OpStatus (SMeasure (ADC_TO_MILLIVOLTS (voltage_raw s)) (ADC_TO_MILLIAMPS (current_raw s)))
  | CtlWrite st _ => OpStatus (SSetState st)
  | CtlResync _ => OpStatus SGet
  | CliInit _ => OpInit (OQueue g_uart_rx_queue (replicate 64 0) 1 UART_RX_QUEUE_DEPTH)
  | CliReceive _ => OpCall comms_receive
  | CliReport _ => OpStatus SGet
  | LogGet => OpStatus SGet
  | LogDelay => OpCall logger_delay
  | TimerTake => OpCall (CTake timer_wake_sem NIMBLE_WAIT_FOREVER)
  end.

(** What an operation leaves the task with: a return value and a received
    item, or the local of a status function. *)
Inductive result := RCode (r : Z) (out : option (list Z)) | RStatus (g : ps_status_t).

(** The local code up to the next operation. *)
Definition after (l : local) (res : result) : option local :=
  match l, res with
  | ProtTake, RCode r _ => Some (protection_taken r)
  | ProtNote, RStatus _ => Some ProtTake
  | CtlReceive c, RCode r out => control_received r out c
  | CtlMeasure _ c, RStatus _ => Some (control_measured c)
  | CtlWrite _ c, RStatus _ => Some (CtlResync c)
  | CtlResync c, RStatus g => Some (CtlReceive (resync g c))
  | CliInit k, RCode _ _ => Some (CliReceive k)
  | CliReceive k, RCode r out => comms_received r out k
  | CliReport k, RStatus _ => Some (CliReceive k)
  | LogGet, RStatus _ => Some LogDelay
  | LogDelay, RCode _ _ => Some LogGet
  | TimerTake, RCode _ _ => Some TimerTake
  | _, _ => None
  end.

(** ** The application machine *)

(** A task between two of its steps. *)
Inductive tpc :=
  | At (l : local)                                        (** in its own code *)
  | InCall (l : local) (res : option (Z * option (list Z)))
      (** in a kernel call; the result, once the call has one *)
  | Locking (l : local)                                   (** in [nimble_mutex_lock] *)
  | Inside (l : local) (k : nat) (r : ps_status_t)        (** after [k] words of the section *)
  | Releasing (l : local) (r : ps_status_t).              (** in [nimble_mutex_unlock] *)

Record app := App { a_sys : sys; a_status : ps_status_t; a_pcs : gmap nat tpc }.

Definition lock_status : call := CLock g_status_mutex NIMBLE_WAIT_FOREVER.
Definition unlock_status : call := CUnlock g_status_mutex.

(** The words of the operation at [l]. *)
Definition op_words (l : local) : list word :=
  match next l with OpStatus s => section_words s | _ => [] end.

(** The kernel event that the running task [t] does next; [None] if it
    accesses a word of the status. *)
Definition next_event (pc : tpc) (ph : phase) : option event :=
  match ph with
  | Requesting _ => Some ERequest
  | Resuming _ => Some EResume
  | User =>
      match pc with
      | At l => Some (match next l with
                      | OpCall c => ECall c
                      | OpInit o => EInit o
                      | OpStatus _ => ECall lock_status
                      end)
      | Inside l k _ => match op_words l !! k with Some _ => None | None => Some (ECall unlock_status) end
      | _ => None
      end
  end.

(** The task after its kernel event.  [ps_status_*] ignore what the lock
    returns. *)
Definition continue (l : local) (res : result) : option tpc := At <$> after l res.

(** A local variable that has no value yet. *)
Definition no_status : ps_status_t := Status PS_STATE_IDLE (f32_of_Z 0) (f32_of_Z 0) 0.

Definition on_reply (e : event) (pc : tpc) (r : Simulation.reply) : option tpc :=
  match e, r with
  | ERequest, _ => Some pc
  | EInit _, _ => match pc with At l => continue l (RCode NIMBLE_OK None) | _ => None end
  | ECall _, RCall o =>
      match pc with
      | At l =>
          match next l, o with
          | OpStatus _, Returned _ _ _ => Some (Inside l 0 no_status)
          | OpStatus _, Blocked _ => Some (Locking l)
          | _, Returned r out false => continue l (RCode r out)
          | _, Returned r out true => Some (InCall l (Some (r, out)))
          | _, Blocked _ => Some (InCall l None)
          end
      | Inside l _ v =>
          match o with
          | Returned _ _ false => continue l (RStatus v)
          | Returned _ _ true => Some (Releasing l v)
          | Blocked _ => None
          end
      | _ => None
      end
  | EResume, RResume _ (r, out) =>
      match pc with
      | InCall l (Some (r, out)) => continue l (RCode r out)
      | InCall l None => continue l (RCode r out)
      | Locking l => Some (Inside l 0 no_status)
      | Releasing l v => continue l (RStatus v)
      | _ => None
      end
  | _, _ => None
  end.

(** The interrupts of the board. *)
Definition interrupt (e : event) : Prop :=
  match e with
  | ETick | EPendSV => True
  | EIsrGive x => x = g_fault_semaphore
  | EIsrSend q item =>
      q = g_adc_sample_queue ∧ length item = 4%nat ∨ q = g_uart_rx_queue ∧ length item = 1%nat
  | _ => False
  end.

Inductive app_event := Interrupt (e : event) | Run.

Definition app_exec (e : app_event) (a : app) : option app :=
  let σ := a_sys a in
  match e with
  | Interrupt e => σ' ← exec e σ; Some (App σ' (a_status a) (a_pcs a))
  | Run =>
      t ← nimble_current_tcb (ks σ);
      pc ← a_pcs a !! t;
      match next_event pc (phase_of σ t) with
      | Some e =>
          r ← reply_of e σ; σ' ← exec e σ; pc' ← on_reply e pc r;
          Some (App σ' (a_status a) (<[t := pc']> (a_pcs a)))
      | None =>
          match pc with
          | Inside l k v =>
              w ← op_words l !! k;
              let '(g, v) := w (a_status a, v) in
              Some (App σ g (<[t := Inside l (S k) v]> (a_pcs a)))
          | _ => None
          end
      end
  end.

(** Thread code runs while no PendSV is pending. *)
Definition app_enabled (e : app_event) (a : app) : Prop :=
  let σ := a_sys a in
  match e with
  | Interrupt e => interrupt e ∧ enabled e σ
  | Run => ∃ t pc, nimble_current_tcb (ks σ) = Some t ∧ a_pcs a !! t = Some pc ∧
      pendsv (ks σ) = false ∧
      match next_event pc (phase_of σ t) with Some e => enabled e σ | None => True end
  end.

Inductive app_step : app → app_event → app → Prop :=
  | app_step_exec a e a' : app_enabled e a → app_exec e a = Some a' → app_step a e a'.

Inductive app_run : app → app → Prop :=
  | app_run_refl a : app_run a a
  | app_run_step a e a1 a' : app_step a e a1 → app_run a1 a' → app_run a a'.

(** The tasks when [nimble_scheduler_start] starts them; [line] is what the
    comms task's stack holds where [line_buf] will be. *)
Definition app_tasks (line : list Z) : gmap nat tpc :=
  <[protection_tcb := At ProtTake]> (<[control_tcb := At (CtlReceive (Control PS_STATE_IDLE 0))]>
  (<[comms_tcb := At (CliInit (Cli line 0))]> (<[logger_tcb := At LogGet]>
  {[timer_task_tcb := At TimerTake]}))).

Definition app_start (s : kstate) (line : list Z) : app := App (Sys s ∅) ps_shared_status (app_tasks line).

(** ** The status is accessed by the owner of its mutex only *)

Implicit Types (t u : nat) (l : local) (pc : tpc) (σ : sys) (a : app) (e : event) (g : ps_status_t).

Definition pc_ok σ t pc : Prop :=
  match pc with
  | At _ => phase_of σ t = User
  | InCall _ (Some _) | Releasing _ _ => in_call PDone (phase_of σ t)
  | InCall _ None => phase_of σ t ≠ User
  | Locking _ => call_waits t (NMutex g_status_mutex) (PLock g_status_mutex) σ
  | Inside _ _ _ => phase_of σ t = User ∧ owner_at σ g_status_mutex = Some t
  end.

Record app_ok a : Prop := {
  ao_sys : sys_inv (a_sys a);
  ao_pcs t pc : a_pcs a !! t = Some pc → pc_ok (a_sys a) t pc;
}.

(** Events of the running task. *)
Definition thread_event (e : event) : bool :=
  match e with ECall _ | EInit _ | ERequest | EResume => true | _ => false end.

Lemma exec_phase_other e σ σ' t :
  exec e σ = Some σ' → (thread_event e = true → nimble_current_tcb (ks σ) ≠ Some t) →
  phase_of σ' t = phase_of σ t.
Proof.
  intros E Hne.
  destruct e as [cl|o| | | | |x|q item]; unfold exec, run in E; simpl in Hne.
  - destruct (nimble_current_tcb (ks σ)) as [u|]; [|done]. cbn [mbind option_bind] in E.
    destruct (run_call cl (ks σ)) as [[o s']|]; [|done]. cbn in E. specialize (Hne eq_refl).
    destruct o as [? ? []|]; injection E as <-; rewrite ?phase_of_set, ?decide_False by congruence; done.
  - destruct (init_object o (ks σ)) as [[? ?]|]; [|done]. by injection E as <-.
  - destruct (nimble_current_tcb (ks σ)) as [u|]; [|done]. cbn [mbind option_bind] in E.
    destruct (phase_of σ u); try done. injection E as <-. specialize (Hne eq_refl).
    by rewrite phase_of_set, decide_False by congruence.
  - destruct (nimble_current_tcb (ks σ)) as [u|]; [|done]. cbn [mbind option_bind] in E.
    destruct (phase_of σ u) as [| |p]; try done. destruct (run_pending p u (ks σ)) as [[? ?]|]; [|done].
    injection E as <-. specialize (Hne eq_refl). by rewrite phase_of_set, decide_False by congruence.
  - destruct (SysTick_Handler (ks σ)) as [[? ?]|]; [|done]. by injection E as <-.
  - destruct (PendSV_Handler (ks σ)) as [[? ?]|]; [|done]. by injection E as <-.
  - destruct (isr _ (ks σ)) as [[? ?]|]; [|done]. by injection E as <-.
  - destruct (isr _ (ks σ)) as [[? ?]|]; [|done]. by injection E as <-.
Qed.

(** The phase of the running task after its own event. *)
Lemma call_phase σ cl σ' t o :
  nimble_current_tcb (ks σ) = Some t → exec (ECall cl) σ = Some σ' →
  reply_of (ECall cl) σ = Some (RCall o) →
  phase_of σ' t = match o with
                  | Returned _ _ false => phase_of σ t
                  | Returned _ _ true => Requesting PDone
                  | Blocked p => Requesting p
                  end.
Proof.
  intros Hcur E Er. unfold exec, run in E. simpl in Er. rewrite Hcur in E. cbn [mbind option_bind] in E.
  destruct (run_call cl (ks σ)) as [[o' s']|]; [|done]. cbn in E, Er. injection Er as ->.
  destruct o as [? ? []|]; injection E as <-; rewrite ?phase_of_set, ?decide_True by done; done.
Qed.

Lemma request_phase σ σ' t p :
  nimble_current_tcb (ks σ) = Some t → phase_of σ t = Requesting p → exec ERequest σ = Some σ' →
  phase_of σ' t = Resuming p.
Proof.
  intros Hcur Hph E. unfold exec in E. rewrite Hcur in E. cbn [mbind option_bind] in E.
  rewrite Hph in E. injection E as <-. by rewrite phase_of_set, decide_True.
Qed.

Lemma resume_phase σ σ' t :
  nimble_current_tcb (ks σ) = Some t → exec EResume σ = Some σ' → phase_of σ' t = User.
Proof.
  intros Hcur E. unfold exec, run in E. rewrite Hcur in E. cbn [mbind option_bind] in E.
  destruct (phase_of σ t) as [| |p]; try done. destruct (run_pending p t (ks σ)) as [[? ?]|]; [|done].
  injection E as <-. by rewrite phase_of_set, decide_True.
Qed.

(** A step of another task, or an interrupt. *)
Lemma pc_ok_other σ e σ' t pc :
  sys_inv σ → step σ e σ' → (thread_event e = true → nimble_current_tcb (ks σ) ≠ Some t) →
  pc_ok σ t pc → pc_ok σ' t pc.
Proof.
  intros Hσ Hs Hne. inversion Hs as [? ? ? _ E]; subst.
  pose proof (exec_phase_other e σ σ' t E Hne) as Eph.
  destruct pc as [l|l [v|]|l|l k v|l v]; simpl; rewrite ?Eph; try done.
  - intros Hw. eapply step_waits; [done..|]. intros ->. by apply Hne.
  - intros [? Ho]. split; [done|]. eapply owner_stable; [done..|].
    intros [-> Hcur]. by apply Hne.
Qed.

(** The lock of the status: what it returns, and that it waits. *)
Lemma lock_reply σ t σ' o m :
  sys_inv σ → nimble_current_tcb (ks σ) = Some t → step σ (ECall (CLock m NIMBLE_WAIT_FOREVER)) σ' →
  reply_of (ECall (CLock m NIMBLE_WAIT_FOREVER)) σ = Some (RCall o) →
  match o with
  | Returned _ _ sw => sw = false ∧ owner_at σ' m = Some t
  | Blocked p => p = PLock m
  end.
Proof.
  intros Hσ Hcur Hs Er. destruct (sv_kernel _ Hσ) as (X&L&HI).
  pose proof (simulates_some _ _ _ (simulates_abstraction (X := X) σ L HI)) as Hα. set (α := ASys _ _) in Hα.
  destruct (step_refines σ α _ σ' Hσ Hα Hs) as (α1&E&Hα1&Er'). rewrite Er in Er'.
  unfold aexec in E. unfold a_reply_of in Er'. rewrite (sim_current _ _ Hα), Hcur in E, Er'.
  cbn [mbind option_bind] in E, Er'.
  destruct (acall t (CLock m NIMBLE_WAIT_FOREVER) (ak α)) as [[o' a']|] eqn:Ea; [|done]. cbn [mbind option_bind] in E, Er'.
  injection Er' as ->. injection E as <-. destruct Hα1 as [(X1&L1&_&Ha1) _]. cbn [ak] in Ha1.
  assert (owner_at σ' m = a_owner m a') as ->.
  { unfold owner_at, a_owner. by rewrite (ab_mutexes _ _ _ Ha1). }
  unfold acall in Ea. destruct (a_tasks (ak α) !! t) as [c|]; [|done]. cbn [mbind option_bind] in Ea.
  destruct (a_mutexes (ak α) !! m) as [mu|]; [|done]. cbn [mbind option_bind] in Ea.
  destruct (owner mu) as [v|].
  - case_decide; [injection Ea as <- <-; split; [done|]; unfold a_owner; simpl; by rewrite lookup_insert_eq|].
    replace (NIMBLE_WAIT_FOREVER =? NIMBLE_NO_WAIT) with false in Ea by done.
    destruct (a_tasks (ak α) !! v); [|done]. by injection Ea as <- _.
  - injection Ea as <- <-. split; [done|]. unfold a_owner; simpl. by rewrite lookup_insert_eq.
Qed.

Lemma continue_at l res pc : continue l res = Some pc → ∃ l', pc = At l'.
Proof. unfold continue. destruct (after l res); [|done]. intros [= <-]. eauto. Qed.

(** The running task at its own event. *)
Lemma pc_ok_run σ t pc e σ' r pc' :
  sys_inv σ → nimble_current_tcb (ks σ) = Some t → pc_ok σ t pc →
  next_event pc (phase_of σ t) = Some e → step σ e σ' → reply_of e σ = Some r →
  on_reply e pc r = Some pc' → pc_ok σ' t pc'.
Proof.
  intros Hσ Hcur Hok Hnext Hs Er Hon. inversion Hs as [? ? ? He E]; subst.
  unfold next_event in Hnext. destruct (phase_of σ t) as [|p|p] eqn:Hph.
  - destruct pc as [l|l v|l|l k v|l v]; try done.
    + destruct (next l) as [cl|o|s] eqn:El; injection Hnext as <-; unfold on_reply in Hon.
      * destruct r as [o| | |]; try done. rewrite El in Hon.
        pose proof (call_phase σ cl σ' t o Hcur E Er) as Eph. rewrite Hph in Eph.
        destruct o as [r out [|]|p]; [injection Hon as <-; by left| |injection Hon as <-; simpl; congruence].
        by apply continue_at in Hon as [l' ->].
      * apply continue_at in Hon as [l' ->]. simpl. rewrite <- Hph.
        unfold exec, run in E. destruct (init_object o (ks σ)) as [[? ?]|]; [|done]. by injection E as <-.
      * destruct r as [o| | |]; try done. rewrite El in Hon.
        pose proof (call_phase σ _ σ' t o Hcur E Er) as Eph. rewrite Hph in Eph.
        pose proof (lock_reply σ t σ' o g_status_mutex Hσ Hcur Hs Er) as Ho.
        destruct o as [r out sw|p]; injection Hon as <-.
        -- destruct Ho as [-> Ho]. by split.
        -- subst p. by eapply (call_blocks σ σ' t lock_status).
    + destruct (op_words l !! k); [done|]. injection Hnext as <-. unfold on_reply in Hon.
      destruct r as [o| | |]; try done.
      pose proof (call_phase σ _ σ' t o Hcur E Er) as Eph. rewrite Hph in Eph.
      destruct o as [r out [|]|p]; [injection Hon as <-; by left| |done].
      by apply continue_at in Hon as [l' ->].
  - injection Hnext as <-. pose proof (request_phase σ σ' t p Hcur Hph E) as Eph.
    assert (pc' = pc) as -> by (destruct r; by injection Hon).
    destruct pc as [l|l [v|]|l|l k v|l v]; simpl in Hok |- *; rewrite ?Hph, ?Eph in *; try done.
    + destruct Hok; simplify_eq. by right.
    + by eapply step_waits.
    + by destruct Hok.
    + destruct Hok; simplify_eq. by right.
  - injection Hnext as <-. pose proof (resume_phase σ σ' t Hcur E) as Eph. unfold on_reply in Hon.
    destruct r as [|p' [r out]| |]; try done.
    destruct pc as [l|l [[r' out']|]|l|l k v|l v]; try done;
      try (by apply continue_at in Hon as [l' ->]).
    injection Hon as <-. split; [done|].
    destruct (call_returns σ t (NMutex g_status_mutex) (PLock g_status_mutex)) as (r1&out1&_&_&Ho); try done.
    by eapply owner_stable; [..|intros [? _]].
Qed.

(** The three kinds of steps. *)
Inductive app_moves a : app_event → app → Prop :=
  | mv_interrupt e σ' : interrupt e → step (a_sys a) e σ' →
      app_moves a (Interrupt e) (App σ' (a_status a) (a_pcs a))
  | mv_event t pc e r σ' pc' : nimble_current_tcb (ks (a_sys a)) = Some t → a_pcs a !! t = Some pc →
      next_event pc (phase_of (a_sys a) t) = Some e → step (a_sys a) e σ' →
      reply_of e (a_sys a) = Some r → on_reply e pc r = Some pc' →
      app_moves a Run (App σ' (a_status a) (<[t := pc']> (a_pcs a)))
  | mv_word t l k v (w : word) : nimble_current_tcb (ks (a_sys a)) = Some t →
      a_pcs a !! t = Some (Inside l k v) → op_words l !! k = Some w →
      app_moves a Run (App (a_sys a) (w (a_status a, v)).1
        (<[t := Inside l (S k) (w (a_status a, v)).2]> (a_pcs a))).

Lemma app_step_moves a (ae : app_event) a' : app_step a ae a' → app_moves a ae a'.
Proof.
  intros Hs. inversion Hs as [? ? ? He E]; subst. destruct ae as [e|].
  - destruct He as [Hi He]. simpl in E. destruct (exec e (a_sys a)) as [σ'|] eqn:Ee; [|done].
    injection E as <-. apply mv_interrupt; [done|]. by apply step_exec.
  - destruct He as (t&pc&Hcur&Hpc&_&He). simpl in E. rewrite Hcur in E. cbn [mbind option_bind] in E.
    rewrite Hpc in E. cbn [mbind option_bind] in E.
    destruct (next_event pc (phase_of (a_sys a) t)) as [e|] eqn:En.
    + destruct (reply_of e (a_sys a)) as [r|] eqn:Er; [|done]. cbn [mbind option_bind] in E.
      destruct (exec e (a_sys a)) as [σ'|] eqn:Ee; [|done]. cbn [mbind option_bind] in E.
      destruct (on_reply e pc r) as [pc'|] eqn:Eo; [|done]. injection E as <-.
      eapply mv_event; [done|done|done| |done|done]. by apply step_exec.
    + destruct pc as [| | |l k v|]; try done. destruct (op_words l !! k) as [w|] eqn:Ew; [|done].
      cbn [mbind option_bind] in E. pose proof (mv_word a t l k v w Hcur Hpc Ew) as Hm.
      destruct (w (a_status a, v)) as [g v']. by injection E as <-.
Qed.

Lemma app_step_ok a (ae : app_event) a' : app_ok a → app_step a ae a' → app_ok a'.
Proof.
  intros [Hσ Hpcs] Hs%app_step_moves.
  destruct Hs as [e σ' Hi Hst|t pc e r σ' pc' Hcur Hpc En Hst Er Eo|t l k v w Hcur Hpc Ew].
  - split; [by eapply step_inv|]. simpl. intros t pc Ht.
    eapply pc_ok_other; [done..| |by apply Hpcs]. by destruct e.
  - split; [by eapply step_inv|]. simpl. intros u pcu [[<- <-]|[Hne Hu]]%lookup_insert_Some.
    + by eapply pc_ok_run; [| | |done..]; auto.
    + eapply pc_ok_other; [done..| |by apply Hpcs]. intros _. congruence.
  - split; [done|]. simpl. intros u pcu [[<- <-]|[Hne Hu]]%lookup_insert_Some; [|by apply Hpcs].
    apply (Hpcs t _ Hpc).
Qed.

Lemma app_run_ok a a' : app_ok a → app_run a a' → app_ok a'.
Proof. intros Hok Hr. induction Hr as [|a e a1 a' Hs Hr IH]; [done|]. by eapply IH, app_step_ok. Qed.

Lemma app_start_ok s line : sys_inv (Sys s ∅) → app_ok (app_start s line).
Proof.
  intros Hσ. split; [done|]. intros t pc Hpc. cbn in Hpc.
  assert (∃ l, pc = At l) as [l ->]; [|done]. unfold app_tasks in Hpc.
  repeat (apply lookup_insert_Some in Hpc as [[_ <-]|[_ Hpc]]; [eauto|]).
  by rewrite lookup_empty in Hpc.
Qed.

(** ** Serialisation

    Word by word, the accesses to the status are those of the machine [demo]
    of [PowerSupply], in which each section is one step. *)

Implicit Types (d : demo).

Lemma do_section s g r :
  (do_words (section_words s) (g, r)).1 = section_effect s g ∧
  (s = SGet → (do_words (section_words s) (g, r)).2 = g).
Proof. by destruct s, g, r. Qed.

(** Whose operation it is. *)
Definition role l : tid :=
  match l with
  | ProtTake | ProtNote => protection_tcb
  | CtlReceive _ | CtlMeasure _ _ | CtlWrite _ _ | CtlResync _ => control_tcb
  | CliInit _ | CliReceive _ | CliReport _ => comms_tcb
  | LogGet | LogDelay => logger_tcb
  | TimerTake => timer_task_tcb
  end.
Definition local_of pc : local :=
  match pc with At l | InCall l _ | Locking l | Inside l _ _ | Releasing l _ => l end.

(** The control task, seen as the [demo]'s: before the access of its
    operation is complete, and after. *)
Definition view_before l : control_pc * control :=
  match l with
  | CtlReceive c | CtlMeasure _ c => (PowerSupply.Waiting, c)
  | CtlWrite st c => (Writing st, c)
  | CtlResync c => (Resyncing, c)
  | _ => (PowerSupply.Waiting, Control PS_STATE_IDLE 0)
  end.
Definition view_after l (r : ps_status_t) : control_pc * control :=
  match l with
  | CtlMeasure _ c => (Deciding, c)
  | CtlWrite _ c => (Resyncing, c)
  | CtlResync c => (PowerSupply.Waiting, resync r c)
  | _ => view_before l
  end.
(** [Inside l k r] with words left to do. *)
Definition busy pc : Prop :=
  match pc with Inside l k _ => (k < length (op_words l))%nat | _ => False end.
Definition view pc : control_pc * control :=
  match pc with
  | At l | InCall l _ | Locking l => view_before l
  | Inside l k r => if decide (k < length (op_words l))%nat then view_before l else view_after l r
  | Releasing l r => view_after l r
  end.

(** Only the status functions lock. *)
Definition typed_pc pc : Prop :=
  match pc with
  | Locking l | Inside l _ _ | Releasing l _ => ∃ s, next l = OpStatus s
  | _ => True
  end.

Definition quiet a : Prop := ∀ t pc, a_pcs a !! t = Some pc → ¬ busy pc.

Record serial a d : Prop := {
  sr_role t pc : a_pcs a !! t = Some pc → role (local_of pc) = t ∧ typed_pc pc;
  sr_control : ∃ pc, a_pcs a !! control_tcb = Some pc ∧ view pc = (PowerSupply.pc d, ctl d);
  sr_busy t l k r : a_pcs a !! t = Some (Inside l k r) → busy (Inside l k r) →
    (a_status a, r) = do_words (take k (op_words l)) (g_status d, no_status);
  sr_quiet : quiet a → a_status a = g_status d;
}.

(** One task at most is inside. *)
Lemma inside_unique a t u l k r l' k' r' :
  app_ok a → a_pcs a !! t = Some (Inside l k r) → a_pcs a !! u = Some (Inside l' k' r') → t = u.
Proof.
  intros Hok Ht Hu. apply (ao_pcs a Hok) in Ht as [_ Ht]. apply (ao_pcs a Hok) in Hu as [_ Hu]. congruence.
Qed.

Lemma op_words_pos l : (∃ s, next l = OpStatus s) → (0 < length (op_words l))%nat.
Proof. intros [s Hs]. unfold op_words. rewrite Hs. destruct s; simpl; lia. Qed.

Lemma after_role l res l' : after l res = Some l' → role l' = role l.
Proof.
  destruct l, res; simpl; try done.
  - by intros [= <-]; case_match.
  - by intros [= <-].
  - case_match; [|by intros [= <-]]. destruct out as [bs|]; [|done]. simpl.
    destruct (sample_of_bytes bs); [|done]. by intros [= <-].
  - destruct (advance c) as [c' [st|]]; by intros [= <-].
  - by intros [= <-].
  - by intros [= <-].
  - by intros [= <-].
  - case_match; [|by intros [= <-]]. destruct out as [bs|]; [|done]. simpl.
    destruct (head bs) as [b|]; [|done]. simpl. destruct (comms_byte b k) as [[k' [[]|]]|]; simpl; try done;
      by intros [= <-].
  - by intros [= <-].
  - by intros [= <-].
  - by intros [= <-].
  - by intros [= <-].
Qed.

(** The end of an operation, as steps of [demo] that leave the status alone. *)
Definition moves d d' : Prop := ∃ ds, d' = demo_run ds d.

Lemma moves_refl d : moves d d.
Proof. by exists []. Qed.
Lemma moves_trans d1 d2 d3 : moves d1 d2 → moves d2 d3 → moves d1 d3.
Proof. intros [ds1 ->] [ds2 ->]. exists (ds1 ++ ds2). unfold demo_run. by rewrite foldl_app. Qed.

Lemma after_call l r out l' :
  after l (RCode r out) = Some l' → view_before l' = view_before l.
Proof.
  destruct l; simpl; try done.
  - by intros [= <-]; case_match.
  - case_match; [|by intros [= <-]]. destruct out as [bs|]; [|done]. simpl.
    destruct (sample_of_bytes bs); [|done]. by intros [= <-].
  - by intros [= <-].
  - case_match; [|by intros [= <-]]. destruct out as [bs|]; [|done]. simpl.
    destruct (head bs) as [b|]; [|done]. simpl. destruct (comms_byte b k) as [[k' [[]|]]|]; simpl; try done;
      by intros [= <-].
  - by intros [= <-].
  - by intros [= <-].
Qed.

Lemma after_status l v l' d :
  after l (RStatus v) = Some l' → role l = control_tcb → view_after l v = (PowerSupply.pc d, ctl d) →
  ∃ d', moves d d' ∧ g_status d' = g_status d ∧ view_before l' = (PowerSupply.pc d', ctl d').
Proof.
  destruct d as [p c0 g]. destruct l; simpl; try done.
  - intros Ha _ [= <- <-]. exists (demo_exec (Control_step s) (Demo Deciding c g)).
    split; [by exists [Control_step s]|]. cbn. destruct (advance c) as [c' [st|]]; by injection Ha as <-.
  - intros [= <-] _ [= <- <-]. eexists. split; [apply moves_refl|done].
  - intros [= <-] _ [= <- <-]. eexists. split; [apply moves_refl|done].
Qed.

(** The last word of a section is the step of [demo]. *)
Lemma commit l s d g v :
  next l = OpStatus s → do_words (op_words l) (g_status d, no_status) = (g, v) →
  (role l = control_tcb → view_before l = (PowerSupply.pc d, ctl d)) →
  ∃ d', moves d d' ∧ g_status d' = g ∧
    if decide (role l = control_tcb) then view_after l v = (PowerSupply.pc d', ctl d')
    else PowerSupply.pc d' = PowerSupply.pc d ∧ ctl d' = ctl d.
Proof.
  intros Hn E Hv. unfold op_words in E. rewrite Hn in E.
  pose proof (do_section s (g_status d) no_status) as [Hg Hr]. rewrite E in Hg, Hr. cbn in Hg, Hr. subst g.
  destruct d as [p c0 g]. destruct l; simpl in Hn; try done; injection Hn as <-; cbn in Hv, Hr |- *.
  - exists (demo_exec Fault (Demo p c0 g)). split; [by exists [Fault]|done].
  - specialize (Hv eq_refl). injection Hv as <- <-. eexists. split; [by exists [Control_step s0]|done].
  - specialize (Hv eq_refl). injection Hv as <- <-.
    eexists. split; [by exists [Control_step (AdcSample 0 0)]|done].
  - specialize (Hv eq_refl). injection Hv as <- <-. rewrite (Hr eq_refl).
    eexists. split; [by exists [Control_step (AdcSample 0 0)]|done].
  - eexists. split; [apply moves_refl|done].
  - eexists. split; [apply moves_refl|done].
Qed.

Lemma take_all_words l k (w : word) :
  op_words l !! k = Some w → ¬ (S k < length (op_words l))%nat →
  take (S k) (op_words l) = op_words l.
Proof. intros Hk Hn. apply take_ge. apply lookup_lt_Some in Hk. lia. Qed.

Lemma serial_word a a' d t l k v (w : word) :
  app_ok a → app_ok a' → serial a d → a_pcs a !! t = Some (Inside l k v) → op_words l !! k = Some w →
  a' = App (a_sys a) (w (a_status a, v)).1 (<[t := Inside l (S k) (w (a_status a, v)).2]> (a_pcs a)) →
  ∃ d', moves d d' ∧ serial a' d'.
Proof.
  intros Hok Hok' [Hrole (pcc&Hpcc&Hview) Hbusy Hquiet] Ht Hw Ea.
  pose proof (lookup_lt_Some _ _ _ Hw) as Hk. destruct (Hrole t _ Ht) as [Hrl [s Hs]]. cbn in Hrl.
  pose proof (Hbusy t l k v Ht Hk) as Hpart.
  assert (do_words (take (S k) (op_words l)) (g_status d, no_status) = w (a_status a, v)) as Hnext.
  { rewrite (take_S_r _ _ w Hw). unfold do_words in *. rewrite foldl_app, <- Hpart. done. }
  destruct (w (a_status a, v)) as [g v'] eqn:Ew. cbn [fst snd] in Ea. subst a'.
  assert (∀ u pcu, <[t := Inside l (S k) v']> (a_pcs a) !! u = Some pcu →
    role (local_of pcu) = u ∧ typed_pc pcu) as Hrole'.
  { intros u pcu [[<- <-]|[_ Hu]]%lookup_insert_Some; [|by apply Hrole]. split; [done|by exists s]. }
  assert (∀ u l' k' r, <[t := Inside l (S k) v']> (a_pcs a) !! u = Some (Inside l' k' r) → u = t) as Hone.
  { intros u l' k' r Hu. eapply (inside_unique (App (a_sys a) g _)); [exact Hok'|exact Hu|apply lookup_insert_eq]. }
  destruct (decide (S k < length (op_words l))%nat) as [Hlt|Hend].
  - exists d. split; [apply moves_refl|]. split; [exact Hrole'| | |].
    + cbn [a_pcs]. destruct (decide (t = control_tcb)) as [->|Hne].
      * eexists. split; [apply lookup_insert_eq|]. rewrite Ht in Hpcc. injection Hpcc as <-.
        cbn [view] in Hview |- *. rewrite decide_True in Hview by done. by rewrite decide_True.
      * exists pcc. by rewrite lookup_insert_ne.
    + cbn [a_pcs a_status]. intros u l' k' r Hu _. pose proof (Hone _ _ _ _ Hu) as ->.
      rewrite lookup_insert_eq in Hu. injection Hu as <- <- <-. by rewrite Hnext.
    + intros Hq. exfalso. eapply Hq; [apply lookup_insert_eq|exact Hlt].
  - rewrite (take_all_words l k w) in Hnext by done.
    destruct (commit l s d g v' Hs Hnext) as (d'&Hm&Hg&Hd').
    { intros Hctl. assert (t = control_tcb) as -> by congruence. rewrite Ht in Hpcc. injection Hpcc as <-.
      cbn [view] in Hview. by rewrite decide_True in Hview. }
    exists d'. split; [done|]. split; [exact Hrole'| | |].
    + cbn [a_pcs]. destruct (decide (t = control_tcb)) as [->|Hne].
      * rewrite decide_True in Hd' by done.
        eexists. split; [apply lookup_insert_eq|]. cbn [view]. by rewrite decide_False.
      * rewrite decide_False in Hd' by congruence. destruct Hd' as [-> ->].
        exists pcc. by rewrite lookup_insert_ne.
    + cbn [a_pcs]. intros u l' k' r Hu Hb. pose proof (Hone _ _ _ _ Hu) as ->.
      rewrite lookup_insert_eq in Hu. by injection Hu as <- <- <-.
    + intros _. by cbn.
Qed.

(** What the reply of a kernel event does to the task. *)
Record replied pc pc' d : Prop := {
  rp_role : role (local_of pc') = role (local_of pc);
  rp_typed : typed_pc pc';
  rp_inside l k v : pc' = Inside l k v → k = 0%nat ∧ v = no_status;
  rp_view : role (local_of pc) = control_tcb → view pc = (PowerSupply.pc d, ctl d) →
    ∃ d', moves d d' ∧ g_status d' = g_status d ∧ view pc' = (PowerSupply.pc d', ctl d');
}.

Lemma replied_same pc pc' d :
  local_of pc' = local_of pc → typed_pc pc' → (∀ l k v, pc' ≠ Inside l k v) → view pc' = view pc →
  replied pc pc' d.
Proof.
  intros El Ht Hi Ev. split; [by rewrite El|done|by intros l k v Heq; destruct (Hi l k v)|].
  intros _ Hv. exists d. split; [apply moves_refl|]. split; [done|congruence].
Qed.

Lemma replied_enter pc l d :
  local_of pc = l → typed_pc (Inside l 0 no_status) → view pc = view_before l →
  replied pc (Inside l 0 no_status) d.
Proof.
  intros El Ht Ev. split; [by rewrite El|done|by intros l' k v [= <- <- <-]|].
  intros _ Hv. exists d. split; [apply moves_refl|]. split; [done|]. cbn [view].
  rewrite decide_True by (by apply op_words_pos). congruence.
Qed.

Lemma replied_code pc l r out pc' d :
  local_of pc = l → view pc = view_before l → continue l (RCode r out) = Some pc' → replied pc pc' d.
Proof.
  intros El Ev Ec. unfold continue in Ec. destruct (after l (RCode r out)) as [l'|] eqn:Ea; [|done].
  injection Ec as <-. split; [by rewrite El; eapply after_role|done|done|].
  intros _ Hv. exists d. split; [apply moves_refl|]. split; [done|]. cbn [view].
  rewrite (after_call _ _ _ _ Ea). congruence.
Qed.

Lemma replied_status pc l v pc' d :
  local_of pc = l → view pc = view_after l v → continue l (RStatus v) = Some pc' → replied pc pc' d.
Proof.
  intros El Ev Ec. unfold continue in Ec. destruct (after l (RStatus v)) as [l'|] eqn:Ea; [|done].
  injection Ec as <-. split; [by rewrite El; eapply after_role|done|done|].
  intros Hr Hv. rewrite El in Hr. rewrite Ev in Hv. by eapply after_status.
Qed.

Lemma on_reply_replied σ t pc e r pc' d :
  pc_ok σ t pc → typed_pc pc → next_event pc (phase_of σ t) = Some e → on_reply e pc r = Some pc' →
  ¬ busy pc ∧ replied pc pc' d.
Proof.
  intros Hok Hty Hn Hr. unfold next_event in Hn. destruct (phase_of σ t) as [|p|p] eqn:Hph.
  - destruct pc as [l|l v|l|l k v|l v]; try done.
    + split; [by intros []|].
      destruct (next l) as [cl|o|s] eqn:El; injection Hn as <-; unfold on_reply in Hr.
      * destruct r as [o| | |]; try done. rewrite El in Hr.
        destruct o as [r out [|]|p]; [injection Hr as <-; by apply replied_same| |
          injection Hr as <-; by apply replied_same].
        by eapply replied_code.
      * by eapply replied_code.
      * destruct r as [o| | |]; try done. rewrite El in Hr. destruct o as [r out sw|p]; injection Hr as <-.
        -- apply replied_enter; [done|by exists s|done].
        -- apply replied_same; [done|by exists s|done..].
    + destruct (op_words l !! k) as [|] eqn:Ek; [done|]. injection Hn as <-. unfold on_reply in Hr.
      apply lookup_ge_None in Ek. split; [cbn; lia|]. destruct r as [o| | |]; try done.
      assert (view (Inside l k v) = view_after l v) as Ev by (cbn [view]; by rewrite decide_False by lia).
      destruct o as [r out [|]|p]; [injection Hr as <-|by eapply replied_status|done].
      by apply replied_same.
  - injection Hn as <-. assert (pc' = pc) as -> by (destruct r; by injection Hr).
    destruct pc as [l|l v|l|l k v|l v]; try (by destruct Hok; congruence); (split; [by intros []|]);
      by apply replied_same.
  - injection Hn as <-. unfold on_reply in Hr. destruct r as [|p' [r out]| |]; try done.
    destruct pc as [l|l [[r' out']|]|l|l k v|l v]; try done; (split; [by intros []|]).
    + by eapply replied_code.
    + by eapply replied_code.
    + injection Hr as <-. by apply replied_enter.
    + by eapply replied_status.
Qed.

Lemma serial_event a a' d σ' t pc pc' :
  app_ok a → app_ok a' → serial a d → a_pcs a !! t = Some pc → ¬ busy pc → replied pc pc' d →
  a' = App σ' (a_status a) (<[t := pc']> (a_pcs a)) → ∃ d', moves d d' ∧ serial a' d'.
Proof.
  intros Hok Hok' [Hrole (pcc&Hpcc&Hview) Hbusy Hquiet] Ht Hnb Hrp ->. destruct (Hrole t pc Ht) as [Hrt Hty].
  assert (∃ d', moves d d' ∧ g_status d' = g_status d ∧ ∃ pcc', <[t := pc']> (a_pcs a) !! control_tcb = Some pcc' ∧
    view pcc' = (PowerSupply.pc d', ctl d')) as (d'&Hm&Eg&Hctl).
  { destruct (decide (t = control_tcb)) as [->|Hne].
    - rewrite Ht in Hpcc. injection Hpcc as <-. destruct (rp_view _ _ _ Hrp Hrt Hview) as (d'&?&?&?).
      exists d'. do 2 (split; [done|]). exists pc'. split; [apply lookup_insert_eq|done].
    - exists d. split; [apply moves_refl|]. split; [done|]. exists pcc. by rewrite lookup_insert_ne. }
  exists d'. split; [done|]. split; [|exact Hctl| |]; cbn [a_pcs a_status].
  - intros u pcu [[<- <-]|[_ Hu]]%lookup_insert_Some; [|by apply Hrole].
    split; [by rewrite (rp_role _ _ _ Hrp)|exact (rp_typed _ _ _ Hrp)].
  - intros u l k r [[<- Ei]|[Hne Hu]]%lookup_insert_Some Hb; rewrite Eg; [|exact (Hbusy _ _ _ _ Hu Hb)].
    destruct (rp_inside _ _ _ Hrp _ _ _ Ei) as [-> ->]. cbn [do_words take foldl].
    rewrite Hquiet; [done|]. intros u pcu Hu Hbu. destruct (decide (u = t)) as [->|Hne]; [congruence|].
    destruct pcu as [| | |l' k' r'|]; try done. apply Hne.
    eapply inside_unique; [exact Hok'|cbn [a_pcs]; by rewrite lookup_insert_ne|].
    cbn [a_pcs]. rewrite lookup_insert_eq. by f_equal.
  - intros Hq. rewrite Eg. apply Hquiet. intros u pcu Hu Hbu.
    destruct (decide (u = t)) as [->|Hne]; [congruence|].
    eapply Hq, Hbu. cbn [a_pcs]. by rewrite lookup_insert_ne.
Qed.

(** An interrupt touches neither the tasks' programs nor the status. *)
Lemma serial_interrupt a d σ' : serial a d → serial (App σ' (a_status a) (a_pcs a)) d.
Proof. intros []. by split. Qed.

Lemma serial_step a ae a' d :
  app_ok a → serial a d → app_step a ae a' → ∃ d', moves d d' ∧ serial a' d'.
Proof.
  intros Hok Hd Hs. pose proof (app_step_ok _ _ _ Hok Hs) as Hok'. apply app_step_moves in Hs.
  destruct Hs as [e σ' _ _|t pc e r σ' pc' _ Hpc En _ _ Eo|t l k v w _ Hpc Ew].
  - exists d. split; [apply moves_refl|by apply serial_interrupt].
  - destruct (sr_role _ _ Hd t pc Hpc) as [_ Hty].
    destruct (on_reply_replied _ t pc e r pc' d (ao_pcs a Hok t pc Hpc) Hty En Eo) as [Hnb Hrp].
    by apply (serial_event a _ d σ' t pc pc' Hok Hok' Hd Hpc Hnb Hrp).
  - by eapply (serial_word a _ d t l k v w).
Qed.

Lemma serial_run a a' d :
  app_ok a → serial a d → app_run a a' → ∃ d', moves d d' ∧ serial a' d'.
Proof.
  intros Hok Hd Hr. revert d Hok Hd. induction Hr as [a|a e a1 a' Hs Hr IH]; intros d Hok Hd.
  { exists d. split; [apply moves_refl|done]. }
  destruct (serial_step a e a1 d Hok Hd Hs) as (d1&Hm1&Hd1).
  destruct (IH d1 ltac:(by eapply app_step_ok) Hd1) as (d2&Hm2&Hd2).
  exists d2. split; [by eapply moves_trans|done].
Qed.

Lemma app_tasks_lookup line t pc : app_tasks line !! t = Some pc → ∃ l, pc = At l ∧ role l = t.
Proof.
  unfold app_tasks. intros Hpc.
  repeat (apply lookup_insert_Some in Hpc as [[<- <-]|[_ Hpc]]; [eauto|]).
  apply lookup_singleton_Some in Hpc as [<- <-]. eauto.
Qed.

Lemma app_start_serial s line : serial (app_start s line) demo_init.
Proof.
  split.
  - intros t pc (l&->&Hl)%app_tasks_lookup. done.
  - by exists (At (CtlReceive (Control PS_STATE_IDLE 0))).
  - intros t l k r (l'&?&_)%app_tasks_lookup. done.
  - done.
Qed.
