(* ===== verification/AppSafe.v ===== *)
(** * The application's tasks are never undefined

    From a state of the application machine every event that is enabled is
    defined: received items have the size that the tasks expect, the command
    line stays in its buffer, and no call leaves a task without a next
    operation. *)
From S2P Require Import Prelude DList Kernel Scheduler SchedInv SchedSpec KernelInv Ring System.
From S2P Require Import Abstract.
From S2P Require Import Refinement Simulation Delivery Waiting Timer PowerSupply Main Interrupts.
From S2P Require Import Mutex Semaphore Queue Task Application.
From stdpp Require Import options.

#[local] Existing Instance inherit.

Implicit Types (t q : nat) (l : local) (pc : tpc) (σ : sys) (a : app) (e : event).

(** ** What a receive delivers *)

Lemma items_length qu x : queue_wf qu → x ∈ items qu → Z.of_nat (length x) = item_size qu.
Proof.
  intros Hwf (k&->&Hk%elem_of_seq)%list_elem_of_fmap. destruct Hwf. unfold slot.
  rewrite length_take, length_drop.
  assert (0 ≤ (q_head qu + Z.of_nat k) mod capacity qu < capacity qu) by (apply Z.mod_pos_bound; lia).
  nia.
Qed.

Lemma call_received t q timeout α out sw (a' : akernel) :
  acall t (CReceive q timeout) α = Some (Returned NIMBLE_OK out sw, a') →
  ∃ qa x, a_queues α !! q = Some qa ∧ out = Some x ∧ x ∈ aq_items qa.
Proof.
  unfold acall. destruct (a_tasks α !! t) as [c|]; [|done]. simpl.
  destruct (a_queues α !! q) as [qa|]; [|done]. simpl. destruct (aq_items qa) as [|x its] eqn:Ei.
  - by destruct (timeout =? NIMBLE_NO_WAIT).
  - destruct (a_wake _ _) as [[w a1]|]; [|done]. intros [= <- _ _]. exists qa, x.
    split; [done|]. split; [done|]. rewrite Ei. left.
Qed.

Lemma pending_received t q α out (a' : akernel) :
  apending (PReceive q) t α = Some ((NIMBLE_OK, out), a') →
  ∃ qa x, a_queues α !! q = Some qa ∧ out = Some x ∧ x ∈ aq_items qa.
Proof.
  unfold apending. destruct (a_tasks α !! t) as [c|]; [|done]. simpl.
  destruct (a_queues α !! q) as [qa|]; [|done]. simpl. destruct (_ =? _); [done|].
  destruct (aq_items qa) as [|x its] eqn:Ei; [done|]. intros [= <- _]. exists qa, x.
  split; [done|]. split; [done|]. rewrite Ei. left.
Qed.

(** A queue with items of [n] bytes. *)
Definition sized σ q (n : Z) : Prop := ∃ qu, queues (ks σ) !! q = Some qu ∧ item_size qu = n.

Lemma item_sized σ α q n qa x :
  sys_inv σ → simulates σ α → sized σ q n → a_queues (ak α) !! q = Some qa → x ∈ aq_items qa →
  Z.of_nat (length x) = n.
Proof.
  intros Hσ Hα (qu&Hq&<-) Hqa Hx. rewrite (sim_queues _ _ _ Hα), Hq in Hqa. injection Hqa as <-.
  destruct (sv_kernel _ Hσ) as (X&L&HI). eapply items_length; [|done].
  by destruct (oo_queue _ _ (ki_objects _ _ HI) q qu Hq).
Qed.

Lemma call_reply_sized σ σ' q n timeout out sw :
  sys_inv σ → step σ (ECall (CReceive q timeout)) σ' → sized σ q n →
  reply_of (ECall (CReceive q timeout)) σ = Some (RCall (Returned NIMBLE_OK out sw)) →
  ∃ x, out = Some x ∧ Z.of_nat (length x) = n.
Proof.
  intros Hσ Hs Hn Er. destruct (sv_kernel _ Hσ) as (X&L&HI).
  pose proof (simulates_some _ _ _ (simulates_abstraction (X := X) σ L HI)) as Hα. set (α := ASys _ _) in Hα.
  destruct (step_refines σ α _ σ' Hσ Hα Hs) as (_&_&_&Er'). rewrite Er in Er'. unfold a_reply_of in Er'.
  destruct (a_current (ak α)) as [t|]; [|done]. cbn [mbind option_bind] in Er'.
  destruct (acall t _ (ak α)) as [[o a']|] eqn:Ea; [|done]. injection Er' as ->.
  destruct (call_received _ _ _ _ _ _ _ Ea) as (qa&x&Hqa&->&Hx). exists x. split; [done|].
  by eapply item_sized.
Qed.

Lemma resume_reply_sized σ σ' q n out :
  sys_inv σ → step σ EResume σ' → sized σ q n →
  reply_of EResume σ = Some (RResume (PReceive q) (NIMBLE_OK, out)) →
  ∃ x, out = Some x ∧ Z.of_nat (length x) = n.
Proof.
  intros Hσ Hs Hn Er. destruct (sv_kernel _ Hσ) as (X&L&HI).
  pose proof (simulates_some _ _ _ (simulates_abstraction (X := X) σ L HI)) as Hα. set (α := ASys _ _) in Hα.
  destruct (step_refines σ α _ σ' Hσ Hα Hs) as (_&_&_&Er'). rewrite Er in Er'. unfold a_reply_of in Er'.
  destruct (a_current (ak α)) as [t|]; [|done]. cbn [mbind option_bind] in Er'.
  destruct (a_phase α t) as [| |p]; try done.
  destruct (apending p t (ak α)) as [[r a']|] eqn:Ea; [|done]. injection Er' as -> ->.
  destruct (pending_received _ _ _ _ _ Ea) as (qa&x&Hqa&->&Hx). exists x. split; [done|].
  by eapply item_sized.
Qed.

Lemma step_sized σ e σ' q n : sys_inv σ → step σ e σ' → sized σ q n → sized σ' q n.
Proof.
  intros Hσ Hs (qu&Hq&<-). destruct (sv_kernel _ Hσ) as (X&L&HI).
  destruct (step_moved q σ _ e σ' qu Hσ
    (simulates_some _ _ _ (simulates_abstraction (X := X) σ L HI)) Hs Hq) as (_&qu'&_&Hq'&Es&_).
  exists qu'. split; [done|]. exact Es.
Qed.

(** ** The shape of a reply *)

(** What is left of a call that blocks. *)
Definition pend (cl : call) : pending :=
  match cl with
  | CLock m _ => PLock m
  | CTake _ _ => PTake
  | CSend q item _ => PSend q item
  | CReceive q _ => PReceive q
  | _ => PDone
  end.

Lemma call_reply_blocked cl σ p : reply_of (ECall cl) σ = Some (RCall (Blocked p)) → p = pend cl ∧ p ≠ PDone.
Proof.
  cbn [reply_of]. destruct (run_call cl (ks σ)) as [[o s]|] eqn:E; [|done]. intros [= ->].
  destruct cl; cbn [run_call] in E; unfold mbind, M_bind, mret, M_ret in E; cbn [pend].
  - destruct (nimble_mutex_lock _ _ _) as [[[r|] s1]|]; by simplify_eq/=.
  - destruct (nimble_mutex_unlock_crit _ _) as [[r s1]|]; by simplify_eq/=.
  - destruct (nimble_semaphore_take _ _ _) as [[[r|] s1]|]; by simplify_eq/=.
  - destruct (nimble_semaphore_give_crit _ _) as [[r s1]|]; by simplify_eq/=.
  - destruct (nimble_queue_send _ _ _ _) as [[[r|] s1]|]; by simplify_eq/=.
  - destruct (nimble_queue_receive _ _ _) as [[[r|] s1]|]; by simplify_eq/=.
  - destruct (nimble_task_delay_crit _ _) as [[r s1]|]; by simplify_eq/=.
  - by simplify_eq/=.
  - destruct (nimble_task_suspend_crit _ _) as [[r s1]|]; by simplify_eq/=.
  - destruct (nimble_task_resume _ _) as [[r s1]|]; by simplify_eq/=.
Qed.

Lemma call_reply_shape cl σ r : reply_of (ECall cl) σ = Some r → ∃ o, r = RCall o.
Proof. cbn [reply_of]. destruct (run_call cl (ks σ)) as [[o s]|]; [|done]. intros [= <-]. eauto. Qed.

Lemma resume_reply_shape σ r :
  reply_of EResume σ = Some r →
  ∃ t p v out, nimble_current_tcb (ks σ) = Some t ∧ phase_of σ t = Resuming p ∧ r = RResume p (v, out).
Proof.
  cbn [reply_of]. destruct (nimble_current_tcb (ks σ)) as [t|]; [|done]. cbn [mbind option_bind].
  destruct (phase_of σ t) as [| |p] eqn:E; try done.
  destruct (run_pending p t (ks σ)) as [[[v out] s]|]; [|done]. intros [= <-]. by exists t, p, v, out.
Qed.

(** ** The data of the tasks *)

(** The command line and its queue. *)
Definition local_ok σ l : Prop :=
  match l with
  | CliInit k => cli_ok k
  | CliReceive k | CliReport k => cli_ok k ∧ sized σ g_uart_rx_queue 1
  | _ => True
  end.

(** A result that the code after the call can use. *)
Definition usable l (r : Z) (out : option (list Z)) : Prop :=
  match l with
  | CtlReceive _ => r = NIMBLE_OK → ∃ x, out = Some x ∧ Z.of_nat (length x) = sizeof_adc_sample
  | CliReceive _ => r = NIMBLE_OK → ∃ x, out = Some x ∧ Z.of_nat (length x) = 1
  | _ => True
  end.

Definition pc_data σ t pc : Prop :=
  match pc with
  | At _ => True
  | InCall l (Some (r, out)) => (∃ cl, next l = OpCall cl) ∧ usable l r out
  | InCall l None => ∃ cl, next l = OpCall cl ∧ in_call (pend cl) (phase_of σ t)
  | Locking l | Inside l _ _ | Releasing l _ => ∃ s, next l = OpStatus s
  end.

Record data_ok a : Prop := {
  do_adc : sized (a_sys a) g_adc_sample_queue sizeof_adc_sample;
  do_pcs t pc : a_pcs a !! t = Some pc → local_ok (a_sys a) (local_of pc) ∧ pc_data (a_sys a) t pc;
}.

Lemma comms_byte_defined b k : cli_ok k → ∃ k' rep, comms_byte b k = Some (k', rep) ∧ cli_ok k'.
Proof.
  intros [Hl Hn]. unfold comms_byte, store_char, cli_ok, CLI_LINE_BUF_LEN in *.
  destruct (_ || _); [|destruct (Nat.ltb_spec (line_len k) (64 - 1))];
    rewrite ?decide_True by lia; cbn [mbind option_bind]; do 2 eexists; (split; [done|]); cbn;
    rewrite ?length_insert; lia.
Qed.

Lemma sample_of_bytes_defined (x : list Z) :
  Z.of_nat (length x) = sizeof_adc_sample → ∃ s, sample_of_bytes x = Some s.
Proof.
  unfold sizeof_adc_sample. intros Hx. do 4 (destruct x as [|? x]; [simpl in Hx; lia|]).
  destruct x; [simpl; eauto|simpl in Hx; lia].
Qed.

(** The code after an operation is defined. *)
Lemma after_code_defined σ l cl r out :
  next l = OpCall cl → local_ok σ l → usable l r out →
  ∃ l', after l (RCode r out) = Some l' ∧ local_ok σ l'.
Proof.
  intros Hn Hl Hu. destruct l; try done; simpl in Hl, Hu |- *; eauto.
  - case_match; eauto.
  - destruct (Z.eqb_spec r NIMBLE_OK) as [->|]; [|eauto].
    destruct (Hu eq_refl) as (x&->&Hx). destruct (sample_of_bytes_defined x Hx) as [s Hs].
    cbn [mbind option_bind]. rewrite Hs. simpl. eauto.
  - destruct (Z.eqb_spec r NIMBLE_OK) as [->|]; [|eauto].
    destruct (Hu eq_refl) as (x&->&Hx). destruct x as [|b x]; [simpl in Hx; lia|]. cbn [mbind option_bind head].
    destruct Hl as [Hk Hq]. destruct (comms_byte_defined b k Hk) as (k'&rep&->&Hk').
    cbn [mbind option_bind]. eexists. split; [done|]. by destruct rep as [[]|].
Qed.

Lemma after_status_defined σ l s v :
  next l = OpStatus s → local_ok σ l → ∃ l', after l (RStatus v) = Some l' ∧ local_ok σ l'.
Proof.
  intros Hn Hl. destruct l; try done; simpl in Hl |- *; eauto.
  destruct (advance c) as [c' [st|]]; eauto.
Qed.

Lemma local_ok_step σ e σ' l : sys_inv σ → step σ e σ' → local_ok σ l → local_ok σ' l.
Proof.
  intros Hσ Hs. pose proof (step_sized σ e σ' g_uart_rx_queue 1 Hσ Hs).
  destruct l; simpl; tauto.
Qed.

Lemma pc_data_other σ e σ' t pc :
  step σ e σ' → (thread_event e = true → nimble_current_tcb (ks σ) ≠ Some t) →
  pc_data σ t pc → pc_data σ' t pc.
Proof.
  intros Hs Hne. inversion Hs as [? ? ? _ E]; subst.
  pose proof (exec_phase_other e σ σ' t E Hne) as Eph.
  destruct pc as [l|l [[r out]|]|l|l k v|l v]; simpl; rewrite ?Eph; done.
Qed.

(** What a reply leaves the running task with. *)
Definition reply_ok σ' t e pc r : Prop :=
  ∃ pc', on_reply e pc r = Some pc' ∧ local_ok σ' (local_of pc') ∧ pc_data σ' t pc'.

Lemma continue_code σ' t l cl r out e pc rep :
  on_reply e pc rep = continue l (RCode r out) → next l = OpCall cl → local_ok σ' l → usable l r out →
  reply_ok σ' t e pc rep.
Proof.
  intros E Hn Hl Hu. destruct (after_code_defined σ' l cl r out Hn Hl Hu) as (l'&Ea&Hl').
  exists (At l'). rewrite E. unfold continue. by rewrite Ea.
Qed.

Lemma continue_status σ' t l s v e pc rep :
  on_reply e pc rep = continue l (RStatus v) → next l = OpStatus s → local_ok σ' l →
  reply_ok σ' t e pc rep.
Proof.
  intros E Hn Hl. destruct (after_status_defined σ' l s v Hn Hl) as (l'&Ea&Hl').
  exists (At l'). rewrite E. unfold continue. by rewrite Ea.
Qed.

(** The reply of the call at [l], and of its resumption, is usable. *)
Lemma call_usable σ σ' l cl r out sw :
  sys_inv σ → sized σ g_adc_sample_queue sizeof_adc_sample → local_ok σ l → next l = OpCall cl →
  step σ (ECall cl) σ' → reply_of (ECall cl) σ = Some (RCall (Returned r out sw)) → usable l r out.
Proof.
  intros Hσ Hadc Hl Hn Hs Er. destruct l; try done; simpl in Hn; injection Hn as <-; intros ->.
  - by eapply call_reply_sized.
  - destruct Hl as [_ Hu]. by eapply call_reply_sized.
Qed.

Lemma resume_usable σ σ' l cl r out :
  sys_inv σ → sized σ g_adc_sample_queue sizeof_adc_sample → local_ok σ l → next l = OpCall cl →
  step σ EResume σ' → reply_of EResume σ = Some (RResume (pend cl) (r, out)) → usable l r out.
Proof.
  intros Hσ Hadc Hl Hn Hs Er. destruct l; try done; simpl in Hn; injection Hn as <-; intros ->.
  - by eapply resume_reply_sized.
  - destruct Hl as [_ Hu]. by eapply resume_reply_sized.
Qed.

(** The comms task's queue. *)
Lemma init_sized σ σ' q buffer size cap :
  sys_inv σ → step σ (EInit (OQueue q buffer size cap)) σ' → sized σ' q size.
Proof.
  intros Hσ Hs. inversion Hs as [? ? ? He E]; subst. destruct He as (_&_&_&_&Ho).
  destruct (sv_kernel _ Hσ) as (X&L&HI). pose proof (init_object_spec (X := X) _ (ks σ) L HI Ho) as Hwp.
  apply wp_exec_run in Hwp as ([]&s'&Er&_&_&_&_&_&qu&Eq&_&_&Esz). unfold exec in E. rewrite Er in E.
  injection E as <-. exists qu. split; [|done]. simpl. rewrite Eq. apply lookup_insert_eq.
Qed.

Lemma run_at_ok σ σ' t l e r :
  sys_inv σ → sized σ g_adc_sample_queue sizeof_adc_sample → nimble_current_tcb (ks σ) = Some t →
  local_ok σ l → next_event (At l) User = Some e → step σ e σ' → reply_of e σ = Some r →
  reply_ok σ' t e (At l) r.
Proof.
  intros Hσ Hadc Hcur Hl Hn Hs Er. inversion Hs as [? ? ? He E]; subst.
  assert (local_ok σ' l) as Hl' by by eapply local_ok_step.
  simpl in Hn. destruct (next l) as [cl|o|s] eqn:El; injection Hn as <-.
  - destruct (call_reply_shape _ _ _ Er) as [o ->]. pose proof (call_phase σ cl σ' t o Hcur E Er) as Eph.
    destruct o as [v out [|]|p].
    + exists (InCall l (Some (v, out))). cbn [on_reply]. rewrite El. do 2 (split; [done|]).
      split; [eauto|]. by eapply call_usable.
    + eapply (continue_code σ' t l cl v out); [cbn [on_reply]; by rewrite El|done..|]. by eapply call_usable.
    + destruct (call_reply_blocked _ _ _ Er) as [-> _]. exists (InCall l None). cbn [on_reply]. rewrite El.
      do 2 (split; [done|]). exists cl. split; [done|]. by left.
  - destruct l; try done. simpl in El. injection El as <-. simpl in Hl.
    exists (At (CliReceive k)). split; [by destruct r|]. split; [|done]. split; [done|]. by eapply init_sized.
  - destruct (call_reply_shape _ _ _ Er) as [o ->]. destruct o as [v out sw|p].
    + exists (Inside l 0 no_status). cbn [on_reply]. rewrite El. do 2 (split; [done|]). by exists s.
    + exists (Locking l). cbn [on_reply]. rewrite El. do 2 (split; [done|]). by exists s.
Qed.

Lemma run_reply_ok σ σ' t pc e r :
  sys_inv σ → sized σ g_adc_sample_queue sizeof_adc_sample → nimble_current_tcb (ks σ) = Some t →
  pc_ok σ t pc → local_ok σ (local_of pc) → pc_data σ t pc →
  next_event pc (phase_of σ t) = Some e → step σ e σ' → reply_of e σ = Some r → reply_ok σ' t e pc r.
Proof.
  intros Hσ Hadc Hcur Hok Hl Hd Hn Hs Er. pose proof Hs as Hs0. inversion Hs0 as [? ? ? He E]; subst.
  assert (local_ok σ' (local_of pc)) as Hl' by by eapply local_ok_step.
  unfold next_event in Hn. destruct (phase_of σ t) as [|p|p] eqn:Hph.
  - destruct pc as [l|l v|l|l k v|l v]; try done.
    + by eapply run_at_ok.
    + destruct (op_words l !! k); [done|]. injection Hn as <-. destruct Hd as [s Hsec].
      destruct (call_reply_shape _ _ _ Er) as [o ->]. destruct o as [r out [|]|p].
      * exists (Releasing l v). split; [done|]. split; [done|]. by exists s.
      * by eapply (continue_status σ' t l s v).
      * destruct (call_reply_blocked _ _ _ Er) as [-> Hnd]. by destruct Hnd.
  - injection Hn as <-. exists pc. split; [by destruct r|]. split; [done|].
    pose proof (request_phase σ σ' t p Hcur Hph E) as Eph.
    destruct pc as [l|l [[r' out]|]|l|l k v|l v]; simpl in Hd |- *; try done.
    destruct Hd as (cl&?&Hin). exists cl. split; [done|]. rewrite Eph. rewrite Hph in Hin.
    destruct Hin; simplify_eq. by right.
  - injection Hn as <-. destruct (resume_reply_shape σ r Er) as (t'&p'&v&out&Hcur'&Hph'&->).
    assert (t' = t) as -> by congruence. assert (p' = p) as -> by congruence.
    destruct pc as [l|l [[r' out']|]|l|l k w|l w]; simpl in Hok, Hd.
    + congruence.
    + destruct Hd as [[cl Hcl] Hu]. by eapply (continue_code σ' t l cl r' out').
    + destruct Hd as (cl&Hcl&Hin). rewrite Hph in Hin. destruct Hin; simplify_eq.
      eapply (continue_code σ' t l cl v out); [done..|]. by eapply resume_usable.
    + exists (Inside l 0 no_status). split; [done|]. split; [done|exact Hd].
    + destruct Hok. congruence.
    + destruct Hd as [s Hsec]. by eapply (continue_status σ' t l s w).
Qed.

(** ** Progress *)

(** Thread code switches no task. *)
Lemma next_event_thread pc ph e : next_event pc ph = Some e → thread_event e = true.
Proof.
  unfold next_event. destruct ph; [|by intros [= <-]..].
  destruct pc as [l| | |l k v|]; try done; [destruct (next l)|destruct (op_words l !! k); [done|]];
    by intros [= <-].
Qed.

(** Every event but a switch that finds no task is defined. *)
Definition switchable ae a : Prop := ae = Interrupt EPendSV → ¬ switch_stuck (ks (a_sys a)).

Lemma app_progress a ae :
  app_ok a → data_ok a → app_enabled ae a → switchable ae a →
  ∃ a', app_exec ae a = Some a' ∧ data_ok a'.
Proof.
  intros [Hσ Hpcs] [Hadc Hdata] He Hsw. destruct ae as [e|]; simpl in He |- *.
  - destruct He as [Hi He].
    destruct (progress_or_stuck _ _ Hσ He) as [[(σ'&E&_) _]|(->&Hst&_)]; [|by destruct (Hsw eq_refl)].
    rewrite E. eexists. split; [done|].
    assert (step (a_sys a) e σ') as Hs by by apply step_exec.
    split; [by eapply step_sized|]. intros t pc Ht. destruct (Hdata t pc Ht) as [Hl Hd].
    split; [by eapply local_ok_step|]. eapply pc_data_other; [done| |done]. by destruct e.
  - destruct He as (t&pc&Hcur&Hpc&Hpend&He). rewrite Hcur. cbn [mbind option_bind]. rewrite Hpc.
    cbn [mbind option_bind]. pose proof (Hpcs t pc Hpc) as Hok. destruct (Hdata t pc Hpc) as [Hl Hd].
    destruct (next_event pc (phase_of (a_sys a) t)) as [e|] eqn:En.
    + destruct (progress_or_stuck _ _ Hσ He) as [[(σ'&E&_) _]|(->&_)];
        [|by apply next_event_thread in En].
      assert (step (a_sys a) e σ') as Hs by by apply step_exec.
      destruct (step_reply _ _ _ Hs) as [r Er]. rewrite Er, E. cbn [mbind option_bind].
      destruct (run_reply_ok _ σ' t pc e r Hσ Hadc Hcur Hok Hl Hd En Hs Er) as (pc'&->&Hl'&Hd').
      cbn [mbind option_bind]. eexists. split; [done|]. split; [by eapply step_sized|].
      cbn [a_sys a_pcs]. intros u pcu [[<- <-]|[Hne Hu]]%lookup_insert_Some; [done|].
      destruct (Hdata u pcu Hu) as [Hlu Hdu]. split; [by eapply local_ok_step|].
      eapply pc_data_other; [done| |done]. intros _. simpl in Hcur. congruence.
    + unfold next_event in En.
      destruct (phase_of (a_sys a) t) eqn:Hph; [|done..].
      destruct pc as [l|l [[r out]|]|l|l k v|l v]; simpl in Hok, Hd; try done.
      * rewrite Hph in Hok. by destruct Hok.
      * destruct Hok as [Hin _]. rewrite Hph in Hin. by destruct Hin.
      * destruct (op_words l !! k) as [w|] eqn:Ew; [|done]. cbn [mbind option_bind].
        destruct (w (a_status a, v)) as [g v']. eexists. split; [done|]. split; [done|].
        cbn [a_sys a_pcs]. intros u pcu [[<- <-]|[Hne Hu]]%lookup_insert_Some; [by split|by apply Hdata].
      * rewrite Hph in Hok. by destruct Hok.
Qed.

Lemma step_switchable a ae a' : app_ok a → app_step a ae a' → switchable ae a.
Proof.
  intros [Hσ _] Hs ->. inversion Hs as [? ? ? _ E]; subst.
  destruct (pendsv_step _ Hσ) as [[_ ?]|[_ En]]; [done|]. unfold app_exec in E. cbv zeta in E.
  by rewrite En in E.
Qed.

Lemma app_step_data a ae a' : app_ok a → data_ok a → app_step a ae a' → data_ok a'.
Proof.
  intros Hok Hd Hs. inversion Hs as [? ? ? He E]; subst.
  destruct (app_progress a ae Hok Hd He) as (a2&E2&?); [by eapply step_switchable|congruence].
Qed.

Lemma app_run_data a a' : app_ok a → data_ok a → app_run a a' → data_ok a'.
Proof.
  intros Hok Hd Hr. induction Hr as [|a e a1 a' Hs Hr IH]; [done|].
  apply IH; [by eapply app_step_ok|by eapply app_step_data].
Qed.

Lemma app_start_data s line :
  sized (Sys s ∅) g_adc_sample_queue sizeof_adc_sample → length line = CLI_LINE_BUF_LEN →
  data_ok (app_start s line).
Proof.
  intros Hq Hl. split; [done|]. simpl. intros t pc Hpc. unfold app_tasks in Hpc.
  repeat (apply lookup_insert_Some in Hpc as [[_ <-]|[_ Hpc]];
    [split; [first [done|split; [done|unfold CLI_LINE_BUF_LEN; simpl; lia]]|done]|]).
  apply lookup_singleton_Some in Hpc as [_ <-]. done.
Qed.
