(* ===== verification/AppLive.v ===== *)
(** * The application's tasks are never stuck

    The control task may block on the status mutex while a task of lower
    priority owns it and is READY; the lock then raises that owner and leaves
    a stale bit behind.  The tasks of the application keep the discipline of
    [Inheritance]: at the status mutex they wait without a timeout, and inside
    they call nothing.  So whatever the interleaving the task switch finds a
    task, and the running task can always go on. *)
From S2P Require Import Prelude DList Kernel Scheduler SchedInv SchedSpec KernelInv System.
From S2P Require Import Abstract.
From S2P Require Import Refinement Simulation Delivery Waiting AbstractFrame Inheritance.
From S2P Require Import KernelStep Frame Timer TimerSpec PowerSupply Main Interrupts Application.
From S2P Require Import AppSafe.
From stdpp Require Import options.

#[local] Existing Instance inherit.

Implicit Types (t u w : nat) (l : local) (pc : tpc) (σ : sys) (a : app) (e : event) (α : asys)
  (b : akernel) (pcs : gmap nat tpc).

(** ** The status mutex *)

(** Where a task may be while it owns the mutex. *)
Definition holds pc : Prop :=
  match pc with Locking _ | Inside _ _ _ => True | _ => False end.
Definition queued pc : Prop :=
  match pc with Locking _ => True | _ => False end.

(** The mutex is locked once, by a task in a status function; the tasks that
    wait for it are in its lock. *)
Record held b pcs : Prop := {
  hd_mutex : is_Some (a_mutexes b !! g_status_mutex);
  hd_once mu o : a_mutexes b !! g_status_mutex = Some mu → owner mu = Some o → lock_count mu = 1;
  hd_owner o : a_owner g_status_mutex b = Some o → ∃ pc, pcs !! o = Some pc ∧ holds pc;
  hd_waiter w : w ∈ waiters g_status_mutex b → ∃ pc, pcs !! w = Some pc ∧ queued pc;
}.

Lemma queued_holds pc : queued pc → holds pc.
Proof. by destruct pc. Qed.

Lemma spares_owner b b' : spares g_status_mutex b b' → a_owner g_status_mutex b' = a_owner g_status_mutex b.
Proof. intros [EM _]. unfold a_owner. by rewrite EM. Qed.

(** A task that neither owns nor waits for the mutex may go anywhere else. *)
Lemma held_update b b' pcs t pc' :
  spares g_status_mutex b b' → held b pcs →
  (a_owner g_status_mutex b = Some t → holds pc') → (t ∈ waiters g_status_mutex b → queued pc') →
  held b' (<[t := pc']> pcs).
Proof.
  intros Hsp [Hm H1 Ho Hw] Hto Htw. pose proof Hsp as [EM Hsub]. split.
  - by rewrite EM.
  - intros mu o. rewrite EM. apply H1.
  - intros o. rewrite (spares_owner _ _ Hsp). intros Eo. destruct (decide (o = t)) as [->|Hne].
    + exists pc'. split; [apply lookup_insert_eq|by apply Hto].
    + rewrite lookup_insert_ne by done. by apply Ho.
  - intros w Hin%Hsub. destruct (decide (w = t)) as [->|Hne].
    + exists pc'. split; [apply lookup_insert_eq|by apply Htw].
    + rewrite lookup_insert_ne by done. by apply Hw.
Qed.

Lemma held_spares b b' pcs : spares g_status_mutex b b' → held b pcs → held b' pcs.
Proof.
  intros Hsp [Hm H1 Ho Hw]. pose proof Hsp as [EM Hsub]. split.
  - by rewrite EM.
  - intros mu o. rewrite EM. apply H1.
  - intros o. rewrite (spares_owner _ _ Hsp). apply Ho.
  - intros w Hin%Hsub. by apply Hw.
Qed.

(** A task outside the status functions neither owns nor waits. *)
Lemma held_outside b pcs t pc :
  held b pcs → pcs !! t = Some pc → ¬ holds pc →
  a_owner g_status_mutex b ≠ Some t ∧ t ∉ waiters g_status_mutex b.
Proof.
  intros Hh Ht Hno. split.
  - intros Eo. destruct (hd_owner _ _ Hh t Eo) as (pc1&?&?). congruence.
  - intros Hin. destruct (hd_waiter _ _ Hh t Hin) as (pc1&?&?%queued_holds). congruence.
Qed.

(** [nimble_mutex_lock] at the start of a status function. *)
Lemma lock_held b b' pcs t pc (o : outcome) pc' :
  held b pcs → pcs !! t = Some pc → ¬ holds pc →
  acall t lock_status b = Some (o, b') →
  match o with Returned _ _ _ => holds pc' | Blocked _ => queued pc' end →
  held b' (<[t := pc']> pcs).
Proof.
  intros Hh Ht Hno E Hpc'. destruct (held_outside _ _ _ _ Hh Ht Hno) as [Hto Htw].
  unfold acall, lock_status in E. destruct (a_tasks b !! t) as [c|]; [|done]. cbn [mbind option_bind] in E.
  destruct (a_mutexes b !! g_status_mutex) as [mu|] eqn:Em; [|done]. cbn [mbind option_bind] in E.
  assert (a_owner g_status_mutex b = owner mu) as Eo by (unfold a_owner; by rewrite Em).
  destruct (owner mu) as [v|] eqn:Ev.
  - rewrite decide_False in E by congruence.
    replace (NIMBLE_WAIT_FOREVER =? NIMBLE_NO_WAIT) with false in E by done.
    destruct (a_tasks b !! v) as [co|]; [|done]. cbn [mbind option_bind] in E.
    set (b1 := if _ <? _ then _ else b) in E. injection E as <- <-.
    assert (a_mutexes b1 = a_mutexes b ∧ a_waiting b1 = a_waiting b) as [EM EW] by (unfold b1; by case_match).
    destruct Hh as [Hm H1 Ho Hw]. split; simpl; rewrite ?EM.
    + done.
    + apply H1.
    + intros o. unfold a_owner at 1; simpl. rewrite EM, Em. simpl. rewrite Ev. intros [= <-].
      rewrite lookup_insert_ne by congruence. by apply Ho.
    + intros w. unfold waiters; simpl. rewrite update_eq, line_up_perm, EW, elem_of_cons.
      destruct (decide (w = t)) as [->|Hne]; [intros _; exists pc'; by rewrite lookup_insert_eq|].
      intros [?|Hin]; [done|]. rewrite lookup_insert_ne by done. by apply Hw.
  - injection E as <- <-. destruct Hh as [Hm H1 Ho Hw]. split; simpl.
    + rewrite lookup_insert_eq. eauto.
    + intros mu' o. rewrite lookup_insert_eq. by intros [= <-].
    + intros o. unfold a_owner; simpl. rewrite lookup_insert_eq. intros [= <-].
      exists pc'. by rewrite lookup_insert_eq.
    + intros w Hin. assert (w ≠ t) as Hne by by intros ->. rewrite lookup_insert_ne by done. by apply Hw.
Qed.

(** [nimble_mutex_unlock] at its end: the mutex passes to the first waiter. *)
Lemma unlock_held b b' pcs t pc' (o : outcome) :
  a_wf b → held b pcs → a_owner g_status_mutex b = Some t →
  acall t unlock_status b = Some (o, b') → held b' (<[t := pc']> pcs).
Proof.
  intros Hwf [[mu Em] H1 Ho Hw] Hto E.
  unfold acall, unlock_status in E. destruct (a_tasks b !! t) as [c|]; [|done]. cbn [mbind option_bind] in E.
  rewrite Em in E. cbn [mbind option_bind] in E. cbv zeta in E.
  assert (owner mu = Some t) as Ev by (unfold a_owner in Hto; by rewrite Em in Hto).
  rewrite decide_False in E by (intros []; congruence). rewrite (H1 mu t) in E by done. cbn [Z.ltb] in E.
  destruct (aw_owner _ Hwf _ _ _ Em Ev) as [_ Htn].
  assert (∀ w, w ∈ waiters g_status_mutex b → ∃ pc, <[t := pc']> pcs !! w = Some pc ∧ queued pc) as Hw'.
  { intros w Hin. rewrite lookup_insert_ne by (by intros ->). by apply Hw. }
  unfold a_wake in E. simpl in E. destruct (a_waiting b (NMutex g_status_mutex)) as [|w ws] eqn:El.
  - injection E as _ <-. split; simpl; rewrite ?lookup_insert_eq; eauto.
    + intros mu' o'. by intros [= <-].
    + intros o'. unfold a_owner; simpl. by rewrite lookup_insert_eq.
  - destruct (<[t := _]> (a_tasks b) !! w) as [cw|]; [|done]. injection E as _ <-.
    assert (w ∈ waiters g_status_mutex b) as Hin by (unfold waiters; rewrite El; left).
    split; simpl; rewrite ?lookup_insert_eq; eauto.
    + intros mu' o'. by intros [= <-].
    + intros o'. unfold a_owner; simpl. rewrite lookup_insert_eq. intros [= <-].
      destruct (Hw' w Hin) as (pc&?&?%queued_holds). eauto.
    + intros w'. unfold waiters; simpl. rewrite update_eq. intros Hin'. apply Hw'.
      unfold waiters. rewrite El. by right.
Qed.

(** ** The discipline *)

Section event.
Context (a : app) (X : Z → Prop) (α α' : asys) (σ' : sys) (t : nat) (pc pc' : tpc) (e : event)
  (r : Simulation.reply).
Context (Hok : app_ok a) (Hα : simulates_at X (a_sys a) α) (Hh : held (ak α) (a_pcs a)).
Context (Hcur : nimble_current_tcb (ks (a_sys a)) = Some t) (Hpc : a_pcs a !! t = Some pc).
Context (Hn : next_event pc (phase_of (a_sys a) t) = Some e).

(** The calls at the top of the loops. *)
Lemma op_call l (cl : call) :
  next l = OpCall cl → locks cl = false ∧ (∀ u, tame_call u cl false).
Proof. destruct l; intros [= <-]; by split. Qed.

Lemma event_tame : tame g_status_mutex (a_sys a) e.
Proof using All.
  assert (a_owner g_status_mutex (ak α) = owner_at (a_sys a) g_status_mutex) as Eo by by eapply sim_owner.
  unfold next_event in Hn. destruct (phase_of _ _); [|by simplify_eq..].
  destruct pc as [l| | |l k v|] eqn:Epc; try done.
  - destruct (next l) as [cl|o|s] eqn:El; injection Hn as <-; [|done|by intros u _].
    intros u Hu. assert (u = t) as -> by congruence. rewrite bool_decide_eq_false_2; [by apply (op_call l)|].
    rewrite <- Eo. by destruct (held_outside _ _ _ _ Hh Hpc) as [? _]; [intros []|].
  - destruct (op_words l !! k); [done|]. injection Hn as <-. by intros u _.
Qed.

Context (Hs : step (a_sys a) e σ') (Er : reply_of e (a_sys a) = Some r).
Context (Eon : on_reply e pc r = Some pc') (Eα : aexec e α = Some α').

(** Any event but a lock or an unlock. *)
Lemma event_held_other :
  (∀ cl, e = ECall cl → locks cl = false) → (∀ m, e ≠ EInit (OMutex m)) →
  (¬ holds pc ∨ pc' = pc) → held (ak α') (<[t := pc']> (a_pcs a)).
Proof using All.
  intros Hl Hi Hout. pose proof (aexec_spares g_status_mutex e α α' Hl (Hi _) Eα) as Hsp.
  destruct Hout as [Hout| ->].
  - destruct (held_outside _ _ _ _ Hh Hpc Hout). by eapply held_update.
  - rewrite insert_id by done. by eapply held_spares.
Qed.

(** A lock or an unlock. *)
Lemma event_call (cl : call) :
  e = ECall cl → ∃ o b', r = RCall o ∧ acall t cl (ak α) = Some (o, b') ∧ ak α' = b'.
Proof using All.
  intros Ee. destruct (step_refines_at X (a_sys a) α e σ' (ao_sys _ Hok) Hα Hs) as (_&_&_&Er').
  rewrite Er in Er'. pose proof Eα as E. rewrite Ee in Er', E. unfold aexec in E. unfold a_reply_of in Er'.
  rewrite (sim_current _ _ (simulates_some _ _ _ Hα)), Hcur in E, Er'. cbn [mbind option_bind] in E, Er'.
  destruct (acall t cl (ak α)) as [[o b']|]; [|done]. injection Er' as Er'. injection E as E.
  exists o, b'. split; [done|]. split; [done|]. by rewrite <- E.
Qed.

Lemma event_held : held (ak α') (<[t := pc']> (a_pcs a)).
Proof using All.
  pose proof event_held_other as Hother. pose proof event_call as Hcall.
  pose proof Hn as Hev. pose proof (ao_pcs _ Hok t pc Hpc) as Hpo. unfold next_event in Hev.
  destruct (phase_of (a_sys a) t) as [|p|p] eqn:Hph.
  - destruct pc as [l| | |l k v|] eqn:Epc; try done.
    + destruct (next l) as [cl|o|s] eqn:El; injection Hev as Ee.
      * apply Hother; rewrite <- ?Ee; [intros ? [= <-]; by apply (op_call l)|done|by left; intros []].
      * apply Hother; rewrite <- ?Ee; [done| |by left; intros []].
        intros m [= ->]. by destruct l.
      * destruct (Hcall lock_status) as (o&b'&Er'&Ea&->); [done|].
        eapply lock_held; [exact Hh|exact Hpc|by intros []|exact Ea|].
        pose proof Eon as E. rewrite <- Ee, Er' in E. simpl in E. rewrite El in E. by destruct o; simplify_eq/=.
    + destruct (op_words l !! k); [done|]. injection Hev as Ee.
      destruct (Hcall unlock_status) as (o&b'&Er'&Ea&->); [done|].
      eapply unlock_held; [by eapply refines_wf, Hα|exact Hh| |exact Ea].
      rewrite (sim_owner X (a_sys a)) by done. apply Hpo.
  - injection Hev as Ee. apply Hother; rewrite <- ?Ee; try done. right.
    pose proof Eon as E. rewrite <- Ee in E. destruct r; by simplify_eq/=.
  - injection Hev as Ee.
    destruct pc as [l| |l|l k v|] eqn:Epc; [congruence|..];
      try (by apply Hother; rewrite <- ?Ee; [done|done|left; intros []]).
    2: { destruct Hpo. congruence. }
    assert (enabled EResume (a_sys a)) as He by (rewrite Ee; by inversion Hs).
    destruct (call_returns (a_sys a) t (NMutex g_status_mutex) (PLock g_status_mutex))
      as (r1&out1&_&_&Ho); [done..|apply (ao_sys _ Hok)|done|done|done|].
    rewrite <- (sim_owner X _ _ _ Hα) in Ho.
    pose proof (aexec_spares g_status_mutex e α α' ltac:(by rewrite <- Ee) ltac:(by rewrite <- Ee) Eα) as Hsp.
    eapply held_update; [done|done| |].
    + intros _. pose proof Eon as E. rewrite <- Ee in E. destruct r as [|p' [v out]| |]; by simplify_eq/=.
    + unfold a_owner in Ho. destruct (a_mutexes (ak α) !! g_status_mutex) as [mu|] eqn:Em; [|done].
      by destruct (aw_owner _ (refines_wf _ _ _ (proj1 Hα)) _ _ _ Em Ho) as [_ ?].
Qed.
End event.

(** ** The invariant *)

Definition uart_queue : object := OQueue g_uart_rx_queue (replicate 64 0) 1 UART_RX_QUEUE_DEPTH.

(** The task has the bits that it leaves stale covered, and the status mutex
    is used as it should be. *)
Definition disciplined σ pcs : Prop :=
  ∃ X α, simulates_at X σ α ∧ covered g_status_mutex X (ak α) ∧ held (ak α) pcs.

(** What the tasks call exists; the queue of the comms task does not until it
    makes it. *)
Record furnished σ pcs : Prop := {
  fu_tasks t : is_Some (tcbs (ks σ) !! t) → t = idle_tcb ∨ is_Some (pcs !! t);
  fu_fault : is_Some (semaphores (ks σ) !! g_fault_semaphore);
  fu_timer : is_Some (semaphores (ks σ) !! timer_wake_sem);
  fu_uart k : pcs !! comms_tcb = Some (At (CliInit k)) → object_fresh uart_queue (ks σ);
}.

Record app_live a : Prop := {
  al_ok : app_ok a;
  al_data : data_ok a;
  al_serial : ∃ d, serial a d;
  al_discipline : disciplined (a_sys a) (a_pcs a);
  al_furnished : furnished (a_sys a) (a_pcs a);
}.

(** Tasks and objects are there to stay, and only the comms task makes one. *)
Lemma step_furnished σ e σ' pcs :
  sys_inv σ → step σ e σ' → (∀ o, e ≠ EInit o) → furnished σ pcs → furnished σ' pcs.
Proof.
  intros Hσ Hs Hi [Ht Hf Hw Hu]. destruct (sv_kernel _ Hσ) as (X&L&HI).
  pose proof (simulates_abstraction (X := X) σ L HI) as Hα. set (α := ASys _ _) in Hα.
  destruct (step_refines_at X σ α e σ' Hσ Hα Hs) as (α'&E&Hα'&_).
  destruct (aexec_extends e α α' Hi E) as [HT HS _ HQ].
  destruct Hα as [(L0&_&Ha) _], Hα' as [(L1&_&Ha') _].
  rewrite (ab_semaphores _ _ _ Ha), (ab_semaphores _ _ _ Ha') in HS.
  split; auto.
  - intros t. rewrite <- (ab_tasks _ _ _ Ha'), HT, (ab_tasks _ _ _ Ha). apply Ht.
  - intros k Hk. destruct (Hu k Hk) as (Hq&Hr&Hsd&Hsz). inversion Hs as [? ? ? _ Ee]; subst.
    pose proof (exec_mapped _ _ _ Hi Ee) as Ed. unfold mapped_nodes in Ed.
    assert (∀ n, nodes (ks σ) !! n = None → nodes (ks σ') !! n = None) as Hn.
    { intros n. rewrite <- !not_elem_of_dom. congruence. }
    split; [|by auto]. apply eq_None_not_Some. intros Hq'.
    destruct (HQ g_uart_rx_queue) as [qa Hqa].
    + rewrite (ab_queues _ _ _ Ha'), lookup_fmap. by apply fmap_is_Some.
    + by rewrite (ab_queues _ _ _ Ha), lookup_fmap, Hq in Hqa.
Qed.

Lemma init_furnished σ σ' pcs :
  sys_inv σ → step σ (EInit uart_queue) σ' → furnished σ pcs →
  (∀ k, pcs !! comms_tcb ≠ Some (At (CliInit k))) → furnished σ' pcs.
Proof.
  intros Hσ Hs [Ht Hf Hw _] Hu. inversion Hs as [? ? ? _ E]; subst.
  simpl in E. injection E as <-. split; simpl; try done. intros k Hk. by destruct (Hu k).
Qed.

Lemma furnished_pcs σ pcs t pc pc' :
  furnished σ pcs → pcs !! t = Some pc → (∀ k, pc' ≠ At (CliInit k)) →
  furnished σ (<[t := pc']> pcs).
Proof.
  intros [Ht Hf Hw Hu] Hpc Hne. split; [|done|done|].
  - intros u [?|?]%Ht; [by left|right]. rewrite lookup_insert_is_Some'. by right.
  - intros k [[_ ?]|[_ ?]]%lookup_insert_Some; [by destruct (Hne k)|by apply (Hu k)].
Qed.

(** Nothing leads back to the start of the comms task. *)
Lemma continue_not_init l res pc' k : continue l res = Some pc' → pc' ≠ At (CliInit k).
Proof.
  unfold continue. destruct (after l res) as [l'|] eqn:E; [|done]. intros [= <-] [= ->].
  destruct l, res; simpl in E; try done; try (by case_match);
    repeat (case_match || (unfold mbind, option_bind in E)); by simplify_eq.
Qed.

Lemma reply_not_init e pc r pc' k :
  e ≠ ERequest → on_reply e pc r = Some pc' → pc' ≠ At (CliInit k).
Proof.
  intros Hne E Hk. subst. destruct e as [cl|o| | | | |x|q item], r as [out| p [v out]| |]; simpl in E; try done.
  - destruct pc as [l|l v|l|l i v|l v]; try done.
    + destruct (next l), out as [? ? []|]; try done; by eapply continue_not_init in E.
    + destruct out as [? ? []|]; try done; by eapply continue_not_init in E.
  - destruct pc; try done; by eapply continue_not_init in E.
  - destruct pc; try done; by eapply continue_not_init in E.
  - destruct pc; try done; by eapply continue_not_init in E.
  - destruct pc; try done; by eapply continue_not_init in E.
  - destruct pc as [l|l [[v' out']|]|l|l i w|l w]; try done; by eapply continue_not_init in E.
Qed.

Lemma interrupt_live a e σ' :
  app_live a → interrupt e → step (a_sys a) e σ' →
  disciplined σ' (a_pcs a) ∧ furnished σ' (a_pcs a).
Proof.
  intros [[Hσ _] _ _ (X&α&Hα&Hcov&Hh) Hf] Hi Hs.
  destruct (covered_step g_status_mutex X (a_sys a) α e σ' Hσ Hα Hcov Hs) as (α'&E&Hα'&Hcov').
  { by destruct e. }
  split; [|eapply step_furnished; [done..| |done]; by destruct e].
  exists (settled_event e α X), α'. do 2 (split; [done|]). eapply held_spares, Hh.
  eapply aexec_spares, E; by destruct e.
Qed.

Lemma init_event pc ph o :
  next_event pc ph = Some (EInit o) → o = uart_queue ∧ ∃ k, pc = At (CliInit k).
Proof.
  unfold next_event. destruct ph; [|done..].
  destruct pc as [l| | |l i v|]; try done; [|by destruct (op_words l !! i)].
  destruct l; try done. intros [= <-]. eauto.
Qed.

Lemma event_live a t pc e r σ' pc' :
  app_live a → nimble_current_tcb (ks (a_sys a)) = Some t → a_pcs a !! t = Some pc →
  next_event pc (phase_of (a_sys a) t) = Some e → step (a_sys a) e σ' →
  reply_of e (a_sys a) = Some r → on_reply e pc r = Some pc' →
  disciplined σ' (<[t := pc']> (a_pcs a)) ∧ furnished σ' (<[t := pc']> (a_pcs a)).
Proof.
  intros [Hok _ [d Hd] (X&α&Hα&Hcov&Hh) Hf] Hcur Hpc Hn Hs Er Eo. pose proof Hok as [Hσ Hpcs].
  destruct (covered_step g_status_mutex X (a_sys a) α e σ' Hσ Hα Hcov Hs) as (α'&E&Hα'&Hcov').
  { by eapply event_tame. }
  split.
  { exists (settled_event e α X), α'. do 2 (split; [done|]). by eapply event_held. }
  assert ((∃ o, e = EInit o) ∨ ∀ o, e ≠ EInit o) as [[o ->]|Hi] by (destruct e; eauto).
  - destruct (init_event _ _ _ Hn) as (->&k&->). destruct (sr_role _ _ Hd t _ Hpc) as [<- _].
    assert (∀ k', pc' ≠ At (CliInit k')) as Hne by (intros k'; by eapply reply_not_init, Eo).
    eapply init_furnished; [done|done|by eapply furnished_pcs|].
    intros k'. simpl. rewrite lookup_insert_eq. intros [= ?]. by eapply Hne.
  - eapply step_furnished; [done..|].
    assert (e = ERequest ∨ e ≠ ERequest) as [->|Hne] by (destruct e; auto).
    + assert (pc' = pc) as -> by (destruct r; by simplify_eq/=). by rewrite insert_id.
    + eapply furnished_pcs; [done..|]. intros k. by eapply reply_not_init, Eo.
Qed.

Lemma word_live a t l k v v' :
  app_live a → a_pcs a !! t = Some (Inside l k v) →
  let pcs := <[t := Inside l (S k) v']> (a_pcs a) in disciplined (a_sys a) pcs ∧ furnished (a_sys a) pcs.
Proof.
  intros [[Hσ Hpcs] _ _ (X&α&Hα&Hcov&Hh) Hf] Hpc. split; [|by eapply furnished_pcs].
  exists X, α. do 2 (split; [done|]). eapply held_update; [reflexivity|done|done|].
  destruct (Hpcs t _ Hpc) as [_ Ho]. rewrite <- (sim_owner X _ _ _ Hα) in Ho. unfold a_owner in Ho.
  destruct (a_mutexes (ak α) !! g_status_mutex) as [mu|] eqn:Em; [|done]. intros Hin.
  by destruct (aw_owner _ (refines_wf _ _ _ (proj1 Hα)) _ _ _ Em Ho).
Qed.

Lemma app_step_live a ae a' : app_live a → app_step a ae a' → app_live a'.
Proof.
  intros Ha Hs. pose proof Ha as [Hok Hd [d Hser] _ _].
  assert (∃ d, serial a' d) as Hser'
    by (destruct (serial_step a ae a' d Hok Hser Hs) as (d'&_&?); eauto).
  assert (disciplined (a_sys a') (a_pcs a') ∧ furnished (a_sys a') (a_pcs a')) as [Hdis Hfur].
  { pose proof (app_step_moves _ _ _ Hs) as Hm. destruct Hm; simpl.
    - by eapply interrupt_live.
    - by eapply event_live.
    - by eapply word_live. }
  split; [by eapply app_step_ok|by eapply app_step_data|done..].
Qed.

Lemma app_run_live a a' : app_live a → app_run a a' → app_live a'.
Proof. intros Ha Hr. induction Hr as [|a e a1 a' Hs Hr IH]; [done|]. by eapply IH, app_step_live. Qed.

(** ** Progress *)

Lemma live_sheltered a : app_live a → sheltered g_status_mutex (a_sys a).
Proof. intros [_ _ _ (X&α&?&?&_) _]. by exists X, α. Qed.

Lemma live_mutex a : app_live a → is_Some (mutexes (ks (a_sys a)) !! g_status_mutex).
Proof.
  intros [_ _ _ (X&α&[(L&_&Ha) _]&_&[Hm _ _ _]) _]. by rewrite <- (ab_mutexes _ _ _ Ha).
Qed.

Lemma sized_queue σ q n : sized σ q n → is_Some (queues (ks σ) !! q).
Proof. intros (qu&?&_). eauto. Qed.

(** The call at the next operation of a task may be made. *)
Lemma live_call_ok a t l cl :
  app_live a → local_ok (a_sys a) l → next l = OpCall cl → call_ok t cl (ks (a_sys a)).
Proof.
  intros [_ [Hadc _] _ _ [_ Hf Hw _]] Hl Hn. destruct l; try done; injection Hn as <-; try done.
  - by eapply sized_queue.
  - destruct Hl. by eapply sized_queue.
Qed.

Lemma live_run a t :
  app_live a → nimble_current_tcb (ks (a_sys a)) = Some t → t ≠ idle_tcb →
  pendsv (ks (a_sys a)) = false → app_enabled Run a.
Proof.
  intros Ha Hcur Hid Hp. pose proof Ha as [[Hσ Hpcs] [_ Hdata] [d Hser] _ [Ht _ _ Hu]].
  destruct (sv_kernel _ Hσ) as (X&L&HI).
  destruct (Ht t (ki_cur _ _ (ki_core _ _ HI) t Hcur)) as [?|[pc Hpc]]; [done|].
  exists t, pc. do 3 (split; [done|]). destruct (Hdata t pc Hpc) as [Hl _].
  destruct (next_event pc _) as [e|] eqn:En; [|done]. unfold next_event in En.
  destruct (phase_of (a_sys a) t) as [|p|p] eqn:Hph; [|injection En as <-; by exists t, p..].
  destruct pc as [l| | |l k v|]; try done.
  - destruct (next l) as [cl|o|s] eqn:El; injection En as <-; exists t.
    + do 4 (split; [done|]). by eapply live_call_ok.
    + do 3 (split; [done|]). destruct (init_event (At l) User o) as (->&k&[= ->]); [by simpl; rewrite El|].
      destruct (sr_role _ _ Hser t _ Hpc) as [<- _]. by eapply Hu.
    + do 4 (split; [done|]). split; [by apply live_mutex|by apply sheltered_boost, live_sheltered].
  - destruct (op_words l !! k); [done|]. injection En as <-. exists t. do 4 (split; [done|]).
    by apply live_mutex.
Qed.

(** Every enabled event is defined. *)
Lemma live_progress a ae : app_live a → app_enabled ae a → ∃ a', app_step a ae a'.
Proof.
  intros Ha He. destruct (app_progress a ae) as (a'&E&_); [apply Ha..|done| |].
  - intros _. by eapply sheltered_live, live_sheltered.
  - exists a'. by apply app_step_exec.
Qed.

(** ** The start *)

Section image.
Context `{Image, AppImage}.

Lemma boot_app_task t line : is_Some (boot_task t) → t = idle_tcb ∨ is_Some (app_tasks line !! t).
Proof.
  intros Ht. unfold app_tasks. rewrite !lookup_insert_is_Some', lookup_singleton_is_Some.
  destruct t as [|[|[|[|[|[|t]]]]]]; [..|by destruct Ht]; repeat first [by left|right]; done.
Qed.

Lemma app_start_live s s' line :
  boot s → pendsv s = false → image_ok (ram s) → main s = Some (tt, s') →
  length line = CLI_LINE_BUF_LEN → app_live (app_start s' line).
Proof.
  intros Hb Hp Hi E Hl. pose proof (main_inv s s' Hb Hp Hi E) as Hσ.
  destruct (main_kernel s s' Hb Hp Hi E) as [[_ Htk Hbase HM HS (qu&HQ&_&_&Hsz)] (L&HI&_)].
  assert (mutexes s' !! g_status_mutex = Some (Mutex None 0)) as Hm by by rewrite HM.
  destruct (covered_start g_status_mutex (Sys s' ∅) L _ HI Hm eq_refl Hbase) as (α&Hα&Hcov&Hw).
  split.
  - by apply app_start_ok.
  - apply app_start_data; [|done]. exists qu. split; [|done]. simpl. rewrite HQ. apply lookup_singleton_eq.
  - exists demo_init. apply app_start_serial.
  - exists (λ _, False), α. do 2 (split; [done|]). destruct Hα as [(L'&_&Ha) _]. simpl in Ha.
    assert (a_mutexes (ak α) !! g_status_mutex = Some (Mutex None 0)) as Hma by by rewrite (ab_mutexes _ _ _ Ha).
    split; unfold a_owner; rewrite ?Hma; [by eexists|..].
    + by intros mu o [= <-].
    + done.
    + rewrite Hw. intros w Hin. by destruct (not_elem_of_nil w).
  - split; simpl.
    + intros t [c Hc]. apply boot_app_task. rewrite <- Htk, Hc. by eexists.
    + rewrite HS. eauto.
    + rewrite HS. eauto.
    + intros _ _. assert (∀ n, n = NQRecv g_uart_rx_queue ∨ n = NQSend g_uart_rx_queue → nodes s' !! n = None) as Hn.
      { intros n Hn. eapply main_unmapped; [|exact Hn|exact E|by rewrite (boot_nodes _ Hb)]. done. }
      split; [by rewrite HQ|]. split; [by apply Hn; left|]. split; [by apply Hn; right|].
      unfold UART_RX_QUEUE_DEPTH. clear. simpl. lia.
Qed.
End image.
