(* ===== verification/Lab.v ===== *)
(** * A concrete board

    One memory map on which the application boots.  The witnesses of the
    properties and the scenarios run on it. *)
From S2P Require Import Prelude DList Kernel Port Scheduler SchedInv SchedSpec Task WaitList Ring.
From S2P Require Import KernelInv TaskSpec KernelStep Mutex Semaphore Queue Timer TimerSpec Frame.
From S2P Require Import System PowerSupply Main Interrupts.
From stdpp Require Import options.

#[export] Instance lab_image : Image := {|
  task_exit_trap := 0x08000101;
  idle_task_fn := 0x08000201;
  timer_task_fn := 0x08000301;
  idle_stack := 0x20000000;
|}.
#[export] Instance lab_app_image : AppImage := {|
  protection_task_fn := 0x08001001; protection_stack := 0x20001000;
  control_task_fn := 0x08001101; control_stack := 0x20002000;
  comms_task_fn := 0x08001201; comms_stack := 0x20003000;
  logger_task_fn := 0x08001301; logger_stack := 0x20004000;
  timer_svc_stack := 0x20005000;
|}.

Definition words_at (base : Z) (n : nat) : gmap Z Z :=
  list_to_map ((λ i, (base + 4 * Z.of_nat i, 0)) <$> seq 0 n).

(** Room for one more task. *)
Definition spare_stack : Z := 0x20006000.

Definition lab_ram : gmap Z Z :=
  words_at idle_stack 128 ∪ words_at protection_stack 128 ∪ words_at control_stack 256 ∪
  words_at comms_stack 256 ∪ words_at logger_stack 192 ∪ words_at timer_svc_stack 128 ∪
  words_at spare_stack 64.

(** The zeroed static data of the image. *)
Definition lab_reset : kstate := KState ∅ ∅ 0 0 None None ∅ ∅ ∅ ∅ lab_ram 0 false.

(** The system after [main]. *)
Definition lab_started : kstate :=
  match main lab_reset with Some (_, s) => s | None => lab_reset end.
Definition lab : sys := Sys lab_started ∅.

(** ** The invariant *)

Definition mappedb (r : gmap Z Z) (base : Z) (n : nat) : bool :=
  forallb (λ i, is_someb (r !! (base + 4 * Z.of_nat i))) (seq 0 n).

Lemma mappedb_ok r base n : mappedb r base n = true → mapped r base (Z.of_nat n).
Proof.
  unfold mappedb. rewrite forallb_forall. intros Hall j Hj.
  specialize (Hall (Z.to_nat j)). rewrite Z2Nat.id in Hall by lia.
  apply is_someb_ok, Hall, in_seq. lia.
Qed.

Lemma lab_stack base words n :
  words = Z.of_nat n → (0 <? base) && (base + 4 * words <=? 2 ^ 32) = true →
  mappedb lab_ram base n = true → stack_ok lab_ram base words.
Proof. intros -> [?%Z.ltb_lt ?%Z.leb_le]%andb_true_iff ?%mappedb_ok. done. Qed.

Lemma lab_image_ok : image_ok lab_ram.
Proof.
  split; [apply (lab_stack _ _ 128)|apply (lab_stack _ _ 128)|apply (lab_stack _ _ 256)|
    apply (lab_stack _ _ 256)|apply (lab_stack _ _ 192)|apply (lab_stack _ _ 128)|done];
    by vm_compute.
Qed.

Lemma lab_boot : boot lab_reset.
Proof. by split. Qed.

Lemma lab_main : main lab_reset = Some (tt, lab_started).
Proof.
  unfold lab_started. generalize (main_defined lab_reset lab_boot eq_refl lab_image_ok).
  by intros [s' ->].
Qed.

(** Evaluated by [vm_compute] only. *)
#[global] Opaque lab_started.

Lemma lab_inv {M : Mode} : sys_inv lab.
Proof.
  unfold lab. generalize lab_main. generalize lab_started. intros s' E.
  exact (main_inv lab_reset s' lab_boot eq_refl lab_image_ok E).
Qed.

Lemma lab_kernel {M : Mode} :
  booted lab_started ∧
  ∃ L, kernel_inv (X := λ _, False) lab_started L ∧ timers_ok lab_started L ∧ get_list L NTimers = [].
Proof.
  generalize lab_main. generalize lab_started. intros s' E.
  exact (main_kernel lab_reset s' lab_boot eq_refl lab_image_ok E).
Qed.

(** A call that blocks or yields, up to the switch away from its task. *)
Definition away (c : call) : list event := [ECall c; ERequest; EPendSV].

Definition forever : Z := NIMBLE_WAIT_FOREVER.

(** The tasks of the application up to their first wait: the protection and
    the control task, the timer service, then the comms task, which first
    initialises its queue ([uart_bridge_init]); the logger runs. *)
Definition app_startup : list event :=
  away (CTake g_fault_semaphore forever) ++
  away (CReceive g_adc_sample_queue forever) ++
  away (CTake timer_wake_sem forever) ++
  EInit (OQueue g_uart_rx_queue (replicate 64 0) 1 UART_RX_QUEUE_DEPTH) ::
  away (CReceive g_uart_rx_queue forever).

Lemma uart_bridge_init_event :
  uart_bridge_init = init_object (OQueue g_uart_rx_queue (replicate 64 0) 1 UART_RX_QUEUE_DEPTH).
Proof. done. Qed.

(** The states of the scenarios keep it. *)
Lemma lab_run_inv {M : Mode} es σ : run_events es lab = Some σ → sys_inv σ.
Proof. apply run_events_inv, lab_inv. Qed.
