(* ===== verification/KernelProps.v ===== *)
(** * Properties of the running kernel

    The statements about every state the application can reach from reset:
    no undefined behaviour, the scheduler's data, the objects, the switch and
    the tick. *)
From S2P Require Import Prelude DList Kernel Port Scheduler SchedInv SchedSpec Task WaitList Ring.
From S2P Require Import KernelInv TaskSpec KernelStep Mutex Semaphore Queue Timer TimerSpec Frame.
From S2P Require Import System PowerSupply Main Interrupts Lab.
From stdpp Require Import options.

Implicit Types (L : gmap nid (list nid)) (s : kstate) (σ : sys) (t u : nat).

(** ** Reachable states *)

Section mode.
Context {M : Mode}.

(** [σ] is reached from reset in the state [s]: [main] boots the kernel and
    the application's objects and tasks, then the machine runs.  The mode says
    which contended locks the runs may contain ([boost_safe]): in [free] runs
    all of them, in [strict] runs those that raise no READY or waiting owner. *)
Definition app_reachable `{Image, AppImage} s σ : Prop :=
  boot s ∧ pendsv s = false ∧ image_ok (ram s) ∧
  ∃ s1, main s = Some (tt, s1) ∧ reachable (Sys s1 ∅) σ.

Lemma app_reachable_inv `{Image, AppImage} s σ : app_reachable s σ → sys_inv σ.
Proof.
  intros (Hb&Hp&Hi&s1&E&Hr). eapply reachable_inv, Hr. by eapply main_inv.
Qed.

Lemma app_reachable_step `{Image, AppImage} s σ e σ' :
  app_reachable s σ → step σ e σ' → app_reachable s σ'.
Proof.
  intros (Hb&Hp&Hi&s1&E&Hr) Hs. do 3 (split; [done|]). exists s1. split; [done|].
  by eapply reachable_step.
Qed.

Lemma app_reachable_trace `{Image, AppImage} s σ es σ' :
  app_reachable s σ → trace σ es σ' → app_reachable s σ'.
Proof. intros Hr Ht. induction Ht; [done|]. by eapply IHHt, app_reachable_step. Qed.

Lemma app_reachable_kernel `{Image, AppImage} s σ :
  app_reachable s σ → ∃ X L, kernel_inv (X := X) (ks σ) L.
Proof. intros Hr. apply (sv_kernel _ (app_reachable_inv s σ Hr)). Qed.

(** ** The concrete board *)

Lemma lab_reachable : app_reachable lab_reset lab.
Proof.
  split; [apply lab_boot|]. split; [reflexivity|]. split; [apply lab_image_ok|].
  exists lab_started. split; [apply lab_main|apply reachable_refl].
Qed.

Lemma run_events_reachable `{Image, AppImage} s es σ σ' :
  app_reachable s σ → run_events es σ = Some σ' → app_reachable s σ'.
Proof.
  revert σ. induction es as [|e es IH]; intros σ Hσ E; simpl in E; [by simplify_eq|].
  destruct (enabledb e σ) eqn:He; [|done]. destruct (exec e σ) as [σ1|] eqn:E1; [|done].
  eapply IH, E. eapply app_reachable_step, step_exec; [done|by apply enabledb_ok|done].
Qed.

(** The state after a script, for evaluation. *)
Definition after (es : list event) : sys := default lab (run_events es lab).

Lemma after_reachable es : app_reachable lab_reset (after es).
Proof.
  unfold after. destruct (run_events es lab) as [σ|] eqn:E; simpl; [|apply lab_reachable].
  by eapply run_events_reachable, E; apply lab_reachable.
Qed.

Lemma after_inv es : sys_inv (after es).
Proof. eapply app_reachable_inv, after_reachable. Qed.

Definition task_of (t : tid) σ : nimble_tcb :=
  default (TCB 0 0 0 NIMBLE_TASK_READY 0 0 0 0 None []) (tcbs (ks σ) !! t).
Definition prio_at (t : tid) σ : option Z := priority <$> tcbs (ks σ) !! t.

(** The facts a witness needs of a state, by evaluation. *)
Definition callerb (t : tid) σ : bool :=
  bool_decide (nimble_current_tcb (ks σ) = Some t) && is_someb (tcbs (ks σ) !! t) &&
  bool_decide (state (task_of t σ) = NIMBLE_TASK_RUNNING) && negb (t =? idle_tcb)%nat.

Lemma callerb_ok t σ : callerb t σ = true → caller (ks σ) t (task_of t σ).
Proof.
  unfold callerb, task_of. intros [[[?%bool_decide_eq_true Hs]%andb_true_iff
    ?%bool_decide_eq_true]%andb_true_iff ?%negb_true_iff%Nat.eqb_neq]%andb_true_iff.
  apply is_someb_ok in Hs as [c Hc]. rewrite Hc in *. by split.
Qed.

(** ** Reading the lists back *)

(** The pointers of a ready list spell out READY tasks of its priority, in
    [exact] modes all of them. *)
Lemma ready_contents {X : Stale} s L p :
  kernel_inv s L → 0 ≤ p < 32 →
  ∃ xs, contents (nodes s) (NReady p) = Some xs ∧ NoDup xs ∧
    (∀ n, n ∈ xs → ∃ t c, n = NLink t ∧ tcbs s !! t = Some c ∧
       state c = NIMBLE_TASK_READY ∧ home c p) ∧
    (xs ≠ [] → Z.testbit (ready_bitmap s) p = true) ∧
    (exact = true →
       (∀ t c, tcbs s !! t = Some c → state c = NIMBLE_TASK_READY → priority c = p → NLink t ∈ xs) ∧
       (Z.testbit (ready_bitmap s) p = true → xs ≠ [])).
Proof.
  intros [HC _] Hp. pose proof (ki_sched _ _ HC) as HI.
  destruct (proj2 (si_ready _ _ _ HI p) Hp) as [xs Hxs]. exists xs.
  assert (∀ n, n ∈ xs ↔ on L (NReady p) n) as Hon.
  { intros n. unfold on. rewrite Hxs. split; [eauto|by intros (?&[= <-]&?)]. }
  split; [eapply contents_spec; [apply HI|done]|].
  split; [eapply repr_nodup; [apply HI|done]|]. split.
  - intros n. rewrite Hon. intros Hn. pose proof (si_typed _ _ _ HI _ _ Hn) as Ht.
    destruct n as [| |t| | | | | | |]; try (by destruct Ht). destruct Ht as [c Hc].
    destruct (ti_ready _ _ _ _ (si_task _ _ _ HI t c Hc ltac:(done)) p Hn) as [? ?]. by exists t, c.
  - split.
    + intros Hne. destruct xs as [|n xs]; [done|]. apply (si_bitmap _ _ _ HI p n Hp), Hon. left.
    + intros Hx. split.
      * intros t c Hc Hs <-. pose proof (si_task _ _ _ HI t c Hc ltac:(done)) as Hti.
        destruct (ti_listed _ _ _ _ Hti Hs) as [q Hq]. apply Hon.
        pose proof (proj2 (ti_ready _ _ _ _ Hti q Hq)) as [_ <-]; done.
      * intros Hb ->. destruct (si_stale _ _ _ HI p Hp Hb) as [[n Hn]|[? _]]; [|congruence].
        by apply Hon, elem_of_nil in Hn.
Qed.

(** The list that a READY task is on. *)
Lemma ready_listed {X : Stale} s L t c :
  kernel_inv s L → tcbs s !! t = Some c → state c = NIMBLE_TASK_READY →
  ∃ p xs, home c p ∧ contents (nodes s) (NReady p) = Some xs ∧ NLink t ∈ xs.
Proof.
  intros [HC _] Hc Hs. pose proof (ki_sched _ _ HC) as HI.
  pose proof (si_task _ _ _ HI t c Hc ltac:(done)) as Hti.
  destruct (ti_listed _ _ _ _ Hti Hs) as [p Hon]. exists p.
  destruct (ti_ready _ _ _ _ Hti p Hon) as [_ Hh]. destruct Hon as (xs&Hxs&Hin). exists xs.
  split; [done|]. split; [eapply contents_spec; [apply HI|done]|done].
Qed.

(** Where a task is, by its state. *)
Lemma task_place {X : Stale} s L t c :
  kernel_inv s L → tcbs s !! t = Some c →
  match state c with
  | NIMBLE_TASK_READY => ∃ p xs, home c p ∧ contents (nodes s) (NReady p) = Some xs ∧ NLink t ∈ xs
  | NIMBLE_TASK_RUNNING => nimble_current_tcb s = Some t
  | NIMBLE_TASK_BLOCKED => ∃ h xs, contents (nodes s) h = Some xs ∧
      (h = NDelayed ∧ NLink t ∈ xs ∨ is_wait h = true ∧ NEvent t ∈ xs)
  | NIMBLE_TASK_SUSPENDED => True
  | NIMBLE_TASK_DELETED => False
  end.
Proof.
  intros HK Hc. pose proof HK as [HC _]. pose proof (ki_sched _ _ HC) as HI.
  pose proof (si_task _ _ _ HI t c Hc ltac:(done)) as [_ _ _ Hd Hw Hrun Hb Ha].
  destruct (state c) eqn:Es.
  - by eapply ready_listed.
  - by apply Hrun.
  - destruct Hb as [(xs&Hxs&Hin)|(h&Hh&xs&Hxs&Hin)]; [done|exists NDelayed, xs|exists h, xs];
      (split; [eapply contents_spec; [apply HI|done]|auto]).
  - done.
  - done.
Qed.

(** A wait list read back, in priority order. *)
Lemma waiters_contents {X : Stale} s L h :
  kernel_inv s L → is_wait h = true → is_Some (L !! h) →
  contents (nodes s) h = Some (get_list L h) ∧
  (ordered = true → wait_sorted s (get_list L h)).
Proof.
  intros [HC _] Hw Hh. split; [|intros Ho; by apply (ki_sorted _ _ HC)].
  eapply contents_spec; [apply HC|by apply get_list_Some].
Qed.

(** ** The switch *)

(** Among equals the switch is round robin: a running task is put behind the
    tasks on the ready list of its priority. *)
Lemma switched_round_robin {X : Stale} s L t s' L' t0 c0 xs :
  kernel_inv s L → switched s L t s' L' → nimble_current_tcb s = Some t0 →
  tcbs s !! t0 = Some c0 → state c0 = NIMBLE_TASK_RUNNING →
  contents (nodes s) (NReady (priority c0)) = Some xs → xs ≠ [] → t ≠ t0.
Proof.
  intros [HC _] (p&c&m'&b'&Hp&[[ys Hys] _]&_) Hcur H0 Hrun Hxs Hne ->.
  pose proof (ki_sched _ _ HC) as HI. pose proof (si_prio _ _ _ HI t0 c0 H0) as Hp0.
  assert (requeue_lists s L = L_ready t0 (priority c0) L) as El.
  { unfold requeue_lists. rewrite Hcur, H0. by rewrite decide_True. }
  destruct (proj2 (si_ready _ _ _ HI _) Hp0) as [zs Hzs].
  assert (zs = xs) as -> by (apply (contents_spec _ _ _ _ (si_repr _ _ _ HI)) in Hzs; congruence).
  assert (∀ q, ¬ on L (NReady q) (NLink t0)) as Hn.
  { intros q [? _]%(ti_ready _ _ _ _ (si_task _ _ _ HI t0 c0 H0 ltac:(done))). congruence. }
  rewrite El in Hys. unfold L_ready in Hys. apply lookup_insert_Some in Hys as [[_ E]|[_ E]].
  - rewrite (get_list_eq _ _ _ Hzs) in E. destruct xs as [|x xs]; [done|]. injection E as -> _.
    apply (Hn (priority c0)). exists (NLink t0 :: xs). split; [done|left].
  - apply (Hn p). eexists. split; [done|left].
Qed.

Lemma switch_result {X : Stale} s L s' :
  kernel_inv s L → PendSV_Handler s = Some (tt, s') →
  ∃ t c, nimble_current_tcb s' = Some t ∧ tcbs s' !! t = Some c ∧
    state c = NIMBLE_TASK_RUNNING ∧ same_objects s s' ∧
    (∀ u cu, tcbs s' !! u = Some cu → state cu = NIMBLE_TASK_READY →
       ∃ q xs, home cu q ∧ contents (nodes s') (NReady q) = Some xs ∧ NLink u ∈ xs ∧ q ≤ priority c) ∧
    (∀ t0 c0 xs, nimble_current_tcb s = Some t0 → tcbs s !! t0 = Some c0 →
       state c0 = NIMBLE_TASK_RUNNING → contents (nodes s) (NReady (priority c0)) = Some xs →
       xs ≠ [] → t ≠ t0).
Proof.
  intros HI E. destruct (pendsv_inv s L HI) as [[_ Hwp]|[_ ?]]; [|congruence].
  unfold wp in Hwp. rewrite E in Hwp. destruct Hwp as (t&p&c0&HI'&Hsw&_).
  assert (switched s L t s' (detach (NLink t) (requeue_lists s L))) as Hsw' by by exists p, c0.
  destruct (switched_keeps _ _ _ _ _ Hsw') as (Hcur&Hobj&_&_&_&c&Hc&Hs).
  exists t, c. do 4 (split; [done|]). split.
  - intros u cu Hu Hr. destruct (switched_highest _ _ _ _ _ _ _ _ HI Hsw' Hc Hu Hr) as (q&?&?&xs&Hxs&?).
    exists q, xs. split; [done|]. split; [|done].
    eapply contents_spec; [apply (ki_sched _ _ (ki_core _ _ HI'))|done].
  - intros t0 c1 xs. by eapply switched_round_robin.
Qed.

(** The wait list of an object that there is. *)
Definition waits_for_object (h : nid) s : Prop :=
  match h with
  | NMutex m => is_Some (mutexes s !! m)
  | NSem x => is_Some (semaphores s !! x)
  | NQRecv q | NQSend q => is_Some (queues s !! q)
  | _ => False
  end.

Lemma object_head {X : Stale} s L h :
  kernel_inv s L → waits_for_object h s → is_wait h = true ∧ is_Some (L !! h).
Proof.
  intros HI Hh. destruct (ki_objects _ _ HI) as [HM HS HQ].
  destruct h as [| | | |m|x|q|q| |]; try done; destruct Hh as [o Ho]; (split; [done|]).
  - by destruct (HM m o Ho).
  - by destruct (HS x o Ho).
  - by destruct (HQ q o Ho).
  - by destruct (HQ q o Ho).
Qed.

(** ** The properties *)

Section image.
  Context `{Image, AppImage}.

(** C2: no undefined behaviour.  In every state the booted application can
    reach, every event that can happen (a kernel call of the running task, a
    switch request, the resumption of a blocked call, a tick, PendSV, a device
    interrupt) is defined, and leads to a reachable state again; with one
    exception, a PendSV whose highest bit is that of empty lists.  Only runs
    in which a lock raised an owner that was READY get there
    ([Scenarios.boosted_owner_misplaced] is one): in [strict] runs nothing
    is undefined. *)
Theorem system_never_stuck s σ e :
  app_reachable s σ → enabled e σ →
  (∃ σ', step σ e σ' ∧ app_reachable s σ') ∨
  exact = false ∧ e = EPendSV ∧ switch_stuck (ks σ) ∧ exec EPendSV σ = None.
Proof.
  intros Hr He. pose proof (app_reachable_inv s σ Hr) as Hσ.
  destruct (progress_or_stuck σ e Hσ He) as [[(σ'&E&_) _]|(->&Hst&En)].
  - left. exists σ'. split; [by apply step_exec|]. by eapply app_reachable_step, step_exec.
  - right. split; [|done]. destruct exact eqn:Hx; [|done].
    destruct (progress σ EPendSV Hx Hσ He) as (σ'&E&_). congruence.
Qed.

(** C4: mutual exclusion.  From any reachable state on, the owner of a mutex
    stays its owner, whatever the other tasks and the interrupts do, until it
    calls unlock itself. *)
Theorem mutex_exclusive s σ es σ' m t :
  app_reachable s σ → trace σ es σ' → owner_at σ m = Some t →
  (∀ σ1 e, (σ1, e) ∈ es → ¬ releases σ1 e m t) → owner_at σ' m = Some t.
Proof. intros Hr. by apply owner_until_release, (app_reachable_inv s). Qed.

(** C15: the ready lists.  In every reachable state the pointers of the ready
    list of priority [p] spell out, without repetition, READY tasks whose
    effective priority is [p], or which [p] was when they were put there
    ([home]), and then bit [p] of the bitmap is set.  In [strict] runs they
    are exactly the READY tasks of priority [p], and the bit tells if there is
    one. *)
Theorem ready_lists_exact s σ p :
  app_reachable s σ → 0 ≤ p < 32 →
  ∃ xs, contents (nodes (ks σ)) (NReady p) = Some xs ∧ NoDup xs ∧
    (∀ n, n ∈ xs → ∃ t c, n = NLink t ∧ tcbs (ks σ) !! t = Some c ∧
       state c = NIMBLE_TASK_READY ∧ home c p) ∧
    (xs ≠ [] → Z.testbit (ready_bitmap (ks σ)) p = true) ∧
    (exact = true →
       (∀ t c, tcbs (ks σ) !! t = Some c → state c = NIMBLE_TASK_READY → priority c = p → NLink t ∈ xs) ∧
       (Z.testbit (ready_bitmap (ks σ)) p = true → xs ≠ [])).
Proof.
  intros Hr Hp. destruct (app_reachable_kernel s σ Hr) as (X&L&HI). by eapply ready_contents.
Qed.

(** C19: the lists are typed.  In every reachable state, each node on a ready
    list or the delayed list is the [link] of a task, and each node on the wait
    list of an object is the [event_link] of one: wherever the kernel goes from
    a node to the struct around it ([NIMBLE_CONTAINER_OF]), that struct is
    there. *)
Theorem containers_typed s σ h xs n :
  app_reachable s σ → contents (nodes (ks σ)) h = Some xs → n ∈ xs →
  ((∃ p, h = NReady p ∧ 0 ≤ p < 32) ∨ h = NDelayed →
     ∃ t, tcb_of_link n (ks σ) = Some (t, ks σ) ∧ is_Some (tcbs (ks σ) !! t)) ∧
  (waits_for_object h (ks σ) →
     ∃ t, tcb_of_event_link n (ks σ) = Some (t, ks σ) ∧ is_Some (tcbs (ks σ) !! t)).
Proof.
  intros Hr Hxs Hin. destruct (app_reachable_kernel s σ Hr) as (X&L&HI).
  pose proof (ki_sched _ _ (ki_core _ _ HI)) as HS.
  assert (is_Some (L !! h) → typed (ks σ) h n) as Hty.
  { intros [ys Hys]. apply (si_typed _ _ _ HS). exists ys. split; [done|].
    pose proof (contents_spec _ _ _ _ (si_repr _ _ _ HS) Hys). congruence. }
  split.
  - intros Hh. assert (is_Some (L !! h)) as Hl.
    { destruct Hh as [(p&->&Hp)| ->]; [by apply (si_ready _ _ _ HS)|apply (si_delayed _ _ _ HS)]. }
    specialize (Hty Hl). destruct Hh as [(p&->&_)| ->], n as [| |t|t| | | | | |]; try (by destruct Hty); by exists t.
  - intros Hh. destruct (object_head _ L h HI Hh) as [_ Hl]. specialize (Hty Hl).
    destruct h; try done; (destruct n as [| |t|t| | | | | |]; try (by destruct Hty); by exists t; destruct Hty).
Qed.

(** C16: no task is lost.  In every reachable state a READY task is on a
    ready list, that of its priority or one from its base priority up
    ([home]), a RUNNING task is the current one, and a BLOCKED task is on the
    delayed list or on the wait list of an object, from which a tick or another
    task can take it. *)
Theorem tasks_in_place s σ t c :
  app_reachable s σ → tcbs (ks σ) !! t = Some c →
  match state c with
  | NIMBLE_TASK_READY =>
      ∃ p xs, home c p ∧ contents (nodes (ks σ)) (NReady p) = Some xs ∧ NLink t ∈ xs
  | NIMBLE_TASK_RUNNING => nimble_current_tcb (ks σ) = Some t
  | NIMBLE_TASK_BLOCKED => ∃ h xs, contents (nodes (ks σ)) h = Some xs ∧
      (h = NDelayed ∧ NLink t ∈ xs ∨ is_wait h = true ∧ NEvent t ∈ xs)
  | NIMBLE_TASK_SUSPENDED => True
  | NIMBLE_TASK_DELETED => False
  end.
Proof.
  intros Hr Hc. destruct (app_reachable_kernel s σ Hr) as (X&L&HI). by eapply task_place.
Qed.

(** C17: the switch.  PendSV, in a reachable state, leaves a RUNNING current
    task, and every READY task is on a ready list whose priority does not exceed
    the running task's (in [strict] runs that list is the one of the READY
    task's own priority, by [home]); a task that was
    running does not run on while the ready list of its priority has another;
    the objects are as they were. *)
Theorem switch_runs_highest s σ σ' :
  app_reachable s σ → step σ EPendSV σ' →
  ∃ t c, nimble_current_tcb (ks σ') = Some t ∧ tcbs (ks σ') !! t = Some c ∧
    state c = NIMBLE_TASK_RUNNING ∧ same_objects (ks σ) (ks σ') ∧
    (∀ u cu, tcbs (ks σ') !! u = Some cu → state cu = NIMBLE_TASK_READY →
       ∃ q xs, home cu q ∧ contents (nodes (ks σ')) (NReady q) = Some xs ∧ NLink u ∈ xs ∧ q ≤ priority c) ∧
    (∀ t0 c0 xs, nimble_current_tcb (ks σ) = Some t0 → tcbs (ks σ) !! t0 = Some c0 →
       state c0 = NIMBLE_TASK_RUNNING →
       contents (nodes (ks σ)) (NReady (priority c0)) = Some xs → xs ≠ [] → t ≠ t0).
Proof.
  intros Hr Hs. destruct (app_reachable_kernel s σ Hr) as (X&L&HI).
  inversion Hs as [? ? ? _ E]; subst. unfold exec, run in E.
  destruct (PendSV_Handler (ks σ)) as [[[] s']|] eqn:Ep; [|done]. injection E as <-.
  by apply (switch_result (ks σ) L).
Qed.

(** The boot.  From reset, on a memory map with room for the stacks,
    [main] initialises the kernel, the shared objects and the six tasks and
    ends with the protection task running. *)
Theorem main_boots s :
  boot s → pendsv s = false → image_ok (ram s) →
  ∃ s', main s = Some (tt, s') ∧ booted s' ∧ sys_inv (Sys s' ∅).
Proof.
  intros Hb Hp Hi.
  destruct (proj1 (wp_run _ _ _) (main_spec s Hb Hp Hi)) as ([]&s'&E&Hinv&Hbt&_). eauto.
Qed.

(** C18: the objects.  In every reachable state each wait list, read back from
    its pointers, is in priority order (as long as no waiting owner was raised);
    a free mutex has no waiters and an owner does not wait for its own mutex;
    a semaphore's count is within its bounds and zero while tasks wait; a
    queue's indices describe its ring. *)
Theorem objects_consistent s σ :
  app_reachable s σ →
  (∀ h ws, contents (nodes (ks σ)) h = Some ws → waits_for_object h (ks σ) → ordered = true →
     wait_sorted (ks σ) ws) ∧
  (∀ m mu, mutexes (ks σ) !! m = Some mu → ∃ ws, contents (nodes (ks σ)) (NMutex m) = Some ws ∧
     (owner mu = None → ws = []) ∧
     (∀ o, owner mu = Some o → is_Some (tcbs (ks σ) !! o) ∧ NEvent o ∉ ws)) ∧
  (∀ x sem, semaphores (ks σ) !! x = Some sem → ∃ ws, contents (nodes (ks σ)) (NSem x) = Some ws ∧
     0 ≤ count sem ≤ max_count sem ∧ (ws ≠ [] → count sem = 0)) ∧
  (∀ q qu, queues (ks σ) !! q = Some qu → queue_wf qu).
Proof.
  intros Hr. destruct (app_reachable_kernel s σ Hr) as (X&L&HI).
  pose proof (ki_objects _ _ HI) as [HM HS HQ]. split; [|split; [|split]].
  - intros h ws Hws Hh Ho. destruct (object_head (ks σ) L h HI Hh) as [Hw Hl].
    destruct (waiters_contents _ _ h HI Hw Hl) as [E Hs]. assert (ws = get_list L h) as -> by congruence.
    by apply Hs.
  - intros m mu Hm. destruct (HM m mu Hm) as [Hl _ Hf Ho].
    destruct (waiters_contents _ _ (NMutex m) HI eq_refl Hl). eauto.
  - intros x sem Hx. destruct (HS x sem Hx) as [Hl _ Hc Hw].
    destruct (waiters_contents _ _ (NSem x) HI eq_refl Hl). eauto.
  - intros q qu Hq. by destruct (HQ q qu Hq).
Qed.
End image.
End mode.

#[local] Existing Instance strict.

(** ** Witnesses *)

(** A run as a trace. *)
Fixpoint trace_of (es : list event) σ : list (sys * event) :=
  match es with
  | [] => []
  | e :: es => (σ, e) :: match exec e σ with Some σ => trace_of es σ | None => [] end
  end.

Lemma run_events_trace {M : Mode} es σ σ' : run_events es σ = Some σ' → trace σ (trace_of es σ) σ'.
Proof.
  revert σ. induction es as [|e es IH]; intros σ E; simpl in E |- *; [simplify_eq; constructor|].
  destruct (enabledb e σ) eqn:He; [|done]. destruct (exec e σ) as [σ1|] eqn:E1; [|done].
  econstructor; [|by apply IH]. apply step_exec; [by apply enabledb_ok|done].
Qed.

Lemma trace_of_event es σ σ1 e : (σ1, e) ∈ trace_of es σ → e ∈ es.
Proof.
  revert σ. induction es as [|e' es IH]; intros σ; simpl; [by intros ?%elem_of_nil|].
  intros [[= _ ->]|Hin]%elem_of_cons; [left|]. destruct (exec e' σ) as [σ2|]; [|by apply elem_of_nil in Hin].
  right. by eapply IH.
Qed.

Lemma after_run {M : Mode} es es' :
  is_someb (run_events es' (after es)) = true →
  run_events es' (after es) = Some (default lab (run_events es' (after es))).
Proof. by destruct (run_events es' (after es)). Qed.

(** The protection task takes the mutex. *)
Definition locked_once : list event := [ECall (CLock g_status_mutex NIMBLE_WAIT_FOREVER)].

Lemma system_never_stuck_witness :
  let e := ECall (CTake g_fault_semaphore NIMBLE_WAIT_FOREVER) in
  (∃ σ', step lab e σ' ∧ app_reachable lab_reset σ') ∨
  exact = false ∧ e = EPendSV ∧ switch_stuck (ks lab) ∧ exec EPendSV lab = None.
Proof.
  intros e.
  apply (system_never_stuck lab_reset lab).
  - apply lab_reachable.
  - apply enabledb_ok. vm_compute. reflexivity.
Defined.

Lemma mutex_exclusive_witness :
  owner_at (default lab (run_events [ETick; EPendSV] (after locked_once))) g_status_mutex =
    Some protection_tcb.
Proof.
  apply (mutex_exclusive lab_reset (after locked_once) (trace_of [ETick; EPendSV] (after locked_once))).
  - apply after_reachable.
  - apply run_events_trace, after_run. vm_compute. reflexivity.
  - vm_compute. reflexivity.
  - intros σ1 e Hin%trace_of_event [-> _].
    apply elem_of_cons in Hin as [Hin|Hin]; [discriminate Hin|].
    apply list_elem_of_singleton in Hin. discriminate Hin.
Defined.

Lemma ready_lists_exact_witness :
  ∃ xs, contents (nodes (ks lab)) (NReady 3) = Some xs ∧ NoDup xs ∧
    (∀ n, n ∈ xs → ∃ t c, n = NLink t ∧ tcbs (ks lab) !! t = Some c ∧
       state c = NIMBLE_TASK_READY ∧ home c 3) ∧
    (xs ≠ [] → Z.testbit (ready_bitmap (ks lab)) 3 = true) ∧
    (exact = true →
       (∀ t c, tcbs (ks lab) !! t = Some c → state c = NIMBLE_TASK_READY → priority c = 3 → NLink t ∈ xs) ∧
       (Z.testbit (ready_bitmap (ks lab)) 3 = true → xs ≠ [])).
Proof.
  apply (ready_lists_exact lab_reset lab 3); [apply lab_reachable|split; [discriminate|reflexivity]].
Defined.

(** The second task of priority 3 is linked by its [link]. *)
Lemma containers_typed_witness :
  (∃ xs, contents (nodes (ks lab)) (NReady 3) = Some xs ∧ NLink control_tcb ∈ xs) ∧
  ∃ t, tcb_of_link (NLink control_tcb) (ks lab) = Some (t, ks lab) ∧ is_Some (tcbs (ks lab) !! t).
Proof.
  assert (contents (nodes (ks lab)) (NReady 3) = Some [NLink control_tcb; NLink timer_task_tcb]) as Hxs
    by (vm_compute; reflexivity).
  assert (NLink control_tcb ∈ [NLink control_tcb; NLink timer_task_tcb]) as Hin by left.
  split; [exists [NLink control_tcb; NLink timer_task_tcb]; split; [exact Hxs|exact Hin]|].
  apply (proj1 (containers_typed lab_reset lab (NReady 3) _ _ lab_reachable Hxs Hin)).
  left. exists 3. split; [reflexivity|split; [discriminate|reflexivity]].
Defined.

Lemma task_of_lookup t σ : is_someb (tcbs (ks σ) !! t) = true → tcbs (ks σ) !! t = Some (task_of t σ).
Proof. unfold task_of. by destruct (tcbs (ks σ) !! t). Qed.

Lemma tasks_in_place_witness :
  match state (task_of control_tcb lab) with
  | NIMBLE_TASK_READY => ∃ p xs, home (task_of control_tcb lab) p ∧
      contents (nodes (ks lab)) (NReady p) = Some xs ∧ NLink control_tcb ∈ xs
  | NIMBLE_TASK_RUNNING => nimble_current_tcb (ks lab) = Some control_tcb
  | NIMBLE_TASK_BLOCKED => ∃ h xs, contents (nodes (ks lab)) h = Some xs ∧
      (h = NDelayed ∧ NLink control_tcb ∈ xs ∨ is_wait h = true ∧ NEvent control_tcb ∈ xs)
  | NIMBLE_TASK_SUSPENDED => True
  | NIMBLE_TASK_DELETED => False
  end.
Proof.
  apply (tasks_in_place lab_reset lab control_tcb); [apply lab_reachable|].
  apply task_of_lookup. vm_compute. reflexivity.
Defined.

(** A tick has come. *)
Definition ticked_once : list event := [ETick].

Lemma exec_step {M : Mode} e σ :
  enabledb e σ = true → is_someb (exec e σ) = true → step σ e (default lab (exec e σ)).
Proof.
  intros He Hs. apply step_exec; [by apply enabledb_ok|]. by destruct (exec e σ).
Qed.

Lemma switch_runs_highest_witness :
  let σ := after ticked_once in let σ' := default lab (exec EPendSV σ) in
  ∃ t c, nimble_current_tcb (ks σ') = Some t ∧ tcbs (ks σ') !! t = Some c ∧
    state c = NIMBLE_TASK_RUNNING ∧ same_objects (ks σ) (ks σ') ∧
    (∀ u cu, tcbs (ks σ') !! u = Some cu → state cu = NIMBLE_TASK_READY →
       ∃ q xs, home cu q ∧ contents (nodes (ks σ')) (NReady q) = Some xs ∧ NLink u ∈ xs ∧ q ≤ priority c) ∧
    (∀ t0 c0 xs, nimble_current_tcb (ks σ) = Some t0 → tcbs (ks σ) !! t0 = Some c0 →
       state c0 = NIMBLE_TASK_RUNNING →
       contents (nodes (ks σ)) (NReady (priority c0)) = Some xs → xs ≠ [] → t ≠ t0).
Proof.
  apply (switch_runs_highest lab_reset).
  - apply after_reachable.
  - apply exec_step; vm_compute; reflexivity.
Defined.

Lemma main_boots_witness : ∃ s', main lab_reset = Some (tt, s') ∧ booted s' ∧ sys_inv (Sys s' ∅).
Proof. apply (main_boots lab_reset); [apply lab_boot|reflexivity|apply lab_image_ok]. Defined.

Lemma objects_consistent_witness :
  ∃ ws, contents (nodes (ks lab)) (NSem g_fault_semaphore) = Some ws ∧
    0 ≤ count (Semaphore 0 1) ≤ max_count (Semaphore 0 1) ∧ (ws ≠ [] → count (Semaphore 0 1) = 0).
Proof.
  apply (proj1 (proj2 (proj2 (objects_consistent lab_reset lab lab_reachable))) g_fault_semaphore).
  vm_compute. reflexivity.
Defined.
