(* ===== verification/RefinementProps.v ===== *)
(** * Refinement and delivery, from reset

    From [main] on every run of the machine is a run of the abstract kernel of
    [Abstract], and no message is lost on the way through a queue. *)
From S2P Require Import Prelude DList Kernel Port Scheduler SchedInv SchedSpec Task WaitList Ring.
From S2P Require Import KernelInv KernelStep Timer System Abstract Refinement Simulation Delivery.
From S2P Require Import Mutex Waiting Inheritance.
From S2P Require Import PowerSupply Main Lab KernelProps.
From stdpp Require Import options.

Implicit Types (h : nid) (t u q : nat) (s : kstate) (σ : sys) (α : asys) (a : akernel).

(** ** The abstract state after [main] *)

(** The protection task runs, the other five tasks are READY (the control
    task and the timer service share a priority, the others are alone with
    theirs); nobody sleeps or waits and the objects are empty. *)
Record a_booted a : Prop := {
  ad_current : a_current a = Some protection_tcb;
  ad_tasks t : (λ c, (priority c, state c)) <$> a_tasks a !! t = boot_task t;
  ad_ready p : 0 ≤ p < 32 →
    a_ready a p ≡ₚ filter (λ t, boot_task t = Some (p, NIMBLE_TASK_READY)) (seq 0 6);
  ad_sleeping : a_sleeping a = [];
  ad_waiting h : is_wait h = true → a_waiting a h = [];
  ad_mutexes : a_mutexes a = {[g_status_mutex := Mutex None 0]};
  ad_semaphores : a_semaphores a =
    {[timer_wake_sem := Semaphore 0 1; g_fault_semaphore := Semaphore 0 1]};
  ad_queues : a_queues a = {[g_adc_sample_queue := AQueue sizeof_adc_sample ADC_QUEUE_DEPTH []]};
}.

Lemma boot_task_known t p st : boot_task t = Some (p, st) → t ∈ seq 0 6.
Proof. rewrite elem_of_seq. do 6 (destruct t as [|t]; [lia|]). done. Qed.

Lemma boot_task_state t p st : boot_task t = Some (p, st) → st ≠ NIMBLE_TASK_BLOCKED.
Proof. intros Ht ->. by do 6 (destruct t as [|t]; [done|]). Qed.

Section mode.
Context {M : Mode}.

Lemma get_list_nodup {X : Stale} s L h : kernel_inv s L → NoDup (get_list L h).
Proof.
  intros HI. unfold get_list. destruct (L !! h) as [xs|] eqn:E; [|constructor].
  eapply repr_nodup; [apply HI|done].
Qed.

Lemma booted_refines {X : Stale} s L a : kernel_inv s L → abstracts s L a → booted s → a_booted a.
Proof.
  intros HI Ha [Hcur Htasks Hbase Hm Hx (qu&Hq&Hit&Hcap&Hsz)].
  pose proof (ki_sched _ _ (ki_core _ _ HI)) as HS.
  assert (∀ t c p, tcbs s !! t = Some c → home c p → p = priority c) as Hone.
  { intros t c p Hc [? _]. rewrite (Hbase t c Hc) in *. lia. }
  assert (∀ t c, tcbs s !! t = Some c → boot_task t = Some (priority c, state c)) as Hbt.
  { intros t c Ht. by rewrite <- Htasks, Ht. }
  split; rewrite ?(ab_current _ _ _ Ha), ?(ab_tasks _ _ _ Ha), ?(ab_mutexes _ _ _ Ha),
    ?(ab_semaphores _ _ _ Ha), ?(ab_queues _ _ _ Ha); try done.
  - intros p Hp. pose proof (get_list_nodup s L (NReady p) HI) as Hnd.
    rewrite (ab_ready _ _ _ Ha p Hp) in Hnd. apply NoDup_fmap in Hnd; [|apply _].
    apply NoDup_Permutation; [done|apply NoDup_filter, NoDup_seq|].
    intros t. rewrite list_elem_of_filter. split.
    + intros Hin. eapply ab_on_ready in Hin; [|done..].
        destruct (si_typed _ _ _ HS _ _ Hin) as [c Hc].
        destruct (ti_ready _ _ _ _ (si_task _ _ _ HS t c Hc ltac:(done)) p Hin) as [Hs Hpc%(Hone t c p Hc)].
        apply Hbt in Hc. rewrite Hs, <- Hpc in Hc. split; [done|]. by eapply boot_task_known.
    + intros [Ht _]. rewrite <- Htasks in Ht. destruct (tcbs s !! t) as [c|] eqn:Hc; [|done].
        injection Ht as Hpc Hs.
        pose proof (si_task _ _ _ HS t c Hc ltac:(done)) as Hti.
        destruct (ti_listed _ _ _ _ Hti Hs) as [q Hon].
        pose proof (proj2 (ti_ready _ _ _ _ Hti q Hon)) as Hh. apply (Hone t c q Hc) in Hh as ->.
        rewrite Hpc in Hon. destruct Hon as (xs&Hxs&Hin). rewrite <- (get_list_eq _ _ _ Hxs), (ab_ready _ _ _ Ha p Hp) in Hin.
        by apply list_elem_of_fmap in Hin as (?&[= <-]&?).
  - destruct (a_sleeping a) as [|t ts] eqn:E; [done|exfalso].
    assert (on L NDelayed (NLink t)) as Hon
      by (apply elem_of_get_list; rewrite (ab_sleeping _ _ _ Ha), E; left).
    destruct (si_typed _ _ _ HS _ _ Hon) as [c Hc].
    apply (ti_delayed _ _ _ _ (si_task _ _ _ HS t c Hc ltac:(done))) in Hon.
    by eapply boot_task_state, Hon; apply Hbt.
  - intros h Hw. destruct (a_waiting a h) as [|t ts] eqn:E; [done|exfalso].
    assert (on L h (NEvent t)) as Hon by (eapply ab_on_wait; [done..|rewrite E; left]).
    assert (is_Some (tcbs s !! t)) as [c Hc].
    { pose proof (si_typed _ _ _ HS _ _ Hon) as Ht. destruct h; simpl in Ht; naive_solver. }
    apply (ti_wait _ _ _ _ (si_task _ _ _ HS t c Hc ltac:(done))) in Hon; [|done].
    by eapply boot_task_state, Hon; apply Hbt.
  - rewrite Hq, map_fmap_singleton. unfold aq. by rewrite Hit, Hcap, Hsz.
Qed.

(** ** The theorems *)

Section image.
Context `{Image, AppImage}.

(** C1: the kernel refines the abstract kernel.  From reset through [main],
    there is an abstract state of the booted application such that every run
    of the machine is a run of the abstract machine from it: the same events
    have the same replies (return values, delivered items, blocked callers,
    switch requests), and the pointers, bitmap, rings and TCBs at its end are
    those of the abstract state at its end. *)
Theorem kernel_refines s :
  boot s → pendsv s = false → image_ok (ram s) →
  ∃ s1 a, main s = Some (tt, s1) ∧ a_booted a ∧ refines s1 a ∧
    ∀ es σ, trace (Sys s1 ∅) es σ →
      ∃ rs α, arun es.*2 (ASys a ∅) = Some (rs, α) ∧ refines (ks σ) (ak α) ∧
        a_phases α = phases σ ∧ (λ x, reply_of x.2 x.1) <$> es = Some <$> rs.
Proof.
  intros Hb Hp Hi. destruct (main_defined s Hb Hp Hi) as [s1 E]. pose proof (main_inv s s1 Hb Hp Hi E) as Hσ.
  destruct (main_kernel s s1 Hb Hp Hi E) as (Hbt&L&HI&_).
  pose proof (simulates_abstraction (X := λ _, False) (Sys s1 ∅) L HI) as Hα0.
  pose proof (simulates_some _ _ _ Hα0) as Hα. destruct Hα0 as [(L'&HI'&Ha) _].
  exists s1, (abstraction s1 L). split; [done|].
  split; [by eapply (booted_refines (X := λ _, False))|]. split; [apply Hα|]. intros es σ Ht.
  destruct (run_refines _ _ es σ Hσ Hα Ht) as (rs&α&Er&[Hr Hph]&Ers).
  exists rs, α. split; [exact Er|]. split; [exact Hr|]. split; [exact Hph|exact Ers].
Qed.

(** C3: exactly-once, in-order delivery.  Along every run, whatever tasks and
    handlers send, receive, block and resume: the items in a queue, followed
    by the items accepted, are the items delivered followed by those in it at
    the end. *)
Theorem queue_delivers s σ es σ' q qu :
  app_reachable s σ → trace σ es σ' → queues (ks σ) !! q = Some qu →
  ∃ qu', queues (ks σ') !! q = Some qu' ∧
    item_size qu' = item_size qu ∧ capacity qu' = capacity qu ∧
    items qu ++ (take (Z.to_nat (item_size qu)) <$> sends q es) = receives q es ++ items qu'.
Proof.
  intros Hr Ht Hq. pose proof (app_reachable_inv s σ Hr) as Hσ. destruct (sv_kernel _ Hσ) as (X&L&HI).
  pose proof (simulates_some _ _ _ (simulates_abstraction (X := X) σ L HI)) as Hα.
  destruct (trace_moved q σ _ es σ' qu Hσ Hα Ht Hq) as (qu'&Hq'&Hp).
  by exists qu'.
Qed.

(** C5: waits without a timeout.  A lock, take, send or receive that blocks
    with [NIMBLE_WAIT_FOREVER] does not time out, whatever happens until its
    task runs again: the lock returns success and its caller owns the mutex,
    the take returns success; a resumed send or receive returns success, or
    that the queue is full or empty because another task was faster. *)
Theorem wait_forever s σ cl h σ1 p es σ2 t :
  app_reachable s σ → nimble_current_tcb (ks σ) = Some t → waits_forever cl = Some h →
  step σ (ECall cl) σ1 → phase_of σ1 t = Requesting p → p ≠ PDone →
  trace σ1 es σ2 → (∀ σ', (σ', EResume) ∈ es → nimble_current_tcb (ks σ') ≠ Some t) →
  nimble_current_tcb (ks σ2) = Some t → enabled EResume σ2 →
  ∃ r out, reply_of EResume σ2 = Some (RResume p (r, out)) ∧ served p t σ2 r out.
Proof.
  intros Hr Hcur Hf Hs Hph Hp Ht Hres Hcur2 He. pose proof (app_reachable_inv s σ Hr) as Hσ.
  assert (sys_inv σ1) as Hσ1 by by eapply step_inv. pose proof (waits_forever_wait _ _ Hf) as Hh.
  destruct (call_blocks σ σ1 t cl h p Hσ Hcur Hf Hs Hph Hp) as [Hw Hon].
  eapply (call_returns σ2 t h p); [done|done|by eapply trace_inv| |done|done].
  by eapply trace_waits.
Qed.
End image.
End mode.

(** ** Priority inheritance *)



(** ** Witnesses *)






#[local] Existing Instance strict.

(** The application starts, a sample arrives from the handler and the control
    task receives it. *)
Definition sample_arrives : list event :=
  app_startup ++ [EIsrSend g_adc_sample_queue (replicate 4 7); EPendSV; EResume].

Lemma sample_arrives_run : trace lab (trace_of sample_arrives lab) (after sample_arrives).
Proof.
  apply run_events_trace. unfold after. destruct (run_events sample_arrives lab) eqn:E; [done|].
  assert (is_someb (run_events sample_arrives lab) = true) as Hs by (vm_compute; reflexivity).
  by rewrite E in Hs.
Qed.

Lemma lab_main_started s1 : main lab_reset = Some (tt, s1) → s1 = lab_started.
Proof.
  generalize lab_main. generalize lab_started. generalize (main lab_reset). intros o s2 -> E. congruence.
Qed.

Lemma kernel_refines_witness :
  ∃ a, a_booted a ∧ refines lab_started a ∧
    ∃ rs α, arun (trace_of sample_arrives lab).*2 (ASys a ∅) = Some (rs, α) ∧
      refines (ks (after sample_arrives)) (ak α) ∧ a_phases α = phases (after sample_arrives) ∧
      (λ x, reply_of x.2 x.1) <$> trace_of sample_arrives lab = Some <$> rs.
Proof.
  destruct (kernel_refines lab_reset lab_boot eq_refl lab_image_ok) as (s1&a&E&Hb&Hr&Hruns).
  assert (s1 = lab_started) as -> by exact (lab_main_started s1 E).
  exists a. split; [exact Hb|]. split; [exact Hr|]. exact (Hruns _ _ sample_arrives_run).
Defined.

(** The queue of the samples at the start. *)
Definition lab_queue : nimble_queue :=
  default (Queue [] 0 0 0 0 0) (queues (ks lab) !! g_adc_sample_queue).

Lemma queue_delivers_witness :
  receives g_adc_sample_queue (trace_of sample_arrives lab) = [replicate 4 7] ∧
  ∃ qu', queues (ks (after sample_arrives)) !! g_adc_sample_queue = Some qu' ∧
    item_size qu' = item_size lab_queue ∧ capacity qu' = capacity lab_queue ∧
    items lab_queue ++ (take (Z.to_nat (item_size lab_queue)) <$>
        sends g_adc_sample_queue (trace_of sample_arrives lab)) =
      receives g_adc_sample_queue (trace_of sample_arrives lab) ++ items qu'.
Proof.
  split; [vm_compute; reflexivity|].
  apply (queue_delivers lab_reset lab); [apply lab_reachable|apply sample_arrives_run|].
  vm_compute. reflexivity.
Defined.

(** The control task receives from the empty queue, and is resumed by the
    sample. *)
Definition before_receive : sys := after (away (CTake g_fault_semaphore forever)).
Definition receive_called : sys := default lab (exec (ECall (CReceive g_adc_sample_queue forever)) before_receive).
Definition until_sample : list event :=
  [ERequest; EPendSV; EIsrSend g_adc_sample_queue (replicate 4 7); EPendSV].
Definition sample_there : sys := default lab (run_events until_sample receive_called).

Lemma wait_forever_witness :
  ∃ r out, reply_of EResume sample_there = Some (RResume (PReceive g_adc_sample_queue) (r, out)) ∧
    served (PReceive g_adc_sample_queue) control_tcb sample_there r out.
Proof.
  apply (wait_forever lab_reset before_receive (CReceive g_adc_sample_queue forever)
    (NQRecv g_adc_sample_queue) receive_called (PReceive g_adc_sample_queue)
    (trace_of until_sample receive_called)).
  - apply after_reachable.
  - vm_compute. reflexivity.
  - reflexivity.
  - apply exec_step; vm_compute; reflexivity.
  - vm_compute. reflexivity.
  - discriminate.
  - apply run_events_trace. unfold sample_there.
    assert (is_someb (run_events until_sample receive_called) = true) as Hs by (vm_compute; reflexivity).
    destruct (run_events until_sample receive_called); [reflexivity|discriminate Hs].
  - intros σ' Hin%trace_of_event. unfold until_sample in Hin. repeat (apply elem_of_cons in Hin as [Hin|Hin]; [discriminate Hin|]).
    by apply elem_of_nil in Hin.
  - vm_compute. reflexivity.
  - apply enabledb_ok. vm_compute. reflexivity.
Defined.
