(* ===== verification/TaskProps.v ===== *)
(** * Properties of tasks, time and the context switch

    What the tick, a delay, suspension, creation and the register-level
    switch do, each in any state that satisfies the kernel invariant. *)
From S2P Require Import Prelude DList Kernel Port Scheduler SchedInv SchedSpec Task WaitList Ring.
From S2P Require Import KernelInv TaskSpec KernelStep ContextSwitch Mutex Semaphore Queue Timer.
From S2P Require Import TimerSpec Frame System PowerSupply Main Interrupts Lab KernelProps.
From stdpp Require Import options.

Implicit Types (L : gmap nid (list nid)) (t u : nat) (s : kstate) (c : nimble_tcb) (r : cpu).

(** ** Time *)

(** The result of a tick: the counter has advanced and wrapped, the delayed
    tasks whose time has come are READY and off the delayed list with the
    timeout status, the rest of the TCBs are as they were, and a switch is
    requested. *)
Definition tick_outcome s L s' L' : Prop :=
  let now := u32 (g_tick_count s + 1) in
  pendsv s' = true ∧ g_tick_count s' = now ∧ same_objects s s' ∧ timers s' = timers s ∧
  basepri s' = basepri s ∧
  (∀ u, tcbs s' !! u =
     (λ c, if bool_decide (NLink u ∈ get_list L NDelayed) && expired now c
           then set_woken NIMBLE_ERR_TIMEOUT c else c) <$> tcbs s !! u) ∧
  ticked_lists (set_tick_count now s) L L'.

Section mode.
Context {M : Mode} {X : Stale}.

(** C25: the tick.  [SysTick_Handler] wakes exactly the delayed tasks that
    have expired, with [NIMBLE_ERR_TIMEOUT], and requests a switch. *)
Theorem tick_correct s L :
  kernel_inv s L →
  wp SysTick_Handler (λ _ s', ∃ L', kernel_inv s' L' ∧ tick_outcome s L s' L') s.
Proof.
  intros HI. wp_apply systick_spec; [done|].
  intros _ s' (L'&HI'&Hp&Hg&_&Hb&Ho&Hx&HT&Hd). by exists L'.
Qed.

(** C26: a delay lasts as long as it says.  After [nimble_task_delay n], for
    [n] up to 2^31, the caller is BLOCKED through the next [n - 1] ticks and
    READY at the [n]-th, also when the tick counter wraps meanwhile. *)
Theorem delay_exact s L t c (n : nat) :
  kernel_inv s L → caller s t c → 0 ≤ g_tick_count s < 2 ^ 32 → 0 < Z.of_nat n ≤ 2 ^ 31 →
  wp (nimble_task_delay_crit (Z.of_nat n)) (λ _ s1,
    (∀ k, (k < n)%nat → wp (ticks k)
       (λ _ s2, state <$> tcbs s2 !! t = Some NIMBLE_TASK_BLOCKED) s1) ∧
    wp (ticks n) (λ _ s2, state <$> tcbs s2 !! t = Some NIMBLE_TASK_READY) s1) s.
Proof.
  intros HI Hc Hr Hn. eapply wp_mono; [by eapply delay_length|]. cbn beta.
  intros _ s1 [Hw He]. split.
  - intros k Hk. eapply wp_mono; [by apply Hw|]. by intros _ s2 ->.
  - eapply wp_mono; [exact He|]. by intros _ s2 ->.
Qed.

(** A delay of more than 2^31 + 1 ticks does not last: the signed
    comparison takes its wake-up time for a past one, and the first tick ends
    it. *)
Theorem long_delay_expires_early s L t c n :
  kernel_inv s L → caller s t c → 2 ^ 31 + 1 < n < 2 ^ 32 →
  wp (nimble_task_delay_crit n ;; SysTick_Handler)
    (λ _ s', state <$> tcbs s' !! t = Some NIMBLE_TASK_READY) s.
Proof.
  intros HI Hc Hn. wp_step. wp_apply delay_spec; [done..|]. intros r s1 [Hf Hout].
  rewrite (proj2 (Z.eqb_neq _ _)) in Hout by lia. destruct Hout as (->&HI1&ET).
  wp_apply (tick_expires (X := less_stale (priority c) X) s1 _ t (delayed_tcb (g_tick_count s) n c)).
  - exact HI1.
  - rewrite ET. apply lookup_insert_eq.
  - apply on_L_delayed_tail.
  - rewrite (fr_tick _ _ Hf). by eapply expired_early.
  - by intros _ s2 (L2&_&->).
Qed.

(** ** Suspension *)

(** Suspending a READY task and resuming it puts it back, READY, at the
    tail of the ready list of its priority, and changes no other task. *)
Theorem suspend_resume s L t c :
  kernel_inv s L → tcbs s !! t = Some c → t ≠ idle_tcb → state c = NIMBLE_TASK_READY →
  wp (nimble_task_suspend_crit t ;; nimble_task_resume t)
    (λ _ s', (∃ Y : Z → Prop, kernel_inv (X := Y) s' (L_ready t (priority c) (detach (NLink t) L))) ∧
             tcbs s' = tcbs s) s.
Proof.
  intros HI Ht Hid Hs. wp_step. wp_apply suspend_spec; [done..|]. intros r s1 [_ Hout].
  rewrite decide_True in Hout by auto. destruct Hout as (_&[Y HI1]&ET).
  unfold suspended_lists in HI1. rewrite decide_True in HI1 by done.
  wp_apply (resume_spec (X := Y) s1 _ t (set_state NIMBLE_TASK_SUSPENDED c)); [done| |].
  { rewrite ET. apply lookup_insert_eq. }
  intros r2 s2 [_ Hout]. rewrite decide_True in Hout by done. destruct Hout as [HI2 ET2].
  split; [by exists Y|]. rewrite ET2, ET, insert_insert_eq. apply insert_id. rewrite Ht. f_equal.
  destruct c. simpl in *. by subst.
Qed.

(** ** Creation and the first run *)

Section image.
  Context `{Image}.

(** C28: a created task.  [nimble_task_create] with acceptable arguments puts
    the new task, READY, at the tail of the ready list of its priority; its
    stack holds the context the switch restores, under it the frame the
    processor returns to (the function, its argument, the exit trap as return
    address), and canaries up to there, so the high-water mark is all but 16
    words. *)
Theorem create_prepares s L t str fn arg base words prio nm :
  kernel_inv s L → create_args s t str fn base words prio nm →
  wp (st ← nimble_task_create (Some t) str fn arg base words prio;
      h ← nimble_task_get_stack_high_water_mark t; mret (st, h))
    (λ res s', res = (NIMBLE_OK, words - 16) ∧ kernel_inv s' (L_ready t prio L) ∧
       tcbs s' = <[t := created_tcb base words prio nm]> (tcbs s) ∧
       let top := base + 4 * words in
       restore_context t s' = Some (Cpu (top - 32) first_regs, s') ∧
       ram s' !! (top - 32) = Some arg ∧ ram s' !! (top - 12) = Some task_exit_trap ∧
       ram s' !! (top - 8) = Some fn ∧ ram s' !! (top - 4) = Some 0x01000000) s.
Proof.
  intros HI Ha. pose proof Ha as [_ _ Hb Hw Htop Hm _ _]. unfold NIMBLE_MIN_STACK_WORDS in Hw.
  wp_step. wp_apply create_inv; [done..|]. intros r s' (->&HI'&ET&Hst&Hout&_).
  assert (tcbs s' !! t = Some (created_tcb base words prio nm)) as Ht
    by (rewrite ET; apply lookup_insert_eq).
  wp_step. wp_apply (high_water_mark_fresh s' t _ fn arg); [done|done| |done|].
  { intros j Hj. by eapply (fresh_stack_mapped s s'), Hm. }
  intros h s2 [-> ->]. apply wp_ret. split; [done|]. do 2 (split; [done|]).
  destruct (created_saved s' t base words prio nm fn arg) as (Hsv&Hrest); [done..|].
  split; [by apply restore_saved|done].
Qed.

(** Bad arguments.  A null TCB, function or stack, a stack under the
    minimum or a priority out of range is refused, and nothing changes. *)
Theorem create_refuses s ot str fn arg base words prio :
  bad_args ot fn base words prio = true →
  nimble_task_create ot str fn arg base words prio s = Some (NIMBLE_ERR_INVALID_ARG, s).
Proof. apply create_rejects. Qed.
End image.

(** ** The registers *)

(** C27: the context switch.  When there is a task to switch to and every other
    task's context is in memory, apart from the outgoing one's stack,
    [PendSV_Handler] saves the outgoing
    registers, picks the next task and leaves the processor with exactly the
    registers saved for that task; nobody's saved context is damaged. *)
Theorem context_switch_correct s L t c r :
  kernel_inv s L → ¬ switch_stuck s →
  nimble_current_tcb s = Some t → tcbs s !! t = Some c → saveable s r →
  (∀ u, u ≠ t → is_Some (tcbs s !! u) → ∃ ru, saved s u ru ∧
     (psp ru ≤ psp r - 32 ∨ psp r ≤ psp ru - 32)) →
  wp (ContextSwitch.PendSV_Handler r)
    (λ r' s', ∃ u, kernel_ok s' ∧ nimble_current_tcb s' = Some u ∧
       pendsv s' = false ∧ saved s' t r ∧ saved s' u r' ∧
       (∀ w rw, w ≠ t → saved s w rw →
          (psp rw ≤ psp r - 32 ∨ psp r ≤ psp rw - 32) → saved s' w rw)) s.
Proof.
  intros HI Hst. apply (pendsv_full_spec s L); [done|].
  destruct (pendsv_inv s L HI) as [[Hl _]|[Hno _]]; [done|]. destruct Hst.
  eapply (stuck_switch (X := X) s L); [apply HI|exact Hno].
Qed.
End mode.

(** ** Witnesses *)

#[local] Existing Instance strict.
#[local] Instance nothing_stale : Stale := λ _, False.

Lemma lab_caller : caller (ks lab) protection_tcb (task_of protection_tcb lab).
Proof. apply callerb_ok. vm_compute. reflexivity. Qed.

Lemma lab_kernel_inv : ∃ L, kernel_inv (ks lab) L.
Proof. destruct lab_kernel as [_ (L&HI&_)]. by exists L. Qed.

(** The protection task sleeps for three ticks, two of which pass. *)
Definition sleeping : list event := [ECall (CDelay 3); ERequest; EPendSV; ETick; ETick].

Lemma tick_correct_witness :
  ∃ (Y : Z → Prop) L, wp SysTick_Handler (λ _ s', ∃ L',
    kernel_inv (X := Y) s' L' ∧ tick_outcome (ks (after sleeping)) L s' L') (ks (after sleeping)).
Proof.
  destruct (sv_kernel _ (after_inv sleeping)) as (Y&L&HI). exists Y, L. apply (tick_correct (X := Y) _ _ HI).
Defined.

Lemma delay_exact_witness :
  wp (nimble_task_delay_crit 5) (λ _ s1,
    (∀ k, (k < 5)%nat → wp (ticks k)
       (λ _ s2, state <$> tcbs s2 !! protection_tcb = Some NIMBLE_TASK_BLOCKED) s1) ∧
    wp (ticks 5) (λ _ s2, state <$> tcbs s2 !! protection_tcb = Some NIMBLE_TASK_READY) s1) (ks lab).
Proof.
  destruct lab_kernel_inv as [L HI].
  apply (delay_exact (ks lab) L protection_tcb (task_of protection_tcb lab) 5 HI lab_caller).
  - split; [vm_compute; discriminate|vm_compute; reflexivity].
  - lia.
Defined.

Lemma long_delay_expires_early_witness :
  wp (nimble_task_delay_crit (2 ^ 32 - 1) ;; SysTick_Handler)
    (λ _ s', state <$> tcbs s' !! protection_tcb = Some NIMBLE_TASK_READY) (ks lab).
Proof.
  destruct lab_kernel_inv as [L HI].
  apply (long_delay_expires_early (ks lab) L _ _ (2 ^ 32 - 1) HI lab_caller). lia.
Defined.

Lemma suspend_resume_witness :
  wp (nimble_task_suspend_crit control_tcb ;; nimble_task_resume control_tcb)
    (λ _ s', tcbs s' = tcbs (ks lab)) (ks lab).
Proof.
  destruct lab_kernel_inv as [L HI].
  eapply wp_mono; [apply (suspend_resume (ks lab) L control_tcb (task_of control_tcb lab) HI)|].
  - apply task_of_lookup. vm_compute. reflexivity.
  - discriminate.
  - vm_compute. reflexivity.
  - intros r s' [_ E]. exact E.
Defined.

(** A sixth application task, named ["x"]. *)
Lemma spare_args :
  ∃ nm, create_args (ks lab) 9 (Some [120; 0]) 0x8002001 spare_stack 64 7 nm.
Proof.
  destruct (stored_name (Some [120; 0])) as [nm|] eqn:E; [|discriminate E]. exists nm.
  split; [|discriminate|reflexivity|discriminate|discriminate| |split; [discriminate|reflexivity]|exact E].
  - vm_compute. reflexivity.
  - apply (mappedb_ok _ _ 64). vm_compute. reflexivity.
Qed.

Lemma create_prepares_witness :
  wp (st ← nimble_task_create (Some 9%nat) (Some [120; 0]) 0x8002001 5 spare_stack 64 7;
      h ← nimble_task_get_stack_high_water_mark 9; mret (st, h))
    (λ res s', res = (NIMBLE_OK, 48) ∧
       restore_context 9 s' = Some (Cpu (spare_stack + 224) first_regs, s') ∧
       ram s' !! (spare_stack + 248) = Some 0x8002001) (ks lab).
Proof.
  destruct lab_kernel_inv as [L HI], spare_args as [nm Ha].
  eapply wp_mono; [apply (create_prepares (ks lab) L 9 _ _ 5 _ _ _ nm HI Ha)|].
  intros res s' (E&_&_&E1&_&_&E2&_). split; [exact E|]. split; [exact E1|exact E2].
Defined.

Lemma create_refuses_witness :
  nimble_task_create None None 0x8002001 0 spare_stack 64 7 (ks lab) =
    Some (NIMBLE_ERR_INVALID_ARG, ks lab).
Proof. apply create_refuses. reflexivity. Defined.

(** The contexts of the tasks that have not run yet. *)
Definition first_context (u : nat) : cpu := Cpu (sp (task_of u lab) + 32) first_regs.
(** The processor in the protection task. *)
Definition lab_cpu : cpu := Cpu 0x20001180 [1; 2; 3; 4; 5; 6; 7; 8].

Definition savedb s t r : bool :=
  match tcbs s !! t with
  | Some c => (sp c =? psp r - 32) && (length (r4_11 r) =? 8)%nat && (32 <=? psp r) &&
      (psp r <? 2 ^ 32) &&
      forallb (λ k, bool_decide (r4_11 r !! k = ram s !! (psp r - 32 + 4 * Z.of_nat k))) (seq 0 8)
  | None => false
  end.

Lemma savedb_ok s t r : savedb s t r = true → saved s t r.
Proof.
  unfold savedb, saved. destruct (tcbs s !! t) as [c|]; [|done].
  intros [[[[?%Z.eqb_eq Hl%Nat.eqb_eq]%andb_true_iff ?%Z.leb_le]%andb_true_iff
    ?%Z.ltb_lt]%andb_true_iff Hall]%andb_true_iff.
  exists c. do 4 (split; [done|]). intros k v Hv. rewrite forallb_forall in Hall.
  assert (k < 8)%nat as Hk by (apply lookup_lt_Some in Hv; by rewrite Hl in Hv).
  specialize (Hall k ltac:(apply in_seq; lia)). apply bool_decide_eq_true in Hall. congruence.
Qed.

Definition apartb (r1 r2 : cpu) : bool := (psp r1 <=? psp r2 - 32) || (psp r2 <=? psp r1 - 32).

Lemma first_contexts_check :
  forallb (λ u, (u =? protection_tcb)%nat ||
    savedb (ks lab) u (first_context u) && apartb (first_context u) lab_cpu) (seq 0 6) = true.
Proof. vm_compute. reflexivity. Qed.

Lemma lab_tasks u : is_Some (tcbs (ks lab) !! u) → (u < 6)%nat.
Proof.
  intros [c Hc]. destruct lab_kernel as [[_ Ht _ _ _ _] _]. specialize (Ht u).
  change lab_started with (ks lab) in Ht. rewrite Hc in Ht.
  do 6 (destruct u as [|u]; [lia|]). discriminate Ht.
Qed.

Lemma first_contexts u :
  u ≠ protection_tcb → is_Some (tcbs (ks lab) !! u) →
  ∃ ru, saved (ks lab) u ru ∧ (psp ru ≤ psp lab_cpu - 32 ∨ psp lab_cpu ≤ psp ru - 32).
Proof.
  intros Hne Hu%lab_tasks. exists (first_context u).
  pose proof first_contexts_check as Hall. rewrite forallb_forall in Hall.
  specialize (Hall u ltac:(apply in_seq; lia)).
  apply orb_true_iff in Hall as [?%Nat.eqb_eq|[Hs Ha]%andb_true_iff]; [contradiction|].
  split; [by apply savedb_ok|]. unfold apartb in Ha.
  apply orb_true_iff in Ha as [?%Z.leb_le|?%Z.leb_le]; [by left|by right].
Qed.

Lemma context_switch_correct_witness :
  wp (ContextSwitch.PendSV_Handler lab_cpu)
    (λ r' s', ∃ u, kernel_ok s' ∧ nimble_current_tcb s' = Some u ∧
       pendsv s' = false ∧ saved s' protection_tcb lab_cpu ∧ saved s' u r' ∧
       (∀ w rw, w ≠ protection_tcb → saved (ks lab) w rw →
          (psp rw ≤ psp lab_cpu - 32 ∨ psp lab_cpu ≤ psp rw - 32) → saved s' w rw)) (ks lab).
Proof.
  destruct lab_kernel_inv as [L HI].
  apply (context_switch_correct (ks lab) L protection_tcb (task_of protection_tcb lab) lab_cpu HI).
  - eapply (live_not_switch_stuck _ L); [apply HI|]. apply no_stale_live; [by left|apply HI].
  - apply lab_caller.
  - apply lab_caller.
  - split; [reflexivity|split; [discriminate|reflexivity]|]. intros k Hk.
    replace (psp lab_cpu - 4 * k) with (0x20001160 + 4 * (8 - k)) by (change (psp lab_cpu) with 0x20001180; lia).
    apply (mappedb_ok (ram (ks lab)) 0x20001160 8); [vm_compute; reflexivity|lia].
  - apply first_contexts.
Defined.
