(* ===== verification/ObjectProps.v ===== *)
(** * Properties of the kernel objects

    Lists, waiters, mutexes, semaphores, queues and timers: what each call
    does on every branch, in any state that satisfies the kernel invariant. *)
From S2P Require Import Prelude DList Kernel Port Scheduler SchedInv SchedSpec Task WaitList Ring.
From S2P Require Import KernelInv TaskSpec KernelStep Mutex Semaphore Queue Timer TimerSpec Frame.
From S2P Require Import System PowerSupply Main Interrupts Lab KernelProps.
From stdpp Require Import options.

Implicit Types (L : gmap nid (list nid)) (t u x q : nat) (s : kstate) (c : nimble_tcb)
  (mu : nimble_mutex) (sem : nimble_semaphore) (qu : nimble_queue) (tm : nimble_timer)
  (n h : nid) (xs : list nid).

(** ** Lists *)

(** Taking out what was put in. *)
Lemma detach_inserted m L h xs ys n h' ws :
  repr m (<[h := xs ++ n :: ys]> L) → L !! h = Some (xs ++ ys) → unlinked n L →
  L !! h' = Some ws → detach n (<[h := xs ++ n :: ys]> L) !! h' = Some ws.
Proof.
  intros HR Hh Hu Hws. destruct (decide (h' = h)) as [->|Hne].
  - rewrite (lookup_detach _ _ _ (xs ++ n :: ys)) by apply lookup_insert_eq.
    rewrite without_split; [congruence|]. eapply repr_nodup; [done|apply lookup_insert_eq].
  - rewrite (lookup_detach _ _ _ ws) by by rewrite lookup_insert_ne.
    rewrite without_id; [done|]. by eapply Hu.
Qed.

(** C20: the intrusive list.  On a store of nodes that represents the lists
    [L], the four pointer operations do what they say to the list they work
    on, read back through its pointers, and to no other list. *)
Theorem list_operations (m : gmap nid (node nid)) L h xs ys n :
  repr m L → L !! h = Some (xs ++ ys) → insertable m L n →
  wp (nimble_list_insert_tail h n) (λ _ m', contents m' h = Some (xs ++ ys ++ [n]) ∧
    ∀ h', h' ≠ h → is_Some (L !! h') → contents m' h' = contents m h') m ∧
  wp (nimble_list_insert_head h n) (λ _ m', contents m' h = Some (n :: xs ++ ys) ∧
    ∀ h', h' ≠ h → is_Some (L !! h') → contents m' h' = contents m h') m ∧
  wp (link_before (succ_of ys h) n) (λ _ m', contents m' h = Some (xs ++ n :: ys) ∧
    (∀ h', h' ≠ h → is_Some (L !! h') → contents m' h' = contents m h') ∧
    wp (nimble_list_remove n) (λ _ m'', ∀ h', is_Some (L !! h') → contents m'' h' = contents m h') m') m.
Proof.
  intros HR Hh Hn.
  assert (∀ m' zs, repr m' (<[h := zs]> L) → contents m' h = Some zs ∧
    ∀ h', h' ≠ h → is_Some (L !! h') → contents m' h' = contents m h') as Hread.
  { intros m' zs HR'. split; [by eapply contents_spec; [|apply lookup_insert_eq]|].
    intros h' Hne [ws Hws]. rewrite (contents_spec m L h' ws) by done.
    eapply contents_spec; [done|]. by rewrite lookup_insert_ne. }
  split; [|split].
  - wp_apply nimble_list_insert_tail_spec; [done..|]. intros _ m' [HR' _].
    rewrite app_assoc. by apply Hread.
  - wp_apply nimble_list_insert_head_spec; [done..|]. intros _ m' [HR' _]. by apply Hread.
  - wp_apply link_before_spec; [done..|]. intros _ m' [HR' Hd].
    destruct (Hread m' _ HR') as [? Ho]. split; [done|]. split; [done|].
    destruct Hn as [Hm Hi Hu]. wp_apply nimble_list_remove_spec; [exact HR'|by eapply nxt_dom| |].
    { rewrite lookup_insert_ne; [done|]. congruence. }
    intros _ m'' [HR'' _] h' [ws Hws]. rewrite (contents_spec m L h' ws) by done.
    eapply contents_spec; [done|]. by eapply detach_inserted.
Qed.

Section mode.
Context {M : Mode} {X : Stale}.

(** Waiting in line.  The sorted insertion puts the caller behind every
    waiter of its own or a higher priority and before the others, so that
    within a priority the first to come is the first to be woken. *)
Theorem waiters_in_order s L t c h ws :
  ordered = true → kernel_inv s L → caller s t c → is_wait h = true → L !! h = Some ws →
  wp (insert_waiter_priority_sorted h t)
    (λ _ s', contents (nodes s') h =
       Some (filter (λ w, priority c ≤ prio_of s w) ws ++
             NEvent t :: filter (λ w, prio_of s w < priority c) ws)) s.
Proof.
  intros Hord HI [Hcur Ht Hs Hid] Hw Hh. pose proof (ki_core _ _ HI) as HC.
  wp_apply insert_waiter_spec; [apply sched_inv_open, HC|done| |done..|].
  { eapply event_unlinked; [apply HC|done|]. by rewrite Hs. }
  intros _ s' [_ HI']. rewrite <- (insert_by_fifo s (priority c)).
  - eapply contents_spec; [apply HI'|apply lookup_insert_eq].
  - rewrite <- (get_list_eq _ _ _ Hh). by apply (ki_sorted _ _ HC).
Qed.

(** ** Mutexes *)

(** C21: [nimble_mutex_lock] on every branch.  A free mutex is taken; the
    owner locks again; without patience the call fails and changes nothing;
    otherwise the caller queues in priority order, BLOCKED, and the owner's
    priority is raised to at least the caller's. *)
Theorem mutex_lock_correct s L t c m mu timeout :
  kernel_inv s L → caller s t c → mutexes s !! m = Some mu → boost_safe m t s →
  wp (nimble_mutex_lock m timeout)
    (λ r s', ∃ L', kernel_inv (X := settled c r X) s' L' ∧ framed s s' ∧
             (is_Some r → caller s' t c) ∧ lock_outcome s L t c m mu timeout r s' L') s.
Proof. apply mutex_lock_spec. Qed.

(** C22: [nimble_mutex_unlock] on every branch.  Only the owner can unlock;
    an inner unlock counts down; the last one restores the caller's base
    priority and hands the mutex to the first waiter, which is READY with the
    lock held once, or leaves it free. *)
Theorem mutex_unlock_correct s L t c m mu :
  kernel_inv s L → caller s t c → mutexes s !! m = Some mu →
  wp (nimble_mutex_unlock_crit m)
    (λ r s', ∃ L' c', kernel_inv s' L' ∧ framed s s' ∧ caller s' t c' ∧
             unlock_outcome s L t c m mu r s' L') s.
Proof. apply mutex_unlock_spec. Qed.

(** Recursive locking.  The owner that locks once more and unlocks again
    leaves the mutex and the tasks as they were. *)
Theorem lock_unlock_roundtrip s L t c m mu timeout :
  kernel_inv s L → caller s t c → mutexes s !! m = Some mu → owner mu = Some t →
  0 < lock_count mu < 2 ^ 32 - 1 →
  wp (r1 ← nimble_mutex_lock m timeout; r2 ← nimble_mutex_unlock_crit m; mret (r1, r2))
    (λ r s', r = (Some NIMBLE_OK, (NIMBLE_OK, false)) ∧ mutexes s' = mutexes s ∧
             tcbs s' = tcbs s ∧ kernel_inv s' L) s.
Proof.
  intros HI Hc Hm Ho Hn. wp_step. wp_apply mutex_lock_spec; [done..| |].
  { intros mu0 o c0 co Hm0 Ho0 Hc0 Hco. assert (o = t) as -> by congruence. intros. simplify_eq. lia. }
  intros r1 s1 (L1&HI1&Hf1&Hc1&Hout). unfold lock_outcome in Hout.
  rewrite Ho, decide_True in Hout by done. destruct Hout as (->&EM&ET&->).
  rewrite u32_small in EM by lia. wp_step.
  wp_apply mutex_unlock_spec; [exact HI1|by apply Hc1|by rewrite EM, lookup_insert_eq|].
  intros r2 s2 (L2&c2&HI2&_&_&Hout). apply wp_ret. unfold unlock_outcome in Hout. simpl in Hout.
  rewrite decide_False in Hout by naive_solver.
  replace (lock_count mu + 1 - 1) with (lock_count mu) in Hout by lia.
  rewrite u32_small in Hout by lia. rewrite (proj2 (Z.ltb_lt 0 _)) in Hout by lia.
  destruct Hout as (->&EM2&ET2&->). split; [done|]. split; [|split; [congruence|done]].
  rewrite EM2, EM, insert_insert_eq. apply insert_id. rewrite Hm. f_equal.
  destruct mu; simpl in *. congruence.
Qed.

(** ** Semaphores *)

(** C23: the semaphore calls on every branch.  [nimble_semaphore_give], from a
    task and from an interrupt handler: the unit goes to the first waiter,
    which is READY and a switch is due, or is counted, up to the maximum.
    [nimble_semaphore_take]: a unit is taken, or the call fails and changes
    nothing, or the caller queues, BLOCKED. *)
Theorem semaphore_calls_correct s L x sem :
  kernel_inv s L → semaphores s !! x = Some sem →
  wp (nimble_semaphore_give_from_isr x)
    (λ r s', ∃ L', kernel_inv s' L' ∧ framed s s' ∧ give_outcome s L x sem r s' L') s ∧
  ∀ t c, caller s t c →
    wp (nimble_semaphore_give_crit x)
      (λ r s', ∃ L', kernel_inv s' L' ∧ framed s s' ∧ caller s' t c ∧
                     give_outcome s L x sem r s' L') s ∧
    ∀ timeout, wp (nimble_semaphore_take x timeout)
      (λ r s', ∃ L', kernel_inv (X := settled c r X) s' L' ∧ framed s s' ∧
               (is_Some r → caller s' t c) ∧ take_outcome s L t c x sem timeout r s' L') s.
Proof.
  intros HI Hx. split.
  - wp_apply give_from_isr_spec; [done..|]. intros r s' (L'&?&?&_&?). by exists L'.
  - intros t c Hc. split; [by apply give_crit_spec|]. intros timeout. by apply take_spec.
Qed.

End mode.

(** ** Witnesses *)

#[local] Existing Instance strict.
#[local] Instance nothing_stale : Stale := λ _, False.

Definition mutex_of (m : nat) (σ : sys) : nimble_mutex := default (Mutex None 0) (mutexes (ks σ) !! m).
Definition sem_of (x : nat) (σ : sys) : nimble_semaphore :=
  default (Semaphore 0 0) (semaphores (ks σ) !! x).

Lemma mutex_of_lookup m σ :
  is_someb (mutexes (ks σ) !! m) = true → mutexes (ks σ) !! m = Some (mutex_of m σ).
Proof. unfold mutex_of. by destruct (mutexes (ks σ) !! m). Qed.
Lemma sem_of_lookup x σ :
  is_someb (semaphores (ks σ) !! x) = true → semaphores (ks σ) !! x = Some (sem_of x σ).
Proof. unfold sem_of. by destruct (semaphores (ks σ) !! x). Qed.

(** The protection task sleeps with the mutex; the control task runs. *)
Definition contended : list event :=
  locked_once ++ [ECall (CDelay 5); ERequest; EPendSV].
(** The protection task waits for the fault semaphore. *)
Definition fault_wait : list event :=
  [ECall (CTake g_fault_semaphore NIMBLE_WAIT_FOREVER); ERequest; EPendSV].

Lemma after_caller es t : callerb t (after es) = true → caller (ks (after es)) t (task_of t (after es)).
Proof. apply callerb_ok. Qed.

Definition two_nodes : gmap nid (node nid) :=
  <[NLink 0 := Node (NLink 0) (NLink 0)]> (<[NDelayed := Node NDelayed NDelayed]> ∅).

Lemma two_nodes_repr : repr two_nodes {[NDelayed := []]}.
Proof.
  apply repr_init_item; [apply (repr_init_head ∅ ∅); [apply repr_empty|reflexivity|]|reflexivity|].
  - intros h xs E. discriminate E.
  - intros h xs [_ <-]%lookup_singleton_Some. apply not_elem_of_nil.
Qed.

Lemma two_nodes_insertable : insertable two_nodes {[NDelayed := []]} (NLink 0).
Proof.
  split; [by eexists|reflexivity|]. intros h xs [_ <-]%lookup_singleton_Some. apply not_elem_of_nil.
Qed.

Lemma list_operations_witness :
  wp (nimble_list_insert_tail NDelayed (NLink 0))
    (λ _ m', contents m' NDelayed = Some [NLink 0]) two_nodes.
Proof.
  eapply wp_mono; [apply (list_operations two_nodes {[NDelayed := []]} NDelayed [] [] (NLink 0))|].
  - apply two_nodes_repr.
  - reflexivity.
  - apply two_nodes_insertable.
  - intros u m' [E _]. exact E.
Defined.

Lemma waiters_in_order_witness :
  ∃ ws, wp (insert_waiter_priority_sorted (NMutex g_status_mutex) control_tcb)
    (λ _ s', contents (nodes s') (NMutex g_status_mutex) =
       Some (filter (λ w, priority (task_of control_tcb (after contended)) ≤ prio_of (ks (after contended)) w) ws ++
             NEvent control_tcb ::
             filter (λ w, prio_of (ks (after contended)) w < priority (task_of control_tcb (after contended))) ws))
    (ks (after contended)).
Proof.
  destruct (sv_kernel _ (after_inv contended)) as (Y&L&HI). exists (get_list L (NMutex g_status_mutex)).
  apply (waiters_in_order (M := strict) (X := Y) _ L _ _ _ _ eq_refl HI).
  - apply after_caller. vm_compute. reflexivity.
  - reflexivity.
  - apply get_list_Some. eapply mo_list, oo_mutex; [apply HI|apply mutex_of_lookup].
    vm_compute. reflexivity.
Defined.

Lemma mutex_lock_correct_witness :
  ∃ (Y : Z → Prop) L, wp (nimble_mutex_lock g_status_mutex 10)
    (λ r s', ∃ L',
       kernel_inv (X := settled (task_of control_tcb (after contended)) r Y) s' L' ∧
       framed (ks (after contended)) s' ∧
       (is_Some r → caller s' control_tcb (task_of control_tcb (after contended))) ∧
       lock_outcome (ks (after contended)) L control_tcb (task_of control_tcb (after contended))
         g_status_mutex (mutex_of g_status_mutex (after contended)) 10 r s' L') (ks (after contended)).
Proof.
  destruct (sv_kernel _ (after_inv contended)) as (Y&L&HI). exists Y, L.
  apply (mutex_lock_correct (X := Y) _ L _ _ _ _ _ HI).
  - apply after_caller. vm_compute. reflexivity.
  - apply mutex_of_lookup. vm_compute. reflexivity.
  - apply boost_safeb_ok. vm_compute. reflexivity.
Defined.

Lemma mutex_unlock_correct_witness :
  ∃ (Y : Z → Prop) L, wp (nimble_mutex_unlock_crit g_status_mutex)
    (λ r s', ∃ L' c', kernel_inv (X := Y) s' L' ∧ framed (ks (after locked_once)) s' ∧ caller s' protection_tcb c' ∧
       unlock_outcome (ks (after locked_once)) L protection_tcb (task_of protection_tcb (after locked_once))
         g_status_mutex (mutex_of g_status_mutex (after locked_once)) r s' L') (ks (after locked_once)).
Proof.
  destruct (sv_kernel _ (after_inv locked_once)) as (Y&L&HI). exists Y, L.
  apply (mutex_unlock_correct (X := Y) _ L _ _ _ _ HI).
  - apply after_caller. vm_compute. reflexivity.
  - apply mutex_of_lookup. vm_compute. reflexivity.
Defined.

Lemma lock_unlock_roundtrip_witness :
  wp (r1 ← nimble_mutex_lock g_status_mutex 0; r2 ← nimble_mutex_unlock_crit g_status_mutex; mret (r1, r2))
    (λ r s', r = (Some NIMBLE_OK, (NIMBLE_OK, false)) ∧
       mutexes s' = mutexes (ks (after locked_once))) (ks (after locked_once)).
Proof.
  destruct (sv_kernel _ (after_inv locked_once)) as (Y&L&HI).
  eapply wp_mono; [apply (lock_unlock_roundtrip (X := Y) _ L protection_tcb (task_of protection_tcb (after locked_once))
    g_status_mutex (mutex_of g_status_mutex (after locked_once)) 0 HI)|].
  - apply after_caller. vm_compute. reflexivity.
  - apply mutex_of_lookup. vm_compute. reflexivity.
  - vm_compute. reflexivity.
  - split; vm_compute; reflexivity.
  - intros r s' (Er&Em&_). split; [exact Er|exact Em].
Defined.

Lemma semaphore_calls_correct_witness :
  ∃ (Y : Z → Prop) L, let s := ks (after fault_wait) in let sem := sem_of g_fault_semaphore (after fault_wait) in
  wp (nimble_semaphore_give_from_isr g_fault_semaphore)
    (λ r s', ∃ L', kernel_inv (X := Y) s' L' ∧ framed s s' ∧ give_outcome s L g_fault_semaphore sem r s' L') s ∧
  let c := task_of control_tcb (after fault_wait) in
    wp (nimble_semaphore_take g_fault_semaphore 7)
      (λ r s', ∃ L', kernel_inv (X := settled c r Y) s' L' ∧ framed s s' ∧
         (is_Some r → caller s' control_tcb c) ∧
         take_outcome s L control_tcb c g_fault_semaphore sem 7 r s' L') s.
Proof.
  destruct (sv_kernel _ (after_inv fault_wait)) as (Y&L&HI). exists Y, L.
  assert (semaphores (ks (after fault_wait)) !! g_fault_semaphore =
    Some (sem_of g_fault_semaphore (after fault_wait))) as Hx
    by (apply sem_of_lookup; vm_compute; reflexivity).
  assert (caller (ks (after fault_wait)) control_tcb (task_of control_tcb (after fault_wait))) as Hc
    by (apply after_caller; vm_compute; reflexivity).
  destruct (semaphore_calls_correct (X := Y) _ L _ _ HI Hx) as [Hgive Htask].
  split; [exact Hgive|exact (proj2 (Htask _ _ Hc) 7)].
Defined.
