(* ===== verification/QueueTimerProps.v ===== *)
(** * Properties of queues and timers *)
From S2P Require Import Prelude DList Kernel Port Scheduler SchedInv SchedSpec Task WaitList Ring.
From S2P Require Import KernelInv TaskSpec KernelStep Mutex Semaphore Queue Timer TimerSpec Frame.
From S2P Require Import System PowerSupply Main Interrupts Lab KernelProps.
From stdpp Require Import options.

Implicit Types (L : gmap nid (list nid)) (t u x q : nat) (s : kstate) (c : nimble_tcb)
  (qu : nimble_queue) (tm : nimble_timer) (n h : nid) (xs : list nid).

(** ** Queues *)

(** A run of copies into a ring, and out of it. *)
Fixpoint copy_all_in (its : list (list Z)) qu : option nimble_queue :=
  match its with [] => Some qu | it :: its => qu ← copy_in qu it; copy_all_in its qu end.
Fixpoint copy_all_out (k : nat) qu : option (list (list Z) * nimble_queue) :=
  match k with
  | O => Some ([], qu)
  | S k => '(it, qu) ← copy_out qu; '(its, qu) ← copy_all_out k qu; Some (it :: its, qu)
  end.

Lemma copy_all_in_items its qu :
  queue_wf qu → q_count qu + Z.of_nat (length its) ≤ capacity qu →
  Forall (λ it, Z.of_nat (length it) = item_size qu) its →
  ∃ qu', copy_all_in its qu = Some qu' ∧ queue_wf qu' ∧ items qu' = items qu ++ its ∧
    q_count qu' = q_count qu + Z.of_nat (length its).
Proof.
  revert qu. induction its as [|it its IH]; intros qu Hwf Hroom Hsz; simpl in Hroom |- *.
  - exists qu. rewrite app_nil_r. split; [done|]. split; [done|]. split; [done|lia].
  - apply Forall_cons in Hsz as [Hit Hsz].
    destruct (copy_in_refines qu it) as (qu1&->&Hwf1&Hits1&Hc1&Hs1&Hn1); [done|lia|lia|].
    destruct (IH qu1) as (qu'&E&?&Hits&Hn); [done|lia|by rewrite Hs1|].
    exists qu'. split; [done|]. split; [done|]. split; [|lia].
    rewrite Hits, Hits1, <- app_assoc. rewrite <- Hit, Nat2Z.id, firstn_all. done.
Qed.

Lemma copy_all_out_items k qu :
  queue_wf qu → Z.of_nat k = q_count qu →
  ∃ qu', copy_all_out k qu = Some (items qu, qu') ∧ queue_wf qu' ∧ q_count qu' = 0.
Proof.
  revert qu. induction k as [|k IH]; intros qu Hwf Hk; cbn [copy_all_out].
  - exists qu. unfold items. by rewrite <- Hk.
  - destruct (copy_out_refines qu) as (it&qu1&->&Hwf1&->&_&Hc1&Hs1&Hn1); [done|lia|].
    destruct (IH qu1) as (qu'&E&?&?); [done|lia|]. cbn [mbind option_bind]. rewrite E. by exists qu'.
Qed.

(** First in, first out.  Whatever the ring holds and wherever its
    indices stand, items copied in, as many as fit, come out after the old
    ones, in order and unchanged, and leave the ring empty. *)
Lemma ring_fifo its qu :
  queue_wf qu → q_count qu + Z.of_nat (length its) ≤ capacity qu →
  Forall (λ it, Z.of_nat (length it) = item_size qu) its →
  ∃ qu1 qu2, copy_all_in its qu = Some qu1 ∧
    copy_all_out (Z.to_nat (q_count qu) + length its) qu1 = Some (items qu ++ its, qu2) ∧
    q_count qu2 = 0.
Proof.
  intros Hwf Hroom Hsz. destruct (copy_all_in_items its qu Hwf Hroom Hsz) as (qu1&E1&Hwf1&<-&Hn).
  pose proof (wf_count _ Hwf).
  destruct (copy_all_out_items (Z.to_nat (q_count qu) + length its) qu1) as (qu2&E2&_&?); [done|lia|].
  by exists qu1, qu2.
Qed.

Section mode.
Context {M : Mode} {X : Stale}.

(** C24: the queue calls on every branch.  [nimble_queue_send]: the item goes
    to the end of the queue and the first receiver is woken, or the call fails
    and changes nothing, or the caller queues, BLOCKED.
    [nimble_queue_receive]: the first item is delivered and the first sender
    woken, or the call fails and changes nothing, or the caller queues. *)
Theorem queue_calls_correct s L t c q qu timeout :
  kernel_inv s L → caller s t c → queues s !! q = Some qu →
  (∀ item, item_size qu ≤ Z.of_nat (length item) →
   wp (nimble_queue_send q item timeout)
    (λ r s', ∃ L', kernel_inv (X := settled c r X) s' L' ∧ framed s s' ∧
             (is_Some r → caller s' t c) ∧ send_outcome s L t c q qu item timeout r s' L') s) ∧
  wp (nimble_queue_receive q timeout)
    (λ r s', ∃ L', kernel_inv (X := settled c r X) s' L' ∧ framed s s' ∧
             (is_Some r → caller s' t c) ∧ receive_outcome s L t c q qu timeout r s' L') s.
Proof. intros HI Hc Hq. split; [intros item; by apply send_spec|by apply receive_spec]. Qed.

(** A woken sender and a woken receiver.  The resumed half reports
    success exactly if it did move its item, and a timeout or a queue that
    filled up or emptied again otherwise, with the queue untouched. *)
Theorem queue_resume_correct s L t c q qu item :
  kernel_inv s L → caller s t c → queues s !! q = Some qu →
  item_size qu ≤ Z.of_nat (length item) →
  wp (nimble_queue_send_resume q item t)
    (λ r s', kernel_inv s' L ∧
       if bool_decide (r = NIMBLE_OK)
       then ∃ qu', queues s' = <[q := qu']> (queues s) ∧
              items qu' = items qu ++ [take (Z.to_nat (item_size qu)) item]
       else queues s' = queues s) s ∧
  wp (nimble_queue_receive_resume q t)
    (λ r s', kernel_inv s' L ∧
       match r.2 with
       | Some out => r.1 = NIMBLE_OK ∧
           ∃ qu', queues s' = <[q := qu']> (queues s) ∧ items qu = out :: items qu'
       | None => r.1 ≠ NIMBLE_OK ∧ queues s' = queues s
       end) s.
Proof.
  intros HI Hc Hq Hi. split.
  - wp_apply send_resume_spec; [done..|]. intros r s' (HI'&_&_&_&Hout). split; [done|].
    destruct (_ =? _); [by destruct Hout as [-> ->]|]. destruct (_ <? _); [|by destruct Hout as [-> ->]].
    destruct Hout as (->&qu'&[? _]&?). by exists qu'.
  - wp_apply receive_resume_spec; [done..|]. intros r s' (HI'&_&_&_&Hout). split; [done|].
    destruct (_ =? _); [by destruct Hout as [-> ->]|]. destruct (_ <? _); [|by destruct Hout as [-> ->]].
    destruct Hout as (out&qu'&->&[? _]&?). split; [done|]. by exists qu'.
Qed.

(** ** Timers *)

(** What one round of the service's inner loop is to do.  With nothing due,
    nothing.  Otherwise the callback of the head is returned with its argument;
    a one-shot timer becomes inactive and leaves the list; a periodic one goes
    back in, by its new deadline: a period after the last, unless it is more
    than a period late, and a period from the present then. *)
Definition round_done s L (r : option (Z * Z)) s' : Prop :=
  match get_list L NTimers with
  | NTimer x :: ys =>
      if 0 <? remaining s (NTimer x) then r = None ∧ s' = s else
      ∃ tm tm', timers s !! x = Some tm ∧ r = Some (callback tm, cb_arg tm) ∧
        timers s' = <[x := tm']> (timers s) ∧ inert s s' ∧
        if is_periodic tm then
          tm' = set_expiry (expiry_tick tm') tm ∧
          contents (nodes s') NTimers = Some (insert_expiry s (expiry_tick tm') (NTimer x) ys) ∧
          (0 ≤ period_ticks tm < 2 ^ 31 →
           expiry_tick tm' = u32 (period_ticks tm +
             if - period_ticks tm <=? remaining s (NTimer x) then expiry_tick tm else g_tick_count s))
        else tm' = set_active false tm ∧ contents (nodes s') NTimers = Some ys
  | _ => r = None ∧ s' = s
  end.

Lemma rearm_deadline e p now :
  0 ≤ p < 2 ^ 31 → i32 (e - now) ≤ 0 →
  rearm (i32 (e - now)) p now = u32 (p + if - p <=? i32 (e - now) then e else now).
Proof.
  intros Hp He. pose proof (i32_range (e - now)). unfold rearm. rewrite (i32_small (_ + p)) by lia.
  destruct (Z.leb_spec (- p) (i32 (e - now))) as [Hle|Hlt].
  - rewrite (proj2 (Z.ltb_ge _ _)) by lia. replace (now + (i32 (e - now) + p)) with (now + p + i32 (e - now)) by lia.
    rewrite u32_add_i32. f_equal. lia.
  - rewrite (proj2 (Z.ltb_lt _ _)) by lia. f_equal. lia.
Qed.

Lemma round_done_spec s L :
  kernel_inv s L → timers_ok s L → wp timer_expire_one (λ r s', round_done s L r s') s.
Proof.
  intros HI Hok. wp_apply timer_expire_one_spec; [done..|]. intros r s' (L'&HI'&_&Hout).
  unfold expired_one, head_due in Hout. unfold round_done.
  destruct (get_list L NTimers) as [|[| | | | | | | | |x] ys] eqn:El; try by destruct Hout as (?&?&?).
  destruct (Z.ltb_spec 0 (remaining s (NTimer x))) as [|Hdue]; [by destruct Hout as (?&?&?)|].
  destruct Hout as (tm&Hx&->&ET&->&Hin). exists tm, (fired s x tm). do 4 (split; [done|]).
  assert (contents (nodes s') NTimers = Some (fired_list s x tm ys)) as ->
    by (eapply contents_spec; [apply HI'|apply lookup_insert_eq]).
  assert (remaining s (NTimer x) = i32 (expiry_tick tm - g_tick_count s)) as Er
    by by (unfold remaining, expiry_of; rewrite Hx).
  rewrite Er in *. unfold fired_list, fired. destruct (is_periodic tm); [|done].
  split; [done|]. split; [done|]. intros Hp. simpl. rewrite Er. by apply rearm_deadline.
Qed.

(** C29: starting, stopping and firing.  [nimble_timer_start] puts the timer,
    active, at its place by expiry in the list, once, whether it was running
    or not, one period from now, and says if it became the first to expire;
    [nimble_timer_stop] takes it out; one round of the service's inner loop
    is [round_done]: it fires the head of the list, if that is due, and puts a
    periodic timer back at the deadline stated there. *)
Theorem timer_operations_correct s L x tm :
  kernel_inv s L → timers_ok s L → timers s !! x = Some tm →
  wp (nimble_timer_start_crit x)
    (λ r s', r = bool_decide (succ_of (start_list s L x tm) NTimers = NTimer x) ∧
       kernel_inv s' (L_timers L (start_list s L x tm)) ∧
       timers_ok s' (L_timers L (start_list s L x tm)) ∧
       contents (nodes s') NTimers = Some (start_list s L x tm) ∧
       timers s' = <[x := started (g_tick_count s) tm]> (timers s) ∧ inert s s') s ∧
  wp (nimble_timer_stop x)
    (λ r s', r = NIMBLE_OK ∧
       contents (nodes s') NTimers = Some (without (NTimer x) (get_list L NTimers)) ∧
       timers s' = <[x := set_active false tm]> (timers s) ∧ inert s s') s ∧
  wp timer_expire_one (λ r s', round_done s L r s') s.
Proof.
  intros HI Hok Hx.
  assert (∀ s' xs, kernel_inv s' (L_timers L xs) → contents (nodes s') NTimers = Some xs) as Hread.
  { intros s' xs HI'. eapply contents_spec; [apply HI'|apply lookup_insert_eq]. }
  split; [|split; [|by apply round_done_spec]].
  - wp_apply (timer_start_spec s L x tm); [done..|]. intros r s' (?&?&?&?&?). auto 10.
  - wp_apply (timer_stop_spec s L x tm); [done..|]. intros r s' (?&?&?&?&?). auto 10.
Qed.

(** C30: a pass of the timer service ends.  Let no tick fall in the pass, and
    the callbacks neither start nor stop timers ([quiet_callback]); let the
    periods of the periodic timers be positive and below 2^30, and the expiry
    times within 2^30 ticks of the present.  Then the service's inner loop comes
    to its [break] within a number of rounds that the overdue timers bound, at
    most two for each, and no timer on the list is due.  (With ticks, it need
    not end: a callback that takes a period or longer makes its timer due
    again.) *)
Theorem timer_pass_terminates run fuel s L :
  quiet_callback run → kernel_inv s L → timers_ok s L →
  window s (get_list L NTimers) → periods_ok s (get_list L NTimers) →
  (total_firings s (get_list L NTimers) < fuel)%nat →
  wp (timer_expire_loop fuel run)
    (λ r s', r = true ∧ ∃ L', kernel_inv s' L' ∧ timers_ok s' L' ∧
       head_due s' (get_list L' NTimers) = None ∧ g_tick_count s' = g_tick_count s) s.
Proof. intros. by apply (timer_expire_loop_spec run fuel s L). Qed.

(** C40: a periodic timer of period 0 hangs the service.  When it is due and
    alone on the list, then without ticks, and with callbacks that do not stop
    it, the inner loop does not come to its [break] in any number of rounds:
    each of them is defined and leaves the timer on the list, due. *)
Theorem zero_period_hangs run fuel s L x tm :
  quiet_callback run → kernel_inv s L → timers_ok s L → get_list L NTimers = [NTimer x] →
  timers s !! x = Some tm → is_periodic tm = true → period_ticks tm = 0 →
  - 2 ^ 30 < remaining s (NTimer x) ≤ 0 →
  ∃ s', timer_expire_loop fuel run s = Some (false, s') ∧
    contents (nodes s') NTimers = Some [NTimer x] ∧ remaining s' (NTimer x) ≤ 0.
Proof.
  intros Hrun HI Hok Hl Hx Hper Hzero Hdue.
  pose proof (timer_period_zero_diverges run fuel s L x tm Hrun HI Hok Hl Hx Hper Hzero Hdue) as Hwp.
  apply wp_run in Hwp as (r&s'&E&->&L'&HI'&Hok'&Hl'&Hdue'). exists s'. split; [done|]. split; [|done].
  eapply contents_spec; [apply HI'|]. rewrite <- Hl'. apply get_list_Some, Hok'.
Qed.

End mode.

(** ** Witnesses *)

#[local] Existing Instance strict.
#[local] Instance nothing_stale : Stale := λ _, False.

Definition queue_of (q : nat) (σ : sys) : nimble_queue :=
  default (Queue [] 0 0 0 0 0) (queues (ks σ) !! q).

Lemma queue_of_lookup q σ :
  is_someb (queues (ks σ) !! q) = true → queues (ks σ) !! q = Some (queue_of q σ).
Proof. unfold queue_of. by destruct (queues (ks σ) !! q). Qed.

Lemma queue_calls_correct_witness :
  ∃ (Y : Z → Prop) L, let c := task_of protection_tcb lab in let qu := queue_of g_adc_sample_queue lab in
  wp (nimble_queue_send g_adc_sample_queue [1; 2; 3; 4] 5)
    (λ r s', ∃ L', kernel_inv (X := settled c r Y) s' L' ∧ framed (ks lab) s' ∧
       (is_Some r → caller s' protection_tcb c) ∧
       send_outcome (ks lab) L protection_tcb c g_adc_sample_queue qu [1; 2; 3; 4] 5 r s' L') (ks lab) ∧
  wp (nimble_queue_receive g_adc_sample_queue 5)
    (λ r s', ∃ L', kernel_inv (X := settled c r Y) s' L' ∧ framed (ks lab) s' ∧
       (is_Some r → caller s' protection_tcb c) ∧
       receive_outcome (ks lab) L protection_tcb c g_adc_sample_queue qu 5 r s' L') (ks lab).
Proof.
  destruct (sv_kernel _ lab_inv) as (Y&L&HI). exists Y, L.
  assert (caller (ks lab) protection_tcb (task_of protection_tcb lab)) as Hc
    by (apply callerb_ok; vm_compute; reflexivity).
  assert (queues (ks lab) !! g_adc_sample_queue = Some (queue_of g_adc_sample_queue lab)) as Hq
    by (apply queue_of_lookup; vm_compute; reflexivity).
  destruct (queue_calls_correct (X := Y) _ L _ _ _ _ 5 HI Hc Hq) as [Hsend Hrecv].
  split; [apply Hsend; vm_compute; discriminate|exact Hrecv].
Defined.

(** The control task has waited for a sample, which has come. *)
Definition sample_came : list event :=
  [ECall (CTake g_fault_semaphore NIMBLE_WAIT_FOREVER); ERequest; EPendSV;
   ECall (CReceive g_adc_sample_queue NIMBLE_WAIT_FOREVER); ERequest; EPendSV;
   EIsrSend g_adc_sample_queue [1; 2; 1; 2]; EPendSV].

Lemma queue_resume_correct_witness :
  wp (nimble_queue_receive_resume g_adc_sample_queue control_tcb)
    (λ r s', match r.2 with
       | Some out => r.1 = NIMBLE_OK ∧
           ∃ qu', queues s' = <[g_adc_sample_queue := qu']> (queues (ks (after sample_came))) ∧
             items (queue_of g_adc_sample_queue (after sample_came)) = out :: items qu'
       | None => r.1 ≠ NIMBLE_OK ∧ queues s' = queues (ks (after sample_came))
       end) (ks (after sample_came)).
Proof.
  destruct (sv_kernel _ (after_inv sample_came)) as (Y&L&HI).
  assert (caller (ks (after sample_came)) control_tcb (task_of control_tcb (after sample_came))) as Hc
    by (apply callerb_ok; vm_compute; reflexivity).
  assert (queues (ks (after sample_came)) !! g_adc_sample_queue =
    Some (queue_of g_adc_sample_queue (after sample_came))) as Hq
    by (apply queue_of_lookup; vm_compute; reflexivity).
  assert (item_size (queue_of g_adc_sample_queue (after sample_came)) ≤ Z.of_nat (length [1; 2; 3; 4])) as Hi
    by (vm_compute; discriminate).
  eapply wp_mono; [exact (proj2 (queue_resume_correct (X := Y) _ L _ _ _ _ [1; 2; 3; 4] HI Hc Hq Hi))|].
  intros r s' [_ Hr]. exact Hr.
Defined.

(** A timer, initialised and started. *)
Definition start_new (period : Z) (periodic : bool) : K bool :=
  nimble_timer_init 0 None period periodic 0x08003001 0 ;; nimble_timer_start_crit 0.
Definition running_timer s (period : Z) (periodic : bool) : nimble_timer :=
  Timer period (u32 (g_tick_count s + period)) periodic true 0x08003001 0 (replicate 16 0).

Lemma start_new_spec s L period periodic :
  kernel_inv s L → timers_ok s L → timers s = ∅ → get_list L NTimers = [] →
  ∃ b s' L', start_new period periodic s = Some (b, s') ∧ kernel_inv s' L' ∧ timers_ok s' L' ∧
    get_list L' NTimers = [NTimer 0] ∧ g_tick_count s' = g_tick_count s ∧
    timers s' = {[0%nat := running_timer s period periodic]}.
Proof.
  intros HI Hok HT Hl. unfold start_new.
  assert (wp (nimble_timer_init 0 None period periodic 0x08003001 0)
    (λ _ s1, kernel_inv s1 L ∧ timers_ok s1 L ∧ g_tick_count s1 = g_tick_count s ∧
       timers s1 = {[0%nat := Timer period 0 periodic false 0x08003001 0 (replicate 16 0)]}) s) as Hinit.
  { pose proof (timer_init_spec s L 0 None period periodic 0x08003001 0 (replicate 16 0) HI Hok
      ltac:(by rewrite HT) eq_refl) as Hwp.
    eapply wp_mono; [exact Hwp|]. intros a s1 (?&?&ET&_&_&_&Eg&_). rewrite ET, HT. done. }
  apply wp_run in Hinit as ([]&s1&E1&HI1&Hok1&Eg1&ET1).
  pose proof (timer_start_spec s1 L 0 _ HI1 Hok1 ltac:(rewrite ET1; apply lookup_singleton_eq)) as Hwp.
  apply wp_run in Hwp as (b&s2&E2&_&HI2&Hok2&ET2&_&_&_&Eg2&_).
  exists b, s2, (L_timers L (start_list s1 L 0 (Timer period 0 periodic false 0x08003001 0 (replicate 16 0)))).
  split; [unfold mbind, M_bind; by rewrite E1|]. split; [done|]. split; [done|]. split.
  { rewrite get_list_L_timers, decide_True by done. unfold start_list. by rewrite Hl. }
  split; [congruence|]. rewrite ET2, ET1. unfold running_timer, started. by rewrite insert_singleton_eq, Eg1.
Qed.

Definition lab_timer (period : Z) (periodic : bool) : kstate :=
  match start_new period periodic lab_started with Some (_, s) => s | None => lab_started end.

Lemma lab_timer_ok period periodic :
  ∃ L, kernel_inv (lab_timer period periodic) L ∧ timers_ok (lab_timer period periodic) L ∧
    get_list L NTimers = [NTimer 0] ∧
    timers (lab_timer period periodic) !! 0%nat = Some (running_timer lab_started period periodic) ∧
    g_tick_count (lab_timer period periodic) = 0.
Proof.
  destruct lab_kernel as [_ (L&HI&Hok&Hl)].
  assert (timers lab_started = ∅) as HT by (vm_compute; reflexivity).
  destruct (start_new_spec lab_started L period periodic HI Hok HT Hl) as (b&s'&L'&E&HI'&Hok'&Hl'&Eg&ET).
  unfold lab_timer. rewrite E. exists L'. do 3 (split; [done|]). rewrite ET. split.
  - apply lookup_singleton_eq.
  - rewrite Eg. vm_compute. reflexivity.
Qed.

Lemma lab_timer_remaining period periodic :
  0 ≤ period < 2 ^ 31 → remaining (lab_timer period periodic) (NTimer 0) = period.
Proof.
  intros Hp. destruct (lab_timer_ok period periodic) as (L&_&_&_&Hx&Eg).
  unfold remaining, expiry_of. rewrite Hx, Eg. unfold running_timer; simpl.
  assert (g_tick_count lab_started = 0) as -> by (vm_compute; reflexivity).
  rewrite u32_small by lia. rewrite Z.sub_0_r. apply i32_small. lia.
Qed.

(** Callback code that does nothing. *)
Definition no_callback (cb arg : Z) : K unit := mret tt.

Lemma no_callback_quiet : quiet_callback no_callback.
Proof. intros cb arg s L HI Hok. apply wp_ret. exists L. done. Qed.

Lemma timer_operations_correct_witness :
  wp (nimble_timer_stop 0)
    (λ r s', r = NIMBLE_OK ∧ contents (nodes s') NTimers = Some []) (lab_timer 10 true).
Proof.
  destruct (lab_timer_ok 10 true) as (L&HI&Hok&Hl&Hx&_).
  eapply wp_mono; [exact (proj1 (proj2 (timer_operations_correct _ L 0 _ HI Hok Hx)))|].
  intros r s' (Er&Ec&_). rewrite Hl in Ec. split; [exact Er|exact Ec].
Defined.

(** A one-shot timer that is due. *)
Lemma timer_pass_terminates_witness :
  wp (timer_expire_loop 3 no_callback)
    (λ r s', r = true ∧ ∃ L', kernel_inv s' L' ∧ timers_ok s' L' ∧
       head_due s' (get_list L' NTimers) = None ∧
       g_tick_count s' = g_tick_count (lab_timer 0 false)) (lab_timer 0 false).
Proof.
  destruct (lab_timer_ok 0 false) as (L&HI&Hok&Hl&Hx&Eg).
  assert (remaining (lab_timer 0 false) (NTimer 0) = 0) as Hr by (apply lab_timer_remaining; lia).
  apply (timer_pass_terminates no_callback 3 _ L no_callback_quiet HI Hok).
  - rewrite Hl. intros n Hn%list_elem_of_singleton. subst n. rewrite Hr. split; reflexivity.
  - rewrite Hl. intros x tm Hin%list_elem_of_singleton Hxt Hper. injection Hin as ->.
    rewrite Hx in Hxt. injection Hxt as <-. discriminate Hper.
  - rewrite Hl. unfold total_firings, firings; simpl. rewrite Hr. simpl. lia.
Defined.

Lemma zero_period_hangs_witness :
  ∃ s', timer_expire_loop 1000 no_callback (lab_timer 0 true) = Some (false, s') ∧
    contents (nodes s') NTimers = Some [NTimer 0] ∧ remaining s' (NTimer 0) ≤ 0.
Proof.
  destruct (lab_timer_ok 0 true) as (L&HI&Hok&Hl&Hx&Eg).
  apply (zero_period_hangs _ _ _ L 0 _ no_callback_quiet HI Hok Hl Hx).
  - reflexivity.
  - reflexivity.
  - rewrite lab_timer_remaining by lia. split; [reflexivity|discriminate].
Defined.
