(* ===== verification/TimerProps.v ===== *)
(** * Properties of the timers on the running kernel

    From reset through [main], with any tasks that use timers, whatever the
    interleaving. *)
From S2P Require Import Prelude DList Kernel Port Scheduler SchedInv SchedSpec Task WaitList Ring.
From S2P Require Import KernelInv KernelStep Semaphore Timer TimerSpec System Abstract Refinement.
From S2P Require Import Simulation.
From S2P Require Import TimerMachine TimerDuty TimerWake PowerSupply Main Interrupts Lab.
From S2P Require Import RefinementProps.
From stdpp Require Import options.

Implicit Types (L : gmap nid (list nid)) (n : nid) (t u x : nat) (s : kstate) (a : tsys) (tm : nimble_timer).

(** After [main] the service task is about to compute its first sleep. *)
Definition tinit s : tsys := TSys (Sys s ∅) Computing ∅ 0.

Section mode.
Context {M : Mode}.

Definition timer_reachable `{Image, AppImage} s (es : list (tsys * tevent)) a : Prop :=
  boot s ∧ pendsv s = false ∧ image_ok (ram s) ∧ ∃ s1, main s = Some (tt, s1) ∧ trun (tinit s1) es a.

Section image.
Context `{Image, AppImage}.

Lemma tinit_inv s s1 :
  boot s → pendsv s = false → image_ok (ram s) → main s = Some (tt, s1) → tinv (tinit s1) ∧ duteous (tinit s1).
Proof.
  intros Hb Hp Hi E. pose proof (main_inv s s1 Hb Hp Hi E) as Hσ.
  destruct (main_kernel s s1 Hb Hp Hi E) as (Hbt&L&HI&Hok&Hl). clear E. split.
  - split; [exact Hσ|exists (λ _, False), L; split; assumption| |].
    + unfold tinit, core, ks. rewrite (bt_semaphores _ Hbt), lookup_insert_eq. eauto.
    + intros t. unfold cont_of, tinit, conts. by rewrite lookup_empty.
  - assert (∃ b, simulates (Sys s1 ∅) (ASys b ∅) ∧ a_booted b) as (b&Hα&Hab).
    { pose proof (simulates_abstraction (X := λ _, False) (Sys s1 ∅) L HI) as Hα0.
      pose proof (simulates_some _ _ _ Hα0) as Hα. destruct Hα0 as [(L'&HI'&Ha) _].
      exists (abstraction s1 L). split; [exact Hα|]. exact (booted_refines (X := λ _, False) _ _ _ HI' Ha Hbt). }
    assert (a_waiting b (NSem timer_wake_sem) = []) as Hw by by apply (ad_waiting _ Hab).
    exists (ASys b ∅). split; simpl; [exact Hα|rewrite (ad_semaphores _ Hab)|rewrite Hw..| |].
    + eexists. apply lookup_insert_eq.
    + intros u Hu. by apply elem_of_nil in Hu.
    + intros Hu. by apply elem_of_nil in Hu.
    + right; right. apply covers_awake; simpl; [done|]. rewrite Hw. apply not_elem_of_nil.
    + rewrite (tlist_eq (X := λ _, False) _ _ HI Hok), Hl. constructor.
Qed.

Lemma timer_reachable_inv s es a : timer_reachable s es a → tinv a.
Proof. intros (Hb&Hp&Hi&s1&E&Hr). eapply trun_inv, Hr. by eapply tinit_inv. Qed.

Lemma timer_reachable_step s es a e a' :
  timer_reachable s es a → tstep a e a' → timer_reachable s (es ++ [(a, e)]) a'.
Proof.
  intros (Hb&Hp&Hi&s1&E&Hr) Hs. do 3 (split; [done|]). exists s1. split; [done|]. by eapply trun_snoc.
Qed.

(** The service task, when its code runs, has a next step. *)
Lemma service_next a :
  in_code a timer_task_tcb →
  ∃ e, e ∈ [TContinue; TService; TReturn] ∧ tenabled e a ∧ ∀ k, e ≠ TKernel k.
Proof.
  intros Hc. assert (cont_of a timer_task_tcb = CNone ∨ cont_of a timer_task_tcb ≠ CNone) as [Ek|Ek].
  { destruct (cont_of a timer_task_tcb); auto. }
  2: { exists TContinue. split; [left|]. split; [by exists timer_task_tcb|done]. }
  assert ((∃ cb arg, svc a = Calling cb arg) ∨ ∀ cb arg, svc a ≠ Calling cb arg) as [Ev|Ev].
  { destruct (svc a); eauto. }
  - exists TReturn. split; [right; right; left|]. split; [|done]. split; [done|]. split; [done|]. by intros _.
  - exists TService. split; [right; left|]. split; [|done]. by split; [|split].
Qed.

(** C13: no undefined behaviour with timers.  In every state that tasks using
    timers can reach from reset, whatever the interleaving of their calls with
    each other, the service task, the ticks and the interrupts, each step that
    can happen is defined and leads to a reachable state, but for a switch that
    follows a stale bit ([Scenarios.boosted_owner_misplaced], not in [strict]
    runs).  A timer call in progress can always go on, and so can the service
    task whenever its code runs. *)
Theorem timers_never_stuck s es a :
  timer_reachable s es a →
  (∀ e, tenabled e a →
     (∃ a', tstep a e a' ∧ timer_reachable s (es ++ [(a, e)]) a') ∨
     exact = false ∧ e = TKernel EPendSV ∧ switch_stuck (ks (core a))) ∧
  (∀ t, in_code a t → cont_of a t ≠ CNone → ∃ a', tstep a TContinue a') ∧
  (in_code a timer_task_tcb → ∃ e a', e ∈ [TContinue; TService; TReturn] ∧ tstep a e a').
Proof.
  intros Hr. pose proof (timer_reachable_inv _ _ _ Hr) as Ha.
  assert (∀ e, tenabled e a → (∃ a', tstep a e a') ∨ exact = false ∧ e = TKernel EPendSV ∧ switch_stuck (ks (core a)))
    as Hgo.
  { intros e He. destruct (timer_progress a e Ha He) as [(a'&E&_)|(?&?&?&_)]; [|by right].
    left. exists a'. by apply tstep_exec. }
  assert (∀ e, tenabled e a → (∀ k, e ≠ TKernel k) → ∃ a', tstep a e a') as Hgo'.
  { intros e He Hk. destruct (Hgo e He) as [?|(_&->&_)]; [done|by destruct (Hk EPendSV)]. }
  split; [|split].
  - intros e He. destruct (Hgo e He) as [[a' Hs]|?]; [left|by right]. exists a'. split; [done|].
    by apply timer_reachable_step.
  - intros t Hc Hk. apply Hgo'; [|done]. by exists t.
  - intros Hc. destruct (service_next a Hc) as (e&Hin&He&Hk). destruct (Hgo' e He Hk) as [a' ?]. by exists e, a'.
Qed.

(** C14: the list of timers.  In every reachable state the pointers of the list
    spell out the active timers, each once; in runs whose expiry times stay
    within 2^30 ticks of the present they are in the order of their expiry,
    across a wrap of the counter. *)
Theorem timer_list_exact s es a :
  timer_reachable s es a →
  ∃ xs, contents (nodes (ks (core a))) NTimers = Some xs ∧ NoDup xs ∧
    (∀ n, n ∈ xs ↔ ∃ x tm, n = NTimer x ∧ timers (ks (core a)) !! x = Some tm ∧ is_active tm = true) ∧
    ((∀ b k, (b, k) ∈ es → timely b) → timely a → expiry_sorted (ks (core a)) xs).
Proof.
  intros Hr. pose proof (timer_reachable_inv _ _ _ Hr) as Ha. destruct (tlist_exact a Ha) as (?&?&?).
  exists (tlist (ks (core a))). do 3 (split; [done|]). intros Hw Hw'. destruct Hr as (Hb&Hp&Hi&s1&E&Hr).
  destruct (tinit_inv s s1 Hb Hp Hi E) as [Ha0 Hd0].
  destruct (duty_run _ _ _ Ha0 Hd0 Hr Hw Hw') as [_ [α Hd]]. apply Hd.
Qed.

(** A period of 2^31 ticks or more is overdue as soon as its timer starts. *)
Lemma long_period_overdue s x tm :
  timers s !! x = Some (started (g_tick_count s) tm) → 2 ^ 31 ≤ period_ticks tm < 2 ^ 32 →
  remaining s (NTimer x) < 0.
Proof.
  intros Hx Hp. rewrite (remaining_timer _ _ _ Hx). simpl. rewrite i32_u32_sub.
  replace (g_tick_count s + period_ticks tm - g_tick_count s) with (period_ticks tm) by lia.
  unfold i32. rewrite Z.mod_small by lia. rewrite (proj2 (Z.ltb_ge _ _)) by lia. lia.
Qed.

(** C12: timers are on schedule.  From a start of a timer on (or the start that
    a reset ends with), for a period below 2^31 ([long_period_overdue] is what
    others do), as long as it is not started or reset again, and whatever the
    tasks, the service and the interrupts do: its [n]-th firing
    comes after at least [n] periods of ticks, across a wrap of the counter,
    and however long the service was held up.  And it does not drift: as long
    as no firing is more than a period late, the deadlines are exact multiples
    of the period after the start: lateness does not add up. *)
Theorem timer_on_schedule s es0 a0 e a es a' x tm :
  timer_reachable s es0 a0 → tstep a0 e a → e = TStart x ∨ e = TContinue ∧ restarts a0 e x →
  timers (ks (core a0)) !! x = Some tm → 0 ≤ period_ticks tm < 2 ^ 31 →
  trun a es a' → (∀ b k, (b, k) ∈ es → ¬ restarts b k x) →
  (fires a' x = true → (fired_in x es + 1) * period_ticks tm ≤ ticks es) ∧
  ((∀ b k, (b, k) ∈ es → is_firing x (b, k) = true → prompt b x) →
   ∀ tm', timers (ks (core a')) !! x = Some tm' → is_active tm' = true →
     expiry_tick tm' = u32 (g_tick_count (ks (core a)) + (fired_in x es + 1) * period_ticks tm)).
Proof.
  intros Hr Hs He Hx Hp Hrun Hre. pose proof (timer_reachable_inv _ _ _ Hr) as Ha0.
  assert (tinv a) as Ha by by eapply tstep_inv. pose proof (start_started _ _ _ _ _ Ha0 Hs Hx He) as Hx1.
  destruct (started_ahead _ _ _ _ Hx1 eq_refl Hp) as [Hah Hsc]. split; [by apply (ahead_fires a es a' x)|].
  intros Hpr tm' Hx' Hact. destruct (run_scheduled _ _ _ _ _ _ Ha Hrun Hre Hpr Hsc) as (tm2&Hx2&_&HE).
  rewrite Hx' in Hx2. injection Hx2 as <-. rewrite HE by done. f_equal. lia.
Qed.

(** C11: the service task does not oversleep.  Along every run in which the
    expiry times stay within 2^30 ticks of the present ([timely], where the
    signed comparison orders them), whatever its interleaving: while the task
    waits for its semaphore and no task is about to give it, no active timer is
    overdue: by nothing at all if no tick fell between the computation of the
    sleep and the take, and by less than the number of those ticks ([late])
    otherwise ([service_oversleeps_by_late]: the bound is met).  Starting an
    earlier timer meanwhile never loses the wake-up. *)
Theorem service_never_oversleeps s es a x tm :
  timer_reachable s es a → (∀ b k, (b, k) ∈ es → timely b) → timely a →
  NEvent timer_task_tcb ∈ default [] (contents (nodes (ks (core a))) (NSem timer_wake_sem)) →
  (∀ t, cont_of a t ≠ CNotify) →
  timers (ks (core a)) !! x = Some tm → is_active tm = true →
  - late a < i32 (expiry_tick tm - g_tick_count (ks (core a))).
Proof.
  intros (Hb&Hp&Hi&s1&E&Hr) Hw Hw' Hin Hno Hx Hact. destruct (tinit_inv s s1 Hb Hp Hi E) as [Ha0 Hd0].
  destruct (duty_run _ _ _ Ha0 Hd0 Hr Hw Hw') as [Ha Hd].
  assert (NTimer x ∈ tlist (ks (core a))) as Hn by (apply (tlist_exact a Ha); eauto).
  pose proof (duty_due a (NTimer x) Hd Hin Hno Hn) as Hlt. unfold remaining in Hlt. simpl in Hlt.
  by rewrite Hx in Hlt.
Qed.
End image.
End mode.

(** ** Witnesses *)

#[local] Existing Instance strict.

Definition tlab : tsys := tinit lab_started.

(** The states of a run on the board, and its end. *)
Definition tstates (es : list tevent) a : list (tsys * tevent) := from_option fst [] (tplay es a).
Definition tafter (es : list tevent) a : tsys := from_option snd a (tplay es a).

Lemma tafter_run es a : is_someb (tplay es a) = true → trun a (tstates es a) (tafter es a).
Proof.
  unfold tstates, tafter. destruct (tplay es a) as [[bs a']|] eqn:E; [|done]. intros _. by eapply tplay_run.
Qed.

Lemma tafter_reachable es :
  is_someb (tplay es tlab) = true → timer_reachable lab_reset (tstates es tlab) (tafter es tlab).
Proof.
  intros He%tafter_run. split; [apply lab_boot|]. split; [done|]. split; [apply lab_image_ok|].
  exists lab_started. split; [apply lab_main|exact He].
Qed.

(** The protection task makes a periodic timer of three ticks, starts it and
    waits; the service, woken, computes its sleep and waits; the others wait. *)
Definition timer_made : list tevent := [TInit 0 None 3 true 0x08003001 0].
Definition service_sleeps : list tevent := [TService; TService] ++ (TKernel <$> [ERequest; EPendSV]).
Definition all_wait : list tevent :=
  TContinue ::
  (TKernel <$> away (CTake g_fault_semaphore forever) ++ away (CReceive g_adc_sample_queue forever)) ++
  [TService; TService; TService] ++ service_sleeps ++
  (TKernel <$> EInit (OQueue g_uart_rx_queue (replicate 64 0) 1 UART_RX_QUEUE_DEPTH) ::
     away (CReceive g_uart_rx_queue forever)).
(** Three ticks, and the service is back from its wait. *)
Definition three_ticks : list tevent :=
  TKernel <$> [ETick; EPendSV; ETick; EPendSV; ETick; EPendSV; EResume].
(** It fires the timer and goes to sleep again. *)
Definition fires_once : list tevent := [TService; TReturn; TService] ++ service_sleeps.
Definition second_period : list tevent := all_wait ++ three_ticks ++ fires_once ++ three_ticks.

Lemma timers_never_stuck_witness :
  ∃ a', tstep (tafter (timer_made ++ [TStart 0]) tlab) TContinue a'.
Proof.
  assert (is_someb (tplay (timer_made ++ [TStart 0]) tlab) = true) as Hp by (vm_compute; reflexivity).
  apply (proj1 (proj2 (timers_never_stuck _ _ _ (tafter_reachable _ Hp))) protection_tcb).
  - apply in_codeb_ok. vm_compute. reflexivity.
  - intros E. assert (cont_noneb (tafter (timer_made ++ [TStart 0]) tlab) protection_tcb = false) as Hk
      by (vm_compute; reflexivity).
    unfold cont_noneb in Hk. rewrite E in Hk. discriminate.
Defined.

Definition timelyb a : bool :=
  forallb (λ n, (- 2 ^ 30 <? remaining (ks (core a)) n) && (remaining (ks (core a)) n <? 2 ^ 30)) (tlist (ks (core a))).
Lemma timelyb_ok a : timelyb a = true → timely a.
Proof.
  unfold timelyb, timely, window. rewrite forallb_forall. intros Hall n Hn%list_elem_of_In%Hall.
  apply andb_true_iff in Hn as [?%Z.ltb_lt ?%Z.ltb_lt]. done.
Qed.
Lemma all_timely es a : forallb (λ b, timelyb b.1) (tstates es a) = true →
  ∀ b (k : tevent), (b, k) ∈ tstates es a → timely b.
Proof. rewrite forallb_forall. intros Hall b k Hin%list_elem_of_In%Hall. by apply timelyb_ok. Qed.

Definition settled_run : list tevent := timer_made ++ TStart 0 :: all_wait.

Lemma timer_list_exact_witness :
  ∃ xs, contents (nodes (ks (core (tafter settled_run tlab)))) NTimers = Some xs ∧
    expiry_sorted (ks (core (tafter settled_run tlab))) xs.
Proof.
  assert (is_someb (tplay settled_run tlab) = true) as Hp by (vm_compute; reflexivity).
  destruct (timer_list_exact _ _ _ (tafter_reachable _ Hp)) as (xs&Hxs&_&_&Hs). exists xs. split; [exact Hxs|].
  apply Hs; [apply all_timely|apply timelyb_ok]; vm_compute; reflexivity.
Defined.

Definition timer_of (x : nat) a : nimble_timer :=
  default (Timer 0 0 false false 0 0 []) (timers (ks (core a)) !! x).
Lemma timer_of_lookup x a :
  is_someb (timers (ks (core a)) !! x) = true → timers (ks (core a)) !! x = Some (timer_of x a).
Proof. unfold timer_of. by destruct (timers (ks (core a)) !! x). Qed.

Lemma service_never_oversleeps_witness :
  let a := tafter settled_run tlab in
  - late a < i32 (expiry_tick (timer_of 0 a) - g_tick_count (ks (core a))).
Proof.
  intros a. assert (is_someb (tplay settled_run tlab) = true) as Hp by (vm_compute; reflexivity).
  apply (service_never_oversleeps _ _ a 0 (timer_of 0 a) (tafter_reachable _ Hp)).
  - apply all_timely. vm_compute. reflexivity.
  - apply timelyb_ok. vm_compute. reflexivity.
  - apply (bool_decide_unpack _). vm_compute. exact I.
  - intros t. assert (conts a = {[protection_tcb := CNone]}) as Ec by (vm_compute; reflexivity).
    unfold cont_of. rewrite Ec. destruct (decide (t = protection_tcb)) as [->|Ht].
    + rewrite lookup_singleton_eq. discriminate.
    + rewrite lookup_singleton_ne by congruence. discriminate.
  - apply timer_of_lookup. vm_compute. reflexivity.
  - vm_compute. reflexivity.
Defined.

Lemma tafter_step e a :
  tenabledb e a = true → is_someb (texec e a) = true → tstep a e (tafter [e] a).
Proof.
  intros He. unfold tafter. cbn [tplay]. rewrite He. destruct (texec e a) as [a1|] eqn:E; [|done]. intros _. simpl.
  apply tstep_exec; [by apply tenabledb_ok|done].
Qed.

Definition promptb (x : nat) (b : tsys * tevent) : bool :=
  negb (is_firing x b) || (0 <=? i32 (expiry_tick (timer_of x b.1) + period_ticks (timer_of x b.1) -
    g_tick_count (ks (core b.1)))).
Lemma prompt_all x es a : forallb (promptb x) (tstates es a) = true →
  ∀ b (k : tevent), (b, k) ∈ tstates es a → is_firing x (b, k) = true → prompt b x.
Proof.
  rewrite forallb_forall. intros Hall b k Hin%list_elem_of_In%Hall Hf tm Hx. unfold promptb in Hin.
  rewrite Hf in Hin. apply Z.leb_le in Hin. unfold timer_of in Hin. simpl in Hin. by rewrite Hx in Hin.
Qed.

(** No event of a script restarts a timer. *)
Definition restarts_none (b : tsys * tevent) : bool :=
  match b.2 with
  | TKernel _ | TService | TReturn => true
  | TContinue => from_option (λ t, match cont_of b.1 t with CStart _ => false | _ => true end) true
      (nimble_current_tcb (ks (core b.1)))
  | _ => false
  end.
Lemma restarts_none_ok es a x : forallb restarts_none (tstates es a) = true →
  ∀ b (k : tevent), (b, k) ∈ tstates es a → ¬ restarts b k x.
Proof.
  rewrite forallb_forall. intros Hall b k Hin%list_elem_of_In%Hall Hre. unfold restarts_none in Hin. simpl in Hin.
  destruct k; simpl in *; try done. destruct Hre as (t&Ht&Hk). rewrite Ht in Hin. simpl in Hin. by rewrite Hk in Hin.
Qed.

Lemma timer_on_schedule_witness :
  let a0 := tafter timer_made tlab in
  let a := tafter [TStart 0] a0 in
  let a' := tafter second_period a in
  (fired_in 0 (tstates second_period a) + 1) * 3 ≤ ticks (tstates second_period a) ∧
  expiry_tick (timer_of 0 a') = u32 (g_tick_count (ks (core a)) + (fired_in 0 (tstates second_period a) + 1) * 3).
Proof.
  intros a0 a a'. assert (is_someb (tplay timer_made tlab) = true) as Hp by (vm_compute; reflexivity).
  assert (period_ticks (timer_of 0 a0) = 3) as <- by (vm_compute; reflexivity).
  destruct (timer_on_schedule lab_reset (tstates timer_made tlab) a0 (TStart 0) a (tstates second_period a) a' 0
    (timer_of 0 a0)) as [Hearly Hexact].
  - apply tafter_reachable, Hp.
  - apply tafter_step; vm_compute; reflexivity.
  - left. reflexivity.
  - apply timer_of_lookup. vm_compute. reflexivity.
  - split; [vm_compute; discriminate|vm_compute; reflexivity].
  - apply tafter_run. vm_compute. reflexivity.
  - apply restarts_none_ok. vm_compute. reflexivity.
  - split; [apply Hearly; vm_compute; reflexivity|]. apply Hexact.
    + apply prompt_all. vm_compute. reflexivity.
    + apply timer_of_lookup. vm_compute. reflexivity.
    + vm_compute. reflexivity.
Defined.

(** ** The bound is met *)

(** The service computes a sleep of three ticks, two ticks pass before it takes
    the semaphore, and it sleeps for three ticks from there. *)
Definition delayed_take : list tevent :=
  timer_made ++ TStart 0 :: TContinue ::
  (TKernel <$> away (CTake g_fault_semaphore forever) ++ away (CReceive g_adc_sample_queue forever)) ++
  [TService; TService; TService; TService] ++ (TKernel <$> [ETick; EPendSV; ETick; EPendSV]) ++
  [TService] ++ (TKernel <$> [ERequest; EPendSV; ETick; EPendSV; ETick; EPendSV]).

Lemma service_oversleeps_by_late :
  let a := tafter delayed_take tlab in
  timer_reachable lab_reset (tstates delayed_take tlab) a ∧
  NEvent timer_task_tcb ∈ default [] (contents (nodes (ks (core a))) (NSem timer_wake_sem)) ∧
  conts a = {[protection_tcb := CNone]} ∧ is_active (timer_of 0 a) = true ∧
  late a = 2 ∧ remaining (ks (core a)) (NTimer 0) = 1 - late a.
Proof.
  intros a. assert ((is_someb (tplay delayed_take tlab), bool_decide (NEvent timer_task_tcb ∈
      default [] (contents (nodes (ks (core a))) (NSem timer_wake_sem))), conts a, is_active (timer_of 0 a), late a,
    remaining (ks (core a)) (NTimer 0)) = (true, true, {[protection_tcb := CNone]}, true, 2, -1)) as E
    by (vm_compute; reflexivity).
  apply pair_equal_spec in E as [E E6]. apply pair_equal_spec in E as [E E5]. apply pair_equal_spec in E as [E E4].
  apply pair_equal_spec in E as [E E3]. apply pair_equal_spec in E as [E1 E2]. rewrite E6, E5.
  split; [exact (tafter_reachable _ E1)|]. split; [exact (bool_decide_eq_true_1 _ E2)|]. repeat split; assumption.
Qed.
