(* ===== verification/AppProps.v ===== *)
(** * Properties of the power-supply application and the board *)
From S2P Require Import Prelude DList Kernel Port Scheduler SchedInv SchedSpec Task WaitList Ring.
From S2P Require Import KernelInv TaskSpec KernelStep Mutex Semaphore Queue Timer TimerSpec Frame.
From S2P Require Import System Abstract Refinement Simulation Delivery AbstractFrame Board.
From S2P Require Import PowerSupply Report Main Startup Interrupts Lab KernelProps.
From stdpp Require Import options.

Implicit Types (L : gmap nid (list nid)) (s : kstate) (σ : sys) (p : nat) (k : cli).

(** ** Interrupts *)

(** The fault thresholds.  In the binary32 arithmetic of the handler a
    conversion counts as a fault exactly from raw value 2458 on; that is the
    overcurrent limit, the overvoltage limit is crossed at 3227. *)
Lemma fault_thresholds dr :
  let raw := voltage_raw (adc_sample dr) in
  raw = Z.land dr 0xFFF ∧ adc_fault dr = (2458 <=? raw) ∧
  f32_gt (ADC_TO_MILLIVOLTS raw) PS_OVERVOLTAGE_LIMIT_MV = (3227 <=? raw) ∧
  f32_gt (ADC_TO_MILLIAMPS raw) PS_OVERCURRENT_LIMIT_MA = (2458 <=? raw).
Proof.
  intros raw. pose proof (adc_sample_range dr) as Hr. fold raw in Hr. split.
  - unfold raw, adc_sample; simpl. change 0xFFF with (Z.ones 12). rewrite Z.land_ones by lia.
    unfold u16. apply Z.mod_small. pose proof (Z.mod_pos_bound dr (2 ^ 12)). lia.
  - rewrite adc_fault_sample. by apply adc_thresholds.
Qed.

Section image.
  Context `{Image, AppImage} {M : Mode}.

(** The ADC handler's objects exist from [main] on, whatever runs. *)
Lemma step_adc_ready σ e σ' : sys_inv σ → step σ e σ' → adc_ready (ks σ) → adc_ready (ks σ').
Proof.
  intros Hσ Hs [(qu&Hq&Hi) Hx]. split; [|by eapply exec_semaphores].
  destruct (sv_kernel _ Hσ) as (X&L&HI).
  destruct (step_moved g_adc_sample_queue σ _ e σ' qu Hσ
    (simulates_some _ _ _ (simulates_abstraction (X := X) σ L HI)) Hs Hq) as (_&qu'&_&Hq'&Hsz&_).
  exists qu'. split; [done|]. simpl in Hsz. congruence.
Qed.

Lemma app_adc_ready s σ : app_reachable s σ → adc_ready (ks σ).
Proof.
  intros (Hb&Hp&Hi&s1&E&Hr). pose proof (main_inv s s1 Hb Hp Hi E) as Hσ.
  destruct (main_kernel s s1 Hb Hp Hi E) as ([_ _ _ _ ES (qu&EQ&_&_&Hsz)]&_). clear E.
  induction Hr as [|σ e σ' Hr IH Hs]; [|by eapply step_adc_ready; [eapply reachable_inv|..]].
  simpl. split.
  - exists qu. split; [|done]. rewrite EQ. apply lookup_singleton_eq.
  - rewrite ES, lookup_insert_ne by done. rewrite lookup_singleton_eq. eauto.
Qed.

(** C31: the interrupt handlers.  In every reachable state, whatever the data
    registers hold and whatever the interrupted code was doing between its
    critical sections, the ADC handler is defined and keeps the invariant; so
    does the USART handler, before [uart_bridge_init] and, with the one-byte
    items that it gives the queue, after.  And a fault reaches the protection
    task at once, in [strict] runs (elsewhere a raised READY task may be above
    it): when a task waits first for the fault semaphore and every other task
    has a lower priority, an over-threshold conversion makes it the running one
    as soon as the handler returns and PendSV is taken. *)
Theorem handlers_correct s σ dr sr :
  app_reachable s σ →
  (∃ s', run (ADC_IRQHandler dr) σ = Some (tt, Sys s' (phases σ)) ∧ sys_inv (Sys s' (phases σ))) ∧
  ((∀ qu, queues (ks σ) !! g_uart_rx_queue = Some qu → item_size qu = 1) →
   ∃ s', run (USART1_IRQHandler sr dr) σ = Some (tt, Sys s' (phases σ)) ∧
         sys_inv (Sys s' (phases σ))) ∧
  (∀ p ws cp, exact = true → adc_fault dr = true →
     contents (nodes (ks σ)) (NSem g_fault_semaphore) = Some (NEvent p :: ws) →
     tcbs (ks σ) !! p = Some cp →
     (∀ u cu, tcbs (ks σ) !! u = Some cu → u ≠ p → priority cu < priority cp) →
     wp (ADC_IRQHandler dr ;; PendSV_Handler) (λ _ s', nimble_current_tcb s' = Some p) (ks σ)).
Proof.
  intros Hr. pose proof (app_reachable_inv s σ Hr) as Hσ. pose proof (app_adc_ready s σ Hr) as Ha.
  split; [by apply adc_irq_step|]. split; [by apply usart_irq_step|].
  intros p ws cp He Hf Hc Hp Hlow. destruct Ha as [(qu&Hq&Hi) [sem Hx]].
  destruct (app_reachable_kernel s σ Hr) as (X&L&HI).
  pose proof (so_list _ _ _ (oo_sem _ _ (ki_objects _ _ HI) _ _ Hx)) as Hl.
  destruct (waiters_contents _ _ (NSem g_fault_semaphore) HI eq_refl Hl) as [E _].
  rewrite Hc in E. injection E as E. by eapply (adc_fault_switches (X := X)).
Qed.
End image.

(** ** The start-up *)

(** C32: reset.  Whatever RAM holds, the loops of [Reset_Handler] end with the
    initialised data in place, [.bss] zero and the rest of memory as it was,
    and [main] then boots: it reaches the state from which the runs of the
    other theorems start. *)
Theorem reset_boots `{Image, AppImage, Layout} {M : Mode} s ndata nbss :
  boot s → pendsv s = false → image_ok (ram s) → layout_ok (ram s) ndata nbss →
  ∃ s0 s', reset_memory s = Some (tt, s0) ∧ s0 = set_ram (ram s0) s ∧
    reset_done (ram s) (ram s0) ndata nbss ∧
    Reset_Handler s = Some (tt, s') ∧ booted s' ∧ app_reachable s0 (Sys s' ∅).
Proof.
  intros Hb Hp Hi Hl.
  destruct (proj1 (wp_run _ _ _) (reset_memory_spec s ndata nbss Hl)) as ([]&s0&E0&Es&Hd).
  assert (boot s0) as Hb0 by (rewrite Es; by destruct Hb).
  assert (pendsv s0 = false) as Hp0 by by rewrite Es.
  assert (image_ok (ram s0)) as Hi0.
  { eapply image_mapped, Hi. intros a. by eapply reset_done_mapped. }
  destruct (main_defined s0 Hb0 Hp0 Hi0) as [s' E'].
  exists s0, s'. do 3 (split; [done|]).
  split; [unfold Reset_Handler, mbind, M_bind; by rewrite E0|].
  split; [by eapply main_kernel|]. do 3 (split; [done|]). exists s'. split; [done|constructor].
Qed.

(** ** The control task *)

(** C33: the soft start.  From power-up, without faults, [n] samples take the
    control task and the shared status from IDLE at 0 through SOFT_START up
    to the fiftieth to RUNNING from the fifty-first on. *)
Theorem soft_start_ramp ss :
  let n := Z.of_nat (length ss) in
  ∃ g', rounds ss (Control PS_STATE_IDLE 0) ps_shared_status = (ramp n, g') ∧
    ps_state g' = local_state (ramp n) ∧ fault_count g' = 0 ∧
    local_state (ramp n) =
      if n =? 0 then PS_STATE_IDLE else if n <=? 50 then PS_STATE_SOFT_START else PS_STATE_RUNNING.
Proof.
  intros n. destruct (ramp_rounds ss) as (g'&E&Hs&Hf). exists g'. split; [done|]. split; [done|].
  split; [done|]. fold n. unfold ramp. destruct (n =? 0); [done|]. by destruct (n <=? 50).
Qed.

(** A fault latches.  If the protection task notes a fault while the
    control task, RUNNING, waits for its next sample, that round makes both
    copies of the state FAULT, and no later sample or fault changes them. *)
Theorem fault_latches smp c g es :
  local_state c = PS_STATE_RUNNING →
  let a := demo_run (replicate 3 (Control_step smp) ++ es) (Demo Waiting c (ps_status_note_fault g)) in
  ps_state (g_status a) = PS_STATE_FAULT ∧ local_state (ctl a) = PS_STATE_FAULT.
Proof.
  intros Hc a. assert (faulted a) as (?&?&_); [|done]. unfold a, demo_run. rewrite foldl_app.
  apply faulted_run, fault_seen. by left.
Qed.

(** ** The command line *)

Definition expected_reply (line : list Z) : reply :=
  if decide (line = status_cmd) then StatusReport
  else if decide (line = []) then NoReply else UnknownCommand.

Lemma c_string_line l junk : Forall (λ b, b ≠ 0) l → c_string (l ++ 0 :: junk) = l.
Proof.
  induction 1 as [|b l Hb Hl IH]; [done|]. cbn [c_string app].
  rewrite (proj2 (Z.eqb_neq b 0)) by done. by rewrite IH.
Qed.

Lemma handle_command_line l junk :
  Forall (λ b, b ≠ 0) l → handle_command (l ++ 0 :: junk) = expected_reply l.
Proof.
  intros Hl. unfold handle_command, expected_reply. rewrite c_string_line by done.
  case_decide; [done|]. destruct Hl as [|b l Hb Hl]; [done|]. cbn [app].
  by rewrite (proj2 (Z.eqb_neq b 0)).
Qed.

(** C34: the command line.  Whatever was typed before the last line end, a
    line and its end are answered once, by what its first 63 characters say;
    the buffer never overflows. *)
Theorem command_answered bs k e :
  cli_ok k → line_len k = 0%nat → Forall (λ b, is_eol b = false ∧ b ≠ 0) bs → is_eol e = true →
  ∃ k', comms_run (bs ++ [e]) k = Some (k', [expected_reply (take 63 bs)]) ∧
    cli_ok k' ∧ line_len k' = 0%nat.
Proof.
  intros Hok Hz Hbs He. apply Forall_and in Hbs as [Hbs Hnz].
  destruct (comms_line bs k e Hok Hz Hbs He) as (k'&line&E&?&?&junk&->).
  exists k'. split; [|done]. rewrite E, handle_command_line; [done|]. by apply Forall_take.
Qed.

(** C35: the reports.  For every 12-bit sample, state and fault count the text
    of the [status] command and of the logger depends on the C library.  With a
    [%.0f] as in the C standard it has the voltage and the current, in
    millivolts and milliamperes, exactly rounded to the nearest integer,
    although they are converted and stored in single precision; with the
    newlib-nano that the Makefile links, which has none, both numbers are
    missing.  The rest of the line is the same, and neither is cut off by its
    buffer. *)
Theorem report_exact st v i n :
  0 ≤ v < 4096 → 0 ≤ i < 4096 → 0 ≤ n < 2 ^ 32 →
  let g := Status st (ADC_TO_MILLIVOLTS v) (ADC_TO_MILLIAMPS i) n in
  ∃ dv di dn,
    decimal dv (nearest (16500 * v) 4095) ∧ decimal di (nearest (5000 * i) 4095) ∧ decimal dn n ∧
    let text dv di := str "state=" ++ ps_state_name st ++ str " v=" ++ dv ++ str "mV i=" ++ di ++
                      str "mA faults=" ++ dn ++ eol in
    (status_report (H := standard_printf) g = text dv di ∧
     logger_report (H := standard_printf) g = str "[log] " ++ text dv di) ∧
    (status_report (H := nano_printf) g = text [] [] ∧
     logger_report (H := nano_printf) g = str "[log] " ++ text [] []).
Proof.
  intros Hv Hi Hn g. destruct (fixed0_sample v Hv) as [Ev _], (fixed0_sample i Hi) as [_ Ei].
  assert (0 ≤ nearest (16500 * v) 4095 ≤ 16500) as Hnv by (apply nearest_range; lia).
  assert (0 ≤ nearest (5000 * i) 4095 ≤ 5000) as Hni by (apply nearest_range; lia).
  exists (dec (nearest (16500 * v) 4095)), (dec (nearest (5000 * i) 4095)), (dec n).
  do 3 (split; [apply dec_decimal; lia|]).
  unfold status_report, logger_report, status_text, g.
  cbn [ps_state ps_voltage_mv ps_current_ma fault_count percent_f0 standard_printf nano_printf].
  rewrite Ev, Ei. pose proof (state_name_length st).
  pose proof (dec_length (nearest (16500 * v) 4095) 4 ltac:(lia)).
  pose proof (dec_length (nearest (5000 * i) 4095) 3 ltac:(lia)).
  pose proof (dec_length n 9 ltac:(lia)).
  split; split; apply snprintf_fits; rewrite !length_app; simpl; unfold REPORT_BUF_LEN; lia.
Qed.

(** ** The board *)

(** C36: priorities and tick rate.  When [main] has booted, PendSV and SysTick
    have the lowest priority, which a critical section masks; the rest of SHPR3
    is as it was; SysTick runs, raises its exception every 16000 cycles of the
    16 MHz clock, a millisecond, and starts a full period; the priorities of the
    device interrupts are not touched, and at their reset value 0 no critical
    section masks them. *)
Theorem board_priorities `{Image, AppImage} s (b : board) :
  boot s → pendsv s = false → image_ok (ram s) → 0 ≤ SCB_SHPR3 b < 2 ^ 32 →
  ∃ s' b', main_program b s = Some (b', s') ∧ booted s' ∧
    prio_pendsv b' = 0xF0 ∧ prio_systick b' = 0xF0 ∧
    masked NIMBLE_KERNEL_SYSCALL_BASEPRI (prio_pendsv b') = true ∧
    masked NIMBLE_KERNEL_SYSCALL_BASEPRI (prio_systick b') = true ∧
    (∀ i, 0 ≤ i < 16 → Z.testbit (SCB_SHPR3 b') i = Z.testbit (SCB_SHPR3 b) i) ∧
    tick_cycles b' = Some 16000 ∧ 16000 * 1000 = HSI_CLOCK_HZ ∧ STK_VAL b' = 0 ∧
    (∀ i, NVIC_IPR b' i = NVIC_IPR b i) ∧
    (∀ i, NVIC_IPR b i = 0 → masked NIMBLE_KERNEL_SYSCALL_BASEPRI (NVIC_IPR b' i) = false).
Proof.
  intros Hs Hps Him Hb. destruct (main_defined s Hs Hps Him) as [s' E].
  exists s', (nimble_stm32f4_system_init b). split; [unfold main_program, mbind, M_bind; by rewrite E|].
  split; [by eapply (main_kernel (M := strict))|].
  destruct (prio_bytes b Hb) as [Hp Hsy]. rewrite Hp, Hsy. do 4 (split; [done|]). split; [|split; [done|]].
  - intros i Hi. rewrite shpr3_bit by lia. by rewrite (proj2 (Z.ltb_lt i 16)) by lia.
  - do 3 (split; [done|]). intros i Hi. change (NVIC_IPR (nimble_stm32f4_system_init b) i) with (NVIC_IPR b i).
    by rewrite Hi.
Qed.

(** ** Witnesses *)

#[local] Existing Instance strict.

Definition outranked (p : nat) (v : Z) (T : gmap nat nimble_tcb) : bool :=
  forallb (λ '(u, c), (u =? p)%nat || (priority c <? v)) (map_to_list T).

Lemma outranked_ok p v T :
  outranked p v T = true → ∀ u c, T !! u = Some c → u ≠ p → priority c < v.
Proof.
  unfold outranked. rewrite forallb_forall. intros Hall u c Hu Hne.
  specialize (Hall (u, c)). apply elem_of_map_to_list, list_elem_of_In in Hu.
  apply Hall, orb_true_iff in Hu as [?%Nat.eqb_eq|?%Z.ltb_lt]; [contradiction|assumption].
Qed.

(** The protection task waits; a conversion reads full scale. *)
Lemma handlers_correct_witness :
  let σ := after app_startup in
  (∃ s', run (ADC_IRQHandler 0xFFF) σ = Some (tt, Sys s' (phases σ)) ∧ sys_inv (Sys s' (phases σ))) ∧
  (∃ s', run (USART1_IRQHandler 32 0xFFF) σ = Some (tt, Sys s' (phases σ)) ∧ sys_inv (Sys s' (phases σ))) ∧
  wp (ADC_IRQHandler 0xFFF ;; PendSV_Handler)
    (λ _ s', nimble_current_tcb s' = Some protection_tcb) (ks σ).
Proof.
  destruct (handlers_correct (M := strict) lab_reset (after app_startup) 0xFFF 32 (after_reachable _))
    as (Hadc&Husart&Hfault).
  split; [exact Hadc|]. split; [apply Husart|].
  { assert (item_size <$> queues (ks (after app_startup)) !! g_uart_rx_queue = Some 1) as Eq
      by (vm_compute; reflexivity).
    intros qu Hq. rewrite Hq in Eq. injection Eq as ->. reflexivity. }
  apply (Hfault protection_tcb [] (task_of protection_tcb (after app_startup))).
  - reflexivity.
  - vm_compute. reflexivity.
  - vm_compute. reflexivity.
  - apply task_of_lookup. vm_compute. reflexivity.
  - apply outranked_ok. vm_compute. reflexivity.
Defined.

Lemma report_exact_witness :
  ∃ dv di dn, decimal dv 4029 ∧ decimal di 1221 ∧ decimal dn 7 ∧
    let text dv di := str "state=" ++ str "RUNNING" ++ str " v=" ++ dv ++ str "mV i=" ++ di ++
                      str "mA faults=" ++ dn ++ eol in
    let g := Status PS_STATE_RUNNING (ADC_TO_MILLIVOLTS 1000) (ADC_TO_MILLIAMPS 1000) 7 in
    (status_report (H := standard_printf) g = text dv di ∧
     logger_report (H := standard_printf) g = str "[log] " ++ text dv di) ∧
    (status_report (H := nano_printf) g = text [] [] ∧
     logger_report (H := nano_printf) g = str "[log] " ++ text [] []).
Proof.
  apply (report_exact PS_STATE_RUNNING 1000 1000 7); split; first [discriminate|reflexivity].
Defined.

(** A sample at 1000, the task RUNNING. *)
Lemma fault_latches_witness :
  let a := demo_run (replicate 3 (Control_step (AdcSample 1000 1000)) ++ [Fault])
    (Demo Waiting (Control PS_STATE_RUNNING 50) (ps_status_note_fault ps_shared_status)) in
  ps_state (g_status a) = PS_STATE_FAULT ∧ local_state (ctl a) = PS_STATE_FAULT.
Proof. apply fault_latches. reflexivity. Defined.

(** ["status"] and a carriage return. *)
Lemma command_answered_witness :
  ∃ k', comms_run (status_cmd ++ [13]) (Cli (replicate 64 0) 0) = Some (k', [StatusReport]) ∧
    cli_ok k' ∧ line_len k' = 0%nat.
Proof.
  apply (command_answered status_cmd (Cli (replicate 64 0) 0) 13).
  - split; [reflexivity|]. apply Nat.ltb_lt. reflexivity.
  - reflexivity.
  - repeat constructor; discriminate.
  - reflexivity.
Defined.

Lemma board_priorities_witness :
  ∃ s' b', main_program (Board 0x12345678 0 0 0 (λ _, 0)) lab_reset = Some (b', s') ∧
    prio_pendsv b' = 0xF0 ∧ prio_systick b' = 0xF0 ∧ tick_cycles b' = Some 16000 ∧
    masked NIMBLE_KERNEL_SYSCALL_BASEPRI (NVIC_IPR b' 18) = false.
Proof.
  destruct (board_priorities lab_reset (Board 0x12345678 0 0 0 (λ _, 0)) lab_boot eq_refl lab_image_ok)
    as (s'&b'&E&_&Hp&Hs&_&_&_&Ht&_&_&_&Hd); [split; [discriminate|reflexivity]|].
  exists s', b'. split; [exact E|]. split; [exact Hp|]. split; [exact Hs|]. split; [exact Ht|].
  apply Hd. reflexivity.
Defined.

(** Two words of data, with their image at 0x08010000, and four of [.bss]. *)
#[local] Instance lab_layout : Layout := {|
  _sidata := 0x08010000; _sdata := 0x20007000; _edata := 0x20007008;
  _sbss := 0x20007008; _ebss := 0x20007018;
|}.
Definition power_up : kstate := set_ram (lab_ram ∪ (words_at 0x08010000 2 ∪ words_at 0x20007000 6)) lab_reset.

Lemma power_up_section base n :
  (0 <=? base) && (base + 4 * Z.of_nat n <? 2 ^ 32) = true → mappedb (ram power_up) base n = true →
  section_at (ram power_up) base (Z.of_nat n).
Proof.
  intros [?%Z.leb_le ?%Z.ltb_lt]%andb_true_iff Hm. split; [done|]. split; [lia|]. split; [done|].
  by apply mappedb_ok.
Qed.

Lemma reset_boots_witness :
  ∃ s0 s', reset_memory power_up = Some (tt, s0) ∧ s0 = set_ram (ram s0) power_up ∧
    reset_done (ram power_up) (ram s0) 2 4 ∧
    Reset_Handler power_up = Some (tt, s') ∧ booted s' ∧ app_reachable s0 (Sys s' ∅).
Proof.
  apply (reset_boots power_up 2 4).
  - split; reflexivity.
  - reflexivity.
  - apply (image_mapped lab_reset); [|apply lab_image_ok]. intros a [v Ha].
    exists v. by apply lookup_union_Some_l.
  - split; [split; [|reflexivity]|split; [|discriminate]|split; [|reflexivity]|discriminate].
    + apply (power_up_section _ 2); vm_compute; reflexivity.
    + apply (power_up_section _ 2); vm_compute; reflexivity.
    + apply (power_up_section _ 4); vm_compute; reflexivity.
Defined.
