(* ===== verification/ProgramProps.v ===== *)
(** * Properties of the application as it runs on the kernel

    From reset through [main], whatever the interleaving of the tasks, the
    ticks and the handlers: the shared status is accessed under its mutex, word
    by word but as if each function were atomic; no task meets undefined
    behaviour; and a fault latches. *)
From S2P Require Import Prelude DList Kernel Scheduler SchedInv KernelInv KernelStep System.
From S2P Require Import Abstract.
From S2P Require Import Refinement Simulation Delivery Waiting Timer PowerSupply Main Interrupts.
From S2P Require Import Application AppSafe AppLive Lab KernelProps.
From stdpp Require Import options.

(** The locks of the status mutex may raise a READY owner. *)
#[local] Existing Instance inherit.

Implicit Types (t u : nat) (l : local) (pc : tpc) (σ : sys) (a : app) (d : demo).

(** ** A latched fault *)

(** The status is FAULT and the control task will not write another state. *)
Definition latched d : Prop :=
  ps_state (g_status d) = PS_STATE_FAULT ∧
  (local_state (ctl d) = PS_STATE_FAULT ∨ local_state (ctl d) = PS_STATE_RUNNING) ∧
  ∀ st, PowerSupply.pc d ≠ Writing st.

Lemma latched_step e d : latched d → latched (demo_exec e d).
Proof.
  destruct d as [p [l n] g]. intros (Hg&Hl&Hp). cbn in Hg, Hl, Hp.
  destruct e as [s|]; [|split; [done|by split]]. unfold latched, demo_exec; cbn [PowerSupply.pc ctl g_status].
  destruct p as [| |st|]; [| |by destruct (Hp st)|].
  - by split.
  - destruct Hl; subst l; cbn; (split; [done|]); (split; [auto|done]).
  - cbn. split; [done|]. split; [|done]. unfold resync. rewrite decide_True by done. by left.
Qed.

Lemma latched_moves d d' : latched d → moves d d' → latched d'.
Proof.
  intros Hd [ds ->]. revert d Hd. induction ds as [|e ds IH]; intros d Hd; [done|].
  by apply IH, latched_step.
Qed.

(** ** The theorems *)

Section image.
Context `{Image, AppImage}.

(** [a] is reached from reset in the state [s], when the memory of the command
    line's buffer holds [line]. *)
Definition app_runs s (line : list Z) a : Prop :=
  boot s ∧ pendsv s = false ∧ image_ok (ram s) ∧ length line = CLI_LINE_BUF_LEN ∧
  ∃ s1, main s = Some (tt, s1) ∧ app_run (app_start s1 line) a.

Lemma app_runs_live s line a : app_runs s line a → app_live a.
Proof.
  intros (Hb&Hp&Hi&Hl&s1&E&Hr). eapply app_run_live, Hr. by eapply app_start_live.
Qed.

Lemma app_runs_inv s line a :
  app_runs s line a → app_ok a ∧ ∃ d, moves demo_init d ∧ serial a d.
Proof.
  intros Hr. split; [apply (app_runs_live s line a Hr)|]. destruct Hr as (Hb&Hp&Hi&Hl&s1&E&Hr).
  eapply serial_run, Hr; [|apply app_start_serial]. apply app_start_ok. by eapply main_inv.
Qed.


(** C6: race freedom.  Whatever the interleaving, a task that accesses a word
    of the shared status owns the status mutex, and no other task is inside a
    status function. *)
Theorem status_exclusive s line a t l k r :
  app_runs s line a → a_pcs a !! t = Some (Inside l k r) →
  owner_at (a_sys a) g_status_mutex = Some t ∧
  ∀ u l' k' r', a_pcs a !! u = Some (Inside l' k' r') → u = t.
Proof.
  intros Hr Ht. destruct (app_runs_inv s line a Hr) as (Hok&_).
  split; [by apply (ao_pcs a Hok) in Ht as [_ ?]|].
  intros u l' k' r' Hu. by eapply inside_unique.
Qed.

(** C7: the status functions are atomic.  Every run of the application, word
    by word, is a run of the machine [demo], in which each status function is
    one step: its control task is the application's, and whenever no function
    is half done its status is the shared one.  While a task has done [k]
    words, the status and the task's copy are what those words make of it. *)
Theorem status_serial s line a :
  app_runs s line a →
  ∃ ds, let d := demo_run ds demo_init in
    (∃ pc, a_pcs a !! control_tcb = Some pc ∧ view pc = (PowerSupply.pc d, ctl d)) ∧
    (quiet a → a_status a = g_status d) ∧
    (∀ t l k r, a_pcs a !! t = Some (Inside l k r) → (k < length (op_words l))%nat →
       (a_status a, r) = do_words (take k (op_words l)) (g_status d, no_status)).
Proof.
  intros Hr. destruct (app_runs_inv s line a Hr) as (_&d&[ds ->]&Hd). exists ds.
  split; [apply Hd|]. split; [apply Hd|]. intros t l k r Ht Hk. by eapply sr_busy.
Qed.


(** C10: a fault latches.  Once the status is FAULT while the control task is
    RUNNING, or has seen the fault, and is not about to write a state it has
    already decided on, the status is FAULT whenever it can be read, for good. *)
Theorem app_fault_latches s line a pcc p c a' :
  app_runs s line a → quiet a → ps_state (a_status a) = PS_STATE_FAULT →
  a_pcs a !! control_tcb = Some pcc → view pcc = (p, c) →
  (local_state c = PS_STATE_FAULT ∨ local_state c = PS_STATE_RUNNING) → (∀ st, p ≠ Writing st) →
  app_run a a' → quiet a' → ps_state (a_status a') = PS_STATE_FAULT.
Proof.
  intros Hr Hq Hs Hpc Hv Hl Hp Hrun Hq'. destruct (app_runs_inv s line a Hr) as (Hok&d&_&Hd).
  destruct (serial_run a a' d Hok Hd Hrun) as (d'&Hm&Hd').
  destruct (sr_control a d Hd) as (pcc'&Hpc'&Hv'). assert (pcc' = pcc) as -> by congruence.
  rewrite Hv in Hv'. injection Hv' as -> ->.
  rewrite (sr_quiet a d Hd Hq) in Hs. rewrite (sr_quiet a' d' Hd' Hq').
  by destruct (latched_moves d d' (conj Hs (conj Hl Hp)) Hm).
Qed.
End image.

(** ** Running the application *)

Definition interruptb (e : event) : bool :=
  match e with
  | ETick | EPendSV => true
  | EIsrGive x => (x =? g_fault_semaphore)%nat
  | EIsrSend q item =>
      (q =? g_adc_sample_queue)%nat && (length item =? 4)%nat ||
      (q =? g_uart_rx_queue)%nat && (length item =? 1)%nat
  | _ => false
  end.

Definition app_enabledb (ae : app_event) a : bool :=
  match ae with
  | Interrupt e => interruptb e && enabledb e (a_sys a)
  | Run =>
      match nimble_current_tcb (ks (a_sys a)) with
      | Some t =>
          match a_pcs a !! t with
          | Some pc => negb (pendsv (ks (a_sys a))) &&
              match next_event pc (phase_of (a_sys a) t) with
              | Some e => enabledb e (a_sys a)
              | None => true
              end
          | None => false
          end
      | None => false
      end
  end.

Lemma interruptb_ok e : interruptb e = true → interrupt e.
Proof.
  destruct e; simpl; try done.
  - apply Nat.eqb_eq.
  - rewrite orb_true_iff, !andb_true_iff, !Nat.eqb_eq. done.
Qed.

Lemma app_enabledb_ok ae a : app_enabledb ae a = true → app_enabled ae a.
Proof.
  destruct ae as [e|]; simpl.
  - intros [?%interruptb_ok ?%enabledb_ok]%andb_true_iff. done.
  - destruct (nimble_current_tcb (ks (a_sys a))) as [t|]; [|done].
    destruct (a_pcs a !! t) as [pc|] eqn:Ep; [|done].
    intros [?%negb_true_iff He]%andb_true_iff. exists t, pc. do 3 (split; [done|]).
    destruct (next_event pc (phase_of (a_sys a) t)); [by apply enabledb_ok|done].
Qed.

Fixpoint run_app (es : list app_event) a : option app :=
  match es with
  | [] => Some a
  | e :: es => if app_enabledb e a then a ← app_exec e a; run_app es a else None
  end.

Lemma run_app_run es a a' : run_app es a = Some a' → app_run a a'.
Proof.
  revert a. induction es as [|e es IH]; intros a E; simpl in E; [simplify_eq; constructor|].
  destruct (app_enabledb e a) eqn:He; [|done]. destruct (app_exec e a) as [a1|] eqn:E1; [|done].
  econstructor; [|by apply IH]. by apply app_step_exec; [apply app_enabledb_ok|].
Qed.

Definition app_lab : app := app_start lab_started (replicate 64 0).
Definition app_after (es : list app_event) : app := default app_lab (run_app es app_lab).
Definition app_runs_ok (es : list app_event) a : bool := is_someb (run_app es a).

Lemma app_after_run es : app_runs_ok es app_lab = true → app_run app_lab (app_after es).
Proof.
  unfold app_runs_ok, app_after. destruct (run_app es app_lab) eqn:E; [|done]. intros _.
  by apply run_app_run in E.
Qed.

Lemma app_after_runs es : app_runs_ok es app_lab = true → app_runs lab_reset (replicate 64 0) (app_after es).
Proof.
  intros Hr. split; [apply lab_boot|]. split; [done|]. split; [apply lab_image_ok|]. split; [done|].
  exists lab_started. split; [apply lab_main|by apply app_after_run].
Qed.

Lemma run_app_app es es' a : run_app (es ++ es') a = a ← run_app es a; run_app es' a.
Proof.
  revert a. induction es as [|e es IH]; intros a; [done|]. simpl.
  destruct (app_enabledb e a); [|done]. destruct (app_exec e a); [|done]. apply IH.
Qed.

Lemma app_after_next es es' :
  app_runs_ok (es ++ es') app_lab = true → app_run (app_after es) (app_after (es ++ es')).
Proof.
  unfold app_runs_ok, app_after. rewrite run_app_app. destruct (run_app es app_lab) as [a|] eqn:E; [|done].
  simpl. destruct (run_app es' a) eqn:E'; [|done]. intros _. by apply run_app_run in E'.
Qed.

(** *** Scripts *)

Definition switch : app_event := Interrupt EPendSV.

(** Each task runs to its first wait; the logger reports once and sleeps. *)
Definition to_first_wait : list app_event :=
  [Run; Run; switch; Run; Run; switch; Run; Run; switch; Run; Run; Run; switch].
Definition app_idle : list app_event := to_first_wait ++ replicate 8 Run ++ [switch].

(** A sample arrives while the control task waits; the task's round takes [n]
    steps. *)
Definition sample_arrived : list app_event :=
  [Interrupt (EIsrSend g_adc_sample_queue (sample_bytes (AdcSample 1000 1000))); switch].
Definition sample_round (n : nat) : list app_event := sample_arrived ++ replicate n Run ++ [switch].

(** The soft start, up to its last sample. *)
Definition soft_started : list app_event :=
  app_idle ++ sample_round 16 ++ concat (replicate 49 (sample_round 13)).

(** A fault; the protection task notes it and waits again. *)
Definition fault_noted : list app_event :=
  [Interrupt (EIsrGive g_fault_semaphore); switch] ++ replicate 8 Run ++ [switch].

(** The control task in RUNNING, then a fault. *)
Definition running_fault : list app_event := soft_started ++ sample_round 16 ++ fault_noted.

Definition quietb a : bool :=
  forallb (λ '(_, pc), match pc with Inside l k _ => negb (k <? length (op_words l))%nat | _ => true end)
    (map_to_list (a_pcs a)).

Lemma quietb_ok a : quietb a = true → quiet a.
Proof.
  unfold quietb. rewrite forallb_forall. intros Hall t pc Ht Hb.
  specialize (Hall (t, pc)). destruct pc as [| | |l k r|]; try done.
  apply elem_of_map_to_list, list_elem_of_In in Ht. apply Hall, negb_true_iff, Nat.ltb_ge in Ht.
  simpl in Hb. lia.
Qed.

(** *** Witnesses *)

(** The logger is half way through [ps_status_get]. *)
Definition logger_inside : list app_event := to_first_wait ++ replicate 3 Run.

Lemma logger_inside_pc :
  ∃ r, a_pcs (app_after logger_inside) !! logger_tcb = Some (Inside LogGet 2 r).
Proof. eexists. vm_compute. reflexivity. Qed.

Lemma status_exclusive_witness :
  owner_at (a_sys (app_after logger_inside)) g_status_mutex = Some logger_tcb ∧
  ∀ u l' k' r', a_pcs (app_after logger_inside) !! u = Some (Inside l' k' r') → u = logger_tcb.
Proof.
  destruct logger_inside_pc as [r Hr].
  apply (status_exclusive lab_reset (replicate 64 0) (app_after logger_inside) logger_tcb LogGet 2 r);
    [apply app_after_runs; vm_compute; reflexivity|exact Hr].
Defined.

Lemma status_serial_witness :
  ∃ ds, let d := demo_run ds demo_init in
    (∃ pc, a_pcs (app_after running_fault) !! control_tcb = Some pc ∧ view pc = (PowerSupply.pc d, ctl d)) ∧
    (quiet (app_after running_fault) → a_status (app_after running_fault) = g_status d) ∧
    (∀ t l k r, a_pcs (app_after running_fault) !! t = Some (Inside l k r) → (k < length (op_words l))%nat →
       (a_status (app_after running_fault), r) = do_words (take k (op_words l)) (g_status d, no_status)).
Proof.
  apply (status_serial lab_reset (replicate 64 0)). apply app_after_runs. vm_compute. reflexivity.
Defined.



(** The control task is RUNNING when the fault comes; one more sample. *)
Lemma app_fault_latches_witness :
  ps_state (a_status (app_after (running_fault ++ sample_round 13))) = PS_STATE_FAULT.
Proof.
  apply (app_fault_latches lab_reset (replicate 64 0) (app_after running_fault)
    (InCall (CtlReceive (Control PS_STATE_RUNNING 50)) None) PowerSupply.Waiting
    (Control PS_STATE_RUNNING 50)).
  - apply app_after_runs. vm_compute. reflexivity.
  - apply quietb_ok. vm_compute. reflexivity.
  - vm_compute. reflexivity.
  - vm_compute. reflexivity.
  - reflexivity.
  - right. reflexivity.
  - discriminate.
  - apply app_after_next. vm_compute. reflexivity.
  - apply quietb_ok. vm_compute. reflexivity.
Defined.
