(* ===== verification/Scenarios.v ===== *)
(** * Scenarios

    Runs of the application's tasks and of other clients of the kernel on the
    concrete board, in which the code does not do what it means to. *)
From S2P Require Import Prelude DList Kernel Port Scheduler SchedInv SchedSpec Task WaitList Ring.
From S2P Require Import KernelInv TaskSpec KernelStep Mutex Semaphore Queue Timer TimerSpec Frame.
From S2P Require Import System PowerSupply Main Interrupts Lab.
From S2P Require Import Application ProgramProps.
From stdpp Require Import options.

(** A lock may raise an owner that is READY. *)
#[local] Existing Instance inherit.

(** ** Scripts *)

(** Every event is enabled; [Some None] when the last one is undefined. *)
Fixpoint issue (es : list event) (σ : sys) : option (option sys) :=
  match es with
  | [] => Some (Some σ)
  | e :: es =>
      if enabledb e σ then
        match exec e σ with
        | Some σ => issue es σ
        | None => match es with [] => Some None | _ => None end
        end
      else None
  end.

(** What happens after the start of the application. *)
Definition issue_app (es : list event) : option (option sys) := issue (app_startup ++ es) lab.

Definition state_of (t : tid) (σ : sys) : option nimble_task_state_t := state <$> tcbs (ks σ) !! t.
Definition priority_of (t : tid) (σ : sys) : option Z := priority <$> tcbs (ks σ) !! t.

(** The logger reads the status ([ps_status_get]); while it holds the mutex a
    sample arrives and the control task stores its measurement. *)
Definition logger_locked : list event :=
  [ECall (CLock g_status_mutex forever); EIsrSend g_adc_sample_queue [1; 0; 1; 0]; EPendSV; EResume].
Definition control_locks : list event := away (CLock g_status_mutex forever).
(** A byte arrives from the UART. *)
Definition byte_arrives : list event := [EIsrSend g_uart_rx_queue [13]; EPendSV].

(** A producer blocked on a full queue and a consumer that empties it. *)
Definition fill_queue : list event := replicate 8 (EIsrSend g_adc_sample_queue [0; 0; 0; 0]).
Definition drain : event := ECall (CReceive g_adc_sample_queue forever).
Definition lost_wakeup_run : list event :=
  away (CDelay 9) ++ fill_queue ++ away (CDelay 3) ++
  away (CTake timer_wake_sem forever) ++ away (CDelay 9) ++
  away (CSend g_adc_sample_queue [7; 7; 7; 7] forever) ++
  [ETick; ETick; ETick; EPendSV; EResume; drain; ERequest; EPendSV; EResume] ++
  replicate 8 drain ++ [ERequest; EPendSV; EResume].

(** What is observed of a state at the end of a script. *)
Lemma observed {A} (r : option (option sys)) (f : sys → A) v :
  fmap (M := option) f <$> r = Some (Some v) → ∃ σ, r = Some (Some σ) ∧ f σ = v.
Proof. destruct r as [[σ|]|]; simpl; [|done..]. intros [= <-]. eauto. Qed.

Lemma observed_run {A} (r : option sys) (f : sys → A) v :
  f <$> r = Some v → ∃ σ, r = Some σ ∧ f σ = v.
Proof. destruct r as [σ|]; simpl; [|done]. intros [= <-]. eauto. Qed.

(** ** Priority inheritance *)

(** C37: a raised owner is misplaced.  The boost writes the owner's priority but
    leaves a READY owner on the ready list of its old one.  So, in the
    application, priority inheritance can fail: the logger holds the status
    mutex when a sample and a UART byte arrive; the control task blocks on the
    mutex and raises the logger to priority 3; but the next switch runs the
    comms task, of priority 2.  And when the raised owner is taken off its old
    ready list, the bit of that list stays set, because the list and the bit
    that are looked at are those of the new priority: if the owner then sleeps
    before it unlocks, the next switch follows the stale bit to an empty list
    and takes the list head for a task, which is undefined behaviour. *)
Theorem boosted_owner_misplaced :
  (∃ σ, issue_app (logger_locked ++ byte_arrives ++ control_locks) = Some (Some σ) ∧
    owner_at σ g_status_mutex = Some logger_tcb ∧ state_of control_tcb σ = Some NIMBLE_TASK_BLOCKED ∧
    state_of logger_tcb σ = Some NIMBLE_TASK_READY ∧ priority_of logger_tcb σ = Some 3 ∧
    nimble_current_tcb (ks σ) = Some comms_tcb ∧ priority_of comms_tcb σ = Some 2) ∧
  (∃ σ, issue_app (logger_locked ++ control_locks) = Some (Some σ) ∧
     nimble_current_tcb (ks σ) = Some logger_tcb ∧
     Z.testbit (ready_bitmap (ks σ)) 1 = true ∧ contents (nodes (ks σ)) (NReady 1) = Some []) ∧
  issue_app (logger_locked ++ control_locks ++ away (CDelay 5)) = Some None.
Proof.
  split; [|split; [|by vm_compute]].
  - destruct (observed (issue_app (logger_locked ++ byte_arrives ++ control_locks))
      (λ σ, (owner_at σ g_status_mutex, state_of control_tcb σ, state_of logger_tcb σ,
             priority_of logger_tcb σ, nimble_current_tcb (ks σ), priority_of comms_tcb σ))
      (Some logger_tcb, Some NIMBLE_TASK_BLOCKED, Some NIMBLE_TASK_READY, Some 3, Some comms_tcb, Some 2))
      as (σ&E&Hv); [by vm_compute|].
    exists σ. split; [exact E|]. clear E. by injection Hv.
  - destruct (observed (issue_app (logger_locked ++ control_locks))
      (λ σ, (nimble_current_tcb (ks σ), Z.testbit (ready_bitmap (ks σ)) 1,
             contents (nodes (ks σ)) (NReady 1)))
      (Some logger_tcb, true, Some [])) as (σ&E&Hv); [by vm_compute|].
    exists σ. split; [exact E|]. clear E. by injection Hv.
Qed.

(** ** Queues *)

(** C38: a lost wake-up.  A sender that blocked on a full queue and is woken
    puts its item in without waking a receiver.  Here the receiver has
    emptied the queue and blocked on it in the meantime: it goes on waiting,
    without a timeout, on a queue that holds an item. *)
Theorem queue_lost_wakeup :
  ∃ σ, run_events lost_wakeup_run lab = Some σ ∧
    q_count <$> queues (ks σ) !! g_adc_sample_queue = Some 1 ∧
    state_of control_tcb σ = Some NIMBLE_TASK_BLOCKED ∧
    contents (nodes (ks σ)) (NQRecv g_adc_sample_queue) = Some [NEvent control_tcb] ∧
    phase_of σ control_tcb = Resuming (PReceive g_adc_sample_queue) ∧
    nimble_current_tcb (ks σ) = Some logger_tcb ∧ phase_of σ logger_tcb = User.
Proof.
  destruct (observed_run (run_events lost_wakeup_run lab)
    (λ σ, (q_count <$> queues (ks σ) !! g_adc_sample_queue, state_of control_tcb σ,
           contents (nodes (ks σ)) (NQRecv g_adc_sample_queue), phase_of σ control_tcb,
           nimble_current_tcb (ks σ), phase_of σ logger_tcb))
    (Some 1, Some NIMBLE_TASK_BLOCKED, Some [NEvent control_tcb],
     Resuming (PReceive g_adc_sample_queue), Some logger_tcb, User)) as (σ&E&Hv); [by vm_compute|].
  exists σ. split; [exact E|]. clear E. by injection Hv.
Qed.

(** ** The shared state of the application *)

(** A lost fault.  The control task decides on the transition to RUNNING
    and, before it takes the mutex to publish it, the protection task notes a
    fault.  The write that follows overwrites FAULT, and neither copy of the
    state shows the fault any more. *)
Theorem fault_overwritten g smp :
  let a := Demo Deciding (Control PS_STATE_SOFT_START 49) g in
  let a' := demo_run [Control_step smp; Fault; Control_step smp; Control_step smp] a in
  ps_state (g_status (demo_run [Control_step smp; Fault] a)) = PS_STATE_FAULT ∧
  ps_state (g_status a') = PS_STATE_RUNNING ∧ local_state (ctl a') = PS_STATE_RUNNING ∧
  pc a' = Waiting.
Proof. by vm_compute. Qed.

(** C39: The same on the kernel, from reset: the control task ends the soft start
    with its fiftieth step, and a fault comes after it has stored the
    measurement.  The protection task preempts it and notes the fault; the
    control task then writes RUNNING, and waits, RUNNING, for the next sample. *)
Theorem fault_lost :
  ∃ a, app_runs lab_reset (replicate 64 0) a ∧ quiet a ∧
    fault_count (a_status a) = 1 ∧ ps_state (a_status a) = PS_STATE_RUNNING ∧
    a_pcs a !! control_tcb = Some (InCall (CtlReceive (Control PS_STATE_RUNNING 50)) None) ∧
    a_pcs a !! protection_tcb = Some (InCall ProtTake None).
Proof.
  exists (app_after (soft_started ++ sample_arrived ++ replicate 5 Run ++ fault_noted ++
    replicate 11 Run ++ [switch])).
  split; [apply app_after_runs; by vm_compute|]. split; [apply quietb_ok; by vm_compute|].
  by vm_compute.
Qed.

(** ** Interrupts during the boot *)

(** A tick before [nimble_scheduler_init] follows the null pointer of the
    delayed list: SysTick runs from [nimble_stm32f4_system_init] on. *)
Lemma tick_before_init s : boot s → SysTick_Handler s = None.
Proof.
  intros [HN _ _ _ _ _].
  unfold SysTick_Handler, nimble_scheduler_tick, mbind, M_bind, on_nodes, zoom, get_next, oget.
  simpl. by rewrite HN.
Qed.

(** A tick after it and before [nimble_scheduler_start] makes PendSV switch
    to the idle task, away from [main], which is no task and is not resumed. *)
Lemma tick_during_main :
  match (nimble_scheduler_init ;; SysTick_Handler ;; PendSV_Handler) lab_reset with
  | Some (_, s) => (nimble_current_tcb s, size (tcbs s))
  | None => (None, 0%nat)
  end = (Some idle_tcb, 1%nat).
Proof. by vm_compute. Qed.
